(* ===== verification/_CoqProject ===== *)
-Q . S2P
Prelude.v
Linux.v
FdInterface.v
FdManager.v
Futex.v
Frontier.v
Bytes.v
Guest.v
Vfs.v
VfsOps.v
VfsMeta.v
Mapping.v
Pipe.v
VfsProps.v
VfsInv.v
Net.v
Transfer.v
NetProps.v
Pending.v
Io.v
Blocking.v
BlockingProps.v
RetryProps.v
Registry.v
Wire.v
WireProps.v
WireDecode.v
WireChannel.v
ProcState.v
ProcProps.v
