(* ===== verification/Prelude.v ===== *)
(** * DetSim: a verification development

    DetSim runs a distributed program as a set of traced processes, emulates
    the kernel underneath them deterministically, and searches the states the
    emulated system can reach.  This library models the parts that decide
    what the guest programs observe and which states the search visits, and
    proves them correct.  Source paths are relative to the repository.

    ** The program and its parts

    Each simulated node has a virtual kernel: a descriptor table
    ([src/src/subsys/fs/fd_manager.cpp]), a file system with pipes and file
    mappings ([src/src/subsys/fs/fsstate.cpp]), sockets and epoll instances
    ([src/src/subsys/net/sockstate.cpp]) and futex queues
    ([src/src/subsys/sync/futexstate.cpp]).  System calls on descriptors go
    through [src/src/subsys/io.cpp], which dispatches on the descriptor's kind.
    A call that would block becomes an unfinished call of its thread
    ([src/src/core/engine/pending_syscall.cpp], [src/src/subsys/pending_io.cpp]):
    it is suspended, may get a deadline, is retried or granted a result, and
    completes.  Guest memory is reached by exact transfers
    ([src/src/core/guest.cpp]).  Above the nodes, the search keeps a frontier
    of states ([src/src/core/search/frontier.cpp]) and exchanges leases and
    edges with worker processes over a framed protocol
    ([src/src/core/search/protocol.cpp]).

    ** Files

    - [Prelude], [Linux], [Bytes]: machine integers with their wrap-around,
      exceptions and the state-and-exception monad [M], iteration of ordered
      maps, kernel constants, byte strings and pathname text.
    - [FdInterface], [FdManager]: the class [DescriptorNamespace] states what
      the descriptor table promises to its clients; [FdManager] is the
      implementation, its instance, and its archive.
    - [Futex]: [FutexState] and the futex handler of
      [src/src/core/syscall/handlers.cpp].
    - [Frontier]: the search frontier with all its operations.
    - [Guest]: exact memory transfers over an abstract process memory (class
      [ProcessVm]).
    - [Vfs], [VfsOps], [VfsMeta], [Mapping], [Pipe]: the file system state and
      path resolution; open, read, write, seek, rename, unlink; metadata and
      directory listing; file mappings; pipes.  [VfsProps], [VfsInv]: their
      theorems.
    - [Net], [Transfer], [NetProps]: sockets, connections, epoll; transfer of
      data; their theorems.
    - [Io]: the descriptor boundary, with select and poll.
    - [Pending], [Blocking]: deadlines and the validation of unfinished calls;
      their life in the whole simulator state, I/O retry, process exit and the
      pselect timer.  [BlockingProps], [RetryProps], [Registry]: their theorems.
    - [Wire], [WireProps], [WireDecode], [WireChannel]: the worker protocol.
    - [ProcState], [ProcProps]: the per-process kernel state
      ([src/src/subsys/process/process_state.cpp]), its calls and its archive,
      and the explored clock ([src/src/subsys/net/emu.cpp]).

    ** How state and operations correspond

    A C++ object is a record with the names of its fields; a method is a
    definition in the monad [M S], whose [Throw] keeps the state reached when
    the exception left the method.  [std::map] is [gmap] with [entries] for
    iteration in key order; a descriptor, address, offset or count is a [Z],
    and every conversion that can change a value is written out ([int32],
    [uint64], ...).  Errors are negative results, as in the code.  Clients of
    the descriptor table and of guest memory are proved against the classes,
    so their theorems hold for every implementation of them.

    ** What is proved

    - Frontier: recorded depths are shortest distances; a search reported
      complete has visited everything reachable; the dispatch indexes agree
      with the node table; commit, lease and admit on every branch; a stale
      lease cannot commit; a running search can always make progress.
    - Futex: queues and thread index agree in every reachable state; waking
      and requeueing are first-in first-out; no wake-up after a wait is lost;
      requeueing to address zero breaks the agreement (a finding).
    - Files and pipes: the file system stays well formed; open, write, rename
      and unlink do exactly what they should and nothing on failure; data
      written is read back; path resolution terminates and is canonical;
      pipes are bounded byte channels; mappings own exactly their pages.
    - Network: connect is all-or-nothing; every TCP stream is delivered in
      order exactly once under any interleaving; epoll reports exactly the
      ready descriptors; each explored choice of datagram takes that datagram.
    - Composition: the descriptor table and the payload tables agree after any
      calls on any nodes; unfinished calls follow an abstract life cycle and
      the scheduler's blocked flags are exact; a suspended I/O call is retried
      exactly when retrying it would not suspend it again; deadlines saturate.
    - Process kernel state: whatever calls a process makes, its state can be
      archived and is restored exactly; the random stream never degenerates.
    - Protocol: messages survive any splitting of the byte stream; the
      receiver accepts only exact encodings of well-formed messages.

    ** Bounds and fuel

    [Frontier.propagate_loop] takes fuel; [propagate_budget] (depth times
    out-degree, summed) is proved enough.  Path resolution follows at most 40
    links, and its fuel is proved never to run out.  [Wire.append_loop] is
    bounded by the bytes to append, each turn copying at least one.  Other
    loops recurse on their data.  Loops over the host ([Wire]) recurse on the
    script of the host's answers; a script that has run out stands for a peer
    that is silent until the deadline.

    ** Parameters

    [process_vm_readv] and [process_vm_writev] (class [ProcessVm], with a flat
    memory as instance), [inet_pton], the hash xxhash64, the modelled time of
    a file operation, and the contents of [/proc/<pid>/maps].  Nothing is
    assumed of [inet_pton]; the hash is a 64-bit value.

    ** Not modelled

    Capturing and restoring tracees (ptrace, [/proc], page snapshots), the
    state stores and archives other than those of the descriptor table and
    the process kernel state, the scheduler and the execution engine that
    drive host threads, the configuration, debug information, expression
    evaluation and the user interface: they are host input and output around the modelled parts.  The
    shared-object side channel of the protocol is not modelled, nor is the
    capture of the kernel state of a live process. *)

From Stdlib Require Export ZArith Lia Ascii String.
From Stdlib Require Export Strings.Byte.
From stdpp Require Export base tactics numbers list gmap strings sorting fin_maps.
From stdpp Require Export options.

#[global] Set Default Proof Using "Type".

Declare Scope detsim_scope.
Delimit Scope detsim_scope with detsim.
#[global] Open Scope Z_scope.
#[global] Open Scope detsim_scope.

(** ** Hint databases

    [detsim] holds the lemmas that close the routine side conditions;
    [machine] the rewrite rules of the fixed-width integers. *)

Create HintDb detsim.
Create Rewrite HintDb machine.

(** ** Machine integers

    A C integer is a [Z]; every place where the code converts, wraps or
    truncates says so with one of the functions below. *)

Definition uint8 (z : Z) : Z := z mod 2 ^ 8.
Definition uint16 (z : Z) : Z := z mod 2 ^ 16.
Definition uint32 (z : Z) : Z := z mod 2 ^ 32.
Definition uint64 (z : Z) : Z := z mod 2 ^ 64.
Definition int32 (z : Z) : Z := (z + 2 ^ 31) mod 2 ^ 32 - 2 ^ 31.
Definition int64 (z : Z) : Z := (z + 2 ^ 63) mod 2 ^ 64 - 2 ^ 63.

Definition INT_MAX : Z := 2 ^ 31 - 1.
Definition INT_MIN : Z := - 2 ^ 31.
Definition UINT32_MAX : Z := 2 ^ 32 - 1.
Definition UINT64_MAX : Z := 2 ^ 64 - 1.
Definition INT64_MAX : Z := 2 ^ 63 - 1.
Definition INT64_MIN : Z := - 2 ^ 63.
Definition SSIZE_MAX : Z := INT64_MAX.
Definition UINTPTR_MAX : Z := UINT64_MAX.
Definition SIZE_MAX : Z := UINT64_MAX.

(** C's test of a flag mask: [if (x & mask)]. *)
Definition has (x mask : Z) : bool := negb (Z.land x mask =? 0).

Lemma uint64_small z : 0 ≤ z ≤ UINT64_MAX → uint64 z = z.
Proof. unfold uint64, UINT64_MAX. intros. apply Z.mod_small. lia. Qed.

Lemma uint32_small z : 0 ≤ z ≤ UINT32_MAX → uint32 z = z.
Proof. unfold uint32, UINT32_MAX. intros. apply Z.mod_small. lia. Qed.

Lemma int32_small z : INT_MIN ≤ z ≤ INT_MAX → int32 z = z.
Proof.
  unfold int32, INT_MIN, INT_MAX. intros. rewrite Z.mod_small; lia.
Qed.

Lemma int64_small z : INT64_MIN ≤ z ≤ INT64_MAX → int64 z = z.
Proof.
  unfold int64, INT64_MIN, INT64_MAX. intros. rewrite Z.mod_small; lia.
Qed.

Lemma uint64_range z : 0 ≤ uint64 z ≤ UINT64_MAX.
Proof.
  unfold uint64, UINT64_MAX. pose proof (Z.mod_pos_bound z (2 ^ 64)). lia.
Qed.

Lemma has_0_l mask : has 0 mask = false.
Proof. unfold has. by rewrite Z.land_0_l. Qed.

Lemma has_false x mask : has x mask = false ↔ Z.land x mask = 0.
Proof. unfold has. rewrite negb_false_iff. apply Z.eqb_eq. Qed.

Lemma has_true x mask : has x mask = true ↔ Z.land x mask ≠ 0.
Proof. unfold has. rewrite negb_true_iff. apply Z.eqb_neq. Qed.

#[export] Hint Rewrite uint64_small uint32_small int32_small int64_small
  using (unfold UINT64_MAX, UINT32_MAX, INT_MIN, INT_MAX, INT64_MIN,
    INT64_MAX in *; lia) : machine.

(** ** Bytes

    A [char] or [uint8_t] buffer is a [list byte]. *)

#[export] Instance byte_eq_dec : EqDecision byte := Byte.byte_eq_dec.

Definition Z_of_byte (b : byte) : Z := Z.of_N (Byte.to_N b).
Definition byte_of_Z (z : Z) : byte :=
  default Byte.x00 (Byte.of_N (Z.to_N (uint8 z))).

Lemma Z_of_byte_range b : 0 ≤ Z_of_byte b < 256.
Proof.
  unfold Z_of_byte. pose proof (Byte.to_N_bounded b). lia.
Qed.

Lemma Z_of_byte_of_Z z : Z_of_byte (byte_of_Z z) = uint8 z.
Proof.
  unfold Z_of_byte, byte_of_Z, uint8.
  pose proof (Z.mod_pos_bound z (2 ^ 8)) as Hb.
  destruct (Byte.of_N _) as [b|] eqn:E; simpl.
  - apply Byte.to_of_N in E. rewrite E. lia.
  - apply Byte.of_N_None_iff in E. lia.
Qed.

Lemma byte_of_Z_of_byte b : byte_of_Z (Z_of_byte b) = b.
Proof.
  unfold byte_of_Z, uint8. rewrite Z.mod_small by apply Z_of_byte_range.
  unfold Z_of_byte. by rewrite N2Z.id, Byte.of_to_N.
Qed.

(** [std::string(bytes.begin(), bytes.end())] and back. *)
Definition str_of_bytes (bs : list byte) : string := string_of_list_byte bs.
Definition bytes_of_str (s : string) : list byte := list_byte_of_string s.

Definition zlength {A} (l : list A) : Z := Z.of_nat (length l).

Lemma zlength_nonneg {A} (l : list A) : 0 ≤ zlength l.
Proof. unfold zlength. lia. Qed.

Lemma zlength_app {A} (l k : list A) : zlength (l ++ k) = zlength l + zlength k.
Proof. unfold zlength. rewrite length_app. lia. Qed.

Lemma zlength_cons {A} (x : A) l : zlength (x :: l) = 1 + zlength l.
Proof. unfold zlength. rewrite length_cons. lia. Qed.

Lemma zlength_fmap {A B} (f : A → B) l : zlength (f <$> l) = zlength l.
Proof. unfold zlength. by rewrite length_fmap. Qed.

Lemma sublist_fmap {A B} (f : A → B) l k :
  l `sublist_of` k → (f <$> l) `sublist_of` (f <$> k).
Proof. induction 1; simpl; by constructor. Qed.

Lemma sublist_fmap_NoDup {A B} (f : A → B) l k :
  l `sublist_of` k → NoDup (f <$> k) → NoDup (f <$> l).
Proof. intros H Hk. eapply sublist_NoDup; [exact Hk|]. by apply sublist_fmap. Qed.

Lemma sublist_elem_of_fmap {A B} (f : A → B) l k x :
  l `sublist_of` k → x ∈ f <$> l → x ∈ f <$> k.
Proof. intros H. apply sublist_subseteq. by apply sublist_fmap. Qed.

Lemma alter_insert_lookup {K A} `{Countable K} (g : A → A) (m : gmap K A) k x :
  m !! k = Some x → alter g k m = <[k := g x]> m.
Proof.
  intros Hk. apply map_eq. intros j. destruct (decide (j = k)) as [->|Hne].
  - by rewrite lookup_alter_eq, lookup_insert_eq, Hk.
  - by rewrite lookup_alter_ne, lookup_insert_ne by done.
Qed.

Lemma foldl_insert_list_to_map {K A} `{Countable K} (l : list (K * A)) (acc : gmap K A) :
  NoDup l.*1 →
  foldl (λ m p, <[p.1 := p.2]> m) acc l = list_to_map l ∪ acc.
Proof.
  revert acc. induction l as [|[k e] l IH]; intros acc; simpl.
  { by rewrite (left_id_L ∅ (∪)). }
  rewrite NoDup_cons. intros [Hk Hnd]. rewrite IH by done.
  rewrite <- insert_union_l, insert_union_r; [done|].
  by apply not_elem_of_list_to_map_1.
Qed.

(** ** Exceptions and state

    Throwing code returns an [outcome]; stateful code is a function from
    the state to the state it leaves and its outcome.  The state left by
    a [Throw] is kept: it is what a handler that swallows the exception
    would find. *)

Inductive exn :=
  | runtime_error (what : string)
  | invalid_argument (what : string)
  | length_error (what : string)
  | overflow_error (what : string)
  | out_of_range (what : string).

#[export] Instance exn_eq_dec : EqDecision exn.
Proof. solve_decision. Defined.

Inductive outcome (A : Type) : Type :=
  | Ret (a : A)
  | Throw (e : exn).
#[global] Arguments Ret {A} a.
#[global] Arguments Throw {A} e.

#[export] Instance outcome_eq_dec {A} `{!EqDecision A} : EqDecision (outcome A).
Proof. solve_decision. Defined.

#[export] Instance outcome_ret : MRet outcome := λ A a, Ret a.
#[export] Instance outcome_bind : MBind outcome := λ A B f o,
  match o with Ret a => f a | Throw e => Throw e end.

Definition M (S A : Type) : Type := S → S * outcome A.

#[export] Instance M_ret {S} : MRet (M S) := λ A a s, (s, Ret a).
#[export] Instance M_bind {S} : MBind (M S) := λ A B f m s,
  match m s with
  | (s', Ret a) => f a s'
  | (s', Throw e) => (s', Throw e)
  end.

Definition get {S} : M S S := λ s, (s, Ret s).
Definition gets {S A} (f : S → A) : M S A := λ s, (s, Ret (f s)).
Definition put {S} (s : S) : M S unit := λ _, (s, Ret tt).
Definition modify {S} (f : S → S) : M S unit := λ s, (f s, Ret tt).
Definition throw {S A} (e : exn) : M S A := λ s, (s, Throw e).
Definition lift {S A} (o : outcome A) : M S A := λ s, (s, o).

(** [if (c) throw e;] *)
Definition throw_if {S} (c : bool) (e : exn) : M S unit :=
  if c then throw e else mret tt.

(** Lay a computation open as a function of the state. *)
Ltac unmonad := unfold throw_if, mbind, M_bind, mret, M_ret, throw, get, modify, lift, put in *.

(** Run a computation on a part of the state. *)
Definition zoom {S T A} (proj : S → T) (upd : T → S → S) (m : M T A) : M S A :=
  λ s, let '(t, o) := m (proj s) in (upd t s, o).

(** The state and the result of a run, and that it did not throw. *)
Definition returns {S A} (m : M S A) (s : S) (a : A) (s' : S) : Prop :=
  m s = (s', Ret a).

Lemma bind_run {S A B} (f : A → M S B) (m : M S A) s :
  (m ≫= f) s =
    match m s with (s', Ret a) => f a s' | (s', Throw e) => (s', Throw e) end.
Proof. done. Qed.

Lemma bind_Ret_inv {S A B} (f : A → M S B) (m : M S A) s s' b :
  (m ≫= f) s = (s', Ret b) →
  ∃ s1 a, m s = (s1, Ret a) ∧ f a s1 = (s', Ret b).
Proof.
  rewrite bind_run. destruct (m s) as [s1 [a|e]]; naive_solver.
Qed.

Lemma ret_run {S A} (a : A) (s : S) : (mret a : M S A) s = (s, Ret a).
Proof. done. Qed.
Lemma guard_run {S B} (c : bool) e (k : M S B) (s : S) :
  (throw_if c e;; k) s = if c then (s, Throw e) else k s.
Proof. by destruct c. Qed.
Lemma lift_bind_run {S A B} (o : outcome A) (f : A → M S B) (s : S) :
  (lift o ≫= f) s = match o with Ret a => f a s | Throw e => (s, Throw e) end.
Proof. by destruct o. Qed.

(** ** Ordered iteration

    A [std::map] is a [gmap]; a loop over it visits the keys in
    increasing order, which [entries] lists. *)

Class KeyOrder (K : Type) := {
  key_le : relation K;
  key_le_dec :: RelDecision key_le;
  key_le_order :: TotalOrder key_le;
}.

#[export] Instance Z_le_total_order : TotalOrder Z.le.
Proof. split; [apply _|]. intros x y. unfold strict. lia. Qed.

#[export] Instance Z_key_order : KeyOrder Z := {| key_le := Z.le |}.

Section entries.
Context {K A : Type} `{Countable K, !KeyOrder K}.
Implicit Types m : gmap K A.

Definition entry_le (p q : K * A) : Prop := key_le p.1 q.1.
Definition entry_lt (p q : K * A) : Prop := key_le p.1 q.1 ∧ p.1 ≠ q.1.

#[global] Instance entry_le_dec : RelDecision entry_le.
Proof. unfold entry_le. intros p q. apply _. Defined.

#[global] Instance entry_le_total : Total entry_le.
Proof. intros p q. apply (total key_le). Qed.

#[global] Instance entry_le_trans : Transitive entry_le.
Proof. intros p q r. unfold entry_le. apply transitivity. Qed.

Definition entries m : list (K * A) := merge_sort entry_le (map_to_list m).

Lemma entries_Permutation m : entries m ≡ₚ map_to_list m.
Proof. apply merge_sort_Permutation. Qed.

Lemma elem_of_entries m k v : (k, v) ∈ entries m ↔ m !! k = Some v.
Proof. rewrite entries_Permutation. apply elem_of_map_to_list. Qed.

Lemma NoDup_fst_entries m : NoDup (entries m).*1.
Proof. rewrite entries_Permutation. apply NoDup_fst_map_to_list. Qed.

Lemma length_entries m : length (entries m) = size m.
Proof. rewrite entries_Permutation. apply length_map_to_list. Qed.

Lemma list_to_map_entries m : list_to_map (entries m) = m.
Proof.
  rewrite <- (list_to_map_to_list m) at 2.
  apply list_to_map_proper; [apply NoDup_fst_entries|apply entries_Permutation].
Qed.

Lemma StronglySorted_entries m : StronglySorted entry_lt (entries m).
Proof.
  pose proof (NoDup_fst_entries m) as Hnd.
  assert (StronglySorted entry_le (entries m)) as Hs
    by apply (StronglySorted_merge_sort entry_le).
  induction Hs as [|p l Hs IH Hall]; [constructor|].
  rewrite fmap_cons, NoDup_cons in Hnd. destruct Hnd as [Hp Hnd].
  constructor; [by apply IH|].
  rewrite Forall_forall in Hall |- *. intros q Hq. split; [by apply Hall|].
  intros Heq. apply Hp. rewrite Heq. by apply list_elem_of_fmap_2.
Qed.

(** A strictly sorted association list is the iteration of its map. *)
Lemma entries_list_to_map (l : list (K * A)) :
  StronglySorted entry_lt l → entries (list_to_map l) = l.
Proof.
  intros Hl.
  assert (NoDup l.*1) as Hnd.
  { induction Hl as [|p l Hl IH Hall]; [constructor|].
    rewrite fmap_cons, NoDup_cons. split; [|done].
    intros ([k v] & Heq & Hin)%list_elem_of_fmap.
    rewrite Forall_forall in Hall. destruct (Hall _ Hin) as [_ Hne].
    by rewrite Heq in Hne. }
  assert (∀ k, StronglySorted entry_lt k → StronglySorted entry_le k) as Hle.
  { intros k. induction 1 as [|p k Hk IH Hall]; constructor; [done|].
    eapply Forall_impl; [done|]. by intros q [? _]. }
  assert (Hperm : entries (list_to_map (M:=gmap K A) l) ≡ₚ l).
  { rewrite entries_Permutation. by apply map_to_list_to_map. }
  pose proof (StronglySorted_entries (list_to_map l)) as Hs.
  revert Hs Hperm. generalize (entries (list_to_map (M:=gmap K A) l)). clear Hnd Hle.
  induction Hl as [|p l Hl IH Hall]; intros k Hk Hperm.
  { by apply Permutation_nil_r in Hperm. }
  destruct k as [|q k]; [by apply Permutation_nil_cons in Hperm|].
  inversion_clear Hk as [|? ? Hk' Hallk].
  assert (p = q) as ->.
  { assert (q ∈ p :: l) as Hq by (rewrite <- Hperm; left).
    assert (p ∈ q :: k) as Hp by (rewrite Hperm; left).
    apply elem_of_cons in Hq as [->|Hq]; [done|].
    apply elem_of_cons in Hp as [->|Hp]; [done|].
    rewrite Forall_forall in Hall, Hallk.
    destruct (Hall _ Hq) as [H1 H2], (Hallk _ Hp) as [H3 _].
    destruct H2. by apply (anti_symm key_le). }
  f_equal. apply IH; [done|]. by apply Permutation_cons_inv in Hperm.
Qed.

Lemma entries_empty : entries (∅ : gmap K A) = [].
Proof. unfold entries. by rewrite map_to_list_empty. Qed.

(** The first entry, in key order, that satisfies a test. *)
Definition first_entry (P : K → A → bool) m : option (K * A) :=
  find (λ p, P p.1 p.2) (entries m).

Lemma first_entry_Some P m k v :
  first_entry P m = Some (k, v) → m !! k = Some v ∧ P k v = true.
Proof.
  unfold first_entry. intros [Hin HP]%List.find_some. split; [|done].
  apply elem_of_entries. by apply list_elem_of_In.
Qed.

Lemma first_entry_None P m :
  first_entry P m = None ↔ ∀ k v, m !! k = Some v → P k v = false.
Proof.
  unfold first_entry. split.
  - intros Hn k v Hkv. apply (List.find_none _ _ Hn (k, v)).
    apply list_elem_of_In. by apply elem_of_entries.
  - intros Hall. destruct (find _ _) as [[k v]|] eqn:E; [|done].
    apply List.find_some in E as [Hin HP].
    apply list_elem_of_In, elem_of_entries in Hin. simpl in HP.
    by rewrite (Hall k v Hin) in HP.
Qed.
End entries.
