(* ===== verification/FdInterface.v ===== *)
(** * The descriptor namespace: interface

    The contract between the shared descriptor table
    ([src/src/subsys/fs/fd_manager.h]) and its clients, the virtual file
    system and the socket layer.  The clients are modelled and proved
    against [DescriptorNamespace]; [FdManager] discharges it. *)

From S2P Require Import Prelude Linux.

(** [enum class FdType] *)
Inductive FdType := FILE | SOCKET | EPOLL | PIPE | STDIO | UNKNOWN.

#[export] Instance FdType_eq_dec : EqDecision FdType.
Proof. solve_decision. Defined.

(** [struct FdManager::Entry] *)
Record Entry := mkEntry {
  kind : FdType;
  status_flags : Z;
  descriptor_flags : Z;
}.

#[export] Instance Entry_eq_dec : EqDecision Entry.
Proof. solve_decision. Defined.

Definition valid_kind (k : FdType) : bool :=
  match k with UNKNOWN => false | _ => true end.

(** The test of [validate_entry]; an entry that fails it is refused with an
    exception. *)
Definition entry_ok (k : FdType) (status descriptor : Z) : bool :=
  negb (negb (valid_kind k) || (status <? 0)
        || (Z.land status O_ACCMODE =? O_ACCMODE)
        || has status (Z.lor O_ASYNC (Z.lor O_DIRECT O_NOATIME))
        || has descriptor (Z.lnot FD_CLOEXEC)).

Definition validate_entry (k : FdType) (status descriptor : Z) : outcome unit :=
  if entry_ok k status descriptor then Ret tt
  else Throw (runtime_error "Invalid virtual descriptor entry").

(** What the table offers and what it promises.  [fd_view] is the abstract
    state: which descriptors are allocated and with what entry. *)
Class DescriptorNamespace (FD : Type) := {
  fd_view : FD → Z → option Entry;
  get_next_fd : FD → Z;
  allocate_fd : FdType → Z → Z → M FD Z;
  release_fd : Z → FD → FD;
  do_fcntl : Z → Z → Z → M FD Z;
  allocated_fds : FD → gset Z;

  allocated_fds_spec t fd : fd ∈ allocated_fds t ↔ is_Some (fd_view t fd);
  allocate_fd_next k st de t :
    entry_ok k st de = true →
    ∃ t', allocate_fd k st de t = (t', Ret (get_next_fd t));
  allocate_fd_bad k st de t :
    entry_ok k st de = false →
    allocate_fd k st de t =
      (t, Throw (runtime_error "Invalid virtual descriptor entry"));
  allocate_fd_full k st de t t' fd :
    allocate_fd k st de t = (t', Ret fd) → fd < 0 → t' = t;
  allocate_fd_view k st de t t' fd :
    allocate_fd k st de t = (t', Ret fd) → 0 ≤ fd →
    fd_view t fd = None ∧
    ∀ j, fd_view t' j = if decide (j = fd) then Some (mkEntry k st de)
                        else fd_view t j;
  release_fd_view t fd j :
    fd_view (release_fd fd t) j =
      if decide (j = fd) then None else fd_view t j;
  do_fcntl_other fd c a t t' o j :
    do_fcntl fd c a t = (t', o) → j ≠ fd → fd_view t' j = fd_view t j;
  do_fcntl_same fd c a t t' o :
    do_fcntl fd c a t = (t', o) →
    match fd_view t fd with
    | None => t' = t ∧ o = Ret (- EBADF)
    | Some e => ∃ e', fd_view t' fd = Some e' ∧ kind e' = kind e
    end;
}.

Section queries.
Context {FD : Type} `{!DescriptorNamespace FD}.
Implicit Types t : FD.

Definition is_allocated t (fd : Z) : bool :=
  match fd_view t fd with Some _ => true | None => false end.

Definition get_fd_type t (fd : Z) : FdType :=
  match fd_view t fd with Some e => kind e | None => UNKNOWN end.

Definition get_status_flags t (fd : Z) : Z :=
  match fd_view t fd with Some e => status_flags e | None => - EBADF end.

Definition get_descriptor_flags t (fd : Z) : Z :=
  match fd_view t fd with Some e => descriptor_flags e | None => - EBADF end.

Lemma allocate_fd_inv k st de t t' o :
  allocate_fd k st de t = (t', o) →
  (t' = t ∧ ∃ e, o = Throw e) ∨ (t' = t ∧ ∃ fd, o = Ret fd ∧ fd < 0) ∨
  (∃ fd, o = Ret fd ∧ 0 ≤ fd ∧ fd_view t fd = None ∧
     ∀ j, fd_view t' j =
       if decide (j = fd) then Some (mkEntry k st de) else fd_view t j).
Proof.
  intros Ha. destruct (entry_ok k st de) eqn:E.
  - destruct (allocate_fd_next k st de t E) as [t1 H1].
    rewrite H1 in Ha. simplify_eq.
    destruct (decide (get_next_fd t < 0)) as [Hn|Hn].
    + right; left. split; [by eapply allocate_fd_full|]. eauto.
    + right; right. eexists. split; [done|]. split; [lia|].
      eapply allocate_fd_view; [done|lia].
  - rewrite allocate_fd_bad in Ha by done. simplify_eq. eauto.
Qed.

Lemma is_allocated_true t fd : is_allocated t fd = true ↔ is_Some (fd_view t fd).
Proof.
  unfold is_allocated. destruct (fd_view t fd); split; naive_solver.
Qed.
End queries.
