(* ===== verification/FdManager.v ===== *)
(** * The shared descriptor table

    [src/src/subsys/fs/fd_manager.h], [fd_manager.cpp]: one ordered map from
    descriptor number to entry, shared by files, pipes, sockets and epoll. *)

From S2P Require Import Prelude Linux FdInterface.

Record FdManager := mkFdManager { entries_ : gmap Z Entry }.

#[export] Instance FdManager_eq_dec : EqDecision FdManager.
Proof. solve_decision. Defined.

(** [FdManager::FdManager()] *)
Definition FdManager_init : FdManager := mkFdManager (
  <[0 := mkEntry STDIO O_RDONLY 0]> (
  <[1 := mkEntry STDIO O_WRONLY 0]> (
  <[2 := mkEntry STDIO O_WRONLY 0]> ∅))).

(** The loop of [FdManager::get_next_fd] over the entries in key order. *)
Fixpoint next_fd_loop (l : list (Z * Entry)) (candidate : Z) : Z :=
  match l with
  | [] => candidate
  | (fd, _) :: l' =>
      if fd >? candidate then candidate
      else if candidate =? INT_MAX then - EMFILE
      else next_fd_loop l' (candidate + 1)
  end.

Definition FdManager_get_next_fd (m : FdManager) : Z :=
  next_fd_loop (entries (entries_ m)) 0.

(** [std::map::emplace]: an existing entry is kept. *)
Definition emplace {K A} `{Countable K} (k : K) (a : A) (m : gmap K A) : gmap K A :=
  match m !! k with Some _ => m | None => <[k := a]> m end.

Definition FdManager_allocate_fd (type : FdType) (status descriptor : Z) : M FdManager Z :=
  lift (validate_entry type status descriptor);;
  m ← get;
  let fd := FdManager_get_next_fd m in
  (if 0 <=? fd
   then put (mkFdManager (emplace fd (mkEntry type status descriptor) (entries_ m)))
   else mret tt);;
  mret fd.

Definition FdManager_release_fd (fd : Z) (m : FdManager) : FdManager :=
  mkFdManager (delete fd (entries_ m)).

Definition set_descriptor_flags (fl : Z) (e : Entry) : Entry :=
  mkEntry (kind e) (status_flags e) fl.
Definition set_status_flags (fl : Z) (e : Entry) : Entry :=
  mkEntry (kind e) fl (descriptor_flags e).

Definition settable_flags : Z := Z.lor O_APPEND O_NONBLOCK.

(** [(old & ~mask) | (argument & mask)] *)
Definition merge_flags (old argument mask : Z) : Z :=
  Z.lor (Z.land old (Z.lnot mask)) (Z.land argument mask).


Definition FdManager_do_fcntl (fd command argument : Z) : M FdManager Z :=
  m ← get;
  match entries_ m !! fd with
  | None => mret (- EBADF)
  | Some e =>
      if command =? F_GETFL then mret (status_flags e)
      else if command =? F_GETFD then mret (descriptor_flags e)
      else if command =? F_SETFD then
        put (mkFdManager (<[fd := set_descriptor_flags (Z.land argument FD_CLOEXEC) e]> (entries_ m)));;
        mret 0
      else if command =? F_SETFL then
        throw_if (has argument (Z.lor O_ASYNC (Z.lor O_DIRECT O_NOATIME)))
          (runtime_error "Unsupported virtual F_SETFL flags");;
        put (mkFdManager (<[fd := set_status_flags
               (merge_flags (status_flags e) argument settable_flags) e]> (entries_ m)));;
        mret 0
      else throw (runtime_error "Unsupported virtual fcntl command")
  end.

Definition get_allocated_fds (m : FdManager) : gset Z := dom (entries_ m).

(** ** Serialization

    [cereal]'s binary archives are outside the repository.  What the code
    relies on: an input archive yields the scalars in the order an output
    archive was given them, and throws when none is left. *)

Class ScalarArchive (In : Type) := {
  ar_of : list Z → In;
  ar_take : In → outcome (Z * In);
  ar_take_of z l : ar_take (ar_of (z :: l)) = Ret (z, ar_of l);
  ar_take_end : ∃ e, ar_take (ar_of []) = Throw e;
}.

#[export] Program Instance list_archive : ScalarArchive (list Z) := {|
  ar_of l := l;
  ar_take l := match l with
               | [] => Throw (runtime_error "Failed to read from input stream")
               | z :: l' => Ret (z, l')
               end;
|}.
Next Obligation. done. Qed.
Next Obligation. eauto. Qed.

Definition Z_of_FdType (k : FdType) : Z :=
  match k with
  | FILE => 0 | SOCKET => 1 | EPOLL => 2 | PIPE => 3 | STDIO => 4 | UNKNOWN => 5
  end.

(** An enum value read from an archive can be outside the enumerators; such a
    value fails [valid_kind]. *)
Definition FdType_of_Z (z : Z) : FdType :=
  if z =? 0 then FILE else if z =? 1 then SOCKET else if z =? 2 then EPOLL
  else if z =? 3 then PIPE else if z =? 4 then STDIO else UNKNOWN.

Definition max_archived_descriptors : Z := 2 ^ 20.

(** [FdManager::serialize] on an output archive: the scalars it writes. *)
Definition FdManager_save (m : FdManager) : outcome (list Z) :=
  if Z.of_nat (size (entries_ m)) >? max_archived_descriptors
  then Throw (runtime_error "Virtual descriptor archive exceeds limit")
  else Ret (Z.of_nat (size (entries_ m)) ::
            concat (map (λ p, [p.1; Z_of_FdType (kind p.2); status_flags p.2;
                               descriptor_flags p.2]) (entries (entries_ m)))).

Section load.
Context {In : Type} `{!ScalarArchive In}.

Fixpoint load_entries (n : nat) (a : In) (restored : gmap Z Entry)
    : outcome (gmap Z Entry * In) :=
  match n with
  | O => Ret (restored, a)
  | S n' =>
      '(zfd, a) ← ar_take a;
      '(zkind, a) ← ar_take a;
      '(zstatus, a) ← ar_take a;
      '(zdesc, a) ← ar_take a;
      let fd := int32 zfd in
      let e := mkEntry (FdType_of_Z (int32 zkind)) (int32 zstatus) (int32 zdesc) in
      validate_entry (kind e) (status_flags e) (descriptor_flags e);;
      if (fd <? 0) || bool_decide (is_Some (restored !! fd))
      then Throw (runtime_error "Invalid or duplicate virtual descriptor")
      else load_entries n' a (<[fd := e]> restored)
  end.

(** [FdManager::serialize] on an input archive; the rest of the archive. *)
Definition FdManager_load (a : In) : M FdManager In :=
  '(zcount, a) ← lift (ar_take a);
  let count := uint64 zcount in
  throw_if (count >? max_archived_descriptors)
    (runtime_error "Virtual descriptor archive exceeds limit");;
  '(restored, a) ← lift (load_entries (Z.to_nat count) a ∅);
  put (mkFdManager restored);;
  mret a.
End load.

(** ** Invariant: numbers are non-negative ints, entries are valid. *)

Definition fdm_wf (m : FdManager) : Prop :=
  map_Forall (λ fd e, 0 ≤ fd ≤ INT_MAX ∧
    entry_ok (kind e) (status_flags e) (descriptor_flags e) = true ∧
    status_flags e ≤ INT_MAX) (entries_ m).

(** ** The lowest-numbered free descriptor *)

Lemma next_fd_loop_spec l c :
  StronglySorted entry_lt l →
  Forall (λ p, c ≤ p.1 ≤ INT_MAX) l →
  c ≤ INT_MAX →
  (next_fd_loop l c = - EMFILE ∧ (∀ i, c ≤ i ≤ INT_MAX → i ∈ l.*1)) ∨
  (c ≤ next_fd_loop l c ∧ (next_fd_loop l c ∉ l.*1) ∧
   next_fd_loop l c - c ≤ zlength l ∧
   (∀ i, c ≤ i < next_fd_loop l c → i ∈ l.*1)).
Proof.
  intros Hs. revert c.
  induction Hs as [|[fd e] l Hs IH Hall]; intros c Hge Hc; simpl.
  { right. split; [lia|]. split; [apply not_elem_of_nil|].
    unfold zlength. simpl. split; [lia|]. intros; lia. }
  apply Forall_cons in Hge as [Hfd Hge]. simpl in Hfd.
  rewrite Forall_forall in Hall, Hge.
  assert (∀ x, x ∈ l.*1 → fd < x ≤ INT_MAX) as Hlt.
  { intros x ([k v] & -> & Hin)%list_elem_of_fmap. simpl.
    destruct (Hall _ Hin) as [H1 H2], (Hge _ Hin) as [_ H3].
    simpl in H1, H2, H3. lia. }
  destruct (Z.gtb_spec fd c) as [Hgt|Hle].
  { right. unfold zlength. simpl. split; [lia|]. split; [|split; [lia|intros; lia]].
    rewrite elem_of_cons. intros [Heq|Hin]; [lia|]. apply Hlt in Hin. lia. }
  assert (fd = c) as -> by lia.
  destruct (Z.eqb_spec c INT_MAX) as [->|Hne].
  { left. split; [done|]. intros i Hi. rewrite elem_of_cons. left. lia. }
  assert (Forall (λ p, c + 1 ≤ p.1 ≤ INT_MAX) l) as Hge'.
  { apply Forall_forall. intros [k v] Hin. simpl.
    specialize (Hlt k (list_elem_of_fmap_2 fst l (k, v) Hin)). lia. }
  unfold zlength in *. simpl.
  destruct (IH (c + 1) Hge' ltac:(lia)) as [[Hr Hi]|(H1 & H2 & H3 & H4)].
  - left. split; [done|]. intros i Hb. rewrite elem_of_cons.
    destruct (decide (i = c)); [by left|right]. apply Hi. lia.
  - right. split; [lia|]. rewrite elem_of_cons. split; [|split; [lia|]].
    + intros [Heq|?]; [lia|done].
    + intros i Hb. rewrite elem_of_cons.
      destruct (decide (i = c)); [by left|right]. apply H4. lia.
Qed.

Lemma elem_of_fst_entries {A} (m : gmap Z A) k :
  k ∈ (entries m).*1 ↔ is_Some (m !! k).
Proof.
  rewrite list_elem_of_fmap. split.
  - intros ([k' v] & -> & Hin). apply elem_of_entries in Hin. eauto.
  - intros [v Hv]. exists (k, v). split; [done|]. by apply elem_of_entries.
Qed.

Lemma get_next_fd_cases m :
  fdm_wf m →
  (FdManager_get_next_fd m = - EMFILE ∧
    (∀ i, 0 ≤ i ≤ INT_MAX → is_Some (entries_ m !! i))) ∨
  (0 ≤ FdManager_get_next_fd m ∧ entries_ m !! FdManager_get_next_fd m = None ∧
    FdManager_get_next_fd m ≤ Z.of_nat (size (entries_ m)) ∧
    (∀ i, 0 ≤ i < FdManager_get_next_fd m → is_Some (entries_ m !! i))).
Proof.
  intros Hwf. unfold FdManager_get_next_fd.
  assert (Forall (λ p, 0 ≤ p.1 ≤ INT_MAX) (entries (entries_ m))) as Hge.
  { apply Forall_forall. intros [k e] Hin%elem_of_entries.
    by destruct (Hwf _ _ Hin). }
  destruct (next_fd_loop_spec (entries (entries_ m)) 0
    (StronglySorted_entries _) Hge ltac:(done)) as [[-> Hi]|(H1 & H2 & H3 & H4)].
  - left. split; [done|]. intros i Hb. by apply elem_of_fst_entries, Hi.
  - right. split; [done|]. split; [|split].
    + apply eq_None_not_Some. by rewrite <- elem_of_fst_entries.
    + unfold zlength in H3. rewrite length_entries in H3. lia.
    + intros i Hb. by apply elem_of_fst_entries, H4.
Qed.

(** Freshness needs no invariant: the candidate stays above every number
    already passed and below the one the loop stops at. *)
Lemma next_fd_loop_fresh l c :
  StronglySorted entry_lt l →
  next_fd_loop l c = - EMFILE ∨
  (c ≤ next_fd_loop l c ∧ next_fd_loop l c ∉ l.*1).
Proof.
  intros Hs. revert c. induction Hs as [|[fd e] l Hs IH Hall]; intros c; simpl.
  { right. split; [lia|apply not_elem_of_nil]. }
  rewrite Forall_forall in Hall.
  destruct (Z.gtb_spec fd c) as [Hgt|Hle].
  { right. split; [lia|]. rewrite elem_of_cons.
    intros [->|([k v] & -> & Hin)%list_elem_of_fmap]; [lia|].
    destruct (Hall _ Hin) as [H1 _]. simpl in *. lia. }
  destruct (Z.eqb_spec c INT_MAX); [by left|].
  destruct (IH (c + 1)) as [|[H1 H2]]; [by left|right].
  split; [lia|]. rewrite elem_of_cons. intros [Heq|]; [lia|done].
Qed.

Lemma get_next_fd_fresh m :
  0 ≤ FdManager_get_next_fd m → entries_ m !! FdManager_get_next_fd m = None.
Proof.
  intros Hr. apply eq_None_not_Some. rewrite <- elem_of_fst_entries.
  destruct (next_fd_loop_fresh (entries (entries_ m)) 0 (StronglySorted_entries _))
    as [Heq|[_ H]]; [|exact H].
  unfold FdManager_get_next_fd in Hr. rewrite Heq in Hr. unfold EMFILE in Hr. lia.
Qed.

Lemma get_next_fd_range m :
  fdm_wf m → FdManager_get_next_fd m ≤ INT_MAX.
Proof.
  intros Hwf. destruct (get_next_fd_cases m Hwf) as [[-> _]|(H1 & H2 & _ & H4)].
  { done. }
  destruct (decide (FdManager_get_next_fd m ≤ INT_MAX)) as [|Hgt]; [done|].
  destruct (H4 INT_MAX) as [e He]; [split; [done|lia]|].
  (* a number above INT_MAX is never reached: the loop stops at INT_MAX *)
  exfalso. revert Hgt. unfold FdManager_get_next_fd.
  assert (∀ l c, c ≤ INT_MAX → next_fd_loop l c ≤ INT_MAX) as Hb.
  { induction l as [|[k v] l IH]; intros c Hc; simpl; [done|].
    destruct (Z.gtb_spec k c); [done|]. destruct (Z.eqb_spec c INT_MAX); [done|].
    apply IH. lia. }
  specialize (Hb (entries (entries_ m)) 0 ltac:(done)). lia.
Qed.

(** ** The table implements the descriptor interface *)

Lemma allocate_run k st de m :
  FdManager_allocate_fd k st de m =
  if entry_ok k st de then
    if 0 <=? FdManager_get_next_fd m
    then (mkFdManager (emplace (FdManager_get_next_fd m) (mkEntry k st de) (entries_ m)),
          Ret (FdManager_get_next_fd m))
    else (m, Ret (FdManager_get_next_fd m))
  else (m, Throw (runtime_error "Invalid virtual descriptor entry")).
Proof.
  unfold FdManager_allocate_fd, validate_entry. rewrite bind_run. simpl.
  destruct (entry_ok k st de); [|done]. simpl.
  rewrite bind_run. simpl. rewrite bind_run.
  by destruct (0 <=? FdManager_get_next_fd m).
Qed.

Lemma emplace_fresh {A} (k : Z) (a : A) (m : gmap Z A) :
  m !! k = None → emplace k a m = <[k := a]> m.
Proof. unfold emplace. by intros ->. Qed.

Lemma do_fcntl_cases fd c a m m' o :
  FdManager_do_fcntl fd c a m = (m', o) →
  match entries_ m !! fd with
  | None => m' = m ∧ o = Ret (- EBADF)
  | Some e => m' = m ∨
      ∃ e', kind e' = kind e ∧ m' = mkFdManager (<[fd := e']> (entries_ m))
  end.
Proof.
  unfold FdManager_do_fcntl. rewrite bind_run. simpl.
  destruct (entries_ m !! fd) as [e|] eqn:E; [|by intros [= <- <-]].
  destruct (c =? F_GETFL); [intros [= <- <-]; by left|].
  destruct (c =? F_GETFD); [intros [= <- <-]; by left|].
  destruct (c =? F_SETFD); [intros [= <- <-]; right; eexists; split; [|done]; done|].
  destruct (c =? F_SETFL); [|intros [= <- <-]; by left].
  unfold throw_if. rewrite bind_run. simpl.
  destruct (has a _); intros [= <- <-]; [by left|right; eexists; split; [|done]; done].
Qed.

#[export] Program Instance FdManager_namespace : DescriptorNamespace FdManager := {|
  fd_view m fd := entries_ m !! fd;
  get_next_fd := FdManager_get_next_fd;
  allocate_fd := FdManager_allocate_fd;
  release_fd := FdManager_release_fd;
  do_fcntl := FdManager_do_fcntl;
  allocated_fds := get_allocated_fds;
|}.
Next Obligation. intros m fd. unfold get_allocated_fds. apply elem_of_dom. Qed.
Next Obligation.
  intros k st de m Hok. rewrite allocate_run, Hok. case_match; eauto.
Qed.
Next Obligation. intros k st de m Hok. by rewrite allocate_run, Hok. Qed.
Next Obligation.
  intros k st de m m' fd. rewrite allocate_run.
  destruct (entry_ok k st de); [|by intros [=]].
  destruct (Z.leb_spec 0 (FdManager_get_next_fd m)); intros [= <- <-]; [lia|done].
Qed.
Next Obligation.
  intros k st de m m' fd. rewrite allocate_run.
  destruct (entry_ok k st de); [|by intros [=]].
  destruct (Z.leb_spec 0 (FdManager_get_next_fd m)) as [Hle|Hlt];
    intros [= <- <-] Hfd; [|lia].
  pose proof (get_next_fd_fresh m Hle) as Hf. split; [done|].
  intros j. simpl. rewrite emplace_fresh by done. case_decide; simplify_map_eq; done.
Qed.
Next Obligation.
  intros m fd j. simpl. case_decide; simplify_map_eq; done.
Qed.
Next Obligation.
  intros fd c a m m' o j Hr Hne. simpl. apply do_fcntl_cases in Hr.
  destruct (entries_ m !! fd) as [e|]; [|by destruct Hr as [-> _]].
  destruct Hr as [->|(e' & _ & ->)]; simpl; by simplify_map_eq.
Qed.
Next Obligation.
  intros fd c a m m' o Hr. simpl. apply do_fcntl_cases in Hr.
  destruct (entries_ m !! fd) as [e|] eqn:E; [|done].
  destruct Hr as [->|(e' & Hk & ->)]; [eauto|].
  exists e'. simpl. by simplify_map_eq.
Qed.

(** ** Flag arithmetic of [F_SETFL] *)

Lemma merge_flags_bit old a mask i :
  0 ≤ i →
  Z.testbit (merge_flags old a mask) i =
    if Z.testbit mask i then Z.testbit a i else Z.testbit old i.
Proof.
  intros Hi. unfold merge_flags.
  rewrite Z.lor_spec, !Z.land_spec, Z.lnot_spec by done.
  destruct (Z.testbit mask i), (Z.testbit old i), (Z.testbit a i); done.
Qed.

Lemma merge_flags_land old a mask k :
  Z.land mask k = 0 → Z.land (merge_flags old a mask) k = Z.land old k.
Proof.
  intros Hd. apply Z.bits_inj'. intros i Hi.
  rewrite !Z.land_spec, merge_flags_bit by done.
  assert (Z.testbit mask i && Z.testbit k i = false) as Hb.
  { by rewrite <- Z.land_spec, Hd, Z.bits_0. }
  destruct (Z.testbit mask i), (Z.testbit k i), (Z.testbit a i),
    (Z.testbit old i); done.
Qed.

Lemma merge_flags_range old a :
  0 ≤ old ≤ INT_MAX → 0 ≤ merge_flags old a settable_flags ≤ INT_MAX.
Proof.
  intros [H1 H2].
  assert (0 ≤ merge_flags old a settable_flags) as Hnn.
  { apply Z.lor_nonneg. split; apply Z.land_nonneg; [by left|by right]. }
  split; [done|].
  enough (merge_flags old a settable_flags < 2 ^ 31) by (unfold INT_MAX; lia).
  apply Z.bounded_iff_bits_nonneg; [done|done|]. intros l Hl.
  rewrite merge_flags_bit by lia.
  assert (old < 2 ^ 31) as Ho by (unfold INT_MAX in *; lia).
  rewrite (Z.bounded_iff_bits_nonneg 31 old) in Ho by done.
  assert (settable_flags < 2 ^ 31) as Hs by done.
  rewrite (Z.bounded_iff_bits_nonneg 31 settable_flags) in Hs by done.
  by rewrite Hs, Ho.
Qed.

Lemma entry_ok_status k st de :
  entry_ok k st de = true → 0 ≤ st.
Proof.
  unfold entry_ok. destruct (Z.ltb_spec st 0); [|done].
  by rewrite orb_true_r.
Qed.

Lemma entry_ok_merge k st de a :
  st ≤ INT_MAX → entry_ok k st de = true →
  entry_ok k (merge_flags st a settable_flags) de = true.
Proof.
  intros Hm Hok. pose proof (entry_ok_status _ _ _ Hok) as Hst. revert Hok.
  unfold entry_ok, has.
  rewrite !merge_flags_land by done.
  destruct (merge_flags_range st a ltac:(lia)) as [Hr _].
  destruct (Z.ltb_spec st 0); [lia|].
  by destruct (Z.ltb_spec (merge_flags st a settable_flags) 0); [lia|].
Qed.

Lemma entry_ok_descriptor k st de a :
  entry_ok k st de = true → entry_ok k st (Z.land a FD_CLOEXEC) = true.
Proof.
  unfold entry_ok.
  assert (has (Z.land a FD_CLOEXEC) (Z.lnot FD_CLOEXEC) = false) as ->.
  { apply has_false. by rewrite <- Z.land_assoc, Z.land_0_r. }
  destruct (has de _); [by rewrite orb_true_r|done].
Qed.

(** ** Every operation keeps the table well formed *)

Lemma fdm_wf_init : fdm_wf FdManager_init.
Proof. unfold fdm_wf. apply (bool_decide_unpack _). vm_compute. done. Qed.

Lemma fdm_wf_insert m fd e :
  fdm_wf m → 0 ≤ fd ≤ INT_MAX →
  entry_ok (kind e) (status_flags e) (descriptor_flags e) = true →
  status_flags e ≤ INT_MAX →
  fdm_wf (mkFdManager (<[fd := e]> (entries_ m))).
Proof. intros. apply map_Forall_insert_2; done. Qed.

Lemma fdm_wf_release m fd : fdm_wf m → fdm_wf (FdManager_release_fd fd m).
Proof. apply map_Forall_delete. Qed.

Lemma fdm_wf_allocate k st de m m' o :
  fdm_wf m → st ≤ INT_MAX → FdManager_allocate_fd k st de m = (m', o) → fdm_wf m'.
Proof.
  intros Hwf Hst. rewrite allocate_run. destruct (entry_ok k st de) eqn:Hok.
  - destruct (Z.leb_spec 0 (FdManager_get_next_fd m)) as [Hle|]; intros [= <- <-];
      [|done].
    rewrite emplace_fresh by by apply get_next_fd_fresh.
    apply fdm_wf_insert; auto using get_next_fd_range.
  - by intros [= <- <-].
Qed.

Lemma fdm_wf_fcntl fd c a m m' o :
  fdm_wf m → FdManager_do_fcntl fd c a m = (m', o) → fdm_wf m'.
Proof.
  intros Hwf. unfold FdManager_do_fcntl. rewrite bind_run. simpl.
  destruct (entries_ m !! fd) as [e|] eqn:E; [|by intros [= <- <-]].
  destruct (Hwf _ _ E) as (H1 & H2 & H3).
  destruct (c =? F_GETFL); [by intros [= <- <-]|].
  destruct (c =? F_GETFD); [by intros [= <- <-]|].
  destruct (c =? F_SETFD).
  { intros [= <- <-]. apply fdm_wf_insert; simpl; eauto using entry_ok_descriptor. }
  destruct (c =? F_SETFL); [|by intros [= <- <-]].
  unfold throw_if. rewrite bind_run. simpl.
  destruct (has a _); intros [= <- <-]; [done|].
  apply fdm_wf_insert; simpl; eauto using entry_ok_merge.
  pose proof (entry_ok_status _ _ _ H2).
  by destruct (merge_flags_range (status_flags e) a ltac:(lia)).
Qed.

#[export] Hint Resolve fdm_wf_init fdm_wf_release fdm_wf_allocate fdm_wf_fcntl : detsim.

(** ** Serialization round trip *)

Lemma FdType_of_Z_of_FdType k : FdType_of_Z (int32 (Z_of_FdType k)) = k.
Proof. by destruct k. Qed.

Section archive.
Context {In : Type} `{!ScalarArchive In}.

Definition entry_scalars (l : list (Z * Entry)) : list Z :=
  concat (map (λ p, [p.1; Z_of_FdType (kind p.2); status_flags p.2;
                     descriptor_flags p.2]) l).

Lemma validate_entry_ok k st de :
  entry_ok k st de = true → validate_entry k st de = Ret tt.
Proof. unfold validate_entry. by intros ->. Qed.

Lemma entry_ok_de k st de : entry_ok k st de = true → 0 ≤ de ≤ 1.
Proof.
  unfold entry_ok. rewrite negb_true_iff, !orb_false_iff.
  intros [_ Hd%has_false].
  assert (Z.land de 1 = de) as <-.
  { apply Z.bits_inj'. intros i Hi. rewrite Z.land_spec.
    assert (Z.testbit (Z.land de (Z.lnot FD_CLOEXEC)) i = false) as Hb
      by by rewrite Hd, Z.bits_0.
    rewrite Z.land_spec, Z.lnot_spec in Hb by done.
    change FD_CLOEXEC with 1 in Hb.
    destruct (Z.testbit de i), (Z.testbit 1 i); done. }
  change (Z.land de 1) with (Z.land de (Z.ones 1)).
  rewrite Z.land_ones by done. pose proof (Z.mod_pos_bound de (2 ^ 1)). lia.
Qed.

Lemma load_entries_save l (acc : gmap Z Entry) rest :
  StronglySorted entry_lt l →
  Forall (λ p, 0 ≤ p.1 ≤ INT_MAX ∧
    entry_ok (kind p.2) (status_flags p.2) (descriptor_flags p.2) = true ∧
    status_flags p.2 ≤ INT_MAX) l →
  Forall (λ p, acc !! p.1 = None) l →
  load_entries (length l) (ar_of (entry_scalars l ++ rest)) acc =
    Ret (foldl (λ m p, <[p.1 := p.2]> m) acc l, ar_of rest).
Proof.
  intros Hs. revert acc. induction Hs as [|[fd [k st de]] l Hs IH Hall]; [done|].
  intros acc Hok Hacc. apply Forall_cons in Hok as [(H1 & H2 & H3) Hok].
  apply Forall_cons in Hacc as [Hfd Hacc]. simpl in *.
  rewrite !ar_take_of. simpl. rewrite !ar_take_of. simpl.
  rewrite !ar_take_of. simpl. rewrite !ar_take_of. simpl.
  pose proof (entry_ok_status _ _ _ H2). pose proof (entry_ok_de _ _ _ H2).
  rewrite FdType_of_Z_of_FdType.
  autorewrite with machine.
  rewrite validate_entry_ok by done. simpl.
  rewrite Hfd. destruct (Z.ltb_spec fd 0); [lia|]. simpl.
  apply IH; [done|].
  rewrite Forall_forall in Hacc, Hall |- *. intros q Hq.
  rewrite lookup_insert_ne; [by apply Hacc|]. by destruct (Hall q Hq).
Qed.

(** A malformed archive never replaces the table, and whatever an archive
    holds, a table it is accepted for is well formed. *)
Lemma load_entries_wf n a acc m' a' :
  fdm_wf (mkFdManager acc) →
  load_entries n a acc = Ret (m', a') →
  fdm_wf (mkFdManager m').
Proof.
  revert a acc. induction n as [|n IH]; intros a acc Hwf; simpl.
  { by intros [= <- <-]. }
  destruct (ar_take a) as [[zfd a1]|]; [|done]. simpl.
  destruct (ar_take a1) as [[zk a2]|]; [|done]. simpl.
  destruct (ar_take a2) as [[zs a3]|]; [|done]. simpl.
  destruct (ar_take a3) as [[zd a4]|]; [|done]. simpl.
  unfold validate_entry.
  destruct (entry_ok _ _ _) eqn:Hok; [|done]. simpl.
  destruct (_ || _) eqn:Hd; [done|]. apply IH.
  apply orb_false_iff in Hd as [Hd _].
  apply (fdm_wf_insert (mkFdManager acc)); [done| |done|].
  - destruct (Z.ltb_spec (int32 zfd) 0); [done|].
    unfold int32, INT_MAX in *. pose proof (Z.mod_pos_bound (zfd + 2 ^ 31) (2 ^ 32)). lia.
  - simpl. unfold int32, INT_MAX. pose proof (Z.mod_pos_bound (zs + 2 ^ 31) (2 ^ 32)). lia.
Qed.
End archive.

(** ** Properties *)

(** C39. [FdManager::allocate_fd] follows the POSIX lowest-number rule: for a
    valid entry it either reports [-EMFILE], exactly when every non-negative
    int is taken, leaving the table as it was, or it returns the smallest
    descriptor that was free, now holding the entry, with every other
    descriptor untouched; the table stays well formed. *)
Theorem allocate_fd_lowest m k st de :
  fdm_wf m → st ≤ INT_MAX → entry_ok k st de = true →
  ∃ m' fd, FdManager_allocate_fd k st de m = (m', Ret fd) ∧ fdm_wf m' ∧
    ((fd = - EMFILE ∧ m' = m ∧
      (∀ i, 0 ≤ i ≤ INT_MAX → is_allocated m i = true)) ∨
     (0 ≤ fd ≤ INT_MAX ∧ is_allocated m fd = false ∧
      (∀ i, 0 ≤ i < fd → is_allocated m i = true) ∧
      (∀ i, fd_view m' i = if decide (i = fd) then Some (mkEntry k st de)
                           else fd_view m i))).
Proof.
  intros Hwf Hst Hok. destruct (allocate_fd_next k st de m Hok) as [m' Ha].
  exists m', (get_next_fd m). split; [done|].
  split; [eauto using fdm_wf_allocate|].
  destruct (get_next_fd_cases m Hwf) as [[Heq Hall]|(H1 & H2 & _ & H4)].
  - left. split; [done|]. split; [|intros i Hi; by apply is_allocated_true, Hall].
    eapply allocate_fd_full; [done|]. change (FdManager_get_next_fd m < 0).
    by rewrite Heq.
  - right. destruct (allocate_fd_view _ _ _ _ _ _ Ha H1) as [Hn Hv].
    split; [split; [done|by apply get_next_fd_range]|].
    split; [|split; [|done]].
    + unfold is_allocated. by rewrite Hn.
    + intros i Hi. by apply is_allocated_true, H4.
Qed.

Lemma allocate_fd_lowest_witness :
  ∃ m' fd, FdManager_allocate_fd PIPE O_WRONLY 0
             (FdManager_release_fd 1 FdManager_init) = (m', Ret fd) ∧ fd = 1.
Proof.
  destruct (allocate_fd_lowest (FdManager_release_fd 1 FdManager_init) PIPE O_WRONLY 0)
    as (m' & fd & Ha & _).
  - apply fdm_wf_release, fdm_wf_init.
  - done.
  - reflexivity.
  - exists m', fd. split; [exact Ha|]. vm_compute in Ha. by inversion Ha.
Defined.

(** [F_SETFL] changes only the settable bits [O_APPEND] and [O_NONBLOCK]
    of an allocated descriptor: every other status bit (the access mode
    among them), the kind, the descriptor flags and all other descriptors
    keep their values, the call returns 0 and the table stays well formed.
    [O_ASYNC], [O_DIRECT] or [O_NOATIME] in the argument throw and change
    nothing. *)
Theorem fcntl_setfl_bits m fd e a :
  fdm_wf m → entries_ m !! fd = Some e →
  (has a (Z.lor O_ASYNC (Z.lor O_DIRECT O_NOATIME)) = true →
     FdManager_do_fcntl fd F_SETFL a m =
       (m, Throw (runtime_error "Unsupported virtual F_SETFL flags"))) ∧
  (has a (Z.lor O_ASYNC (Z.lor O_DIRECT O_NOATIME)) = false →
     ∃ m' e', FdManager_do_fcntl fd F_SETFL a m = (m', Ret 0) ∧ fdm_wf m' ∧
       entries_ m' = <[fd := e']> (entries_ m) ∧
       kind e' = kind e ∧ descriptor_flags e' = descriptor_flags e ∧
       (∀ i, 0 ≤ i → Z.testbit (status_flags e') i =
          if (i =? 10) || (i =? 11) then Z.testbit a i
          else Z.testbit (status_flags e) i)).
Proof.
  intros Hwf He.
  destruct (FdManager_do_fcntl fd F_SETFL a m) as [m' o] eqn:Hr.
  pose proof (fdm_wf_fcntl _ _ _ _ _ _ Hwf Hr) as Hwf'.
  unfold FdManager_do_fcntl in Hr. rewrite bind_run in Hr. simpl in Hr.
  rewrite He in Hr. simpl in Hr. unfold throw_if in Hr. rewrite bind_run in Hr.
  split; intros Ha; rewrite Ha in Hr; simpl in Hr; inversion Hr; subst; [done|].
  eexists _, _. split; [done|]. split; [done|]. split; [done|].
  split; [done|]. split; [done|]. intros i Hi. simpl.
  rewrite merge_flags_bit by done.
  assert (Z.testbit settable_flags i = (i =? 10) || (i =? 11)) as ->; [|done].
  change settable_flags with (Z.lor (2 ^ 10) (2 ^ 11)).
  rewrite Z.lor_spec, !Z.pow2_bits_eqb by done.
  rewrite (Z.eqb_sym 10), (Z.eqb_sym 11). done.
Qed.

Lemma fcntl_setfl_bits_witness :
  ∃ m' e', FdManager_do_fcntl 1 F_SETFL O_NONBLOCK FdManager_init = (m', Ret 0) ∧
    entries_ m' !! 1 = Some e' ∧ status_flags e' = O_WRONLY + O_NONBLOCK.
Proof.
  destruct (fcntl_setfl_bits FdManager_init 1 (mkEntry STDIO O_WRONLY 0) O_NONBLOCK
    fdm_wf_init eq_refl) as [_ H].
  destruct (H eq_refl) as (m' & e' & Hr & _ & Hm & _).
  exists m', e'. split; [exact Hr|]. rewrite Hm.
  vm_compute in Hr. injection Hr as <-.
  assert (Some e' = Some (mkEntry STDIO (O_WRONLY + O_NONBLOCK) 0)) as [= ->].
  { transitivity (<[1:=e']> (entries_ FdManager_init) !! 1); [done|].
    rewrite <- Hm. reflexivity. }
  split; reflexivity.
Defined.

(** C40. The archive of a descriptor table restores exactly that table and
    leaves the rest of the archive unread, whatever table was there before;
    and whatever an archive holds, a table that a load accepts is well
    formed, while a rejected archive leaves the old table in place. *)
Theorem fd_archive_roundtrip {In : Type} `{!ScalarArchive In} :
  (∀ m m0 rest scalars,
     fdm_wf m → FdManager_save m = Ret scalars →
     FdManager_load (In:=In) (ar_of (scalars ++ rest)) m0 = (m, Ret (ar_of rest))) ∧
  (∀ (a a' : In) m0 m', FdManager_load a m0 = (m', Ret a') → fdm_wf m') ∧
  (∀ (a : In) m0 m' e, FdManager_load a m0 = (m', Throw e) → m' = m0).
Proof.
  split; [|split].
  - intros m m0 rest scalars Hwf. unfold FdManager_save.
    destruct (Z.gtb_spec (Z.of_nat (size (entries_ m))) max_archived_descriptors)
      as [|Hmax]; [done|]. intros [= <-].
    unfold FdManager_load, throw_if. rewrite bind_run. simpl. rewrite ar_take_of.
    unfold max_archived_descriptors in *. autorewrite with machine.
    rewrite bind_run.
    destruct (Z.gtb_spec (Z.of_nat (size (entries_ m))) (2 ^ 20)); [lia|]. simpl.
    rewrite bind_run, Nat2Z.id, <- length_entries. simpl.
    fold (entry_scalars (entries (entries_ m))).
    rewrite load_entries_save.
    + simpl. unfold put. rewrite bind_run. simpl. f_equal.
      rewrite foldl_insert_list_to_map by apply NoDup_fst_entries.
      rewrite (right_id_L ∅ (∪)), list_to_map_entries. by destruct m.
    + apply StronglySorted_entries.
    + apply Forall_forall. intros [k e] Hin%elem_of_entries. by apply Hwf in Hin.
    + by apply Forall_true.
  - intros a a' m0 m'. unfold FdManager_load, throw_if. rewrite bind_run. simpl.
    destruct (ar_take a) as [[z a1]|]; [|done]. rewrite bind_run.
    destruct (_ >? _); [done|]. simpl. rewrite bind_run. simpl.
    destruct (load_entries _ a1 ∅) as [[r a2]|] eqn:E; [|done].
    intros [= <- <-]. eapply load_entries_wf, E. apply map_Forall_empty.
  - intros a m0 m' e. unfold FdManager_load, throw_if. rewrite bind_run. simpl.
    destruct (ar_take a) as [[z a1]|]; [|by intros [= <- <-]]. rewrite bind_run.
    destruct (_ >? _); [by intros [= <- <-]|]. simpl. rewrite bind_run. simpl.
    destruct (load_entries _ a1 ∅) as [[r a2]|] eqn:E; [done|by intros [= <- <-]].
Qed.

Lemma fd_archive_roundtrip_witness :
  ∃ scalars, FdManager_save FdManager_init = Ret scalars ∧
    FdManager_load (In:=list Z) (scalars ++ [7]) (mkFdManager ∅) =
      (FdManager_init, Ret [7]).
Proof.
  destruct (fd_archive_roundtrip (In:=list Z)) as [H _].
  destruct (FdManager_save FdManager_init) as [scalars|] eqn:E.
  - exists scalars. split; [reflexivity|].
    exact (H FdManager_init (mkFdManager ∅) [7] scalars fdm_wf_init E).
  - vm_compute in E. discriminate.
Defined.
