(* ===== verification/Futex.v ===== *)
(** * Futex emulation

    [src/src/subsys/sync/futexstate.h], [futexstate.cpp]: wait queues by
    address in arrival order, and the index from thread to the address it
    waits on. *)

From S2P Require Import Prelude Linux.

Definition FUTEX_WAIT : Z := 0.
Definition FUTEX_WAKE : Z := 1.
Definition FUTEX_REQUEUE : Z := 3.
Definition FUTEX_CMP_REQUEUE : Z := 4.
Definition FUTEX_WAIT_BITSET : Z := 9.
Definition FUTEX_WAKE_BITSET : Z := 10.
Definition FUTEX_PRIVATE_FLAG : Z := 128.
Definition FUTEX_CLOCK_REALTIME : Z := 256.
Definition FUTEX_CMD_MASK : Z := Z.lnot (Z.lor FUTEX_PRIVATE_FLAG FUTEX_CLOCK_REALTIME).

Record FutexWaiter := mkWaiter {
  tid : Z;
  uaddr : Z;
  val : Z;
  bitset : Z;
  private_wait : bool;
}.

#[export] Instance FutexWaiter_eq_dec : EqDecision FutexWaiter.
Proof. solve_decision. Defined.

Record FutexState := mkFutex {
  waiters_ : gmap Z (list FutexWaiter);
  waiter_map_ : gmap Z Z;
}.

#[export] Instance FutexState_eq_dec : EqDecision FutexState.
Proof. solve_decision. Defined.

Definition futex_clear : FutexState := mkFutex ∅ ∅.

(** [waiters_[a]] read through [operator[]] *)
Definition queue_at (s : FutexState) (a : Z) : list FutexWaiter :=
  default [] (waiters_ s !! a).

Definition is_thread_waiting (t : Z) (s : FutexState) : bool :=
  match waiter_map_ s !! t with Some a => negb (a =? 0) | None => false end.

Definition get_wait_address (t : Z) (s : FutexState) : Z :=
  default 0 (waiter_map_ s !! t).

Definition get_waiters (a : Z) (s : FutexState) : list Z :=
  match waiters_ s !! a with Some q => tid <$> q | None => [] end.

Definition add_waiter (w : FutexWaiter) (s : FutexState) : FutexState :=
  mkFutex (<[uaddr w := queue_at s (uaddr w) ++ [w]]> (waiters_ s))
          (<[tid w := uaddr w]> (waiter_map_ s)).

(** The search-and-erase loop of [remove_waiter]: the queue without its first
    waiter of thread [t], if there is one. *)
Fixpoint erase_tid (t : Z) (q : list FutexWaiter) : option (list FutexWaiter) :=
  match q with
  | [] => None
  | w :: q' => if tid w =? t then Some q' else cons w <$> erase_tid t q'
  end.

Definition remove_waiter (t : Z) (s : FutexState) : FutexState * bool :=
  match waiter_map_ s !! t with
  | None => (s, false)
  | Some a =>
      if a =? 0 then (s, false) else
      match erase_tid t (queue_at s a) with
      | Some q =>
          (mkFutex (if bool_decide (q = []) then delete a (waiters_ s)
                    else <[a := q]> (waiters_ s))
                   (delete t (waiter_map_ s)), true)
      | None => (mkFutex (<[a := queue_at s a]> (waiters_ s)) (waiter_map_ s), false)
      end
  end.

Definition wake_thread := remove_waiter.

(** The wake loop: [woken] so far, the waiters that stay and the index. *)
Definition wakeable (bits : Z) (priv : bool) (w : FutexWaiter) : bool :=
  Bool.eqb (private_wait w) priv && has (bitset w) bits.

Fixpoint wake_scan (nr bits : Z) (priv : bool) (q : list FutexWaiter)
    (woken : Z) (wmap : gmap Z Z) : Z * list FutexWaiter * gmap Z Z :=
  match q with
  | [] => (woken, [], wmap)
  | w :: q' =>
      if Bool.eqb (private_wait w) priv && (woken <? nr) && has (bitset w) bits
      then wake_scan nr bits priv q' (woken + 1) (delete (tid w) wmap)
      else let '(n, rest, wm) := wake_scan nr bits priv q' woken wmap in
           (n, w :: rest, wm)
  end.

Definition futex_wake (a nr bits : Z) (priv : bool) (s : FutexState) : FutexState * Z :=
  match waiters_ s !! a with
  | None | Some [] => (s, 0)
  | Some q =>
      let '(woken, remaining, wmap) := wake_scan nr bits priv q 0 (waiter_map_ s) in
      (mkFutex (if bool_decide (remaining = []) then delete a (waiters_ s)
                else <[a := remaining]> (waiters_ s)) wmap, woken)
  end.

Definition set_uaddr (a : Z) (w : FutexWaiter) : FutexWaiter :=
  mkWaiter (tid w) a (val w) (bitset w) (private_wait w).

(** The move loop of [futex_requeue]: what stays, what was moved. *)
Fixpoint move_scan (priv : bool) (a2 : Z) (remaining : nat) (q : list FutexWaiter)
    : list FutexWaiter * list FutexWaiter :=
  match remaining, q with
  | O, _ => (q, [])
  | _, [] => ([], [])
  | S r, w :: q' =>
      if negb (Bool.eqb (private_wait w) priv)
      then let '(kept, moved) := move_scan priv a2 remaining q' in (w :: kept, moved)
      else let '(kept, moved) := move_scan priv a2 r q' in (kept, set_uaddr a2 w :: moved)
  end.

Definition same_key (priv : bool) (w : FutexWaiter) : bool :=
  Bool.eqb (private_wait w) priv.

Definition futex_requeue (a1 a2 nr_wake nr_requeue : Z) (priv : bool)
    (s : FutexState) : FutexState * Z :=
  if negb (a1 mod 4 =? 0) || negb (a2 mod 4 =? 0) || (nr_wake <? 0) || (nr_requeue <? 0)
  then (s, - EINVAL)
  else
    let '(s, woken) := futex_wake a1 nr_wake UINT32_MAX priv s in
    match waiters_ s !! a1 with
    | None => (s, woken)
    | Some queue =>
        let eligible := zlength (List.filter (same_key priv) queue) in
        let moved := Z.min nr_requeue eligible in
        if a1 =? a2 then (s, woken + moved)
        else
          let '(kept, gone) := move_scan priv a2 (Z.to_nat moved) queue in
          let target := queue_at s a2 ++ gone in
          let wmap := foldl (λ m w, <[tid w := a2]> m) (waiter_map_ s) gone in
          let ws := <[a2 := target]> (<[a1 := kept]> (waiters_ s)) in
          let ws := if bool_decide (kept = []) then delete a1 ws else ws in
          let ws := if bool_decide (target = []) then delete a2 ws else ws in
          (mkFutex ws wmap, woken + moved)
    end.

(** [wake_waiters_in_range]: one step per queue, in address order. *)
Definition range_step (start stop : Z) (acc : FutexState * Z)
    (e : Z * list FutexWaiter) : FutexState * Z :=
  let '(s, woken) := acc in
  let '(a, q) := e in
  if (start <=? a) && (a <? stop)
  then (mkFutex (delete a (waiters_ s))
                (foldl (λ m w, delete (tid w) m) (waiter_map_ s) q),
        woken + zlength q)
  else (s, woken).

Definition wake_waiters_in_range (start stop : Z) (s : FutexState) : FutexState * Z :=
  foldl (range_step start stop) (s, 0) (entries (waiters_ s)).

Definition get_op (futex_op : Z) : Z := Z.land futex_op FUTEX_CMD_MASK.
Definition is_private (futex_op : Z) : bool := has futex_op FUTEX_PRIVATE_FLAG.

Definition lift_step {A} (f : FutexState → FutexState * A) : M FutexState A :=
  λ s, let '(s', a) := f s in (s', Ret a).

(** [FutexState::handle_futex]; [stackval] is the word at the futex address
    when the handler could read it. *)
Definition handle_futex (t a futex_op v timeout_addr a2 v3 : Z) (stackval : option Z)
    : M FutexState Z :=
  let op := get_op futex_op in
  if negb ((op =? FUTEX_WAIT) || (op =? FUTEX_WAIT_BITSET) || (op =? FUTEX_WAKE) ||
           (op =? FUTEX_WAKE_BITSET) || (op =? FUTEX_REQUEUE) || (op =? FUTEX_CMP_REQUEUE))
  then throw (runtime_error "unsupported futex operation")
  else if has futex_op FUTEX_CLOCK_REALTIME && negb (op =? FUTEX_WAIT_BITSET)
  then mret (- ENOSYS)
  else if negb (a mod 4 =? 0) then mret (- EINVAL)
  else if ((op =? FUTEX_WAIT_BITSET) || (op =? FUTEX_WAKE_BITSET)) && (v3 =? 0)
  then mret (- EINVAL)
  else if (op =? FUTEX_WAIT) || (op =? FUTEX_WAIT_BITSET) then
    throw_if (negb (timeout_addr =? 0))
      (runtime_error "timed futex wait is not modeled");;
    match stackval with
    | None => mret (- EFAULT)
    | Some word =>
        if negb (uint32 word =? uint32 v) then mret (- EAGAIN)
        else
          s ← get;
          throw_if (is_thread_waiting t s)
            (runtime_error "thread already has a pending futex wait");;
          modify (add_waiter (mkWaiter t a v
            (if op =? FUTEX_WAIT_BITSET then uint32 v3 else UINT32_MAX)
            (is_private futex_op)));;
          mret 0
    end
  else if (op =? FUTEX_WAKE) || (op =? FUTEX_WAKE_BITSET) then
    lift_step (futex_wake a (Z.max 1 v)
      (if op =? FUTEX_WAKE_BITSET then uint32 v3 else UINT32_MAX) (is_private futex_op))
  else
    if negb (a2 mod 4 =? 0) || (v <? 0) || (int32 timeout_addr <? 0)
    then mret (- EINVAL)
    else if op =? FUTEX_CMP_REQUEUE then
      match stackval with
      | None => mret (- EFAULT)
      | Some word =>
          if negb (uint32 word =? uint32 v3) then mret (- EAGAIN)
          else lift_step (futex_requeue a a2 v (int32 timeout_addr) (is_private futex_op))
      end
    else lift_step (futex_requeue a a2 v (int32 timeout_addr) (is_private futex_op)).

(** ** FIFO selection

    [select n P q] is what a loop that takes the first [n] elements
    satisfying [P] takes, [reject n P q] what it leaves, in order. *)

Definition select {A} (n : nat) (P : A → bool) (q : list A) : list A :=
  take n (List.filter P q).

Fixpoint reject {A} (n : nat) (P : A → bool) (q : list A) : list A :=
  match n, q with
  | O, _ => q
  | _, [] => []
  | S n', x :: q' => if P x then reject n' P q' else x :: reject n P q'
  end.

Section select.
Context {A : Type} (P : A → bool).
Implicit Types q : list A.

Lemma reject_0 q : reject 0 P q = q.
Proof. by destruct q. Qed.

Lemma select_reject_Permutation n q : select n P q ++ reject n P q ≡ₚ q.
Proof.
  unfold select. revert n. induction q as [|x q IH]; intros [|n]; simpl; try done.
  destruct (P x); simpl; [by rewrite IH|].
  by rewrite <- Permutation_middle, IH.
Qed.

Lemma reject_sublist n q : reject n P q `sublist_of` q.
Proof.
  revert n. induction q as [|x q IH]; intros [|n]; simpl; try done.
  destruct (P x); constructor; apply IH.
Qed.

Lemma select_sublist n q : select n P q `sublist_of` q.
Proof.
  unfold select. etrans; [apply sublist_take|].
  induction q as [|x q IH]; simpl; [done|].
  destruct (P x); constructor; apply IH.
Qed.

Lemma select_Forall n q x : x ∈ select n P q → P x = true.
Proof.
  unfold select. intros Hx%(sublist_subseteq _ _ (sublist_take _ _)).
  apply list_elem_of_In, List.filter_In in Hx. by destruct Hx.
Qed.

Lemma elem_of_select_reject n q x : x ∈ q ↔ x ∈ select n P q ∨ x ∈ reject n P q.
Proof. rewrite <- elem_of_app. by rewrite select_reject_Permutation. Qed.

(** Nothing that matches is left behind unless the quota was used up. *)
Lemma reject_quota n q x :
  x ∈ reject n P q → P x = true → length (select n P q) = n.
Proof.
  unfold select. revert n. induction q as [|y q IH]; intros [|n]; simpl; try done.
  - by intros ?%elem_of_nil.
  - destruct (P y) eqn:Hy; simpl.
    + intros Hx HP. f_equal. by apply IH.
    + intros [->|Hx]%elem_of_cons HP; [congruence|]. by apply (IH (S n)).
Qed.
End select.

Lemma select_le {A} n (P : A → bool) q :
  zlength (select n P q) = Z.min (Z.of_nat n) (zlength (List.filter P q)).
Proof. unfold select, zlength. rewrite length_take. lia. Qed.

(** ** The loops select in arrival order *)

Definition drop_waiters (ws : list FutexWaiter) (m : gmap Z Z) : gmap Z Z :=
  foldl (λ m w, delete (tid w) m) m ws.

Lemma lookup_drop_waiters ws (m : gmap Z Z) t :
  drop_waiters ws m !! t = if decide (t ∈ tid <$> ws) then None else m !! t.
Proof.
  unfold drop_waiters. revert m. induction ws as [|w ws IH]; intros m; [done|].
  cbn [foldl]. rewrite IH, fmap_cons.
  destruct (decide (t = tid w)) as [->|Hne].
  - rewrite lookup_delete_eq. repeat case_decide; rewrite ?elem_of_cons in *; naive_solver.
  - rewrite lookup_delete_ne by done. repeat case_decide; rewrite ?elem_of_cons in *; naive_solver.
Qed.

Definition retarget (a : Z) (ws : list FutexWaiter) (m : gmap Z Z) : gmap Z Z :=
  foldl (λ m w, <[tid w := a]> m) m ws.

Lemma lookup_retarget a ws (m : gmap Z Z) t :
  retarget a ws m !! t = if decide (t ∈ tid <$> ws) then Some a else m !! t.
Proof.
  unfold retarget. revert m. induction ws as [|w ws IH]; intros m; [done|].
  cbn [foldl]. rewrite IH, fmap_cons.
  destruct (decide (t = tid w)) as [->|Hne].
  - rewrite lookup_insert_eq. repeat case_decide; rewrite ?elem_of_cons in *; naive_solver.
  - rewrite lookup_insert_ne by done. repeat case_decide; rewrite ?elem_of_cons in *; naive_solver.
Qed.

Lemma wake_scan_spec nr bits priv q k m :
  0 ≤ k →
  wake_scan nr bits priv q k m =
    (k + zlength (select (Z.to_nat (nr - k)) (wakeable bits priv) q),
     reject (Z.to_nat (nr - k)) (wakeable bits priv) q,
     drop_waiters (select (Z.to_nat (nr - k)) (wakeable bits priv) q) m).
Proof.
  revert k m. induction q as [|w q IH]; intros k m Hk.
  { unfold select. destruct (Z.to_nat _); simpl; by rewrite Z.add_0_r. }
  cbn [wake_scan]. rewrite (andb_comm _ (k <? nr)), <- andb_assoc.
  change (Bool.eqb (private_wait w) priv && has (bitset w) bits)
    with (wakeable bits priv w).
  destruct (Z.ltb_spec k nr) as [Hlt|Hge]; cbn [andb].
  - replace (Z.to_nat (nr - k)) with (S (Z.to_nat (nr - (k + 1)))) by lia.
    unfold select. cbn [List.filter reject].
    destruct (wakeable bits priv w) eqn:Hw.
    + rewrite IH by lia. cbn [take]. by rewrite zlength_cons, Z.add_assoc.
    + rewrite IH by lia. replace (S (Z.to_nat (nr - (k + 1)))) with (Z.to_nat (nr - k)) by lia.
      done.
  - rewrite IH by done. replace (Z.to_nat (nr - k)) with 0%nat by lia.
    by rewrite !reject_0.
Qed.

Lemma move_scan_spec priv a2 n q :
  move_scan priv a2 n q =
    (reject n (same_key priv) q, set_uaddr a2 <$> select n (same_key priv) q).
Proof.
  unfold select. revert n. induction q as [|w q IH]; intros [|n]; try done.
  cbn [move_scan List.filter reject]. fold (same_key priv w).
  destruct (same_key priv w); cbn [negb]; by rewrite IH.
Qed.

(** ** The abstract view: one queue per address

    An address without a map entry has the empty queue; the operations are
    specified on [queue_at] and on the index. *)

Definition store_queue (a : Z) (q : list FutexWaiter)
    (ws : gmap Z (list FutexWaiter)) : gmap Z (list FutexWaiter) :=
  if bool_decide (q = []) then delete a ws else <[a := q]> ws.

Lemma queue_store a q ws m b :
  queue_at (mkFutex (store_queue a q ws) m) b =
    if decide (b = a) then q else queue_at (mkFutex ws m) b.
Proof.
  unfold queue_at, store_queue. simpl. case_bool_decide; case_decide; subst;
    by rewrite ?lookup_delete_eq, ?lookup_insert_eq, ?lookup_delete_ne,
      ?lookup_insert_ne by done.
Qed.

Lemma futex_wake_spec a nr bits priv s :
  waiters_ s !! a ≠ Some [] →
  let w := select (Z.to_nat nr) (wakeable bits priv) (queue_at s a) in
  let r := reject (Z.to_nat nr) (wakeable bits priv) (queue_at s a) in
  futex_wake a nr bits priv s =
    (mkFutex (store_queue a r (waiters_ s)) (drop_waiters w (waiter_map_ s)), zlength w).
Proof.
  intros Hne. unfold futex_wake, queue_at.
  destruct (waiters_ s !! a) as [[|w q]|] eqn:Ha; [done| |].
  - rewrite wake_scan_spec, Z.sub_0_r by done. done.
  - simpl. unfold select. cbn [List.filter]. rewrite take_nil. destruct s as [ws m]. simpl in *.
    unfold store_queue. rewrite bool_decide_true by by destruct (Z.to_nat nr).
    by rewrite delete_id.
Qed.

Lemma select_min {A} (n : Z) (P : A → bool) q :
  select (Z.to_nat (Z.min n (zlength (List.filter P q)))) P q = select (Z.to_nat n) P q.
Proof.
  unfold select, zlength. destruct (Z.min_spec n (Z.of_nat (length (List.filter P q))))
    as [[_ ->]|[Hle ->]]; [done|]. rewrite Nat2Z.id.
  rewrite !take_ge by lia. done.
Qed.

Lemma reject_filter {A} (P : A → bool) n q :
  (length (List.filter P q) ≤ n)%nat → reject n P q = reject (length (List.filter P q)) P q.
Proof.
  revert n. induction q as [|x q IH]; intros [|n]; simpl; try done.
  - by destruct (P x), (length (List.filter P q)) eqn:E; try (simpl; lia).
  - destruct (P x); simpl; intros Hn; [apply IH; lia|].
    rewrite (IH (S n)) by done. destruct (length _); [by rewrite reject_0|done].
Qed.

Lemma reject_min {A} (n : Z) (P : A → bool) q :
  reject (Z.to_nat (Z.min n (zlength (List.filter P q)))) P q = reject (Z.to_nat n) P q.
Proof.
  unfold zlength. destruct (Z.min_spec n (Z.of_nat (length (List.filter P q))))
    as [[_ ->]|[Hle ->]]; [done|]. rewrite Nat2Z.id, (reject_filter P (Z.to_nat n)); lia || done.
Qed.

Definition no_empty_queue (s : FutexState) : Prop := ∀ a, waiters_ s !! a ≠ Some [].

Lemma no_empty_store a q ws m m' :
  no_empty_queue (mkFutex ws m) → no_empty_queue (mkFutex (store_queue a q ws) m').
Proof.
  intros H b. specialize (H b). unfold store_queue. simpl in *.
  case_bool_decide; destruct (decide (b = a)) as [->|];
    rewrite ?lookup_delete_eq, ?lookup_insert_eq, ?lookup_delete_ne,
      ?lookup_insert_ne by done; congruence.
Qed.

Lemma queue_at_None s a : waiters_ s !! a = None → queue_at s a = [].
Proof. unfold queue_at. by intros ->. Qed.

(** Erasing a queue that came out empty. *)
Lemma settle a q ws :
  ws !! a = Some q → (if bool_decide (q = []) then delete a ws else ws) = store_queue a q ws.
Proof. intros H. unfold store_queue. case_bool_decide; [done|]. by rewrite insert_id. Qed.

Lemma lookup_store_ne a q ws b : a ≠ b → store_queue a q ws !! b = ws !! b.
Proof.
  intros. unfold store_queue. case_bool_decide;
    by rewrite ?lookup_delete_ne, ?lookup_insert_ne by done.
Qed.

Lemma lookup_store_nonempty a q ws : store_queue a q ws !! a ≠ Some [].
Proof.
  unfold store_queue. case_bool_decide;
    rewrite ?lookup_delete_eq, ?lookup_insert_eq; congruence.
Qed.

(** What [futex_requeue] wakes, moves and leaves. *)
Definition requeue_woken (a1 nr_wake : Z) priv s :=
  select (Z.to_nat nr_wake) (wakeable UINT32_MAX priv) (queue_at s a1).
Definition requeue_stay (a1 nr_wake : Z) priv s :=
  reject (Z.to_nat nr_wake) (wakeable UINT32_MAX priv) (queue_at s a1).
Definition requeue_moved (a1 nr_wake nr_requeue : Z) priv s :=
  select (Z.to_nat nr_requeue) (same_key priv) (requeue_stay a1 nr_wake priv s).
Definition requeue_left (a1 nr_wake nr_requeue : Z) priv s :=
  reject (Z.to_nat nr_requeue) (same_key priv) (requeue_stay a1 nr_wake priv s).

Lemma futex_requeue_spec a1 a2 nw nr priv s :
  no_empty_queue s → a1 mod 4 = 0 → a2 mod 4 = 0 → 0 ≤ nw → 0 ≤ nr →
  let woken := requeue_woken a1 nw priv s in
  let moved := requeue_moved a1 nw nr priv s in
  ∃ s', futex_requeue a1 a2 nw nr priv s = (s', zlength woken + zlength moved) ∧
    no_empty_queue s' ∧
    (if decide (a1 = a2) then
       waiter_map_ s' = drop_waiters woken (waiter_map_ s) ∧
       ∀ b, queue_at s' b = if decide (b = a1) then requeue_stay a1 nw priv s
                            else queue_at s b
     else
       waiter_map_ s' = retarget a2 moved (drop_waiters woken (waiter_map_ s)) ∧
       ∀ b, queue_at s' b =
         if decide (b = a1) then requeue_left a1 nw nr priv s
         else if decide (b = a2) then queue_at s a2 ++ (set_uaddr a2 <$> moved)
         else queue_at s b).
Proof.
  intros Hne H1 H2 H3 H4 woken moved. unfold futex_requeue.
  rewrite H1, H2. destruct (Z.ltb_spec nw 0); [lia|]. destruct (Z.ltb_spec nr 0); [lia|].
  cbn [Z.eqb negb orb]. rewrite futex_wake_spec by apply Hne.
  fold (requeue_woken a1 nw priv s). fold (requeue_stay a1 nw priv s). fold woken.
  set (q1 := requeue_stay a1 nw priv s) in *.
  set (s1 := mkFutex (store_queue a1 q1 (waiters_ s)) (drop_waiters woken (waiter_map_ s))).
  assert (no_empty_queue s1) as Hne1 by (apply (no_empty_store _ _ _ (waiter_map_ s)); by destruct s).
  assert (∀ b, queue_at s1 b = if decide (b = a1) then q1 else queue_at s b) as Hq1
    by (intros b; unfold s1; rewrite queue_store; by destruct s).
  assert (default [] (waiters_ s1 !! a1) = q1) as Ha1.
  { change (queue_at s1 a1 = q1). by rewrite Hq1, decide_True. }
  destruct (waiters_ s1 !! a1) as [q|] eqn:E; simpl in Ha1.
  2:{ exists s1. assert (moved = []) as ->.
      { unfold moved, requeue_moved. fold q1. rewrite <- Ha1. apply take_nil. }
      rewrite Z.add_0_r. split; [done|]. split; [done|]. case_decide; [done|].
      split; [done|]. intros b. rewrite Hq1.
      unfold requeue_left. fold q1. rewrite app_nil_r, <- Ha1.
      repeat case_decide; subst; try done. by destruct (Z.to_nat nr). }
  subst q. replace (Z.min nr _) with (zlength moved)
    by (unfold moved, requeue_moved; fold q1; rewrite select_le; lia).
  case_decide as Ha; [subst a2; rewrite Z.eqb_refl; by exists s1|].
  destruct (Z.eqb_spec a1 a2) as [|_]; [done|].
  rewrite move_scan_spec.
  assert (zlength moved = Z.min nr (zlength (List.filter (same_key priv) q1))) as Hlen
    by (unfold moved, requeue_moved; fold q1; rewrite select_le; lia).
  assert (select (Z.to_nat (zlength moved)) (same_key priv) q1 = moved) as ->
    by (rewrite Hlen; apply select_min).
  set (kept := requeue_left a1 nw nr priv s).
  assert (reject (Z.to_nat (zlength moved)) (same_key priv) q1 = kept) as ->
    by (rewrite Hlen; apply reject_min).
  rewrite (Hq1 a2), decide_False by done.
  rewrite (settle a1 kept) by (rewrite lookup_insert_ne, lookup_insert_eq; done).
  rewrite (settle a2) by (rewrite lookup_store_ne, lookup_insert_eq; done).
  eexists. split; [done|]. split; [|split].
  - intros b. destruct (decide (a2 = b)) as [<-|]; [apply lookup_store_nonempty|].
    simpl. rewrite lookup_store_ne by done.
    destruct (decide (a1 = b)) as [<-|]; [apply lookup_store_nonempty|].
    rewrite lookup_store_ne, !lookup_insert_ne by done. apply Hne1.
  - simpl. unfold retarget. by rewrite foldl_fmap.
  - intros b. rewrite !queue_store.
    destruct (decide (b = a2)) as [->|Hb2]; [by rewrite decide_False by done|].
    destruct (decide (b = a1)) as [->|Hb1]; [done|].
    specialize (Hq1 b). rewrite decide_False in Hq1 by done.
    unfold queue_at in Hq1 |- *. simpl in Hq1 |- *.
    by rewrite !lookup_insert_ne by done.
Qed.

(** ** Waking a discarded range *)

Definition in_range (start stop a : Z) : bool := (start <=? a) && (a <? stop).

(** Everyone queued in the range, by address and arrival. *)
Definition range_waiters (start stop : Z) (l : list (Z * list FutexWaiter)) :=
  mjoin (snd <$> filter (λ p, in_range start stop p.1 = true) l).

Lemma range_fold_spec start stop l s n :
  foldl (range_step start stop) (s, n) l =
    (mkFutex (foldl (λ ws p, if in_range start stop p.1 then delete p.1 ws else ws)
                    (waiters_ s) l)
             (drop_waiters (range_waiters start stop l) (waiter_map_ s)),
     n + zlength (range_waiters start stop l)).
Proof.
  unfold range_waiters. revert s n. induction l as [|[a q] l IH]; intros s n.
  { simpl. rewrite Z.add_0_r. by destruct s. }
  cbn [foldl]. unfold range_step at 2. fold (in_range start stop a).
  rewrite filter_cons. simpl. destruct (in_range start stop a) eqn:E.
  - rewrite decide_True by done. rewrite IH. simpl.
    rewrite zlength_app, Z.add_assoc. unfold drop_waiters. by rewrite foldl_app.
  - rewrite decide_False by done. apply IH.
Qed.

Lemma lookup_range_delete start stop l (ws : gmap Z (list FutexWaiter)) a :
  foldl (λ ws (p : Z * list FutexWaiter),
    if in_range start stop p.1 then delete p.1 ws else ws) ws l !! a =
    if decide (in_range start stop a = true ∧ a ∈ l.*1) then None else ws !! a.
Proof.
  revert ws. induction l as [|[b q] l IH]; intros ws.
  { rewrite decide_False; [done|]. by intros [_ ?%elem_of_nil]. }
  cbn [foldl]. rewrite IH. simpl. clear IH.
  destruct (decide (a = b)) as [->|Hne].
  - destruct (in_range start stop b) eqn:E.
    + rewrite lookup_delete_eq. rewrite (decide_True (P := _ ∧ b ∈ b :: _));
        [by case_decide|]. split; [done|left].
    + by rewrite !decide_False by naive_solver.
  - assert ((if in_range start stop b then delete b ws else ws) !! a = ws !! a) as ->
      by (destruct (in_range start stop b); by rewrite ?lookup_delete_ne by done).
    repeat case_decide; rewrite ?elem_of_cons in *; naive_solver.
Qed.

Lemma wake_range_spec start stop s :
  let ws := range_waiters start stop (entries (waiters_ s)) in
  ∃ s', wake_waiters_in_range start stop s = (s', zlength ws) ∧
    waiter_map_ s' = drop_waiters ws (waiter_map_ s) ∧
    (∀ a, waiters_ s' !! a = if in_range start stop a then None else waiters_ s !! a).
Proof.
  simpl. unfold wake_waiters_in_range. rewrite range_fold_spec.
  eexists. split; [done|]. split; [done|]. intros a. simpl.
  rewrite lookup_range_delete. destruct (in_range start stop a) eqn:E.
  - case_decide as Hd; [done|]. destruct (waiters_ s !! a) as [q|] eqn:Ha; [|done].
    destruct Hd. split; [done|]. apply list_elem_of_fmap. exists (a, q).
    by rewrite elem_of_entries.
  - by rewrite decide_False by naive_solver.
Qed.

Lemma elem_of_range_waiters start stop s w :
  w ∈ range_waiters start stop (entries (waiters_ s)) ↔
  ∃ a, in_range start stop a = true ∧ w ∈ queue_at s a.
Proof.
  unfold range_waiters, queue_at. rewrite list_elem_of_join. split.
  - intros (q & Hw & Hq). apply list_elem_of_fmap in Hq as ([a q'] & -> & Hin).
    apply list_elem_of_filter in Hin as [Hr Hin%elem_of_entries].
    exists a. split; [done|]. simpl in *. by rewrite Hin.
  - intros (a & Hr & Hw). destruct (waiters_ s !! a) as [q|] eqn:E;
      simpl in Hw; [|by apply elem_of_nil in Hw].
    exists q. split; [done|]. apply list_elem_of_fmap. exists (a, q). split; [done|].
    apply list_elem_of_filter. by rewrite elem_of_entries.
Qed.

(** ** The invariant

    Queues and index describe the same set of blocked threads, each blocked
    on exactly one address, and no queue is empty or sits at the null
    address (which [is_thread_waiting] reads as not waiting). *)

Record futex_inv (s : FutexState) : Prop := {
  inv_nonempty : no_empty_queue s;
  inv_null : queue_at s 0 = [];
  inv_key a w : w ∈ queue_at s a → uaddr w = a;
  inv_nodup a : NoDup (tid <$> queue_at s a);
  inv_index t a : waiter_map_ s !! t = Some a ↔ t ∈ tid <$> queue_at s a;
}.

Lemma futex_inv_clear : futex_inv futex_clear.
Proof.
  split; try done.
  - intros a w Hw. by apply elem_of_nil in Hw.
  - constructor.
  - intros t a. split; [done|]. by intros ?%elem_of_nil.
Qed.

Lemma queue_unique s t a b :
  futex_inv s → t ∈ tid <$> queue_at s a → t ∈ tid <$> queue_at s b → a = b.
Proof.
  intros Hi Ha%(inv_index _ Hi) Hb%(inv_index _ Hi). congruence.
Qed.

Lemma is_thread_waiting_true s t :
  futex_inv s → is_thread_waiting t s = true ↔ ∃ a, t ∈ tid <$> queue_at s a.
Proof.
  intros Hi. unfold is_thread_waiting. split.
  - destruct (waiter_map_ s !! t) as [a|] eqn:E; [|done]. intros _. exists a.
    by apply (inv_index _ Hi).
  - intros [a Ha]. assert (a ≠ 0) as Hne.
    { intros ->. rewrite (inv_null _ Hi) in Ha. by apply elem_of_nil in Ha. }
    apply (inv_index _ Hi) in Ha as ->. by destruct (Z.eqb_spec a 0).
Qed.

Lemma tid_split n P q t :
  NoDup (tid <$> q) →
  t ∈ tid <$> reject n P q ↔ t ∈ tid <$> q ∧ t ∉ tid <$> select n P q.
Proof.
  intros Hnd. pose proof (select_reject_Permutation P n q) as Hp.
  rewrite <- Hp in Hnd. assert (t ∈ tid <$> q ↔ t ∈ tid <$> (select n P q ++ reject n P q))
    as -> by by rewrite Hp.
  rewrite fmap_app in Hnd |- *. apply NoDup_app in Hnd as (_ & Hd & _).
  rewrite elem_of_app. naive_solver.
Qed.

Lemma NoDup_reject n P q : NoDup (tid <$> q) → NoDup (tid <$> reject n P q).
Proof. apply sublist_fmap_NoDup, reject_sublist. Qed.

Lemma NoDup_select n P q : NoDup (tid <$> q) → NoDup (tid <$> select n P q).
Proof. apply sublist_fmap_NoDup, select_sublist. Qed.

(** ** Preservation *)

(** Removing from one queue exactly the threads dropped from the index. *)
Lemma futex_inv_shrink s s' a ws q :
  futex_inv s → no_empty_queue s' →
  waiter_map_ s' = drop_waiters ws (waiter_map_ s) →
  (∀ b, queue_at s' b = if decide (b = a) then q else queue_at s b) →
  q `sublist_of` queue_at s a →
  (∀ t, t ∈ tid <$> ws → t ∈ tid <$> queue_at s a) →
  (∀ t, t ∈ tid <$> q ↔ t ∈ tid <$> queue_at s a ∧ t ∉ tid <$> ws) →
  futex_inv s'.
Proof.
  intros Hi Hne Hm Hq Hsub Hws Hin. split; [done|..].
  - rewrite Hq. case_decide as Ha; [subst a|apply (inv_null _ Hi)].
    rewrite (inv_null _ Hi) in Hsub. by apply sublist_nil_r in Hsub.
  - intros b w. rewrite Hq. case_decide as Hb; [subst b|apply (inv_key _ Hi)].
    intros Hw. apply (inv_key _ Hi). by eapply sublist_subseteq.
  - intros b. rewrite Hq. case_decide as Hb; [subst b|apply (inv_nodup _ Hi)].
    eapply sublist_fmap_NoDup; [done|]. apply (inv_nodup _ Hi).
  - intros t b. rewrite Hm, lookup_drop_waiters, Hq.
    case_decide as Ht; case_decide as Hb; subst.
    + rewrite Hin. naive_solver.
    + split; [done|]. intros Hb'. destruct Hb. by eapply queue_unique; eauto.
    + rewrite Hin, (inv_index _ Hi). naive_solver.
    + apply (inv_index _ Hi).
Qed.

Lemma futex_inv_wake a nr bits priv s :
  futex_inv s → futex_inv (futex_wake a nr bits priv s).1.
Proof.
  intros Hi. rewrite futex_wake_spec by apply (inv_nonempty _ Hi). simpl.
  set (P := wakeable bits priv). set (n := Z.to_nat nr).
  eapply (futex_inv_shrink s _ a (select n P (queue_at s a)) (reject n P (queue_at s a)));
    [done| |done| | | |].
  - apply (no_empty_store _ _ _ (waiter_map_ s)). destruct s. apply (inv_nonempty _ Hi).
  - intros b. rewrite queue_store. by destruct s.
  - apply reject_sublist.
  - intros t. apply sublist_elem_of_fmap, select_sublist.
  - intros t. apply tid_split, (inv_nodup _ Hi).
Qed.

(** Moving waiters to another queue keeps the invariant. *)
Lemma futex_inv_move s s' a1 a2 n P :
  let moved := select n P (queue_at s a1) in
  futex_inv s → no_empty_queue s' → a1 ≠ a2 → a2 ≠ 0 →
  waiter_map_ s' = retarget a2 moved (waiter_map_ s) →
  (∀ b, queue_at s' b =
     if decide (b = a1) then reject n P (queue_at s a1)
     else if decide (b = a2) then queue_at s a2 ++ (set_uaddr a2 <$> moved)
     else queue_at s b) →
  futex_inv s'.
Proof.
  intros moved Hi Hne Ha H0 Hm Hq.
  assert (tid <$> (set_uaddr a2 <$> moved) = tid <$> moved) as Htid
    by (rewrite <- list_fmap_compose; apply list_fmap_ext; done).
  assert (∀ t, t ∈ tid <$> moved → t ∈ tid <$> queue_at s a1) as Hsub
    by (intros t; apply sublist_elem_of_fmap, select_sublist).
  split; [done|..].
  - rewrite Hq, (decide_False (P := 0 = a2)) by done.
    case_decide as Hb; [subst a1|]; rewrite (inv_null _ Hi); [by destruct n|done].
  - intros b w. rewrite Hq. repeat case_decide; subst.
    + intros Hw. apply (inv_key _ Hi). eapply sublist_subseteq; [apply reject_sublist|done].
    + intros [Hw|Hw]%elem_of_app; [by apply (inv_key _ Hi)|].
      by apply list_elem_of_fmap in Hw as (w' & -> & _).
    + apply (inv_key _ Hi).
  - intros b. rewrite Hq. repeat case_decide; subst;
      [apply NoDup_reject, (inv_nodup _ Hi)| |apply (inv_nodup _ Hi)].
    rewrite fmap_app, Htid. apply NoDup_app. split; [apply (inv_nodup _ Hi)|].
    split; [|apply NoDup_select, (inv_nodup _ Hi)].
    intros t Ht Ht2%Hsub. destruct Ha. by eapply queue_unique.
  - intros t b. rewrite Hm, lookup_retarget, Hq.
    assert (t ∈ tid <$> moved → waiter_map_ s !! t = Some a1) as H1
      by (intros ?%Hsub; by apply (inv_index _ Hi)).
    case_decide as Ht; [specialize (H1 Ht)|clear H1];
      (case_decide as Hb1; [subst b|case_decide as Hb2; [subst b|]]);
      rewrite ?tid_split by apply (inv_nodup _ Hi);
      rewrite ?fmap_app, ?elem_of_app, ?Htid; fold moved;
      rewrite <- ?(inv_index _ Hi).
    + split; [congruence|by intros [_ []]].
    + split; [by right|done].
    + split; congruence.
    + by split; [|intros [? _]].
    + by split; [left|intros [|]].
    + done.
Qed.

Lemma futex_inv_requeue a1 a2 nw nr priv s :
  futex_inv s → a2 ≠ 0 → futex_inv (futex_requeue a1 a2 nw nr priv s).1.
Proof.
  intros Hi H0. destruct (negb (a1 mod 4 =? 0) || negb (a2 mod 4 =? 0) || (nw <? 0)
                          || (nr <? 0)) eqn:Hbad.
  { unfold futex_requeue. by rewrite Hbad. }
  rewrite !orb_false_iff, !negb_false_iff, !Z.eqb_eq, !Z.ltb_ge in Hbad.
  destruct Hbad as [[[H1 H2] H3] H4].
  destruct (futex_requeue_spec a1 a2 nw nr priv s (inv_nonempty _ Hi) H1 H2 H3 H4)
    as (s' & -> & Hne & Hs). simpl.
  pose proof (futex_inv_wake a1 nw UINT32_MAX priv s Hi) as Hi1.
  rewrite futex_wake_spec in Hi1 by apply (inv_nonempty _ Hi). simpl in Hi1.
  fold (requeue_woken a1 nw priv s) in Hi1. fold (requeue_stay a1 nw priv s) in Hi1.
  match type of Hi1 with futex_inv ?x => set (s1 := x) in * end.
  assert (∀ b, queue_at s1 b = if decide (b = a1) then requeue_stay a1 nw priv s
                               else queue_at s b) as Hq1
    by (intros b; unfold s1; rewrite queue_store; by destruct s).
  case_decide as Ha; destruct Hs as [Hm Hq].
  - destruct Hi1 as [_ Hnull Hk Hn Hx]. split; [done|..].
    + by rewrite Hq, <- Hq1.
    + intros a w. rewrite Hq, <- Hq1. apply Hk.
    + intros a. rewrite Hq, <- Hq1. apply Hn.
    + intros t a. rewrite Hq, <- Hq1, Hm. apply Hx.
  - assert (queue_at s1 a1 = requeue_stay a1 nw priv s) as Hq1a by by rewrite Hq1, decide_True.
    apply (futex_inv_move s1 s' a1 a2 (Z.to_nat nr) (same_key priv)); try done;
      rewrite Hq1a; [done|].
    intros b. rewrite Hq, !Hq1, (decide_False (P := a2 = a1)) by done.
    by repeat case_decide.
Qed.

Lemma futex_inv_add w s :
  futex_inv s → is_thread_waiting (tid w) s = false → uaddr w ≠ 0 →
  futex_inv (add_waiter w s).
Proof.
  intros Hi Hw H0.
  assert (∀ a, tid w ∉ tid <$> queue_at s a) as Hfresh.
  { intros a Ha. assert (is_thread_waiting (tid w) s = true); [|congruence].
    apply is_thread_waiting_true; eauto. }
  assert (∀ b, queue_at (add_waiter w s) b =
    if decide (b = uaddr w) then queue_at s b ++ [w] else queue_at s b) as Hq.
  { intros b. unfold queue_at at 1, add_waiter. simpl.
    case_decide; subst; by rewrite ?lookup_insert_eq, ?lookup_insert_ne by done. }
  split.
  - intros a. unfold add_waiter. simpl. destruct (decide (a = uaddr w)) as [->|].
    + rewrite lookup_insert_eq. by destruct (queue_at s (uaddr w)).
    + rewrite lookup_insert_ne by done. apply (inv_nonempty _ Hi).
  - rewrite Hq, decide_False by done. apply (inv_null _ Hi).
  - intros a x. rewrite Hq. case_decide; [|apply (inv_key _ Hi)].
    intros [Hx|Hx%list_elem_of_singleton]%elem_of_app; [by apply (inv_key _ Hi)|congruence].
  - intros a. rewrite Hq. case_decide; [|apply (inv_nodup _ Hi)].
    rewrite fmap_app. apply NoDup_app. split; [apply (inv_nodup _ Hi)|].
    split; [|apply NoDup_singleton]. intros t Ht ->%list_elem_of_singleton. by eapply Hfresh.
  - intros t a. rewrite Hq. unfold add_waiter. simpl.
    destruct (decide (t = tid w)) as [->|Hne].
    + rewrite lookup_insert_eq. case_decide as Ha.
      * subst a. rewrite fmap_app, list_fmap_singleton, elem_of_app, list_elem_of_singleton. naive_solver.
      * split; [congruence|]. intros ?. by destruct (Hfresh a).
    + rewrite lookup_insert_ne by done. rewrite (inv_index _ Hi). case_decide; [|done].
      rewrite fmap_app, list_fmap_singleton, elem_of_app, list_elem_of_singleton. naive_solver.
Qed.

Lemma erase_tid_spec t q :
  erase_tid t q = if decide (t ∈ tid <$> q) then Some (reject 1 (λ w, tid w =? t) q) else None.
Proof.
  induction q as [|w q IH]; [done|]. cbn [erase_tid reject].
  destruct (Z.eqb_spec (tid w) t) as [<-|Hne].
  - rewrite decide_True by (rewrite fmap_cons; left). by rewrite reject_0.
  - rewrite IH. repeat case_decide; rewrite ?fmap_cons, ?elem_of_cons in *; naive_solver.
Qed.

Lemma select_tid t q :
  NoDup (tid <$> q) → t ∈ tid <$> q → tid <$> select 1 (λ w, tid w =? t) q = [t].
Proof.
  unfold select. induction q as [|w q IH]; [by intros _ ?%elem_of_nil|].
  rewrite fmap_cons, NoDup_cons. cbn [List.filter]. intros [_ Hnd] Ht.
  destruct (Z.eqb_spec (tid w) t) as [<-|Hne]; [done|].
  apply IH; [done|]. apply elem_of_cons in Ht as [?|?]; [congruence|done].
Qed.

(** Under the invariant [wake_thread] removes the thread from the one queue
    it sits in, and does nothing for a thread that is not waiting. *)
Lemma remove_waiter_spec t s :
  futex_inv s →
  match waiter_map_ s !! t with
  | None => remove_waiter t s = (s, false)
  | Some a =>
      remove_waiter t s =
        (mkFutex (store_queue a (reject 1 (λ w, tid w =? t) (queue_at s a)) (waiters_ s))
                 (delete t (waiter_map_ s)), true)
  end.
Proof.
  intros Hi. unfold remove_waiter. destruct (waiter_map_ s !! t) as [a|] eqn:E; [|done].
  apply (inv_index _ Hi) in E.
  destruct (Z.eqb_spec a 0) as [->|Hne].
  { rewrite (inv_null _ Hi) in E. by apply elem_of_nil in E. }
  by rewrite erase_tid_spec, decide_True by done.
Qed.

Lemma futex_inv_remove t s : futex_inv s → futex_inv (remove_waiter t s).1.
Proof.
  intros Hi. pose proof (remove_waiter_spec t s Hi) as Hr.
  destruct (waiter_map_ s !! t) as [a|] eqn:E; rewrite Hr; [|done]. simpl.
  apply (inv_index _ Hi) in E.
  pose proof (select_tid t _ (inv_nodup _ Hi a) E) as Hsel.
  eapply (futex_inv_shrink s _ a (select 1 (λ w, tid w =? t) (queue_at s a)));
    [done| | |intros b; rewrite queue_store; by destruct s| | |].
  - apply (no_empty_store _ _ _ (waiter_map_ s)). destruct s. apply (inv_nonempty _ Hi).
  - simpl. apply map_eq. intros t'. rewrite lookup_drop_waiters, Hsel.
    case_decide as Ht; rewrite list_elem_of_singleton in Ht;
      [subst; apply lookup_delete_eq|by rewrite lookup_delete_ne].
  - apply reject_sublist.
  - rewrite Hsel. by intros t' ->%list_elem_of_singleton.
  - intros t'. apply tid_split, (inv_nodup _ Hi).
Qed.

Lemma futex_inv_range start stop s :
  futex_inv s → futex_inv (wake_waiters_in_range start stop s).1.
Proof.
  intros Hi. destruct (wake_range_spec start stop s) as (s' & -> & Hm & Hw). simpl.
  assert (∀ a, queue_at s' a = if in_range start stop a then [] else queue_at s a) as Hq
    by (intros a; unfold queue_at; rewrite Hw; by destruct (in_range start stop a)).
  assert (∀ t, t ∈ tid <$> range_waiters start stop (entries (waiters_ s)) ↔
    ∃ a, in_range start stop a = true ∧ t ∈ tid <$> queue_at s a) as Hin.
  { intros t. rewrite list_elem_of_fmap. setoid_rewrite elem_of_range_waiters.
    setoid_rewrite list_elem_of_fmap. naive_solver. }
  split.
  - intros a. rewrite Hw. destruct (in_range start stop a); [done|apply (inv_nonempty _ Hi)].
  - rewrite Hq. destruct (in_range start stop 0); [done|apply (inv_null _ Hi)].
  - intros a w. rewrite Hq. destruct (in_range start stop a);
      [by intros ?%elem_of_nil|apply (inv_key _ Hi)].
  - intros a. rewrite Hq. destruct (in_range start stop a); [constructor|apply (inv_nodup _ Hi)].
  - intros t a. rewrite Hm, lookup_drop_waiters, Hq. case_decide as Ht.
    + apply Hin in Ht as (b & Hb & Ht). split; [done|].
      destruct (in_range start stop a) eqn:E; [by intros ?%elem_of_nil|].
      intros Ha. rewrite (queue_unique s t a b) in E by done. congruence.
    + rewrite (inv_index _ Hi). destruct (in_range start stop a) eqn:E; [|done].
      split; [|by intros ?%elem_of_nil]. intros Ha. destruct Ht. apply Hin. eauto.
Qed.

#[export] Hint Resolve futex_inv_clear futex_inv_wake futex_inv_requeue futex_inv_add
  futex_inv_remove futex_inv_range : detsim.

(** ** Runs of the component *)

(** What the dispatcher can do to a futex table.  Nothing is mapped at the
    null page, so a readable futex word has a non-null address; a requeue
    names a non-null second futex. *)
Inductive futex_step (s : FutexState) : FutexState → Prop :=
  | step_syscall t a op v timeout_addr a2 v3 word s' o :
      handle_futex t a op v timeout_addr a2 v3 word s = (s', o) →
      (word ≠ None → a ≠ 0) →
      (get_op op = FUTEX_REQUEUE ∨ get_op op = FUTEX_CMP_REQUEUE → a2 ≠ 0) →
      futex_step s s'
  | step_wake_thread t : futex_step s (wake_thread t s).1
  | step_discard start stop : futex_step s (wake_waiters_in_range start stop s).1
  | step_clear : futex_step s futex_clear.

Definition futex_reachable : FutexState → Prop := rtc futex_step futex_clear.

Lemma lift_step_fst {A} (f : FutexState → FutexState * A) s : (lift_step f s).1 = (f s).1.
Proof. unfold lift_step. by destruct (f s). Qed.

(** A syscall that throws or fails leaves the table alone; the others are
    one of the three operations. *)
Lemma handle_futex_cases t a op v timeout_addr a2 v3 word s :
  let r := handle_futex t a op v timeout_addr a2 v3 word s in
  r.1 = s ∨
  (is_thread_waiting t s = false ∧ word ≠ None ∧
     ∃ w, tid w = t ∧ uaddr w = a ∧ r.1 = add_waiter w s) ∨
  (∃ nr bits priv, r.1 = (futex_wake a nr bits priv s).1) ∨
  ((get_op op = FUTEX_REQUEUE ∨ get_op op = FUTEX_CMP_REQUEUE) ∧
     ∃ nw nr priv, r.1 = (futex_requeue a a2 nw nr priv s).1).
Proof.
  intros r. subst r. unfold handle_futex. set (o := get_op op).
  destruct (negb (_ || _)) eqn:Hop; [by left|].
  rewrite negb_false_iff, !orb_true_iff, !Z.eqb_eq in Hop.
  destruct (has op _ && _); [by left|].
  destruct (negb (a mod 4 =? 0)); [by left|].
  destruct (_ && (v3 =? 0)); [by left|].
  destruct ((o =? FUTEX_WAIT) || _) eqn:Hw.
  { unfold throw_if, mbind, M_bind, mret, M_ret, throw, get, modify.
    destruct (negb (timeout_addr =? 0)); [by left|].
    destruct word as [x|]; [|by left]. destruct (negb (uint32 x =? uint32 v)); [by left|].
    destruct (is_thread_waiting t s) eqn:Ht; [by left|]. right; left.
    split; [done|]. split; [done|]. by eexists (mkWaiter _ _ _ _ _). }
  destruct ((o =? FUTEX_WAKE) || _) eqn:Hk.
  { right; right; left. eexists _, _, _. apply lift_step_fst. }
  destruct (_ || (int32 timeout_addr <? 0)); [by left|].
  assert (o = FUTEX_REQUEUE ∨ o = FUTEX_CMP_REQUEUE) as Ho.
  { rewrite !orb_false_iff, !Z.eqb_neq in *. naive_solver. }
  destruct (o =? FUTEX_CMP_REQUEUE); [destruct word as [x|]; [|by left];
    destruct (negb (uint32 x =? uint32 v3)); [by left|]|];
    right; right; right; (split; [done|]); eexists _, _, _; apply lift_step_fst.
Qed.

Lemma zlength_select_nonneg {A} n (P : A → bool) q : ¬ zlength (select n P q) < 0.
Proof. pose proof (zlength_nonneg (select n P q)). lia. Qed.

(** Errors and exceptions have no effect. *)
Lemma handle_futex_error t a op v timeout_addr a2 v3 word s s' o :
  no_empty_queue s →
  handle_futex t a op v timeout_addr a2 v3 word s = (s', o) →
  match o with Throw _ => s' = s | Ret r => r < 0 → s' = s end.
Proof.
  intros Hne. unfold handle_futex, throw_if.
  assert (∀ nw nr priv, lift_step (futex_requeue a a2 nw nr priv) s = (s', o) →
    match o with Throw _ => s' = s | Ret r => r < 0 → s' = s end) as Hrq.
  { intros nw nr priv. unfold lift_step.
    destruct (negb (a mod 4 =? 0) || negb (a2 mod 4 =? 0) || (nw <? 0) || (nr <? 0)) eqn:Hbad.
    { unfold futex_requeue. rewrite Hbad. by intros [= <- <-]. }
    rewrite !orb_false_iff, !negb_false_iff, !Z.eqb_eq, !Z.ltb_ge in Hbad.
    destruct Hbad as [[[H1 H2] H3] H4].
    destruct (futex_requeue_spec a a2 nw nr priv s Hne H1 H2 H3 H4) as (s1 & -> & _).
    intros [= <- <-]. unfold requeue_woken, requeue_moved.
    pose proof (zlength_nonneg (select (Z.to_nat nw) (wakeable UINT32_MAX priv) (queue_at s a))).
    pose proof (zlength_nonneg (select (Z.to_nat nr) (same_key priv) (requeue_stay a nw priv s))).
    lia. }
  unfold mbind, M_bind, mret, M_ret, throw, get, modify.
  repeat match goal with
  | |- context [if ?c then _ else _] => destruct c
  | |- context [match word with _ => _ end] => destruct word
  | |- (_, _) = _ → _ => by intros [= <- <-]
  | |- lift_step (futex_requeue _ _ _ _ _) _ = _ → _ => apply Hrq
  | |- lift_step (futex_wake _ _ _ _) _ = _ → _ =>
      unfold lift_step; rewrite futex_wake_spec by apply Hne; intros [= <- <-];
      by intros ?%zlength_select_nonneg
  end.
Qed.

Lemma futex_inv_step s s' : futex_step s s' → futex_inv s → futex_inv s'.
Proof.
  destruct 1 as [t a op v ta a2 v3 word s' o Hr Ha Ha2| | |]; intros Hi;
    [|by apply futex_inv_remove|by apply futex_inv_range|apply futex_inv_clear].
  pose proof (handle_futex_cases t a op v ta a2 v3 word s) as Hc.
  rewrite Hr in Hc. simpl in Hc.
  destruct Hc as [->|[(Hw & Hn & w & <- & <- & ->)|[(nr & bits & priv & ->)|
    (Ho & nw & nr & priv & ->)]]]; eauto with detsim.
Qed.

Lemma futex_reachable_inv s : futex_reachable s → futex_inv s.
Proof.
  unfold futex_reachable. pose proof futex_inv_clear as Hi. revert Hi.
  generalize futex_clear. induction 2 as [|x y z Hst _ IH]; [done|].
  by eapply IH, futex_inv_step.
Qed.

Lemma get_waiters_queue a s : get_waiters a s = tid <$> queue_at s a.
Proof. unfold get_waiters, queue_at. by destruct (waiters_ s !! a). Qed.

Lemma is_thread_waiting_index s t :
  futex_inv s → is_thread_waiting t s = bool_decide (is_Some (waiter_map_ s !! t)).
Proof.
  intros Hi. apply Bool.eq_iff_eq_true. rewrite is_thread_waiting_true, bool_decide_eq_true by done.
  unfold is_Some. by setoid_rewrite (inv_index _ Hi t).
Qed.

Lemma waiting_drop s s' ws t :
  futex_inv s → futex_inv s' → waiter_map_ s' = drop_waiters ws (waiter_map_ s) →
  is_thread_waiting t s' = is_thread_waiting t s && negb (bool_decide (t ∈ tid <$> ws)).
Proof.
  intros Hi Hi' Hm. rewrite !is_thread_waiting_index, Hm by done.
  rewrite lookup_drop_waiters. case_decide as Ht.
  - rewrite (bool_decide_true (t ∈ _)), andb_false_r by done.
    apply bool_decide_false. by intros [? ?].
  - by rewrite (bool_decide_false (t ∈ _)), andb_true_r by done.
Qed.

(** ** Properties *)



(** C11. A wake takes the longest-waiting matching threads: of the waiters at
    the address with the same private flag and an overlapping bitset, the
    first [nr_wake] in arrival order stop waiting, the others keep their
    order, no thread at another address is touched, and the result is the
    number woken, the smaller of [nr_wake] and the number that match. *)
Theorem futex_wake_fifo a nr bits priv s s' n :
  futex_inv s → 0 ≤ nr → futex_wake a nr bits priv s = (s', n) →
  let woken := select (Z.to_nat nr) (wakeable bits priv) (queue_at s a) in
  n = Z.min nr (zlength (List.filter (wakeable bits priv) (queue_at s a))) ∧
  n = zlength woken ∧
  queue_at s' a = reject (Z.to_nat nr) (wakeable bits priv) (queue_at s a) ∧
  (∀ b, b ≠ a → queue_at s' b = queue_at s b) ∧
  (∀ t, is_thread_waiting t s' =
     is_thread_waiting t s && negb (bool_decide (t ∈ tid <$> woken))) ∧
  futex_inv s'.
Proof.
  intros Hi Hnr Hw woken. pose proof (futex_inv_wake a nr bits priv s Hi) as Hi'.
  rewrite Hw in Hi'. simpl in Hi'.
  rewrite futex_wake_spec in Hw by apply (inv_nonempty _ Hi). injection Hw as <- <-.
  split; [rewrite select_le; lia|]. split; [done|].
  split; [by rewrite queue_store, decide_True|].
  split; [intros b Hb; rewrite queue_store, decide_False by done; by destruct s|].
  split; [|done]. intros t. by apply waiting_drop.
Qed.

(** Three waiters at one address, the second of them shared rather than
    private. *)
Definition sample_futex : FutexState :=
  add_waiter (mkWaiter 9 64 0 UINT32_MAX true)
    (add_waiter (mkWaiter 8 64 0 UINT32_MAX false)
      (add_waiter (mkWaiter 7 64 0 UINT32_MAX true) futex_clear)).

Lemma sample_futex_inv : futex_inv sample_futex.
Proof. repeat apply futex_inv_add; done || apply futex_inv_clear. Qed.

Lemma futex_wake_fifo_witness :
  get_waiters 64 (futex_wake 64 1 UINT32_MAX true sample_futex).1 = [8; 9] ∧
  (futex_wake 64 1 UINT32_MAX true sample_futex).2 = 1.
Proof.
  destruct (futex_wake 64 1 UINT32_MAX true sample_futex) as [s' n] eqn:E.
  destruct (futex_wake_fifo 64 1 UINT32_MAX true sample_futex s' n sample_futex_inv
    ltac:(lia) E) as (Hn & _ & Hq & _).
  simpl fst. simpl snd. split; [|rewrite Hn; reflexivity].
  rewrite get_waiters_queue, Hq. reflexivity.
Defined.





(** Discarding a memory range wakes exactly the threads waiting at an
    address inside it: those addresses lose their queues, all others keep
    them, a thread waits afterwards exactly when it waited outside the
    range, and the result is the number of threads woken. *)
Theorem wake_range_exact start stop s s' n :
  futex_inv s → wake_waiters_in_range start stop s = (s', n) →
  (∀ a, get_waiters a s' = if in_range start stop a then [] else get_waiters a s) ∧
  (∀ t, is_thread_waiting t s' =
     is_thread_waiting t s && negb (in_range start stop (get_wait_address t s))) ∧
  n = zlength (range_waiters start stop (entries (waiters_ s))) ∧
  futex_inv s'.
Proof.
  intros Hi Hr. pose proof (futex_inv_range start stop s Hi) as Hi'. rewrite Hr in Hi'.
  destruct (wake_range_spec start stop s) as (s1 & Hr1 & Hm & Hw).
  rewrite Hr in Hr1. injection Hr1 as -> ->. simpl in Hi'.
  split; [|split; [|split; done]].
  - intros a. unfold get_waiters. rewrite Hw. by destruct (in_range start stop a).
  - intros t. rewrite (waiting_drop s s1 _ t Hi Hi' Hm), !is_thread_waiting_index by done.
    unfold get_wait_address. destruct (waiter_map_ s !! t) as [a|] eqn:E.
    2:{ rewrite bool_decide_false; [done|by intros [? ?]]. }
    rewrite bool_decide_true by done. simpl. f_equal.
    apply Bool.eq_iff_eq_true. rewrite bool_decide_eq_true, list_elem_of_fmap.
    setoid_rewrite elem_of_range_waiters. split.
    + intros (w & -> & b & Hb & Hin). assert (tid w ∈ tid <$> queue_at s b) as Hq
        by by apply list_elem_of_fmap_2. apply (inv_index _ Hi) in Hq. congruence.
    + intros Ha. apply (inv_index _ Hi), list_elem_of_fmap in E as (w & -> & Hin). eauto.
Qed.

Lemma wake_range_exact_witness :
  (wake_waiters_in_range 0 4096 sample_futex).2 = 3 ∧
  get_waiters 64 (wake_waiters_in_range 0 4096 sample_futex).1 = [].
Proof.
  destruct (wake_waiters_in_range 0 4096 sample_futex) as [s' n] eqn:E.
  destruct (wake_range_exact 0 4096 sample_futex s' n sample_futex_inv E)
    as (Hq & _ & Hn & _).
  simpl. rewrite Hn, Hq. split; reflexivity.
Defined.

(** C14. Requeueing to the null address is not refused: the moved thread stays
    queued, at address zero, while [is_thread_waiting] reports that it no
    longer waits, so the table is inconsistent.  (Linux fails such a call
    with [EFAULT] when it resolves the second futex key.) *)
Theorem futex_requeue_null_target t v bits :
  let s := add_waiter (mkWaiter t 64 v bits true) futex_clear in
  let r := handle_futex 1 64 (FUTEX_REQUEUE + FUTEX_PRIVATE_FLAG) 0 1 0 0 None s in
  r.2 = Ret 1 ∧ is_thread_waiting t s = true ∧ is_thread_waiting t r.1 = false ∧
  get_waiters 0 r.1 = [t] ∧ (remove_waiter t r.1).2 = false.
Proof.
  intros s r. set (w := mkWaiter t 64 v bits true).
  assert (waiters_ s = {[ 64 := [w] ]}) as Hws by reflexivity.
  assert (no_empty_queue s) as Hne.
  { intros a. rewrite Hws. by intros [_ ?]%lookup_singleton_Some. }
  assert (queue_at s 64 = [w]) as Hq by reflexivity.
  destruct (futex_requeue_spec 64 0 0 1 true s Hne eq_refl eq_refl ltac:(lia) ltac:(lia))
    as (s' & Hr & _ & Hm & Hq').
  assert (r = (s', Ret 1)) as ->.
  { unfold r. transitivity (lift_step (futex_requeue 64 0 0 1 true) s); [reflexivity|].
    unfold lift_step. rewrite Hr. reflexivity. }
  assert (waiter_map_ s' !! t = Some 0) as Ht.
  { rewrite Hm, lookup_retarget, decide_True; [done|]. left. }
  unfold is_thread_waiting, remove_waiter. cbn [fst snd]. rewrite Ht, get_waiters_queue, Hq'.
  repeat split. unfold s, add_waiter. simpl. by rewrite lookup_insert_eq.
Qed.
