(* ===== verification/Frontier.v ===== *)
(** * The search frontier

    [src/src/core/search/frontier.h], [frontier.cpp]: the coordinator's
    record of every discovered state (its depth, phase, lease and
    successors), the dispatch indexes derived from it, and the operations
    [admit], [lease], [commit], [worker_lost] and [status].

    [std::bad_alloc] is outside the model, so [poisoned_] is never set by an
    operation here; it is kept because every operation tests it. *)

From S2P Require Import Prelude.

Inductive Policy := Dfs | Bfs | Priority.
Inductive NodePhase :=
  | Pending | Inflight | Expanded | Terminal | DepthCut | ModelBudget | Failure.
Inductive ResultKind := RExpanded | RTerminal | RDepthCut | RModelBudget | RFailure.
Inductive Status := Running | Complete | Bounded | Failed.

#[export] Instance Policy_eq_dec : EqDecision Policy.
Proof. solve_decision. Defined.
#[export] Instance NodePhase_eq_dec : EqDecision NodePhase.
Proof. solve_decision. Defined.
#[export] Instance Status_eq_dec : EqDecision Status.
Proof. solve_decision. Defined.

Record Ticket := mkTicket {
  t_state : Z;
  t_worker : Z;
  t_lease_id : Z;
  t_depth : Z;
  t_may_expand : bool;
}.

#[export] Instance Ticket_eq_dec : EqDecision Ticket.
Proof. solve_decision. Defined.

Record Expansion := mkExpansion {
  x_kind : ResultKind;
  x_successors : list Z;
  x_reason : string;
}.

Record Node := mkNode {
  depth : Z;
  phase : NodePhase;
  sequence : Z;
  ticket : option Ticket;
  successors : list Z;
  reason : string;
}.

Record Counters := mkCounters {
  admitted : Z;
  duplicates : Z;
  improvements : Z;
  leased : Z;
  committed : Z;
  requeued : Z;
  dispatch_candidates : Z;
}.

(** What the constructor fixes for the life of the object. *)
Record Config := mkConfig {
  limit_ : Z;
  policy_ : Policy;
  priority_ : option (Z → Z → Z);
  max_states_ : Z;
}.

(** [phase_counts_] is the array indexed by the phase enum; the layer counts
    and phase counts stay below the number of nodes (see [idx_ok]), so their
    [size_t] arithmetic never wraps. *)
Record Frontier := mkFrontier {
  next_sequence_ : Z;
  next_lease_ : Z;
  poisoned_ : bool;
  nodes_ : gmap Z Node;
  pending_ : gmap Z Z;
  bfs_pending_ : gmap (Z * Z) Z;
  active_layers_ : gmap Z Z;
  phase_counts_ : NodePhase → Z;
  counters_ : Counters;
}.

(** [std::pair] keys are ordered lexicographically. *)
Definition pair_le (p q : Z * Z) : Prop := p.1 < q.1 ∨ p.1 = q.1 ∧ p.2 ≤ q.2.

#[export] Instance pair_le_dec : RelDecision pair_le.
Proof. intros p q. unfold pair_le. apply _. Defined.

#[export] Instance pair_le_order : TotalOrder pair_le.
Proof.
  unfold pair_le. split; [split; [split|]|].
  - intros [a b]. simpl. lia.
  - intros [a b] [c d] [e f]. simpl. lia.
  - intros [a b] [c d]. simpl. intros H1 H2. f_equal; lia.
  - intros [a b] [c d]. unfold strict. simpl.
    destruct (decide (a = c ∧ b = d)) as [[-> ->]|Hne]; [auto|].
    assert (a < c ∨ c < a ∨ (a = c ∧ (b < d ∨ d < b))) by lia. lia.
Qed.

#[export] Instance pair_key_order : KeyOrder (Z * Z) := {| key_le := pair_le |}.

Definition Frontier_ctor (limit : Z) (policy : Policy) (priority : option (Z → Z → Z))
    (max_states : Z) : outcome (Config * Frontier) :=
  if negb (Bool.eqb (bool_decide (policy = Priority))
                    (match priority with Some _ => true | None => false end))
  then Throw (invalid_argument "priority callback required only for priority policy")
  else if max_states =? 0
  then Throw (invalid_argument "frontier capacity must be positive")
  else Ret (mkConfig limit policy priority max_states,
            mkFrontier 0 0 false ∅ ∅ ∅ ∅ (λ _, 0) (mkCounters 0 0 0 0 0 0 0)).

Definition is_active (p : NodePhase) : bool :=
  match p with Pending | Inflight => true | _ => false end.

Section operations.
Variable cfg : Config.
Notation "'bfs'" := (bool_decide (policy_ cfg = Bfs)) (only parsing).

Definition set_nodes (m : gmap Z Node) (f : Frontier) : Frontier :=
  mkFrontier (next_sequence_ f) (next_lease_ f) (poisoned_ f) m (pending_ f)
    (bfs_pending_ f) (active_layers_ f) (phase_counts_ f) (counters_ f).

Definition set_counters (g : Counters → Counters) (f : Frontier) : Frontier :=
  mkFrontier (next_sequence_ f) (next_lease_ f) (poisoned_ f) (nodes_ f) (pending_ f)
    (bfs_pending_ f) (active_layers_ f) (phase_counts_ f) (g (counters_ f)).

Definition set_sequences (seq lease : Z) (f : Frontier) : Frontier :=
  mkFrontier seq lease (poisoned_ f) (nodes_ f) (pending_ f)
    (bfs_pending_ f) (active_layers_ f) (phase_counts_ f) (counters_ f).

Definition set_index pend bfsp act cnt (f : Frontier) : Frontier :=
  mkFrontier (next_sequence_ f) (next_lease_ f) (poisoned_ f) (nodes_ f)
    pend bfsp act cnt (counters_ f).

Definition bump (p : NodePhase) (d : Z) (c : NodePhase → Z) : NodePhase → Z :=
  λ q, if decide (q = p) then c q + d else c q.

Definition index_add (key : Z) (node : Node) (f : Frontier) : Frontier :=
  set_index
    (if bool_decide (phase node = Pending)
     then match pending_ f !! sequence node with
          | Some _ => pending_ f
          | None => <[sequence node := key]> (pending_ f)
          end
     else pending_ f)
    (if bool_decide (phase node = Pending) && bfs
     then match bfs_pending_ f !! (depth node, sequence node) with
          | Some _ => bfs_pending_ f
          | None => <[(depth node, sequence node) := key]> (bfs_pending_ f)
          end
     else bfs_pending_ f)
    (if bfs && is_active (phase node)
     then <[depth node := default 0 (active_layers_ f !! depth node) + 1]> (active_layers_ f)
     else active_layers_ f)
    (bump (phase node) 1 (phase_counts_ f)) f.

Definition index_remove (node : Node) (f : Frontier) : Frontier :=
  set_index
    (if bool_decide (phase node = Pending)
     then delete (sequence node) (pending_ f) else pending_ f)
    (if bool_decide (phase node = Pending) && bfs
     then delete (depth node, sequence node) (bfs_pending_ f) else bfs_pending_ f)
    (if bfs && is_active (phase node)
     then match active_layers_ f !! depth node with
          | Some c => if c - 1 =? 0 then delete (depth node) (active_layers_ f)
                      else <[depth node := c - 1]> (active_layers_ f)
          | None => active_layers_ f
          end
     else active_layers_ f)
    (bump (phase node) (-1) (phase_counts_ f)) f.

Definition set_phase_depth (p : NodePhase) (d : Z) (n : Node) : Node :=
  mkNode d p (sequence n) (ticket n) (successors n) (reason n).

Definition set_ticket (t : option Ticket) (n : Node) : Node :=
  mkNode (depth n) (phase n) (sequence n) t (successors n) (reason n).

Definition set_result (succ : list Z) (why : string) (n : Node) : Node :=
  mkNode (depth n) (phase n) (sequence n) (ticket n) succ why.

(** [update]: the node is the one stored under [key]. *)
Definition update (key : Z) (p : NodePhase) (d : Z) (f : Frontier) : Frontier :=
  match nodes_ f !! key with
  | None => f
  | Some node =>
      let f := index_remove node f in
      let node' := set_phase_depth p d node in
      index_add key node' (set_nodes (<[key := node']> (nodes_ f)) f)
  end.

Definition count_duplicate (c : Counters) : Counters :=
  mkCounters (admitted c) (uint64 (duplicates c + 1)) (improvements c) (leased c)
    (committed c) (requeued c) (dispatch_candidates c).
Definition count_improvement (c : Counters) : Counters :=
  mkCounters (admitted c) (duplicates c) (uint64 (improvements c + 1)) (leased c)
    (committed c) (requeued c) (dispatch_candidates c).
Definition count_admitted (c : Counters) : Counters :=
  mkCounters (uint64 (admitted c + 1)) (duplicates c) (improvements c) (leased c)
    (committed c) (requeued c) (dispatch_candidates c).
Definition count_leased (candidates : Z) (c : Counters) : Counters :=
  mkCounters (admitted c) (duplicates c) (improvements c) (uint64 (leased c + 1))
    (committed c) (requeued c) (uint64 (dispatch_candidates c + candidates)).
Definition count_committed (c : Counters) : Counters :=
  mkCounters (admitted c) (duplicates c) (improvements c) (leased c)
    (uint64 (committed c + 1)) (requeued c) (dispatch_candidates c).
Definition count_requeued (n : Z) (c : Counters) : Counters :=
  mkCounters (admitted c) (duplicates c) (improvements c) (leased c)
    (committed c) (uint64 (requeued c + n)) (dispatch_candidates c).

Definition map_size (f : Frontier) : Z := Z.of_nat (size (nodes_ f)).

(** The loop of [propagate]; the head of [work] is the back of the vector.
    [None] means out of fuel, which [propagate_fuel] excludes. *)
Fixpoint propagate_loop (fuel : nat) (work : list (Z * Z)) (f : Frontier)
    : option (Frontier * outcome unit) :=
  match fuel with
  | O => None
  | S fuel =>
      match work with
      | [] => Some (f, Ret tt)
      | (key, distance) :: rest =>
          match nodes_ f !! key with
          | None =>
              if map_size f =? max_states_ cfg
              then Some (f, Throw (length_error "frontier capacity exceeded"))
              else if next_sequence_ f =? UINT64_MAX
              then Some (f, Throw (overflow_error "frontier sequence exhausted"))
              else
                let node := mkNode distance Pending (next_sequence_ f) None [] EmptyString in
                let f := set_sequences (next_sequence_ f + 1) (next_lease_ f) f in
                let f := index_add key node (set_nodes (<[key := node]> (nodes_ f)) f) in
                propagate_loop fuel rest (set_counters count_admitted f)
          | Some node =>
              let f := set_counters count_duplicate f in
              if depth node <=? distance then propagate_loop fuel rest f
              else
                let p := if bool_decide (phase node = DepthCut) then Pending else phase node in
                let f := set_counters count_improvement (update key p distance f) in
                propagate_loop fuel
                  ((if bool_decide (p = Expanded)
                    then (λ s, (s, uint64 (distance + 1))) <$> successors node else []) ++ rest) f
          end
      end
  end.

(** Every improvement lowers a node's depth and pushes its successors once,
    so depth times out-degree, summed, bounds the pushes. *)
Definition propagate_budget (m : gmap Z Node) : nat :=
  map_fold (λ _ n acc, (Z.to_nat (depth n) * length (successors n) + acc)%nat) O m.

Definition propagate (state d : Z) (f : Frontier) : Frontier * outcome unit :=
  default (f, Throw (runtime_error "propagate: out of fuel"))
    (propagate_loop (S (S (propagate_budget (nodes_ f)))) [(state, d)] f).

Definition ensure_healthy : M Frontier unit :=
  f ← get; throw_if (poisoned_ f) (runtime_error "frontier poisoned by allocation failure").

(** [Frontier::admit] *)
Definition admit_state (state d : Z) : M Frontier bool :=
  ensure_healthy;;
  throw_if (limit_ cfg <? d) (invalid_argument "admission beyond depth limit");;
  f ← get;
  let found := nodes_ f !! state in
  let changed := match found with None => true | Some n => d <? depth n end in
  throw_if (bool_decide (found = None) && (map_size f =? max_states_ cfg))
    (length_error "frontier capacity exceeded");;
  propagate state d;;
  mret changed.

Definition finalize_lease (worker key candidates : Z) : M Frontier (option Ticket) :=
  f ← get;
  match nodes_ f !! key with
  | None => mret None
  | Some node =>
      throw_if (next_lease_ f =? UINT64_MAX) (overflow_error "frontier lease IDs exhausted");;
      let result := mkTicket key worker (next_lease_ f + 1) (depth node) (depth node <? limit_ cfg) in
      modify (set_sequences (next_sequence_ f) (next_lease_ f + 1));;
      modify (update key Inflight (depth node));;
      modify (λ f, set_nodes (alter (set_ticket (Some result)) key (nodes_ f)) f);;
      modify (set_counters (count_leased candidates));;
      mret (Some result)
  end.

(** The scan of the pending set under [Policy::Priority]. *)
Definition priority_scan (prio : Z → Z → Z) (f : Frontier) (first : Z)
    (others : list (Z * Z)) : Z * Z * Z :=
  let prio_of k := prio k (match nodes_ f !! k with Some n => depth n | None => 0 end) in
  foldl (λ '(selected, best, candidates) '(_, key),
           let p := prio_of key in
           if p <? best then (key, p, candidates + 1) else (selected, best, candidates + 1))
        (first, prio_of first, 1) others.

(** [Frontier::lease(worker)] *)
Definition lease (worker : Z) : M Frontier (option Ticket) :=
  ensure_healthy;;
  f ← get;
  match entries (pending_ f) with
  | [] => mret None
  | (_, first) :: others =>
      match policy_ cfg with
      | Dfs => finalize_lease worker (List.last (entries (pending_ f)).*2 first) 1
      | Bfs =>
          match entries (bfs_pending_ f), entries (active_layers_ f) with
          | ((d, _), key) :: _, (layer, _) :: _ =>
              if negb (d =? layer) then mret None else finalize_lease worker key 1
          | _, _ => mret None
          end
      | Priority =>
          match priority_ cfg with
          | None => mret None
          | Some prio =>
              let '(key, _, candidates) := priority_scan prio f first others in
              finalize_lease worker key candidates
          end
      end
  end.

(** [consider], folded over the candidates the window admits. *)
Definition consider (scorer : Z → Z) (acc : Z * Z * Z) (key : Z) : Z * Z * Z :=
  let '(selected, best, candidates) := acc in
  let score := scorer key in
  if (candidates =? 0) || (best <? score)
  then (key, score, candidates + 1) else (selected, best, candidates + 1).

Definition in_layer (layer : Z) (p : Z * Z * Z) : bool := (p.1.1 =? layer).

(** The keys in dispatch order, before the window is applied. *)
Fixpoint take_while {A} (P : A → bool) (l : list A) : list A :=
  match l with
  | [] => []
  | x :: l' => if P x then x :: take_while P l' else []
  end.

(** [Frontier::lease(worker, scorer, window)] *)
Definition lease_local (worker : Z) (scorer : option (Z → Z)) (window : nat)
    : M Frontier (option Ticket) :=
  ensure_healthy;;
  if bool_decide (policy_ cfg = Priority) then lease worker else
  match scorer, window with
  | None, _ | _, O =>
      throw (invalid_argument "Frontier locality needs a scorer and nonzero window")
  | Some scorer, _ =>
      f ← get;
      match entries (pending_ f) with
      | [] => mret None
      | _ =>
          if bfs then
            match entries (bfs_pending_ f), entries (active_layers_ f) with
            | ((d, _), _) :: _, (layer, _) :: _ =>
                if negb (d =? layer) then mret None else
                let candidates := take window (take_while (in_layer layer) (entries (bfs_pending_ f))).*2 in
                let '(key, _, n) := foldl (consider scorer) (0, 0, 0) candidates in
                finalize_lease worker key n
            | _, _ => mret None
            end
          else
            let candidates := take window (rev (entries (pending_ f)).*2) in
            let '(key, _, n) := foldl (consider scorer) (0, 0, 0) candidates in
            finalize_lease worker key n
      end
  end.

Definition phase_of (k : ResultKind) : NodePhase :=
  match k with
  | RExpanded => Expanded | RTerminal => Terminal | RDepthCut => DepthCut
  | RModelBudget => ModelBudget | RFailure => Failure
  end.

Definition ticket_current (t : Ticket) (f : Frontier) : bool :=
  match nodes_ f !! t_state t with
  | Some node =>
      bool_decide (phase node = Inflight) &&
      match ticket node with
      | Some u => (t_worker u =? t_worker t) && (t_lease_id u =? t_lease_id t) &&
                  (t_depth u =? t_depth t) && Bool.eqb (t_may_expand u) (t_may_expand t)
      | None => false
      end
  | None => false
  end.

(** [missing]: the successors not yet known, without repetition. *)
Definition missing_keys (m : gmap Z Node) (keys : list Z) : gset Z :=
  list_to_set keys ∖ dom m.

(** The loop [for (auto key : node.successors) propagate(key, node.depth + 1)];
    the node is read again at every turn. *)
Fixpoint propagate_all (key : Z) (succ : list Z) : M Frontier unit :=
  match succ with
  | [] => mret tt
  | s :: succ =>
      f ← get;
      let d := match nodes_ f !! key with Some n => depth n | None => 0 end in
      propagate s (uint64 (d + 1));;
      propagate_all key succ
  end.

(** [Frontier::commit] *)
Definition commit (t : Ticket) (x : Expansion) : M Frontier unit :=
  ensure_healthy;;
  f ← get;
  throw_if (negb (ticket_current t f)) (invalid_argument "stale or invalid frontier lease");;
  let p := phase_of (x_kind x) in
  throw_if ((negb (t_may_expand t) && bool_decide (p = Expanded)) ||
            (t_may_expand t && bool_decide (p = DepthCut)))
    (invalid_argument "expansion result incompatible with probe lease");;
  throw_if (bool_decide (p ≠ Expanded) && bool_decide (x_successors x ≠ []))
    (invalid_argument "incomplete or terminal expansion cannot publish successors");;
  throw_if ((bool_decide (p = ModelBudget) || bool_decide (p = Failure)) &&
            bool_decide (x_reason x = EmptyString))
    (invalid_argument "cutoff/failure requires a reason");;
  let missing := Z.of_nat (size (missing_keys (nodes_ f) (x_successors x))) in
  throw_if (max_states_ cfg - map_size f <? missing)
    (length_error "frontier capacity exceeded");;
  throw_if (UINT64_MAX - next_sequence_ f <? missing)
    (overflow_error "frontier sequence exhausted");;
  let key := t_state t in
  let d := match nodes_ f !! key with Some n => depth n | None => 0 end in
  modify (λ f, set_nodes (alter (set_result (x_successors x) (x_reason x)) key (nodes_ f)) f);;
  modify (update key (if bool_decide (p = DepthCut) && (d <? limit_ cfg) then Pending else p) d);;
  modify (λ f, set_nodes (alter (set_ticket None) key (nodes_ f)) f);;
  propagate_all key (x_successors x);;
  modify (set_counters count_committed).

(** One turn of the loop of [worker_lost]. *)
Definition lost_step (worker : Z) (acc : Frontier * Z) (e : Z * Node) : Frontier * Z :=
  let '(f, count) := acc in
  let '(key, node) := e in
  match ticket node with
  | Some t =>
      if t_worker t =? worker
      then let f := update key Pending (depth node) f in
           (set_nodes (alter (set_ticket None) key (nodes_ f)) f, count + 1)
      else (f, count)
  | None => (f, count)
  end.

(** [Frontier::worker_lost] *)
Definition worker_lost (worker : Z) : M Frontier Z :=
  ensure_healthy;;
  f ← get;
  let '(f', count) := foldl (lost_step worker) (f, 0) (entries (nodes_ f)) in
  put (set_counters (count_requeued count) f');;
  mret count.

(** [Frontier::status] *)
Definition status (f : Frontier) : Status :=
  if poisoned_ f then Failed
  else if negb (phase_counts_ f Failure =? 0) then Failed
  else if negb (phase_counts_ f Pending =? 0) || negb (phase_counts_ f Inflight =? 0) then Running
  else if negb (phase_counts_ f DepthCut =? 0) || negb (phase_counts_ f ModelBudget =? 0)
  then Bounded else Complete.
End operations.

(** ** Counting nodes *)

Definition count_nodes (P : Node → bool) (m : gmap Z Node) : Z :=
  Z.of_nat (size (filter (λ kv, P kv.2 = true) m)).

Lemma count_nodes_empty P : count_nodes P ∅ = 0.
Proof. unfold count_nodes. by rewrite map_filter_empty, map_size_empty. Qed.

Lemma count_nodes_insert P m k n :
  m !! k = None →
  count_nodes P (<[k := n]> m) = count_nodes P m + (if P n then 1 else 0).
Proof.
  intros Hk. unfold count_nodes. destruct (P n) eqn:E.
  - rewrite map_filter_insert_True by done. rewrite map_size_insert_None; [lia|].
    apply map_lookup_filter_None. by left.
  - rewrite map_filter_insert_False by (simpl; congruence). rewrite delete_id by done. lia.
Qed.

Lemma count_nodes_delete P m k n :
  m !! k = Some n →
  count_nodes P (delete k m) = count_nodes P m - (if P n then 1 else 0).
Proof.
  intros Hk. rewrite <- (insert_delete_id m k n) at 2 by done.
  rewrite count_nodes_insert by apply lookup_delete_eq. lia.
Qed.

Lemma count_nodes_nonneg P m : 0 ≤ count_nodes P m.
Proof. unfold count_nodes. lia. Qed.

Lemma count_nodes_pos P m k n : m !! k = Some n → P n = true → 0 < count_nodes P m.
Proof.
  intros Hk HP. pose proof (count_nodes_delete P m k n Hk).
  pose proof (count_nodes_nonneg P (delete k m)). rewrite HP in *. lia.
Qed.

Lemma count_nodes_0 P m : count_nodes P m = 0 ↔ ∀ k n, m !! k = Some n → P n = false.
Proof.
  split.
  - intros H k n Hk. destruct (P n) eqn:E; [|done].
    pose proof (count_nodes_pos P m k n Hk E). lia.
  - intros H. unfold count_nodes. rewrite map_empty_filter_2; [by rewrite map_size_empty|].
    intros k n Hk. simpl. rewrite (H k n Hk). done.
Qed.

Lemma count_nodes_ex P m : count_nodes P m ≠ 0 → ∃ k n, m !! k = Some n ∧ P n = true.
Proof.
  unfold count_nodes. intros Hne.
  destruct (decide (filter (λ kv, P kv.2 = true) m = ∅)) as [E|E].
  { by rewrite E, map_size_empty in Hne. }
  apply map_choose in E as (k & n & [Hk HP]%map_lookup_filter_Some). eauto.
Qed.

Lemma count_nodes_le P m : count_nodes P m ≤ Z.of_nat (size m).
Proof.
  induction m as [|k n m Hk IH] using map_ind.
  { by rewrite count_nodes_empty. }
  rewrite count_nodes_insert, map_size_insert_None by done. destruct (P n); lia.
Qed.

(** ** The index invariant

    [idx_ok m f]: the dispatch indexes of [f] are the ones the node table
    [m] determines. *)

Definition in_phase (p : NodePhase) (n : Node) : bool := bool_decide (phase n = p).
Definition active_at (d : Z) (n : Node) : bool := is_active (phase n) && (depth n =? d).

Record idx_ok (cfg : Config) (m : gmap Z Node) (f : Frontier) : Prop := {
  ix_count p : phase_counts_ f p = count_nodes (in_phase p) m;
  ix_pending s k : pending_ f !! s = Some k ↔
    ∃ n, m !! k = Some n ∧ phase n = Pending ∧ sequence n = s;
  ix_bfs d s k : bfs_pending_ f !! (d, s) = Some k ↔ policy_ cfg = Bfs ∧
    ∃ n, m !! k = Some n ∧ phase n = Pending ∧ sequence n = s ∧ depth n = d;
  ix_layers d : active_layers_ f !! d =
    if bool_decide (policy_ cfg = Bfs) && negb (count_nodes (active_at d) m =? 0)
    then Some (count_nodes (active_at d) m) else None;
  ix_seq k1 k2 n1 n2 : m !! k1 = Some n1 → m !! k2 = Some n2 →
    sequence n1 = sequence n2 → k1 = k2;
}.

Lemma idx_ok_proper cfg m f g :
  pending_ f = pending_ g → bfs_pending_ f = bfs_pending_ g →
  active_layers_ f = active_layers_ g → phase_counts_ f = phase_counts_ g →
  idx_ok cfg m f → idx_ok cfg m g.
Proof. intros H1 H2 H3 H4 []. split; intros; rewrite <- ?H1, <- ?H2, <- ?H3, <- ?H4; eauto. Qed.

Lemma in_phase_bump n (c : NodePhase → Z) d q :
  bump (phase n) d c q = c q + (if in_phase q n then d else 0).
Proof.
  unfold bump, in_phase. case_decide; case_bool_decide; subst; try done; lia.
Qed.

Lemma lookup_insert_fresh {A} (m : gmap Z A) k x k' y :
  m !! k = None → <[k := x]> m !! k' = Some y ↔ (k' = k ∧ x = y) ∨ m !! k' = Some y.
Proof.
  intros Hk. rewrite lookup_insert_Some. split; [naive_solver|].
  intros [[-> ->]|H]; [by left|]. right. split; [|done]. intros ->. congruence.
Qed.

Lemma idx_ok_add cfg m f k n :
  idx_ok cfg m f → m !! k = None →
  (∀ k' n', m !! k' = Some n' → sequence n' ≠ sequence n) →
  idx_ok cfg (<[k := n]> m) (index_add cfg k n f).
Proof.
  intros [Hc Hp Hb Hl Hs] Hk Hfresh.
  assert (pending_ f !! sequence n = None) as Hpn.
  { apply eq_None_not_Some. intros [k' (n' & Hn' & _ & Hseq)%Hp]. by eapply Hfresh. }
  assert (bfs_pending_ f !! (depth n, sequence n) = None) as Hbn.
  { apply eq_None_not_Some. intros [k' (_ & n' & Hn' & _ & Hseq & _)%Hb]. by eapply Hfresh. }
  split; unfold index_add; simpl.
  - intros p. rewrite in_phase_bump, count_nodes_insert, Hc by done. done.
  - intros s k'. setoid_rewrite (lookup_insert_fresh m k n k' _ Hk).
    destruct (bool_decide_reflect (phase n = Pending)) as [Hph|Hph].
    + rewrite Hpn. cbn iota. rewrite lookup_insert_fresh, Hp by done. naive_solver.
    + rewrite Hp. naive_solver.
  - intros d s k'. setoid_rewrite (lookup_insert_fresh m k n k' _ Hk).
    destruct (bool_decide_reflect (phase n = Pending)) as [Eph|Eph]; simpl.
    + destruct (bool_decide_reflect (policy_ cfg = Bfs)) as [Hpol|Hpol]; [|rewrite Hb; naive_solver].
      rewrite Hbn. cbn iota. rewrite lookup_insert_Some, Hb. split.
      * intros [[[= <- <-] ->]|[_ ?]]; naive_solver.
      * intros (_ & n' & [[-> <-]|Hn'] & H1 & <- & <-); [by left|].
        right. split; [|by eauto 10]. intros [= Heq1 Heq2]. by eapply Hfresh.
    + rewrite Hb. naive_solver.
  - intros d. rewrite count_nodes_insert by done.
    destruct (bool_decide_reflect (policy_ cfg = Bfs)) as [Hpol|Hpol]; simpl; [|by rewrite Hl by done].
    assert (default 0 (active_layers_ f !! depth n) = count_nodes (active_at (depth n)) m) as Hd.
    { rewrite Hl by done. simpl. by destruct (Z.eqb_spec (count_nodes (active_at (depth n)) m) 0). }
    pose proof (count_nodes_nonneg (active_at d) m).
    unfold active_at at 2 4. destruct (is_active (phase n)); simpl.
    + destruct (Z.eqb_spec (depth n) d) as [<-|Hne].
      * rewrite lookup_insert_eq, Hd.
        by destruct (Z.eqb_spec (count_nodes (active_at (depth n)) m + 1) 0); [lia|].
      * rewrite lookup_insert_ne, Hl, Z.add_0_r by done. done.
    + by rewrite Hl, Z.add_0_r by done.
  - intros k1 k2 n1 n2. rewrite !lookup_insert_fresh by done.
    intros [[-> <-]|H1] [[-> <-]|H2] Heq; [done| | |by eapply Hs].
    + by destruct (Hfresh _ _ H2).
    + by destruct (Hfresh _ _ H1).
Qed.

Lemma idx_ok_remove cfg m f k n :
  idx_ok cfg m f → m !! k = Some n → idx_ok cfg (delete k m) (index_remove cfg n f).
Proof.
  intros [Hc Hp Hb Hl Hs] Hk.
  split; unfold index_remove; simpl.
  - intros p. rewrite in_phase_bump, (count_nodes_delete _ _ _ n), Hc by done.
    destruct (in_phase p n); lia.
  - intros s k'. setoid_rewrite lookup_delete_Some. destruct (bool_decide_reflect (phase n = Pending)) as [Hph|Hph].
    + rewrite lookup_delete_Some, Hp. split.
      * intros [Hne (n' & Hn' & H1 & <-)]. exists n'. repeat split; try done.
        intros ->. congruence.
      * intros (n' & [Hne Hn'] & H1 & <-). split; [|by eauto].
        intros Heq. destruct Hne. by eapply Hs.
    + rewrite Hp. naive_solver congruence.
  - intros d s k'. setoid_rewrite lookup_delete_Some.
    destruct (bool_decide_reflect (phase n = Pending)) as [Eph|Eph]; simpl.
    + destruct (bool_decide_reflect (policy_ cfg = Bfs)) as [Hpol|Hpol]; [|rewrite Hb; naive_solver].
      rewrite lookup_delete_Some, Hb. split.
      * intros [Hne (_ & n' & Hn' & H1 & <- & <-)]. split; [done|]. exists n'.
        repeat split; try done. intros ->. congruence.
      * intros (_ & n' & [Hne Hn'] & H1 & <- & <-). split; [|by eauto 10].
        intros [= _ Heq]. destruct Hne. by eapply Hs.
    + rewrite Hb. naive_solver congruence.
  - intros d. rewrite (count_nodes_delete _ _ _ n) by done.
    destruct (bool_decide_reflect (policy_ cfg = Bfs)) as [Hpol|Hpol]; simpl; [|by rewrite Hl by done].
    pose proof (count_nodes_nonneg (active_at d) m).
    unfold active_at at 2 4. destruct (is_active (phase n)) eqn:Ha; simpl.
    + rewrite Hl by done. simpl.
      assert (0 < count_nodes (active_at (depth n)) m) as Hpos.
      { eapply count_nodes_pos; [done|]. unfold active_at. by rewrite Ha, Z.eqb_refl. }
      destruct (Z.eqb_spec (count_nodes (active_at (depth n)) m) 0); [lia|]. simpl.
      destruct (Z.eqb_spec (depth n) d) as [<-|Hne].
      * destruct (Z.eqb_spec (count_nodes (active_at (depth n)) m - 1) 0); simpl;
          [apply lookup_delete_eq|by rewrite lookup_insert_eq].
      * rewrite Z.sub_0_r. destruct (Z.eqb_spec (count_nodes (active_at (depth n)) m - 1) 0);
          rewrite ?lookup_delete_ne, ?lookup_insert_ne by done;
          by rewrite Hl by done.
    + by rewrite Hl, Z.sub_0_r by done.
  - intros k1 k2 n1 n2 [_ H1]%lookup_delete_Some [_ H2]%lookup_delete_Some. eauto.
Qed.

(** ** The primitive updates on the node table *)

Lemma update_nodes cfg k p d f :
  nodes_ (update cfg k p d f) = alter (set_phase_depth p d) k (nodes_ f).
Proof.
  unfold update. destruct (nodes_ f !! k) as [n|] eqn:E; simpl.
  - by rewrite (alter_insert_lookup _ _ _ n) by done.
  - symmetry. apply alter_id. naive_solver congruence.
Qed.

Lemma update_rest cfg k p d f :
  next_sequence_ (update cfg k p d f) = next_sequence_ f ∧
  next_lease_ (update cfg k p d f) = next_lease_ f ∧
  poisoned_ (update cfg k p d f) = poisoned_ f ∧
  counters_ (update cfg k p d f) = counters_ f.
Proof. unfold update. by destruct (nodes_ f !! k). Qed.

Lemma idx_ok_update cfg k p d f :
  idx_ok cfg (nodes_ f) f →
  idx_ok cfg (nodes_ (update cfg k p d f)) (update cfg k p d f).
Proof.
  intros Hi. rewrite update_nodes. unfold update.
  destruct (nodes_ f !! k) as [n|] eqn:E.
  2:{ by rewrite alter_id by naive_solver congruence. }
  rewrite (alter_insert_lookup _ _ _ n), <- insert_delete_eq by done.
  apply idx_ok_add; [|apply lookup_delete_eq|].
  - eapply idx_ok_proper; [..|by apply (idx_ok_remove cfg (nodes_ f) f k n)]; done.
  - intros k' n' [Hne Hk']%lookup_delete_Some. simpl. intros Heq. destruct Hne.
    by eapply (ix_seq _ _ _ Hi).
Qed.

Lemma count_nodes_alter P g m k :
  (∀ n, P (g n) = P n) → count_nodes P (alter g k m) = count_nodes P m.
Proof.
  intros Hg. destruct (m !! k) as [n|] eqn:E.
  - rewrite (alter_insert_lookup _ _ _ n), <- insert_delete_eq by done.
    rewrite count_nodes_insert, (count_nodes_delete _ _ _ n), Hg by (done || apply lookup_delete_eq).
    destruct (P n); lia.
  - by rewrite alter_id by naive_solver congruence.
Qed.

Lemma lookup_alter_node (g : Node → Node) (m : gmap Z Node) k k' n' :
  alter g k m !! k' = Some n' ↔
  ∃ n, m !! k' = Some n ∧ n' = if decide (k' = k) then g n else n.
Proof.
  destruct (decide (k' = k)) as [->|Hne].
  - rewrite lookup_alter_eq. destruct (m !! k); naive_solver.
  - rewrite lookup_alter_ne by done. naive_solver.
Qed.

Lemma size_alter_node (g : Node → Node) (m : gmap Z Node) k : size (alter g k m) = size m.
Proof. by rewrite <- !(size_dom (D := gset Z)), dom_alter_L. Qed.

(** Changing only the lease or the result does not touch the indexes. *)
Lemma idx_ok_alter cfg m f g k :
  (∀ n, phase (g n) = phase n ∧ depth (g n) = depth n ∧ sequence (g n) = sequence n) →
  idx_ok cfg m f → idx_ok cfg (alter g k m) f.
Proof.
  intros Hg [Hc Hp Hb Hl Hs].
  assert (∀ k' (Q : Node → Prop), (∀ n, Q (g n) ↔ Q n) →
    (∃ n, alter g k m !! k' = Some n ∧ Q n) ↔ (∃ n, m !! k' = Some n ∧ Q n)) as Hex.
  { intros k' Q HQ. setoid_rewrite lookup_alter_node. split.
    - intros (n & (n0 & Hn & ->) & H). exists n0. split; [done|]. destruct (decide (k' = k)); [by apply (HQ n0)|done].
    - intros (n & Hn & H). exists (if decide (k' = k) then g n else n).
      split; [by exists n|]. destruct (decide (k' = k)); [by apply (HQ n)|done]. }
  split.
  - intros p. rewrite Hc, count_nodes_alter; [done|]. intros n. unfold in_phase.
    by destruct (Hg n) as (-> & _).
  - intros s k'. rewrite Hp. symmetry. apply (Hex k' (λ n, phase n = Pending ∧ sequence n = s)).
    intros n. by destruct (Hg n) as (-> & _ & ->).
  - intros d s k'. rewrite Hb. f_equiv. symmetry.
    apply (Hex k' (λ n, phase n = Pending ∧ sequence n = s ∧ depth n = d)).
    intros n. by destruct (Hg n) as (-> & -> & ->).
  - intros d. rewrite Hl, count_nodes_alter; [done|]. intros n. unfold active_at.
    by destruct (Hg n) as (-> & -> & _).
  - intros k1 k2 n1 n2. rewrite !lookup_alter_node.
    intros (m1 & H1 & ->) (m2 & H2 & ->) Heq. apply (Hs k1 k2 m1 m2); [done..|].
    revert Heq. destruct (Hg m1) as (_ & _ & E1), (Hg m2) as (_ & _ & E2).
    destruct (decide (k1 = k)), (decide (k2 = k)); congruence.
Qed.

(** ** Depth and support

    [supported roots m v d]: some admitted root reaches [v] along recorded
    successor edges, its admission depth plus the number of edges being [d]. *)

Inductive supported (roots : list (Z * Z)) (m : gmap Z Node) : Z → Z → Prop :=
  | sup_root v d : (v, d) ∈ roots → supported roots m v d
  | sup_edge u nu v d :
      m !! u = Some nu → v ∈ successors nu →
      supported roots m u d → supported roots m v (d + 1).

Lemma supported_mono roots roots' m m' v d :
  (∀ p, p ∈ roots → p ∈ roots') →
  (∀ u nu, m !! u = Some nu → ∃ nu', m' !! u = Some nu' ∧
     ∀ x, x ∈ successors nu → x ∈ successors nu') →
  supported roots m v d → supported roots' m' v d.
Proof.
  intros Hr Hm. induction 1 as [v d H|u nu v d Hu Hv _ IH]; [apply sup_root; auto|].
  destruct (Hm _ _ Hu) as (nu' & Hu' & Hs). eapply sup_edge; eauto.
Qed.

(** [covered m W v d]: [v] is known at depth at most [d], or a work item that
    will bring it there is outstanding. *)
Definition covered (m : gmap Z Node) (W : list (Z * Z)) (v d : Z) : Prop :=
  (∃ n, m !! v = Some n ∧ depth n ≤ d) ∨ (∃ d', (v, d') ∈ W ∧ d' ≤ d).

(** ** The frontier invariant *)

Record node_ok (cfg : Config) (f : Frontier) (k : Z) (n : Node) : Prop := {
  nk_depth : 0 ≤ depth n ≤ limit_ cfg;
  nk_seq : 0 ≤ sequence n < next_sequence_ f;
  nk_expanded : phase n = Expanded → depth n < limit_ cfg;
  nk_cut : phase n = DepthCut → depth n = limit_ cfg;
  nk_succ : phase n ≠ Expanded → successors n = [];
  nk_reason : phase n = ModelBudget ∨ phase n = Failure → reason n ≠ EmptyString;
  nk_ticket :
    match ticket n with
    | Some t => phase n = Inflight ∧ t_state t = k ∧ depth n ≤ t_depth t ≤ limit_ cfg ∧
                0 < t_lease_id t ≤ next_lease_ f ∧ t_may_expand t = (t_depth t <? limit_ cfg)
    | None => phase n ≠ Inflight
    end;
}.

Definition cfg_ok (cfg : Config) : Prop :=
  0 ≤ limit_ cfg ≤ UINT64_MAX ∧ 0 < max_states_ cfg ≤ SIZE_MAX ∧
  (policy_ cfg = Priority ↔ is_Some (priority_ cfg)).

(** [linv cfg roots W f]: the invariant with work items [W] outstanding;
    between operations [W] is empty. *)
Record linv (cfg : Config) (roots W : list (Z * Z)) (f : Frontier) : Prop := {
  li_idx : idx_ok cfg (nodes_ f) f;
  li_node k n : nodes_ f !! k = Some n → node_ok cfg f k n;
  li_edge u nu v : nodes_ f !! u = Some nu → v ∈ successors nu →
    covered (nodes_ f) W v (depth nu + 1);
  li_root r d : (r, d) ∈ roots → covered (nodes_ f) W r d;
  li_work v d : (v, d) ∈ W → 0 ≤ d ≤ limit_ cfg ∧ supported roots (nodes_ f) v d;
  li_path k n : nodes_ f !! k = Some n → supported roots (nodes_ f) k (depth n);
  li_cap : map_size f + Z.of_nat (size (missing_keys (nodes_ f) W.*1)) ≤ max_states_ cfg;
  li_seq : 0 ≤ next_sequence_ f ∧
    next_sequence_ f + Z.of_nat (size (missing_keys (nodes_ f) W.*1)) ≤ UINT64_MAX;
  li_lease : 0 ≤ next_lease_ f ≤ UINT64_MAX;
}.

(** How a run of [propagate] may change the table. *)
Record evolves (f f' : Frontier) : Prop := {
  ev_lease : next_lease_ f' = next_lease_ f;
  ev_poison : poisoned_ f' = poisoned_ f;
  ev_seq : next_sequence_ f ≤ next_sequence_ f';
  ev_node k n : nodes_ f !! k = Some n → ∃ n', nodes_ f' !! k = Some n' ∧
    depth n' ≤ depth n ∧ sequence n' = sequence n ∧ ticket n' = ticket n ∧
    successors n' = successors n ∧ reason n' = reason n ∧
    (phase n' = phase n ∨ phase n = DepthCut ∧ phase n' = Pending);
  ev_new k n' : nodes_ f' !! k = Some n' → nodes_ f !! k = None →
    phase n' = Pending ∧ ticket n' = None ∧ successors n' = [];
}.

Lemma evolves_refl f g :
  nodes_ g = nodes_ f → next_lease_ g = next_lease_ f → poisoned_ g = poisoned_ f →
  next_sequence_ f ≤ next_sequence_ g → evolves f g.
Proof.
  intros Hn ???. split; [done..| |].
  - intros k n Hk. exists n. rewrite Hn. auto 10 with lia.
  - intros k n'. rewrite Hn. congruence.
Qed.

Lemma evolves_trans f g h : evolves f g → evolves g h → evolves f h.
Proof.
  intros [A1 A2 A3 A4 A5] [B1 B2 B3 B4 B5]. split; [congruence|congruence|lia|..].
  - intros k n Hk. destruct (A4 _ _ Hk) as (n1 & Hk1 & C1 & C2 & C3 & C4 & C5 & C6).
    destruct (B4 _ _ Hk1) as (n2 & Hk2 & D1 & D2 & D3 & D4 & D5 & D6).
    exists n2. split; [done|]. split; [lia|]. repeat split; try congruence.
    destruct C6 as [C6|[C6 C7]], D6 as [D6|[D6 D7]]; [left; congruence|..];
      right; split; congruence.
  - intros k n2 Hk2 Hk. destruct (nodes_ g !! k) as [n1|] eqn:Hk1; [|by apply (B5 k)].
    destruct (A5 k n1 Hk1 Hk) as (E1 & E2 & E3).
    destruct (B4 _ _ Hk1) as (n2' & Hk2' & _ & _ & D3 & D4 & _ & D6). simplify_eq.
    repeat split; try congruence. destruct D6 as [|[]]; congruence.
Qed.

(** ** The budget of [propagate] *)

Lemma budget_insert m k n :
  m !! k = None →
  propagate_budget (<[k := n]> m) =
    (Z.to_nat (depth n) * length (successors n) + propagate_budget m)%nat.
Proof. intros Hk. unfold propagate_budget. rewrite map_fold_insert_L; [done|lia|done]. Qed.

Lemma budget_delete m k n :
  m !! k = Some n →
  propagate_budget m =
    (Z.to_nat (depth n) * length (successors n) + propagate_budget (delete k m))%nat.
Proof.
  intros Hk. rewrite <- (budget_insert (delete k m) k n) by apply lookup_delete_eq.
  by rewrite insert_delete_id.
Qed.

(** An improvement pays for the successors it pushes. *)
Lemma budget_improve m k n p d :
  m !! k = Some n → 0 ≤ d < depth n →
  (length (successors n) + propagate_budget (alter (set_phase_depth p d) k m)
    ≤ propagate_budget m)%nat.
Proof.
  intros Hk Hd. rewrite (budget_delete m k n) by done.
  rewrite (alter_insert_lookup _ _ _ n), <- insert_delete_eq by done.
  rewrite budget_insert by apply lookup_delete_eq. simpl.
  assert (Z.to_nat d + 1 ≤ Z.to_nat (depth n))%nat by lia. nia.
Qed.

(** ** One turn of the loop keeps the invariant *)

Lemma elem_of_missing m l k : k ∈ missing_keys m l ↔ k ∈ l ∧ m !! k = None.
Proof.
  unfold missing_keys. rewrite elem_of_difference, elem_of_list_to_set, elem_of_dom.
  by rewrite <- eq_None_not_Some.
Qed.

Lemma missing_size_le m m' l l' :
  (∀ k, k ∈ l → m !! k = None → k ∈ l' ∧ m' !! k = None) →
  (size (missing_keys m l) ≤ size (missing_keys m' l'))%nat.
Proof.
  intros H. apply subseteq_size. intros k. rewrite !elem_of_missing. naive_solver.
Qed.

Lemma missing_size_insert m k n l :
  m !! k = None →
  (S (size (missing_keys (<[k := n]> m) l)) ≤ size (missing_keys m (k :: l)))%nat.
Proof.
  intros Hk. assert (k ∉ missing_keys (<[k := n]> m) l) as Hn.
  { rewrite elem_of_missing, lookup_insert_eq. by intros [_ ?]. }
  transitivity (size ({[ k ]} ∪ missing_keys (<[k := n]> m) l)).
  { rewrite size_union by set_solver. by rewrite size_singleton. }
  apply subseteq_size. intros j.
  rewrite elem_of_union, elem_of_singleton, !elem_of_missing, elem_of_cons.
  intros [->|[Hj Hm]]; [by split; [left|]|].
  destruct (decide (j = k)) as [->|Hne]; [by rewrite lookup_insert_eq in Hm|].
  rewrite lookup_insert_ne in Hm by done. auto.
Qed.

Lemma linv_counters cfg roots W f g : linv cfg roots W f → linv cfg roots W (set_counters g f).
Proof.
  intros [H1 H2 H3 H4 H5 H6 H7 H8 H9]. split; try done.
  - by eapply idx_ok_proper; [..|exact H1].
  - intros k n Hk. destruct (H2 k n Hk). by split.
Qed.

Lemma linv_skip cfg roots k d W f n :
  linv cfg roots ((k, d) :: W) f → nodes_ f !! k = Some n → depth n ≤ d →
  linv cfg roots W f.
Proof.
  intros [H1 H2 H3 H4 H5 H6 H7 H8 H9] Hk Hd.
  assert (∀ v e, covered (nodes_ f) ((k, d) :: W) v e → covered (nodes_ f) W v e) as Hcov.
  { intros v e [Hn|(d' & [[= -> ->]|Hin]%elem_of_cons & He)]; [by left| |right; eauto].
    left. exists n. split; [done|lia]. }
  assert (size (missing_keys (nodes_ f) W.*1) ≤ size (missing_keys (nodes_ f) ((k, d) :: W).*1))%nat.
  { apply missing_size_le. intros j Hj Hm. split; [by right|done]. }
  split; [done|done|eauto..|lia|lia|done].
  intros v e Hv. apply H5. by right.
Qed.

(** The table after a new node is entered. *)
Definition enter_node (cfg : Config) (k d : Z) (f : Frontier) : Frontier :=
  let node := mkNode d Pending (next_sequence_ f) None [] EmptyString in
  let f := set_sequences (next_sequence_ f + 1) (next_lease_ f) f in
  index_add cfg k node (set_nodes (<[k := node]> (nodes_ f)) f).

Lemma linv_enter cfg roots k d W f :
  linv cfg roots ((k, d) :: W) f → nodes_ f !! k = None →
  linv cfg roots W (enter_node cfg k d f).
Proof.
  intros [H1 H2 H3 H4 H5 H6 H7 H8 H9] Hk.
  set (node := mkNode d Pending (next_sequence_ f) None [] EmptyString).
  assert (nodes_ (enter_node cfg k d f) = <[k := node]> (nodes_ f)) as Hm by done.
  assert (∀ v e, covered (nodes_ f) ((k, d) :: W) v e →
            covered (<[k := node]> (nodes_ f)) W v e) as Hcov.
  { intros v e [(n & Hn & He)|(d' & [[= -> ->]|Hin]%elem_of_cons & He)]; [| |right; eauto].
    - left. exists n. rewrite lookup_insert_fresh by done. auto.
    - left. exists node. by rewrite lookup_insert_eq. }
  assert (∀ v e, supported roots (nodes_ f) v e →
            supported roots (<[k := node]> (nodes_ f)) v e) as Hsup.
  { intros v e. apply supported_mono; [done|]. intros u nu Hu. exists nu.
    rewrite lookup_insert_fresh by done. auto. }
  pose proof (missing_size_insert (nodes_ f) k node W.*1 Hk) as Hsz.
  change (((k, d) :: W).*1) with (k :: W.*1) in H7, H8.
  destruct (H5 k d) as [Hd Hpath]; [left|].
  split; rewrite ?Hm.
  - apply idx_ok_add; [by eapply idx_ok_proper; [..|exact H1]|done|].
    intros k' n' Hk'. destruct (H2 _ _ Hk') as [_ Hs]. simpl. lia.
  - intros j n [[-> <-]|Hj]%lookup_insert_fresh; [|destruct (H2 _ _ Hj); split; simpl; auto with lia|done].
    split; simpl; auto with lia; naive_solver.
  - intros u nu v [[-> <-]|Hu]%lookup_insert_fresh Hv; [by apply elem_of_nil in Hv|eauto|done].
  - eauto.
  - intros v e Hv. destruct (H5 v e); [by right|]. eauto.
  - intros j n [[-> <-]|Hj]%lookup_insert_fresh; [by apply Hsup|eauto|done].
  - unfold map_size in *. rewrite Hm, map_size_insert_None by done. lia.
  - simpl. lia.
  - done.
Qed.

(** The phase an improved node takes, and the items it pushes. *)
Definition improved_phase (n : Node) : NodePhase :=
  if bool_decide (phase n = DepthCut) then Pending else phase n.
Definition pushed (n : Node) (d : Z) : list (Z * Z) :=
  if bool_decide (improved_phase n = Expanded)
  then (λ s, (s, uint64 (d + 1))) <$> successors n else [].

Lemma elem_of_pushed cfg f k n d v e :
  cfg_ok cfg → node_ok cfg f k n → 0 ≤ d < depth n →
  (v, e) ∈ pushed n d ↔ v ∈ successors n ∧ e = d + 1.
Proof.
  intros [Hl _] Hok Hd. unfold pushed, improved_phase.
  destruct (decide (phase n = Expanded)) as [Hp|Hp].
  - rewrite (bool_decide_false (phase n = DepthCut)), Hp by congruence.
    rewrite bool_decide_true by done. rewrite list_elem_of_fmap.
    pose proof (nk_expanded _ _ _ _ Hok Hp).
    assert (uint64 (d + 1) = d + 1) as -> by (unfold uint64; rewrite Z.mod_small; unfold UINT64_MAX in *; lia).
    naive_solver.
  - rewrite (nk_succ _ _ _ _ Hok Hp). case_bool_decide; set_solver.
Qed.

Lemma node_ok_improve cfg f g k n d :
  node_ok cfg f k n → 0 ≤ d ≤ limit_ cfg → d < depth n →
  next_sequence_ g = next_sequence_ f → next_lease_ g = next_lease_ f →
  node_ok cfg g k (set_phase_depth (improved_phase n) d n).
Proof.
  intros [K1 K2 K3 K4 K5 K6 K7] Hd0 Hd Es El. unfold improved_phase.
  destruct (decide (phase n = DepthCut)) as [Hc|Hc].
  - rewrite bool_decide_true by done. rewrite Hc in *.
    split; simpl; rewrite ?Es, ?El; try done; try lia.
    + intros _. by apply K5.
    + by intros [?|?].
    + destruct (ticket n); [by destruct K7|done].
  - rewrite bool_decide_false by done.
    split; simpl; rewrite ?Es, ?El; try done; try lia.
    destruct (ticket n); [|done]. destruct K7 as (? & ? & ? & ? & ?).
    split; [done|]. split; [done|]. split; [lia|]. split; [lia|done].
Qed.

Lemma linv_improve cfg roots k d W f n :
  cfg_ok cfg → linv cfg roots ((k, d) :: W) f → nodes_ f !! k = Some n → d < depth n →
  linv cfg roots (pushed n d ++ W) (update cfg k (improved_phase n) d f).
Proof.
  intros Hcfg [H1 H2 H3 H4 H5 H6 H7 H8 H9] Hk Hd.
  destruct (H5 k d) as [Hd0 Hpath]; [left|].
  pose proof (H2 _ _ Hk) as Hok.
  assert (∀ v e, (v, e) ∈ pushed n d ↔ v ∈ successors n ∧ e = d + 1) as Hpush
    by (intros; eapply elem_of_pushed; eauto with lia).
  destruct (update_rest cfg k (improved_phase n) d f) as (Eseq & Elease & _).
  pose proof (update_nodes cfg k (improved_phase n) d f) as Hm.
  assert (∀ v e, covered (nodes_ f) ((k, d) :: W) v e →
    covered (nodes_ (update cfg k (improved_phase n) d f)) (pushed n d ++ W) v e) as Hcov.
  { rewrite Hm. intros v e [(nv & Hn & He)|(d' & [[= -> ->]|Hin]%elem_of_cons & He)].
    - left. eexists. rewrite lookup_alter_node. split; [by exists nv|].
      destruct (decide (v = k)) as [->|]; [|done]. simpl. assert (nv = n) as -> by congruence. lia.
    - left. eexists. rewrite lookup_alter_node. split; [by exists n|]. by rewrite decide_True.
    - right. exists d'. rewrite elem_of_app. auto. }
  assert (∀ v e, supported roots (nodes_ f) v e →
    supported roots (nodes_ (update cfg k (improved_phase n) d f)) v e) as Hsup.
  { rewrite Hm. intros v e. apply supported_mono; [done|]. intros u nu Hu.
    eexists. rewrite lookup_alter_node. split; [by exists nu|]. by case_decide. }
  assert (size (missing_keys (nodes_ (update cfg k (improved_phase n) d f)) (pushed n d ++ W).*1)
    ≤ size (missing_keys (nodes_ f) ((k, d) :: W).*1))%nat as Hsz.
  { apply missing_size_le. rewrite Hm. intros j Hj.
    rewrite lookup_alter_None. intros Hn. split; [|done].
    rewrite fmap_app, elem_of_app in Hj. destruct Hj as [Hj|Hj]; [|by right].
    apply list_elem_of_fmap in Hj as ([v e] & -> & [Hv _]%Hpush).
    destruct (H3 _ _ _ Hk Hv) as [(nv & Hnv & _)|(d' & Hin & _)]; [simpl in *; congruence|].
    by apply (list_elem_of_fmap_2 fst) in Hin. }
  split.
  - by apply idx_ok_update.
  - rewrite Hm. intros j nj (n0 & Hj & ->)%lookup_alter_node.
    destruct (H2 _ _ Hj) as [K1 K2 K3 K4 K5 K6 K7]. case_decide as Hjk.
    + subst j. assert (n0 = n) as -> by congruence.
      by apply (node_ok_improve cfg f).
    + split; rewrite ?Eseq, ?Elease; done.
  - intros u nu v Hu Hv. rewrite Hm in Hu. apply lookup_alter_node in Hu as (n0 & Hu & ->).
    case_decide as Huk.
    + subst u. assert (n0 = n) as -> by congruence. simpl in *. right. exists (d + 1).
      rewrite elem_of_app, Hpush. auto with lia.
    + eauto.
  - eauto.
  - intros v e [Hv|Hv]%elem_of_app.
    + apply Hpush in Hv as [Hv ->]. split.
      * assert (phase n = Expanded) as Hp.
        { destruct (decide (phase n = Expanded)) as [|Hp]; [done|].
          rewrite (nk_succ _ _ _ _ Hok Hp) in Hv. by apply elem_of_nil in Hv. }
        pose proof (nk_expanded _ _ _ _ Hok Hp). lia.
      * apply Hsup. by eapply sup_edge.
    + destruct (H5 v e); [by right|]. auto.
  - intros j nj Hj. apply Hsup. rewrite Hm in Hj.
    apply lookup_alter_node in Hj as (n0 & Hj & ->). case_decide; [by subst|eauto].
  - unfold map_size in *. rewrite Hm in Hsz |- *. rewrite size_alter_node. lia.
  - rewrite Eseq. lia.
  - by rewrite Elease.
Qed.

(** ** [propagate] *)

Lemma evolves_enter cfg k d f : nodes_ f !! k = None → evolves f (enter_node cfg k d f).
Proof.
  intros Hk. split; simpl; [done|done|lia|..].
  - intros j n Hj. exists n. rewrite lookup_insert_ne by congruence. auto 10 with lia.
  - intros j n' [[-> <-]|[_ ?]]%lookup_insert_Some ?; [done|congruence].
Qed.

Lemma evolves_improve cfg k d f n :
  nodes_ f !! k = Some n → d < depth n →
  evolves f (update cfg k (improved_phase n) d f).
Proof.
  intros Hk Hd. destruct (update_rest cfg k (improved_phase n) d f) as (E1 & E2 & E3 & _).
  split; [done|done|lia| |].
  2:{ intros j n'. rewrite update_nodes. intros (n0 & ? & _)%lookup_alter_node. congruence. }
  intros j nj Hj. rewrite update_nodes.
  exists (if decide (j = k) then set_phase_depth (improved_phase n) d nj else nj).
  rewrite lookup_alter_node. split; [by exists nj|].
  case_decide as Hjk; [|auto 10 with lia]. subst j. assert (nj = n) as -> by congruence.
  simpl. repeat split; try lia. unfold improved_phase. case_bool_decide; auto.
Qed.

(** With the outstanding items covered by fuel, the loop returns normally,
    discharges exactly its own items and keeps the invariant. *)
Lemma propagate_loop_ok cfg roots fuel work todo f :
  cfg_ok cfg → linv cfg roots (work ++ todo) f →
  (length work + propagate_budget (nodes_ f) < fuel)%nat →
  ∃ f', propagate_loop cfg fuel work f = Some (f', Ret tt) ∧
        linv cfg roots todo f' ∧ evolves f f'.
Proof.
  intros Hcfg. revert work f. induction fuel as [|fuel IH]; intros work f Hi Hf; [lia|].
  destruct work as [|[k d] work]; simpl.
  { exists f. split; [done|]. split; [done|]. by apply evolves_refl. }
  destruct (nodes_ f !! k) as [n|] eqn:Hk.
  - destruct (Z.leb_spec (depth n) d) as [Hle|Hlt].
    + destruct (IH work (set_counters count_duplicate f)) as (f' & Hr & Hi' & He).
      * eapply linv_counters, linv_skip; [exact Hi|done|done].
      * simpl in *. lia.
      * exists f'. split; [done|]. split; [done|]. eapply evolves_trans; [|done].
        by apply evolves_refl.
    + set (g := set_counters count_duplicate f).
      assert (linv cfg roots ((k, d) :: work ++ todo) g) as Hg by by apply linv_counters.
      destruct (li_work _ _ _ _ Hg k d) as [Hd _]; [left|].
      destruct (IH (pushed n d ++ work)
        (set_counters count_improvement (update cfg k (improved_phase n) d g)))
        as (f' & Hr & Hi' & He).
      * apply linv_counters. rewrite <- app_assoc. by apply linv_improve.
      * simpl. rewrite update_nodes, length_app.
        pose proof (budget_improve (nodes_ f) k n (improved_phase n) d Hk ltac:(lia)).
        assert (length (pushed n d) ≤ length (successors n))%nat.
        { unfold pushed. case_bool_decide; [by rewrite length_fmap|simpl; lia]. }
        simpl in *. lia.
      * exists f'. split; [done|]. split; [done|]. eapply evolves_trans; [|done].
        eapply evolves_trans; [by apply (evolves_refl f g)|].
        eapply evolves_trans; [by apply (evolves_improve cfg k d g n)|]. by apply evolves_refl.
  - pose proof (missing_size_insert (nodes_ f) k (mkNode d Pending 0 None [] EmptyString)
      (work ++ todo).*1 Hk) as Hsz.
    change (k :: (work ++ todo).*1) with ((((k, d) :: work) ++ todo).*1) in Hsz.
    pose proof (li_cap _ _ _ _ Hi). pose proof (li_seq _ _ _ _ Hi).
    destruct (Z.eqb_spec (map_size f) (max_states_ cfg)); [lia|].
    destruct (Z.eqb_spec (next_sequence_ f) UINT64_MAX); [lia|].
    destruct (IH work (set_counters count_admitted (enter_node cfg k d f)))
      as (f' & Hr & Hi' & He).
    + by apply linv_counters, linv_enter.
    + simpl in *. rewrite budget_insert by done. simpl. lia.
    + exists f'. split; [done|]. split; [done|]. eapply evolves_trans; [|done].
      eapply evolves_trans; [by apply (evolves_enter cfg k d)|]. by apply evolves_refl.
Qed.

Lemma propagate_ok cfg roots k d todo f :
  cfg_ok cfg → linv cfg roots ((k, d) :: todo) f →
  ∃ f', propagate cfg k d f = (f', Ret tt) ∧ linv cfg roots todo f' ∧ evolves f f'.
Proof.
  intros Hcfg Hi. unfold propagate.
  destruct (propagate_loop_ok cfg roots (S (S (propagate_budget (nodes_ f)))) [(k, d)] todo f)
    as (f' & -> & Hr); [done|done|simpl; lia|]. by exists f'.
Qed.

(** ** The operations keep the invariant *)

Definition frontier_ok (cfg : Config) (roots : list (Z * Z)) (f : Frontier) : Prop :=
  cfg_ok cfg ∧ linv cfg roots [] f ∧ poisoned_ f = false.

Lemma missing_nil m : missing_keys m [] = ∅.
Proof. unfold missing_keys. set_solver. Qed.

Lemma linv_size cfg roots f : linv cfg roots [] f → map_size f ≤ max_states_ cfg.
Proof. intros Hi. pose proof (li_cap _ _ _ _ Hi) as H. simpl in H. rewrite missing_nil, size_empty in H. lia. Qed.

(** Replacing one node by another at the same depth. *)
Lemma linv_replace cfg roots W f g k n n' :
  linv cfg roots [] f → nodes_ f !! k = Some n → nodes_ g = <[k := n']> (nodes_ f) →
  idx_ok cfg (nodes_ g) g → node_ok cfg g k n' → depth n' = depth n →
  (∀ v, v ∈ successors n → v ∈ successors n') →
  next_sequence_ g = next_sequence_ f → next_lease_ f ≤ next_lease_ g ≤ UINT64_MAX →
  (∀ v, v ∈ successors n' → v ∈ successors n ∨ (v, depth n + 1) ∈ W) →
  (∀ v d, (v, d) ∈ W → v ∈ successors n' ∧ d = depth n + 1 ∧ d ≤ limit_ cfg) →
  map_size f + Z.of_nat (size (missing_keys (nodes_ f) W.*1)) ≤ max_states_ cfg →
  next_sequence_ f + Z.of_nat (size (missing_keys (nodes_ f) W.*1)) ≤ UINT64_MAX →
  linv cfg roots W g.
Proof.
  intros [H1 H2 H3 H4 H5 H6 H7 H8 H9] Hk Hm Hidx Hn Hd Hsub Hs Hl Hnew HW Hcap Hseq.
  assert (∀ v e, covered (nodes_ f) [] v e → covered (nodes_ g) W v e) as Hcov.
  { intros v e [(nv & Hv & He)|(? & []%elem_of_nil & _)]. left. rewrite Hm.
    destruct (decide (v = k)) as [->|Hne].
    - exists n'. rewrite lookup_insert_eq. split; [done|]. assert (nv = n) as -> by congruence. lia.
    - exists nv. by rewrite lookup_insert_ne. }
  assert (∀ v e, supported roots (nodes_ f) v e → supported roots (nodes_ g) v e) as Hsup.
  { intros v e. apply supported_mono; [done|]. intros u nu Hu. rewrite Hm.
    destruct (decide (u = k)) as [->|Hne].
    - exists n'. rewrite lookup_insert_eq. assert (nu = n) as -> by congruence. auto.
    - exists nu. by rewrite lookup_insert_ne. }
  assert (missing_keys (nodes_ g) W.*1 = missing_keys (nodes_ f) W.*1) as Hmiss.
  { unfold missing_keys. rewrite Hm, dom_insert_lookup_L; [done|by exists n]. }
  assert (size (nodes_ g) = size (nodes_ f)) as Hsz.
  { rewrite Hm. apply map_size_insert_Some. by rewrite Hk. }
  split; rewrite ?Hmiss.
  - done.
  - rewrite Hm. intros j nj [[-> <-]|[Hne Hj]]%lookup_insert_Some; [done|].
    destruct (H2 _ _ Hj) as [K1 K2 K3 K4 K5 K6 K7]. split; rewrite ?Hs; try done.
    destruct (ticket nj); [|done]. destruct K7 as (? & ? & ? & ? & ?).
    split; [done|]. split; [done|]. split; [done|]. split; [lia|done].
  - intros u nu v Hu Hv. rewrite Hm in Hu.
    apply lookup_insert_Some in Hu as [[-> <-]|[Hne Hu]]; [|eauto].
    rewrite Hd. destruct (Hnew v Hv) as [Hold|Hw]; [eauto|right; eauto with lia].
  - eauto.
  - intros v e Hv. destruct (HW v e Hv) as (Hv' & -> & He). destruct (H2 _ _ Hk) as [Hd0 _].
    split; [lia|]. apply (sup_edge _ _ k n').
    + by rewrite Hm, lookup_insert_eq.
    + done.
    + eauto.
  - intros j nj Hj. rewrite Hm in Hj. apply Hsup.
    apply lookup_insert_Some in Hj as [[-> <-]|[Hne Hj]]; [rewrite Hd|]; eauto.
  - unfold map_size in *. by rewrite Hsz.
  - rewrite Hs. lia.
  - lia.
Qed.

Lemma linv_drop_root cfg roots k d f :
  linv cfg roots [] f → 0 ≤ d ≤ limit_ cfg →
  (nodes_ f !! k = None → map_size f < max_states_ cfg ∧ next_sequence_ f < UINT64_MAX) →
  linv cfg ((k, d) :: roots) [(k, d)] f.
Proof.
  intros Hi Hd Hcap. pose proof (linv_size _ _ _ Hi) as Hsz.
  destruct Hi as [H1 H2 H3 H4 H5 H6 H7 H8 H9].
  assert (∀ v e, covered (nodes_ f) [] v e → covered (nodes_ f) [(k, d)] v e) as Hcov.
  { intros v e [?|(? & []%elem_of_nil & _)]. by left. }
  assert (∀ v e, supported roots (nodes_ f) v e → supported ((k, d) :: roots) (nodes_ f) v e) as Hsup.
  { intros v e. apply supported_mono; [by right|eauto]. }
  assert (map_size f + Z.of_nat (size (missing_keys (nodes_ f) [k])) ≤ max_states_ cfg ∧
    next_sequence_ f + Z.of_nat (size (missing_keys (nodes_ f) [k])) ≤ UINT64_MAX) as [C1 C2].
  { simpl in H7, H8. rewrite missing_nil, size_empty in H7, H8.
    destruct (nodes_ f !! k) as [n|] eqn:E.
    - assert (missing_keys (nodes_ f) [k] = ∅) as ->.
      { apply set_eq. intros j. rewrite elem_of_missing, list_elem_of_singleton. set_solver. }
      rewrite size_empty. lia.
    - destruct (Hcap eq_refl).
      assert (size (missing_keys (nodes_ f) [k]) ≤ 1)%nat; [|lia].
      rewrite <- (size_singleton (C := gset Z) k). apply subseteq_size.
      intros j. rewrite elem_of_missing. set_solver. }
  split; try done.
  - eauto.
  - intros r e [[= -> ->]|Hr]%elem_of_cons; [|eauto]. right. exists d. split; [left|lia].
  - intros v e [= -> ->]%list_elem_of_singleton. split; [done|]. apply sup_root. left.
  - eauto.
  - simpl. lia.
Qed.

Lemma admit_ok cfg roots k d f :
  frontier_ok cfg roots f → 0 ≤ d →
  (∃ e, admit_state cfg k d f = (f, Throw e)) ∨
  (d ≤ limit_ cfg ∧ ∃ f' b, admit_state cfg k d f = (f', Ret b) ∧
     frontier_ok cfg ((k, d) :: roots) f' ∧ evolves f f').
Proof.
  intros (Hcfg & Hi & Hp) Hd. pose proof (linv_size _ _ _ Hi) as Hsz.
  pose proof (li_seq _ _ _ _ Hi) as Hseq. simpl in Hseq. rewrite missing_nil, size_empty in Hseq.
  unfold admit_state, ensure_healthy, throw_if, mbind, M_bind, get, mret, M_ret, throw.
  rewrite Hp. destruct (Z.ltb_spec (limit_ cfg) d); [by left; eexists|].
  destruct (bool_decide (nodes_ f !! k = None) && (map_size f =? max_states_ cfg)) eqn:Hfull;
    [by left; eexists|].
  destruct (decide (nodes_ f !! k = None ∧ next_sequence_ f = UINT64_MAX)) as [[Hk Hmax]|Hno].
  { left. rewrite bool_decide_true in Hfull by done. simpl in Hfull.
    unfold propagate. cbn [propagate_loop]. rewrite Hk, Hfull, Hmax. simpl. by eexists. }
  right. split; [done|].
  destruct (propagate_ok cfg ((k, d) :: roots) k d [] f) as (f' & -> & Hi' & He); [done| |].
  { apply linv_drop_root; [done|lia|]. intros Hk. rewrite bool_decide_true in Hfull by done.
    simpl in Hfull. apply Z.eqb_neq in Hfull.
    assert (next_sequence_ f ≠ UINT64_MAX) by naive_solver. lia. }
  eexists _, _. split; [done|]. split; [|done]. split; [done|]. split; [done|].
  by rewrite (ev_poison _ _ He).
Qed.

Lemma linv_pending_at cfg roots f s k :
  linv cfg roots [] f → pending_ f !! s = Some k →
  ∃ n, nodes_ f !! k = Some n ∧ phase n = Pending ∧ sequence n = s.
Proof. intros Hi. apply (ix_pending _ _ _ (li_idx _ _ _ _ Hi)). Qed.

Definition issue (cfg : Config) (worker key lease : Z) (n : Node) : Ticket :=
  mkTicket key worker lease (depth n) (depth n <? limit_ cfg).

Lemma finalize_ok cfg roots worker k c f n :
  frontier_ok cfg roots f → nodes_ f !! k = Some n → phase n = Pending →
  let t := issue cfg worker k (next_lease_ f + 1) n in
  (next_lease_ f = UINT64_MAX ∧
   finalize_lease cfg worker k c f = (f, Throw (overflow_error "frontier lease IDs exhausted"))) ∨
  (next_lease_ f < UINT64_MAX ∧
   ∃ f', finalize_lease cfg worker k c f = (f', Ret (Some t)) ∧
    nodes_ f' = <[k := set_ticket (Some t) (set_phase_depth Inflight (depth n) n)]> (nodes_ f) ∧
    next_lease_ f' = next_lease_ f + 1 ∧ frontier_ok cfg roots f').
Proof.
  intros (Hcfg & Hi & Hp) Hk Hph t.
  unfold finalize_lease, throw_if, mbind, M_bind, get, mret, M_ret, throw, modify. rewrite Hk.
  destruct (Z.eqb_spec (next_lease_ f) UINT64_MAX) as [Hmax|Hmax]; [by left|]. right.
  destruct (li_lease _ _ _ _ Hi). split; [lia|].
  set (f1 := set_sequences (next_sequence_ f) (next_lease_ f + 1) f).
  set (f2 := update cfg k Inflight (depth n) f1).
  destruct (update_rest cfg k Inflight (depth n) f1) as (E1 & E2 & E3 & _).
  assert (nodes_ f2 = <[k := set_phase_depth Inflight (depth n) n]> (nodes_ f)) as Hn2.
  { unfold f2. rewrite update_nodes. by rewrite (alter_insert_lookup _ _ _ n). }
  assert (alter (set_ticket (Some t)) k (nodes_ f2) =
    <[k := set_ticket (Some t) (set_phase_depth Inflight (depth n) n)]> (nodes_ f)) as Hn3.
  { rewrite Hn2. rewrite (alter_insert_lookup _ _ _ (set_phase_depth Inflight (depth n) n))
      by apply lookup_insert_eq. apply insert_insert_eq. }
  eexists. split; [done|]. cbn [nodes_ set_counters set_nodes next_lease_].
  split; [exact Hn3|]. split; [done|]. split; [done|]. split; [|exact (eq_trans E3 Hp)].
  apply linv_counters.
  destruct (li_node _ _ _ _ Hi k n Hk) as [K1 K2 K3 K4 K5 K6 K7].
  assert (successors n = []) as Hs by (apply K5; congruence).
  assert (idx_ok cfg (alter (set_ticket (Some t)) k (nodes_ f2)) f2) as Hidx.
  { apply idx_ok_alter; [done|]. unfold f2. apply idx_ok_update.
    eapply idx_ok_proper; [..|apply (li_idx _ _ _ _ Hi)]; done. }
  eapply (linv_replace cfg roots [] f _ k n); [done|done|exact Hn3|..]; try done.
  - cbn [nodes_ set_nodes]. eapply idx_ok_proper; [..|exact Hidx]; done.
  - split; cbn [depth phase sequence ticket successors reason set_ticket set_phase_depth
      next_sequence_ next_lease_ set_nodes]; unfold f2; rewrite ?E1, ?E2; try done.
    + by intros [?|?].
    + unfold t, issue. simpl. repeat split; done || lia.
  - cbn [next_lease_ set_nodes]. unfold f2. rewrite E2. simpl. lia.
  - simpl. rewrite Hs. by intros v ?%elem_of_nil.
  - by intros v d ?%elem_of_nil.
  - simpl. rewrite missing_nil, size_empty. pose proof (linv_size _ _ _ Hi). lia.
  - pose proof (li_seq _ _ _ _ Hi) as Hq. simpl in *. rewrite missing_nil, size_empty in *. lia.
Qed.

(** ** What [lease] selects *)

Lemma entries_last_max {A} (m : gmap Z A) s x l :
  entries m = l ++ [(s, x)] → m !! s = Some x ∧ ∀ s' x', m !! s' = Some x' → s' ≤ s.
Proof.
  intros He. split; [apply elem_of_entries; rewrite He; apply elem_of_app; right; left|].
  intros s' x' Hs'. apply elem_of_entries in Hs'. pose proof (StronglySorted_entries m) as Hs.
  rewrite He in Hs, Hs'. apply elem_of_app in Hs' as [Hl|[= -> ->]%list_elem_of_singleton]; [|done].
  eapply StronglySorted_app_1_elem_of in Hs; [|exact Hl|left].
  by destruct Hs as [? _].
Qed.

Lemma entries_head_min {K A} `{Countable K, !KeyOrder K} (m : gmap K A) s x l :
  entries m = (s, x) :: l → m !! s = Some x ∧ ∀ s' x', m !! s' = Some x' → key_le s s'.
Proof.
  intros He. split; [apply elem_of_entries; rewrite He; left|].
  intros s' x' Hs'. apply elem_of_entries in Hs'. pose proof (StronglySorted_entries m) as Hs.
  rewrite He in Hs, Hs'. apply elem_of_cons in Hs' as [[= -> ->]|Hl].
  - pose proof (key_le_order (K := K)) as [[[Hr _] _] _]. apply Hr.
  - apply StronglySorted_inv in Hs as [_ Hall]. rewrite Forall_forall in Hall.
    by destruct (Hall _ Hl).
Qed.

Lemma entries_nil {K A} `{Countable K, !KeyOrder K} (m : gmap K A) : entries m = [] → m = ∅.
Proof.
  intros He. apply map_empty. intros k. apply eq_None_not_Some. intros [x Hx].
  apply elem_of_entries in Hx. rewrite He in Hx. by apply elem_of_nil in Hx.
Qed.

(** A fold that keeps the first best candidate. *)
Lemma priority_scan_spec prio f first others :
  let prio_of k := prio k (match nodes_ f !! k with Some n => depth n | None => 0 end) in
  let '(key, best, c) := priority_scan prio f first others in
  best = prio_of key ∧ c = 1 + zlength others ∧ key ∈ first :: others.*2 ∧
  (∀ k, k ∈ first :: others.*2 → prio_of key ≤ prio_of k) ∧
  (∃ l1 l2, first :: others.*2 = l1 ++ key :: l2 ∧ ∀ k, k ∈ l1 → prio_of key < prio_of k).
Proof.
  intros prio_of. unfold priority_scan. fold prio_of.
  induction others as [|[s x] others IH] using rev_ind.
  { simpl. split; [done|]. split; [done|]. split; [left|]. split.
    - intros k ->%list_elem_of_singleton. done.
    - exists [], []. split; [done|]. by intros k ?%elem_of_nil. }
  rewrite foldl_app. cbn [foldl].
  destruct (foldl _ _ others) as [[key best] c].
  destruct IH as (-> & -> & Hin & Hmin & l1 & l2 & Hl & Hlt).
  rewrite fmap_app, zlength_app. change ([(s, x)].*2) with [x].
  change (first :: others.*2 ++ [x]) with ((first :: others.*2) ++ [x]).
  change (zlength [(s, x)]) with 1. cbn zeta.
  fold (prio_of x). destruct (Z.ltb_spec (prio_of x) (prio_of key)) as [Hx|Hx]; cbv beta iota.
  - split; [done|]. split; [lia|]. split; [apply elem_of_app; right; left|]. split.
    + intros k [Hk| ->%list_elem_of_singleton]%elem_of_app; [|done]. specialize (Hmin k Hk). lia.
    + exists (first :: others.*2), []. split; [done|]. intros k Hk. specialize (Hmin k Hk). lia.
  - split; [done|]. split; [lia|]. split; [apply elem_of_app; by left|]. split.
    + intros k [Hk| ->%list_elem_of_singleton]%elem_of_app; [auto|done].
    + exists l1, (l2 ++ [x]). rewrite Hl. by rewrite <- app_assoc.
Qed.

Lemma consider_fold_spec scorer l x :
  let '(key, best, c) := foldl (consider scorer) (0, 0, 0) (x :: l) in
  best = scorer key ∧ c = 1 + zlength l ∧ key ∈ x :: l ∧
  (∀ k, k ∈ x :: l → scorer k ≤ scorer key) ∧
  (∃ l1 l2, x :: l = l1 ++ key :: l2 ∧ ∀ k, k ∈ l1 → scorer k < scorer key).
Proof.
  induction l as [|y l IH] using rev_ind.
  { simpl. split; [done|]. split; [done|]. split; [left|]. split.
    - intros k ->%list_elem_of_singleton. done.
    - exists [], []. split; [done|]. by intros k ?%elem_of_nil. }
  rewrite app_comm_cons, foldl_app. cbn [foldl].
  change (foldl _ _ l) with (foldl (consider scorer) (0, 0, 0) (x :: l)).
  destruct (foldl (consider scorer) (0, 0, 0) (x :: l)) as [[key best] c].
  destruct IH as (-> & -> & Hin & Hmax & l1 & l2 & Hl & Hlt).
  unfold consider. pose proof (zlength_nonneg l).
  destruct (Z.eqb_spec (1 + zlength l) 0); [lia|]. cbn [orb].
  rewrite zlength_app. change (zlength [y]) with 1. cbn zeta.
  destruct (Z.ltb_spec (scorer key) (scorer y)) as [Hy|Hy]; cbv beta iota.
  - split; [done|]. split; [lia|]. split; [apply elem_of_app; right; left|]. split.
    + intros k [Hk| ->%list_elem_of_singleton]%elem_of_app; [|done]. specialize (Hmax k Hk). lia.
    + exists (x :: l), []. split; [done|]. intros k Hk. specialize (Hmax k Hk). lia.
  - split; [done|]. split; [lia|]. split; [apply elem_of_app; by left|]. split.
    + intros k [Hk| ->%list_elem_of_singleton]%elem_of_app; [auto|done].
    + exists l1, (l2 ++ [y]). rewrite Hl. by rewrite <- app_assoc.
Qed.

Section selection.
Context (cfg : Config) (roots : list (Z * Z)) (f : Frontier).
Hypothesis Hok : frontier_ok cfg roots f.

Lemma ok_linv : linv cfg roots [] f.
Proof using Hok. apply Hok. Qed.

Lemma pending_sequence k n :
  nodes_ f !! k = Some n → phase n = Pending → pending_ f !! sequence n = Some k.
Proof using Hok.
  intros Hk Hp. apply (ix_pending _ _ _ (li_idx _ _ _ _ ok_linv)). eauto.
Qed.

Lemma pending_elem k :
  k ∈ (entries (pending_ f)).*2 ↔ ∃ n, nodes_ f !! k = Some n ∧ phase n = Pending.
Proof using Hok.
  rewrite list_elem_of_fmap. split.
  - intros ([s k'] & -> & Hin%elem_of_entries).
    destruct (linv_pending_at _ _ _ _ _ ok_linv Hin) as (n & ? & ? & _). eauto.
  - intros (n & Hk & Hp). exists (sequence n, k). split; [done|].
    apply elem_of_entries. by apply pending_sequence.
Qed.

(** Position in the pending list is order of sequence numbers. *)
Lemma pending_split_sequence l1 k l2 k' n n' :
  (entries (pending_ f)).*2 = l1 ++ k :: l2 → k' ∈ l2 →
  nodes_ f !! k = Some n → nodes_ f !! k' = Some n' → sequence n < sequence n'.
Proof using Hok.
  intros He Hin Hk Hk'.
  apply fmap_app_inv in He as (e1 & e2' & Hl1 & He2 & Hent). subst l1.
  symmetry in He2. apply fmap_cons_inv in He2 as ([s x] & e2 & Hx & Hl2 & ->). simpl in Hx. subst x l2.
  apply list_elem_of_fmap in Hin as ([s' x'] & Hx' & Hin). simpl in Hx'. subst x'.
  pose proof (StronglySorted_entries (pending_ f)) as Hs. rewrite Hent in Hs.
  apply StronglySorted_app in Hs as (_ & _ & Hs).
  apply StronglySorted_inv in Hs as [_ Hall]. rewrite Forall_forall in Hall.
  destruct (Hall _ Hin) as [Hle Hne]. simpl in Hle, Hne.
  assert (pending_ f !! s = Some k) as H1.
  { apply elem_of_entries. rewrite Hent. apply elem_of_app. right. left. }
  assert (pending_ f !! s' = Some k') as H2.
  { apply elem_of_entries. rewrite Hent. apply elem_of_app. right. by right. }
  destruct (linv_pending_at _ _ _ _ _ ok_linv H1) as (? & ? & _ & ?).
  destruct (linv_pending_at _ _ _ _ _ ok_linv H2) as (? & ? & _ & ?).
  simplify_eq. lia.
Qed.

Lemma layer_active d c :
  policy_ cfg = Bfs → active_layers_ f !! d = Some c →
  ∃ k n, nodes_ f !! k = Some n ∧ is_active (phase n) = true ∧ depth n = d.
Proof using Hok.
  intros Hp. rewrite (ix_layers _ _ _ (li_idx _ _ _ _ ok_linv)), bool_decide_true by done.
  cbn [andb]. destruct (Z.eqb_spec (count_nodes (active_at d) (nodes_ f)) 0) as [|Hne]; [done|].
  intros _. apply count_nodes_ex in Hne as (k & n & Hk & [Ha Hd]%andb_true_iff).
  apply Z.eqb_eq in Hd. eauto.
Qed.

Lemma active_layer k n :
  policy_ cfg = Bfs → nodes_ f !! k = Some n → is_active (phase n) = true →
  is_Some (active_layers_ f !! depth n).
Proof using Hok.
  intros Hp Hk Ha. rewrite (ix_layers _ _ _ (li_idx _ _ _ _ ok_linv)), bool_decide_true by done.
  assert (0 < count_nodes (active_at (depth n)) (nodes_ f)).
  { eapply count_nodes_pos; [done|]. unfold active_at. by rewrite Ha, Z.eqb_refl. }
  destruct (Z.eqb_spec (count_nodes (active_at (depth n)) (nodes_ f)) 0); [lia|]. by eexists.
Qed.

(** The shallowest pending node and the shallowest active layer. *)
Lemma bfs_heads :
  policy_ cfg = Bfs → pending_ f ≠ ∅ →
  ∃ d s key rest layer c layers,
    entries (bfs_pending_ f) = ((d, s), key) :: rest ∧
    entries (active_layers_ f) = (layer, c) :: layers ∧
    (∃ n, nodes_ f !! key = Some n ∧ phase n = Pending ∧ sequence n = s ∧ depth n = d) ∧
    (∀ k n, nodes_ f !! k = Some n → phase n = Pending → pair_le (d, s) (depth n, sequence n)) ∧
    (∀ k n, nodes_ f !! k = Some n → is_active (phase n) = true → layer ≤ depth n) ∧
    (∃ k n, nodes_ f !! k = Some n ∧ is_active (phase n) = true ∧ depth n = layer).
Proof using Hok.
  intros Hp Hne. apply map_choose in Hne as (s0 & k0 & Hs0).
  destruct (linv_pending_at _ _ _ _ _ ok_linv Hs0) as (n0 & Hk0 & Hp0 & _).
  pose proof (ix_bfs _ _ _ (li_idx _ _ _ _ ok_linv)) as Hb.
  assert (∀ k n, nodes_ f !! k = Some n → phase n = Pending →
    bfs_pending_ f !! (depth n, sequence n) = Some k) as Hbp.
  { intros k n Hk Hph. apply Hb. split; [done|]. eauto 10. }
  destruct (entries (bfs_pending_ f)) as [|[[d s] key] rest] eqn:Eb.
  { apply entries_nil in Eb. specialize (Hbp _ _ Hk0 Hp0). rewrite Eb in Hbp. done. }
  destruct (entries (active_layers_ f)) as [|[layer c] layers] eqn:El.
  { apply entries_nil in El. destruct (active_layer k0 n0) as [c Hc]; [done|done|by rewrite Hp0|].
    by rewrite El in Hc. }
  destruct (entries_head_min _ _ _ _ Eb) as [Hkey Hmin].
  destruct (entries_head_min _ _ _ _ El) as [Hlay Hlmin].
  exists d, s, key, rest, layer, c, layers. split; [done|]. split; [done|].
  split; [by apply Hb in Hkey as [_ ?]|]. split; [|split].
  - intros k n Hk Hph. by eapply (Hmin _ _), Hbp.
  - intros k n Hk Ha. destruct (active_layer k n Hp Hk Ha) as [c' Hc']. by eapply (Hlmin _ _).
  - by eapply layer_active.
Qed.
End selection.

(** What a leased node must satisfy under each policy. *)
Definition dispatch_choice (cfg : Config) (f : Frontier) (key : Z) (n : Node) : Prop :=
  match policy_ cfg with
  | Dfs => ∀ k m, nodes_ f !! k = Some m → phase m = Pending → sequence m ≤ sequence n
  | Bfs =>
      (∀ k m, nodes_ f !! k = Some m → is_active (phase m) = true → depth n ≤ depth m) ∧
      (∀ k m, nodes_ f !! k = Some m → phase m = Pending → depth m = depth n →
         sequence n ≤ sequence m)
  | Priority => ∀ prio, priority_ cfg = Some prio →
      ∀ k m, nodes_ f !! k = Some m → phase m = Pending →
        prio key (depth n) ≤ prio k (depth m) ∧
        (prio key (depth n) = prio k (depth m) → sequence n ≤ sequence m)
  end.

(** Nothing to hand out: no pending node, or (breadth first) the pending
    ones all lie deeper than some lease still in flight. *)
Definition nothing_to_lease (cfg : Config) (f : Frontier) : Prop :=
  (∀ k n, nodes_ f !! k = Some n → phase n ≠ Pending) ∨
  (policy_ cfg = Bfs ∧ ∃ k n, nodes_ f !! k = Some n ∧ phase n = Inflight ∧
     ∀ j m, nodes_ f !! j = Some m → phase m = Pending → depth n < depth m).

Lemma bfs_barrier cfg f key n kl nl :
  policy_ cfg = Bfs → nodes_ f !! key = Some n → phase n = Pending →
  (∀ k m, nodes_ f !! k = Some m → phase m = Pending →
     pair_le (depth n, sequence n) (depth m, sequence m)) →
  (∀ k m, nodes_ f !! k = Some m → is_active (phase m) = true → depth nl ≤ depth m) →
  nodes_ f !! kl = Some nl → is_active (phase nl) = true → depth n ≠ depth nl →
  nothing_to_lease cfg f.
Proof.
  intros Hpol Hk Hph Hmin Hlmin Hkl Hal Hneq. right. split; [done|].
  exists kl, nl. split; [done|].
  assert (depth nl < depth n) as Hlt.
  { pose proof (Hlmin key n Hk ltac:(by rewrite Hph)). lia. }
  assert (∀ j m, nodes_ f !! j = Some m → phase m = Pending → depth nl < depth m) as Hdeep.
  { intros j m Hj Hm. destruct (Hmin j m Hj Hm) as [?|[? ?]]; simpl in *; lia. }
  split; [|done]. destruct (phase nl) eqn:Eph; try done.
  pose proof (Hdeep kl nl Hkl Eph). lia.
Qed.

(** Every path of [lease] ends in one of two ways. *)
Lemma lease_cases cfg roots worker f :
  frontier_ok cfg roots f →
  (lease cfg worker f = (f, Ret None) ∧ nothing_to_lease cfg f) ∨
  (∃ key n c, nodes_ f !! key = Some n ∧ phase n = Pending ∧ dispatch_choice cfg f key n ∧
     lease cfg worker f = finalize_lease cfg worker key c f).
Proof.
  intros Hok. pose proof (ok_linv _ _ _ Hok) as Hi. pose proof Hok as (Hcfg & _ & Hp).
  unfold lease, ensure_healthy, throw_if, mbind, M_bind, get, mret, M_ret, throw. rewrite Hp.
  destruct (entries (pending_ f)) as [|[s0 first] others] eqn:Ep.
  { left. split; [done|]. left. intros k n Hk Hph. apply entries_nil in Ep.
    pose proof (pending_sequence _ _ _ Hok k n Hk Hph) as Hs. by rewrite Ep in Hs. }
  assert (pending_ f ≠ ∅) as Hne by (intros E; by rewrite E, entries_empty in Ep).
  unfold dispatch_choice. destruct (policy_ cfg) eqn:Hpol.
  - right. assert (∃ l s key, entries (pending_ f) = l ++ [(s, key)]) as (l & s & key & El).
    { destruct (exists_last (l := entries (pending_ f))) as (l & [s key] & El);
        [by rewrite Ep|eauto]. }
    rewrite <- Ep. rewrite El, fmap_app, list_fmap_singleton, List.last_last.
    destruct (entries_last_max _ _ _ _ El) as [Hs Hmax].
    destruct (linv_pending_at _ _ _ _ _ Hi Hs) as (n & Hk & Hph & <-).
    exists key, n, 1. split; [done|]. split; [done|]. split; [|done].
    intros k m Hk' Hm. by eapply Hmax, (pending_sequence _ _ _ Hok).
  - destruct (bfs_heads _ _ _ Hok Hpol Hne)
      as (d & s & key & rest & layer & c & layers & -> & -> & (n & Hk & Hph & <- & <-) &
          Hmin & Hlmin & kl & nl & Hkl & Hal & <-).
    destruct (Z.eqb_spec (depth n) (depth nl)) as [Heq|Hneq]; cbn [negb].
    + right. exists key, n, 1. split; [done|]. split; [done|]. split; [|done].
      split; [intros; rewrite Heq; eauto|]. intros k m Hk' Hm Hd.
      destruct (Hmin k m Hk' Hm) as [?|[_ ?]]; simpl in *; lia.
    + left. split; [done|]. by apply (bfs_barrier cfg f key n kl nl).
  - destruct Hcfg as (_ & _ & Hpr). destruct (priority_ cfg) as [prio|] eqn:Epr;
      [|by destruct (proj1 Hpr Hpol)].
    pose proof (priority_scan_spec prio f first others) as Hscan. cbv zeta in Hscan.
    destruct (priority_scan prio f first others) as [[key best] c].
    destruct Hscan as (_ & _ & Hin & Hmin & l1 & l2 & Hl & Hlt).
    assert (first :: others.*2 = (entries (pending_ f)).*2) as El by by rewrite Ep.
    rewrite El in *. apply (pending_elem _ _ _ Hok) in Hin as (n & Hk & Hph).
    right. exists key, n, c. split; [done|]. split; [done|]. split; [|done].
    intros prio' [= <-] k m Hk' Hm.
    assert (k ∈ (entries (pending_ f)).*2) as Hkin by (apply (pending_elem _ _ _ Hok); eauto).
    pose proof (Hmin k Hkin) as Hle. rewrite Hk, Hk' in Hle. split; [done|].
    intros Heq. rewrite Hl in Hkin. apply elem_of_app in Hkin as [Hk1|Hk2].
    + specialize (Hlt k Hk1). rewrite Hk, Hk' in Hlt. lia.
    + apply elem_of_cons in Hk2 as [->|Hk2]; [simplify_eq; lia|].
      pose proof (pending_split_sequence _ _ _ Hok _ _ _ _ _ _ Hl Hk2 Hk Hk'). lia.
Qed.

(** The candidates a locality lease compares, in dispatch order. *)
Definition dispatch_window (cfg : Config) (f : Frontier) (window : nat) : list Z :=
  take window
    (if bool_decide (policy_ cfg = Bfs) then
       match entries (active_layers_ f) with
       | (layer, _) :: _ => (take_while (in_layer layer) (entries (bfs_pending_ f))).*2
       | [] => []
       end
     else rev (entries (pending_ f)).*2).

Lemma take_while_sublist {A} (P : A → bool) l : take_while P l `sublist_of` l.
Proof.
  induction l as [|x l IH]; simpl; [done|].
  destruct (P x); [by constructor|apply sublist_nil_l].
Qed.

Lemma take_while_Forall {A} (P : A → bool) l x : x ∈ take_while P l → P x = true.
Proof.
  induction l as [|y l IH]; simpl; [by intros ?%elem_of_nil|].
  destruct (P y) eqn:E; [|by intros ?%elem_of_nil].
  intros [->|?]%elem_of_cons; auto.
Qed.

Lemma lease_local_cases cfg roots worker scorer window f :
  frontier_ok cfg roots f → policy_ cfg ≠ Priority → window ≠ O →
  (lease_local cfg worker (Some scorer) window f = (f, Ret None) ∧ nothing_to_lease cfg f) ∨
  (∃ key n c l1 l2, nodes_ f !! key = Some n ∧ phase n = Pending ∧
     dispatch_window cfg f window = l1 ++ key :: l2 ∧
     (∀ k, k ∈ l1 ++ key :: l2 → scorer k ≤ scorer key) ∧
     (∀ k, k ∈ l1 → scorer k < scorer key) ∧
     (policy_ cfg = Bfs → ∀ k m, nodes_ f !! k = Some m → is_active (phase m) = true →
        depth n ≤ depth m) ∧
     lease_local cfg worker (Some scorer) window f = finalize_lease cfg worker key c f).
Proof.
  intros Hok Hnp Hw. pose proof (ok_linv _ _ _ Hok) as Hi. pose proof Hok as (Hcfg & _ & Hp).
  unfold lease_local, ensure_healthy, throw_if, mbind, M_bind, get, mret, M_ret, throw.
  rewrite Hp, bool_decide_false by done. destruct window as [|w]; [done|].
  destruct (entries (pending_ f)) as [|e0 others] eqn:Ep.
  { left. split; [done|]. left. intros k n Hk Hph. apply entries_nil in Ep.
    pose proof (pending_sequence _ _ _ Hok k n Hk Hph) as Hs. by rewrite Ep in Hs. }
  assert (pending_ f ≠ ∅) as Hne by (intros E; by rewrite E, entries_empty in Ep).
  assert (∀ cands, cands ≠ [] → (∀ k, k ∈ cands → k ∈ (entries (pending_ f)).*2) →
    (∀ k n, k ∈ cands → nodes_ f !! k = Some n →
       policy_ cfg = Bfs → ∀ j m, nodes_ f !! j = Some m → is_active (phase m) = true →
       depth n ≤ depth m) →
    ∃ key n c l1 l2, nodes_ f !! key = Some n ∧ phase n = Pending ∧ cands = l1 ++ key :: l2 ∧
     (∀ k, k ∈ l1 ++ key :: l2 → scorer k ≤ scorer key) ∧
     (∀ k, k ∈ l1 → scorer k < scorer key) ∧
     (policy_ cfg = Bfs → ∀ k m, nodes_ f !! k = Some m → is_active (phase m) = true →
        depth n ≤ depth m) ∧
     (let '(key, _, n) := foldl (consider scorer) (0, 0, 0) cands in
      finalize_lease cfg worker key n) f = finalize_lease cfg worker key c f) as Hfold.
  { intros [|x l] Hne' Hsub Hdep; [done|].
    pose proof (consider_fold_spec scorer l x) as Hc.
    destruct (foldl (consider scorer) (0, 0, 0) (x :: l)) as [[key best] c].
    destruct Hc as (_ & _ & Hin & Hmax & l1 & l2 & Hl & Hlt).
    destruct (proj1 (pending_elem _ _ _ Hok key) (Hsub _ Hin)) as (n & Hk & Hph).
    exists key, n, c, l1, l2. rewrite <- Hl. repeat (split; [by eauto|]). done. }
  unfold dispatch_window. rewrite Ep in *.
  destruct (bool_decide_reflect (policy_ cfg = Bfs)) as [Hpol|Hpol].
  - destruct (bfs_heads _ _ _ Hok Hpol Hne)
      as (d & s & key & rest & layer & c & layers & Eb & -> & (n & Hk & Hph & <- & <-) &
          Hmin & Hlmin & kl & nl & Hkl & Hal & <-).
    rewrite Eb. destruct (Z.eqb_spec (depth n) (depth nl)) as [Heq|Hneq]; cbn [negb].
    + right. apply Hfold.
      * cbn [take_while]. unfold in_layer at 1. simpl. by rewrite Heq, Z.eqb_refl.
      * intros k Hk'. apply (sublist_subseteq _ _ (sublist_take _ _)) in Hk'.
        apply (sublist_elem_of_fmap snd _ _ _ (take_while_sublist _ _)) in Hk'.
        rewrite <- Eb in Hk'. apply list_elem_of_fmap in Hk' as ([[d' s'] k'] & -> & Hin).
        apply elem_of_entries, (ix_bfs _ _ _ (li_idx _ _ _ _ Hi)) in Hin
          as (_ & m & Hm & Hph' & _). rewrite <- Ep. apply (pending_elem _ _ _ Hok). eauto.
      * intros k m Hk' Hm _ j mj Hj Haj. apply (sublist_subseteq _ _ (sublist_take _ _)) in Hk'.
        apply list_elem_of_fmap in Hk' as ([[d' s'] k'] & -> & Hin).
        pose proof (take_while_Forall _ _ _ Hin) as Hlay. unfold in_layer in Hlay.
        simpl in Hlay. apply Z.eqb_eq in Hlay. subst d'.
        apply (sublist_subseteq _ _ (take_while_sublist _ _)) in Hin. rewrite <- Eb in Hin.
        apply elem_of_entries, (ix_bfs _ _ _ (li_idx _ _ _ _ Hi)) in Hin
          as (_ & m' & Hm' & _ & _ & Hd). simpl in Hm. simplify_eq. rewrite Hd. eauto.
    + left. split; [done|]. by apply (bfs_barrier cfg f key n kl nl).
  - right. apply Hfold.
    + cbn [fmap list_fmap rev]. destruct (rev _) eqn:E; [|done]. done.
    + intros k Hk'. apply (sublist_subseteq _ _ (sublist_take _ _)) in Hk'.
      by rewrite list_elem_of_In, <- in_rev, <- list_elem_of_In in Hk'.
    + done.
Qed.

(** ** Commit *)

Lemma linv_lower cfg roots v d e W f :
  linv cfg roots ((v, d) :: W) f → 0 ≤ e ≤ d → supported roots (nodes_ f) v e →
  linv cfg roots ((v, e) :: W) f.
Proof.
  intros [H1 H2 H3 H4 H5 H6 H7 H8 H9] He Hs.
  assert (∀ x b, covered (nodes_ f) ((v, d) :: W) x b → covered (nodes_ f) ((v, e) :: W) x b) as Hc.
  { intros x b [?|(d' & [[= -> ->]|Hin]%elem_of_cons & Hb)]; [by left|..]; right.
    - exists e. split; [left|lia].
    - exists d'. split; [by right|done]. }
  split; try done; eauto.
  intros x b [[= -> ->]|Hin]%elem_of_cons; [|apply H5; by right].
  destruct (H5 v d) as [? _]; [left|]. split; [lia|done].
Qed.

Lemma propagate_all_ok cfg roots key D succ g :
  cfg_ok cfg →
  (succ ≠ [] → ∃ nu, nodes_ g !! key = Some nu ∧ phase nu = Expanded ∧ depth nu + 1 ≤ D ∧
     ∀ v, v ∈ succ → v ∈ successors nu) →
  linv cfg roots ((λ v, (v, D)) <$> succ) g →
  ∃ g', propagate_all cfg key succ g = (g', Ret tt) ∧ linv cfg roots [] g' ∧ evolves g g' ∧
    (succ = [] → g' = g).
Proof.
  intros Hcfg. revert g. induction succ as [|v succ IH]; intros g Hu Hi.
  { exists g. split; [done|]. split; [done|]. split; [by apply evolves_refl|done]. }
  destruct Hu as (nu & Hk & Hph & HD & Hsub); [done|].
  pose proof (li_node _ _ _ _ Hi _ _ Hk) as Hn.
  pose proof (nk_expanded _ _ _ _ Hn Hph) as Hlim. pose proof (nk_depth _ _ _ _ Hn) as Hd0.
  assert (uint64 (depth nu + 1) = depth nu + 1) as Hw.
  { destruct Hcfg as [[_ Hl] _]. unfold uint64, UINT64_MAX in *. rewrite Z.mod_small; lia. }
  cbn [propagate_all]. unfold mbind, M_bind, get. rewrite Hk, Hw.
  destruct (propagate_ok cfg roots v (depth nu + 1) ((λ v, (v, D)) <$> succ) g)
    as (g1 & -> & Hi1 & He1); [done| |].
  { eapply linv_lower; [exact Hi|lia|]. eapply sup_edge; [exact Hk|apply Hsub; left|].
    by apply (li_path _ _ _ _ Hi). }
  destruct (IH g1) as (g' & Hr & Hi' & He' & _); [|done|].
  { intros _. destruct (ev_node _ _ He1 _ _ Hk) as (nu' & Hk' & A1 & _ & _ & A4 & _ & A6).
    exists nu'. split; [done|]. split; [destruct A6 as [->|[? _]]; congruence|].
    split; [lia|]. intros x Hx. rewrite A4. apply Hsub. by right. }
  exists g'. split; [done|]. split; [done|]. split; [by eapply evolves_trans|done].
Qed.

Lemma ticket_current_spec cfg roots t f :
  linv cfg roots [] f → ticket_current t f = true →
  ∃ n, nodes_ f !! t_state t = Some n ∧ phase n = Inflight ∧ ticket n = Some t.
Proof.
  intros Hi. unfold ticket_current. destruct (nodes_ f !! t_state t) as [n|] eqn:Hk; [|done].
  case_bool_decide as Hph; [|done]. simpl. pose proof (li_node _ _ _ _ Hi _ _ Hk) as Hn.
  pose proof (nk_ticket _ _ _ _ Hn) as Ht. destruct (ticket n) as [u|] eqn:Eu; [|done].
  rewrite !andb_true_iff, !Z.eqb_eq, Bool.eqb_true_iff. intros [[[H1 H2] H3] H4].
  destruct Ht as (_ & Hs & _). exists n. split; [done|]. split; [done|].
  destruct t, u. simpl in *. congruence.
Qed.

(** The committed node before its successors are propagated. *)
Definition committed_node (cfg : Config) (x : Expansion) (n : Node) : Node :=
  mkNode (depth n)
    (if bool_decide (phase_of (x_kind x) = DepthCut) && (depth n <? limit_ cfg)
     then Pending else phase_of (x_kind x))
    (sequence n) None (x_successors x) (x_reason x).

Lemma node_ok_committed cfg f g k n t x :
  node_ok cfg f k n → ticket n = Some t →
  next_sequence_ g = next_sequence_ f → next_lease_ g = next_lease_ f →
  (phase_of (x_kind x) = Expanded → t_may_expand t = true) →
  (phase_of (x_kind x) ≠ Expanded → x_successors x = []) →
  (phase_of (x_kind x) = ModelBudget ∨ phase_of (x_kind x) = Failure →
     x_reason x ≠ EmptyString) →
  node_ok cfg g k (committed_node cfg x n).
Proof.
  intros [K1 K2 K3 K4 K5 K6 K7] Ht Es El Hexp Hsucc Hreason. rewrite Ht in K7.
  destruct K7 as (Hph & Hst & Hd & Hl & Hm).
  split; unfold committed_node; cbn [depth phase sequence ticket successors reason];
    rewrite ?Es, ?El; try done.
  - destruct (bool_decide _ && _); [done|]. intros Hp. rewrite (Hexp Hp) in Hm.
    symmetry in Hm. apply Z.ltb_lt in Hm. lia.
  - destruct (bool_decide_reflect (phase_of (x_kind x) = DepthCut)) as [Hp|Hp]; [|done].
    simpl. destruct (Z.ltb_spec (depth n) (limit_ cfg)); [done|]. intros _. lia.
  - destruct (bool_decide_reflect (phase_of (x_kind x) = DepthCut)) as [Hp|Hp]; simpl.
    + intros _. apply Hsucc. congruence.
    + done.
  - destruct (bool_decide _ && _); [by intros [?|?]|done].
  - destruct (bool_decide _ && _); [done|]. by destruct (x_kind x).
Qed.

(** The first guard of [commit] that fails, in the order of the code. *)
Definition commit_guard (cfg : Config) (t : Ticket) (x : Expansion) (f : Frontier) : option exn :=
  let p := phase_of (x_kind x) in
  let missing := Z.of_nat (size (missing_keys (nodes_ f) (x_successors x))) in
  if negb (ticket_current t f) then
    Some (invalid_argument "stale or invalid frontier lease")
  else if (negb (t_may_expand t) && bool_decide (p = Expanded)) ||
          (t_may_expand t && bool_decide (p = DepthCut)) then
    Some (invalid_argument "expansion result incompatible with probe lease")
  else if bool_decide (p ≠ Expanded) && bool_decide (x_successors x ≠ []) then
    Some (invalid_argument "incomplete or terminal expansion cannot publish successors")
  else if (bool_decide (p = ModelBudget) || bool_decide (p = Failure)) &&
          bool_decide (x_reason x = EmptyString) then
    Some (invalid_argument "cutoff/failure requires a reason")
  else if max_states_ cfg - map_size f <? missing then
    Some (length_error "frontier capacity exceeded")
  else if UINT64_MAX - next_sequence_ f <? missing then
    Some (overflow_error "frontier sequence exhausted")
  else None.

Lemma guard_None {A} (c : bool) (e : A) (r : option A) :
  (if c then Some e else r) = None ↔ c = false ∧ r = None.
Proof. destruct c; naive_solver. Qed.

Lemma commit_guard_None cfg roots t x f :
  linv cfg roots [] f →
  commit_guard cfg t x f = None ↔
  (let p := phase_of (x_kind x) in
   let missing := Z.of_nat (size (missing_keys (nodes_ f) (x_successors x))) in
   (∃ n, nodes_ f !! t_state t = Some n ∧ ticket n = Some t) ∧
   (p = Expanded → t_may_expand t = true) ∧ (p = DepthCut → t_may_expand t = false) ∧
   (p ≠ Expanded → x_successors x = []) ∧
   (p = ModelBudget ∨ p = Failure → x_reason x ≠ EmptyString) ∧
   map_size f + missing ≤ max_states_ cfg ∧ next_sequence_ f + missing ≤ UINT64_MAX).
Proof.
  intros Hi. cbv zeta.
  assert (ticket_current t f = true ↔ ∃ n, nodes_ f !! t_state t = Some n ∧ ticket n = Some t) as Ht.
  { split; [intros (n & ? & _ & ?)%(ticket_current_spec _ _ _ _ Hi); eauto|].
    intros (n & Hk & Hn). unfold ticket_current. rewrite Hk, Hn.
    pose proof (nk_ticket _ _ _ _ (li_node _ _ _ _ Hi _ _ Hk)) as H. rewrite Hn in H.
    destruct H as (Hph & _). rewrite bool_decide_true by done.
    by rewrite !Z.eqb_refl, Bool.eqb_reflx. }
  unfold commit_guard. rewrite !guard_None, negb_false_iff, Ht, !Z.ltb_ge. clear Ht.
  set (p := phase_of (x_kind x)).
  assert ((negb (t_may_expand t) && bool_decide (p = Expanded)) ||
          (t_may_expand t && bool_decide (p = DepthCut)) = false ↔
    (p = Expanded → t_may_expand t = true) ∧ (p = DepthCut → t_may_expand t = false)) as ->.
  { destruct (t_may_expand t); simpl; rewrite ?orb_false_r, bool_decide_eq_false; naive_solver. }
  assert (bool_decide (p ≠ Expanded) && bool_decide (x_successors x ≠ []) = false ↔
    (p ≠ Expanded → x_successors x = [])) as ->.
  { rewrite andb_false_iff, !bool_decide_eq_false.
    destruct (decide (p = Expanded)), (decide (x_successors x = [])); naive_solver. }
  assert ((bool_decide (p = ModelBudget) || bool_decide (p = Failure)) &&
          bool_decide (x_reason x = EmptyString) = false ↔
    (p = ModelBudget ∨ p = Failure → x_reason x ≠ EmptyString)) as ->.
  { rewrite andb_false_iff, orb_false_iff, !bool_decide_eq_false.
    destruct (decide (x_reason x = EmptyString)), (decide (p = ModelBudget)),
      (decide (p = Failure)); naive_solver. }
  intuition lia.
Qed.

Lemma commit_ok_guard cfg roots t x f :
  frontier_ok cfg roots f →
  match commit_guard cfg t x f with
  | Some e => commit cfg t x f = (f, Throw e)
  | None =>
   ∃ n g f', nodes_ f !! t_state t = Some n ∧ phase n = Inflight ∧ ticket n = Some t ∧
     commit cfg t x f = (f', Ret tt) ∧
     nodes_ g = <[t_state t := committed_node cfg x n]> (nodes_ f) ∧
     next_lease_ g = next_lease_ f ∧
     evolves g f' ∧ (x_successors x = [] → nodes_ f' = nodes_ g) ∧ frontier_ok cfg roots f'
  end.
Proof.
  intros (Hcfg & Hi & Hp).
  unfold commit, commit_guard, ensure_healthy, throw_if, mbind, M_bind, get, mret, M_ret,
    throw, modify.
  rewrite Hp. destruct (ticket_current t f) eqn:Ht; cbn [negb]; [|done].
  destruct (ticket_current_spec _ _ _ _ Hi Ht) as (n & Hk & Hph & Htk). rewrite Hk.
  destruct (_ || _) eqn:Hprobe; [done|].
  destruct (_ && bool_decide (x_successors x ≠ [])) eqn:Hpub; [done|].
  destruct (_ && bool_decide (x_reason x = EmptyString)) eqn:Hwhy; [done|].
  destruct (Z.ltb_spec (max_states_ cfg - map_size f)
    (Z.of_nat (size (missing_keys (nodes_ f) (x_successors x))))) as [|Hcap]; [done|].
  destruct (Z.ltb_spec (UINT64_MAX - next_sequence_ f)
    (Z.of_nat (size (missing_keys (nodes_ f) (x_successors x))))) as [|Hseq]; [done|].
  pose proof (li_node _ _ _ _ Hi _ _ Hk) as Hn.
  set (k := t_state t) in *.
  set (p := if bool_decide (phase_of (x_kind x) = DepthCut) && (depth n <? limit_ cfg)
            then Pending else phase_of (x_kind x)).
  set (f1 := set_nodes (alter (set_result (x_successors x) (x_reason x)) k (nodes_ f)) f).
  set (f2 := update cfg k p (depth n) f1).
  set (g := set_nodes (alter (set_ticket None) k (nodes_ f2)) f2).
  destruct (update_rest cfg k p (depth n) f1) as (E1 & E2 & E3 & _).
  assert (nodes_ g = <[k := committed_node cfg x n]> (nodes_ f)) as Hg.
  { unfold g, f2. cbn [nodes_ set_nodes]. rewrite update_nodes. unfold f1. cbn [nodes_ set_nodes].
    rewrite (alter_insert_lookup _ _ _ _ Hk).
    erewrite (alter_insert_lookup _ (<[k:=_]> _)) by apply lookup_insert_eq.
    rewrite insert_insert_eq.
    erewrite (alter_insert_lookup _ (<[k:=_]> _)) by apply lookup_insert_eq.
    by rewrite insert_insert_eq. }
  assert (phase_of (x_kind x) ≠ Expanded → x_successors x = []) as Hsucc.
  { intros Hne. rewrite bool_decide_true in Hpub by done.
    by apply bool_decide_eq_false, dec_stable in Hpub. }
  assert (phase_of (x_kind x) = Expanded → t_may_expand t = true) as Hexp.
  { intros Hx. rewrite Hx in Hprobe. destruct (t_may_expand t); [done|]. done. }
  assert (idx_ok cfg (nodes_ g) g) as Hidx.
  { eapply idx_ok_proper; [..|apply (idx_ok_alter cfg (nodes_ f2) f2)]; [done..|].
    apply idx_ok_update. eapply idx_ok_proper; [..|apply (idx_ok_alter cfg (nodes_ f) f)];
      [done..|]. apply (li_idx _ _ _ _ Hi). }
  assert (node_ok cfg g k (committed_node cfg x n)) as Hng.
  { eapply (node_ok_committed cfg f g k n t x); eauto.
    intros Hx. intros Hr. rewrite (bool_decide_true (x_reason x = _)) in Hwhy by done.
    rewrite andb_true_r in Hwhy.
    apply orb_false_iff in Hwhy as [W1%bool_decide_eq_false W2%bool_decide_eq_false]. naive_solver. }
  assert (successors n = []) as Hold by (apply (nk_succ _ _ _ _ Hn); congruence).
  assert (((λ v, (v, depth n + 1)) <$> x_successors x).*1 = x_successors x) as HW1.
  { rewrite <- list_fmap_compose. apply list_fmap_id. }
  assert (linv cfg roots ((λ v, (v, depth n + 1)) <$> x_successors x) g) as Hig.
  { destruct (li_lease _ _ _ _ Hi). pose proof (eq_trans E2 eq_refl) as E2'.
    eapply (linv_replace cfg roots _ f g k n); [done|done|done|done|done|done|..];
      rewrite ?HW1.
    - rewrite Hold. by intros v ?%elem_of_nil.
    - exact E1.
    - change (next_lease_ g) with (next_lease_ f2). unfold f2. rewrite E2. simpl. lia.
    - intros v Hv. right. by apply (list_elem_of_fmap_2 (λ v, (v, depth n + 1))) in Hv.
    - intros v d (v' & [= -> ->] & Hv)%list_elem_of_fmap. split; [done|]. split; [done|].
      destruct (decide (phase_of (x_kind x) = Expanded)) as [Hx|Hx];
        [|rewrite (Hsucc Hx) in Hv; by apply elem_of_nil in Hv].
      pose proof (nk_ticket _ _ _ _ Hn) as Hti. rewrite Htk in Hti.
      destruct Hti as (_ & _ & Hdt & _ & Hme). rewrite (Hexp Hx) in Hme.
      symmetry in Hme. apply Z.ltb_lt in Hme. lia.
    - lia.
    - lia. }
  destruct (propagate_all_ok cfg roots k (depth n + 1) (x_successors x) g)
    as (f' & Hr & Hi' & He' & Hnil); [done| |done|].
  { intros Hne. exists (committed_node cfg x n). rewrite Hg, lookup_insert_eq. split; [done|].
    assert (phase_of (x_kind x) = Expanded) as Hx.
    { destruct (decide (phase_of (x_kind x) = Expanded)) as [|Hx]; [done|]. by rewrite (Hsucc Hx) in Hne. }
    unfold committed_node. simpl. rewrite Hx. split; [done|]. split; [lia|done]. }
  exists n, g, (set_counters count_committed f'). split; [done|]. split; [done|]. split; [done|].
  split; [by rewrite Hr|]. split; [done|]. split; [exact E2|].
  split; [eapply evolves_trans; [exact He'|by apply evolves_refl]|].
  split; [intros Hx; by rewrite (Hnil Hx)|].
  split; [done|]. split; [by apply linv_counters|].
  simpl. rewrite (ev_poison _ _ He'). exact (eq_trans E3 Hp).
Qed.

Lemma commit_ok cfg roots t x f :
  frontier_ok cfg roots f →
  (∃ e, commit cfg t x f = (f, Throw e)) ∨
  (∃ n g f', nodes_ f !! t_state t = Some n ∧ phase n = Inflight ∧ ticket n = Some t ∧
     commit cfg t x f = (f', Ret tt) ∧
     nodes_ g = <[t_state t := committed_node cfg x n]> (nodes_ f) ∧
     next_lease_ g = next_lease_ f ∧
     evolves g f' ∧ (x_successors x = [] → nodes_ f' = nodes_ g) ∧ frontier_ok cfg roots f').
Proof.
  intros Hok. pose proof (commit_ok_guard cfg roots t x f Hok) as H.
  destruct (commit_guard cfg t x f); [left; eauto|by right].
Qed.

(** ** Losing a worker *)

Definition held_by (worker : Z) (n : Node) : bool :=
  match ticket n with Some t => t_worker t =? worker | None => false end.

(** What happens to a node when [worker] is lost. *)
Definition requeue (worker : Z) (n : Node) : Node :=
  if held_by worker n then set_ticket None (set_phase_depth Pending (depth n) n) else n.

Lemma lost_step_ok cfg roots worker f c k n :
  linv cfg roots [] f → nodes_ f !! k = Some n →
  ∃ f', lost_step cfg worker (f, c) (k, n) = (f', c + if held_by worker n then 1 else 0) ∧
    nodes_ f' = <[k := requeue worker n]> (nodes_ f) ∧ linv cfg roots [] f' ∧
    next_lease_ f' = next_lease_ f ∧ poisoned_ f' = poisoned_ f.
Proof.
  intros Hi Hk. unfold lost_step, requeue, held_by.
  pose proof (li_node _ _ _ _ Hi _ _ Hk) as [K1 K2 K3 K4 K5 K6 K7].
  destruct (ticket n) as [t|] eqn:Et;
    [|exists f; rewrite Z.add_0_r; by rewrite insert_id].
  destruct (t_worker t =? worker);
    [|exists f; rewrite Z.add_0_r; by rewrite insert_id].
  destruct K7 as (Hph & _). assert (successors n = []) as Hs by (apply K5; congruence).
  set (f1 := update cfg k Pending (depth n) f).
  destruct (update_rest cfg k Pending (depth n) f) as (E1 & E2 & E3 & _).
  set (n' := set_ticket None (set_phase_depth Pending (depth n) n)).
  assert (alter (set_ticket None) k (nodes_ f1) = <[k := n']> (nodes_ f)) as Hm.
  { unfold f1. rewrite update_nodes, (alter_insert_lookup _ _ _ _ Hk).
    erewrite alter_insert_lookup by apply lookup_insert_eq. by rewrite insert_insert_eq. }
  eexists. split; [done|]. split; [exact Hm|]. split; [|by split].
  destruct (li_lease _ _ _ _ Hi). pose proof (linv_size _ _ _ Hi).
  pose proof (li_seq _ _ _ _ Hi) as Hq. simpl in Hq. rewrite missing_nil, size_empty in Hq.
  eapply (linv_replace cfg roots [] f _ k n n'); try done.
  - eapply idx_ok_proper; [..|apply (idx_ok_alter cfg (nodes_ f1) f1)]; [done..|].
    apply idx_ok_update, (li_idx _ _ _ _ Hi).
  - split; cbn [depth phase sequence ticket successors reason n' set_ticket set_phase_depth
      next_sequence_ next_lease_ set_nodes]; unfold f1; rewrite ?E1; try done. by intros [?|?].
  - change (next_lease_ f ≤ next_lease_ f1 ≤ UINT64_MAX). unfold f1. rewrite E2. lia.
  - simpl. rewrite Hs. by intros v ?%elem_of_nil.
  - by intros v d ?%elem_of_nil.
  - simpl. rewrite missing_nil, size_empty. lia.
  - simpl. rewrite missing_nil, size_empty. lia.
Qed.

Lemma lost_fold_ok cfg roots worker l f c :
  linv cfg roots [] f → NoDup l.*1 → (∀ k n, (k, n) ∈ l → nodes_ f !! k = Some n) →
  ∃ f', foldl (lost_step cfg worker) (f, c) l =
          (f', c + zlength (List.filter (λ p, held_by worker p.2) l)) ∧
    nodes_ f' = foldl (λ m p, <[p.1 := requeue worker p.2]> m) (nodes_ f) l ∧
    linv cfg roots [] f' ∧ next_lease_ f' = next_lease_ f ∧ poisoned_ f' = poisoned_ f.
Proof.
  revert f c. induction l as [|[k n] l IH]; intros f c Hi Hnd Hl.
  { exists f. simpl. by rewrite Z.add_0_r. }
  rewrite fmap_cons, NoDup_cons in Hnd. destruct Hnd as [Hk Hnd].
  destruct (lost_step_ok cfg roots worker f c k n Hi) as (f1 & Hs & Hm & Hi1 & El & Ep);
    [apply Hl; left|].
  cbn [foldl]. rewrite Hs.
  destruct (IH f1 (c + if held_by worker n then 1 else 0)) as (f' & Hr & Hm' & Hi' & El' & Ep');
    [done|done| |].
  - intros k' n' Hin. rewrite Hm, lookup_insert_ne; [apply Hl; by right|].
    intros <-. apply Hk. by apply (list_elem_of_fmap_2 fst) in Hin.
  - exists f'. split; [|split; [by rewrite Hm', Hm|split; [done|split; congruence]]].
    rewrite Hr. f_equal. cbn [List.filter]. simpl.
    destruct (held_by worker n); [rewrite zlength_cons|]; lia.
Qed.

Lemma foldl_insert_fmap {A} (g : A → A) (l : list (Z * A)) (m : gmap Z A) k :
  NoDup l.*1 →
  foldl (λ m p, <[p.1 := g p.2]> m) m l !! k =
    match list_to_map (M := gmap Z A) l !! k with Some x => Some (g x) | None => m !! k end.
Proof.
  revert m. induction l as [|[j x] l IH]; intros m; simpl; [done|].
  rewrite NoDup_cons. intros [Hj Hnd]. rewrite IH by done.
  destruct (decide (k = j)) as [->|Hne].
  - rewrite !lookup_insert_eq. by rewrite (not_elem_of_list_to_map_1 (M := gmap Z)) by exact Hj.
  - by rewrite !lookup_insert_ne by done.
Qed.

Lemma count_nodes_list P (l : list (Z * Node)) :
  NoDup l.*1 →
  zlength (List.filter (λ p, P p.2) l) = count_nodes P (list_to_map l).
Proof.
  induction l as [|[k n] l IH]; simpl; [by rewrite count_nodes_empty|].
  rewrite NoDup_cons. intros [Hk Hnd]. rewrite count_nodes_insert, <- IH;
    [|exact Hnd|apply not_elem_of_list_to_map_1; exact Hk].
  destruct (P n); [rewrite zlength_cons|]; lia.
Qed.

Lemma worker_lost_ok cfg roots worker f :
  frontier_ok cfg roots f →
  ∃ f', worker_lost cfg worker f = (f', Ret (count_nodes (held_by worker) (nodes_ f))) ∧
    nodes_ f' = requeue worker <$> nodes_ f ∧ next_lease_ f' = next_lease_ f ∧
    frontier_ok cfg roots f'.
Proof.
  intros (Hcfg & Hi & Hp).
  unfold worker_lost, ensure_healthy, throw_if, mbind, M_bind, get, mret, M_ret, throw, put.
  rewrite Hp.
  destruct (lost_fold_ok cfg roots worker (entries (nodes_ f)) f 0 Hi (NoDup_fst_entries _))
    as (f' & -> & Hm & Hi' & El & Ep); [by intros k n ?%elem_of_entries|].
  exists (set_counters (count_requeued (count_nodes (held_by worker) (nodes_ f))) f').
  split; [|split; [|split; [exact El|]]].
  - rewrite Z.add_0_l, count_nodes_list, list_to_map_entries by apply NoDup_fst_entries. done.
  - simpl. rewrite Hm. apply map_eq. intros k.
    rewrite foldl_insert_fmap, list_to_map_entries, lookup_fmap by apply NoDup_fst_entries.
    by destruct (nodes_ f !! k).
  - split; [done|]. split; [by apply linv_counters|]. simpl. congruence.
Qed.

(** ** Runs of the coordinator *)

Inductive Call :=
  | CAdmit (state depth : Z)
  | CLease (worker : Z)
  | CLeaseLocal (worker : Z) (scorer : option (Z → Z)) (window : nat)
  | CCommit (t : Ticket) (x : Expansion)
  | CWorkerLost (worker : Z).

Definition forget {A} (m : M Frontier A) : M Frontier unit := m ≫= λ _, mret tt.

Definition exec (cfg : Config) (c : Call) : M Frontier unit :=
  match c with
  | CAdmit k d => forget (admit_state cfg k d)
  | CLease w => forget (lease cfg w)
  | CLeaseLocal w s n => forget (lease_local cfg w s n)
  | CCommit t x => commit cfg t x
  | CWorkerLost w => forget (worker_lost cfg w)
  end.

(** Depth arguments are unsigned. *)
Definition call_ok (c : Call) : Prop :=
  match c with CAdmit _ d => 0 ≤ d | _ => True end.

(** The admissions that succeeded. *)
Definition roots_after (c : Call) (o : outcome unit) (roots : list (Z * Z)) : list (Z * Z) :=
  match c, o with CAdmit k d, Ret _ => (k, d) :: roots | _, _ => roots end.

Lemma forget_run {A} (m : M Frontier A) f f' o :
  m f = (f', o) →
  forget m f = (f', match o with Ret _ => Ret tt | Throw e => Throw e end).
Proof. unfold forget, mbind, M_bind. intros ->. by destruct o. Qed.

(** What a lease does to the state, whichever way the node was chosen. *)
Definition lease_effect (cfg : Config) (worker : Z) (f f' : Frontier)
    (o : outcome (option Ticket)) : Prop :=
  match o with
  | Throw e => f' = f
  | Ret None => f' = f
  | Ret (Some t) => ∃ n, nodes_ f !! t_state t = Some n ∧ phase n = Pending ∧
      t = issue cfg worker (t_state t) (next_lease_ f + 1) n ∧
      nodes_ f' = <[t_state t := set_ticket (Some t) (set_phase_depth Inflight (depth n) n)]>
                    (nodes_ f) ∧
      next_lease_ f' = next_lease_ f + 1
  end.

Lemma finalize_effect cfg roots worker key n c f f' o :
  frontier_ok cfg roots f → nodes_ f !! key = Some n → phase n = Pending →
  finalize_lease cfg worker key c f = (f', o) →
  lease_effect cfg worker f f' o ∧ frontier_ok cfg roots f' ∧
  match o with
  | Throw _ => next_lease_ f = UINT64_MAX
  | Ret ot => ∃ t, ot = Some t ∧ t_state t = key
  end.
Proof.
  intros Hok Hk Hp Hr.
  destruct (finalize_ok cfg roots worker key c f n Hok Hk Hp)
    as [[Hmax Hf]|(Hlt & f1 & Hf & Hm & Hl & Hok')]; rewrite Hf in Hr; injection Hr as <- <-.
  - split; [done|]. by split.
  - split; [|split; [done|eexists; done]]. exists n. done.
Qed.

Lemma lease_effect_ok cfg roots worker f f' o :
  frontier_ok cfg roots f → lease cfg worker f = (f', o) →
  lease_effect cfg worker f f' o ∧ frontier_ok cfg roots f'.
Proof.
  intros Hok Hr. destruct (lease_cases cfg roots worker f Hok)
    as [[Hf _]|(key & n & c & Hk & Hp & _ & Hf)]; rewrite Hf in Hr.
  - by injection Hr as <- <-.
  - destruct (finalize_effect _ _ _ _ _ _ _ _ _ Hok Hk Hp Hr) as (? & ? & _). done.
Qed.

Lemma lease_local_effect_ok cfg roots worker s w f f' o :
  frontier_ok cfg roots f → lease_local cfg worker s w f = (f', o) →
  lease_effect cfg worker f f' o ∧ frontier_ok cfg roots f'.
Proof.
  intros Hok Hr. pose proof Hok as (_ & _ & Hpo).
  assert (lease_local cfg worker s w f =
    if bool_decide (policy_ cfg = Priority) then lease cfg worker f
    else match s, w with
         | Some _, S _ => lease_local cfg worker s w f
         | _, _ => (f, Throw (invalid_argument "Frontier locality needs a scorer and nonzero window"))
         end) as Hl.
  { unfold lease_local, ensure_healthy, throw_if, mbind, M_bind, get, mret, M_ret, throw.
    rewrite Hpo. case_bool_decide; [done|]. by destruct s, w. }
  rewrite Hl in Hr. case_bool_decide as Hpol; [by eapply lease_effect_ok|].
  destruct s as [s|]; [|by injection Hr as <- <-].
  destruct w as [|w]; [by injection Hr as <- <-|].
  destruct (lease_local_cases cfg roots worker s (S w) f Hok Hpol ltac:(done))
    as [[Hf _]|(key & n & c & l1 & l2 & Hk & Hp & _ & _ & _ & _ & Hf)]; rewrite Hf in Hr.
  - by injection Hr as <- <-.
  - destruct (finalize_effect _ _ _ _ _ _ _ _ _ Hok Hk Hp Hr) as (? & ? & _). done.
Qed.

(** Every call keeps the invariant, and a call that throws has no effect. *)
Lemma exec_ok cfg roots c f f' o :
  frontier_ok cfg roots f → call_ok c → exec cfg c f = (f', o) →
  frontier_ok cfg (roots_after c o roots) f' ∧ (∀ e, o = Throw e → f' = f).
Proof.
  intros Hok Hc. destruct c as [k d|w|w s n|t x|w]; cbn [exec].
  - destruct (admit_ok cfg roots k d f Hok Hc) as [(e & Hr)|(_ & f1 & b & Hr & Hok' & _)];
      rewrite (forget_run _ _ _ _ Hr); intros [= <- <-]; done.
  - destruct (lease cfg w f) as [f1 o1] eqn:Hr. rewrite (forget_run _ _ _ _ Hr).
    destruct (lease_effect_ok _ _ _ _ _ _ Hok Hr) as [He Hok'].
    intros [= <- <-]. split; [done|]. by destruct o1.
  - destruct (lease_local cfg w s n f) as [f1 o1] eqn:Hr. rewrite (forget_run _ _ _ _ Hr).
    destruct (lease_local_effect_ok _ _ _ _ _ _ _ _ Hok Hr) as [He Hok'].
    intros [= <- <-]. split; [done|]. by destruct o1.
  - destruct (commit_ok cfg roots t x f Hok) as [(e & Hr)|(n & g & f1 & _ & _ & _ & Hr & _ & _ & _ & _ & Hok')];
      rewrite Hr; intros [= <- <-]; done.
  - destruct (worker_lost_ok cfg roots w f Hok) as (f1 & Hr & _ & _ & Hok').
    rewrite (forget_run _ _ _ _ Hr). intros [= <- <-]. done.
Qed.

Inductive search_run (cfg : Config) : list (Z * Z) → Frontier → Prop :=
  | run_start limit policy priority max_states f :
      Frontier_ctor limit policy priority max_states = Ret (cfg, f) →
      0 ≤ limit ≤ UINT64_MAX → 0 ≤ max_states ≤ SIZE_MAX →
      search_run cfg [] f
  | run_call roots f c f' o :
      search_run cfg roots f → call_ok c → exec cfg c f = (f', o) →
      search_run cfg (roots_after c o roots) f'.

Lemma start_ok limit policy priority max_states cfg f :
  Frontier_ctor limit policy priority max_states = Ret (cfg, f) →
  0 ≤ limit ≤ UINT64_MAX → 0 ≤ max_states ≤ SIZE_MAX → frontier_ok cfg [] f.
Proof.
  unfold Frontier_ctor. destruct (negb _) eqn:Hp; [done|].
  destruct (Z.eqb_spec max_states 0); [done|]. intros [= <- <-] Hl Hm.
  apply negb_false_iff, Bool.eqb_prop in Hp.
  split; [|split; [|done]].
  - split; [done|]. split; [simpl; lia|]. simpl.
    destruct priority as [pr|]; case_bool_decide as Hpol; done.
  - split; try done.
    + split; try done.
      * intros s k. split; [done|]. by intros (? & ? & _).
      * intros d s k. split; [done|]. by intros (_ & ? & ? & _).
      * intros d. rewrite count_nodes_empty. by rewrite andb_false_r.
    + by intros r d ?%elem_of_nil.
    + by intros r d ?%elem_of_nil.
    + unfold map_size. cbn [nodes_ fmap list_fmap]. rewrite missing_nil, map_size_empty, size_empty.
      cbn [max_states_]. lia.
Qed.

Lemma search_run_ok cfg roots f : search_run cfg roots f → frontier_ok cfg roots f.
Proof.
  induction 1 as [|roots f c f' o _ IH Hc Hr]; [by eapply start_ok|].
  by eapply exec_ok.
Qed.

(** A depth that is supported is matched or beaten by the recorded one. *)
Lemma supported_depth cfg roots f k d :
  linv cfg roots [] f → supported roots (nodes_ f) k d →
  ∃ n, nodes_ f !! k = Some n ∧ depth n ≤ d.
Proof.
  intros Hi. induction 1 as [v d Hr|u nu v d Hu Hv _ IH].
  - destruct (li_root _ _ _ _ Hi v d Hr) as [?|(? & []%elem_of_nil & _)]. done.
  - destruct IH as (n & Hn & Hd). simplify_eq.
    destruct (li_edge _ _ _ _ Hi _ _ _ Hu Hv) as [(nv & Hnv & Hle)|(? & []%elem_of_nil & _)].
    exists nv. split; [done|lia].
Qed.

(** ** Stale leases *)

(** The lease [t] can no longer be committed, now or ever. *)
Definition lease_dead (t : Ticket) (f : Frontier) : Prop :=
  t_lease_id t ≤ next_lease_ f ∧
  ∀ n u, nodes_ f !! t_state t = Some n → ticket n = Some u → t_lease_id u ≠ t_lease_id t.

Lemma dead_evolves t f f' : evolves f f' → lease_dead t f → lease_dead t f'.
Proof.
  intros [E1 _ _ E4 E5] [H1 H2]. split; [by rewrite E1|]. intros n' u Hn' Hu.
  destruct (nodes_ f !! t_state t) as [n|] eqn:Hn.
  - destruct (E4 _ _ Hn) as (n1 & ? & _ & _ & Et & _). simplify_eq.
    apply (H2 n); [done|congruence].
  - destruct (E5 _ _ Hn' Hn) as (_ & ? & _). congruence.
Qed.

Lemma dead_lease_effect cfg w t f f' o :
  lease_effect cfg w f f' o → lease_dead t f → lease_dead t f'.
Proof.
  destruct o as [[u|]|e]; cbn [lease_effect]; [|by intros ->..].
  intros (n & Hn & Hp & Hu & Hm & Hl) [H1 H2]. split; [lia|]. rewrite Hm. intros n' v Hn' Hv.
  apply lookup_insert_Some in Hn' as [[Hs <-]|[_ Hn']]; [|by eapply H2].
  simpl in Hv. injection Hv as <-. rewrite Hu. simpl. lia.
Qed.

Lemma dead_exec cfg roots c f f' o t :
  frontier_ok cfg roots f → call_ok c → exec cfg c f = (f', o) →
  lease_dead t f → lease_dead t f'.
Proof.
  intros Hok Hc Hr Hd. destruct c as [k d|w|w s n|u x|w]; cbn [exec] in Hr.
  - destruct (admit_ok cfg roots k d f Hok Hc) as [(e & Hr')|(_ & f1 & b & Hr' & _ & He)];
      rewrite (forget_run _ _ _ _ Hr') in Hr; injection Hr as <- <-; [done|].
    by eapply dead_evolves.
  - destruct (lease cfg w f) as [f1 o1] eqn:E. rewrite (forget_run _ _ _ _ E) in Hr.
    injection Hr as <- _. destruct (lease_effect_ok _ _ _ _ _ _ Hok E) as [He _].
    by eapply dead_lease_effect.
  - destruct (lease_local cfg w s n f) as [f1 o1] eqn:E. rewrite (forget_run _ _ _ _ E) in Hr.
    injection Hr as <- _. destruct (lease_local_effect_ok _ _ _ _ _ _ _ _ Hok E) as [He _].
    by eapply dead_lease_effect.
  - destruct (commit_ok cfg roots u x f Hok)
      as [(e & Hr')|(n & g & f1 & Hn & _ & _ & Hr' & Hg & Hl & He & _)];
      rewrite Hr' in Hr; injection Hr as <- <-; [done|].
    eapply dead_evolves; [exact He|]. destruct Hd as [H1 H2]. split; [by rewrite Hl|].
    rewrite Hg. intros m v [[_ <-]|[_ Hm]]%lookup_insert_Some; [done|eauto].
  - destruct (worker_lost_ok cfg roots w f Hok) as (f1 & Hr' & Hm & Hl & _).
    rewrite (forget_run _ _ _ _ Hr') in Hr. injection Hr as <- <-.
    destruct Hd as [H1 H2]. split; [by rewrite Hl|]. rewrite Hm. intros m v.
    rewrite lookup_fmap. destruct (nodes_ f !! t_state t) as [n|] eqn:E; [|done].
    intros [= <-]. unfold requeue. destruct (held_by w n); [done|]. by apply H2.
Qed.

Lemma dead_commit cfg roots t x f :
  frontier_ok cfg roots f → lease_dead t f →
  commit cfg t x f = (f, Throw (invalid_argument "stale or invalid frontier lease")).
Proof.
  intros (_ & Hi & Hp) [_ Hd].
  destruct (ticket_current t f) eqn:Ht.
  { destruct (ticket_current_spec _ _ _ _ Hi Ht) as (n & Hk & _ & Htk). by destruct (Hd n t). }
  unfold commit, ensure_healthy, throw_if, mbind, M_bind, get, mret, M_ret, throw.
  by rewrite Hp, Ht.
Qed.

(** Continuing a run: any number of further calls. *)
Inductive continues (cfg : Config) : list (Z * Z) → Frontier → list (Z * Z) → Frontier → Prop :=
  | cont_refl roots f : continues cfg roots f roots f
  | cont_step roots f c f1 o roots' f' :
      call_ok c → exec cfg c f = (f1, o) →
      continues cfg (roots_after c o roots) f1 roots' f' → continues cfg roots f roots' f'.

Lemma dead_forever cfg roots f roots' f' t :
  continues cfg roots f roots' f' → frontier_ok cfg roots f → lease_dead t f →
  frontier_ok cfg roots' f' ∧ lease_dead t f'.
Proof.
  induction 1 as [|roots f c f1 o roots' f' Hc Hr _ IH]; intros Hok Hd; [done|].
  apply IH; [by eapply exec_ok|by eapply dead_exec].
Qed.

(** ** Faithful searches *)

Section oracle.
Context (succ : Z → list Z).

(** The workers report what the model does: an expansion lists exactly the
    successors, a terminal report means there are none. *)
Definition commit_faithful (c : Call) : Prop :=
  match c with
  | CCommit t x =>
      (x_kind x = RExpanded → x_successors x = succ (t_state t)) ∧
      (x_kind x = RTerminal → succ (t_state t) = [])
  | _ => True
  end.

Definition nodes_faithful (m : gmap Z Node) : Prop := ∀ k n, m !! k = Some n →
  (phase n = Expanded → successors n = succ k) ∧ (phase n = Terminal → succ k = []).

Lemma faithful_evolves f f' :
  evolves f f' → nodes_faithful (nodes_ f) → nodes_faithful (nodes_ f').
Proof.
  intros [_ _ _ E4 E5] Hf k n' Hn'. destruct (nodes_ f !! k) as [n|] eqn:Hn.
  - destruct (E4 _ _ Hn) as (n1 & ? & _ & _ & _ & Es & _ & Ep). simplify_eq.
    destruct (Hf _ _ Hn) as [H1 H2]. rewrite Es.
    destruct Ep as [->|[_ ->]]; [done|]. by split.
  - destruct (E5 _ _ Hn' Hn) as (-> & _). by split.
Qed.

Lemma faithful_insert m k n :
  nodes_faithful m →
  ((phase n = Expanded → successors n = succ k) ∧ (phase n = Terminal → succ k = [])) →
  nodes_faithful (<[k := n]> m).
Proof. intros Hm Hn j m' [[<- <-]|[_ Hj]]%lookup_insert_Some; [done|eauto]. Qed.

Lemma faithful_lease_effect cfg w f f' o :
  lease_effect cfg w f f' o → nodes_faithful (nodes_ f) → nodes_faithful (nodes_ f').
Proof.
  destruct o as [[u|]|e]; cbn [lease_effect]; [|by intros ->..].
  intros (n & Hn & _ & _ & -> & _) Hf. by apply faithful_insert.
Qed.

Lemma faithful_exec cfg roots c f f' o :
  frontier_ok cfg roots f → call_ok c → commit_faithful c → exec cfg c f = (f', o) →
  nodes_faithful (nodes_ f) → nodes_faithful (nodes_ f').
Proof.
  intros Hok Hc Hx Hr Hf. destruct c as [k d|w|w s n|u x|w]; cbn [exec] in Hr.
  - destruct (admit_ok cfg roots k d f Hok Hc) as [(e & Hr')|(_ & f1 & b & Hr' & _ & He)];
      rewrite (forget_run _ _ _ _ Hr') in Hr; injection Hr as <- <-; [done|].
    by eapply faithful_evolves.
  - destruct (lease cfg w f) as [f1 o1] eqn:E. rewrite (forget_run _ _ _ _ E) in Hr.
    injection Hr as <- _. destruct (lease_effect_ok _ _ _ _ _ _ Hok E) as [He _].
    by eapply faithful_lease_effect.
  - destruct (lease_local cfg w s n f) as [f1 o1] eqn:E. rewrite (forget_run _ _ _ _ E) in Hr.
    injection Hr as <- _. destruct (lease_local_effect_ok _ _ _ _ _ _ _ _ Hok E) as [He _].
    by eapply faithful_lease_effect.
  - destruct (commit_ok cfg roots u x f Hok)
      as [(e & Hr')|(n & g & f1 & Hn & _ & _ & Hr' & Hg & Hl & He & _)];
      rewrite Hr' in Hr; injection Hr as <- <-; [done|].
    eapply faithful_evolves; [exact He|]. rewrite Hg. apply faithful_insert; [done|].
    destruct Hx as [X1 X2]. unfold committed_node. simpl.
    destruct (x_kind x); simpl; try done; split; intros; auto;
      by destruct (depth n <? limit_ cfg).
  - destruct (worker_lost_ok cfg roots w f Hok) as (f1 & Hr' & Hm & Hl & _).
    rewrite (forget_run _ _ _ _ Hr') in Hr. injection Hr as <- <-. rewrite Hm.
    intros k m. rewrite lookup_fmap. destruct (nodes_ f !! k) as [n|] eqn:E; [|done].
    intros [= <-]. unfold requeue. destruct (held_by w n); [by split|]. by apply Hf.
Qed.

(** Runs in which every commit is faithful. *)
Inductive faithful_run (cfg : Config) : list (Z * Z) → Frontier → Prop :=
  | frun_start limit policy priority max_states f :
      Frontier_ctor limit policy priority max_states = Ret (cfg, f) →
      0 ≤ limit ≤ UINT64_MAX → 0 ≤ max_states ≤ SIZE_MAX →
      faithful_run cfg [] f
  | frun_call roots f c f' o :
      faithful_run cfg roots f → call_ok c → commit_faithful c → exec cfg c f = (f', o) →
      faithful_run cfg (roots_after c o roots) f'.

Lemma faithful_run_ok cfg roots f :
  faithful_run cfg roots f → frontier_ok cfg roots f ∧ nodes_faithful (nodes_ f).
Proof.
  induction 1 as [l p pr ms f Hs Hl Hm|roots f c f' o _ [IH1 IH2] Hc Hx Hr].
  - split; [by eapply start_ok|]. unfold Frontier_ctor in Hs.
    destruct (negb _); [done|]. destruct (ms =? 0); [done|]. by injection Hs as <- <-.
  - split; [by eapply exec_ok|by eapply faithful_exec].
Qed.

(** Paths of the model, with their length. *)
Inductive model_path : Z → Z → Z → Prop :=
  | mp_refl u : model_path u u 0
  | mp_step u v w n : model_path u v n → w ∈ succ v → model_path u w (n + 1).

Lemma model_path_nonneg u v n : model_path u v n → 0 ≤ n.
Proof. induction 1; lia. Qed.
End oracle.

(** What the status says of the phases. *)
Lemma status_phases cfg roots f :
  frontier_ok cfg roots f →
  match status f with
  | Failed => ∃ k n, nodes_ f !! k = Some n ∧ phase n = Failure
  | Running => (∃ k n, nodes_ f !! k = Some n ∧ is_active (phase n) = true) ∧
      (∀ k n, nodes_ f !! k = Some n → phase n ≠ Failure)
  | Bounded => (∃ k n, nodes_ f !! k = Some n ∧ (phase n = DepthCut ∨ phase n = ModelBudget)) ∧
      (∀ k n, nodes_ f !! k = Some n → phase n ≠ Failure ∧ is_active (phase n) = false)
  | Complete => ∀ k n, nodes_ f !! k = Some n → phase n = Expanded ∨ phase n = Terminal
  end.
Proof.
  intros (_ & Hi & Hp). unfold status. rewrite Hp.
  pose proof (ix_count _ _ _ (li_idx _ _ _ _ Hi)) as Hc. rewrite !Hc.
  assert (∀ p, count_nodes (in_phase p) (nodes_ f) ≠ 0 →
    ∃ k n, nodes_ f !! k = Some n ∧ phase n = p) as Hex.
  { intros p (k & n & Hk & Hph)%count_nodes_ex. apply bool_decide_eq_true in Hph. eauto. }
  assert (∀ p, count_nodes (in_phase p) (nodes_ f) = 0 →
    ∀ k n, nodes_ f !! k = Some n → phase n ≠ p) as Hno.
  { intros p H0 k n Hk. rewrite count_nodes_0 in H0. specialize (H0 k n Hk).
    by apply bool_decide_eq_false in H0. }
  destruct (Z.eqb_spec (count_nodes (in_phase Failure) (nodes_ f)) 0) as [HF|HF]; simpl; [|auto].
  destruct (Z.eqb_spec (count_nodes (in_phase Pending) (nodes_ f)) 0) as [HP|HP]; simpl.
  2:{ split; [|eauto]. destruct (Hex _ HP) as (k & n & Hk & Hph). exists k, n. by rewrite Hph. }
  destruct (Z.eqb_spec (count_nodes (in_phase Inflight) (nodes_ f)) 0) as [HI|HI]; simpl.
  2:{ split; [|eauto]. destruct (Hex _ HI) as (k & n & Hk & Hph). exists k, n. by rewrite Hph. }
  assert (∀ k n, nodes_ f !! k = Some n → phase n ≠ Failure ∧ is_active (phase n) = false) as Hq.
  { intros k n Hk. split; [eauto|]. pose proof (Hno _ HP k n Hk). pose proof (Hno _ HI k n Hk).
    by destruct (phase n). }
  destruct (Z.eqb_spec (count_nodes (in_phase DepthCut) (nodes_ f)) 0) as [HD|HD]; simpl.
  2:{ split; [|done]. destruct (Hex _ HD) as (k & n & Hk & Hph). eauto. }
  destruct (Z.eqb_spec (count_nodes (in_phase ModelBudget) (nodes_ f)) 0) as [HM|HM]; simpl.
  2:{ split; [|done]. destruct (Hex _ HM) as (k & n & Hk & Hph). eauto. }
  intros k n Hk. pose proof (Hno _ HF k n Hk). pose proof (Hno _ HP k n Hk).
  pose proof (Hno _ HI k n Hk). pose proof (Hno _ HD k n Hk). pose proof (Hno _ HM k n Hk).
  destruct (phase n); auto; done.
Qed.

(** ** Properties *)

(** A small search: limit 2, depth first; state 1 is admitted, leased by
    worker 7 and expanded to 2 and 3. *)
Definition sample_cfg : Config := mkConfig 2 Dfs None 10.
Definition sample_start : Frontier :=
  mkFrontier 0 0 false ∅ ∅ ∅ ∅ (λ _, 0) (mkCounters 0 0 0 0 0 0 0).
Definition sample_ticket : Ticket := mkTicket 1 7 1 0 true.
Definition sample_expansion : Expansion := mkExpansion RExpanded [2; 3] EmptyString.
Definition sample_calls : list Call :=
  [CAdmit 1 0; CLease 7; CCommit sample_ticket sample_expansion].
Definition sample_run (cs : list Call) : Frontier :=
  foldl (λ f c, (exec sample_cfg c f).1) sample_start cs.
Definition sample_succ (k : Z) : list Z := if k =? 1 then [2; 3] else [].

Lemma sample_faithful n :
  ∃ roots, faithful_run sample_succ sample_cfg roots (sample_run (take n sample_calls)) ∧
    roots = if decide (n = O) then [] else [(1, 0)].
Proof.
  assert (faithful_run sample_succ sample_cfg [] sample_start) as H0.
  { apply (frun_start _ _ 2 Dfs None 10); done. }
  destruct n as [|n]; [by exists []|].
  pose proof (frun_call _ _ _ _ (CAdmit 1 0) _ _ H0 ltac:(done) I (surjective_pairing _)) as H1.
  destruct n as [|n]; [by exists [(1, 0)]|].
  pose proof (frun_call _ _ _ _ (CLease 7) _ _ H1 I I (surjective_pairing _)) as H2.
  destruct n as [|n]; [by exists [(1, 0)]|].
  assert (commit_faithful sample_succ (CCommit sample_ticket sample_expansion)) as Hx by done.
  pose proof (frun_call _ _ _ _ (CCommit sample_ticket sample_expansion) _ _ H2 I Hx (surjective_pairing _)) as H3.
  exists [(1, 0)]. split; [|done]. destruct n; exact H3.
Qed.

Lemma sample_ok n :
  frontier_ok sample_cfg (if decide (n = O) then [] else [(1, 0)])
    (sample_run (take n sample_calls)).
Proof. destruct (sample_faithful n) as (roots & H & ->). by apply faithful_run_ok in H as [? _]. Qed.

Lemma faithful_search_run succ cfg roots f : faithful_run succ cfg roots f → search_run cfg roots f.
Proof. induction 1; [by eapply run_start|by eapply run_call]. Qed.

Lemma sample_search n :
  search_run sample_cfg (if decide (n = O) then [] else [(1, 0)])
    (sample_run (take n sample_calls)).
Proof. destruct (sample_faithful n) as (roots & H & ->). by eapply faithful_search_run. Qed.

(** C1. The depth of every node is exactly its shortest distance: in any run,
    a state is recorded with depth [d] exactly when [d] is the least
    admission depth plus number of recorded successor edges over all ways
    of reaching it from an admitted root.  Late discovery of shorter paths
    is propagated through everything already expanded. *)
Theorem frontier_depth_shortest cfg roots f k d :
  search_run cfg roots f →
  (∃ n, nodes_ f !! k = Some n ∧ depth n = d) ↔
  (supported roots (nodes_ f) k d ∧ ∀ d', supported roots (nodes_ f) k d' → d ≤ d').
Proof.
  intros (_ & Hi & _)%search_run_ok. split.
  - intros (n & Hk & <-). split; [by apply (li_path _ _ _ _ Hi)|].
    intros d' Hs. destruct (supported_depth _ _ _ _ _ Hi Hs) as (n' & Hk' & ?). congruence.
  - intros [Hs Hmin]. destruct (supported_depth _ _ _ _ _ Hi Hs) as (n & Hk & Hle).
    exists n. split; [done|]. specialize (Hmin _ (li_path _ _ _ _ Hi _ _ Hk)). lia.
Qed.

Lemma frontier_depth_shortest_witness :
  ∃ n, nodes_ (sample_run sample_calls) !! 3 = Some n ∧ depth n = 1.
Proof.
  apply (frontier_depth_shortest _ _ _ 3 1 (sample_search 3)). split.
  - destruct (nodes_ (sample_run sample_calls) !! 1) as [n1|] eqn:E; [|vm_compute in E; done].
    apply (sup_edge _ _ 1 n1 3 0); [exact E| |apply sup_root; left].
    vm_compute in E. injection E as <-. right. left.
  - intros d' Hs. inversion Hs as [v d Hr|u nu v d Hu Hv Hs' E1 E2]; subst.
    + by apply list_elem_of_singleton in Hr as [= ? ?].
    + pose proof (proj1 (proj2 (sample_ok 3))) as Hi.
      destruct (supported_depth _ _ _ _ _ Hi Hs') as (n & Hn & Hd).
      destruct (li_node _ _ _ _ Hi _ _ Hn) as [[? _] _]. lia.
Defined.

(** C3. The coordinator's tables are consistent after any sequence of calls:
    phase counts, the pending set by sequence number, the breadth-first
    queue and the active layers are exactly what the node table determines,
    sequence numbers are unique, a node has a lease exactly while in flight,
    only expanded nodes have successors (and those lie within the depth
    limit), a depth-cut node sits at the limit, and the number of nodes
    respects the capacity.  A call that throws leaves everything as it was. *)
Theorem frontier_tables_consistent cfg roots f :
  search_run cfg roots f →
  idx_ok cfg (nodes_ f) f ∧ (∀ k n, nodes_ f !! k = Some n → node_ok cfg f k n) ∧
  map_size f ≤ max_states_ cfg ∧
  (∀ c f' e, call_ok c → exec cfg c f = (f', Throw e) → f' = f).
Proof.
  intros Hok%search_run_ok. pose proof Hok as (_ & Hi & _).
  split; [apply (li_idx _ _ _ _ Hi)|]. split; [apply (li_node _ _ _ _ Hi)|].
  split; [by eapply linv_size|].
  intros c f' e Hc Hr. by eapply (exec_ok cfg roots c f f').
Qed.

Lemma frontier_tables_consistent_witness :
  idx_ok sample_cfg (nodes_ (sample_run sample_calls)) (sample_run sample_calls).
Proof. apply (frontier_tables_consistent _ _ _ (sample_search 3)). Defined.

(** Admitting [(k, d)] adds no path to any state that is shorter than both
    the old ones and [d]. *)
Lemma supported_admit roots k d f f' v e :
  evolves f f' → supported ((k, d) :: roots) (nodes_ f') v e →
  supported roots (nodes_ f) v e ∨ d ≤ e.
Proof.
  intros Hev. induction 1 as [v e [[= -> ->]|Hr]%elem_of_cons|u nu v e Hu Hv _ [IH|IH]].
  - by right.
  - left. by apply sup_root.
  - left. destruct (nodes_ f !! u) as [n|] eqn:Hn.
    + destruct (ev_node _ _ Hev _ _ Hn) as (n1 & ? & _ & _ & _ & Es & _). simplify_eq.
      eapply sup_edge; [exact Hn|by rewrite <- Es|done].
    + destruct (ev_new _ _ Hev _ _ Hu Hn) as (_ & _ & Es). rewrite Es in Hv.
      by apply elem_of_nil in Hv.
  - right. lia.
Qed.

Lemma admit_depth cfg roots k d f f' :
  frontier_ok cfg roots f → frontier_ok cfg ((k, d) :: roots) f' → evolves f f' →
  ∃ n', nodes_ f' !! k = Some n' ∧
    depth n' = match nodes_ f !! k with Some n => Z.min d (depth n) | None => d end.
Proof.
  intros (_ & Hi & _) (_ & Hi' & _) Hev.
  destruct (li_root _ _ _ _ Hi' k d) as [(n' & Hk' & Hle)|(? & []%elem_of_nil & _)]; [left|].
  exists n'. split; [done|].
  pose proof (supported_admit _ _ _ _ _ _ _ Hev (li_path _ _ _ _ Hi' _ _ Hk')) as Hs.
  destruct (nodes_ f !! k) as [n|] eqn:Hk.
  - destruct (ev_node _ _ Hev _ _ Hk) as (n1 & ? & Hd & _). simplify_eq.
    destruct Hs as [(n2 & ? & ?)%(supported_depth _ _ _ _ _ Hi)|]; simplify_eq; lia.
  - destruct Hs as [(n2 & ? & ?)%(supported_depth _ _ _ _ _ Hi)|]; simplify_eq; lia.
Qed.

Lemma admit_run cfg k d f :
  poisoned_ f = false →
  admit_state cfg k d f =
    if limit_ cfg <? d then (f, Throw (invalid_argument "admission beyond depth limit"))
    else if bool_decide (nodes_ f !! k = None) && (map_size f =? max_states_ cfg)
    then (f, Throw (length_error "frontier capacity exceeded"))
    else match propagate cfg k d f with
         | (f', Ret _) =>
             (f', Ret (match nodes_ f !! k with None => true | Some n => d <? depth n end))
         | (f', Throw e) => (f', Throw e)
         end.
Proof.
  intros Hp.
  unfold admit_state, ensure_healthy, throw_if, mbind, M_bind, get, mret, M_ret, throw.
  rewrite Hp. destruct (limit_ cfg <? d); [done|]. by destruct (_ && _).
Qed.

(** C8. [admit], on every branch: beyond the depth limit, or with no room or
    no sequence number left for an unknown state, it throws and changes
    nothing; otherwise it returns whether the state is new or came closer,
    and the state is recorded at the smaller of the two depths.  In
    particular the propagation loop always terminates. *)
Theorem admit_exact cfg roots k d f :
  frontier_ok cfg roots f → 0 ≤ d →
  (limit_ cfg < d →
     admit_state cfg k d f = (f, Throw (invalid_argument "admission beyond depth limit"))) ∧
  (d ≤ limit_ cfg →
   match nodes_ f !! k with
   | None =>
       if map_size f =? max_states_ cfg
       then admit_state cfg k d f = (f, Throw (length_error "frontier capacity exceeded"))
       else if next_sequence_ f =? UINT64_MAX
       then admit_state cfg k d f = (f, Throw (overflow_error "frontier sequence exhausted"))
       else ∃ f' n', admit_state cfg k d f = (f', Ret true) ∧ evolves f f' ∧
              nodes_ f' !! k = Some n' ∧ depth n' = d ∧ phase n' = Pending ∧
              frontier_ok cfg ((k, d) :: roots) f'
   | Some n =>
       ∃ f' n', admit_state cfg k d f = (f', Ret (d <? depth n)) ∧ evolves f f' ∧
         nodes_ f' !! k = Some n' ∧ depth n' = Z.min d (depth n) ∧
         frontier_ok cfg ((k, d) :: roots) f'
   end).
Proof.
  intros Hok Hd. pose proof Hok as (Hcfg & Hi & Hp). rewrite (admit_run cfg k d f Hp).
  destruct (Z.ltb_spec (limit_ cfg) d); (split; intros Hl); [done|lia|lia|].
  pose proof (linv_size _ _ _ Hi). pose proof (li_seq _ _ _ _ Hi) as Hq. simpl in Hq.
  rewrite missing_nil, size_empty in Hq.
  assert ((nodes_ f !! k = None → map_size f ≠ max_states_ cfg ∧ next_sequence_ f ≠ UINT64_MAX) →
    ∃ f' n', propagate cfg k d f = (f', Ret tt) ∧ evolves f f' ∧ nodes_ f' !! k = Some n' ∧
      depth n' = match nodes_ f !! k with Some n => Z.min d (depth n) | None => d end ∧
      frontier_ok cfg ((k, d) :: roots) f') as Hgo.
  { intros Hroom. destruct (propagate_ok cfg ((k, d) :: roots) k d [] f) as (f' & Hr & Hi' & He);
      [done|apply linv_drop_root; [done|lia|]; intros Hk; destruct (Hroom Hk); lia|].
    assert (frontier_ok cfg ((k, d) :: roots) f') as Hok'
      by (split; [done|]; split; [done|]; by rewrite (ev_poison _ _ He)).
    destruct (admit_depth cfg roots k d f f' Hok Hok' He) as (n' & Hk' & Hdep).
    exists f', n'. done. }
  destruct (nodes_ f !! k) as [n|] eqn:Hk; cbn [bool_decide andb].
  - destruct Hgo as (f' & n' & -> & Hgo); [done|]. exists f', n'. done.
  - destruct (Z.eqb_spec (map_size f) (max_states_ cfg)) as [|Hne]; [done|].
    destruct (Z.eqb_spec (next_sequence_ f) UINT64_MAX) as [Hmax|Hmax].
    { unfold propagate. cbn [propagate_loop]. rewrite Hk, Hmax.
      destruct (Z.eqb_spec (map_size f) (max_states_ cfg)); done. }
    destruct Hgo as (f' & n' & -> & He & Hk' & Hdep & Hok'); [done|].
    destruct (ev_new _ _ He _ _ Hk' Hk) as (Hph & _). exists f', n'. done.
Qed.

Lemma admit_exact_witness :
  ∃ f' n', admit_state sample_cfg 3 0 (sample_run sample_calls) = (f', Ret true) ∧
    nodes_ f' !! 3 = Some n' ∧ depth n' = 0.
Proof.
  destruct (admit_exact sample_cfg _ 3 0 _ (sample_ok 3) ltac:(lia)) as [_ H].
  specialize (H ltac:(vm_compute; done)).
  destruct (nodes_ (sample_run (take 3 sample_calls)) !! 3) as [n|] eqn:E; [|vm_compute in E; done].
  destruct H as (f' & n' & Hr & _ & Hk & Hd & _). vm_compute in E. injection E as <-.
  exists f', n'. split; [exact Hr|]. split; [exact Hk|exact Hd].
Defined.

(** C6. Dispatch: a lease goes to the pending node the policy demands (depth
    first, the newest; breadth first, the oldest of the shallowest layer,
    with nothing active above it; by priority, the least value and the
    oldest among equals), which becomes in flight under a fresh lease number
    and keeps its depth; [may_expand] tells whether it lies above the limit.
    No node is handed out exactly when none is pending or, breadth first,
    while a shallower layer is in flight. *)
Theorem lease_dispatch cfg roots worker f f' o :
  frontier_ok cfg roots f → lease cfg worker f = (f', o) →
  frontier_ok cfg roots f' ∧
  match o with
  | Throw e => f' = f ∧ next_lease_ f = UINT64_MAX
  | Ret None => f' = f ∧ nothing_to_lease cfg f
  | Ret (Some t) => ∃ n, nodes_ f !! t_state t = Some n ∧ phase n = Pending ∧
      dispatch_choice cfg f (t_state t) n ∧ ¬ nothing_to_lease cfg f ∧
      t = mkTicket (t_state t) worker (next_lease_ f + 1) (depth n) (depth n <? limit_ cfg) ∧
      nodes_ f' = <[t_state t := mkNode (depth n) Inflight (sequence n) (Some t)
                                   (successors n) (reason n)]> (nodes_ f)
  end.
Proof.
  intros Hok Hr. destruct (lease_cases cfg roots worker f Hok)
    as [[Hf Hnone]|(key & n & c & Hk & Hp & Hch & Hf)]; rewrite Hf in Hr.
  { injection Hr as <- <-. done. }
  destruct (finalize_effect _ _ _ _ _ _ _ _ _ Hok Hk Hp Hr) as (Heff & Hok' & Hkey).
  split; [done|]. destruct o as [ot|e]; [|done].
  destruct Hkey as (t & -> & <-). destruct Heff as (n' & Hk' & _ & Ht & Hm & _).
  assert (n' = n) as -> by congruence. exists n. split; [done|]. split; [done|]. split; [done|].
  split; [|split; [exact Ht|exact Hm]].
  intros [Hno|(Hpol & j & m & Hj & Hm' & Hdeep)]; [by eapply Hno|].
  unfold dispatch_choice in Hch. rewrite Hpol in Hch. destruct Hch as [Hch _].
  specialize (Hch j m Hj ltac:(by rewrite Hm')). specialize (Hdeep _ n Hk Hp). lia.
Qed.

Lemma lease_dispatch_witness :
  ∃ f', lease sample_cfg 8 (sample_run sample_calls) =
          (f', Ret (Some (mkTicket 3 8 2 1 true))) ∧ frontier_ok sample_cfg [(1, 0)] f'.
Proof.
  destruct (lease sample_cfg 8 (sample_run sample_calls)) as [f' o] eqn:E.
  destruct (lease_dispatch sample_cfg [(1, 0)] 8 _ f' o (sample_ok 3) E) as [Hok _].
  exists f'. split; [|exact Hok].
  assert (o = (lease sample_cfg 8 (sample_run sample_calls)).2) as -> by by rewrite E.
  f_equal.
Defined.

(** C7. Locality dispatch: among the first [window] nodes in dispatch order
    the one with the highest score is leased, the earliest among equals;
    breadth first, it still lies in the shallowest active layer, and nothing
    is handed out while a shallower layer is in flight.  Without a scorer or
    a window the call throws and changes nothing. *)
Theorem lease_local_dispatch cfg roots worker scorer window f f' o :
  frontier_ok cfg roots f → policy_ cfg ≠ Priority →
  lease_local cfg worker scorer window f = (f', o) →
  frontier_ok cfg roots f' ∧
  match scorer, o with
  | Some score, Ret (Some t) =>
      ∃ n l1 l2, nodes_ f !! t_state t = Some n ∧ phase n = Pending ∧
        dispatch_window cfg f window = l1 ++ t_state t :: l2 ∧
        (∀ k, k ∈ dispatch_window cfg f window → score k ≤ score (t_state t)) ∧
        (∀ k, k ∈ l1 → score k < score (t_state t)) ∧
        (policy_ cfg = Bfs → ∀ k m, nodes_ f !! k = Some m →
           is_active (phase m) = true → depth n ≤ depth m) ∧
        nodes_ f' = <[t_state t := mkNode (depth n) Inflight (sequence n) (Some t)
                                     (successors n) (reason n)]> (nodes_ f)
  | Some _, Ret None => f' = f ∧ nothing_to_lease cfg f
  | Some _, Throw _ => f' = f ∧ (window = O ∨ next_lease_ f = UINT64_MAX)
  | None, _ => f' = f ∧ ∃ e, o = Throw e
  end.
Proof.
  intros Hok Hpol Hr. destruct (lease_local_effect_ok _ _ _ _ _ _ _ _ Hok Hr) as [Heff Hok'].
  split; [done|]. pose proof Hok as (_ & _ & Hpo).
  assert (scorer = None ∨ window = O → f' = f ∧ ∃ e, o = Throw e) as Hbad.
  { intros Hb. revert Hr.
    unfold lease_local, ensure_healthy, throw_if, mbind, M_bind, get, mret, M_ret, throw.
    rewrite Hpo, bool_decide_false by done.
    destruct Hb as [->| ->]; [|destruct scorer]; intros [= <- <-]; eauto. }
  destruct scorer as [score|]; [|by apply Hbad; left].
  destruct window as [|w]; [by destruct Hbad as (-> & e & ->); auto|]. clear Hbad.
  destruct (lease_local_cases cfg roots worker score (S w) f Hok Hpol ltac:(done))
    as [[Hf Hnone]|(key & n & c & l1 & l2 & Hk & Hp & Hw & Hmax & Hlt & Hlay & Hf)];
    rewrite Hf in Hr.
  { injection Hr as <- <-. done. }
  destruct (finalize_effect _ _ _ _ _ _ _ _ _ Hok Hk Hp Hr) as (_ & _ & Hkey).
  destruct o as [ot|e]; [|simpl in Heff; by auto].
  destruct Hkey as (t & -> & <-). destruct Heff as (n' & Hk' & _ & Ht & Hm & _).
  assert (n' = n) as -> by congruence. exists n, l1, l2. rewrite Hw. auto 10.
Qed.

Lemma lease_local_dispatch_witness :
  ∃ f' o, lease_local sample_cfg 8 (Some (λ k, - k)) 5 (sample_run sample_calls) = (f', o) ∧
    o = Ret (Some (mkTicket 2 8 2 1 true)) ∧ frontier_ok sample_cfg [(1, 0)] f'.
Proof.
  destruct (lease_local sample_cfg 8 (Some (λ k, - k)) 5 (sample_run sample_calls))
    as [f' o] eqn:E.
  destruct (lease_local_dispatch sample_cfg [(1, 0)] 8 (Some (λ k, - k)) 5 _ f' o
    (sample_ok 3) ltac:(done) E) as [Hok _].
  exists f', o. split; [done|]. split; [|exact Hok].
  assert (o = (lease_local sample_cfg 8 (Some (λ k, - k)) 5 (sample_run sample_calls)).2) as ->
    by by rewrite E. f_equal.
Defined.


Lemma sample_commit :
  ∃ f', commit sample_cfg sample_ticket sample_expansion (sample_run (take 2 sample_calls)) =
          (f', Ret tt).
Proof.
  destruct (commit _ _ _ _) as [f' o] eqn:E. exists f'. f_equal.
  change o with (f', o).2. rewrite <- E. vm_compute. reflexivity.
Qed.


(** C5. A lease is good for at most one commit: once it was committed, or its
    worker was declared lost, then whatever calls follow, committing it again
    throws and changes nothing. *)
Theorem stale_lease_rejected cfg roots t x y f f1 roots' f' :
  frontier_ok cfg roots f →
  commit cfg t x f = (f1, Ret tt) ∨
  (∃ n c, nodes_ f !! t_state t = Some n ∧ ticket n = Some t ∧
     worker_lost cfg (t_worker t) f = (f1, Ret c)) →
  continues cfg roots f1 roots' f' →
  commit cfg t y f' = (f', Throw (invalid_argument "stale or invalid frontier lease")).
Proof.
  intros Hok Hend Hcont.
  assert (frontier_ok cfg roots f1 ∧ lease_dead t f1) as [Hok1 Hdead].
  { destruct Hend as [Hr|(n & c & Hk & Ht & Hr)].
    - destruct (commit_ok cfg roots t x f Hok)
        as [(e & Hr')|(n & g & f2 & Hk & _ & Ht & Hr' & Hg & Hl & He & _ & Hok2)];
        rewrite Hr in Hr'; [done|injection Hr' as <-].
      split; [done|]. eapply dead_evolves; [exact He|]. split.
      + pose proof Hok as (_ & Hi & _). rewrite Hl.
        pose proof (nk_ticket _ _ _ _ (li_node _ _ _ _ Hi _ _ Hk)) as H. rewrite Ht in H. lia.
      + rewrite Hg, lookup_insert_eq. by intros m u [= <-].
    - destruct (worker_lost_ok cfg roots (t_worker t) f Hok) as (f2 & Hr' & Hm & Hl & Hok2).
      rewrite Hr in Hr'. injection Hr' as <- _. split; [done|]. split.
      + pose proof Hok as (_ & Hi & _). rewrite Hl.
        pose proof (nk_ticket _ _ _ _ (li_node _ _ _ _ Hi _ _ Hk)) as H. rewrite Ht in H. lia.
      + rewrite Hm, lookup_fmap, Hk. intros m u [= <-]. unfold requeue, held_by.
        rewrite Ht, Z.eqb_refl. done. }
  destruct (dead_forever _ _ _ _ _ _ Hcont Hok1 Hdead) as [Hok' Hdead'].
  by eapply dead_commit.
Qed.

Lemma stale_lease_rejected_witness :
  (commit sample_cfg sample_ticket sample_expansion (sample_run sample_calls)).2 =
    Throw (invalid_argument "stale or invalid frontier lease").
Proof.
  rewrite (stale_lease_rejected sample_cfg [(1, 0)] sample_ticket sample_expansion
    sample_expansion (sample_run (take 2 sample_calls)) (sample_run sample_calls) [(1, 0)]
    (sample_run sample_calls)); [reflexivity|exact (sample_ok 2)| |constructor].
  left. destruct sample_commit as [f' Hr].
  transitivity (f', Ret tt : outcome unit); [exact Hr|]. f_equal.
  change (sample_run sample_calls) with
    (commit sample_cfg sample_ticket sample_expansion (sample_run (take 2 sample_calls))).1.
  by rewrite Hr.
Defined.

(** Losing a worker returns exactly its leases to the pending pool: every
    node it held becomes pending without a lease, all other nodes and every
    depth, sequence number and successor list stay as they were, and the
    result is the number of nodes returned. *)
Theorem worker_lost_requeues cfg roots worker f :
  frontier_ok cfg roots f →
  ∃ f', worker_lost cfg worker f = (f', Ret (count_nodes (held_by worker) (nodes_ f))) ∧
    frontier_ok cfg roots f' ∧ dom (nodes_ f') = dom (nodes_ f) ∧
    (∀ k n, nodes_ f !! k = Some n → ∃ n', nodes_ f' !! k = Some n' ∧
       depth n' = depth n ∧ sequence n' = sequence n ∧ successors n' = successors n ∧
       (held_by worker n = true → phase n = Inflight ∧ phase n' = Pending ∧ ticket n' = None) ∧
       (held_by worker n = false → n' = n)) ∧
    (∀ k n', nodes_ f' !! k = Some n' → held_by worker n' = false).
Proof.
  intros Hok. destruct (worker_lost_ok cfg roots worker f Hok) as (f' & Hr & Hm & _ & Hok').
  exists f'. split; [done|]. split; [done|]. split; [by rewrite Hm, dom_fmap_L|]. split.
  - intros k n Hk. exists (requeue worker n). rewrite Hm, lookup_fmap, Hk. split; [done|].
    pose proof Hok as (_ & Hi & _).
    pose proof (nk_ticket _ _ _ _ (li_node _ _ _ _ Hi _ _ Hk)) as Ht.
    unfold requeue, held_by. destruct (ticket n) as [t|]; [|by repeat split].
    destruct (t_worker t =? worker); [|by repeat split]. destruct Ht as (Hph & _).
    repeat split; done.
  - intros k n'. rewrite Hm, lookup_fmap. destruct (nodes_ f !! k) as [n|]; [|done].
    intros [= <-]. unfold requeue. destruct (held_by worker n) eqn:E; [done|exact E].
Qed.

Lemma worker_lost_requeues_witness :
  ∃ f', worker_lost sample_cfg 7 (sample_run (take 2 sample_calls)) = (f', Ret 1) ∧
    frontier_ok sample_cfg [(1, 0)] f'.
Proof.
  destruct (worker_lost_requeues sample_cfg _ 7 _ (sample_ok 2)) as (f' & Hr & Hok & _).
  exists f'. split; [|exact Hok]. rewrite Hr. f_equal.
Defined.

(** C2. A finished search was exhaustive.  If the workers' reports are
    faithful to the model's successor function: when the status is Complete,
    every state reachable from an admitted root was recorded and either
    expanded or found terminal; when it is Bounded and no state was given up
    for its budget, every state reachable from a root within the depth limit
    was recorded, at no more than its distance, and is expanded, terminal or
    cut at the limit.  While the search runs there is pending or leased
    work. *)
Theorem search_exhaustive succ cfg roots f :
  faithful_run succ cfg roots f →
  match status f with
  | Complete => ∀ r d k l, (r, d) ∈ roots → model_path succ r k l →
      ∃ n, nodes_ f !! k = Some n ∧ (phase n = Expanded ∨ phase n = Terminal)
  | Bounded => (∀ k n, nodes_ f !! k = Some n → phase n ≠ ModelBudget) →
      ∀ r d k l, (r, d) ∈ roots → model_path succ r k l → d + l ≤ limit_ cfg →
      ∃ n, nodes_ f !! k = Some n ∧ depth n ≤ d + l ∧
        (phase n = Expanded ∨ phase n = Terminal ∨ phase n = DepthCut ∧ depth n = limit_ cfg)
  | Running => ∃ k n, nodes_ f !! k = Some n ∧ (phase n = Pending ∨ phase n = Inflight)
  | Failed => ∃ k n, nodes_ f !! k = Some n ∧ phase n = Failure ∧ reason n ≠ EmptyString
  end.
Proof.
  intros [Hok Hf]%faithful_run_ok. pose proof (status_phases _ _ _ Hok) as Hs.
  pose proof Hok as (_ & Hi & _).
  assert (∀ r d, (r, d) ∈ roots → ∃ n, nodes_ f !! r = Some n ∧ depth n ≤ d) as Hroot.
  { intros r d Hr. by destruct (li_root _ _ _ _ Hi r d Hr) as [?|(? & []%elem_of_nil & _)]. }
  assert (∀ u n v, nodes_ f !! u = Some n → phase n = Expanded ∨ phase n = Terminal →
    v ∈ succ u → ∃ nv, nodes_ f !! v = Some nv ∧ depth nv ≤ depth n + 1) as Hstep.
  { intros u n v Hu Hp Hv. destruct (Hf _ _ Hu) as [H1 H2]. destruct Hp as [Hp|Hp].
    - rewrite <- (H1 Hp) in Hv.
      by destruct (li_edge _ _ _ _ Hi _ _ _ Hu Hv) as [?|(? & []%elem_of_nil & _)].
    - rewrite (H2 Hp) in Hv. by apply elem_of_nil in Hv. }
  destruct (status f).
  - destruct Hs as [(k & n & Hk & Ha) _]. exists k, n. split; [done|].
    destruct (phase n); auto; done.
  - intros r d k l Hr Hp.
    assert (∃ n, nodes_ f !! k = Some n) as [n Hk]; [|exists n; eauto].
    induction Hp as [u|u v w n Hp IH Hw]; [destruct (Hroot _ _ Hr) as (n & ? & _); eauto|].
    destruct (IH Hr) as [nv Hnv]. destruct (Hstep _ _ _ Hnv (Hs _ _ Hnv) Hw) as (nw & ? & _). eauto.
  - intros Hbudget r d k l Hr Hp. destruct Hs as [_ Hs].
    assert (∀ j n, nodes_ f !! j = Some n → phase n = Expanded ∨ phase n = Terminal ∨
      phase n = DepthCut ∧ depth n = limit_ cfg) as Hph.
    { intros j n Hj. destruct (Hs _ _ Hj) as [H1 H2]. specialize (Hbudget _ _ Hj).
      pose proof (nk_cut _ _ _ _ (li_node _ _ _ _ Hi _ _ Hj)).
      destruct (phase n); auto; done. }
    intros Hl. enough (∃ n, nodes_ f !! k = Some n ∧ depth n ≤ d + l) as (n & Hk & Hd)
      by (exists n; eauto).
    induction Hp as [u|u v w n Hp IH Hw].
    { destruct (Hroot _ _ Hr) as (n & ? & ?). exists n. split; [done|lia]. }
    destruct IH as (nv & Hnv & Hdv); [done|lia|].
    destruct (Hph _ _ Hnv) as [Hx|[Hx|[_ Hx]]]; [| |lia].
    + destruct (Hstep _ _ _ Hnv (or_introl Hx) Hw) as (nw & ? & ?). exists nw. split; [done|lia].
    + destruct (Hstep _ _ _ Hnv (or_intror Hx) Hw) as (nw & ? & ?). exists nw. split; [done|lia].
  - destruct Hs as (k & n & Hk & Hp). exists k, n. split; [done|]. split; [done|].
    apply (nk_reason _ _ _ _ (li_node _ _ _ _ Hi _ _ Hk)). by right.
Qed.

Lemma search_exhaustive_witness :
  ∃ k n, nodes_ (sample_run sample_calls) !! k = Some n ∧ (phase n = Pending ∨ phase n = Inflight).
Proof.
  destruct (sample_faithful 3) as (roots & Hr & _).
  exact (search_exhaustive sample_succ sample_cfg roots _ Hr).
Defined.

(** C9. No stall: while the status is Running, either some worker holds a
    lease, or the next lease request (as long as lease numbers remain) is
    granted. *)
Theorem search_progress cfg roots worker f :
  search_run cfg roots f → status f = Running → next_lease_ f < UINT64_MAX →
  (∃ k n t, nodes_ f !! k = Some n ∧ phase n = Inflight ∧ ticket n = Some t) ∨
  (∃ f' t, lease cfg worker f = (f', Ret (Some t))).
Proof.
  intros Hok%search_run_ok Hs Hl. pose proof (status_phases _ _ _ Hok) as Hp. rewrite Hs in Hp.
  pose proof Hok as (_ & Hi & _).
  assert (∀ k n, nodes_ f !! k = Some n → phase n = Inflight →
    ∃ k n t, nodes_ f !! k = Some n ∧ phase n = Inflight ∧ ticket n = Some t) as Hheld.
  { intros k n Hk Hph. pose proof (nk_ticket _ _ _ _ (li_node _ _ _ _ Hi _ _ Hk)) as Ht.
    destruct (ticket n) as [t|] eqn:E; [by exists k, n, t|done]. }
  destruct (lease_cases cfg roots worker f Hok)
    as [[_ [Hnone|(_ & k & n & Hk & Hph & _)]]|(key & n & c & Hk & Hph & _ & Hf)].
  - left. destruct Hp as [(k & n & Hk & Ha) _]. specialize (Hnone k n Hk).
    apply (Hheld k n Hk). by destruct (phase n).
  - left. by apply (Hheld k n).
  - right. destruct (finalize_ok cfg roots worker key c f n Hok Hk Hph)
      as [[? _]|(_ & f' & Hr & _)]; [lia|].
    rewrite Hf, Hr. eauto.
Qed.

Lemma search_progress_witness :
  ∃ f' t, lease sample_cfg 8 (sample_run sample_calls) = (f', Ret (Some t)).
Proof.
  destruct (search_progress sample_cfg _ 8 _ (sample_search 3)) as [(k & n & t & Hk & Hp & _)|H].
  - vm_compute. reflexivity.
  - vm_compute. reflexivity.
  - exfalso.
    assert (phase_counts_ (sample_run sample_calls) Inflight = 0) as H0 by reflexivity.
    pose proof (ix_count _ _ _ (li_idx _ _ _ _ (proj1 (proj2 (sample_ok 3)))) Inflight) as Hc.
    change (take 3 sample_calls) with sample_calls in Hc. rewrite H0 in Hc. symmetry in Hc.
    rewrite count_nodes_0 in Hc. specialize (Hc k n Hk). unfold in_phase in Hc.
    by rewrite Hp in Hc.
  - exact H.
Defined.
