(* ===== verification/Bytes.v ===== *)
(** * Byte strings and pathname text

    [std::string] is a list of bytes (embedded NUL bytes included); a
    [std::map] keyed by strings is iterated in lexicographic order of
    unsigned bytes.  The pathname scanning that [src/src/subsys/fs/fsstate.cpp]
    does with [find], [find_last_of] and [substr] is here. *)

From S2P Require Import Prelude.

#[export] Instance byte_countable : Countable byte :=
  inj_countable Byte.to_N Byte.of_N Byte.of_to_N.

Abbreviation str := (list byte).

(** A string literal. *)
Definition lit (s : string) : str := bytes_of_str s.

Definition SLASH : byte := x2f.
Definition NUL : byte := x00.

(** ** Lexicographic order *)

Fixpoint str_le (p q : str) : bool :=
  match p, q with
  | [], _ => true
  | _ :: _, [] => false
  | a :: p', b :: q' =>
      if Z_of_byte a <? Z_of_byte b then true
      else if Z_of_byte b <? Z_of_byte a then false else str_le p' q'
  end.

Lemma Z_of_byte_inj a b : Z_of_byte a = Z_of_byte b → a = b.
Proof. intros H. rewrite <- (byte_of_Z_of_byte a), <- (byte_of_Z_of_byte b). by rewrite H. Qed.

Definition str_order (p q : str) : Prop := str_le p q = true.

#[export] Instance str_order_dec : RelDecision str_order.
Proof. intros p q. unfold str_order. apply _. Defined.

Lemma str_le_refl p : str_le p p = true.
Proof. induction p as [|a p IH]; simpl; [done|]. by rewrite Z.ltb_irrefl. Qed.

Lemma str_le_trans p q r : str_le p q = true → str_le q r = true → str_le p r = true.
Proof.
  revert q r. induction p as [|a p IH]; intros [|b q] [|c r]; simpl; try done.
  destruct (Z.ltb_spec (Z_of_byte a) (Z_of_byte b)), (Z.ltb_spec (Z_of_byte b) (Z_of_byte a)),
    (Z.ltb_spec (Z_of_byte b) (Z_of_byte c)), (Z.ltb_spec (Z_of_byte c) (Z_of_byte b)),
    (Z.ltb_spec (Z_of_byte a) (Z_of_byte c)), (Z.ltb_spec (Z_of_byte c) (Z_of_byte a));
    try done; try lia. apply IH.
Qed.

Lemma str_le_antisym p q : str_le p q = true → str_le q p = true → p = q.
Proof.
  revert q. induction p as [|a p IH]; intros [|b q]; simpl; try done.
  destruct (Z.ltb_spec (Z_of_byte a) (Z_of_byte b)), (Z.ltb_spec (Z_of_byte b) (Z_of_byte a));
    try done; try lia. intros H1 H2. f_equal; [apply Z_of_byte_inj; lia|by apply IH].
Qed.

Lemma str_le_total p q : str_le p q = true ∨ str_le q p = true.
Proof.
  revert q. induction p as [|a p IH]; intros [|b q]; simpl; auto.
  destruct (Z.ltb_spec (Z_of_byte a) (Z_of_byte b)), (Z.ltb_spec (Z_of_byte b) (Z_of_byte a)); auto.
Qed.

#[export] Instance str_order_total : TotalOrder str_order.
Proof.
  unfold str_order. split; [split; [split|]|].
  - intros p. apply str_le_refl.
  - intros p q r. apply str_le_trans.
  - intros p q. apply str_le_antisym.
  - intros p q. destruct (decide (p = q)) as [->|Hne]; [auto|].
    unfold strict. destruct (str_le_total p q) as [H|H]; [left|right; right]; split; try done;
      intros H'; apply Hne; by apply str_le_antisym.
Qed.

#[export] Instance str_key_order : KeyOrder str := {| key_le := str_order |}.

(** ** Scanning *)

Definition contains_nul (s : str) : bool := bool_decide (NUL ∈ s).

Definition ends_with_slash (s : str) : bool :=
  match last s with Some c => bool_decide (c = SLASH) | None => false end.

Definition starts_with_slash (s : str) : bool :=
  match s with c :: _ => bool_decide (c = SLASH) | [] => false end.

(** [s.find_last_of('/')], [None] for [npos]. *)
Fixpoint find_last_slash (s : str) : option nat :=
  match s with
  | [] => None
  | c :: s' =>
      match find_last_slash s' with
      | Some i => Some (S i)
      | None => if bool_decide (c = SLASH) then Some O else None
      end
  end.

(** [slash == 0 ? "/" : s.substr(0, slash)], with [substr(0, npos)] the whole. *)
Definition parent_text (s : str) : str :=
  match find_last_slash s with
  | Some O => [SLASH]
  | Some i => take i s
  | None => s
  end.

(** The text between slashes, empty fields included. *)
Fixpoint split_slash (s : str) : list str :=
  match s with
  | [] => [[]]
  | c :: s' =>
      if bool_decide (c = SLASH) then [] :: split_slash s'
      else match split_slash s' with
           | w :: ws => (c :: w) :: ws
           | [] => [[c]]
           end
  end.

(** What the scanning loops collect: the non-empty fields, in order. *)
Definition components (s : str) : list str := filter (λ w, w ≠ []) (split_slash s).

Definition join_paths (base rel : str) : str :=
  match rel with
  | [] => base
  | c :: _ =>
      if bool_decide (c = SLASH) then rel
      else if bool_decide (base = []) || bool_decide (base = [SLASH]) then SLASH :: rel
      else (if ends_with_slash base then base else base ++ [SLASH]) ++ rel
  end.

(** Components put back together behind a leading slash. *)
Fixpoint intercalate_slash (ws : list str) : str :=
  match ws with
  | [] => []
  | [w] => w
  | w :: ws' => w ++ SLASH :: intercalate_slash ws'
  end.

Definition render (ws : list str) : str := SLASH :: intercalate_slash ws.

(** ** Canonical paths *)

Definition DOT : str := lit ".".
Definition DOTDOT : str := lit "..".

(** A name that survives scanning unchanged. *)
Definition name_ok (w : str) : Prop := w ≠ [] ∧ SLASH ∉ w.
Definition plain_name (w : str) : Prop := name_ok w ∧ w ≠ DOT ∧ w ≠ DOTDOT.

#[export] Instance name_ok_dec w : Decision (name_ok w).
Proof. unfold name_ok. apply _. Defined.
#[export] Instance plain_name_dec w : Decision (plain_name w).
Proof. unfold plain_name. apply _. Defined.

Definition canonical (p : str) : Prop := ∃ ws, Forall plain_name ws ∧ p = render ws.

Lemma split_slash_nonnil s : split_slash s ≠ [].
Proof. destruct s as [|c s]; simpl; [done|]. case_bool_decide; [done|]. by destruct (split_slash s). Qed.

Lemma split_slash_no_slash s w : w ∈ split_slash s → SLASH ∉ w.
Proof.
  revert w. induction s as [|c s IH]; simpl; intros w.
  - intros ->%list_elem_of_singleton. apply not_elem_of_nil.
  - case_bool_decide as Hc.
    + intros [->|Hw]%elem_of_cons; [apply not_elem_of_nil|by apply IH].
    + destruct (split_slash s) as [|v vs]; [intros ->%list_elem_of_singleton; set_solver|].
      intros [->|Hw]%elem_of_cons; [|apply IH; by right].
      rewrite not_elem_of_cons. split; [done|]. apply IH. left.
Qed.

Lemma components_ok s : Forall name_ok (components s).
Proof.
  apply Forall_forall. intros w [Hne Hw]%list_elem_of_filter. split; [done|].
  by eapply split_slash_no_slash.
Qed.

Lemma split_slash_word w s :
  SLASH ∉ w → split_slash (w ++ SLASH :: s) = w :: split_slash s.
Proof.
  induction w as [|c w IH]; simpl.
  - done.
  - rewrite not_elem_of_cons. intros [Hc Hw]. rewrite bool_decide_false by congruence.
    by rewrite IH.
Qed.

Lemma split_slash_last w : SLASH ∉ w → split_slash w = [w].
Proof.
  induction w as [|c w IH]; simpl; [done|].
  rewrite not_elem_of_cons. intros [Hc Hw]. rewrite bool_decide_false by congruence.
  by rewrite IH.
Qed.

Lemma components_intercalate ws : Forall name_ok ws → components (intercalate_slash ws) = ws.
Proof.
  unfold components. induction ws as [|w ws IH]; intros Hws; [done|].
  apply Forall_cons in Hws as [[Hne Hs] Hws]. destruct ws as [|v ws].
  - cbn [intercalate_slash]. rewrite split_slash_last by done.
    rewrite filter_cons_True by done. done.
  - cbn [intercalate_slash]. rewrite split_slash_word by done.
    rewrite filter_cons_True by done. f_equal. by apply IH.
Qed.

Lemma components_render ws : Forall name_ok ws → components (render ws) = ws.
Proof.
  intros Hws. unfold render, components. cbn [split_slash].
  rewrite bool_decide_true by done. rewrite filter_cons_False by tauto.
  by apply components_intercalate.
Qed.

Lemma plain_name_ok ws : Forall plain_name ws → Forall name_ok ws.
Proof. intros H. eapply Forall_impl; [exact H|]. by intros w [? _]. Qed.

Lemma intercalate_snoc ws w :
  ws ≠ [] → intercalate_slash (ws ++ [w]) = intercalate_slash ws ++ SLASH :: w.
Proof.
  induction ws as [|v ws IH]; [done|]. intros _. destruct ws as [|u ws]; [done|].
  change (intercalate_slash ((v :: u :: ws) ++ [w]))
    with (v ++ SLASH :: intercalate_slash ((u :: ws) ++ [w])).
  rewrite IH by done. cbn [intercalate_slash]. by rewrite <- app_assoc.
Qed.

Lemma find_last_slash_None s : SLASH ∉ s → find_last_slash s = None.
Proof.
  induction s as [|c s IH]; simpl; [done|].
  rewrite not_elem_of_cons. intros [Hc Hs]. rewrite IH by done.
  by rewrite bool_decide_false by congruence.
Qed.

Lemma find_last_slash_app s w :
  SLASH ∉ w → find_last_slash (s ++ SLASH :: w) = Some (length s).
Proof.
  intros Hw. induction s as [|c s IH]; simpl; [|by rewrite IH].
  by rewrite find_last_slash_None by done.
Qed.

Lemma parent_text_app s w :
  SLASH ∉ w → parent_text (s ++ SLASH :: w) = if decide (s = []) then [SLASH] else s.
Proof.
  intros Hw. unfold parent_text. rewrite find_last_slash_app by done.
  destruct s as [|c s]; [done|]. rewrite decide_False by done. cbn [length].
  by rewrite (take_app_length' (c :: s)).
Qed.

Lemma intercalate_nil ws : Forall name_ok ws → intercalate_slash ws = [] ↔ ws = [].
Proof.
  intros Hws. destruct ws as [|w [|v ws]]; simpl; [done|..];
    apply Forall_cons in Hws as [[Hne _] _]; destruct w; done.
Qed.

Lemma parent_render ws w :
  Forall name_ok ws → name_ok w → parent_text (render (ws ++ [w])) = render ws.
Proof.
  intros Hws [_ Hw]. unfold render. destruct (decide (ws = [])) as [->|Hne].
  - simpl. change (SLASH :: w) with ([] ++ SLASH :: w). by rewrite parent_text_app.
  - rewrite intercalate_snoc by done.
    change (SLASH :: intercalate_slash ws ++ SLASH :: w)
      with ((SLASH :: intercalate_slash ws) ++ SLASH :: w).
    by rewrite parent_text_app, decide_False by done.
Qed.

Lemma parent_root : parent_text [SLASH] = [SLASH].
Proof. done. Qed.

Lemma intercalate_last_slash ws :
  Forall name_ok ws → ends_with_slash (intercalate_slash ws) = false.
Proof.
  intros Hws. unfold ends_with_slash. destruct ws as [|w ws] using rev_ind; [done|].
  apply Forall_app in Hws as [_ Hw]. apply Forall_singleton in Hw as [Hne Hs].
  destruct (exists_last Hne) as (w0 & c & ->).
  assert (last (intercalate_slash (ws ++ [w0 ++ [c]])) = Some c) as ->.
  { destruct (decide (ws = [])) as [->|Hn]; [apply last_snoc|].
    rewrite intercalate_snoc, app_comm_cons, app_assoc by done. apply last_snoc. }
  apply bool_decide_false. intros ->. apply Hs. apply elem_of_app. right. left.
Qed.

Lemma join_render ws w :
  Forall name_ok ws → name_ok w → join_paths (render ws) w = render (ws ++ [w]).
Proof.
  intros Hws [Hne Hw]. unfold join_paths. destruct w as [|c w]; [done|].
  rewrite not_elem_of_cons in Hw. destruct Hw as [Hc Hw].
  rewrite bool_decide_false by congruence. rewrite (bool_decide_false (render ws = [])) by done.
  cbn [orb]. destruct (decide (ws = [])) as [->|Hn]; [by rewrite bool_decide_true|].
  rewrite bool_decide_false.
  2:{ unfold render. intros [= H]. by apply intercalate_nil in H. }
  assert (ends_with_slash (render ws) = false) as ->.
  { pose proof (intercalate_last_slash ws Hws) as H. unfold ends_with_slash, render in *.
    destruct (intercalate_slash ws) eqn:E; [by apply intercalate_nil in E|exact H]. }
  unfold render. rewrite intercalate_snoc by done. by rewrite <- app_assoc.
Qed.

Lemma canonical_root : canonical [SLASH].
Proof. exists []. split; [constructor|done]. Qed.

Lemma canonical_join p w : canonical p → plain_name w → canonical (join_paths p w).
Proof.
  intros (ws & Hws & ->) Hw. exists (ws ++ [w]). split; [by apply Forall_app_2; [|constructor]|].
  apply join_render; [by apply plain_name_ok|apply Hw].
Qed.

Lemma canonical_parent p : canonical p → canonical (parent_text p).
Proof.
  intros (ws & Hws & ->). destruct ws as [|w ws _] using rev_ind; [apply canonical_root|].
  apply Forall_app in Hws as [Hws Hw]. apply Forall_cons in Hw as [Hw _].
  exists ws. split; [done|]. apply parent_render; [by apply plain_name_ok|apply Hw].
Qed.

Lemma parent_join p w : canonical p → plain_name w → parent_text (join_paths p w) = p.
Proof.
  intros (ws & Hws & ->) [Hw _]. rewrite join_render by (done || by apply plain_name_ok).
  by apply parent_render; [apply plain_name_ok|].
Qed.

#[export] Hint Resolve canonical_root canonical_join canonical_parent : detsim.
