(* ===== verification/Guest.v ===== *)
(** * Guest memory

    [src/src/core/guest.cpp]: exact transfers to and from the traced
    process.  The kernel's [process_vm_readv]/[process_vm_writev] are a
    parameter, the class [ProcessVm]; its laws are the documented behaviour
    the emulator relies on.  A call that is interrupted ([EINTR]) is retried
    by the source until it is not; the class describes the call that counts. *)

From S2P Require Import Prelude Linux Bytes.

(** [vm_readv m a n]: [None] for an error, otherwise the bytes transferred
    (possibly fewer than [n]).  [vm_writev] also gives the memory left. *)
Class ProcessVm (Mem : Type) := {
  vm_readv : Mem → Z → Z → option (list byte);
  vm_writev : Mem → Z → list byte → Mem * option Z;
  vm_readv_length m a n bs :
    0 ≤ n → vm_readv m a n = Some bs → zlength bs ≤ n;
  vm_writev_length m m' a bs k :
    vm_writev m a bs = (m', Some k) → 0 ≤ k ≤ zlength bs;
  vm_writev_read m m' a bs :
    vm_writev m a bs = (m', Some (zlength bs)) → vm_readv m' a (zlength bs) = Some bs;
  vm_writev_frame m m' a bs r b n :
    vm_writev m a bs = (m', r) → b + n ≤ a ∨ a + zlength bs ≤ b →
    vm_readv m' b n = vm_readv m b n;
}.

(** ** Little-endian scalars *)

Fixpoint le_bytes (n : nat) (z : Z) : list byte :=
  match n with
  | O => []
  | S n' => byte_of_Z z :: le_bytes n' (z / 256)
  end.

Fixpoint le_Z (bs : list byte) : Z :=
  match bs with
  | [] => 0
  | b :: bs' => Z_of_byte b + 256 * le_Z bs'
  end.

Lemma length_le_bytes n z : length (le_bytes n z) = n.
Proof. revert z. induction n as [|n IH]; intros z; simpl; [done|]. by rewrite IH. Qed.

Lemma zlength_le_bytes n z : zlength (le_bytes n z) = Z.of_nat n.
Proof. unfold zlength. by rewrite length_le_bytes. Qed.

Lemma le_Z_bytes n z : le_Z (le_bytes n z) = z mod 256 ^ Z.of_nat n.
Proof.
  revert z. induction n as [|n IH]; intros z; cbn [le_bytes le_Z].
  - by rewrite Z.pow_0_r, Z.mod_1_r.
  - rewrite IH, Z_of_byte_of_Z. unfold uint8.
    rewrite Nat2Z.inj_succ, Z.pow_succ_r by lia.
    by rewrite Z.rem_mul_r by lia.
Qed.

Section guest.
Context {Mem : Type} `{!ProcessVm Mem}.
Implicit Types m : Mem.

(** The argument checks of [guest_transfer_exact]; process ids of live
    tracees are positive and host buffers are never null. *)
Definition transfer_ok (guest size : Z) : bool :=
  negb (guest =? 0) && (size <=? SSIZE_MAX) && (size <=? UINTPTR_MAX - guest).

Definition guest_read_exact m (guest size : Z) : option (list byte) :=
  if size =? 0 then Some []
  else if negb (transfer_ok guest size) then None
  else match vm_readv m guest size with
       | Some bs => if zlength bs =? size then Some bs else None
       | None => None
       end.

Definition guest_write_exact m (guest : Z) (bs : list byte) : Mem * bool :=
  if zlength bs =? 0 then (m, true)
  else if negb (transfer_ok guest (zlength bs)) then (m, false)
  else match vm_writev m guest bs with
       | (m', Some k) => (m', k =? zlength bs)
       | (m', None) => (m', false)
       end.

Lemma guest_read_exact_length m a n bs :
  0 ≤ n → guest_read_exact m a n = Some bs → zlength bs = n.
Proof.
  unfold guest_read_exact. intros Hn. destruct (Z.eqb_spec n 0) as [->|]; [by intros [= <-]|].
  destruct (negb _); [done|]. destruct (vm_readv m a n) as [bs'|]; [|done].
  destruct (Z.eqb_spec (zlength bs') n); [|done]. by intros [= <-].
Qed.

(** What was written exactly is what an exact read returns. *)
Lemma guest_write_read m a bs m' :
  guest_write_exact m a bs = (m', true) → guest_read_exact m' a (zlength bs) = Some bs.
Proof.
  unfold guest_write_exact, guest_read_exact.
  destruct (Z.eqb_spec (zlength bs) 0) as [H0|H0].
  { intros [= <-]. unfold zlength in H0. by destruct bs. }
  destruct (negb _); [done|]. destruct (vm_writev m a bs) as [m1 [k|]] eqn:E; [|done].
  intros [= <- ->%Z.eqb_eq]. rewrite (vm_writev_read _ _ _ _ E). by rewrite Z.eqb_refl.
Qed.

Lemma guest_write_frame m a bs m' ok b n :
  guest_write_exact m a bs = (m', ok) → b + n ≤ a ∨ a + zlength bs ≤ b →
  guest_read_exact m' b n = guest_read_exact m b n.
Proof.
  unfold guest_write_exact, guest_read_exact. intros Hw Hd.
  destruct (zlength bs =? 0); [by injection Hw as <- <-|].
  destruct (negb _); [by injection Hw as <- <-|].
  destruct (vm_writev m a bs) as [m1 r] eqn:E.
  assert (m1 = m') as -> by (destruct r; congruence).
  by rewrite (vm_writev_frame _ _ _ _ _ b n E) by done.
Qed.

(** [read_guest_string] of [fsstate.cpp]: the bytes up to the first NUL, one
    exact read at a time; at most 4096 of them. *)
Fixpoint read_string_loop (n : nat) m (addr : Z) (result : str) : Z + str :=
  match n with
  | O => inl (- ENAMETOOLONG)
  | S n' =>
      match guest_read_exact m addr 1 with
      | Some [ch] =>
          if bool_decide (ch = NUL) then inr result
          else read_string_loop n' m (addr + 1) (result ++ [ch])
      | _ => inl (- EFAULT)
      end
  end.

Definition read_guest_string m (guest_addr : Z) : Z + str :=
  if guest_addr =? 0 then inl (- EFAULT)
  else read_string_loop (Z.to_nat 4096) m guest_addr [].

(** A pathname that was read holds no NUL and fits the limit. *)
Lemma read_string_loop_ok n m a acc s :
  read_string_loop n m a acc = inr s →
  (NUL ∉ acc) → (NUL ∉ s) ∧ zlength s < zlength acc + Z.of_nat n.
Proof.
  revert a acc. induction n as [|n IH]; intros a acc; cbn [read_string_loop]; [done|].
  destruct (guest_read_exact m a 1) as [[|ch [|]]|]; try done.
  case_bool_decide as Hc; [intros [= <-] ?; split; [done|lia]|].
  intros H Ha. apply IH in H.
  - rewrite zlength_app in H. change (zlength [ch]) with 1 in H. split; [tauto|lia].
  - rewrite not_elem_of_app, not_elem_of_cons. split; [done|]. split; [congruence|apply not_elem_of_nil].
Qed.

Lemma read_guest_string_ok m a s :
  read_guest_string m a = inr s → (NUL ∉ s) ∧ zlength s < 4096.
Proof.
  unfold read_guest_string. destruct (a =? 0); [done|]. intros H.
  apply read_string_loop_ok in H; [done|apply not_elem_of_nil].
Qed.
End guest.

(** ** A flat memory

    One byte per mapped address; a transfer stops at the first address that
    is not mapped, as the kernel's does. *)

Abbreviation FlatMem := (gmap Z byte).

Fixpoint flat_read (m : FlatMem) (a : Z) (n : nat) : list byte :=
  match n with
  | O => []
  | S n' => match m !! a with Some b => b :: flat_read m (a + 1) n' | None => [] end
  end.

Fixpoint flat_write (m : FlatMem) (a : Z) (bs : list byte) : FlatMem * Z :=
  match bs with
  | [] => (m, 0)
  | b :: bs' =>
      match m !! a with
      | Some _ => let '(m', k) := flat_write (<[a := b]> m) (a + 1) bs' in (m', k + 1)
      | None => (m, 0)
      end
  end.

Lemma flat_read_length m a n : (length (flat_read m a n) ≤ n)%nat.
Proof.
  revert a. induction n as [|n IH]; intros a; simpl; [done|].
  destruct (m !! a); simpl; [specialize (IH (a + 1))|]; lia.
Qed.

Lemma flat_write_outside m a bs j :
  j < a ∨ a + zlength bs ≤ j → (flat_write m a bs).1 !! j = m !! j.
Proof.
  revert m a. induction bs as [|b bs IH]; intros m a; simpl; [done|]. rewrite zlength_cons.
  intros Hj. destruct (m !! a); [|done].
  specialize (IH (<[a := b]> m) (a + 1)). destruct (flat_write _ _ bs) as [m' k]. simpl in *.
  rewrite IH by lia. apply lookup_insert_ne. pose proof (zlength_nonneg bs). lia.
Qed.

Lemma flat_write_count m a bs : 0 ≤ (flat_write m a bs).2 ≤ zlength bs.
Proof.
  revert m a. induction bs as [|b bs IH]; intros m a; [done|]. rewrite zlength_cons.
  cbn [flat_write]. pose proof (zlength_nonneg bs). destruct (m !! a); [|simpl; lia].
  specialize (IH (<[a := b]> m) (a + 1)). destruct (flat_write _ _ bs). simpl in *. lia.
Qed.

Lemma flat_write_read m a bs :
  (flat_write m a bs).2 = zlength bs →
  flat_read (flat_write m a bs).1 a (length bs) = bs.
Proof.
  revert m a. induction bs as [|b bs IH]; intros m a; [done|].
  rewrite zlength_cons. cbn [flat_write]. pose proof (zlength_nonneg bs).
  destruct (m !! a) as [b0|]; [|simpl; lia].
  specialize (IH (<[a := b]> m) (a + 1)).
  pose proof (flat_write_outside (<[a := b]> m) (a + 1) bs a ltac:(lia)) as Ha.
  rewrite lookup_insert_eq in Ha.
  destruct (flat_write _ _ bs) as [m' k]. simpl in *. intros Hk. rewrite Ha. f_equal. apply IH. lia.
Qed.

Lemma flat_read_ext m m' a n :
  (∀ j, a ≤ j < a + Z.of_nat n → m' !! j = m !! j) → flat_read m' a n = flat_read m a n.
Proof.
  revert a. induction n as [|n IH]; intros a H; simpl; [done|].
  rewrite H by lia. destruct (m !! a); [|done]. f_equal. apply IH. intros j Hj. apply H. lia.
Qed.

#[export] Program Instance flat_vm : ProcessVm FlatMem := {|
  vm_readv m a n := Some (flat_read m a (Z.to_nat n));
  vm_writev m a bs := let '(m', k) := flat_write m a bs in (m', Some k);
|}.
Next Obligation.
  intros m a n bs Hn [= <-]. unfold zlength. pose proof (flat_read_length m a (Z.to_nat n)). lia.
Qed.
Next Obligation.
  intros m m' a bs k. simpl. pose proof (flat_write_count m a bs).
  destruct (flat_write m a bs). intros [= <- <-]. done.
Qed.
Next Obligation.
  intros m m' a bs. simpl. pose proof (flat_write_read m a bs) as Hr.
  destruct (flat_write m a bs) as [m1 k]. intros [= <- ->]. simpl in *.
  unfold zlength. rewrite Nat2Z.id. f_equal. by apply Hr.
Qed.
Next Obligation.
  intros m m' a bs r b n. simpl. pose proof (flat_write_outside m a bs) as Ho.
  destruct (flat_write m a bs) as [m1 k]. intros [= <- <-] Hd. f_equal. simpl in *.
  apply flat_read_ext. intros j Hj. apply Ho. lia.
Qed.

(** A region of zeroed memory, for examples. *)
Fixpoint zero_region (a : Z) (n : nat) : FlatMem :=
  match n with O => ∅ | S n' => <[a := x00]> (zero_region (a + 1) n') end.
