(* ===== verification/Vfs.v ===== *)
(** * The virtual file system: state and pathname resolution

    [src/src/subsys/fs/fsstate.h] and the pathname half of [fsstate.cpp],
    in the default build (without [FSSTATE_DETAILED_METADATA]).

    A [FileContent] is the list of its bytes: its payload is shared between
    copies but never mutated while shared, so it has value semantics. *)

From S2P Require Import Prelude Linux Bytes FdInterface FdManager Guest.

Record timespec := mkTimespec { tv_sec : Z; tv_nsec : Z }.

#[export] Instance timespec_eq_dec : EqDecision timespec.
Proof. solve_decision. Defined.

(** The minimal metadata; [st_ino = 0] marks the initial path-derived inode. *)
Record Metadata := mkMetadata {
  st_size : Z;
  st_mode : Z;
  st_ino : Z;
  st_mtim : timespec;
}.

#[export] Instance Metadata_eq_dec : EqDecision Metadata.
Proof. solve_decision. Defined.

Record VFSNode := mkVFSNode { content : list byte; metadata : Metadata }.

#[export] Instance VFSNode_eq_dec : EqDecision VFSNode.
Proof. solve_decision. Defined.

Record OpenFileDescription := mkOFD { path : str; offset : Z }.

#[export] Instance OFD_eq_dec : EqDecision OpenFileDescription.
Proof. solve_decision. Defined.

Record Pipe := mkPipe { buffer : list byte; read_closed : bool; write_closed : bool }.

#[export] Instance Pipe_eq_dec : EqDecision Pipe.
Proof. solve_decision. Defined.

Record FileSystemState := mkFS {
  filesystem : gmap str VFSNode;
  open_files : gmap Z OpenFileDescription;
  virtual_file_mappings : gmap Z Z;
  virtual_file_mapping_sources : gmap Z (Z * str);
  cwd : str;
  mappings : list (str * str);
  creation_mask_ : Z;
  next_inode_ : Z;
  pipes_ : gmap Z Pipe;
  pipe_fds_ : gmap Z Z;
}.

#[export] Instance FileSystemState_eq_dec : EqDecision FileSystemState.
Proof. solve_decision. Defined.

(** The file system with the descriptor table it shares with the sockets;
    [fd_manager_] may be null. *)
Record FsCtx (FD : Type) := mkFsCtx { fdm : option FD; fss : FileSystemState }.
#[global] Arguments mkFsCtx {FD} fdm fss.
#[global] Arguments fdm {FD} f.
#[global] Arguments fss {FD} f.

Definition set_filesystem (m : gmap str VFSNode) (s : FileSystemState) : FileSystemState :=
  mkFS m (open_files s) (virtual_file_mappings s) (virtual_file_mapping_sources s)
    (cwd s) (mappings s) (creation_mask_ s) (next_inode_ s) (pipes_ s) (pipe_fds_ s).
Definition set_open_files (m : gmap Z OpenFileDescription) (s : FileSystemState) : FileSystemState :=
  mkFS (filesystem s) m (virtual_file_mappings s) (virtual_file_mapping_sources s)
    (cwd s) (mappings s) (creation_mask_ s) (next_inode_ s) (pipes_ s) (pipe_fds_ s).
Definition set_mapping_tables (cover : gmap Z Z) (src : gmap Z (Z * str)) (s : FileSystemState)
    : FileSystemState :=
  mkFS (filesystem s) (open_files s) cover src
    (cwd s) (mappings s) (creation_mask_ s) (next_inode_ s) (pipes_ s) (pipe_fds_ s).
Definition set_cwd_field (p : str) (s : FileSystemState) : FileSystemState :=
  mkFS (filesystem s) (open_files s) (virtual_file_mappings s) (virtual_file_mapping_sources s)
    p (mappings s) (creation_mask_ s) (next_inode_ s) (pipes_ s) (pipe_fds_ s).
Definition set_next_inode (i : Z) (s : FileSystemState) : FileSystemState :=
  mkFS (filesystem s) (open_files s) (virtual_file_mappings s) (virtual_file_mapping_sources s)
    (cwd s) (mappings s) (creation_mask_ s) i (pipes_ s) (pipe_fds_ s).
Definition set_pipe_tables (p : gmap Z Pipe) (q : gmap Z Z) (s : FileSystemState)
    : FileSystemState :=
  mkFS (filesystem s) (open_files s) (virtual_file_mappings s) (virtual_file_mapping_sources s)
    (cwd s) (mappings s) (creation_mask_ s) (next_inode_ s) p q.

(** [set_creation_mask] *)
Definition set_creation_mask (mask : Z) (s : FileSystemState) : FileSystemState :=
  mkFS (filesystem s) (open_files s) (virtual_file_mappings s) (virtual_file_mapping_sources s)
    (cwd s) (mappings s) (Z.land mask 511) (next_inode_ s) (pipes_ s) (pipe_fds_ s).

Definition set_mtim (t : timespec) (n : VFSNode) : VFSNode :=
  mkVFSNode (content n)
    (mkMetadata (st_size (metadata n)) (st_mode (metadata n)) (st_ino (metadata n)) t).
Definition set_content (c : list byte) (size : Z) (t : timespec) (n : VFSNode) : VFSNode :=
  mkVFSNode c (mkMetadata size (st_mode (metadata n)) (st_ino (metadata n)) t).
Definition set_ino (i : Z) (n : VFSNode) : VFSNode :=
  mkVFSNode (content n)
    (mkMetadata (st_size (metadata n)) (st_mode (metadata n)) i (st_mtim (metadata n))).

(** [modeled_fs_time]: the virtual clock of the scheduled node, if one is. *)
Definition modeled_fs_time (clock : option (Z * Z)) : timespec :=
  match clock with
  | Some (sec, usec) => mkTimespec sec (usec * 1000)
  | None => mkTimespec 0 0
  end.

(** ** File contents *)

Definition zeros (n : Z) : list byte := replicate (Z.to_nat n) x00.

(** [std::vector::resize] *)
Definition resize (size : Z) (c : list byte) : list byte :=
  take (Z.to_nat size) c ++ zeros (size - zlength c).

(** [memcpy] into a buffer that is long enough *)
Definition overwrite (off : Z) (src c : list byte) : list byte :=
  take (Z.to_nat off) c ++ src ++ drop (Z.to_nat (off + zlength src)) c.

(** [FileContent::write] *)
Definition file_content_write (off : Z) (src c : list byte) : outcome (list byte) :=
  let count := zlength src in
  if count =? 0 then Ret c
  else if SIZE_MAX - off <? count
  then Throw (length_error "Virtual file write extent overflow")
  else
    let c := if zlength c <? off + count then resize (off + count) c else c in
    Ret (overwrite off src c).

(** ** Construction *)

Definition ROOT : str := [SLASH].

Definition new_directory : VFSNode :=
  mkVFSNode [] (mkMetadata 0 (Z.lor S_IFDIR 493) 0 (mkTimespec 0 0)).

(** [ensure_dir_exists]: the ancestors first; the recursion is on the length
    of the text. *)
Fixpoint ensure_dir_loop (fuel : nat) (p : str) : M FileSystemState unit :=
  match fuel with
  | O => throw (runtime_error "ensure_dir_exists: out of fuel")
  | S fuel =>
      match find_last_slash p with
      | Some (S i) => ensure_dir_loop fuel (take (S i) p)
      | _ => if bool_decide (p = ROOT) then mret tt else ensure_dir_loop fuel ROOT
      end;;
      s ← get;
      match filesystem s !! p with
      | Some existing =>
          throw_if (negb (S_ISDIR (st_mode (metadata existing))))
            (runtime_error "VFS ancestor is not a directory")
      | None => put (set_filesystem (<[p := new_directory]> (filesystem s)) s)
      end
  end.

Definition ensure_dir_exists (p : str) : M FileSystemState unit :=
  ensure_dir_loop (length p + 2) p.

Definition stdio_path (fd : Z) : str :=
  NUL :: lit "stdio" ++ [byte_of_Z (48 + fd)].

Definition stdio_node : VFSNode :=
  mkVFSNode [] (mkMetadata 0 (Z.lor S_IFCHR 384) 0 (mkTimespec 0 0)).

(** [FileSystemState::FileSystemState()] *)
Definition FileSystemState_init : FileSystemState :=
  mkFS (list_to_map [(ROOT, new_directory); (stdio_path 0, stdio_node);
                     (stdio_path 1, stdio_node); (stdio_path 2, stdio_node)])
    (list_to_map [(0, mkOFD (stdio_path 0) 0); (1, mkOFD (stdio_path 1) 0);
                  (2, mkOFD (stdio_path 2) 0)])
    ∅ ∅ [] [] 18 1 ∅ ∅.

Definition set_cwd (p : str) (s : FileSystemState) : FileSystemState :=
  set_cwd_field
    (match p with
     | [] => ROOT
     | _ => if starts_with_slash p then p else join_paths (cwd s) p
     end) s.

Definition effective_cwd (s : FileSystemState) : str :=
  if bool_decide (cwd s = []) then ROOT else cwd s.

(** ** Lexical resolution *)

Definition collapse_step (parts : list str) (part : str) : list str :=
  if bool_decide (part = DOT) then parts
  else if bool_decide (part = DOTDOT) then take (length parts - 1) parts
  else parts ++ [part].

Definition collapse (s : str) : str := render (foldl collapse_step [] (components s)).

(** [FileSystemState::resolve_path] *)
Definition resolve_path (s : FileSystemState) (dirfd : Z) (p : str) : outcome str :=
  base ← (if starts_with_slash p then Ret []
          else if dirfd =? AT_FDCWD then Ret (effective_cwd s)
          else match open_files s !! dirfd with
               | Some d => Ret (path d)
               | None => Throw (out_of_range "map::at")
               end);
  Ret (collapse (join_paths base p)).

(** ** The checked walk *)

Section walk.
Context {FD : Type} `{!DescriptorNamespace FD}.

Definition kernel_allocated (k : FsCtx FD) (fd : Z) : bool :=
  match fdm k with Some t => is_allocated t fd | None => false end.

(** The lambda [prepend]: what is put in front of [pending]. *)
Definition prepend (value : str) (pending : list str) : list str :=
  components value ++
  (if ends_with_slash value && bool_decide (pending = []) then [[]] else []) ++ pending.

Inductive walk_result :=
  | WalkOk (result : str)
  | WalkErr (error : Z).

Definition is_link (n : VFSNode) : bool := S_ISLNK (st_mode (metadata n)).
Definition is_dir (n : VFSNode) : bool := S_ISDIR (st_mode (metadata n)).
Definition is_reg (n : VFSNode) : bool := S_ISREG (st_mode (metadata n)).

(** The test that ends [open(O_CREAT)] on a name followed by a slash. *)
Definition creating_slash (creating : bool) (pending : list str) : bool :=
  creating && bool_decide (length pending = 2%nat) && bool_decide (last pending = Some []).

(** The loop of [resolve_path_checked]; [None] is out of fuel. *)
Fixpoint walk (fuel : nat) (fs : gmap str VFSNode) (follow_final check_search creating : bool)
    (links : Z) (current : str) (pending : list str) : option (outcome walk_result) :=
  match fuel with
  | O => None
  | S fuel =>
      match pending with
      | [] => Some (Ret (WalkOk current))
      | part :: rest =>
          match fs !! current with
          | None => Some (Ret (WalkErr (- ENOENT)))
          | Some parent =>
              if negb (is_dir parent) then Some (Ret (WalkErr (- ENOTDIR)))
              else if check_search && negb (Z.land (st_mode (metadata parent)) 73 =? 73)
              then Some (Throw (runtime_error "VFS search permission requires captured credentials"))
              else if creating_slash creating pending then Some (Ret (WalkErr (- EISDIR)))
              else if NAME_MAX <? zlength part then Some (Ret (WalkErr (- ENAMETOOLONG)))
              else if bool_decide (part = []) || bool_decide (part = DOT)
              then walk fuel fs follow_final check_search creating links current rest
              else if bool_decide (part = DOTDOT)
              then walk fuel fs follow_final check_search creating links (parent_text current) rest
              else
                let next := join_paths current part in
                match fs !! next with
                | Some node =>
                    if is_link node && (negb (bool_decide (rest = [])) || follow_final) then
                      if 40 <? links + 1 then Some (Ret (WalkErr (- ELOOP)))
                      else
                        let target := content node in
                        if bool_decide (target = []) then Some (Ret (WalkErr (- ENOENT)))
                        else if contains_nul target
                        then Some (Throw (runtime_error "Captured symlink contains a null byte"))
                        else
                          walk fuel fs follow_final check_search creating (links + 1)
                            (if starts_with_slash target then ROOT else current)
                            (prepend target rest)
                    else walk fuel fs follow_final check_search creating links next rest
                | None => walk fuel fs follow_final check_search creating links next rest
                end
          end
      end
  end.

(** The longest symlink text bounds what one link can prepend. *)
Definition longest_content (fs : gmap str VFSNode) : nat :=
  map_fold (λ _ n acc, Nat.max (length (content n)) acc) O fs.

(** At most 40 links are followed, each adding at most its length plus one. *)
Definition walk_fuel (fs : gmap str VFSNode) (pending : list str) : nat :=
  S (length pending + 40 * (longest_content fs + 1)).

(** [FileSystemState::resolve_path_checked] *)
Definition resolve_path_checked (k : FsCtx FD) (dirfd : Z) (p : str)
    (follow_final check_search creating : bool) : outcome walk_result :=
  let s := fss k in
  if bool_decide (p = []) then Ret (WalkErr (- ENOENT))
  else
    let start :=
      if starts_with_slash p then Ret (inr ROOT)
      else if dirfd =? AT_FDCWD then Ret (inr (effective_cwd s))
      else if negb (kernel_allocated k dirfd) then Ret (inl (- EBADF))
      else match open_files s !! dirfd with
           | None => Ret (inl (- ENOTDIR))
           | Some d =>
               match filesystem s !! path d with
               | None => Throw (runtime_error "Directory descriptor has no payload")
               | Some node => if negb (is_dir node) then Ret (inl (- ENOTDIR)) else Ret (inr (path d))
               end
           end in
    from ← start;
    match from with
    | inl e => Ret (WalkErr e)
    | inr current =>
        let pending := prepend p [] in
        default (Throw (runtime_error "resolve_path_checked: out of fuel"))
          (walk (walk_fuel (filesystem s) pending) (filesystem s)
             follow_final check_search creating 0 current pending)
    end.
End walk.

(** ** The walk terminates *)

Lemma length_components s : (length (components s) ≤ length s)%nat.
Proof.
  unfold components. induction s as [|c s IH]; [done|]. cbn [split_slash].
  case_bool_decide as Hc.
  - rewrite filter_cons_False by tauto. simpl. lia.
  - pose proof (split_slash_nonnil s). destruct (split_slash s) as [|w ws]; [done|].
    rewrite filter_cons_True by done. simpl in *. rewrite filter_cons in IH.
    destruct (decide (w ≠ [])); simpl in *; lia.
Qed.

Lemma length_prepend v pending :
  (length (prepend v pending) ≤ length v + 1 + length pending)%nat.
Proof.
  unfold prepend. rewrite !length_app. pose proof (length_components v).
  destruct (_ && _); simpl; lia.
Qed.

Lemma longest_content_le fs p n :
  fs !! p = Some n → (length (content n) ≤ longest_content fs)%nat.
Proof.
  unfold longest_content. revert p n.
  apply (map_fold_weak_ind (λ acc m, ∀ p n, m !! p = Some n → (length (content n) ≤ acc)%nat));
    [done|].
  intros q x m acc Hq IH p n. rewrite lookup_insert_Some.
  intros [[_ <-]|[_ Hp]]; [lia|]. specialize (IH _ _ Hp). lia.
Qed.

Lemma walk_total fuel fs ff cs cr links cur pending :
  0 ≤ links ≤ 40 →
  (length pending + Z.to_nat (40 - links) * (longest_content fs + 1) < fuel)%nat →
  walk fuel fs ff cs cr links cur pending ≠ None.
Proof.
  revert links cur pending. induction fuel as [|fuel IH]; intros links cur pending Hl Hf; [lia|].
  cbn [walk]. destruct pending as [|part rest]; [done|]. simpl in Hf.
  destruct (fs !! cur) as [parent|]; [|done].
  destruct (negb _); [done|]. destruct (cs && _); [done|]. destruct (creating_slash _ _); [done|].
  destruct (NAME_MAX <? _); [done|]. destruct (_ || _); [apply IH; lia|].
  destruct (bool_decide (part = DOTDOT)); [apply IH; lia|].
  destruct (fs !! join_paths cur part) as [node|] eqn:Hn; [|apply IH; lia].
  destruct (_ && _); [|apply IH; lia].
  destruct (Z.ltb_spec 40 (links + 1)); [done|]. destruct (bool_decide (content node = [])); [done|].
  destruct (contains_nul _); [done|]. apply IH; [lia|].
  pose proof (length_prepend (content node) rest). pose proof (longest_content_le _ _ _ Hn).
  replace (Z.to_nat (40 - links)) with (S (Z.to_nat (40 - (links + 1)))) in Hf by lia.
  rewrite Nat.mul_succ_l in Hf. lia.
Qed.

(** ** The walk is sound *)

(** Names as the scanner yields them; the empty one marks a final slash. *)
Definition pending_ok (pending : list str) : Prop := Forall (λ w, w = [] ∨ name_ok w) pending.

Lemma prepend_ok v pending : pending_ok pending → pending_ok (prepend v pending).
Proof.
  intros Hp. apply Forall_app. split; [|apply Forall_app; split; [|done]].
  - eapply Forall_impl; [apply components_ok|]. auto.
  - destruct (_ && _); constructor; auto.
Qed.

Lemma plain_of_name w :
  w = [] ∨ name_ok w → w ≠ [] → w ≠ DOT → w ≠ DOTDOT → plain_name w.
Proof. intros [->|Hw]; [done|]. by split. Qed.

Lemma walk_canonical fuel fs ff cs cr links cur pending r :
  canonical cur → pending_ok pending →
  walk fuel fs ff cs cr links cur pending = Some (Ret (WalkOk r)) → canonical r.
Proof.
  revert links cur pending. induction fuel as [|fuel IH]; intros links cur pending Hc Hp; [done|].
  cbn [walk]. destruct pending as [|part rest]; [by intros [= <-]|].
  apply Forall_cons in Hp as [Hpart Hrest].
  destruct (fs !! cur) as [parent|]; [|done].
  destruct (negb _); [done|]. destruct (cs && _); [done|]. destruct (creating_slash _ _); [done|].
  destruct (NAME_MAX <? _); [done|].
  destruct (bool_decide_reflect (part = [])) as [|H0]; [by apply IH|].
  destruct (bool_decide_reflect (part = DOT)) as [|H1]; [by apply IH|]. cbn [orb].
  destruct (bool_decide_reflect (part = DOTDOT)) as [|H2]; [apply IH; auto with detsim|].
  assert (canonical (join_paths cur part)) as Hj.
  { apply canonical_join; [done|]. by apply plain_of_name. }
  destruct (fs !! join_paths cur part) as [node|]; [|by apply IH].
  destruct (_ && _); [|by apply IH].
  destruct (40 <? _); [done|]. destruct (bool_decide _); [done|]. destruct (contains_nul _); [done|].
  apply IH; [|by apply prepend_ok]. destruct (starts_with_slash _); auto with detsim.
Qed.

(** Every captured object hangs below a captured directory. *)
Definition rooted (fs : gmap str VFSNode) : Prop :=
  (∃ n, fs !! ROOT = Some n ∧ is_dir n = true) ∧
  ∀ p n, fs !! p = Some n → canonical p → ∃ d, fs !! parent_text p = Some d ∧ is_dir d = true.

(** Where the walk stands: on a directory, or on the name it has just
    reached below one (a link only if it is the last and not to be followed). *)
Definition standing (fs : gmap str VFSNode) (ff : bool) (cur : str) (pending : list str) : Prop :=
  match fs !! cur with
  | Some n => is_link n = true → pending = [] ∧ ff = false
  | None => ∃ d, fs !! parent_text cur = Some d ∧ is_dir d = true
  end.

Lemma dir_not_link n : is_dir n = true → is_link n = false.
Proof.
  unfold is_dir, is_link, S_ISDIR, S_ISLNK. intros H%Z.eqb_eq. rewrite H. done.
Qed.

Lemma walk_standing fuel fs ff cs cr links cur pending r :
  rooted fs → canonical cur → pending_ok pending → standing fs ff cur pending →
  walk fuel fs ff cs cr links cur pending = Some (Ret (WalkOk r)) → standing fs ff r [].
Proof.
  intros Hroot. revert links cur pending.
  induction fuel as [|fuel IH]; intros links cur pending Hc Hp Hst; [done|].
  cbn [walk]. destruct pending as [|part rest]; [by intros [= <-]|].
  apply Forall_cons in Hp as [Hpart Hrest].
  destruct (fs !! cur) as [parent|] eqn:Hcur; [|done].
  destruct (is_dir parent) eqn:Hdir; [|done]. cbn [negb].
  assert (∀ l, standing fs ff cur l) as Hcst.
  { intros l. unfold standing. rewrite Hcur, (dir_not_link _ Hdir). done. }
  destruct (cs && _); [done|]. destruct (creating_slash _ _); [done|].
  destruct (NAME_MAX <? _); [done|].
  destruct (bool_decide_reflect (part = [])) as [|H0]; [by apply IH|].
  destruct (bool_decide_reflect (part = DOT)) as [|H1]; [by apply IH|]. cbn [orb].
  destruct (bool_decide_reflect (part = DOTDOT)) as [|H2].
  { apply IH; auto with detsim. destruct (proj2 Hroot cur parent Hcur Hc) as (d & Hd & Hdd).
    unfold standing. rewrite Hd, (dir_not_link _ Hdd). done. }
  assert (plain_name part) as Hplain by by apply plain_of_name.
  assert (canonical (join_paths cur part)) as Hj by auto with detsim.
  destruct (fs !! join_paths cur part) as [node|] eqn:Hn.
  - destruct (is_link node) eqn:Hlink; cbn [andb].
    + destruct (bool_decide_reflect (rest = [])) as [->|Hr]; cbn [negb orb].
      * destruct ff.
        -- destruct (40 <? _); [done|]. destruct (bool_decide _); [done|].
           destruct (contains_nul _); [done|].
           apply IH; [destruct (starts_with_slash _); auto with detsim|by apply prepend_ok|].
           destruct (starts_with_slash _); [|done]. destruct Hroot as [(n & Hn0 & Hd0) _].
           unfold standing. rewrite Hn0, (dir_not_link _ Hd0). done.
        -- apply IH; [done|done|]. unfold standing. by rewrite Hn.
      * destruct (40 <? _); [done|]. destruct (bool_decide _); [done|].
        destruct (contains_nul _); [done|].
        apply IH; [destruct (starts_with_slash _); auto with detsim|by apply prepend_ok|].
        destruct (starts_with_slash _); [|done]. destruct Hroot as [(n & Hn0 & Hd0) _].
        unfold standing. rewrite Hn0, (dir_not_link _ Hd0). done.
    + apply IH; [done|done|]. unfold standing. rewrite Hn, Hlink. done.
  - apply IH; [done|done|]. unfold standing. rewrite Hn, parent_join by done. eauto.
Qed.

(** The first turn checks the starting point itself. *)
Lemma walk_standing' fuel fs ff cs cr links cur pending r :
  rooted fs → canonical cur → pending_ok pending → pending ≠ [] →
  walk fuel fs ff cs cr links cur pending = Some (Ret (WalkOk r)) → standing fs ff r [].
Proof.
  intros Hroot Hc Hp Hne Hw. apply (walk_standing fuel fs ff cs cr links cur pending r); try done.
  destruct fuel as [|fuel]; [done|]. cbn [walk] in Hw. destruct pending as [|part rest]; [done|].
  unfold standing. destruct (fs !! cur) as [n|]; [|done].
  destruct (is_dir n) eqn:Hd; [|done]. rewrite (dir_not_link _ Hd). done.
Qed.

(** The walk raises no error of its own but the two of the source. *)
Lemma walk_no_fuel_error fuel fs ff cs cr links cur pending :
  walk fuel fs ff cs cr links cur pending ≠
    Some (Throw (runtime_error "resolve_path_checked: out of fuel")).
Proof.
  revert links cur pending. induction fuel as [|fuel IH]; intros links cur pending; [done|].
  cbn [walk]. destruct pending as [|part rest]; [done|].
  destruct (fs !! cur) as [parent|]; [|done].
  destruct (negb _); [done|]. destruct (cs && _); [done|]. destruct (creating_slash _ _); [done|].
  destruct (NAME_MAX <? _); [done|]. destruct (_ || _); [apply IH|].
  destruct (bool_decide (part = DOTDOT)); [apply IH|].
  destruct (fs !! join_paths cur part) as [node|]; [|apply IH].
  destruct (_ && _); [|apply IH].
  destruct (40 <? _); [done|]. destruct (bool_decide (content node = [])); [done|].
  destruct (contains_nul _); [done|]. apply IH.
Qed.

(** ** Without links the walk is lexical *)

Lemma collapse_step_plain ws w :
  Forall plain_name ws → w = [] ∨ name_ok w → w ≠ [] → Forall plain_name (collapse_step ws w).
Proof.
  intros Hws Hw Hne. unfold collapse_step.
  destruct (bool_decide_reflect (w = DOT)) as [|H1]; [done|].
  destruct (bool_decide_reflect (w = DOTDOT)) as [|H2]; [by apply Forall_take|].
  apply Forall_app. split; [done|]. constructor; [by apply plain_of_name|constructor].
Qed.

Lemma parent_take ws :
  Forall plain_name ws → parent_text (render ws) = render (take (length ws - 1) ws).
Proof.
  destruct ws as [|w ws _] using rev_ind; [done|]. intros H%plain_name_ok.
  apply Forall_app in H as [Hws Hw]. apply Forall_cons in Hw as [Hw _].
  rewrite parent_render by done. rewrite length_app. simpl.
  rewrite Nat.add_sub. by rewrite take_app_length.
Qed.

Lemma walk_lexical fuel fs ff cs cr links ws pending r :
  (∀ p n, fs !! p = Some n → is_link n = false) →
  Forall plain_name ws → pending_ok pending →
  walk fuel fs ff cs cr links (render ws) pending = Some (Ret (WalkOk r)) →
  r = render (foldl collapse_step ws (filter (λ w, w ≠ []) pending)).
Proof.
  intros Hnl. revert links ws pending.
  induction fuel as [|fuel IH]; intros links ws pending Hws Hp; [done|].
  cbn [walk]. destruct pending as [|part rest]; [by intros [= <-]|].
  apply Forall_cons in Hp as [Hpart Hrest].
  destruct (fs !! render ws) as [parent|]; [|done].
  destruct (negb _); [done|]. destruct (cs && _); [done|]. destruct (creating_slash _ _); [done|].
  destruct (NAME_MAX <? _); [done|].
  destruct (bool_decide_reflect (part = [])) as [->|H0].
  { cbn [orb]. rewrite filter_cons_False by tauto. by apply IH. }
  rewrite filter_cons_True by done. cbn [foldl orb].
  pose proof (collapse_step_plain ws part Hws Hpart H0) as Hws'.
  unfold collapse_step in Hws' |- *.
  destruct (bool_decide_reflect (part = DOT)) as [|H1]; [by apply IH|].
  destruct (bool_decide_reflect (part = DOTDOT)) as [|H2].
  { rewrite parent_take by done. by apply IH. }
  destruct Hpart as [|Hpart]; [done|].
  rewrite join_render by (done || by apply plain_name_ok).
  destruct (fs !! render (ws ++ [part])) as [node|] eqn:Hn; [|by apply IH].
  rewrite (Hnl _ _ Hn). by apply IH.
Qed.

(** ** Properties of resolution *)

Lemma foldl_collapse_plain ws parts :
  Forall plain_name ws → Forall name_ok parts → Forall plain_name (foldl collapse_step ws parts).
Proof.
  revert ws. induction parts as [|w parts IH]; intros ws Hws Hp; simpl; [done|].
  apply Forall_cons in Hp as [Hw Hp]. apply IH; [|done].
  apply collapse_step_plain; [done|by right|apply Hw].
Qed.

Lemma foldl_collapse_id ws parts :
  Forall plain_name parts → foldl collapse_step ws parts = ws ++ parts.
Proof.
  revert ws. induction parts as [|w parts IH]; intros ws Hp; simpl; [by rewrite app_nil_r|].
  apply Forall_cons in Hp as [(Hw & H1 & H2) Hp]. rewrite IH by done.
  unfold collapse_step. rewrite !bool_decide_false by done. by rewrite <- app_assoc.
Qed.

Lemma collapse_canonical s : canonical (collapse s).
Proof.
  eexists. split; [|done]. apply foldl_collapse_plain; [constructor|apply components_ok].
Qed.

Lemma collapse_id p : canonical p → collapse p = p.
Proof.
  intros (ws & Hws & ->). unfold collapse.
  rewrite components_render by by apply plain_name_ok. by rewrite foldl_collapse_id.
Qed.

Lemma split_slash_app a b : split_slash (a ++ SLASH :: b) = split_slash a ++ split_slash b.
Proof.
  induction a as [|c a IH]; [done|]. cbn [app split_slash]. rewrite IH.
  case_bool_decide; [done|]. pose proof (split_slash_nonnil a).
  by destruct (split_slash a).
Qed.

Lemma components_app a b : components (a ++ SLASH :: b) = components a ++ components b.
Proof. unfold components. by rewrite split_slash_app, filter_app. Qed.

Lemma components_join ws p :
  Forall name_ok ws → starts_with_slash p = false → p ≠ [] →
  components (join_paths (render ws) p) = ws ++ components p.
Proof.
  intros Hws Hs Hp. unfold join_paths. destruct p as [|c p]; [done|]. simpl in Hs. rewrite Hs.
  rewrite (bool_decide_false (render ws = [])) by done. cbn [orb].
  destruct (decide (ws = [])) as [->|Hn].
  - rewrite bool_decide_true by done. apply (components_app [] (c :: p)).
  - rewrite bool_decide_false by (unfold render; intros [= H]; by apply intercalate_nil in H).
    assert (ends_with_slash (render ws) = false) as ->.
    { pose proof (intercalate_last_slash ws Hws) as H. unfold ends_with_slash, render in *.
      destruct (intercalate_slash ws) eqn:E; [by apply intercalate_nil in E|exact H]. }
    rewrite <- app_assoc. change ([SLASH] ++ c :: p) with (SLASH :: c :: p).
    rewrite components_app. by rewrite components_render.
Qed.

Lemma components_nil s : components s = [] → s ≠ [] → ends_with_slash s = true.
Proof.
  unfold components. induction s as [|c s IH]; [done|]. intros H _. cbn [split_slash] in H.
  revert H. case_bool_decide as Hc.
  - rewrite filter_cons_False by tauto. intros H. destruct s as [|d s].
    + unfold ends_with_slash. simpl. by rewrite bool_decide_true.
    + specialize (IH H ltac:(done)). exact IH.
  - pose proof (split_slash_nonnil s). destruct (split_slash s); [done|].
    by rewrite filter_cons_True by done.
Qed.

Lemma prepend_nonnil p : p ≠ [] → prepend p [] ≠ [].
Proof.
  intros Hp. unfold prepend. destruct (components p) eqn:E; [|done].
  by rewrite (components_nil p E Hp), bool_decide_true.
Qed.

Lemma filter_nonempty_id (ws : list str) :
  Forall name_ok ws → filter (λ w, w ≠ []) ws = ws.
Proof.
  induction 1 as [|w ws [Hw _] _ IH]; [done|]. rewrite filter_cons_True by done. by rewrite IH.
Qed.

Lemma filter_prepend p : filter (λ w, w ≠ []) (prepend p []) = components p.
Proof.
  unfold prepend. rewrite !filter_app, (filter_nonempty_id _ (components_ok p)).
  destruct (_ && _); by rewrite ?filter_cons_False, filter_nil, app_nil_r by tauto.
Qed.

(** Where relative names start is canonical. *)
Definition anchors_ok (s : FileSystemState) : Prop :=
  (cwd s = [] ∨ canonical (cwd s)) ∧
  ∀ fd d n, open_files s !! fd = Some d → filesystem s !! path d = Some n →
    is_dir n = true → canonical (path d).

Lemma effective_cwd_ok s : anchors_ok s → canonical (effective_cwd s).
Proof.
  intros [[Hc|Hc] _]; unfold effective_cwd; case_bool_decide; auto with detsim. done.
Qed.

Section resolve.
Context {FD : Type} `{!DescriptorNamespace FD}.
Implicit Types k : FsCtx FD.

(** The walk a checked resolution performs. *)
Lemma resolve_checked_inv k dirfd p ff cs cr o :
  anchors_ok (fss k) → resolve_path_checked k dirfd p ff cs cr = o →
  (∃ e, o = Ret (WalkErr e)) ∨
  o = Throw (runtime_error "Directory descriptor has no payload") ∨
  (p ≠ [] ∧ ∃ cur, canonical cur ∧
     walk (walk_fuel (filesystem (fss k)) (prepend p [])) (filesystem (fss k)) ff cs cr 0 cur
       (prepend p []) = Some o ∧
     resolve_path (fss k) dirfd p =
       Ret (collapse (join_paths (if starts_with_slash p then [] else cur) p)) ∧
     (starts_with_slash p = true → cur = ROOT)).
Proof.
  intros Ha Hr. unfold resolve_path_checked in Hr.
  destruct (bool_decide_reflect (p = [])) as [|Hp]; [left; eauto|].
  assert (∀ cur, canonical cur → ∃ o', walk (walk_fuel (filesystem (fss k)) (prepend p []))
    (filesystem (fss k)) ff cs cr 0 cur (prepend p []) = Some o') as Htot.
  { intros cur Hc. destruct (walk _ _ _ _ _ _ _ _) as [o'|] eqn:E; [by exists o'|].
    exfalso. revert E. apply walk_total; [lia|]. unfold walk_fuel. simpl. lia. }
  unfold resolve_path. destruct (starts_with_slash p) eqn:Hs.
  { right; right. split; [done|]. exists ROOT. destruct (Htot ROOT canonical_root) as [o' Ho'].
    cbn [negb mbind outcome_bind] in Hr. rewrite Ho' in Hr. simpl in Hr. subst o'. auto with detsim. }
  destruct (dirfd =? AT_FDCWD).
  { right; right. split; [done|]. exists (effective_cwd (fss k)).
    pose proof (effective_cwd_ok _ Ha) as Hc. destruct (Htot _ Hc) as [o' Ho'].
    cbn [negb mbind outcome_bind] in Hr. rewrite Ho' in Hr. simpl in Hr. by subst o'. }
  destruct (kernel_allocated k dirfd); [|left; simpl in Hr; eauto].
  destruct (open_files (fss k) !! dirfd) as [d|] eqn:Ho; [|left; simpl in Hr; eauto].
  destruct (filesystem (fss k) !! path d) as [n|] eqn:Hn; [|right; left; by simpl in Hr].
  destruct (is_dir n) eqn:Hd; [|left; simpl in Hr; eauto].
  right; right. split; [done|]. exists (path d).
  assert (canonical (path d)) as Hc by (eapply Ha; eauto). destruct (Htot _ Hc) as [o' Ho'].
  cbn [negb mbind outcome_bind] in Hr. rewrite Ho' in Hr. simpl in Hr. by subst o'.
Qed.
End resolve.

(** Lexical resolution is a normal form: the result of [resolve_path] is
    an absolute path whose components are non-empty, contain no slash and
    are neither dot nor dot-dot, with no trailing slash, and resolving such
    a path again, from anywhere, returns it unchanged. *)
Theorem resolve_path_normal s dirfd p r :
  resolve_path s dirfd p = Ret r →
  canonical r ∧ (∀ s' dirfd', resolve_path s' dirfd' r = Ret r).
Proof.
  unfold resolve_path. intros H.
  assert (canonical r) as Hr.
  { destruct (if starts_with_slash p then _ else _) as [base|] in H; [|done].
    simpl in H. injection H as <-. apply collapse_canonical. }
  split; [done|]. intros s' d'. pose proof (collapse_id r Hr) as Hid.
  destruct Hr as (ws & Hws & ->). change (starts_with_slash (render ws)) with true.
  change (join_paths [] (render ws)) with (render ws). simpl. by rewrite Hid.
Qed.

Lemma resolve_path_normal_witness :
  resolve_path FileSystemState_init AT_FDCWD (lit "a/./b/../../c//d/") = Ret (lit "/c/d") ∧
  canonical (lit "/c/d").
Proof.
  assert (resolve_path FileSystemState_init AT_FDCWD (lit "a/./b/../../c//d/") = Ret (lit "/c/d"))
    as H by (vm_compute; reflexivity).
  split; [exact H|].
  exact (proj1 (resolve_path_normal FileSystemState_init AT_FDCWD _ _ H)).
Defined.


(** A link-free directory below the root, and a link to it. *)
Definition sample_fs : FileSystemState :=
  set_filesystem
    (<[lit "/ln" := mkVFSNode (lit "d") (mkMetadata 1 (Z.lor S_IFLNK 511) 0 (mkTimespec 0 0))]>
      (<[lit "/d" := new_directory]> (filesystem FileSystemState_init))) FileSystemState_init.

Definition sample_ctx : FsCtx FdManager := mkFsCtx (Some FdManager_init) sample_fs.

Lemma canonical_parts ws : Forall plain_name ws → canonical (render ws).
Proof. intros H. by exists ws. Qed.

Lemma sample_anchors : anchors_ok sample_fs.
Proof.
  split; [by left|]. intros fd d n Ho Hn Hd. exfalso.
  assert (∃ i, (i = 0 ∨ i = 1 ∨ i = 2) ∧ d = mkOFD (stdio_path i) 0) as (i & Hi & ->).
  { apply (elem_of_list_to_map_2 (M := gmap Z)) in Ho.
    rewrite !elem_of_cons, elem_of_nil in Ho. naive_solver. }
  destruct Hi as [-> | [-> | ->]]; vm_compute in Hn; injection Hn as <-; vm_compute in Hd; done.
Qed.

