(* ===== verification/VfsOps.v ===== *)
(** * The virtual file system: operations

    The system-call bodies of [src/src/subsys/fs/fsstate.cpp]: open, read,
    write, truncate, close, seek, unlink, rename, stat, directory reading,
    access, readlink, chdir, and the virtual file mappings.  [now] is
    [modeled_fs_time()] at the call; the hash behind initial inode numbers
    is a parameter. *)

From S2P Require Import Prelude Linux Bytes FdInterface FdManager Guest Vfs.

Definition guest_inode_limit : Z := 2 ^ 63.
Definition maximum_dense_growth : Z := 64 * 1024 * 1024.
Definition EXE_LINK : str := lit "/proc/self/exe".
Definition PROC_SELF : str := lit "/proc/self".

Section ops.
Context {FD : Type} `{!DescriptorNamespace FD}.
Context (xxhash64 : str → Z) (now : timespec).
Abbreviation FsM := (M (FsCtx FD)).

Definition with_fs (g : FileSystemState → FileSystemState) : FsM unit :=
  modify (λ k, mkFsCtx (fdm k) (g (fss k))).

(** [FileSystemState::allocate_fd], [release_fd] *)
Definition fs_allocate_fd (type : FdType) (status descriptor : Z) : FsM Z := λ k,
  match fdm k with
  | None => (k, Ret (-1))
  | Some t =>
      let '(t', o) := allocate_fd type status descriptor t in (mkFsCtx (Some t') (fss k), o)
  end.

Definition fs_release_fd (fd : Z) : FsM unit :=
  modify (λ k, mkFsCtx (release_fd fd <$> fdm k) (fss k)).

Definition fd_status (k : FsCtx FD) (fd : Z) : Z :=
  match fdm k with Some t => get_status_flags t fd | None => - EBADF end.
Definition fd_kind (k : FsCtx FD) (fd : Z) : FdType :=
  match fdm k with Some t => get_fd_type t fd | None => UNKNOWN end.

(** [std::map::at] *)
Definition fs_at (p : str) (s : FileSystemState) : outcome VFSNode :=
  match filesystem s !! p with
  | Some n => Ret n
  | None => Throw (out_of_range "map::at")
  end.

Definition update_node (p : str) (g : VFSNode → VFSNode) (s : FileSystemState) : FileSystemState :=
  set_filesystem (alter g p (filesystem s)) s.

(** [require_unmapped_file] *)
Definition is_mapped (p : str) (s : FileSystemState) : bool :=
  existsb (λ e, bool_decide (e.2.2 = p)) (entries (virtual_file_mapping_sources s)).

Definition require_unmapped_file (p : str) : FsM unit :=
  k ← get; throw_if (is_mapped p (fss k))
    (runtime_error "Modification of a mapped virtual file is unsupported").

(** ** open *)

(** The bytes of the executable link, if it is there and is a link. *)
Definition executable_path (s : FileSystemState) : option str :=
  match filesystem s !! EXE_LINK with
  | Some n => if is_link n then Some (content n) else None
  | None => None
  end.

Definition new_file (s : FileSystemState) (mode : Z) : VFSNode :=
  mkVFSNode [] (mkMetadata 0
    (Z.lor S_IFREG (Z.land (Z.land mode 4095) (Z.lnot (creation_mask_ s))))
    (next_inode_ s) now).

Definition truncates (flags : Z) : bool :=
  has flags O_TRUNC && negb (Z.land flags O_ACCMODE =? O_RDONLY).

(** The last part of [do_openat], from [get_next_fd] on. *)
Definition open_publish (t : FD) (p : str) (exists_ : bool) (flags mode : Z) : FsM Z :=
  let candidate := get_next_fd t in
  if candidate <? 0 then mret (- EMFILE)
  else
    k ← get;
    let s := fss k in
    throw_if (bool_decide (is_Some (open_files s !! candidate)))
      (runtime_error "Free descriptor still has a virtual file description");;
    throw_if (negb exists_ &&
              match filesystem s !! parent_text p with
              | Some d => negb (is_dir d) | None => true end)
      (runtime_error "New virtual file has no directory parent");;
    throw_if (negb exists_ && (guest_inode_limit <=? next_inode_ s))
      (runtime_error "Virtual guest inode domain exhausted");;
    fd ← fs_allocate_fd FILE
           (Z.land flags (Z.lnot (Z.lor O_CLOEXEC (Z.lor O_CREAT (Z.lor O_EXCL O_TRUNC)))))
           (if has flags O_CLOEXEC then FD_CLOEXEC else 0);
    if fd <? 0 then mret fd
    else if negb (fd =? candidate)
    then fs_release_fd fd;;
         throw (runtime_error "Virtual descriptor allocation changed during open")
    else
      with_fs (λ s, if exists_ then s else
        update_node (parent_text p) (set_mtim now)
          (set_next_inode (next_inode_ s + 1)
            (set_filesystem (<[p := new_file s mode]> (filesystem s)) s)));;
      with_fs (λ s, if truncates flags then update_node p (set_content [] 0 now) s else s);;
      with_fs (λ s, set_open_files (<[candidate := mkOFD p 0]> (open_files s)) s);;
      mret fd.

(** [FileSystemState::do_openat] *)
Definition do_openat (dirfd : Z) (input : str) (flags mode : Z) : FsM Z :=
  if bool_decide (input = []) then mret (- ENOENT)
  else if contains_nul input then mret (- EINVAL)
  else if (Z.land flags O_ACCMODE =? O_ACCMODE) || (has flags O_CREAT && has flags O_DIRECTORY)
  then mret (- EINVAL)
  else
    throw_if (has flags (Z.lor O_ASYNC (Z.lor O_DIRECT (Z.lor O_NOATIME O_PATH))) ||
              (Z.land flags O_TMPFILE =? O_TMPFILE))
      (runtime_error "Unsupported virtual open flags");;
    k ← get;
    match fdm k with
    | None => mret (- EMFILE)
    | Some t =>
        let exclusive := has flags O_CREAT && has flags O_EXCL in
        w ← lift (resolve_path_checked k dirfd input
                    (negb exclusive && negb (has flags O_NOFOLLOW)) false (has flags O_CREAT));
        match w with
        | WalkErr e => mret e
        | WalkOk p =>
            throw_if (bool_decide (p = PROC_SELF) && has flags O_NOFOLLOW)
              (runtime_error "Virtual proc self nofollow open is not modeled");;
            let it := filesystem (fss k) !! p in
            let early :=
              match it with
              | Some n =>
                  if is_link n then
                    Some (if exclusive then - EEXIST
                          else if has flags O_DIRECTORY then - ENOTDIR else - ELOOP)
                  else if exclusive then Some (- EEXIST)
                  else if has flags O_DIRECTORY && negb (is_dir n) then Some (- ENOTDIR)
                  else if is_dir n &&
                          (has flags O_CREAT || negb (Z.land flags O_ACCMODE =? O_RDONLY))
                  then Some (- EISDIR) else None
              | None =>
                  if has flags O_DIRECTORY || negb (has flags O_CREAT)
                  then Some (- ENOENT) else None
              end in
            match early with
            | Some e => mret e
            | None =>
                if bool_decide (executable_path (fss k) = Some p) &&
                   (negb (Z.land flags O_ACCMODE =? O_RDONLY) || has flags O_TRUNC)
                then mret (- ETXTBSY)
                else
                  (if has flags O_TRUNC then require_unmapped_file p else mret tt);;
                  open_publish t p (bool_decide (is_Some it)) flags mode
            end
        end
    end.

Definition do_open (p : str) (flags mode : Z) : FsM Z := do_openat AT_FDCWD p flags mode.

(** ** read, write, truncate, close, seek *)

(** The bytes copied to the caller's buffer come back beside the result. *)
Definition do_read (fd count : Z) : FsM (Z * list byte) :=
  k ← get;
  match open_files (fss k) !! fd with
  | None => mret (- EBADF, [])
  | Some ofd =>
      if negb (kernel_allocated k fd) then mret (- EBADF, [])
      else
        node ← lift (fs_at (path ofd) (fss k));
        if is_dir node then mret (- EISDIR, [])
        else if Z.land (fd_status k fd) O_ACCMODE =? O_WRONLY then mret (- EBADF, [])
        else if zlength (content node) <=? uint64 (offset ofd) then mret (0, [])
        else
          let n := Z.min count (zlength (content node) - offset ofd) in
          if n =? 0 then mret (0, [])
          else
            with_fs (λ s, set_open_files (<[fd := mkOFD (path ofd) (offset ofd + n)]> (open_files s)) s);;
            mret (n, take (Z.to_nat n) (drop (Z.to_nat (offset ofd)) (content node)))
  end.

Definition do_write (fd : Z) (buf : list byte) : FsM Z :=
  let count := zlength buf in
  k ← get;
  match open_files (fss k) !! fd with
  | None => mret (- EBADF)
  | Some ofd =>
      if negb (kernel_allocated k fd) then mret (- EBADF)
      else
        node ← lift (fs_at (path ofd) (fss k));
        if Z.land (fd_status k fd) O_ACCMODE =? O_RDONLY then mret (- EBADF)
        else if count =? 0 then mret 0
        else
          require_unmapped_file (path ofd);;
          let off := if has (fd_status k fd) O_APPEND || bool_decide (fd_kind k fd = STDIO)
                     then zlength (content node) else offset ofd in
          if INT64_MAX - off <? count then mret (- EFBIG)
          else
            c ← lift (file_content_write off buf (content node));
            with_fs (λ s, set_open_files (<[fd := mkOFD (path ofd) (off + count)]> (open_files s)) s);;
            with_fs (update_node (path ofd) (set_content c (zlength c) now));;
            mret count
  end.

Definition do_ftruncate (fd length : Z) : FsM Z :=
  if length <? 0 then mret (- EINVAL)
  else
    k ← get;
    if negb (kernel_allocated k fd) then mret (- EBADF)
    else if negb (bool_decide (fd_kind k fd = FILE)) then mret (- EINVAL)
    else
      match open_files (fss k) !! fd with
      | None => throw (runtime_error "Truncated descriptor has no file payload")
      | Some ofd =>
          node ← lift (fs_at (path ofd) (fss k));
          if negb (is_reg node) || (Z.land (fd_status k fd) O_ACCMODE =? O_RDONLY)
          then mret (- EINVAL)
          else
            require_unmapped_file (path ofd);;
            throw_if ((zlength (content node) <? length) &&
                      (maximum_dense_growth <? length - zlength (content node)))
              (runtime_error "Virtual ftruncate exceeds single-operation dense growth bound");;
            with_fs (update_node (path ofd) (set_content (resize length (content node)) length now));;
            mret 0
      end.

Definition do_close (fd : Z) : FsM Z :=
  k ← get;
  if negb (kernel_allocated k fd) || negb (bool_decide (is_Some (open_files (fss k) !! fd)))
  then mret (- EBADF)
  else
    with_fs (λ s, set_open_files (delete fd (open_files s)) s);;
    fs_release_fd fd;;
    mret 0.

Definition do_lseek (fd off whence : Z) : FsM Z :=
  k ← get;
  match open_files (fss k) !! fd with
  | None => mret (- EBADF)
  | Some ofd =>
      if negb (kernel_allocated k fd) then mret (- EBADF)
      else
        node ← lift (fs_at (path ofd) (fss k));
        if bool_decide (fd_kind k fd = STDIO) then mret (- ESPIPE)
        else
          let base :=
            if whence =? SEEK_SET then Some 0
            else if whence =? SEEK_CUR then Some (offset ofd)
            else if whence =? SEEK_END then
              if is_dir node then None else Some (zlength (content node))
            else None in
          match base with
          | None => mret (- EINVAL)
          | Some base =>
              let new_offset := base + off in
              if (new_offset <? INT64_MIN) || (INT64_MAX <? new_offset) then mret (- EOVERFLOW)
              else if new_offset <? 0 then mret (- EINVAL)
              else
                with_fs (λ s, set_open_files (<[fd := mkOFD (path ofd) new_offset]> (open_files s)) s);;
                mret new_offset
          end
  end.

(** ** Inode numbers *)

Definition initial_vfs_inode (p : str) : Z := Z.lor (xxhash64 p) guest_inode_limit.

(** The inode a node shows under a path. *)
Definition node_inode (p : str) (n : VFSNode) : Z :=
  if st_ino (metadata n) =? 0 then initial_vfs_inode p else st_ino (metadata n).

Fixpoint inode_loop (l : list (str * VFSNode)) (owners : gset Z) (result : gmap str Z)
    : outcome (gmap str Z) :=
  match l with
  | [] => Ret result
  | (p, n) :: l =>
      let inode := node_inode p n in
      if bool_decide (inode ∈ owners) then Throw (runtime_error "Captured VFS path inode collision")
      else inode_loop l ({[ inode ]} ∪ owners) (<[p := inode]> result)
  end.

Definition vfs_inodes (fs : gmap str VFSNode) : outcome (gmap str Z) :=
  inode_loop (entries fs) ∅ ∅.

Definition inode_override_bad (next : Z) (p : str) (n : VFSNode) : bool :=
  let inode := st_ino (metadata n) in
  negb (inode =? 0) &&
  ((inode =? initial_vfs_inode p) || (negb (is_reg n) && negb (is_link n)) ||
   ((inode <? guest_inode_limit) && (next <=? inode))).

Definition validate_inode_state (s : FileSystemState) : outcome unit :=
  if (next_inode_ s =? 0) || (guest_inode_limit <? next_inode_ s)
  then Throw (runtime_error "Invalid virtual guest inode counter")
  else if existsb (λ e, inode_override_bad (next_inode_ s) e.1 e.2) (entries (filesystem s))
  then Throw (runtime_error "Invalid virtual inode override")
  else vfs_inodes (filesystem s) ≫= λ _, Ret tt.

(** ** unlink, rename *)

Definition leaf_unlink_flags (flags : Z) : outcome Z :=
  if has flags (Z.land UINT32_MAX (Z.lnot AT_REMOVEDIR)) then Ret (- EINVAL)
  else if negb (flags =? 0) then Throw (runtime_error "Directory removal is unsupported")
  else Ret 0.

Definition leaf_rename_flags (flags : Z) : outcome Z :=
  if has flags (UINT32_MAX - 7) || (has flags 2 && has flags 5) then Ret (- EINVAL)
  else if has flags 6 then Throw (runtime_error "Rename exchange/whiteout is unsupported")
  else Ret 0.

Inductive LeafKind := Normal | Dot | DotDot | Root.

#[global] Instance LeafKind_eq_dec : EqDecision LeafKind.
Proof. solve_decision. Defined.

Record NamespaceLeaf := mkLeaf {
  leaf_kind : LeafKind;
  leaf_parent : str;
  leaf_path : str;
  leaf_name : str;
  trailing_slash : bool;
}.

(** [input.substr(0, input.find_last_not_of('/') + 1)] *)
Fixpoint strip_slashes (s : str) : str :=
  match s with
  | [] => []
  | c :: s' =>
      match strip_slashes s' with
      | [] => if bool_decide (c = SLASH) then [] else [c]
      | r => c :: r
      end
  end.

(** [FileSystemState::resolve_namespace_leaf] *)
Definition resolve_namespace_leaf (k : FsCtx FD) (dirfd : Z) (input : str)
    : outcome (Z + NamespaceLeaf) :=
  if bool_decide (input = []) then Ret (inl (- ENOENT))
  else if contains_nul input then Ret (inl (- EINVAL))
  else
    let ts := ends_with_slash input in
    let stem := strip_slashes input in
    if bool_decide (stem = []) then Ret (inr (mkLeaf Root ROOT ROOT [] ts))
    else
      let '(name, parent) :=
        match find_last_slash stem with
        | None => (stem, lit "./")
        | Some i => (drop (S i) stem, take (S i) stem)
        end in
      w ← resolve_path_checked k dirfd parent true false false;
      match w with
      | WalkErr e => Ret (inl e)
      | WalkOk parent =>
          match filesystem (fss k) !! parent with
          | None => Ret (inl (- ENOENT))
          | Some d =>
              if negb (is_dir d) then Ret (inl (- ENOTDIR))
              else if bool_decide (name = DOT) then Ret (inr (mkLeaf Dot parent parent name ts))
              else if bool_decide (name = DOTDOT)
              then Ret (inr (mkLeaf DotDot parent (parent_text parent) name ts))
              else Ret (inr (mkLeaf Normal parent (join_paths parent name) name ts))
          end
      end.

(** [FileSystemState::require_namespace_mutable] *)
Definition require_namespace_mutable (p : str) (s : FileSystemState) : outcome unit :=
  if bool_decide (p = EXE_LINK)
  then Throw (runtime_error "Synthetic executable link namespace mutation is unsupported")
  else if bool_decide (executable_path s = Some p)
  then Throw (runtime_error "Running executable namespace mutation is unsupported")
  else if existsb (λ e, bool_decide (path e.2 = p)) (entries (open_files s))
  then Throw (runtime_error "Open virtual object namespace mutation is unsupported")
  else if is_mapped p s
  then Throw (runtime_error "Modification of a mapped virtual file is unsupported")
  else Ret tt.

(** [FileSystemState::do_unlinkat] *)
Definition do_unlinkat (dirfd : Z) (input : str) (flags : Z) : FsM Z :=
  e ← lift (leaf_unlink_flags flags);
  if negb (e =? 0) then mret e
  else
    k ← get;
    r ← lift (resolve_namespace_leaf k dirfd input);
    match r with
    | inl e => mret e
    | inr leaf =>
        if negb (bool_decide (leaf_kind leaf = Normal)) then mret (- EISDIR)
        else if NAME_MAX <? zlength (leaf_name leaf) then mret (- ENAMETOOLONG)
        else
          match filesystem (fss k) !! leaf_path leaf with
          | None => mret (- ENOENT)
          | Some node =>
              if trailing_slash leaf && negb (is_dir node) then mret (- ENOTDIR)
              else if is_dir node then mret (- EISDIR)
              else
                throw_if (negb (is_reg node) && negb (is_link node))
                  (runtime_error "Only regular or symlink leaf deletion is supported");;
                d ← lift (fs_at (leaf_parent leaf) (fss k));
                throw_if (has (st_mode (metadata d)) S_ISVTX)
                  (runtime_error "Sticky-directory namespace mutation is unsupported");;
                lift (require_namespace_mutable (leaf_path leaf) (fss k));;
                lift (validate_inode_state (fss k));;
                with_fs (λ s, update_node (leaf_parent leaf) (set_mtim now)
                                (set_filesystem (delete (leaf_path leaf) (filesystem s)) s));;
                mret 0
          end
    end.

(** [FileSystemState::do_renameat2] *)
Definition do_renameat2 (olddirfd : Z) (oldname : str) (newdirfd : Z) (newname : str) (flags : Z)
    : FsM Z :=
  e ← lift (leaf_rename_flags flags);
  if negb (e =? 0) then mret e
  else
    k ← get;
    r1 ← lift (resolve_namespace_leaf k olddirfd oldname);
    match r1 with
    | inl e => mret e
    | inr old =>
    r2 ← lift (resolve_namespace_leaf k newdirfd newname);
    match r2 with
    | inl e => mret e
    | inr new =>
        throw_if (bool_decide (leaf_kind old = Root) || bool_decide (leaf_kind new = Root))
          (runtime_error "Root/mount namespace rename is unsupported");;
        if negb (bool_decide (leaf_kind old = Normal)) then mret (- EBUSY)
        else if negb (bool_decide (leaf_kind new = Normal))
        then mret (if has flags 1 then - EEXIST else - EBUSY)
        else if NAME_MAX <? zlength (leaf_name old) then mret (- ENAMETOOLONG)
        else
          match filesystem (fss k) !! leaf_path old with
          | None => mret (- ENOENT)
          | Some source =>
              if NAME_MAX <? zlength (leaf_name new) then mret (- ENAMETOOLONG)
              else
                let target := filesystem (fss k) !! leaf_path new in
                let directory := is_dir source in
                if has flags 1 && bool_decide (is_Some target) then mret (- EEXIST)
                else if (trailing_slash old || trailing_slash new) && negb directory
                then mret (- ENOTDIR)
                else if negb directory && match target with Some n => is_dir n | None => false end
                then mret (- EISDIR)
                else if directory && match target with Some n => negb (is_dir n) | None => false end
                then mret (- ENOTDIR)
                else if bool_decide (leaf_path old = leaf_path new) then mret 0
                else
                  throw_if directory (runtime_error "Directory moves are unsupported");;
                  throw_if (negb (is_reg source) && negb (is_link source))
                    (runtime_error "Only regular or symlink leaf rename is supported");;
                  od ← lift (fs_at (leaf_parent old) (fss k));
                  nd ← lift (fs_at (leaf_parent new) (fss k));
                  throw_if (has (Z.lor (st_mode (metadata od)) (st_mode (metadata nd))) S_ISVTX)
                    (runtime_error "Sticky-directory namespace mutation is unsupported");;
                  lift (require_namespace_mutable (leaf_path old) (fss k));;
                  lift (require_namespace_mutable (leaf_path new) (fss k));;
                  lift (validate_inode_state (fss k));;
                  let inode := node_inode (leaf_path old) source in
                  let inode := if inode =? initial_vfs_inode (leaf_path new) then 0 else inode in
                  with_fs (λ s,
                    update_node (leaf_parent new) (set_mtim now)
                      (update_node (leaf_parent old) (set_mtim now)
                        (set_filesystem
                          (<[leaf_path new := set_ino inode source]>
                            (delete (leaf_path new) (delete (leaf_path old) (filesystem s)))) s)));;
                  mret 0
          end
    end
    end.
End ops.
