(* ===== verification/VfsMeta.v ===== *)
(** * The virtual file system: metadata and directory reading

    [do_stat], [do_fstat], [do_getdents64], [do_access], [do_readlink],
    [do_chdir] of [src/src/subsys/fs/fsstate.cpp] and the handlers that
    move their arguments and results through guest memory. *)

From S2P Require Import Prelude Linux Bytes FdInterface FdManager Guest Vfs VfsOps.

Definition scratch_page : Z := 6 * 16 ^ 13.
Definition DT_UNKNOWN : Z := 0.
Definition DT_DIR : Z := 4.
Definition DT_REG : Z := 8.
Definition DT_LNK : Z := 10.

(** The fields of [struct stat] the model fills in. *)
Record Stat := mkStat { s_ino : Z; s_mode : Z; s_size : Z; s_mtim : timespec }.

#[export] Instance Stat_eq_dec : EqDecision Stat.
Proof. solve_decision. Defined.

(** The x86-64 layout of [struct stat], 144 bytes. *)
Definition encode_stat (v : Stat) : list byte :=
  le_bytes 8 0 ++ le_bytes 8 (s_ino v) ++ le_bytes 8 0 ++ le_bytes 4 (s_mode v) ++
  le_bytes 4 0 ++ le_bytes 4 0 ++ le_bytes 4 0 ++ le_bytes 8 0 ++ le_bytes 8 (s_size v) ++
  le_bytes 8 0 ++ le_bytes 8 0 ++ le_bytes 16 0 ++
  le_bytes 8 (tv_sec (s_mtim v)) ++ le_bytes 8 (tv_nsec (s_mtim v)) ++ le_bytes 16 0 ++
  le_bytes 24 0.

(** One line of [/proc/<pid>/maps]. *)
Record maps_item := mkMap { map_start : Z; map_end : Z; map_writable : bool }.

Section meta.
Context {FD : Type} `{!DescriptorNamespace FD}.
Context (xxhash64 : str → Z).

Definition copy_vfs_stat (node : VFSNode) (inode : Z) : Stat :=
  mkStat inode (st_mode (metadata node)) (st_size (metadata node)) (st_mtim (metadata node)).

(** [vfs_inodes(filesystem).at(path)] *)
Definition inode_at (fs : gmap str VFSNode) (p : str) : outcome Z :=
  inodes ← vfs_inodes xxhash64 fs;
  match inodes !! p with Some i => Ret i | None => Throw (out_of_range "map::at") end.

Definition do_stat (k : FsCtx FD) (p : str) (follow : bool) : outcome (Z + Stat) :=
  w ← resolve_path_checked k AT_FDCWD p follow false false;
  match w with
  | WalkErr e => Ret (inl e)
  | WalkOk checked =>
      if negb follow && bool_decide (checked = PROC_SELF)
      then Throw (runtime_error "Virtual proc self link metadata is not modeled")
      else match filesystem (fss k) !! checked with
           | None => Ret (inl (- ENOENT))
           | Some n => i ← inode_at (filesystem (fss k)) checked; Ret (inr (copy_vfs_stat n i))
           end
  end.

Definition do_fstat (k : FsCtx FD) (fd : Z) : outcome (Z + Stat) :=
  match open_files (fss k) !! fd with
  | None => Ret (inl (- EBADF))
  | Some ofd =>
      if negb (kernel_allocated k fd) then Ret (inl (- EBADF))
      else match filesystem (fss k) !! path ofd with
           | None => Throw (runtime_error "Open descriptor has no captured payload")
           | Some n => i ← inode_at (filesystem (fss k)) (path ofd); Ret (inr (copy_vfs_stat n i))
           end
  end.

Definition do_chdir (p : str) : M (FsCtx FD) Z :=
  if bool_decide (p = []) then mret (- ENOENT)
  else
    k ← get;
    w ← lift (resolve_path_checked k AT_FDCWD p true false false);
    match w with
    | WalkErr e => mret e
    | WalkOk resolved =>
        match filesystem (fss k) !! resolved with
        | None => mret (- ENOENT)
        | Some n =>
            if negb (is_dir n) then mret (- ENOTDIR)
            else with_fs (set_cwd_field resolved);; mret 0
        end
    end.

Definition access_bad (mode flags : Z) : bool :=
  has mode (Z.lnot (Z.lor R_OK (Z.lor W_OK X_OK))) ||
  has flags (Z.lnot (Z.lor AT_EACCESS (Z.lor AT_SYMLINK_NOFOLLOW AT_EMPTY_PATH))).

(** The lambda [permission_mode] *)
Definition permission_mode (s : FileSystemState) (mode : Z) (p : str) : Z :=
  match filesystem s !! p with
  | None => 0
  | Some n =>
      let bits := st_mode (metadata n) in
      if negb (S_ISDIR bits) && has mode W_OK then 0
      else Z.lor (if has bits S_IREAD then R_OK else 0)
             (Z.lor (if has bits S_IWRITE then W_OK else 0)
                    (if has bits S_IEXEC then X_OK else 0))
  end.

Definition do_access (k : FsCtx FD) (dirfd : Z) (input : str) (mode flags : Z) : outcome Z :=
  let s := fss k in
  if access_bad mode flags then Ret (- EINVAL)
  else
    p ← (if bool_decide (input = []) && has flags AT_EMPTY_PATH then
           if dirfd =? AT_FDCWD then Ret (inr (effective_cwd s))
           else if negb (kernel_allocated k dirfd) then Ret (inl (- EBADF))
           else match open_files s !! dirfd with
                | None => Throw (runtime_error
                    "VFS empty access on non-file descriptor is not modeled")
                | Some d => Ret (inr (path d))
                end
         else Ret (inr input));
    match p with
    | inl e => Ret e
    | inr p =>
        r ← (if bool_decide (p ≠ input) then
               Ret (if bool_decide (is_Some (filesystem s !! p)) then WalkOk p else WalkErr (- ENOENT))
             else resolve_path_checked k dirfd p (negb (has flags AT_SYMLINK_NOFOLLOW)) true false);
        match r with
        | WalkErr e => Ret e
        | WalkOk resolved =>
            if negb (bool_decide (is_Some (filesystem s !! resolved))) then Ret (- ENOENT)
            else if negb (mode =? F_OK) && negb (Z.land (permission_mode s mode resolved) mode =? mode)
            then Ret (- EACCES)
            else Ret 0
        end
    end.

Definition do_readlink (k : FsCtx FD) (p : str) : outcome (Z + str) :=
  w ← resolve_path_checked k AT_FDCWD p false false false;
  match w with
  | WalkErr e => Ret (inl e)
  | WalkOk resolved =>
      if bool_decide (resolved = PROC_SELF)
      then Throw (runtime_error "Virtual proc self link target is not modeled")
      else match filesystem (fss k) !! resolved with
           | None => Ret (inl (- ENOENT))
           | Some n => if negb (is_link n) then Ret (inl (- EINVAL)) else Ret (inr (content n))
           end
  end.

(** ** Directory entries *)

Record DirEntry := mkDirEntry { e_name : str; e_path : str }.

Definition directory_prefix (p : str) : str :=
  if bool_decide (p = ROOT) then ROOT else p ++ [SLASH].

(** The children of a directory: the keys with its prefix and one more
    component.  Keys with a common prefix are adjacent in key order, so the
    [lower_bound] loop visits exactly these. *)
Definition child_name (prefix p : str) : option str :=
  if bool_decide (take (length prefix) p = prefix) then
    let name := drop (length prefix) p in
    if bool_decide (name ≠ []) && bool_decide (SLASH ∉ name) then Some name else None
  else None.

Definition children (fs : gmap str VFSNode) (dir : str) : list DirEntry :=
  omap (λ e, (λ name, mkDirEntry name e.1) <$> child_name (directory_prefix dir) e.1) (entries fs).

Definition entry_name_bad (e : DirEntry) : bool :=
  (NAME_MAX <? zlength (e_name e)) || contains_nul (e_name e).

Definition dir_entries (fs : gmap str VFSNode) (dir : str) : outcome (list DirEntry) :=
  if existsb entry_name_bad (children fs dir)
  then Throw (runtime_error "Invalid captured directory entry name")
  else Ret (mkDirEntry DOT dir :: mkDirEntry DOTDOT (parent_text dir) :: children fs dir).

Definition record_length (name : str) : Z :=
  uint16 (Z.land (19 + zlength name + 1 + 7) (Z.lnot 7)).

Definition dirent_type (mode : Z) : Z :=
  if S_ISDIR mode then DT_DIR else if S_ISREG mode then DT_REG
  else if S_ISLNK mode then DT_LNK else DT_UNKNOWN.

Section memory.
Context {Mem : Type} `{!ProcessVm Mem}.
(** What reading [/proc/<pid>/maps] gives, [None] if it cannot be read. *)
Context (proc_maps : option (list maps_item)).

(** Are all bytes of [address, address + size) in writable mappings? *)
Fixpoint cover_loop (maps : list maps_item) (stop cursor : Z) : Z :=
  match maps with
  | [] => cursor
  | m :: maps =>
      if map_end m <=? cursor then cover_loop maps stop cursor
      else if (cursor <? map_start m) || negb (map_writable m) then cursor
      else
        let cursor := Z.min (map_end m) stop in
        if cursor =? stop then cursor else cover_loop maps stop cursor
  end.

(** The lambda [scalar] *)
Definition scalar (address : Z) (value : list byte) : M Mem bool := λ m,
  let size := zlength value in
  let write := let '(m', ok) := guest_write_exact m address value in (m', Ret ok) in
  if UINTPTR_MAX - address <? size then (m, Ret false)
  else if 4096 <? address mod 4096 + size then
    match proc_maps with
    | None => (m, Throw (runtime_error "Cannot inspect directory scalar mappings"))
    | Some [] => (m, Throw (runtime_error "Cannot read directory scalar mappings"))
    | Some maps =>
        if cover_loop maps (address + size) address =? address + size
        then write else (m, Ret false)
    end
  else write.

(** The scalars of one record, in the order Linux stores them; the first that
    fails ends the record. *)
Fixpoint put_fields (fields : list (Z * list byte)) : M Mem bool :=
  match fields with
  | [] => mret true
  | (address, value) :: fields =>
      ok ← scalar address value;
      if ok : bool then put_fields fields else mret false
  end.

Definition put_name (address : Z) (name : str) : M Mem bool := λ m,
  let '(m', ok) := guest_write_exact m address name in (m', Ret ok).

Definition put_record (address previous cookie inode length type : Z) (name : str)
    : M Mem bool :=
  ok ← put_fields
        [(uint64 (address - previous + 8), le_bytes 8 cookie); (address, le_bytes 8 inode);
         (address + 16, le_bytes 2 length); (address + 18, le_bytes 1 type);
         (address + 19 + zlength name, le_bytes 1 0)];
  if ok : bool then put_name (address + 19) name else mret false.

Record DirScan := mkScan {
  d_mem : Mem; d_offset : Z; d_written : Z; d_previous : Z; d_remaining : Z; d_error : Z }.

(** The record loop over the entries from the cursor on. *)
Fixpoint getdents_loop (fs : gmap str VFSNode) (inodes : gmap str Z) (start : Z)
    (l : list DirEntry) (d : DirScan) : DirScan * outcome unit :=
  match l with
  | [] => (d, Ret tt)
  | e :: l =>
      let length := record_length (e_name e) in
      if d_remaining d <? length
      then (mkScan (d_mem d) (d_offset d) (d_written d) (d_previous d) (d_remaining d) (- EINVAL), Ret tt)
      else
        let address := uint64 (start + d_written d) in
        if (address <? start) || (2 ^ 47 <=? address) || (2 ^ 47 - address <? length)
        then (mkScan (d_mem d) (d_offset d) (d_written d) (d_previous d) (d_remaining d) (- EFAULT), Ret tt)
        else
          match inodes !! e_path e, fs !! e_path e with
          | Some inode, Some n =>
              match put_record address (d_previous d) (d_offset d) inode length
                      (dirent_type (st_mode (metadata n))) (e_name e) (d_mem d) with
              | (m, Throw x) =>
                  (mkScan m (d_offset d) (d_written d) (d_previous d) (d_remaining d) (d_error d), Throw x)
              | (m, Ret false) =>
                  (mkScan m (d_offset d) (d_written d) (d_previous d) (d_remaining d) (- EFAULT), Ret tt)
              | (m, Ret true) =>
                  getdents_loop fs inodes start l
                    (mkScan m (d_offset d + 1) (d_written d + length) length
                       (d_remaining d - length) (d_error d))
              end
          | _, _ => (d, Throw (out_of_range "map::at"))
          end
  end.

Definition overlaps_scratch (start count : Z) : bool :=
  negb (count =? 0) && (start <? scratch_page + 4096) &&
  ((UINTPTR_MAX - start <? count) || (scratch_page <? start + count)).

(** [FileSystemState::do_getdents64] *)
Definition do_getdents64 (fd buffer count : Z) : M (FsCtx FD * Mem) Z :=
  km ← get;
  let k := km.1 in
  let s := fss k in
  if negb (kernel_allocated k fd) then mret (- EBADF)
  else
    match open_files s !! fd with
    | None => mret (- ENOTDIR)
    | Some description =>
        match filesystem s !! path description with
        | None => throw (runtime_error "Directory descriptor has no captured payload")
        | Some node =>
            if negb (is_dir node) then mret (- ENOTDIR)
            else
              throw_if (offset description <? 0) (runtime_error "Negative captured directory cursor");;
              inodes ← lift (vfs_inodes xxhash64 (filesystem s));
              all ← lift (dir_entries (filesystem s) (path description));
              if zlength all <=? offset description then mret 0
              else
                throw_if (overlaps_scratch buffer count)
                  (runtime_error "getdents64 output overlaps reserved scratch page");;
                let '(d, o) := getdents_loop (filesystem s) inodes buffer
                  (drop (Z.to_nat (offset description)) all)
                  (mkScan km.2 (offset description) 0 0 (int32 count) 0) in
                put (mkFsCtx (fdm k)
                       (set_open_files (<[fd := mkOFD (path description) (d_offset d)]>
                          (open_files s)) s), d_mem d);;
                lift o;;
                if d_previous d =? 0 then mret (d_error d)
                else
                  ok ← zoom snd (λ m km, (km.1, m))
                         (scalar (uint64 (buffer + d_written d - d_previous d + 8))
                            (le_bytes 8 (d_offset d)));
                  mret (if ok : bool then d_written d else - EFAULT)
        end
    end.

(** ** The handlers *)

Abbreviation KM := (M (FsCtx FD * Mem)).

Definition on_fs {A} (m : M (FsCtx FD) A) : KM A :=
  zoom fst (λ k km, (k, km.2)) m.

(** Copy a pathname in, then continue with it. *)
Definition with_string (pointer : Z) (g : str → KM Z) : KM Z :=
  km ← get;
  match read_guest_string km.2 pointer with
  | inl e => mret e
  | inr p => g p
  end.

Definition write_guest (address : Z) (bs : list byte) (ok : Z) : KM Z := λ km,
  let '(m, done) := guest_write_exact km.2 address bs in
  ((km.1, m), Ret (if done : bool then ok else - EFAULT)).

Definition emu_vfs_unlinkat (now : timespec) (dirfd pointer flags : Z) : KM Z :=
  e ← lift (leaf_unlink_flags flags);
  if negb (e =? 0) then mret e
  else with_string pointer (λ p, on_fs (do_unlinkat xxhash64 now dirfd p flags)).

Definition emu_vfs_renameat2 (now : timespec) (olddirfd oldpointer newdirfd newpointer flags : Z)
    : KM Z :=
  e ← lift (leaf_rename_flags flags);
  if negb (e =? 0) then mret e
  else with_string oldpointer (λ oldname,
    km ← get;
    r ← lift (resolve_namespace_leaf km.1 olddirfd oldname);
    match r with
    | inl e => mret e
    | inr _ => with_string newpointer (λ newname,
        on_fs (do_renameat2 xxhash64 now olddirfd oldname newdirfd newname flags))
    end).

Definition emu_vfs_openat (now : timespec) (dirfd path_ptr flags mode : Z) : KM Z :=
  with_string path_ptr (λ p, on_fs (do_openat now dirfd p flags mode)).

Definition emu_vfs_lseek (fd off whence : Z) : KM Z := on_fs (do_lseek fd off whence).

Definition emu_chdir (path_ptr : Z) : KM Z := with_string path_ptr (λ p, on_fs (do_chdir p)).

Definition emu_vfs_getdents64 (fd buffer count : Z) : KM Z := do_getdents64 fd buffer count.

(** [emu_vfs_statat]; [emu_fstat] (of [io.cpp]) serves an empty path that
    names a descriptor. *)
Definition emu_vfs_statat (emu_fstat : Z → Z → KM Z) (dirfd path_ptr destination flags : Z) : KM Z :=
  if has flags (Z.lnot (Z.lor AT_EMPTY_PATH (Z.lor AT_SYMLINK_NOFOLLOW AT_NO_AUTOMOUNT)))
  then mret (- EINVAL)
  else with_string path_ptr (λ p,
    km ← get;
    if bool_decide (p = []) && has flags AT_EMPTY_PATH && negb (dirfd =? AT_FDCWD)
    then emu_fstat dirfd destination
    else
      let p := if bool_decide (p = []) && has flags AT_EMPTY_PATH
               then effective_cwd (fss km.1) else p in
      let follow := negb (has flags AT_SYMLINK_NOFOLLOW) in
      w ← lift (resolve_path_checked km.1 dirfd p follow false false);
      match w with
      | WalkErr e => mret e
      | WalkOk resolved =>
          r ← lift (do_stat km.1 resolved follow);
          match r with
          | inl e => mret e
          | inr v => write_guest destination (encode_stat v) 0
          end
      end).

Definition emu_vfs_stat (emu_fstat : Z → Z → KM Z) (path_ptr destination : Z) : KM Z :=
  emu_vfs_statat emu_fstat AT_FDCWD path_ptr destination 0.

Definition emu_vfs_accessat (dirfd path_ptr mode flags : Z) : KM Z :=
  if access_bad mode flags then mret (- EINVAL)
  else with_string path_ptr (λ p, km ← get; lift (do_access km.1 dirfd p mode flags)).

Definition emu_getcwd (destination size : Z) : KM Z :=
  if size =? 0 then mret (- EINVAL)
  else
    km ← get;
    let p := effective_cwd (fss km.1) in
    if size <? zlength p + 1 then mret (- ERANGE)
    else write_guest destination (p ++ [NUL]) (zlength p + 1).

Definition emu_vfs_readlinkat (dirfd path_ptr buffer size : Z) : KM Z :=
  let count := int32 size in
  if count <=? 0 then mret (- EINVAL)
  else with_string path_ptr (λ p,
    km ← get;
    w ← lift (resolve_path_checked km.1 dirfd p false false false);
    match w with
    | WalkErr e => mret e
    | WalkOk resolved =>
        r ← lift (do_readlink km.1 resolved);
        match r with
        | inl e => mret e
        | inr target =>
            let length := Z.min (zlength target) count in
            write_guest buffer (take (Z.to_nat length) target) length
        end
    end).
End memory.
End meta.
