(* ===== verification/Mapping.v ===== *)
(** * Virtual file mappings

    [add_virtual_file_mapping], [remove_virtual_file_mapping],
    [overlaps_virtual_file_mapping] and the coverage of
    [src/src/subsys/fs/fsstate.cpp]: the pages backed by virtual files, kept
    as disjoint intervals with their file, and as their union. *)

From S2P Require Import Prelude Linux Bytes FdInterface FdManager Guest Vfs VfsOps.

Abbreviation Sources := (gmap Z (Z * str)).

(** One turn of [mapping_coverage]; the list is the coverage so far, its last
    interval first. *)
Definition coverage_step (acc : list (Z * Z)) (e : Z * (Z * str)) : list (Z * Z) :=
  match acc with
  | (s, stop) :: rest =>
      if stop =? e.1 then (s, e.2.1) :: rest else (e.1, e.2.1) :: acc
  | [] => [(e.1, e.2.1)]
  end.

Definition mapping_coverage (src : Sources) : gmap Z Z :=
  list_to_map (foldl coverage_step [] (entries src)).

(** [lower_bound(start)], stepped back once unless it is [begin()]. *)
Fixpoint from_predecessor (start : Z) (l : list (Z * (Z * str))) : list (Z * (Z * str)) :=
  match l with
  | e :: (e' :: _) as rest =>
      if e'.1 <? start then from_predecessor start rest else l
  | _ => l
  end.

(** The loop of [remove_virtual_file_mapping] over the intervals from there. *)
Fixpoint remove_loop (start stop : Z) (l : list (Z * (Z * str))) (m : Sources) : Sources :=
  match l with
  | [] => m
  | (lo, (hi, p)) :: l =>
      if stop <=? lo then m
      else if hi <=? start then remove_loop start stop l m
      else
        let m := delete lo m in
        let m := if lo <? start then emplace lo (start, p) m else m in
        if stop <? hi then emplace stop (hi, p) m
        else remove_loop start stop l m
  end.

Definition remove_sources (start stop : Z) (m : Sources) : Sources :=
  remove_loop start stop (from_predecessor start (entries m)) m.

Definition unaligned (start stop : Z) : bool :=
  negb (start mod 4096 =? 0) || negb (stop mod 4096 =? 0).

(** [FileSystemState::remove_virtual_file_mapping] *)
Definition remove_virtual_file_mapping (start stop : Z) : M FileSystemState unit :=
  if stop <=? start then mret tt
  else
    throw_if (unaligned start stop) (runtime_error "Unaligned virtual file mapping removal");;
    modify (λ s, let src := remove_sources start stop (virtual_file_mapping_sources s) in
                 set_mapping_tables (mapping_coverage src) src s).

(** The interval that ends exactly where the new one starts, if it is the one
    just before [lower_bound(start)]. *)
Definition predecessor (start : Z) (m : Sources) : option (Z * (Z * str)) :=
  last (List.filter (λ e, e.1 <? start) (entries m)).

Definition successor (start : Z) (m : Sources) : option (Z * (Z * str)) :=
  head (List.filter (λ e, start <=? e.1) (entries m)).

(** Joining the new interval with equal neighbours. *)
Definition insert_source (start stop : Z) (p : str) (m : Sources) : Sources :=
  let next := successor start m in
  let '(start', m1) :=
    match predecessor start m with
    | Some (lo, (hi, q)) =>
        if (hi =? start) && bool_decide (q = p) then (lo, delete lo m) else (start, m)
    | None => (start, m)
    end in
  let '(stop', m2) :=
    match next with
    | Some (lo, (hi, q)) =>
        if (lo =? stop) && bool_decide (q = p) then (hi, delete lo m1) else (stop, m1)
    | None => (stop, m1)
    end in
  emplace start' (stop', p) m2.

(** [FileSystemState::add_virtual_file_mapping] *)
Definition add_virtual_file_mapping {FD} `{!DescriptorNamespace FD} (start stop : Z) (p : str)
    : M (FsCtx FD) unit :=
  k ← get;
  throw_if ((stop <=? start) || unaligned start stop ||
            match filesystem (fss k) !! p with Some n => negb (is_reg n) | None => true end)
    (runtime_error "Invalid virtual file mapping source");;
  w ← lift (resolve_path_checked k AT_FDCWD p true false false);
  throw_if (match w with WalkOk canonical => bool_decide (canonical ≠ p) | WalkErr _ => true end)
    (runtime_error "Invalid virtual file mapping source");;
  zoom fss (λ s k, mkFsCtx (fdm k) s) (remove_virtual_file_mapping start stop);;
  modify (λ k, let s := fss k in
    let src := insert_source start stop p (virtual_file_mapping_sources s) in
    mkFsCtx (fdm k) (set_mapping_tables (mapping_coverage src) src s)).

(** [FileSystemState::overlaps_virtual_file_mapping] *)
Definition overlaps_virtual_file_mapping (start stop : Z) (s : FileSystemState) : bool :=
  if stop <=? start then false
  else
    match head (List.filter (λ e, start <=? e.1) (entries (virtual_file_mappings s))) with
    | Some (lo, _) =>
        (lo <? stop) ||
        match last (List.filter (λ e, e.1 <? start) (entries (virtual_file_mappings s))) with
        | Some (_, hi) => start <? hi
        | None => false
        end
    | None =>
        match last (List.filter (λ e, e.1 <? start) (entries (virtual_file_mappings s))) with
        | Some (_, hi) => start <? hi
        | None => false
        end
    end.

(** ** What the tables mean *)

(** The byte at [x] is backed by file [p]. *)
Definition owns (m : Sources) (x : Z) (p : str) : Prop :=
  ∃ s e, m !! s = Some (e, p) ∧ s ≤ x < e.

(** Intervals are non-empty, page aligned and pairwise disjoint. *)
Record sources_ok (m : Sources) : Prop := {
  so_interval s e p : m !! s = Some (e, p) → s < e ∧ s mod 4096 = 0 ∧ e mod 4096 = 0;
  so_disjoint s1 s2 e1 e2 p1 p2 :
    m !! s1 = Some (e1, p1) → m !! s2 = Some (e2, p2) → s1 < s2 → e1 ≤ s2;
}.

Lemma owns_unique m x p q : sources_ok m → owns m x p → owns m x q → p = q.
Proof.
  intros Ho (s1 & e1 & H1 & Hx1) (s2 & e2 & H2 & Hx2).
  destruct (Z.lt_trichotomy s1 s2) as [Hlt|[->|Hlt]].
  - pose proof (so_disjoint _ Ho _ _ _ _ _ _ H1 H2 Hlt). lia.
  - congruence.
  - pose proof (so_disjoint _ Ho _ _ _ _ _ _ H2 H1 Hlt). lia.
Qed.

Lemma sources_ok_delete m s : sources_ok m → sources_ok (delete s m).
Proof.
  intros [H1 H2]. split.
  - intros a e p [_ Ha]%lookup_delete_Some. eauto.
  - intros a b e1 e2 p1 p2 [_ Ha]%lookup_delete_Some [_ Hb]%lookup_delete_Some. eauto.
Qed.

(** A new interval that touches no other. *)
Definition clear_of (m : Sources) (s e : Z) : Prop :=
  ∀ s' e' p', m !! s' = Some (e', p') → e' ≤ s ∨ e ≤ s'.

Lemma sources_ok_insert m s e p :
  sources_ok m → s < e → s mod 4096 = 0 → e mod 4096 = 0 → clear_of m s e →
  sources_ok (<[s := (e, p)]> m).
Proof.
  intros [H1 H2] Hlt Hs He Hc. split.
  - intros a e' p' [[<- [= <- <-]]|[_ Ha]]%lookup_insert_Some; [done|eauto].
  - intros a b e1 e2 p1 p2 [[<- [= <- <-]]|[_ Ha]]%lookup_insert_Some
      [[<- [= <- <-]]|[_ Hb]]%lookup_insert_Some Hab; try lia.
    + destruct (Hc _ _ _ Hb); [|lia]. destruct (H1 _ _ _ Hb). lia.
    + destruct (Hc _ _ _ Ha); lia.
    + eauto.
Qed.

Lemma owns_insert m s e p x q :
  m !! s = None → owns (<[s := (e, p)]> m) x q ↔ (s ≤ x < e ∧ q = p) ∨ owns m x q.
Proof.
  intros Hs. unfold owns. split.
  - intros (s' & e' & [[<- [= <- <-]]|[_ H]]%lookup_insert_Some & Hx); [by left|right; eauto].
  - intros [[Hx ->]|(s' & e' & H & Hx)].
    + exists s, e. by rewrite lookup_insert_eq.
    + exists s', e'. rewrite lookup_insert_ne by congruence. auto.
Qed.

Lemma owns_delete m s e p x q :
  sources_ok m → m !! s = Some (e, p) →
  owns (delete s m) x q ↔ owns m x q ∧ ¬ (s ≤ x < e).
Proof.
  intros Ho Hs. split.
  - intros (s' & e' & [Hne H]%lookup_delete_Some & Hx). split; [by exists s', e'|].
    intros Hx'. destruct (Z.lt_trichotomy s s') as [Hlt|[->|Hlt]]; [|done|].
    + pose proof (so_disjoint _ Ho _ _ _ _ _ _ Hs H Hlt). lia.
    + pose proof (so_disjoint _ Ho _ _ _ _ _ _ H Hs Hlt). lia.
  - intros [(s' & e' & H & Hx) Hn]. exists s', e'. rewrite lookup_delete_ne; [done|].
    intros ->. assert (e' = e) by congruence. lia.
Qed.

Lemma emplace_None {A} (m : gmap Z A) k x : m !! k = None → emplace k x m = <[k := x]> m.
Proof. unfold emplace. by intros ->. Qed.

(** ** Removal *)

(** The rest of the list is still in the table, above everything done. *)
Definition suffix_of (l : list (Z * (Z * str))) (m : Sources) : Prop :=
  StronglySorted entry_lt l ∧ (∀ k v, (k, v) ∈ l → m !! k = Some v).

(** Cutting the interval at [lo] back to the part before [start]. *)
Definition trim (start lo : Z) (p : str) (m : Sources) : Sources :=
  let m := delete lo m in
  if lo <? start then emplace lo (start, p) m else m.

Lemma trim_spec start lo hi p m :
  sources_ok m → m !! lo = Some (hi, p) → start < hi → start mod 4096 = 0 →
  sources_ok (trim start lo p m) ∧
  (∀ x q, owns (trim start lo p m) x q ↔ owns m x q ∧ ¬ (Z.max lo start ≤ x < hi)) ∧
  (∀ k, k ≠ lo → trim start lo p m !! k = m !! k) ∧
  (∀ s e q, trim start lo p m !! s = Some (e, q) → e ≤ Z.max lo start ∨ hi ≤ s) ∧
  (∀ e q, trim start lo p m !! lo = Some (e, q) → e ≤ start).
Proof.
  intros Ho Hlo Hsh Has. destruct (so_interval _ Ho _ _ _ Hlo) as (Hint & Hal & Har).
  assert (sources_ok (delete lo m)) as Ho1 by by apply sources_ok_delete.
  assert (∀ x q, owns (delete lo m) x q ↔ owns m x q ∧ ¬ (lo ≤ x < hi)) as Hown1
    by (intros; by eapply owns_delete).
  assert (∀ s e q, delete lo m !! s = Some (e, q) → e ≤ lo ∨ hi ≤ s) as Hclear.
  { intros s e q [Hne H]%lookup_delete_Some. destruct (Z.lt_trichotomy s lo) as [?|[?|?]]; [|lia|].
    - left. by eapply (so_disjoint _ Ho).
    - right. by eapply (so_disjoint _ Ho). }
  unfold trim. destruct (Z.ltb_spec lo start) as [Hls|Hls].
  - assert (delete lo m !! lo = None) as Hnone by apply lookup_delete_eq.
    rewrite emplace_None by done. split; [|split; [|split; [|split]]].
    + apply sources_ok_insert; [done|lia|done|done|].
      intros s e q H. destruct (Hclear _ _ _ H); [by left|right; lia].
    + intros x q. rewrite owns_insert, Hown1 by done. split.
      * intros [[Hx ->]|[Hx Hn]]; [|split; [done|lia]]. split; [|lia].
        exists lo, hi. split; [done|lia].
      * intros [Hx Hn]. destruct (decide (lo ≤ x < hi)) as [Hin|Hin]; [|right; done].
        left. split; [lia|]. eapply (owns_unique m x); [done|done|]. by exists lo, hi.
    + intros k Hk. by rewrite lookup_insert_ne, lookup_delete_ne.
    + intros s e q [[<- [= <- <-]]|[_ H]]%lookup_insert_Some; [left; lia|].
      destruct (Hclear _ _ _ H); [left; lia|by right].
    + intros e q. rewrite lookup_insert_eq. intros [= <- <-]. lia.
  - split; [done|]. split; [|split; [|split]].
    + intros x q. rewrite Hown1. by rewrite Z.max_l by lia.
    + intros k Hk. by rewrite lookup_delete_ne.
    + intros s e q H. destruct (Hclear _ _ _ H); [left; lia|by right].
    + intros e q. by rewrite lookup_delete_eq.
Qed.

(** ... and keeping its part from [stop] on, which ends the removal. *)
Lemma split_spec start stop lo hi p m :
  sources_ok m → m !! lo = Some (hi, p) → start < stop → start < hi → lo < stop → stop < hi →
  start mod 4096 = 0 → stop mod 4096 = 0 →
  (∀ x q, owns m x q → x < lo → ¬ (start ≤ x < stop)) →
  sources_ok (emplace stop (hi, p) (trim start lo p m)) ∧
  ∀ x q, owns (emplace stop (hi, p) (trim start lo p m)) x q ↔ owns m x q ∧ ¬ (start ≤ x < stop).
Proof.
  intros Ho Hlo Hlt Hsh Hls Hsr Has Hat Hbelow.
  destruct (so_interval _ Ho _ _ _ Hlo) as (Hint & Hal & Har).
  destruct (trim_spec start lo hi p m) as (Ho2 & Hown2 & Hk2 & Hc2 & Hlo2); [done..|].
  assert (trim start lo p m !! stop = None) as Hnone.
  { apply eq_None_not_Some. intros [[e q] H].
    destruct (so_interval _ Ho2 _ _ _ H). destruct (Hc2 _ _ _ H); lia. }
  rewrite emplace_None by done. split.
  - apply sources_ok_insert; [done|lia|done|done|].
    intros s e q H. destruct (Hc2 _ _ _ H); [left; lia|by right].
  - intros x q. rewrite owns_insert, Hown2 by done. split.
    + intros [[Hx ->]|[Hx Hn]].
      * split; [|lia]. exists lo, hi. split; [done|lia].
      * split; [done|]. intros Hr. destruct (decide (x < lo)) as [Hxl|]; [by eapply Hbelow|lia].
    + intros [Hx Hn]. destruct (decide (stop ≤ x < hi)) as [Hin|Hin].
      * left. split; [done|]. eapply (owns_unique m x); [done|done|]. exists lo, hi. split; [done|lia].
      * right. split; [done|]. lia.
Qed.

Lemma remove_loop_spec start stop l m :
  start < stop → start mod 4096 = 0 → stop mod 4096 = 0 →
  sources_ok m → suffix_of l m →
  (∀ s e p, m !! s = Some (e, p) → (s, (e, p)) ∉ l → e ≤ start ∨ stop ≤ s) →
  sources_ok (remove_loop start stop l m) ∧
  ∀ x q, owns (remove_loop start stop l m) x q ↔ owns m x q ∧ ¬ (start ≤ x < stop).
Proof.
  intros Hlt Has Hat. revert m. induction l as [|[lo [hi p]] l IH]; intros m Ho [Hs Hl] Hout.
  { split; [done|]. intros x q. split; [|tauto]. intros Hx. split; [done|].
    destruct Hx as (s & e & H & Hx). destruct (Hout _ _ _ H ltac:(apply not_elem_of_nil)); lia. }
  apply StronglySorted_inv in Hs as [Hs Hall]. rewrite Forall_forall in Hall.
  assert (m !! lo = Some (hi, p)) as Hlo by (apply Hl; left).
  assert (suffix_of l m) as Hsuf by (split; [done|]; intros k v Hk; apply Hl; by right).
  destruct (so_interval _ Ho _ _ _ Hlo) as (Hint & Hal & Har).
  assert (∀ k v, (k, v) ∈ l → lo < k ∧ hi ≤ k) as Hnext.
  { intros k [e q] Hk. destruct (Hall _ Hk) as [Hle Hne]. simpl in *.
    assert (lo < k) by (cbv [key_le Z_key_order] in Hle; lia). split; [done|].
    eapply (so_disjoint _ Ho); [exact Hlo|apply Hl; right; exact Hk|done]. }
  assert (∀ x q, owns m x q → x < lo → ¬ (start ≤ x < stop)) as Hbelow.
  { intros x q (s & e & H & Hx) Hxl Hr.
    destruct (decide ((s, (e, q)) ∈ (lo, (hi, p)) :: l)) as [Hin|Hin].
    - apply elem_of_cons in Hin as [[= -> -> ->]|Hin]; [lia|]. destruct (Hnext _ _ Hin). lia.
    - destruct (Hout _ _ _ H Hin); lia. }
  cbn [remove_loop]. destruct (Z.leb_spec stop lo) as [Hsl|Hsl].
  { split; [done|]. intros x q. split; [|tauto]. intros Hx. split; [done|]. intros Hr.
    eapply Hbelow; [done|lia|done]. }
  destruct (Z.leb_spec hi start) as [Hrs|Hrs].
  { apply IH; [done|done|]. intros s e q H Hin.
    destruct (decide ((s, (e, q)) = (lo, (hi, p)))) as [[= -> -> ->]|Hne]; [by left|].
    apply (Hout _ _ _ H). rewrite elem_of_cons. tauto. }
  destruct (trim_spec start lo hi p m) as (Ho2 & Hown2 & Hk2 & Hc2 & Hlo2); [done..|].
  fold (trim start lo p m). destruct (Z.ltb_spec stop hi) as [Hsr|Hsr].
  - by eapply split_spec.
  - destruct (IH (trim start lo p m)) as [Hok' Hown']; [done| | |].
    + split; [done|]. intros k v Hk. destruct (Hnext _ _ Hk). rewrite Hk2 by lia. by apply Hsuf.
    + intros s e q H Hin. destruct (decide (s = lo)) as [->|Hne]; [left; by eapply Hlo2|].
      rewrite Hk2 in H by done. apply (Hout _ _ _ H). rewrite elem_of_cons. intros [[= -> _ _]|?]; done.
    + split; [done|]. intros x q. rewrite Hown', Hown2. split; [tauto|].
      intros [? Hr]. split; [split; [done|]|done]. lia.
Qed.

Lemma key_lt_Z {A} (e f : Z * A) : entry_lt e f ↔ e.1 < f.1.
Proof. unfold entry_lt. cbv [key_le Z_key_order]. lia. Qed.

Lemma from_predecessor_spec start l :
  StronglySorted entry_lt l →
  ∃ pre, l = pre ++ from_predecessor start l ∧
    ∀ e, e ∈ pre → ∃ f, f ∈ l ∧ e.1 < f.1 < start.
Proof.
  assert (∀ k : list (Z * (Z * str)), ∃ pre, k = pre ++ k ∧
    ∀ e, e ∈ pre → ∃ f, f ∈ k ∧ e.1 < f.1 < start) as Hnil.
  { intros k. exists []. split; [done|]. intros e He. by apply not_elem_of_nil in He. }
  induction 1 as [|e l Hl IH Hall]; [apply Hnil|].
  destruct l as [|e' l]; [apply Hnil|]. cbn [from_predecessor].
  destruct (Z.ltb_spec e'.1 start) as [Hlt|Hlt]; [|apply Hnil].
  destruct IH as (pre & Heq & Hpre). exists (e :: pre). split; [by rewrite Heq at 1|].
  intros f [->|Hf]%elem_of_cons.
  - exists e'. split; [right; left|]. rewrite Forall_forall in Hall.
    specialize (Hall e' ltac:(left)). apply key_lt_Z in Hall. lia.
  - destruct (Hpre _ Hf) as (g & Hg & Hr). exists g. split; [by right|done].
Qed.

Lemma StronglySorted_app_r {A} (R : relation A) l k :
  StronglySorted R (l ++ k) → StronglySorted R k.
Proof. induction l as [|x l IH]; [done|]. intros [H _]%StronglySorted_inv. auto. Qed.

(** Removing a range takes exactly that range from its owners. *)
Lemma remove_sources_spec start stop m :
  start < stop → start mod 4096 = 0 → stop mod 4096 = 0 → sources_ok m →
  sources_ok (remove_sources start stop m) ∧
  ∀ x q, owns (remove_sources start stop m) x q ↔ owns m x q ∧ ¬ (start ≤ x < stop).
Proof.
  intros Hlt Has Hat Ho. unfold remove_sources.
  pose proof (StronglySorted_entries m) as Hs.
  destruct (from_predecessor_spec start _ Hs) as (pre & Heq & Hpre).
  apply remove_loop_spec; [done..| |].
  - split; [rewrite Heq in Hs; by apply StronglySorted_app_r in Hs|].
    intros k v Hk. apply elem_of_entries. rewrite Heq. apply elem_of_app. by right.
  - intros s e p H Hin. assert ((s, (e, p)) ∈ pre) as Hp.
    { assert ((s, (e, p)) ∈ entries m) as Hm by by apply elem_of_entries.
      rewrite Heq in Hm. by apply elem_of_app in Hm as [?|?]. }
    destruct (Hpre _ Hp) as ([s' [e' p']] & Hf & Hr). simpl in *.
    apply elem_of_entries in Hf. left.
    pose proof (so_disjoint _ Ho _ _ _ _ _ _ H Hf). lia.
Qed.

(** ** Insertion *)

Lemma predecessor_Some start m e :
  predecessor start m = Some e → m !! e.1 = Some e.2 ∧ e.1 < start.
Proof.
  unfold predecessor. intros H%last_Some_elem_of%list_elem_of_In.
  apply List.filter_In in H as [Hin Hlt%Z.ltb_lt]. apply list_elem_of_In in Hin.
  destruct e. by apply elem_of_entries in Hin.
Qed.

Lemma successor_Some start m e :
  successor start m = Some e → m !! e.1 = Some e.2 ∧ start ≤ e.1.
Proof.
  unfold successor. intros H%head_Some_elem_of%list_elem_of_In.
  apply List.filter_In in H as [Hin Hle%Z.leb_le]. apply list_elem_of_In in Hin.
  destruct e. by apply elem_of_entries in Hin.
Qed.

(** Inserting after a deletion of an adjacent interval of the same file. *)
Lemma absorb_spec m s e p lo hi :
  sources_ok m → m !! lo = Some (hi, p) → s < e → clear_of m s e → hi = s ∨ lo = e →
  sources_ok (delete lo m) ∧ clear_of (delete lo m) (Z.min lo s) (Z.max hi e) ∧
  ∀ x q, ((Z.min lo s ≤ x < Z.max hi e ∧ q = p) ∨ owns (delete lo m) x q) ↔
         ((s ≤ x < e ∧ q = p) ∨ owns m x q).
Proof.
  intros Ho Hlo Hse Hc Hadj. destruct (so_interval _ Ho _ _ _ Hlo) as (Hint & Hal & Har).
  split; [by apply sources_ok_delete|]. split.
  - intros s' e' p' [Hne H]%lookup_delete_Some. destruct (so_interval _ Ho _ _ _ H) as (? & _).
    pose proof (so_disjoint _ Ho _ _ _ _ _ _ H Hlo). pose proof (so_disjoint _ Ho _ _ _ _ _ _ Hlo H).
    destruct (Hc _ _ _ H); lia.
  - intros x q. rewrite owns_delete by done. split.
    + intros [[Hx ->]|[Hx _]]; [|by right].
      destruct (decide (s ≤ x < e)) as [?|?]; [by left|]. right. exists lo, hi. split; [done|lia].
    + intros [[Hx ->]|Hx]; [left; split; [lia|done]|].
      destruct (decide (lo ≤ x < hi)) as [Hin|Hin]; [|by right].
      left. split; [lia|]. eapply owns_unique; [done|exact Hx|]. by exists lo, hi.
Qed.

Lemma insert_source_spec start stop p m :
  sources_ok m → start < stop → start mod 4096 = 0 → stop mod 4096 = 0 → clear_of m start stop →
  sources_ok (insert_source start stop p m) ∧
  ∀ x q, owns (insert_source start stop p m) x q ↔ (start ≤ x < stop ∧ q = p) ∨ owns m x q.
Proof.
  intros Ho Hlt Has Hat Hc. unfold insert_source.
  assert (∃ s m1, (match predecessor start m with
    | Some (lo, (hi, q)) =>
        if (hi =? start) && bool_decide (q = p) then (lo, delete lo m) else (start, m)
    | None => (start, m)
    end) = (s, m1) ∧ sources_ok m1 ∧ clear_of m1 s stop ∧ s < stop ∧ s mod 4096 = 0 ∧
      (∀ k, start ≤ k → m1 !! k = m !! k) ∧
      ∀ x q, ((s ≤ x < stop ∧ q = p) ∨ owns m1 x q) ↔ ((start ≤ x < stop ∧ q = p) ∨ owns m x q))
    as (s & m1 & -> & Ho1 & Hc1 & Hlt1 & Has1 & Hk1 & Hown1).
  { destruct (predecessor start m) as [[lo [hi q]]|] eqn:Hp; [|by exists start, m].
    apply predecessor_Some in Hp as [Hlo Hls]. simpl in *.
    destruct (Z.eqb_spec hi start) as [->|]; [|by exists start, m].
    destruct (bool_decide_reflect (q = p)) as [->|]; [|by exists start, m]. simpl.
    destruct (so_interval _ Ho _ _ _ Hlo) as (Hint & Hal & Har).
    destruct (absorb_spec m start stop p lo start) as (Ho1 & Hc1 & Hown1); auto.
    rewrite Z.min_l, Z.max_r in Hc1 by lia. rewrite Z.min_l, Z.max_r in Hown1 by lia.
    exists lo, (delete lo m). split_and!; try done; [lia|].
    intros k Hk. by rewrite lookup_delete_ne by lia. }
  assert (∃ e m2, (match successor start m with
    | Some (lo, (hi, q)) =>
        if (lo =? stop) && bool_decide (q = p) then (hi, delete lo m1) else (stop, m1)
    | None => (stop, m1)
    end) = (e, m2) ∧ sources_ok m2 ∧ clear_of m2 s e ∧ s < e ∧ e mod 4096 = 0 ∧
      ∀ x q, ((s ≤ x < e ∧ q = p) ∨ owns m2 x q) ↔ ((s ≤ x < stop ∧ q = p) ∨ owns m1 x q))
    as (e & m2 & -> & Ho2 & Hc2 & Hlt2 & Hae & Hown2).
  { destruct (successor start m) as [[lo [hi q]]|] eqn:Hp; [|by exists stop, m1].
    apply successor_Some in Hp as [Hlo Hls]. simpl in *. rewrite <- Hk1 in Hlo by done.
    destruct (Z.eqb_spec lo stop) as [->|]; [|by exists stop, m1].
    destruct (bool_decide_reflect (q = p)) as [->|]; [|by exists stop, m1]. simpl.
    destruct (so_interval _ Ho1 _ _ _ Hlo) as (Hint & Hal & Har).
    destruct (absorb_spec m1 s stop p stop hi) as (Ho2 & Hc2 & Hown2); auto.
    rewrite Z.min_r, Z.max_l in Hc2 by lia. rewrite Z.min_r, Z.max_l in Hown2 by lia.
    exists hi, (delete stop m1). split_and!; try done; lia. }
  assert (m2 !! s = None) as Hnone.
  { apply eq_None_not_Some. intros [[e' q] H]. destruct (so_interval _ Ho2 _ _ _ H).
    destruct (Hc2 _ _ _ H); lia. }
  rewrite emplace_None by done. split; [by apply sources_ok_insert|].
  intros x q. by rewrite owns_insert, Hown2, Hown1 by done.
Qed.

(** ** The coverage *)

(** The coverage so far: last interval first, with gaps between. *)
Record chain (acc : list (Z * Z)) : Prop := {
  ch_sorted : StronglySorted (λ a b, b.2 < a.1) acc;
  ch_interval : Forall (λ a, a.1 < a.2) acc;
}.

Definition in_chain (acc : list (Z * Z)) (x : Z) : Prop := ∃ a, a ∈ acc ∧ a.1 ≤ x < a.2.

Lemma coverage_step_spec acc s e p :
  chain acc → s < e → Forall (λ a, a.2 ≤ s) acc →
  chain (coverage_step acc (s, (e, p))) ∧ Forall (λ a, a.2 ≤ e) (coverage_step acc (s, (e, p))) ∧
  ∀ x, in_chain (coverage_step acc (s, (e, p))) x ↔ in_chain acc x ∨ s ≤ x < e.
Proof.
  intros [Hs Hi] Hse Hle. unfold coverage_step, in_chain. simpl.
  destruct acc as [|[s0 stop] acc]; simpl.
  { split; [split; repeat constructor; done|]. split; [by repeat constructor|].
    intros x. setoid_rewrite list_elem_of_singleton. setoid_rewrite elem_of_nil. naive_solver. }
  assert (Forall (λ a, a.2 ≤ e) acc) as He.
  { apply Forall_cons in Hle as [_ Hle]. eapply Forall_impl; [exact Hle|]. simpl. lia. }
  apply StronglySorted_inv in Hs as [Hs Hall]. apply Forall_cons in Hi as [Hi0 Hi].
  apply Forall_cons in Hle as [Hle0 Hle]. simpl in *.
  destruct (Z.eqb_spec stop s) as [->|Hne].
  - split; [split; constructor; [done..|simpl; lia|done]|]. split; [constructor; simpl; [lia|done]|].
    intros x. setoid_rewrite elem_of_cons. split.
    + intros (a & [->|Ha] & Hx); simpl in *; [|left; exists a; auto].
      destruct (decide (x < s)); [left; exists (s0, s); split; [by left|simpl; lia]|right; lia].
    + intros [(a & [->|Ha] & Hx)|Hx]; simpl in *.
      * exists (s0, e). split; [by left|simpl; lia].
      * exists a. auto.
      * exists (s0, e). split; [by left|simpl; lia].
  - split; [split; repeat constructor; simpl; try done; [lia|]|].
    { rewrite Forall_forall in *. intros a Ha. specialize (Hall _ Ha). lia. }
    split; [repeat constructor; simpl; [lia|lia|done]|].
    intros x. split.
    + intros (a & [->|Ha]%elem_of_cons & Hx); simpl in *; [by right|left; by exists a].
    + intros [(a & Ha & Hx)|Hx]; [exists a; split; [by right|done]|].
      exists (s, e). split; [by left|done].
Qed.

Lemma coverage_fold l acc :
  StronglySorted (λ a b : Z * (Z * str), a.2.1 ≤ b.1) l → Forall (λ a, a.1 < a.2.1) l →
  chain acc → (∀ a b, a ∈ acc → b ∈ l → a.2 ≤ b.1) →
  chain (foldl coverage_step acc l) ∧
  ∀ x, in_chain (foldl coverage_step acc l) x ↔
       in_chain acc x ∨ ∃ b, b ∈ l ∧ b.1 ≤ x < b.2.1.
Proof.
  intros Hs. revert acc. induction Hs as [|[s [e p]] l Hs IH Hall]; intros acc Hi Hc Hle.
  { simpl. split; [done|]. intros x. setoid_rewrite elem_of_nil. naive_solver. }
  apply Forall_cons in Hi as [Hi0 Hi]. simpl in Hi0.
  destruct (coverage_step_spec acc s e p) as (Hc' & He & Hx); [done|done| |].
  { apply Forall_forall. intros a Ha. by apply (Hle a (s, (e, p)) Ha ltac:(left)). }
  cbn [foldl]. destruct (IH (coverage_step acc (s, (e, p)))) as [Hc2 Hx2]; [done|done| |].
  { intros a b Ha Hb. rewrite Forall_forall in He. rewrite Forall_forall in Hall. specialize (He _ Ha).
    specialize (Hall _ Hb). simpl in *. lia. }
  split; [done|]. intros x. rewrite Hx2, Hx. setoid_rewrite elem_of_cons. split.
  - intros [[?|?]|(b & ? & ?)]; [by left|right; exists (s, (e, p)); auto|right; exists b; auto].
  - intros [?|(b & [->|?] & ?)]; [auto|auto|right; exists b; auto].
Qed.

Lemma chain_NoDup acc : chain acc → NoDup acc.*1.
Proof.
  intros [Hs Hi]. induction Hs as [|a l Hs IH Hall]; [constructor|].
  apply Forall_cons in Hi as [Hi0 Hi]. rewrite fmap_cons. constructor; [|auto].
  intros (b & Hab & Hb)%list_elem_of_fmap. rewrite Forall_forall in Hall. rewrite Forall_forall in Hi.
  specialize (Hall _ Hb). specialize (Hi _ Hb). lia.
Qed.

(** The byte at [x] is in some interval of the coverage. *)
Definition covered (c : gmap Z Z) (x : Z) : Prop := ∃ s e, c !! s = Some e ∧ s ≤ x < e.

Record coverage_ok (c : gmap Z Z) : Prop := {
  co_interval s e : c !! s = Some e → s < e;
  co_gap s1 s2 e1 e2 : c !! s1 = Some e1 → c !! s2 = Some e2 → s1 < s2 → e1 < s2;
}.

Lemma chain_gap acc a b : chain acc → a ∈ acc → b ∈ acc → a.1 < b.1 → a.2 < b.1.
Proof.
  intros [Hs Hi] Ha Hb Hlt. revert Ha Hb. rewrite Forall_forall in Hi.
  induction Hs as [|c l Hs IH Hall]; [by intros ?%not_elem_of_nil|].
  rewrite Forall_forall in Hall. rewrite !elem_of_cons.
  intros [->|Ha] [->|Hb]; [lia| | |].
  - specialize (Hall _ Hb). pose proof (Hi c ltac:(left)). pose proof (Hi b ltac:(by right)). lia.
  - by apply Hall.
  - apply IH; [|done..]. intros x Hx. apply Hi. by right.
Qed.

Lemma mapping_coverage_spec m :
  sources_ok m →
  coverage_ok (mapping_coverage m) ∧
  ∀ x, covered (mapping_coverage m) x ↔ ∃ p, owns m x p.
Proof.
  intros Ho. unfold mapping_coverage.
  destruct (coverage_fold (entries m) []) as [Hc Hx].
  - assert (∀ e, e ∈ entries m → m !! e.1 = Some e.2) as Hin
      by (intros [k v] He; by apply elem_of_entries in He).
    revert Hin. generalize (StronglySorted_entries m). intros Hs.
    induction Hs as [|[s [e p]] l Hs IH Hall]; intros Hin; constructor.
    + apply IH. intros f Hf. apply Hin. by right.
    + rewrite Forall_forall in Hall |- *. intros [s' [e' p']] Hf.
      apply (so_disjoint _ Ho s s' e e' p p'); [apply (Hin (_, _)); left|apply (Hin (_, _)); by right|].
      apply Hall, key_lt_Z in Hf. done.
  - apply Forall_forall. intros [s [e p]] Hf%elem_of_entries. by apply (so_interval _ Ho s e p).
  - split; constructor.
  - intros a b Ha. by apply not_elem_of_nil in Ha.
  - pose proof (chain_NoDup _ Hc) as Hnd.
    assert (∀ s e, list_to_map (M:=gmap Z Z) (foldl coverage_step [] (entries m)) !! s = Some e ↔
      (s, e) ∈ foldl coverage_step [] (entries m)) as Hl.
    { intros s e. split; [apply elem_of_list_to_map_2|by apply elem_of_list_to_map_1]. }
    split; [split|].
    + intros s e Hs%Hl. destruct Hc as [_ Hi]. rewrite Forall_forall in Hi. by apply (Hi (s, e)).
    + intros s1 s2 e1 e2 H1%Hl H2%Hl Hlt. by apply (chain_gap _ (s1, e1) (s2, e2) Hc).
    + intros x. unfold covered. setoid_rewrite Hl. split.
      * intros (s & e & Hse & Hr). destruct (proj1 (Hx x)) as [(? & ?%not_elem_of_nil & _)|
          ([s' [e' p]] & Hb & Hr')]; [by exists (s, e)|done|].
        exists p, s', e'. by apply elem_of_entries in Hb.
      * intros (p & s & e & Hse & Hr). destruct (proj2 (Hx x)) as ([s' e'] & Ha & Hr').
        { right. exists (s, (e, p)). by rewrite elem_of_entries. }
        by exists s', e'.
Qed.

(** ** The overlap test *)

Section neighbours.
Context {A : Type}.
Implicit Types l : list (Z * A).

Lemma head_filter_least (P : Z * A → bool) l :
  StronglySorted entry_lt l →
  match head (List.filter P l) with
  | Some h => h ∈ l ∧ P h = true ∧ ∀ e, e ∈ l → P e = true → h.1 ≤ e.1
  | None => ∀ e, e ∈ l → P e = false
  end.
Proof.
  induction 1 as [|f l Hl IH Hall]; simpl; [by intros e ?%not_elem_of_nil|].
  destruct (P f) eqn:Hf; simpl.
  - split; [left|]. split; [done|]. rewrite Forall_forall in Hall.
    intros e [->|He]%elem_of_cons _; [lia|]. specialize (Hall _ He). apply key_lt_Z in Hall. lia.
  - destruct (head _) as [h|].
    + destruct IH as (Hin & HP & Hle). split; [by right|]. split; [done|].
      intros e [->|He]%elem_of_cons HPe; [congruence|auto].
    + intros e [->|He]%elem_of_cons; auto.
Qed.

Lemma last_filter_greatest (P : Z * A → bool) l :
  StronglySorted entry_lt l →
  match last (List.filter P l) with
  | Some h => h ∈ l ∧ P h = true ∧ ∀ e, e ∈ l → P e = true → e.1 ≤ h.1
  | None => ∀ e, e ∈ l → P e = false
  end.
Proof.
  induction 1 as [|f l Hl IH Hall]; simpl; [by intros e ?%not_elem_of_nil|].
  rewrite Forall_forall in Hall. destruct (P f) eqn:Hf; simpl.
  - rewrite last_cons. destruct (last _) as [h|].
    + destruct IH as (Hin & HP & Hle). split; [by right|]. split; [done|].
      intros e [->|He]%elem_of_cons HPe; [|auto]. specialize (Hall _ Hin). apply key_lt_Z in Hall. lia.
    + split; [left|]. split; [done|]. intros e [->|He]%elem_of_cons HPe; [lia|].
      specialize (IH _ He). congruence.
  - destruct (last _) as [h|].
    + destruct IH as (Hin & HP & Hle). split; [by right|]. split; [done|].
      intros e [->|He]%elem_of_cons HPe; [congruence|auto].
    + intros e [->|He]%elem_of_cons; auto.
Qed.
End neighbours.

Lemma overlaps_covered start stop s :
  coverage_ok (virtual_file_mappings s) →
  overlaps_virtual_file_mapping start stop s = true ↔
  ∃ x, start ≤ x < stop ∧ covered (virtual_file_mappings s) x.
Proof.
  intros Hc. unfold overlaps_virtual_file_mapping, covered.
  destruct (Z.leb_spec stop start) as [Hle|Hlt]; [split; [done|intros (x & ? & _); lia]|].
  pose proof (head_filter_least (λ e, start <=? e.1) _
    (StronglySorted_entries (virtual_file_mappings s))) as Hh.
  pose proof (last_filter_greatest (λ e, e.1 <? start) _
    (StronglySorted_entries (virtual_file_mappings s))) as Hg.
  set (c := virtual_file_mappings s) in *. clearbody c.
  assert (match last (List.filter (λ e, e.1 <? start) (entries c)) with
          | Some (_, hi) => start <? hi | None => false end = true ↔
          ∃ k e, c !! k = Some e ∧ k < start < e) as Hlast.
  { destruct (last _) as [[k e]|].
    - destruct Hg as (Hin%elem_of_entries & Hk%Z.ltb_lt & Hmax). simpl in *. split.
      + intros ?%Z.ltb_lt. by exists k, e.
      + intros (k' & e' & Hk' & Hr). apply Z.ltb_lt.
        pose proof (Hmax (k', e') ltac:(by apply elem_of_entries) ltac:(apply Z.ltb_lt; simpl; lia)) as Hle.
        simpl in Hle. destruct (decide (k' = k)) as [->|]; [by simplify_eq; lia|].
        pose proof (co_gap _ Hc k' k e' e Hk' Hin ltac:(lia)). lia.
    - split; [done|]. intros (k & e & Hk & Hr).
      pose proof (Hg (k, e) ltac:(by apply elem_of_entries)) as Hn. apply Z.ltb_ge in Hn. simpl in Hn. lia. }
  assert ((∃ x, start ≤ x < stop ∧ ∃ k e, c !! k = Some e ∧ k ≤ x < e) ↔
    (∃ k e, c !! k = Some e ∧ start ≤ k < stop) ∨ ∃ k e, c !! k = Some e ∧ k < start < e) as Hx.
  { split.
    - intros (x & Hx & k & e & Hk & Hr).
      destruct (decide (start ≤ k)); [left|right]; exists k, e; split; auto; lia.
    - intros [(k & e & Hk & Hr)|(k & e & Hk & Hr)]; pose proof (co_interval _ Hc _ _ Hk).
      + exists k. split; [done|]. exists k, e. split; [done|lia].
      + exists start. split; [lia|]. exists k, e. split; [done|lia]. }
  rewrite Hx, <- Hlast. destruct (head _) as [[k e]|].
  - rewrite orb_true_iff, Z.ltb_lt. destruct Hh as (Hin%elem_of_entries & Hk%Z.leb_le & Hmin). simpl in *.
    apply or_iff_compat_r. split; [intros ?; by exists k, e|]. intros (k' & e' & Hk' & Hr).
    pose proof (Hmin (k', e') ltac:(by apply elem_of_entries) ltac:(apply Z.leb_le; simpl; lia)).
    simpl in *. lia.
  - split; [by right|]. intros [(k & e & Hk & Hr)|?]; [|done].
    pose proof (Hh (k, e) ltac:(by apply elem_of_entries)) as Hn. apply Z.leb_gt in Hn. simpl in Hn. lia.
Qed.

(** ** The properties *)

(** The tables agree: the sources are well formed and the coverage is theirs. *)
Record mappings_ok (s : FileSystemState) : Prop := {
  mo_sources : sources_ok (virtual_file_mapping_sources s);
  mo_coverage : virtual_file_mappings s = mapping_coverage (virtual_file_mapping_sources s);
}.

Lemma mappings_ok_init : mappings_ok FileSystemState_init.
Proof.
  split; [split|done].
  - intros s e p H. cbn in H. by rewrite lookup_empty in H.
  - intros s1 s2 e1 e2 p1 p2 H. cbn in H. by rewrite lookup_empty in H.
Qed.

Lemma unaligned_false start stop :
  unaligned start stop = false ↔ start mod 4096 = 0 ∧ stop mod 4096 = 0.
Proof.
  unfold unaligned. rewrite orb_false_iff, !negb_false_iff, !Z.eqb_eq. done.
Qed.

Definition sources (s : FileSystemState) : Sources := virtual_file_mapping_sources s.

Lemma remove_mapping_effect start stop s s' :
  mappings_ok s → remove_virtual_file_mapping start stop s = (s', Ret tt) →
  mappings_ok s' ∧ s' = set_mapping_tables (virtual_file_mappings s') (sources s') s ∧
  ∀ x q, owns (sources s') x q ↔ owns (sources s) x q ∧ ¬ (start ≤ x < stop).
Proof.
  intros [Ho Hcov]. unfold remove_virtual_file_mapping, sources.
  destruct (Z.leb_spec stop start) as [Hle|Hlt].
  { intros [= <-]. split; [done|]. split; [by destruct s|]. intros x q. split; [|tauto].
    intros ?. split; [done|lia]. }
  unfold throw_if, mbind, M_bind, modify, mret, M_ret, throw.
  destruct (unaligned start stop) eqn:Hu; [done|]. intros [= <-].
  apply unaligned_false in Hu as [Has Hat].
  destruct (remove_sources_spec start stop _ Hlt Has Hat Ho) as [Ho' Hown].
  split; [by split|]. by split.
Qed.

(** C35. Unmapping a page range takes exactly that range away: afterwards a
    byte outside it has the file it had, a byte inside it has none, whatever
    intervals the range cuts, splits or swallows; the tables stay disjoint,
    aligned and in agreement, and nothing else of the file system changes. *)
Theorem remove_mapping_exact start stop s s' :
  mappings_ok s → remove_virtual_file_mapping start stop s = (s', Ret tt) →
  mappings_ok s' ∧ s' = set_mapping_tables (virtual_file_mappings s') (sources s') s ∧
  ∀ x q, owns (sources s') x q ↔ owns (sources s) x q ∧ ¬ (start ≤ x < stop).
Proof. apply remove_mapping_effect. Qed.

(** C34. Mapping a file over a page range makes the file the owner of exactly
    that range, replacing what was there and leaving every other byte its
    owner, also when the new interval is joined with neighbours of the same
    file; the tables stay disjoint, aligned and in agreement. *)
Theorem add_mapping_exact {FD} `{!DescriptorNamespace FD} start stop p (k k' : FsCtx FD) :
  mappings_ok (fss k) → add_virtual_file_mapping start stop p k = (k', Ret tt) →
  start < stop ∧ mappings_ok (fss k') ∧ filesystem (fss k') = filesystem (fss k) ∧
  ∀ x q, owns (sources (fss k')) x q ↔
    if decide (start ≤ x < stop) then q = p else owns (sources (fss k)) x q.
Proof.
  intros Hk. unfold add_virtual_file_mapping, throw_if, mbind, M_bind, modify, mret, M_ret, throw,
    get, lift, zoom. destruct (_ || _ || _) eqn:Hg; [done|].
  apply orb_false_iff in Hg as [[Hlt%Z.leb_gt Hu]%orb_false_iff _].
  destruct (resolve_path_checked k AT_FDCWD p true false false) as [w|]; [|done].
  destruct (match w with WalkOk c => _ | WalkErr _ => true end); [done|].
  destruct (remove_virtual_file_mapping start stop (fss k)) as [s1 [[]|]] eqn:Hr; [|done].
  intros [= <-]. cbn [fss]. apply unaligned_false in Hu as [Has Hat].
  destruct (remove_mapping_effect _ _ _ _ Hk Hr) as ([Ho1 _] & Heq & Hown1).
  assert (clear_of (sources s1) start stop) as Hc.
  { intros s e q H. destruct (so_interval _ Ho1 _ _ _ H) as [Hint _].
    destruct (decide (e ≤ start ∨ stop ≤ s)) as [|Hn]; [done|].
    destruct (proj1 (Hown1 (Z.max s start) q)) as [_ []]; [|lia]. exists s, e. split; [done|lia]. }
  destruct (insert_source_spec start stop p _ Ho1 Hlt Has Hat Hc) as [Ho2 Hown2].
  split; [done|]. split; [by split|]. split; [by rewrite Heq|].
  intros x q. unfold sources. cbn [virtual_file_mapping_sources set_mapping_tables].
  rewrite Hown2. fold (sources s1). rewrite Hown1. destruct (decide (start ≤ x < stop)); tauto.
Qed.

(** The overlap test is exact: it says yes for a range precisely when some
    byte of the range is owned by a mapped file. *)
Theorem overlaps_exact start stop s :
  mappings_ok s →
  overlaps_virtual_file_mapping start stop s = true ↔
  ∃ x p, start ≤ x < stop ∧ owns (sources s) x p.
Proof.
  intros [Ho Hc]. destruct (mapping_coverage_spec _ Ho) as [Hok Hcov].
  rewrite overlaps_covered by by rewrite Hc. rewrite Hc. setoid_rewrite Hcov. naive_solver.
Qed.

(** ** Witnesses *)

Definition sample_maps : Sources :=
  list_to_map [(4096, (16384, lit "/lib")); (20480, (24576, lit "/bin"))].

Definition sample_mapped : FileSystemState :=
  set_mapping_tables (mapping_coverage sample_maps) sample_maps sample_fs.

Lemma sample_maps_lookup s e p :
  sample_maps !! s = Some (e, p) →
  (s, e, p) = (4096, 16384, lit "/lib") ∨ (s, e, p) = (20480, 24576, lit "/bin").
Proof.
  unfold sample_maps. simpl. rewrite lookup_insert_Some, lookup_insert_Some, lookup_empty. naive_solver.
Qed.

Lemma sample_mapped_ok : mappings_ok sample_mapped.
Proof.
  split; [split|done].
  - intros s e p [[= -> -> ->]|[= -> -> ->]]%sample_maps_lookup; split_and!; done.
  - intros s1 s2 e1 e2 p1 p2 [[= -> -> ->]|[= -> -> ->]]%sample_maps_lookup
      [[= -> -> ->]|[= -> -> ->]]%sample_maps_lookup; lia.
Qed.

(** Unmapping the middle page of a three-page mapping splits it. *)
Lemma remove_mapping_exact_witness :
  let s' := (remove_virtual_file_mapping 8192 12288 sample_mapped).1 in
  (entries (sources s') =
     [(4096, (8192, lit "/lib")); (12288, (16384, lit "/lib")); (20480, (24576, lit "/bin"))]) ∧
  ∀ x q, owns (sources s') x q ↔ owns (sources sample_mapped) x q ∧ ¬ (8192 ≤ x < 12288).
Proof.
  split; [vm_compute; reflexivity|].
  destruct (remove_mapping_exact 8192 12288 sample_mapped
    (remove_virtual_file_mapping 8192 12288 sample_mapped).1) as (_ & _ & H).
  - apply sample_mapped_ok.
  - vm_compute. reflexivity.
  - exact H.
Defined.

Lemma overlaps_exact_witness :
  overlaps_virtual_file_mapping 16384 20480 sample_mapped = false ∧
  ∃ x p, 0 ≤ x < 8192 ∧ owns (sources sample_mapped) x p.
Proof.
  split; [vm_compute; reflexivity|].
  apply (overlaps_exact 0 8192 sample_mapped); [apply sample_mapped_ok|]. vm_compute. reflexivity.
Defined.

Definition sample_map_ctx : FsCtx FdManager :=
  mkFsCtx (Some FdManager_init)
    (set_filesystem
      (<[lit "/lib" := mkVFSNode [] (mkMetadata 0 (Z.lor S_IFREG 420) 0 (mkTimespec 0 0))]>
        (filesystem sample_mapped)) sample_mapped).

(** Mapping the hole between the two intervals joins it with its file's. *)
Lemma add_mapping_exact_witness :
  let k' := (add_virtual_file_mapping 16384 20480 (lit "/lib") sample_map_ctx).1 in
  entries (sources (fss k')) = [(4096, (20480, lit "/lib")); (20480, (24576, lit "/bin"))] ∧
  ∀ x q, owns (sources (fss k')) x q ↔
    if decide (16384 ≤ x < 20480) then q = lit "/lib" else owns (sources (fss sample_map_ctx)) x q.
Proof.
  split; [vm_compute; reflexivity|].
  destruct (add_mapping_exact 16384 20480 (lit "/lib") sample_map_ctx
    (add_virtual_file_mapping 16384 20480 (lit "/lib") sample_map_ctx).1) as (_ & _ & _ & H).
  - split; [exact (mo_sources _ sample_mapped_ok)|vm_compute; reflexivity].
  - vm_compute. reflexivity.
  - exact H.
Defined.
