(* ===== verification/Pipe.v ===== *)
(** * Pipes

    The pipe half of [src/src/subsys/fs/fsstate.cpp]: creation, reading,
    writing and closing, with the virtual kernel's capacity and atomicity
    limit, and what a sequence of these operations transports. *)

From S2P Require Import Prelude Linux Bytes FdInterface FdManager Guest Vfs VfsOps.

Definition pipe_capacity : Z := 65536.
Definition pipe_atomic_limit : Z := 4096.

Definition Pipe_init : Pipe := mkPipe [] false false.

(** [while (pipes_.contains(pipe_id)) ++pipe_id;] *)
Fixpoint free_pipe_id (fuel : nat) (pipes : gmap Z Pipe) (pipe_id : Z) : Z :=
  match fuel with
  | O => pipe_id
  | S fuel =>
      match pipes !! pipe_id with
      | Some _ => free_pipe_id fuel pipes (pipe_id + 1)
      | None => pipe_id
      end
  end.

(** One turn per pipe is enough. *)
Definition next_pipe_id (pipes : gmap Z Pipe) : Z := free_pipe_id (size pipes) pipes 1.

Section pipes.
Context {FD : Type} `{!DescriptorNamespace FD}.

Definition set_pipes (g : gmap Z Pipe → gmap Z Pipe) (s : FileSystemState) : FileSystemState :=
  set_pipe_tables (g (pipes_ s)) (pipe_fds_ s) s.
Definition set_pipe_fds (g : gmap Z Z → gmap Z Z) (s : FileSystemState) : FileSystemState :=
  set_pipe_tables (pipes_ s) (g (pipe_fds_ s)) s.

(** [FileSystemState::do_pipe]; the two descriptors come back beside the
    result. *)
Definition do_pipe (flags : Z) : M (FsCtx FD) (Z * option (Z * Z)) :=
  if has flags (Z.lnot (Z.lor O_NONBLOCK O_CLOEXEC)) then mret (- EINVAL, None)
  else
    k ← get;
    let pipe_id := next_pipe_id (pipes_ (fss k)) in
    with_fs (set_pipes (insert pipe_id Pipe_init));;
    let cloexec := if has flags O_CLOEXEC then FD_CLOEXEC else 0 in
    read_fd ← fs_allocate_fd PIPE (Z.lor O_RDONLY (Z.land flags O_NONBLOCK)) cloexec;
    write_fd ← fs_allocate_fd PIPE (Z.lor O_WRONLY (Z.land flags O_NONBLOCK)) cloexec;
    if (read_fd <? 0) || (write_fd <? 0) then
      (if 0 <=? read_fd then fs_release_fd read_fd else mret tt);;
      (if 0 <=? write_fd then fs_release_fd write_fd else mret tt);;
      with_fs (set_pipes (delete pipe_id));;
      mret (- EMFILE, None)
    else
      with_fs (set_pipe_fds (λ m, <[write_fd := - pipe_id]> (<[read_fd := pipe_id]> m)));;
      mret (0, Some (read_fd, write_fd)).

Definition is_pipe (s : FileSystemState) (fd : Z) : bool := bool_decide (is_Some (pipe_fds_ s !! fd)).

(** The guard shared by the operations: which end of which pipe is [fd]? *)
Definition pipe_end (k : FsCtx FD) (fd : Z) : option Z :=
  if bool_decide (fd_kind k fd = PIPE) then pipe_fds_ (fss k) !! fd else None.

Definition set_buffer (b : list byte) (p : Pipe) : Pipe := mkPipe b (read_closed p) (write_closed p).

Section memory.
Context {Mem : Type} `{!ProcessVm Mem}.
Abbreviation KM := (M (FsCtx FD * Mem)).

Definition with_pipes (g : gmap Z Pipe → gmap Z Pipe) : KM unit :=
  modify (λ km, (mkFsCtx (fdm km.1) (set_pipes g (fss km.1)), km.2)).

(** [FileSystemState::do_pipe_read] *)
Definition do_pipe_read (fd buf count : Z) : KM Z :=
  km ← get;
  match pipe_end km.1 fd with
  | None => mret (- EBADF)
  | Some pipe_id =>
      if pipe_id <? 0 then mret (- EBADF)
      else
        match pipes_ (fss km.1) !! pipe_id with
        | None => mret (- EBADF)
        | Some pipe =>
            if count =? 0 then mret 0
            else if bool_decide (buffer pipe = []) then
              if write_closed pipe then mret 0 else mret (- EAGAIN)
            else
              let to_read := Z.min count (zlength (buffer pipe)) in
              let data := take (Z.to_nat to_read) (buffer pipe) in
              let '(m, ok) := guest_write_exact km.2 buf data in
              put (km.1, m);;
              if ok : bool then
                with_pipes (insert pipe_id (set_buffer (drop (Z.to_nat to_read) (buffer pipe)) pipe));;
                mret to_read
              else mret (- EFAULT)
        end
  end.

(** [FileSystemState::do_pipe_write] *)
Definition do_pipe_write (fd buf count : Z) : KM Z :=
  km ← get;
  match pipe_end km.1 fd with
  | None => mret (- EBADF)
  | Some id =>
      if 0 <? id then mret (- EBADF)
      else
        let pipe_id := - id in
        match pipes_ (fss km.1) !! pipe_id with
        | None => mret (- EBADF)
        | Some pipe =>
            if count =? 0 then mret 0
            else if read_closed pipe then mret (- EPIPE)
            else if SSIZE_MAX <? count then mret (- EINVAL)
            else
              let available := uint64 (pipe_capacity - zlength (buffer pipe)) in
              throw_if ((pipe_atomic_limit <? count) && (available <? count) &&
                        negb (has (fd_status km.1 fd) O_NONBLOCK))
                (runtime_error "Blocking pipe writes requiring partial progress are unsupported");;
              if (available =? 0) || ((count <=? pipe_atomic_limit) && (available <? count))
              then mret (- EAGAIN)
              else
                let count := Z.min count available in
                match guest_read_exact km.2 buf count with
                | None => mret (- EFAULT)
                | Some data =>
                    with_pipes (insert pipe_id (set_buffer (buffer pipe ++ data) pipe));;
                    mret count
                end
        end
  end.

(** [FileSystemState::do_pipe_close] *)
Definition close_end (reading : bool) (p : Pipe) : Pipe :=
  if reading then mkPipe (buffer p) true (write_closed p)
  else mkPipe (buffer p) (read_closed p) true.

Definition do_pipe_close (fd : Z) : M (FsCtx FD) Z :=
  k ← get;
  match pipe_end k fd with
  | None => mret (- EBADF)
  | Some id =>
      let is_read_end := 0 <? id in
      let pipe_id := if is_read_end then id else - id in
      match pipes_ (fss k) !! pipe_id with
      | Some p =>
          let p := close_end is_read_end p in
          with_fs (set_pipes
            (if read_closed p && write_closed p then delete pipe_id else insert pipe_id p))
      | None => mret tt
      end;;
      with_fs (set_pipe_fds (delete fd));;
      fs_release_fd fd;;
      mret 0
  end.

(** [emu_pipe], [emu_pipe2] *)
Definition emu_pipe (flags : Z) : M (FsCtx FD) (Z * option (Z * Z)) := do_pipe flags.

(** ** Sequences of operations *)

Inductive pipe_op :=
  | PipeRead (fd buf count : Z)
  | PipeWrite (fd buf count : Z)
  | PipeClose (fd : Z).

Definition pipe_exec (op : pipe_op) : KM Z :=
  match op with
  | PipeRead fd buf count => do_pipe_read fd buf count
  | PipeWrite fd buf count => do_pipe_write fd buf count
  | PipeClose fd => zoom fst (λ k km, (k, km.2)) (do_pipe_close fd)
  end.

(** The bytes a program can see one operation move through pipe [i]: those
    it wrote and those it found in its buffer afterwards. *)
Definition op_sent (i : Z) (op : pipe_op) (km : FsCtx FD * Mem) : list byte :=
  match op, (pipe_exec op km).2 with
  | PipeWrite fd buf _, Ret n =>
      if bool_decide (pipe_fds_ (fss km.1) !! fd = Some (- i)) && (0 <? n)
      then default [] (guest_read_exact km.2 buf n) else []
  | _, _ => []
  end.

Definition op_received (i : Z) (op : pipe_op) (km : FsCtx FD * Mem) : list byte :=
  match op, pipe_exec op km with
  | PipeRead fd buf _, (km', Ret n) =>
      if bool_decide (pipe_fds_ (fss km.1) !! fd = Some i) && (0 <? n)
      then default [] (guest_read_exact km'.2 buf n) else []
  | _, _ => []
  end.

Fixpoint pipe_run (ops : list pipe_op) (km : FsCtx FD * Mem) : FsCtx FD * Mem :=
  match ops with
  | [] => km
  | op :: ops => pipe_run ops (pipe_exec op km).1
  end.

Fixpoint run_sent (i : Z) (ops : list pipe_op) (km : FsCtx FD * Mem) : list byte :=
  match ops with
  | [] => []
  | op :: ops => op_sent i op km ++ run_sent i ops (pipe_exec op km).1
  end.

Fixpoint run_received (i : Z) (ops : list pipe_op) (km : FsCtx FD * Mem) : list byte :=
  match ops with
  | [] => []
  | op :: ops => op_received i op km ++ run_received i ops (pipe_exec op km).1
  end.

(** ** What one operation does *)

Definition put_pipe (i : Z) (p : Pipe) (k : FsCtx FD) : FsCtx FD :=
  mkFsCtx (fdm k) (set_pipes (insert i p) (fss k)).

(** The branches that change nothing. *)
Ltac unchanged :=
  intros [= <- <-]; left; split; [done|]; intros ? [= <-]; done.

Lemma do_pipe_read_cases fd buf count km km' o :
  0 ≤ count → do_pipe_read fd buf count km = (km', o) →
  (km'.1 = km.1 ∧ ∀ n, o = Ret n → n ≤ 0) ∨
  ∃ i p data rest, pipe_end km.1 fd = Some i ∧ 0 ≤ i ∧ pipes_ (fss km.1) !! i = Some p ∧
    buffer p = data ++ rest ∧ data ≠ [] ∧ zlength data = Z.min count (zlength (buffer p)) ∧
    o = Ret (zlength data) ∧ guest_read_exact km'.2 buf (zlength data) = Some data ∧
    km'.1 = put_pipe i (set_buffer rest p) km.1.
Proof.
  intros Hcount. unfold do_pipe_read, mbind, M_bind, mret, M_ret, get, put.
  destruct (pipe_end km.1 fd) as [i|] eqn:He; [|unchanged].
  destruct (Z.ltb_spec i 0); [unchanged|].
  destruct (pipes_ (fss km.1) !! i) as [p|] eqn:Hp; [|unchanged].
  destruct (Z.eqb_spec count 0) as [Hc0|Hc0]; [unchanged|].
  destruct (bool_decide_reflect (buffer p = [])) as [Hb|Hb]; [destruct (write_closed p); unchanged|].
  set (n := Z.min count (zlength (buffer p))).
  assert (0 < n ≤ zlength (buffer p)) as Hn.
  { subst n. destruct (buffer p) as [|b l]; [done|]. rewrite zlength_cons.
    pose proof (zlength_nonneg l). lia. }
  assert (zlength (take (Z.to_nat n) (buffer p)) = n) as Hlen.
  { unfold zlength in *. rewrite length_take. lia. }
  destruct (guest_write_exact km.2 buf _) as [m ok] eqn:Hw. destruct ok; [|unchanged].
  intros [= <- <-]. right.
  exists i, p, (take (Z.to_nat n) (buffer p)), (drop (Z.to_nat n) (buffer p)).
  rewrite Hlen, take_drop. split_and!; try done.
  - intros Hnil. rewrite Hnil in Hlen. unfold zlength in Hlen. simpl in Hlen. lia.
  - apply guest_write_read in Hw. by rewrite Hlen in Hw.
Qed.

(** No pipe holds more than its capacity. *)
Definition within_capacity (pipes : gmap Z Pipe) : Prop :=
  ∀ i p, pipes !! i = Some p → zlength (buffer p) ≤ pipe_capacity.

Lemma do_pipe_write_cases fd buf count km km' o :
  0 ≤ count → within_capacity (pipes_ (fss km.1)) → do_pipe_write fd buf count km = (km', o) →
  (km' = km ∧ ∀ n, o = Ret n → n ≤ 0) ∨
  ∃ i p data, pipe_end km.1 fd = Some (- i) ∧ 0 ≤ i ∧ pipes_ (fss km.1) !! i = Some p ∧
    read_closed p = false ∧ 0 < zlength data ∧
    zlength data = Z.min count (pipe_capacity - zlength (buffer p)) ∧
    (count ≤ pipe_atomic_limit → zlength data = count) ∧
    o = Ret (zlength data) ∧ guest_read_exact km.2 buf (zlength data) = Some data ∧
    km' = (put_pipe i (set_buffer (buffer p ++ data) p) km.1, km.2).
Proof.
  intros Hcount Hcap. unfold do_pipe_write, mbind, M_bind, mret, M_ret, get, throw_if, throw.
  destruct (pipe_end km.1 fd) as [j|] eqn:He; [|unchanged].
  destruct (Z.ltb_spec 0 j); [unchanged|].
  destruct (pipes_ (fss km.1) !! (- j)) as [p|] eqn:Hp; [|unchanged].
  destruct (Z.eqb_spec count 0) as [Hc0|Hc0]; [unchanged|].
  destruct (read_closed p) eqn:Hrc; [unchanged|]. destruct (SSIZE_MAX <? count); [unchanged|].
  pose proof (Hcap _ _ Hp). pose proof (zlength_nonneg (buffer p)).
  rewrite uint64_small by (unfold UINT64_MAX, pipe_capacity in *; lia).
  set (av := pipe_capacity - zlength (buffer p)).
  destruct (_ && _ && _); [unchanged|].
  destruct (Z.eqb_spec av 0) as [|Hav]; [unchanged|]. cbn [orb].
  assert (0 < av) as Hpos by (subst av; lia).
  destruct ((count <=? pipe_atomic_limit) && (av <? count)) eqn:Hat; [unchanged|].
  destruct (guest_read_exact km.2 buf (Z.min count av)) as [data|] eqn:Hd; [|unchanged].
  intros [= <- <-]. assert (zlength data = Z.min count av) as Hlen
    by (apply (guest_read_exact_length km.2 buf); [lia|done]).
  right. exists (- j), p, data. rewrite Z.opp_involutive, Hlen. split_and!; try done; try lia.
Qed.

Lemma do_pipe_close_cases fd k k' o :
  do_pipe_close fd k = (k', o) →
  (pipe_end k fd = None ∧ k' = k ∧ o = Ret (- EBADF)) ∨
  ∃ id, pipe_end k fd = Some id ∧ o = Ret 0 ∧ fdm k' = release_fd fd <$> fdm k ∧
    pipe_fds_ (fss k') = delete fd (pipe_fds_ (fss k)) ∧
    pipes_ (fss k') =
      match pipes_ (fss k) !! Z.abs id with
      | Some p =>
          let p := close_end (0 <? id) p in
          if read_closed p && write_closed p then delete (Z.abs id) (pipes_ (fss k))
          else <[Z.abs id := p]> (pipes_ (fss k))
      | None => pipes_ (fss k)
      end.
Proof.
  unfold do_pipe_close, mbind, M_bind, mret, M_ret, get, with_fs, fs_release_fd, modify.
  destruct (pipe_end k fd) as [id|]; [|by intros [= <- <-]; left].
  replace (if 0 <? id then id else - id) with (Z.abs id) by (destruct (Z.ltb_spec 0 id); lia).
  destruct (pipes_ (fss k) !! Z.abs id) as [p|] eqn:Hp; intros [= <- <-]; right; exists id;
    rewrite Hp; split_and!; try done.
  simpl. by destruct (read_closed _ && write_closed _).
Qed.

(** ** Order *)

Lemma put_pipe_lookup i p k j :
  pipes_ (fss (put_pipe i p k)) !! j = if decide (j = i) then Some p else pipes_ (fss k) !! j.
Proof.
  unfold put_pipe, set_pipes. simpl. destruct (decide (j = i)) as [->|].
  - apply lookup_insert_eq. - by apply lookup_insert_ne.
Qed.

Definition op_count (op : pipe_op) : Z :=
  match op with PipeRead _ _ c | PipeWrite _ _ c => c | PipeClose _ => 0 end.

Lemma pipe_end_fds k fd id : pipe_end k fd = Some id → pipe_fds_ (fss k) !! fd = Some id.
Proof. unfold pipe_end. by destruct (bool_decide _). Qed.

(** One operation takes from the front of pipe [i] what it delivers and puts
    at its back what it accepts. *)
Definition fifo_step (i : Z) (op : pipe_op) (km : FsCtx FD * Mem) : Prop :=
  ∀ p', pipes_ (fss (pipe_exec op km).1.1) !! i = Some p' →
  ∃ p, pipes_ (fss km.1) !! i = Some p ∧
    buffer p ++ op_sent i op km = op_received i op km ++ buffer p'.

Lemma read_fifo i fd buf count km :
  0 ≤ count → within_capacity (pipes_ (fss km.1)) → fifo_step i (PipeRead fd buf count) km.
Proof.
  intros Hc Hcap p'. unfold op_sent, op_received. cbn [pipe_exec].
  destruct (do_pipe_read fd buf count km) as [km' o] eqn:E.
  destruct (do_pipe_read_cases _ _ _ _ _ _ Hc E) as
    [[Heq Hn]|(j & q & data & rest & He & Hj & Hq & Hb & Hd & Hlen & -> & Hg & Heq)]; cbn [fst snd].
  - rewrite Heq. intros Hp'. exists p'. split; [done|]. rewrite app_nil_r.
    destruct o as [n|]; [|done]. specialize (Hn n eq_refl).
    destruct (Z.ltb_spec 0 n); [lia|]. by rewrite andb_false_r.
  - rewrite Heq, put_pipe_lookup, (pipe_end_fds _ _ _ He), Hg.
    assert (0 < zlength data) as Hpos%Z.ltb_lt.
    { destruct data; [done|]. rewrite zlength_cons. pose proof (zlength_nonneg data). lia. }
    rewrite Hpos, andb_true_r.
    destruct (decide (i = j)) as [->|Hne].
    + intros [= <-]. exists q. rewrite bool_decide_true, app_nil_r by done. done.
    + intros Hp'. exists p'. rewrite bool_decide_false, app_nil_r by congruence. done.
Qed.

Lemma write_fifo i fd buf count km :
  0 < i → 0 ≤ count → within_capacity (pipes_ (fss km.1)) → fifo_step i (PipeWrite fd buf count) km.
Proof.
  intros Hi Hc Hcap p'. unfold op_sent, op_received. cbn [pipe_exec].
  destruct (do_pipe_write fd buf count km) as [km' o] eqn:E.
  destruct (do_pipe_write_cases _ _ _ _ _ _ Hc Hcap E) as
    [[-> Hn]|(j & q & data & He & Hj & Hq & Hrc & Hpos & Hlen & _ & -> & Hg & ->)]; cbn [fst snd].
  - intros Hp'. exists p'. split; [done|].
    destruct o as [n|]; [|by rewrite app_nil_r]. specialize (Hn n eq_refl).
    destruct (Z.ltb_spec 0 n); [lia|]. by rewrite andb_false_r, app_nil_r.
  - rewrite put_pipe_lookup, (pipe_end_fds _ _ _ He), Hg.
    apply Z.ltb_lt in Hpos as Hpos'. rewrite Hpos', andb_true_r.
    destruct (decide (i = j)) as [->|Hne].
    + intros [= <-]. exists q. rewrite bool_decide_true by done. done.
    + intros Hp'. exists p'. rewrite bool_decide_false by (intros [= ?]; lia).
      by rewrite app_nil_r.
Qed.

Lemma close_fifo i fd km : fifo_step i (PipeClose fd) km.
Proof.
  intros p'. unfold op_sent, op_received. cbn [pipe_exec]. unfold zoom.
  destruct (do_pipe_close fd km.1) as [k' o] eqn:E. cbn [fst snd app]. setoid_rewrite app_nil_r.
  destruct (do_pipe_close_cases _ _ _ _ E) as [(_ & -> & _)|(id & He & _ & _ & _ & ->)];
    [intros Hp'; by exists p'|].
  destruct (pipes_ (fss km.1) !! Z.abs id) as [q|] eqn:Hq; [|intros Hp'; by exists p'].
  cbv zeta. destruct (read_closed _ && write_closed _).
  - intros [_ Hp']%lookup_delete_Some. by exists p'.
  - intros [[<- <-]|[_ Hp']]%lookup_insert_Some; [|by exists p'].
    exists q. by destruct (0 <? id).
Qed.

Lemma exec_fifo i op km :
  0 < i → 0 ≤ op_count op → within_capacity (pipes_ (fss km.1)) → fifo_step i op km.
Proof.
  destruct op as [fd buf c|fd buf c|fd]; cbn [op_count]; intros;
    [by apply read_fifo|by apply write_fifo|by apply close_fifo].
Qed.

Lemma put_pipe_capacity i p k :
  within_capacity (pipes_ (fss k)) → zlength (buffer p) ≤ pipe_capacity →
  within_capacity (pipes_ (fss (put_pipe i p k))).
Proof.
  intros Hcap Hp x y. rewrite put_pipe_lookup. destruct (decide (x = i)); [by intros [= <-]|apply Hcap].
Qed.

Lemma exec_capacity op km :
  0 ≤ op_count op → within_capacity (pipes_ (fss km.1)) →
  within_capacity (pipes_ (fss (pipe_exec op km).1.1)).
Proof.
  intros Hc Hcap. destruct (pipe_exec op km) as [km' o] eqn:E. simpl.
  destruct op as [fd buf count|fd buf count|fd]; cbn [pipe_exec op_count] in *.
  - destruct (do_pipe_read_cases _ _ _ _ _ _ Hc E) as
      [[-> _]|(j & q & data & rest & He & Hj & Hq & Hb & Hd & Hlen & -> & Hg & ->)]; [done|].
    apply put_pipe_capacity; [done|]. cbn [buffer set_buffer].
    pose proof (Hcap _ _ Hq) as Hq'. rewrite Hb, zlength_app in Hq'.
    pose proof (zlength_nonneg data). lia.
  - destruct (do_pipe_write_cases _ _ _ _ _ _ Hc Hcap E) as
      [[-> Hn]|(j & q & data & He & Hj & Hq & Hrc & Hpos & Hlen & _ & -> & Hg & ->)]; [done|].
    apply put_pipe_capacity; [done|]. cbn [buffer set_buffer]. rewrite zlength_app. lia.
  - unfold zoom in E. destruct (do_pipe_close fd km.1) as [k' o'] eqn:E'. injection E as <- <-. simpl.
    destruct (do_pipe_close_cases _ _ _ _ E') as [(_ & -> & _)|(id & He & _ & _ & _ & ->)]; [done|].
    destruct (pipes_ (fss km.1) !! Z.abs id) as [q|] eqn:Hq; [|done].
    cbv zeta. destruct (read_closed _ && write_closed _).
    + intros x y [_ Hx]%lookup_delete_Some. by eapply Hcap.
    + intros x y [[<- <-]|[_ Hx]]%lookup_insert_Some; [|by eapply Hcap].
      destruct (0 <? id); by eapply (Hcap _ q).
Qed.

(** C31. A pipe is a bounded first-in-first-out channel: over any sequence of
    reads, writes and closes on any descriptors, for every pipe still there
    at the end, the bytes it held at the start followed by the bytes written
    to it are exactly the bytes read from it, in order, followed by the bytes
    it still holds, and no pipe ever holds more than its capacity.  Failed
    calls, short reads and interleaved use of other pipes lose, repeat and
    reorder nothing. *)
Theorem pipe_fifo i ops km p' :
  0 < i → Forall (λ op, 0 ≤ op_count op) ops → within_capacity (pipes_ (fss km.1)) →
  pipes_ (fss (pipe_run ops km).1) !! i = Some p' →
  within_capacity (pipes_ (fss (pipe_run ops km).1)) ∧
  ∃ p, pipes_ (fss km.1) !! i = Some p ∧
    buffer p ++ run_sent i ops km = run_received i ops km ++ buffer p'.
Proof.
  intros Hi Hops. revert km. induction Hops as [|op ops Hop _ IH]; intros km Hcap Hp'.
  { split; [done|]. exists p'. by rewrite app_nil_r. }
  cbn [pipe_run run_sent run_received] in *.
  pose proof (exec_capacity op km Hop Hcap) as Hcap1.
  destruct (IH _ Hcap1 Hp') as (Hcap' & p1 & Hp1 & Heq). split; [done|].
  destruct (exec_fifo i op km Hi Hop Hcap p1 Hp1) as (p & Hp & Heq1). exists p. split; [done|].
  by rewrite (assoc_L (++)), Heq1, <- (assoc_L (++)), Heq, (assoc_L (++)).
Qed.

(** The result of a read on a live read end, in every case: nothing for an
    empty request; end of file on an empty pipe exactly when its writer is
    gone, "try again" otherwise; else the oldest bytes, as many as asked for
    or as there are, found in the caller's buffer and removed from the pipe,
    or a fault that removes nothing. *)
Theorem pipe_read_result fd buf count km i p :
  0 ≤ count → pipe_end km.1 fd = Some i → 0 < i → pipes_ (fss km.1) !! i = Some p →
  let '(km', o) := do_pipe_read fd buf count km in
  if decide (count = 0) then km' = km ∧ o = Ret 0
  else if decide (buffer p = []) then
    km' = km ∧ o = Ret (if write_closed p then 0 else - EAGAIN)
  else
    let n := Z.min count (zlength (buffer p)) in
    (km'.1 = km.1 ∧ o = Ret (- EFAULT)) ∨
    (o = Ret n ∧ guest_read_exact km'.2 buf n = Some (take (Z.to_nat n) (buffer p)) ∧
     km'.1 = put_pipe i (set_buffer (drop (Z.to_nat n) (buffer p)) p) km.1).
Proof.
  intros Hc He Hi Hp. unfold do_pipe_read, mbind, M_bind, mret, M_ret, get, put.
  rewrite He, Hp. destruct (Z.ltb_spec i 0); [lia|].
  destruct (Z.eqb_spec count 0) as [->|Hc0]; [by rewrite decide_True|].
  destruct (decide (count = 0)) as [?|_]; [done|].
  destruct (bool_decide_reflect (buffer p = [])) as [Hb|Hb].
  { destruct (decide (buffer p = [])) as [_|?]; [|done]. by destruct (write_closed p). }
  destruct (decide (buffer p = [])) as [?|_]; [done|]. cbv zeta.
  destruct (guest_write_exact km.2 buf _) as [m ok] eqn:Hw. destruct ok; [|by left].
  right. split; [done|]. split; [|done]. cbn [with_pipes modify snd]. apply guest_write_read in Hw.
  rewrite <- Hw. f_equal. unfold zlength. rewrite length_take. lia.
Qed.


(** ** Creation and the table invariant *)

Lemma free_pipe_id_spec fuel pipes i :
  1 ≤ i → (∀ j, 1 ≤ j < i → is_Some (pipes !! j)) → Z.of_nat (size pipes) = i - 1 + Z.of_nat fuel →
  pipes !! free_pipe_id fuel pipes i = None ∧ i ≤ free_pipe_id fuel pipes i.
Proof.
  revert i. induction fuel as [|fuel IH]; intros i Hi Hall Hsize; cbn [free_pipe_id].
  - split; [|lia]. apply eq_None_not_Some. intros Hsome.
    assert (list_to_set (C := gset Z) (seqZ 1 i) ⊆ dom pipes) as Hsub.
    { intros j. rewrite elem_of_list_to_set, elem_of_seqZ, elem_of_dom. intros Hj.
      destruct (decide (j = i)) as [->|]; [done|]. apply Hall. lia. }
    apply subseteq_size in Hsub. rewrite size_dom, size_list_to_set, length_seqZ in Hsub by apply NoDup_seqZ.
    lia.
  - destruct (pipes !! i) as [p|] eqn:Hp; [|by split].
    destruct (IH (i + 1)) as [? ?]; [lia| |lia|split; [done|lia]].
    intros j Hj. destruct (decide (j = i)) as [->|]; [by eexists|]. apply Hall. lia.
Qed.

Lemma next_pipe_id_spec pipes : pipes !! next_pipe_id pipes = None ∧ 0 < next_pipe_id pipes.
Proof.
  destruct (free_pipe_id_spec (size pipes) pipes 1) as [? ?]; [lia|lia|lia|].
  unfold next_pipe_id. split; [done|lia].
Qed.

Record pipes_ok (k : FsCtx FD) : Prop := {
  po_capacity : within_capacity (pipes_ (fss k));
  po_positive i p : pipes_ (fss k) !! i = Some p → 0 < i;
  po_fd fd id : pipe_fds_ (fss k) !! fd = Some id →
    0 ≤ fd ∧ fd_kind k fd = PIPE ∧
    ∃ p, pipes_ (fss k) !! Z.abs id = Some p ∧
         (if 0 <? id then read_closed p else write_closed p) = false;
  po_end fd fd' id :
    pipe_fds_ (fss k) !! fd = Some id → pipe_fds_ (fss k) !! fd' = Some id → fd = fd';
  po_open i p : pipes_ (fss k) !! i = Some p →
    (read_closed p = false → ∃ fd, pipe_fds_ (fss k) !! fd = Some i) ∧
    (write_closed p = false → ∃ fd, pipe_fds_ (fss k) !! fd = Some (- i)) ∧
    read_closed p && write_closed p = false;
}.

(** Only the contents of a pipe change. *)
Lemma pipes_ok_buffer k i p b :
  pipes_ok k → pipes_ (fss k) !! i = Some p → zlength b ≤ pipe_capacity →
  pipes_ok (put_pipe i (set_buffer b p) k).
Proof.
  intros Hk Hp Hb.
  assert (∀ j q, pipes_ (fss (put_pipe i (set_buffer b p) k)) !! j = Some q →
    ∃ q', pipes_ (fss k) !! j = Some q' ∧ read_closed q = read_closed q' ∧ write_closed q = write_closed q')
    as Hback.
  { intros j q. rewrite put_pipe_lookup. destruct (decide (j = i)) as [->|]; [|by eauto].
    intros [= <-]. by exists p. }
  split.
  - apply put_pipe_capacity; [apply Hk|done].
  - intros j q (q' & Hq & _)%Hback. by eapply po_positive.
  - intros fd id Hfd. destruct (po_fd k Hk _ _ Hfd) as (? & ? & q & Hq & Hc). split_and!; try done.
    rewrite put_pipe_lookup. destruct (decide (Z.abs id = i)) as [Heq|]; [|by eauto].
    rewrite Heq in Hq. assert (q = p) as -> by congruence. eexists. split; [done|]. done.
  - apply Hk.
  - intros j q (q' & Hq & -> & ->)%Hback. by apply (po_open k Hk).
Qed.

Lemma fd_kind_release k fd j s :
  fd_kind (mkFsCtx (release_fd fd <$> fdm k) s) j = if decide (j = fd) then UNKNOWN else fd_kind k j.
Proof.
  unfold fd_kind, get_fd_type. simpl. destruct (fdm k) as [t|]; simpl.
  - rewrite release_fd_view. by destruct (decide (j = fd)).
  - by destruct (decide (j = fd)).
Qed.

(** The end that [id] names. *)
Definition end_closed (id : Z) (p : Pipe) : bool := if 0 <? id then read_closed p else write_closed p.

Lemma close_end_flags id id' p :
  id ≠ 0 → id' ≠ 0 → Z.abs id' = Z.abs id → id' ≠ id →
  end_closed id' (close_end (0 <? id) p) = end_closed id' p ∧ end_closed id (close_end (0 <? id) p) = true ∧
  read_closed (close_end (0 <? id) p) && write_closed (close_end (0 <? id) p) = end_closed id' p.
Proof.
  intros H1 H2 H3 H4. assert (id' = - id) as -> by lia. unfold end_closed.
  destruct (Z.ltb_spec 0 id), (Z.ltb_spec 0 (- id)); try lia; simpl; by rewrite ?andb_true_r.
Qed.

Lemma do_pipe_close_ok fd k : pipes_ok k → pipes_ok (do_pipe_close fd k).1.
Proof.
  intros Hk. destruct (do_pipe_close fd k) as [k' o] eqn:E. simpl.
  destruct (do_pipe_close_cases _ _ _ _ E) as [(_ & -> & _)|(id & He & _ & Hfdm & Hfds & Hpipes)]; [done|].
  apply pipe_end_fds in He. destruct (po_fd k Hk _ _ He) as (Hfd0 & Hkind & p & Hp & Hopen).
  fold (end_closed id p) in Hopen. assert (0 < Z.abs id) as Hpos by by eapply po_positive.
  rewrite Hp in Hpipes. cbv zeta in Hpipes. set (q := close_end (0 <? id) p) in *.
  assert (∀ j, j ≠ Z.abs id → pipes_ (fss k') !! j = pipes_ (fss k) !! j) as Hother.
  { intros j Hj. rewrite Hpipes. destruct (_ && _);
      [by rewrite lookup_delete_ne|by rewrite lookup_insert_ne]. }
  assert (∀ r, pipes_ (fss k') !! Z.abs id = Some r → r = q ∧ read_closed q && write_closed q = false) as Hsame.
  { intros r. rewrite Hpipes. destruct (read_closed q && write_closed q);
      [by rewrite lookup_delete_eq|]. rewrite lookup_insert_eq. naive_solver. }
  assert (∀ j id', j ≠ fd → pipe_fds_ (fss k) !! j = Some id' → id' ≠ id) as Hne.
  { intros j id' Hj Hid ->. apply Hj. by eapply po_end. }
  assert (∀ j, j ≠ fd → fd_kind k' j = fd_kind k j) as Hkinds.
  { intros j Hj. destruct k' as [t' s']. simpl in Hfdm. subst t'. rewrite fd_kind_release.
    by rewrite decide_False. }
  assert (∀ x, x ≠ id → (∃ j, pipe_fds_ (fss k) !! j = Some x) →
    ∃ j, delete fd (pipe_fds_ (fss k)) !! j = Some x) as Hkeep.
  { intros x Hx [j Hj]. exists j. rewrite lookup_delete_ne; [done|]. congruence. }
  split.
  - intros i r Hr. destruct (decide (i = Z.abs id)) as [->|].
    + apply Hsame in Hr as [-> _]. pose proof (po_capacity k Hk _ _ Hp). by destruct (0 <? id).
    + rewrite Hother in Hr by done. by eapply po_capacity.
  - intros i r Hr. destruct (decide (i = Z.abs id)) as [->|]; [done|].
    rewrite Hother in Hr by done. by eapply po_positive.
  - intros j id'. rewrite Hfds, lookup_delete_Some. intros [Hj Hid].
    destruct (po_fd k Hk _ _ Hid) as (? & ? & r & Hr & Hc). fold (end_closed id' r) in Hc.
    rewrite Hkinds by done. split_and!; try done.
    destruct (decide (Z.abs id' = Z.abs id)) as [Heq|]; [|rewrite Hother by done; eauto].
    rewrite Heq, Hp in Hr. injection Hr as <-.
    destruct (close_end_flags id id' p) as (H1 & _ & H3); [lia|lia|done|by eapply Hne|].
    fold q in H1, H3. exists q. rewrite Heq, Hpipes, H3, Hc, lookup_insert_eq.
    split; [done|]. fold (end_closed id' q). by rewrite H1.
  - intros j j' id'. rewrite Hfds, !lookup_delete_Some. intros [_ Hj] [_ Hj']. by eapply po_end.
  - rewrite Hfds. intros i r Hr. destruct (decide (i = Z.abs id)) as [->|Hi].
    + apply Hsame in Hr as [-> Hb]. destruct (po_open k Hk _ _ Hp) as (Hro & Hwo & _).
      unfold q, close_end in *. split_and!; [| |done]; destruct (Z.ltb_spec 0 id); try done;
        intros Hc; apply Hkeep; auto; lia.
    + rewrite Hother in Hr by done. destruct (po_open k Hk _ _ Hr) as (Hro & Hwo & Hb).
      pose proof (po_positive k Hk _ _ Hr).
      split_and!; [| |done]; intros Hc; apply Hkeep; auto; lia.
Qed.

Lemma pipe_exec_ok op km : 0 ≤ op_count op → pipes_ok km.1 → pipes_ok (pipe_exec op km).1.1.
Proof.
  intros Hc Hk. pose proof (exec_capacity op km Hc (po_capacity _ Hk)) as Hcap.
  destruct op as [fd buf count|fd buf count|fd]; cbn [pipe_exec op_count] in *.
  - destruct (do_pipe_read fd buf count km) as [km' o] eqn:E. simpl.
    destruct (do_pipe_read_cases _ _ _ _ _ _ Hc E) as
      [[-> _]|(j & q & data & rest & He & Hj & Hq & Hb & Hd & Hlen & -> & Hg & ->)]; [done|].
    apply pipes_ok_buffer; [done|done|].
    pose proof (po_capacity _ Hk _ _ Hq) as Hq'. rewrite Hb, zlength_app in Hq'.
    pose proof (zlength_nonneg data). lia.
  - destruct (do_pipe_write fd buf count km) as [km' o] eqn:E. simpl.
    destruct (do_pipe_write_cases _ _ _ _ _ _ Hc (po_capacity _ Hk) E) as
      [[-> Hn]|(j & q & data & He & Hj & Hq & Hrc & Hpos & Hlen & _ & -> & Hg & ->)]; [done|].
    apply pipes_ok_buffer; [done|done|]. rewrite zlength_app. lia.
  - unfold zoom. pose proof (do_pipe_close_ok fd km.1 Hk) as H.
    by destruct (do_pipe_close fd km.1) as [k' o'].
Qed.

(** The two descriptors and the pipe are entered together. *)
Lemma pipes_ok_create k k' i rfd wfd :
  pipes_ok k → pipes_ (fss k) !! i = None → 0 < i → 0 ≤ rfd → 0 ≤ wfd → rfd ≠ wfd →
  fd_kind k rfd = UNKNOWN → fd_kind k wfd = UNKNOWN →
  fd_kind k' rfd = PIPE → fd_kind k' wfd = PIPE →
  (∀ j, j ≠ rfd → j ≠ wfd → fd_kind k' j = fd_kind k j) →
  pipes_ (fss k') = <[i := Pipe_init]> (pipes_ (fss k)) →
  pipe_fds_ (fss k') = <[wfd := - i]> (<[rfd := i]> (pipe_fds_ (fss k))) →
  pipes_ok k'.
Proof.
  intros Hk Hi Hpos Hr Hw Hne Hkr Hkw Hr' Hw' Hkind Hp Hf.
  assert (∀ j id, pipe_fds_ (fss k) !! j = Some id → j ≠ rfd ∧ j ≠ wfd ∧ Z.abs id ≠ i) as Hold.
  { intros j id Hj. destruct (po_fd k Hk _ _ Hj) as (_ & Hpipe & p & Hp' & _). split_and!; congruence. }
  assert (∀ j id, pipe_fds_ (fss k') !! j = Some id ↔
    (j = wfd ∧ id = - i) ∨ (j = rfd ∧ id = i) ∨ pipe_fds_ (fss k) !! j = Some id) as Hfds.
  { intros j id. rewrite Hf, !lookup_insert_Some. split; [naive_solver|].
    intros [[-> ->]|[[-> ->]|Hj]]; [by left|right; split; [done|by left]|].
    destruct (Hold _ _ Hj) as (? & ? & _). right. split; [done|]. right. done. }
  split.
  - intros j p. rewrite Hp, lookup_insert_Some. intros [[<- <-]|[_ Hj]]; [done|by eapply po_capacity].
  - intros j p. rewrite Hp, lookup_insert_Some. intros [[<- <-]|[_ Hj]]; [done|by eapply po_positive].
  - intros j id [[-> ->]|[[-> ->]|Hj]]%Hfds.
    + split_and!; [done..|]. exists Pipe_init. rewrite Hp, Z.abs_opp, Z.abs_eq, lookup_insert_eq by lia.
      split; [done|]. by destruct (0 <? - i).
    + split_and!; [done..|]. exists Pipe_init. rewrite Hp, Z.abs_eq, lookup_insert_eq by lia.
      split; [done|]. by destruct (0 <? i).
    + destruct (Hold _ _ Hj) as (? & ? & ?). destruct (po_fd k Hk _ _ Hj) as (? & ? & p & ? & ?).
      rewrite Hkind by done. split_and!; [done..|]. exists p. by rewrite Hp, lookup_insert_ne.
  - intros j j' id H1%Hfds H2%Hfds.
    destruct H1 as [[-> ->]|[[-> ->]|H1]], H2 as [[-> ?]|[[-> ?]|H2]]; try done; try lia.
    + apply Hold in H2 as (_ & _ & []). lia.
    + apply Hold in H2 as (_ & _ & []). lia.
    + apply Hold in H1 as (_ & _ & []). lia.
    + apply Hold in H1 as (_ & _ & []). lia.
    + by eapply po_end.
  - intros j p. rewrite Hp, lookup_insert_Some. intros [[<- <-]|[Hj Hpj]].
    + split_and!; [intros _; exists rfd|intros _; exists wfd|done]; apply Hfds; auto.
    + destruct (po_open k Hk _ _ Hpj) as (H1 & H2 & H3).
      split_and!; [intros Hc; destruct (H1 Hc) as [x Hx]|intros Hc; destruct (H2 Hc) as [x Hx]|done];
        exists x; apply Hfds; auto.
Qed.

Lemma land_nonblock x : Z.land x O_NONBLOCK = 0 ∨ Z.land x O_NONBLOCK = O_NONBLOCK.
Proof.
  destruct (Z.testbit x 11) eqn:Hb; [right|left]; apply Z.bits_inj'; intros i Hi;
    rewrite Z.land_spec; change O_NONBLOCK with (2 ^ 11); rewrite ?Z.bits_0;
    destruct (decide (i = 11)) as [->|]; rewrite ?Hb, ?Z.pow2_bits_true, ?Z.pow2_bits_false by lia;
    done || by rewrite andb_false_r.
Qed.

Lemma pipe_entry_ok (mode flags : Z) :
  mode = O_RDONLY ∨ mode = O_WRONLY →
  entry_ok PIPE (Z.lor mode (Z.land flags O_NONBLOCK)) (if has flags O_CLOEXEC then FD_CLOEXEC else 0) = true.
Proof.
  intros [-> | ->]; destruct (land_nonblock flags) as [-> | ->]; by destruct (has flags O_CLOEXEC).
Qed.

(** Creation fails and changes no pipe and no descriptor, or enters a fresh
    pipe with two fresh descriptors. *)
Lemma do_pipe_cases flags k k' o :
  do_pipe flags k = (k', o) →
  (∃ e, o = Ret (e, None) ∧ e < 0 ∧ pipes_ (fss k') = pipes_ (fss k) ∧
     pipe_fds_ (fss k') = pipe_fds_ (fss k) ∧ ∀ j, fd_kind k' j = fd_kind k j) ∨
  ∃ i rfd wfd, o = Ret (0, Some (rfd, wfd)) ∧ pipes_ (fss k) !! i = None ∧ 0 < i ∧
    0 ≤ rfd ∧ 0 ≤ wfd ∧ rfd ≠ wfd ∧ fd_kind k rfd = UNKNOWN ∧ fd_kind k wfd = UNKNOWN ∧
    fd_kind k' rfd = PIPE ∧ fd_kind k' wfd = PIPE ∧
    (∀ j, j ≠ rfd → j ≠ wfd → fd_kind k' j = fd_kind k j) ∧
    pipes_ (fss k') = <[i := Pipe_init]> (pipes_ (fss k)) ∧
    pipe_fds_ (fss k') = <[wfd := - i]> (<[rfd := i]> (pipe_fds_ (fss k))).
Proof.
  unfold do_pipe, mbind, M_bind, mret, M_ret, get, with_fs, modify, fs_allocate_fd, fs_release_fd.
  destruct (has flags _); [intros [= <- <-]; left; by exists (- EINVAL)|]. cbn [fdm fss].
  destruct (next_pipe_id_spec (pipes_ (fss k))) as [Hi Hpos].
  set (i := next_pipe_id (pipes_ (fss k))) in *.
  destruct k as [[t|] s]; cbn [fdm fss] in *; cycle 1.
  { intros [= <- <-]. left. exists (- EMFILE). split_and!; try done.
    apply delete_insert_id. done. }
  destruct (allocate_fd PIPE _ _ t) as [t1 o1] eqn:A1.
  pose proof (pipe_entry_ok O_RDONLY flags ltac:(by left)) as Hok1.
  destruct (allocate_fd_next _ _ _ t Hok1) as [? A1']. rewrite A1 in A1'. injection A1' as <- ->.
  set (rfd := get_next_fd t) in *. cbn [fdm fss].
  destruct (allocate_fd PIPE _ _ t1) as [t2 o2] eqn:A2.
  pose proof (pipe_entry_ok O_WRONLY flags ltac:(by right)) as Hok2.
  destruct (allocate_fd_next _ _ _ t1 Hok2) as [? A2']. rewrite A2 in A2'. injection A2' as <- ->.
  set (wfd := get_next_fd t1) in *. cbn [fdm fss].
  destruct (Z.ltb_spec rfd 0) as [Hr|Hr]; [|destruct (Z.ltb_spec wfd 0) as [Hw|Hw]]; cbn [orb].
  - assert (t1 = t) as -> by (by eapply allocate_fd_full). fold rfd in wfd. subst wfd.
    assert (t2 = t) as -> by (by eapply allocate_fd_full).
    rewrite (proj2 (Z.leb_gt 0 rfd)) by done. intros [= <- <-]. left. exists (- EMFILE).
    split_and!; try done. by apply delete_insert_id.
  - assert (t2 = t1) as -> by (by eapply allocate_fd_full).
    destruct (allocate_fd_view _ _ _ _ _ _ A1 Hr) as [Hv Hview].
    rewrite (proj2 (Z.leb_le 0 rfd)), (proj2 (Z.leb_gt 0 wfd)) by done. intros [= <- <-]. left.
    exists (- EMFILE). split_and!; try done; [by apply delete_insert_id|].
    intros j. unfold fd_kind, get_fd_type. simpl. rewrite release_fd_view, Hview.
    destruct (decide (j = rfd)) as [->|]; [by rewrite Hv|done].
  - intros [= <- <-]. right. exists i, rfd, wfd.
    destruct (allocate_fd_view _ _ _ _ _ _ A1 Hr) as [Hv1 Hview1].
    destruct (allocate_fd_view _ _ _ _ _ _ A2 Hw) as [Hv2 Hview2].
    assert (rfd ≠ wfd) as Hne.
    { intros Heq. rewrite Hview1, decide_True in Hv2; done. }
    rewrite Hview1, decide_False in Hv2 by done.
    unfold fd_kind, get_fd_type. simpl. split_and!; try done.
    + by rewrite Hv1.
    + by rewrite Hv2.
    + rewrite Hview2, decide_False, Hview1, decide_True by done. done.
    + rewrite Hview2, decide_True by done. done.
    + intros j Hj1 Hj2. by rewrite Hview2, decide_False, Hview1, decide_False.
Qed.

Lemma pipes_ok_ext k k' :
  pipes_ok k → pipes_ (fss k') = pipes_ (fss k) → pipe_fds_ (fss k') = pipe_fds_ (fss k) →
  (∀ j, fd_kind k' j = fd_kind k j) → pipes_ok k'.
Proof.
  intros Hk Hp Hf Hkind. destruct Hk. split; rewrite ?Hp, ?Hf; try done.
  intros fd id Hfd. rewrite Hkind. auto.
Qed.

Lemma do_pipe_ok flags k : pipes_ok k → pipes_ok (do_pipe flags k).1.
Proof.
  intros Hk. destruct (do_pipe flags k) as [k' o] eqn:E. simpl.
  destruct (do_pipe_cases _ _ _ _ E) as
    [(e & _ & _ & Hp & Hf & Hkind)|(i & rfd & wfd & _ & H)]; [by eapply pipes_ok_ext|].
  destruct_and! H. by eapply (pipes_ok_create k k' i rfd wfd).
Qed.

(** Every state the pipe system calls can reach. *)
Inductive pipe_reachable : FsCtx FD * Mem → Prop :=
  | pipe_start k m : pipes_ (fss k) = ∅ → pipe_fds_ (fss k) = ∅ → pipe_reachable (k, m)
  | pipe_create km flags : pipe_reachable km → pipe_reachable ((do_pipe flags km.1).1, km.2)
  | pipe_step km op : pipe_reachable km → 0 ≤ op_count op → pipe_reachable (pipe_exec op km).1.

(** C32. In every reachable state the pipe tables agree with each other and
    with the descriptor table: every pipe descriptor is allocated as a pipe
    and names an existing pipe whose end it names is open; no two descriptors
    share an end; a pipe exists exactly as long as one of its ends is open,
    every open end has its descriptor, and no pipe is over its capacity.
    This covers creation that runs out of descriptors half way. *)
Theorem pipe_reachable_ok km : pipe_reachable km → pipes_ok km.1.
Proof.
  induction 1 as [k m Hp Hf|km flags _ IH|km op _ IH Hc].
  - split; simpl; rewrite ?Hp, ?Hf; try (intros *; rewrite lookup_empty; done).
    intros i p. by rewrite lookup_empty.
  - by apply do_pipe_ok.
  - by apply pipe_exec_ok.
Qed.
End memory.
End pipes.

(** ** Witnesses *)

Definition sample_kernel : FsCtx FdManager * FlatMem := (sample_ctx, zero_region 4096 64).

Definition sample_pipe : FsCtx FdManager * FlatMem := ((do_pipe 0 sample_kernel.1).1, sample_kernel.2).

Definition sample_ops : list pipe_op :=
  [PipeRead 3 4096 8; PipeWrite 4 4100 5; PipeRead 3 4110 3; PipeWrite 4 4096 2; PipeRead 3 4096 2].

Lemma sample_pipe_ok : pipe_reachable sample_pipe.
Proof. apply (pipe_create sample_kernel 0), pipe_start; reflexivity. Qed.

Lemma pipe_reachable_ok_witness :
  pipes_ok sample_pipe.1 ∧ entries (pipe_fds_ (fss sample_pipe.1)) = [(3, 1); (4, -1)].
Proof. split; [exact (pipe_reachable_ok _ sample_pipe_ok)|vm_compute; reflexivity]. Defined.

Lemma sample_capacity : within_capacity (pipes_ (fss sample_pipe.1)).
Proof.
  intros i p. unfold sample_pipe. vm_compute (pipes_ _).
  destruct (decide (i = 1)) as [->|Hi]; [by intros [= <-]|].
  change (<[1 := Pipe_init]> (∅ : gmap Z Pipe) !! i = Some p → zlength (buffer p) ≤ pipe_capacity).
  by rewrite lookup_insert_ne.
Qed.

Lemma pipe_fifo_witness :
  ∃ p, pipes_ (fss sample_pipe.1) !! 1 = Some p ∧
    buffer p ++ run_sent 1 sample_ops sample_pipe =
    run_received 1 sample_ops sample_pipe ++ replicate 2 x00.
Proof.
  apply (pipe_fifo 1 sample_ops sample_pipe (mkPipe (replicate 2 x00) false false)).
  - reflexivity.
  - repeat constructor; discriminate.
  - exact sample_capacity.
  - vm_compute. reflexivity.
Defined.

Lemma pipe_read_result_witness :
  do_pipe_read 3 4096 8 sample_pipe = (sample_pipe, Ret (- EAGAIN)).
Proof.
  assert (pipe_end sample_pipe.1 3 = Some 1) as He by (vm_compute; reflexivity).
  assert (pipes_ (fss sample_pipe.1) !! 1 = Some Pipe_init) as Hp by (vm_compute; reflexivity).
  pose proof (pipe_read_result 3 4096 8 sample_pipe 1 Pipe_init
    ltac:(lia) He ltac:(lia) Hp) as H.
  destruct (do_pipe_read 3 4096 8 sample_pipe) as [km' o]. simpl in H. by destruct H as [-> ->].
Defined.

