(* ===== verification/VfsProps.v ===== *)
(** * The virtual file system: properties of its operations

    What open, read, write, truncate, seek, close, unlink and rename of
    [VfsOps] do to the state, and the invariant they keep. *)

From S2P Require Import Prelude Linux Bytes FdInterface FdManager Guest Vfs VfsOps.

Section props.
Context {FD : Type} `{!DescriptorNamespace FD}.
Context (xxhash64 : str → Z) (now : timespec).
Implicit Types k : FsCtx FD.
Implicit Types s : FileSystemState.

(** Unfolding the monad. *)
Ltac unmonad :=
  unfold throw_if, mbind, M_bind, mret, M_ret, throw, get, modify, lift, with_fs in *.

(** A branch that leaves the state as it is and returns an error or throws. *)
Ltac refused := intros [= <- <-]; left; split; [done|]; intros ? [= <-]; done.

(** ** Resolution errors are errors *)

Lemma walk_error_negative fuel fs ff cs cr links cur pending e :
  walk fuel fs ff cs cr links cur pending = Some (Ret (WalkErr e)) → e < 0.
Proof.
  revert links cur pending. induction fuel as [|fuel IH]; intros links cur pending; [done|].
  cbn [walk]. destruct pending as [|part rest]; [done|].
  destruct (fs !! cur) as [parent|]; [|by intros [= <-]].
  destruct (negb (is_dir parent)); [by intros [= <-]|]. destruct (cs && _); [done|].
  destruct (creating_slash _ _); [by intros [= <-]|]. destruct (NAME_MAX <? _); [by intros [= <-]|].
  destruct (bool_decide (part = []) || _); [apply IH|].
  destruct (bool_decide (part = DOTDOT)); [apply IH|].
  destruct (fs !! join_paths cur part) as [node|]; [|apply IH].
  destruct (is_link node && _); [|apply IH]. destruct (40 <? links + 1); [by intros [= <-]|].
  destruct (bool_decide (content node = [])); [by intros [= <-]|].
  destruct (contains_nul _); [done|apply IH].
Qed.

Lemma resolve_checked_neg k dirfd p ff cs cr e :
  resolve_path_checked k dirfd p ff cs cr = Ret (WalkErr e) → e < 0.
Proof.
  unfold resolve_path_checked. destruct (bool_decide (p = [])); [by intros [= <-]|].
  assert (∀ cur, default (Throw (runtime_error "resolve_path_checked: out of fuel"))
    (walk (walk_fuel (filesystem (fss k)) (prepend p [])) (filesystem (fss k)) ff cs cr 0 cur
      (prepend p [])) = Ret (WalkErr e) → e < 0) as Hwalk.
  { intros cur. destruct (walk _ _ _ _ _ _ _ _) as [o|] eqn:E; [|done]. simpl. intros ->.
    by eapply walk_error_negative. }
  destruct (starts_with_slash p); [apply Hwalk|]. destruct (dirfd =? AT_FDCWD); [apply Hwalk|].
  destruct (kernel_allocated k dirfd); [|by intros [= <-]].
  destruct (open_files (fss k) !! dirfd) as [d|]; [|by intros [= <-]].
  cbn [negb]. destruct (filesystem (fss k) !! path d) as [n|]; [|done].
  destruct (is_dir n); [apply Hwalk|by intros [= <-]].
Qed.

(** ** open *)

(** What a successful open does to the file system. *)
Definition opened (p : str) (exists_ : bool) (flags mode fd : Z) (s : FileSystemState) : FileSystemState :=
  let s := if exists_ then s else
    update_node (parent_text p) (set_mtim now)
      (set_next_inode (next_inode_ s + 1) (set_filesystem (<[p := new_file now s mode]> (filesystem s)) s)) in
  let s := if truncates flags then update_node p (set_content [] 0 now) s else s in
  set_open_files (<[fd := mkOFD p 0]> (open_files s)) s.

(** The descriptor entry of a file opened with [flags]. *)
Definition file_entry (flags : Z) : Entry :=
  mkEntry FILE (Z.land flags (Z.lnot (Z.lor O_CLOEXEC (Z.lor O_CREAT (Z.lor O_EXCL O_TRUNC)))))
    (if has flags O_CLOEXEC then FD_CLOEXEC else 0).

Lemma open_publish_cases t p ex flags mode k k' o :
  fdm k = Some t → open_publish now t p ex flags mode k = (k', o) →
  (k' = k ∧ ∀ n, o = Ret n → n < 0) ∨
  ∃ t', let fd := get_next_fd t in
    o = Ret fd ∧ 0 ≤ fd ∧ open_files (fss k) !! fd = None ∧
    (ex = false → next_inode_ (fss k) < guest_inode_limit ∧
       ∃ d, filesystem (fss k) !! parent_text p = Some d ∧ is_dir d = true) ∧
    fd_view t fd = None ∧ fd_view t' fd = Some (file_entry flags) ∧
    (∀ j, j ≠ fd → fd_view t' j = fd_view t j) ∧
    k' = mkFsCtx (Some t') (opened p ex flags mode fd (fss k)).
Proof.
  intros Ht. unfold open_publish. destruct (Z.ltb_spec (get_next_fd t) 0) as [Hn|Hn]; [refused|].
  unmonad. set (fd := get_next_fd t) in *.
  destruct (bool_decide_reflect (is_Some (open_files (fss k) !! fd))) as [Ho|Ho]; [refused|].
  destruct (negb ex && _) eqn:Hpar; [refused|].
  destruct (negb ex && (_ <=? _)) eqn:Hino; [refused|].
  unfold fs_allocate_fd. rewrite Ht. set (st := Z.land flags _). set (de := if has flags O_CLOEXEC then _ else _).
  destruct (allocate_fd FILE st de t) as [t' r] eqn:Ha.
  destruct (entry_ok FILE st de) eqn:Hok; cycle 1.
  { rewrite allocate_fd_bad in Ha by done. injection Ha as <- <-. destruct k as [u s].
    simpl in *. subst u. refused. }
  destruct (allocate_fd_next _ _ _ t Hok) as [t1 Ha']. rewrite Ha in Ha'. injection Ha' as <- ->.
  fold fd. rewrite (proj2 (Z.ltb_ge fd 0)), Z.eqb_refl by done. cbn [negb]. intros [= <- <-].
  destruct (allocate_fd_view _ _ _ _ _ _ Ha Hn) as [Hv Hview].
  right. exists t'. cbv zeta. fold fd. split_and!; try done.
  - by apply eq_None_not_Some.
  - intros ->. cbn [negb andb] in *. apply Z.leb_gt in Hino. split; [done|].
    destruct (filesystem (fss k) !! parent_text p) as [d|]; [|done]. exists d.
    by apply negb_false_iff in Hpar.
  - rewrite Hview. by rewrite decide_True.
  - intros j Hj. rewrite Hview. by rewrite decide_False.
Qed.

(** Every way [open] ends. *)
Lemma do_openat_cases dirfd input flags mode k k' o :
  do_openat now dirfd input flags mode k = (k', o) →
  (k' = k ∧ ∀ n, o = Ret n → n < 0) ∨
  ∃ t t' p, fdm k = Some t ∧ let fd := get_next_fd t in
    resolve_path_checked k dirfd input
      (negb (has flags O_CREAT && has flags O_EXCL) && negb (has flags O_NOFOLLOW)) false
      (has flags O_CREAT) = Ret (WalkOk p) ∧
    o = Ret fd ∧ 0 ≤ fd ∧ open_files (fss k) !! fd = None ∧
    match filesystem (fss k) !! p with
    | Some n => is_link n = false ∧ (has flags O_CREAT && has flags O_EXCL) = false ∧
        (truncates flags = true → is_mapped p (fss k) = false) ∧
        (Z.land flags O_ACCMODE ≠ O_RDONLY → is_dir n = false)
    | None => has flags O_CREAT = true ∧ next_inode_ (fss k) < guest_inode_limit ∧
        ∃ d, filesystem (fss k) !! parent_text p = Some d ∧ is_dir d = true
    end ∧
    fd_view t fd = None ∧ fd_view t' fd = Some (file_entry flags) ∧
    (∀ j, j ≠ fd → fd_view t' j = fd_view t j) ∧
    k' = mkFsCtx (Some t')
           (opened p (bool_decide (is_Some (filesystem (fss k) !! p))) flags mode fd (fss k)).
Proof.
  unfold do_openat. destruct (bool_decide (input = [])); [refused|].
  destruct (contains_nul input); [refused|]. destruct (_ || _); [refused|]. unmonad.
  destruct (has flags _ || _); [refused|]. destruct (fdm k) as [t|] eqn:Ht; [|refused].
  destruct (resolve_path_checked _ _ _ _ _ _) as [[p|e]|e] eqn:Hw; [| |refused]; cycle 1.
  { intros [= <- <-]. left. split; [done|]. intros n [= <-]. by eapply resolve_checked_neg. }
  destruct (bool_decide (p = PROC_SELF) && _); [refused|]. cbv zeta.
  set (it := filesystem (fss k) !! p). set (excl := has flags O_CREAT && has flags O_EXCL) in *.
  remember (match it with Some _ => _ | None => _ end) as early eqn:Hdef.
  assert (∀ e, early = Some e → e < 0) as Hearly.
  { intros e. rewrite Hdef. destruct it as [n|].
    - destruct (is_link n); [destruct excl, (has flags O_DIRECTORY); by intros [= <-]|].
      destruct excl; [by intros [= <-]|].
      destruct (has flags O_DIRECTORY && _); [by intros [= <-]|].
      destruct (is_dir n && _); [by intros [= <-]|done].
    - destruct (_ || _); [by intros [= <-]|done]. }
  destruct early as [e|].
  { intros [= <- <-]. left. split; [done|]. intros n [= <-]. by apply Hearly. }
  destruct (bool_decide (executable_path _ = _) && _); [refused|].
  destruct ((if has flags O_TRUNC then require_unmapped_file p else λ x, (x, Ret tt)) k)
    as [k1 r] eqn:Hreq.
  assert (k1 = k ∧ (r = Ret tt → truncates flags = true → is_mapped p (fss k) = false)) as [-> Hm].
  { unfold truncates, require_unmapped_file in *. unmonad. destruct (has flags O_TRUNC).
    - destruct (is_mapped p (fss k)); injection Hreq as <- <-; done.
    - injection Hreq as <- <-. done. }
  destruct r as [[]|]; [|refused]. specialize (Hm eq_refl). intros Hp.
  destruct (open_publish_cases _ _ _ _ _ _ _ _ Ht Hp) as [Hl|(t' & H)]; [by left|].
  right. cbv zeta in H. destruct H as (-> & Hfd & Hof & Hpar & Hv & Hkind & Hview & ->).
  exists t, t', p. split; [done|]. cbv zeta. split_and!; try done. fold it excl.
  symmetry in Hdef. destruct it as [n|].
  - destruct (is_link n); [done|]. destruct excl; [done|]. split; [done|]. split; [done|].
    split; [done|]. intros Hacc. destruct (has flags O_DIRECTORY && _); [done|].
    rewrite (proj2 (Z.eqb_neq _ _) Hacc) in Hdef. cbn [negb] in Hdef.
    rewrite orb_true_r in Hdef. by destruct (is_dir n).
  - destruct (has flags O_CREAT); [|by rewrite orb_true_r in Hdef]. split; [done|].
    apply Hpar. by rewrite bool_decide_false by apply is_Some_None.
Qed.

(** ** File contents *)

Lemma zlength_zeros n : 0 ≤ n → zlength (zeros n) = n.
Proof. intros. unfold zlength, zeros. rewrite length_replicate. lia. Qed.

Lemma zlength_resize n c : 0 ≤ n → zlength (resize n c) = n.
Proof.
  intros Hn. unfold resize, zeros, zlength. rewrite length_app, length_take, length_replicate. lia.
Qed.

(** The bytes of a resized file: the old ones, then zeros. *)
Lemma lookup_resize n c i :
  (i < Z.to_nat n)%nat →
  resize n c !! i = Some (default x00 (c !! i)).
Proof.
  intros Hi. unfold resize, zeros. destruct (decide (i < length c)%nat) as [Hc|Hc].
  - rewrite lookup_app_l, lookup_take_lt by (rewrite ?length_take; lia).
    destruct (lookup_lt_is_Some_2 c i Hc) as [b ->]. done.
  - rewrite lookup_app_r by (rewrite length_take; lia). rewrite (lookup_ge_None_2 c i) by lia.
    apply lookup_replicate. rewrite length_take. unfold zlength. split; [done|lia].
Qed.

(** The bytes of a file after a write: the written ones in their range, the
    old ones elsewhere, zeros in a gap past the old end. *)
Lemma file_content_write_spec off src c c' :
  0 ≤ off → file_content_write off src c = Ret c' → src ≠ [] →
  zlength c' = Z.max (zlength c) (off + zlength src) ∧
  ∀ i, 0 ≤ i < zlength c' →
    c' !! Z.to_nat i =
      if decide (off ≤ i < off + zlength src) then src !! Z.to_nat (i - off)
      else Some (default x00 (c !! Z.to_nat i)).
Proof.
  intros Hoff Hw Hsrc. unfold file_content_write in Hw.
  destruct (Z.eqb_spec (zlength src) 0) as [H0|H0].
  { destruct src; [done|]. rewrite zlength_cons in H0. pose proof (zlength_nonneg src). lia. }
  destruct (_ <? _); [done|]. injection Hw as <-.
  set (d := if _ <? _ then _ else c).
  assert (zlength d = Z.max (zlength c) (off + zlength src) ∧
    ∀ i, (i < length d)%nat → d !! i = Some (default x00 (c !! i))) as [Hd Hdi].
  { subst d. pose proof (zlength_nonneg src). destruct (Z.ltb_spec (zlength c) (off + zlength src)).
    - rewrite zlength_resize by lia. split; [lia|]. intros i Hi. apply lookup_resize.
      assert (zlength (resize (off + zlength src) c) = off + zlength src) as Hz
        by (apply zlength_resize; lia). unfold zlength in Hz at 1. lia.
    - split; [lia|]. intros i Hi. destruct (lookup_lt_is_Some_2 c i Hi) as [b Hb]. by rewrite Hb. }
  clearbody d. unfold overwrite. unfold zlength in *.
  assert (length (take (Z.to_nat off) d) = Z.to_nat off) as Htake by (rewrite length_take; lia).
  split.
  { rewrite !length_app, Htake, length_drop. lia. }
  intros i Hi. rewrite !length_app, Htake, length_drop in Hi.
  destruct (decide (off ≤ i < off + Z.of_nat (length src))) as [Hin|Hout].
  - rewrite lookup_app_r, Htake by lia. rewrite lookup_app_l by lia. f_equal. lia.
  - rewrite <- Hdi by lia. destruct (decide (i < off)).
    + rewrite lookup_app_l by lia. apply lookup_take_lt. lia.
    + rewrite lookup_app_r, Htake by lia. rewrite lookup_app_r by lia. rewrite lookup_drop. f_equal. lia.
Qed.

(** ** write and read *)

Definition write_offset k fd (ofd : OpenFileDescription) (node : VFSNode) : Z :=
  if has (fd_status k fd) O_APPEND || bool_decide (fd_kind k fd = STDIO)
  then zlength (content node) else offset ofd.

Definition written (fd : Z) (p : str) (off : Z) (c : list byte) (s : FileSystemState) : FileSystemState :=
  update_node p (set_content c (zlength c) now)
    (set_open_files (<[fd := mkOFD p off]> (open_files s)) s).

Lemma do_write_cases fd buf k k' o :
  do_write now fd buf k = (k', o) →
  (k' = k ∧ ∀ n, o = Ret n → n ≤ 0) ∨
  ∃ ofd node c, let off := write_offset k fd ofd node in
    open_files (fss k) !! fd = Some ofd ∧ kernel_allocated k fd = true ∧
    filesystem (fss k) !! path ofd = Some node ∧
    Z.land (fd_status k fd) O_ACCMODE ≠ O_RDONLY ∧ is_mapped (path ofd) (fss k) = false ∧
    buf ≠ [] ∧ off + zlength buf ≤ INT64_MAX ∧ file_content_write off buf (content node) = Ret c ∧
    o = Ret (zlength buf) ∧ k' = mkFsCtx (fdm k) (written fd (path ofd) (off + zlength buf) c (fss k)).
Proof.
  unfold do_write, fs_at. unmonad.
  destruct (open_files (fss k) !! fd) as [ofd|]; [|refused].
  destruct (kernel_allocated k fd); [|refused]. cbn [negb].
  destruct (filesystem (fss k) !! path ofd) as [node|] eqn:Hnode; [|refused].
  destruct (Z.eqb_spec (Z.land (fd_status k fd) O_ACCMODE) O_RDONLY) as [|Hacc]; [refused|].
  destruct (Z.eqb_spec (zlength buf) 0) as [|Hne]; [refused|].
  unfold require_unmapped_file. unmonad. destruct (is_mapped (path ofd) (fss k)) eqn:Hm; [refused|].
  fold (write_offset k fd ofd node).
  destruct (Z.ltb_spec (INT64_MAX - write_offset k fd ofd node) (zlength buf)); [refused|].
  destruct (file_content_write _ _ _) as [c|] eqn:Hc; [|refused].
  intros [= <- <-]. right. exists ofd, node, c. cbv zeta. split_and!; try done; [|lia].
  by intros ->.
Qed.

Lemma do_read_cases fd count k k' o :
  0 ≤ count → do_read fd count k = (k', o) →
  (k' = k ∧ ∀ n bs, o = Ret (n, bs) → n ≤ 0 ∧ bs = []) ∨
  ∃ ofd node, let n := Z.min count (zlength (content node) - offset ofd) in
    open_files (fss k) !! fd = Some ofd ∧ kernel_allocated k fd = true ∧
    filesystem (fss k) !! path ofd = Some node ∧
    uint64 (offset ofd) < zlength (content node) ∧ n ≠ 0 ∧
    o = Ret (n, take (Z.to_nat n) (drop (Z.to_nat (offset ofd)) (content node))) ∧
    k' = mkFsCtx (fdm k)
      (set_open_files (<[fd := mkOFD (path ofd) (offset ofd + n)]> (open_files (fss k))) (fss k)).
Proof.
  intros Hc. unfold do_read, fs_at. unmonad.
  assert (∀ e, e ≤ 0 → (k, Ret (e, [])) = (k', o) → k' = k ∧ ∀ n (bs : list byte), o = Ret (n, bs) → n ≤ 0 ∧ bs = [])
    as Hr by (intros e He [= <- <-]; split; [done|]; by intros n bs [= <- <-]).
  assert (∀ e, (k, Throw e) = (k', o) → k' = k ∧ ∀ n (bs : list byte), o = Ret (n, bs) → n ≤ 0 ∧ bs = [])
    as Ht by (intros e [= <- <-]; split; [done|]; by intros n bs [=]).
  destruct (open_files (fss k) !! fd) as [ofd|]; [|intros H; left; by eapply Hr; [|exact H]].
  destruct (kernel_allocated k fd); [|intros H; left; by eapply Hr; [|exact H]]. cbn [negb].
  destruct (filesystem (fss k) !! path ofd) as [node|] eqn:Hnode; [|intros H; left; by eapply Ht].
  destruct (is_dir node); [intros H; left; by eapply Hr; [|exact H]|].
  destruct (_ =? O_WRONLY); [intros H; left; by eapply Hr; [|exact H]|].
  destruct (Z.leb_spec (zlength (content node)) (uint64 (offset ofd)));
    [intros H'; left; by eapply Hr; [|exact H']|].
  destruct (Z.eqb_spec (Z.min count (zlength (content node) - offset ofd)) 0);
    [intros H'; left; by eapply Hr; [|exact H']|].
  intros [= <- <-]. right. by exists ofd, node.
Qed.

Lemma do_lseek_cases fd off whence k k' o :
  do_lseek fd off whence k = (k', o) →
  (k' = k ∧ ∀ n, o = Ret n → n < 0) ∨
  ∃ ofd node n, open_files (fss k) !! fd = Some ofd ∧ kernel_allocated k fd = true ∧
    filesystem (fss k) !! path ofd = Some node ∧ 0 ≤ n ≤ INT64_MAX ∧
    ((whence = SEEK_SET ∧ n = off) ∨ (whence = SEEK_CUR ∧ n = offset ofd + off) ∨
     (whence = SEEK_END ∧ n = zlength (content node) + off)) ∧
    o = Ret n ∧
    k' = mkFsCtx (fdm k) (set_open_files (<[fd := mkOFD (path ofd) n]> (open_files (fss k))) (fss k)).
Proof.
  unfold do_lseek, fs_at. unmonad. destruct (open_files (fss k) !! fd) as [ofd|]; [|refused].
  destruct (kernel_allocated k fd); [|refused]. cbn [negb].
  destruct (filesystem (fss k) !! path ofd) as [node|] eqn:Hnode; [|refused].
  destruct (bool_decide (fd_kind k fd = STDIO)); [refused|]. cbv zeta.
  set (base := if whence =? SEEK_SET then _ else _).
  assert (∀ b, base = Some b → (whence = SEEK_SET ∧ b = 0) ∨ (whence = SEEK_CUR ∧ b = offset ofd) ∨
    (whence = SEEK_END ∧ b = zlength (content node))) as Hbase.
  { intros b. subst base. destruct (Z.eqb_spec whence SEEK_SET); [intros [= <-]; by left|].
    destruct (Z.eqb_spec whence SEEK_CUR); [intros [= <-]; by right; left|].
    destruct (Z.eqb_spec whence SEEK_END); [|done]. destruct (is_dir node); [done|].
    intros [= <-]. by right; right. }
  destruct base as [b|]; [|refused].
  destruct (Z.ltb_spec (b + off) INT64_MIN), (Z.ltb_spec INT64_MAX (b + off)); cbn [orb]; try refused.
  destruct (Z.ltb_spec (b + off) 0); [refused|]. intros [= <- <-]. right.
  exists ofd, node, (b + off). split_and!; try done.
  destruct (Hbase b eq_refl) as [[-> ->]|[[-> ->]|[-> ->]]]; [by left|by right; left|by right; right].
Qed.

Lemma do_ftruncate_cases fd len k k' o :
  do_ftruncate now fd len k = (k', o) →
  (k' = k ∧ ∀ n, o = Ret n → n < 0) ∨
  ∃ ofd node, open_files (fss k) !! fd = Some ofd ∧ filesystem (fss k) !! path ofd = Some node ∧
    0 ≤ len ∧ is_reg node = true ∧ Z.land (fd_status k fd) O_ACCMODE ≠ O_RDONLY ∧
    is_mapped (path ofd) (fss k) = false ∧ len - zlength (content node) ≤ maximum_dense_growth ∧
    o = Ret 0 ∧
    k' = mkFsCtx (fdm k)
      (update_node (path ofd) (set_content (resize len (content node)) len now) (fss k)).
Proof.
  unfold do_ftruncate, fs_at. destruct (Z.ltb_spec len 0) as [|Hlen]; [refused|]. unmonad.
  destruct (kernel_allocated k fd); [|refused]. cbn [negb].
  destruct (bool_decide (fd_kind k fd = FILE)); [|refused]. cbn [negb].
  destruct (open_files (fss k) !! fd) as [ofd|]; [|refused].
  destruct (filesystem (fss k) !! path ofd) as [node|] eqn:Hnode; [|refused].
  destruct (is_reg node) eqn:Hreg; [|refused]. cbn [negb orb].
  destruct (Z.eqb_spec (Z.land (fd_status k fd) O_ACCMODE) O_RDONLY) as [|Hacc]; [refused|].
  unfold require_unmapped_file. unmonad. destruct (is_mapped (path ofd) (fss k)) eqn:Hm; [refused|].
  destruct ((zlength (content node) <? len) && _) eqn:Hg; [refused|]. intros [= <- <-]. right.
  exists ofd, node. split_and!; try done.
  unfold maximum_dense_growth in *. apply andb_false_iff in Hg as [?%Z.ltb_ge|?%Z.ltb_ge]; lia.
Qed.

Lemma do_close_cases fd k k' o :
  do_close fd k = (k', o) →
  (k' = k ∧ o = Ret (- EBADF)) ∨
  (kernel_allocated k fd = true ∧ is_Some (open_files (fss k) !! fd) ∧ o = Ret 0 ∧
   k' = mkFsCtx (release_fd fd <$> fdm k) (set_open_files (delete fd (open_files (fss k))) (fss k))).
Proof.
  unfold do_close, fs_release_fd. unmonad. destruct (kernel_allocated k fd); cbn [negb orb]; cycle 1.
  { intros [= <- <-]. by left. }
  destruct (bool_decide_reflect (is_Some (open_files (fss k) !! fd))); cbn [negb];
    intros [= <- <-]; [by right|by left].
Qed.

(** ** unlink and rename *)

(** A path on which [require_namespace_mutable] passes. *)
Record mutable (p : str) (s : FileSystemState) : Prop := {
  mu_closed fd d : open_files s !! fd = Some d → path d ≠ p;
  mu_unmapped : is_mapped p s = false;
  mu_exe : executable_path s ≠ Some p;
}.

Lemma require_namespace_mutable_ok p s : require_namespace_mutable p s = Ret tt → mutable p s.
Proof.
  unfold require_namespace_mutable. destruct (bool_decide (p = EXE_LINK)); [done|].
  destruct (bool_decide_reflect (executable_path s = Some p)) as [|He]; [done|].
  destruct (existsb _ _) eqn:Hx; [done|]. destruct (is_mapped p s) eqn:Hm; [done|]. intros _.
  split; [|done..]. intros fd d Hd Hp. rewrite <- not_true_iff_false, existsb_exists in Hx.
  apply Hx. exists (fd, d). split; [by apply list_elem_of_In, elem_of_entries|].
  by apply bool_decide_eq_true_2.
Qed.

Definition unlinked (parent p : str) (s : FileSystemState) : FileSystemState :=
  update_node parent (set_mtim now) (set_filesystem (delete p (filesystem s)) s).

Lemma leaf_flags_neg (o : outcome Z) e : leaf_unlink_flags e = o → ∀ n, o = Ret n → n ≤ 0.
Proof.
  unfold leaf_unlink_flags. intros <- n. destruct (has _ _); [by intros [= <-]|].
  destruct (negb _); [done|]. by intros [= <-].
Qed.

Lemma resolve_leaf_cases k dirfd input r :
  resolve_namespace_leaf k dirfd input = Ret r →
  match r with
  | inl e => e < 0
  | inr l => leaf_kind l = Normal →
      leaf_path l = join_paths (leaf_parent l) (leaf_name l) ∧
      ∃ d, filesystem (fss k) !! leaf_parent l = Some d ∧ is_dir d = true
  end.
Proof.
  unfold resolve_namespace_leaf. destruct (bool_decide (input = [])); [by intros [= <-]|].
  destruct (contains_nul input); [by intros [= <-]|].
  destruct (bool_decide (strip_slashes input = [])); [by intros [= <-]|].
  set (np := match find_last_slash (strip_slashes input) with Some _ => _ | None => _ end).
  destruct np as [name parent].
  destruct (resolve_path_checked k dirfd parent true false false) as [[q|e]|] eqn:Hw;
    cbn [mbind outcome_bind]; [| |done]; cycle 1.
  { intros [= <-]. by eapply resolve_checked_neg. }
  destruct (filesystem (fss k) !! q) as [d|] eqn:Hd; [|by intros [= <-]].
  destruct (is_dir d) eqn:Hdir; cbn [negb]; [|by intros [= <-]].
  destruct (bool_decide (name = DOT)); [by intros [= <-]|].
  destruct (bool_decide (name = DOTDOT)); [by intros [= <-]|].
  intros [= <-] _. split; [done|]. by exists d.
Qed.

Lemma do_unlinkat_cases dirfd input flags k k' o :
  do_unlinkat xxhash64 now dirfd input flags k = (k', o) →
  (k' = k ∧ ∀ n, o = Ret n → n < 0) ∨
  ∃ leaf node d, resolve_namespace_leaf k dirfd input = Ret (inr leaf) ∧ leaf_kind leaf = Normal ∧
    filesystem (fss k) !! leaf_path leaf = Some node ∧ is_reg node || is_link node = true ∧
    filesystem (fss k) !! leaf_parent leaf = Some d ∧ is_dir d = true ∧
    mutable (leaf_path leaf) (fss k) ∧ validate_inode_state xxhash64 (fss k) = Ret tt ∧
    o = Ret 0 ∧ k' = mkFsCtx (fdm k) (unlinked (leaf_parent leaf) (leaf_path leaf) (fss k)).
Proof.
  unfold do_unlinkat, fs_at. unmonad.
  destruct (leaf_unlink_flags flags) as [e|] eqn:Hf; [|refused].
  destruct (Z.eqb_spec e 0) as [->|He]; cbn [negb]; cycle 1.
  { intros [= <- <-]. left. split; [done|]. intros n [= <-].
    pose proof (leaf_flags_neg _ _ Hf e eq_refl). lia. }
  destruct (resolve_namespace_leaf k dirfd input) as [[e|leaf]|] eqn:Hl; [| |refused].
  { intros [= <- <-]. left. split; [done|]. intros n [= <-]. by apply resolve_leaf_cases in Hl. }
  destruct (bool_decide_reflect (leaf_kind leaf = Normal)) as [Hk|Hk]; cbn [negb]; [|refused].
  destruct (NAME_MAX <? _); [refused|].
  destruct (filesystem (fss k) !! leaf_path leaf) as [node|] eqn:Hn; [|refused].
  destruct (trailing_slash leaf && _); [refused|]. destruct (is_dir node); [refused|].
  destruct (negb (is_reg node) && _) eqn:Hty; [refused|].
  destruct (filesystem (fss k) !! leaf_parent leaf) as [d|] eqn:Hd; [|refused].
  destruct (has _ S_ISVTX); [refused|].
  destruct (require_namespace_mutable _ _) as [[]|] eqn:Hm; [|refused].
  destruct (validate_inode_state _ _) as [[]|] eqn:Hv; [|refused].
  intros [= <- <-]. right. exists leaf, node, d.
  destruct (resolve_leaf_cases _ _ _ _ Hl Hk) as (_ & d' & Hd' & Hdir). rewrite Hd in Hd'. injection Hd' as <-.
  split_and!; try done; [|by apply require_namespace_mutable_ok].
  apply andb_false_iff in Hty as [H|H]; apply negb_false_iff in H; rewrite H; [done|apply orb_true_r].
Qed.

(** The inode stored under the new name, so that the visible one is kept. *)
Definition carried_inode (old new : str) (source : VFSNode) : Z :=
  let inode := node_inode xxhash64 old source in
  if inode =? initial_vfs_inode xxhash64 new then 0 else inode.

Definition renamed (old new : NamespaceLeaf) (source : VFSNode) (s : FileSystemState) : FileSystemState :=
  update_node (leaf_parent new) (set_mtim now)
    (update_node (leaf_parent old) (set_mtim now)
      (set_filesystem
        (<[leaf_path new := set_ino (carried_inode (leaf_path old) (leaf_path new) source) source]>
          (delete (leaf_path new) (delete (leaf_path old) (filesystem s)))) s)).

Record rename_done k (olddirfd : Z) (oldname : str) (newdirfd : Z) (newname : str) (flags : Z)
    (old new : NamespaceLeaf) (source : VFSNode) : Prop := {
  rd_old : resolve_namespace_leaf k olddirfd oldname = Ret (inr old);
  rd_new : resolve_namespace_leaf k newdirfd newname = Ret (inr new);
  rd_normal : leaf_kind old = Normal ∧ leaf_kind new = Normal;
  rd_source : filesystem (fss k) !! leaf_path old = Some source;
  rd_type : is_reg source || is_link source = true;
  rd_target : ∀ n, filesystem (fss k) !! leaf_path new = Some n → is_dir n = false ∧ has flags 1 = false;
  rd_distinct : leaf_path old ≠ leaf_path new;
  rd_parents : ∃ od nd, filesystem (fss k) !! leaf_parent old = Some od ∧ is_dir od = true ∧
    filesystem (fss k) !! leaf_parent new = Some nd ∧ is_dir nd = true;
  rd_mutable : mutable (leaf_path old) (fss k) ∧ mutable (leaf_path new) (fss k);
  rd_valid : validate_inode_state xxhash64 (fss k) = Ret tt;
}.

Lemma do_renameat2_cases odf oldname ndf newname flags k k' o :
  do_renameat2 xxhash64 now odf oldname ndf newname flags k = (k', o) →
  (k' = k ∧ ∀ n, o = Ret n → n ≤ 0) ∨
  ∃ old new source, rename_done k odf oldname ndf newname flags old new source ∧
    o = Ret 0 ∧ k' = mkFsCtx (fdm k) (renamed old new source (fss k)).
Proof.
  unfold do_renameat2, fs_at. unmonad.
  destruct (leaf_rename_flags flags) as [e|] eqn:Hf; [|refused].
  destruct (Z.eqb_spec e 0) as [->|He]; cbn [negb]; cycle 1.
  { intros [= <- <-]. left. split; [done|]. intros n [= <-]. revert Hf. unfold leaf_rename_flags.
    destruct (_ || _); [by intros [= <-]|]. destruct (has flags 6); [done|]. by intros [= <-]. }
  destruct (resolve_namespace_leaf k odf oldname) as [[e|old]|] eqn:Hl1; [| |refused].
  { intros [= <- <-]. left. split; [done|]. intros n [= <-]. apply resolve_leaf_cases in Hl1. lia. }
  destruct (resolve_namespace_leaf k ndf newname) as [[e|new]|] eqn:Hl2; [| |refused].
  { intros [= <- <-]. left. split; [done|]. intros n [= <-]. apply resolve_leaf_cases in Hl2. lia. }
  destruct (_ || _); [refused|].
  destruct (bool_decide_reflect (leaf_kind old = Normal)) as [Hk1|Hk1]; cbn [negb]; [|refused].
  destruct (bool_decide_reflect (leaf_kind new = Normal)) as [Hk2|Hk2]; cbn [negb];
    [|destruct (has flags 1); refused].
  destruct (NAME_MAX <? zlength (leaf_name old)); [refused|].
  destruct (filesystem (fss k) !! leaf_path old) as [source|] eqn:Hs; [|refused].
  destruct (NAME_MAX <? zlength (leaf_name new)); [refused|]. cbv zeta.
  destruct (has flags 1 && _) eqn:Hex; [refused|]. destruct (_ && negb (is_dir source)); [refused|].
  destruct (negb (is_dir source) && _) eqn:Hdt; [refused|]. destruct (is_dir source && _); [refused|].
  destruct (bool_decide_reflect (leaf_path old = leaf_path new)) as [|Hne]; [refused|].
  destruct (is_dir source) eqn:Hsd; [refused|]. destruct (negb (is_reg source) && _) eqn:Hty; [refused|].
  destruct (resolve_leaf_cases _ _ _ _ Hl1 Hk1) as (_ & od & Hod & Hodir).
  destruct (resolve_leaf_cases _ _ _ _ Hl2 Hk2) as (_ & nd & Hnd & Hndir).
  rewrite Hod, Hnd. destruct (has _ S_ISVTX); [refused|].
  destruct (require_namespace_mutable (leaf_path old) _) as [[]|] eqn:Hm1; [|refused].
  destruct (require_namespace_mutable (leaf_path new) _) as [[]|] eqn:Hm2; [|refused].
  destruct (validate_inode_state _ _) as [[]|] eqn:Hv; [|refused].
  intros [= <- <-]. right. exists old, new, source. split; [|done].
  split; try done; [| |eauto 7|].
  - apply andb_false_iff in Hty as [H|H]; apply negb_false_iff in H; rewrite H; [done|apply orb_true_r].
  - intros n Hn. rewrite Hn in *. cbn [negb andb] in *. split; [done|].
    rewrite bool_decide_true in Hex by done. by rewrite andb_true_r in Hex.
  - by split; apply require_namespace_mutable_ok.
Qed.
End props.
