(* ===== verification/VfsInv.v ===== *)
(** * The virtual file system: invariant and theorems

    The well-formedness of the file system, kept by every operation, and the
    properties of open, read, write, unlink and rename. *)

From S2P Require Import Prelude Linux Bytes FdInterface FdManager Guest Vfs VfsOps VfsProps.

Section invariant.
Context {FD : Type} `{!DescriptorNamespace FD}.
Context (xxhash64 : str → Z).
(** The hash is an unsigned 64-bit number. *)
Context (xxhash64_range : ∀ p, 0 ≤ xxhash64 p < 2 ^ 64).
Implicit Types k : FsCtx FD.
Implicit Types s : FileSystemState.

Definition fd_entry k (fd : Z) : option Entry := fdm k ≫= λ t, fd_view t fd.

Lemma fd_entry_status k fd e : fd_entry k fd = Some e → fd_status k fd = status_flags e.
Proof. unfold fd_entry, fd_status, get_status_flags. destruct (fdm k); simpl; [|done]. by intros ->. Qed.

Lemma fd_entry_kind k fd e : fd_entry k fd = Some e → fd_kind k fd = kind e.
Proof. unfold fd_entry, fd_kind, get_fd_type. destruct (fdm k); simpl; [|done]. by intros ->. Qed.

Lemma fd_entry_allocated k fd e : fd_entry k fd = Some e → kernel_allocated k fd = true.
Proof. unfold fd_entry, kernel_allocated, is_allocated. destruct (fdm k); simpl; [|done]. by intros ->. Qed.

(** An open description: its file is there and is not a link, and a
    descriptor that can write is not one of a directory. *)
Record description_ok k (fs : gmap str VFSNode) (fd : Z) (d : OpenFileDescription) : Prop := {
  do_offset : 0 ≤ offset d ≤ INT64_MAX;
  do_entry : ∃ e, fd_entry k fd = Some e ∧ (kind e = FILE ∨ kind e = STDIO) ∧
    ∃ n, fs !! path d = Some n ∧ is_link n = false ∧
      (Z.land (status_flags e) O_ACCMODE ≠ O_RDONLY → is_dir n = false);
}.

Record node_ok (next : Z) (n : VFSNode) : Prop := {
  no_size : st_size (metadata n) = zlength (content n);
  no_length : zlength (content n) ≤ INT64_MAX;
  no_ino : 0 ≤ st_ino (metadata n);
  no_fresh : st_ino (metadata n) < guest_inode_limit → st_ino (metadata n) < next;
}.

Definition inodes_unique (fs : gmap str VFSNode) : Prop :=
  ∀ p q n m, fs !! p = Some n → fs !! q = Some m →
    node_inode xxhash64 p n = node_inode xxhash64 q m → p = q.

Record fs_ok k : Prop := {
  fo_open fd d : open_files (fss k) !! fd = Some d → description_ok k (filesystem (fss k)) fd d;
  fo_node p n : filesystem (fss k) !! p = Some n → node_ok (next_inode_ (fss k)) n;
  fo_counter : 0 < next_inode_ (fss k) ≤ guest_inode_limit;
  fo_unique : inodes_unique (filesystem (fss k));
}.

(** ** Changes of one node *)

(** [g] keeps what kind of file a node is and its identity. *)
Definition keeps (g : VFSNode → VFSNode) : Prop :=
  ∀ n, st_mode (metadata (g n)) = st_mode (metadata n) ∧ st_ino (metadata (g n)) = st_ino (metadata n).

Lemma keeps_mtim t : keeps (set_mtim t).
Proof. done. Qed.

Lemma keeps_content c z t : keeps (set_content c z t).
Proof. done. Qed.

Lemma lookup_alter_back (g : VFSNode → VFSNode) (fs : gmap str VFSNode) (p q : str) n :
  alter g p fs !! q = Some n → ∃ n0, fs !! q = Some n0 ∧ n = (if decide (q = p) then g n0 else n0).
Proof.
  destruct (decide (q = p)) as [->|Hne]; [rewrite lookup_alter_eq|rewrite lookup_alter_ne by done; eauto].
  destruct (fs !! p) as [n0|]; simpl; [|done]. intros [= <-]. eauto.
Qed.

Lemma unique_alter (g : VFSNode → VFSNode) (p : str) fs : keeps g → inodes_unique fs → inodes_unique (alter g p fs).
Proof.
  intros Hg Hu q1 q2 n1 n2 (m1 & H1 & ->)%lookup_alter_back (m2 & H2 & ->)%lookup_alter_back Heq.
  eapply Hu; [exact H1|exact H2|]. revert Heq. unfold node_inode.
  destruct (decide (q1 = p)), (decide (q2 = p)); by rewrite ?(proj2 (Hg _)).
Qed.

Lemma description_alter k k' (g : VFSNode → VFSNode) (p : str) fs fd d :
  keeps g → fd_entry k' fd = fd_entry k fd → description_ok k fs fd d →
  description_ok k' (alter g p fs) fd d.
Proof.
  intros Hg He [Ho (e & Hfd & Hk & n & Hn & Hl & Hd)]. split; [done|]. exists e. rewrite He.
  split; [done|]. split; [done|].
  destruct (decide (path d = p)) as [<-|Hne].
  - exists (g n). rewrite lookup_alter_eq, Hn. unfold is_link, is_dir in *. by rewrite (proj1 (Hg n)).
  - exists n. by rewrite lookup_alter_ne.
Qed.

Lemma fs_ok_update k p g :
  fs_ok k → keeps g →
  (∀ n, filesystem (fss k) !! p = Some n → node_ok (next_inode_ (fss k)) n → node_ok (next_inode_ (fss k)) (g n)) →
  fs_ok (mkFsCtx (fdm k) (update_node p g (fss k))).
Proof.
  intros Hk Hg Hn. split; simpl.
  - intros fd d Hd. apply (description_alter k); [done|done|]. by apply Hk.
  - intros q n (n0 & Hn0 & ->)%lookup_alter_back. destruct (decide (q = p)) as [->|]; [|by eapply fo_node].
    apply Hn; [done|]. by eapply fo_node.
  - apply Hk.
  - apply unique_alter; [done|apply Hk].
Qed.

Lemma node_ok_mtim next t n : node_ok next n → node_ok next (set_mtim t n).
Proof. by intros []. Qed.

Lemma node_ok_content next c t n :
  zlength c ≤ INT64_MAX → node_ok next n → node_ok next (set_content c (zlength c) t n).
Proof. by intros ? []. Qed.

(** Moving a description's offset. *)
Lemma fs_ok_seek k fd d z :
  fs_ok k → open_files (fss k) !! fd = Some d → 0 ≤ z ≤ INT64_MAX →
  fs_ok (mkFsCtx (fdm k) (set_open_files (<[fd := mkOFD (path d) z]> (open_files (fss k))) (fss k))).
Proof.
  intros Hk Hd Hz. split; simpl; [|apply Hk..].
  intros j d' [[<- <-]|[_ Hj]]%lookup_insert_Some.
  - destruct (fo_open k Hk _ _ Hd) as [_ He]. by split.
  - destruct (fo_open k Hk _ _ Hj) as [Ho He]. by split.
Qed.

(** ** Each operation keeps the invariant *)

Lemma fs_ok_write now fd buf k : fs_ok k → fs_ok (do_write now fd buf k).1.
Proof.
  intros Hk. destruct (do_write now fd buf k) as [k' o] eqn:E. simpl.
  destruct (do_write_cases _ _ _ _ _ _ E) as
    [[-> _]|(d & node & c & Hd & _ & Hn & _ & _ & Hb & Hoff & Hc & _ & ->)]; [done|].
  set (off := write_offset k fd d node) in *.
  assert (0 ≤ off) as H0.
  { subst off. unfold write_offset. destruct (fo_open k Hk _ _ Hd) as [Ho _].
    pose proof (zlength_nonneg (content node)). destruct (_ || _); lia. }
  pose proof (zlength_nonneg buf). destruct (file_content_write_spec off buf (content node) c) as [Hlen _]; try done.
  pose proof (no_length _ _ (fo_node k Hk _ _ Hn)).
  apply (fs_ok_update (mkFsCtx (fdm k) (set_open_files (<[fd := mkOFD (path d) (off + zlength buf)]>
    (open_files (fss k))) (fss k)))).
  - apply (fs_ok_seek k fd d); [done|done|lia].
  - apply keeps_content.
  - intros n _ Hok. apply node_ok_content; [lia|done].
Qed.

Lemma fs_ok_ftruncate now fd len k : len ≤ INT64_MAX → fs_ok k → fs_ok (do_ftruncate now fd len k).1.
Proof.
  intros Hlen Hk. destruct (do_ftruncate now fd len k) as [k' o] eqn:E. simpl.
  destruct (do_ftruncate_cases _ _ _ _ _ _ E) as
    [[-> _]|(d & node & Hd & Hn & H0 & _ & _ & _ & _ & _ & ->)]; [done|].
  apply fs_ok_update; [done|apply keeps_content|]. intros n _ Hok.
  rewrite <- (zlength_resize len (content node)) at 2 by done. apply node_ok_content; [|done].
  by rewrite zlength_resize.
Qed.

Lemma fs_ok_read fd count k : 0 ≤ count → fs_ok k → fs_ok (do_read fd count k).1.
Proof.
  intros Hc Hk. destruct (do_read fd count k) as [k' o] eqn:E. simpl.
  destruct (do_read_cases _ _ _ _ _ Hc E) as
    [[-> _]|(d & node & Hd & _ & Hn & Hlt & Hne & _ & ->)]; [done|].
  destruct (do_offset _ _ _ _ (fo_open k Hk _ _ Hd)) as [Ho1 Ho2].
  pose proof (no_length _ _ (fo_node k Hk _ _ Hn)).
  rewrite uint64_small in Hlt by (unfold UINT64_MAX, INT64_MAX in *; lia).
  apply fs_ok_seek; [done|done|lia].
Qed.

Lemma fs_ok_lseek fd off whence k : fs_ok k → fs_ok (do_lseek fd off whence k).1.
Proof.
  intros Hk. destruct (do_lseek fd off whence k) as [k' o] eqn:E. simpl.
  destruct (do_lseek_cases _ _ _ _ _ _ E) as [[-> _]|(d & node & n & Hd & _ & _ & Hn & _ & _ & ->)]; [done|].
  by apply fs_ok_seek.
Qed.

Lemma fs_ok_close fd k : fs_ok k → fs_ok (do_close fd k).1.
Proof.
  intros Hk. destruct (do_close fd k) as [k' o] eqn:E. simpl.
  destruct (do_close_cases _ _ _ _ E) as [[-> _]|(_ & _ & _ & ->)]; [done|].
  split; simpl; [|apply Hk..]. intros j d [Hj Hd]%lookup_delete_Some.
  destruct (fo_open k Hk _ _ Hd) as [Ho (e & He & Hr)]. split; [done|]. exists e. split; [|done].
  unfold fd_entry in *. simpl. destruct (fdm k) as [t|]; simpl in *; [|done].
  rewrite release_fd_view. by rewrite decide_False.
Qed.

(** *** Inodes *)

Lemma initial_inode_ge p : guest_inode_limit ≤ initial_vfs_inode xxhash64 p.
Proof using xxhash64_range.
  unfold initial_vfs_inode. pose proof (xxhash64_range p) as Hh.
  set (v := Z.lor (xxhash64 p) guest_inode_limit).
  assert (63 ≤ Z.log2 v) as Hlog.
  { subst v. rewrite Z.log2_lor by (unfold guest_inode_limit; lia).
    unfold guest_inode_limit. rewrite Z.log2_pow2; lia. }
  assert (0 < v) as Hv.
  { destruct (Z.le_gt_cases v 0); [|done]. rewrite Z.log2_nonpos in Hlog; lia. }
  destruct (Z.log2_spec v Hv) as [Hle _]. unfold guest_inode_limit.
  etrans; [|exact Hle]. apply Z.pow_le_mono_r; lia.
Qed.

Lemma node_inode_positive p n : node_ok (guest_inode_limit) n → 0 < node_inode xxhash64 p n.
Proof using xxhash64_range.
  intros [_ _ H _]. unfold node_inode. pose proof (initial_inode_ge p). unfold guest_inode_limit in *.
  destruct (Z.eqb_spec (st_ino (metadata n)) 0); lia.
Qed.

Lemma node_ok_mono next next' n : next ≤ next' → node_ok next n → node_ok next' n.
Proof. intros Hle [? ? ? Hf]. split; try done. intros H. specialize (Hf H). lia. Qed.

(** The visible inode survives the move. *)
Lemma carried_inode_visible old new source :
  node_ok guest_inode_limit source →
  node_inode xxhash64 new (set_ino (carried_inode xxhash64 old new source) source) =
  node_inode xxhash64 old source.
Proof using xxhash64_range.
  intros Hok. pose proof (node_inode_positive old source Hok) as Hpos.
  unfold carried_inode. destruct (Z.eqb_spec (node_inode xxhash64 old source) (initial_vfs_inode xxhash64 new)).
  - by rewrite e.
  - unfold node_inode at 1. simpl. destruct (Z.eqb_spec (node_inode xxhash64 old source) 0); [lia|done].
Qed.

Lemma node_ok_carried next old new source :
  0 < next → node_ok next source →
  node_ok next (set_ino (carried_inode xxhash64 old new source) source).
Proof using xxhash64_range.
  intros Hn [H1 H2 H3 H4]. pose proof (initial_inode_ge old) as Hge. unfold guest_inode_limit in *.
  assert (0 ≤ carried_inode xxhash64 old new source ∧
    (carried_inode xxhash64 old new source < 2 ^ 63 → carried_inode xxhash64 old new source < next)) as [Ha Hb].
  { unfold carried_inode. destruct (_ =? _); [lia|]. unfold node_inode.
    destruct (Z.eqb_spec (st_ino (metadata source)) 0); lia. }
  by split.
Qed.

(** *** Removal and insertion of a name *)

Lemma fs_ok_delete k p :
  fs_ok k → (∀ fd d, open_files (fss k) !! fd = Some d → path d ≠ p) →
  fs_ok (mkFsCtx (fdm k) (set_filesystem (delete p (filesystem (fss k))) (fss k))).
Proof.
  intros Hk Hp. split; simpl.
  - intros fd d Hd. destruct (fo_open k Hk _ _ Hd) as [Ho (e & He & Hkind & n & Hn & Hr)].
    split; [done|]. exists e. split; [done|]. split; [done|]. exists n.
    rewrite lookup_delete_ne; [done|]. apply not_eq_sym. by eapply Hp.
  - intros q n [_ Hq]%lookup_delete_Some. by eapply fo_node.
  - apply Hk.
  - intros q1 q2 n1 n2 [_ H1]%lookup_delete_Some [_ H2]%lookup_delete_Some. by apply (fo_unique k Hk).
Qed.

Lemma fs_ok_insert k p n next :
  fs_ok k → filesystem (fss k) !! p = None → next_inode_ (fss k) ≤ next ≤ guest_inode_limit →
  node_ok next n →
  (∀ q m, filesystem (fss k) !! q = Some m → node_inode xxhash64 q m ≠ node_inode xxhash64 p n) →
  fs_ok (mkFsCtx (fdm k) (set_next_inode next (set_filesystem (<[p := n]> (filesystem (fss k))) (fss k)))).
Proof.
  intros Hk Hp Hnext Hn Hne. pose proof (fo_counter k Hk). split; simpl.
  - intros fd d Hd. destruct (fo_open k Hk _ _ Hd) as [Ho (e & He & Hkind & m & Hm & Hr)].
    split; [done|]. exists e. split; [done|]. split; [done|]. exists m.
    rewrite lookup_insert_ne by congruence. done.
  - intros q m [[<- <-]|[_ Hq]]%lookup_insert_Some; [done|].
    eapply node_ok_mono; [|by eapply fo_node]. lia.
  - lia.
  - intros q1 q2 n1 n2 [[<- <-]|[_ H1]]%lookup_insert_Some [[<- <-]|[_ H2]]%lookup_insert_Some Heq.
    + done.
    + by destruct (Hne _ _ H2).
    + by destruct (Hne _ _ H1).
    + by eapply (fo_unique k Hk).
Qed.

Lemma fs_ok_unlinkat now dirfd input flags k :
  fs_ok k → fs_ok (do_unlinkat xxhash64 now dirfd input flags k).1.
Proof.
  intros Hk. destruct (do_unlinkat _ _ _ _ _ _) as [k' o] eqn:E. simpl.
  destruct (do_unlinkat_cases _ _ _ _ _ _ _ _ E) as
    [[-> _]|(leaf & node & d & _ & _ & _ & _ & _ & _ & Hm & _ & _ & ->)]; [done|].
  apply (fs_ok_update (mkFsCtx (fdm k) (set_filesystem (delete (leaf_path leaf) (filesystem (fss k))) (fss k)))).
  - apply fs_ok_delete; [done|]. apply Hm.
  - apply keeps_mtim.
  - intros n _. apply node_ok_mtim.
Qed.

Lemma fs_ok_renameat2 now odf oldname ndf newname flags k :
  fs_ok k → fs_ok (do_renameat2 xxhash64 now odf oldname ndf newname flags k).1.
Proof using xxhash64_range.
  intros Hk. destruct (do_renameat2 _ _ _ _ _ _ _ _) as [k' o] eqn:E. simpl.
  destruct (do_renameat2_cases _ _ _ _ _ _ _ _ _ _ E) as [[-> _]|(old & new & src & Hd & _ & ->)]; [done|].
  destruct Hd as [_ _ _ Hs _ _ Hne _ [Hm1 Hm2] _]. pose proof (fo_counter k Hk) as Hc.
  pose proof (fo_node k Hk _ _ Hs) as Hsok.
  assert (node_ok guest_inode_limit src) as Hsok' by (eapply node_ok_mono; [|done]; lia).
  set (k1 := mkFsCtx (fdm k) (set_filesystem (delete (leaf_path old) (filesystem (fss k))) (fss k))).
  assert (fs_ok k1) as Hk1 by (apply fs_ok_delete; [done|]; apply Hm1).
  set (k2 := mkFsCtx (fdm k) (set_filesystem (delete (leaf_path new) (filesystem (fss k1))) (fss k))).
  assert (fs_ok k2) as Hk2 by (apply (fs_ok_delete k1); [done|]; apply Hm2).
  set (n := set_ino (carried_inode xxhash64 (leaf_path old) (leaf_path new) src) src).
  pose proof (fs_ok_insert k2 (leaf_path new) n (next_inode_ (fss k))) as Hins.
  assert (fs_ok (mkFsCtx (fdm k) (set_filesystem (<[leaf_path new := n]> (filesystem (fss k2))) (fss k)))) as Hk3.
  { apply Hins; clear Hins; [done|apply lookup_delete_eq|simpl; lia| |].
    - apply node_ok_carried; [lia|done].
    - intros q m Hm. cbn in Hm. apply lookup_delete_Some in Hm as [Hq1 [Hq2 Hq]%lookup_delete_Some]. subst n.
      rewrite carried_inode_visible by done. intros Heq. apply Hq2. symmetry.
      by eapply (fo_unique k Hk). }
  apply (fs_ok_update (mkFsCtx (fdm k) (update_node (leaf_parent old) (set_mtim now)
    (set_filesystem (<[leaf_path new := n]> (filesystem (fss k2))) (fss k))))).
  - by apply (fs_ok_update _ _ _ Hk3); [apply keeps_mtim|intros ? _; apply node_ok_mtim].
  - apply keeps_mtim.
  - intros ? _. apply node_ok_mtim.
Qed.

(** *** Opening *)

Lemma new_file_kind now s mode : is_link (new_file now s mode) = false ∧ is_dir (new_file now s mode) = false.
Proof.
  unfold is_link, is_dir, S_ISLNK, S_ISDIR, new_file. simpl.
  assert (∀ x, Z.land (Z.lor S_IFREG (Z.land (Z.land mode 4095) x)) S_IFMT = S_IFREG) as H.
  { intros x. rewrite Z.land_lor_distr_l.
    replace (Z.land (Z.land (Z.land mode 4095) x) S_IFMT) with 0; [done|].
    rewrite <- !Z.land_assoc, (Z.land_comm x), (Z.land_assoc 4095).
    change (Z.land 4095 S_IFMT) with 0. by rewrite Z.land_0_l, Z.land_0_r. }
  by rewrite H.
Qed.

Lemma file_entry_mode flags :
  Z.land (status_flags (file_entry flags)) O_ACCMODE = Z.land flags O_ACCMODE.
Proof. cbn [status_flags file_entry]. rewrite <- Z.land_assoc. by f_equal. Qed.

Lemma fs_ok_publish k t t' p fd flags n :
  fs_ok k → fdm k = Some t → fd_view t' fd = Some (file_entry flags) →
  (∀ j, j ≠ fd → fd_view t' j = fd_view t j) → filesystem (fss k) !! p = Some n → is_link n = false →
  (Z.land flags O_ACCMODE ≠ O_RDONLY → is_dir n = false) →
  fs_ok (mkFsCtx (Some t') (set_open_files (<[fd := mkOFD p 0]> (open_files (fss k))) (fss k))).
Proof.
  intros Hk Ht Hv Hview Hn Hl Hd. split; simpl; [|apply Hk..].
  intros j d [[<- <-]|[Hj Hd']]%lookup_insert_Some.
  - split; [done|]. exists (file_entry flags). split; [done|]. split; [by left|]. exists n.
    rewrite file_entry_mode. done.
  - destruct (fo_open k Hk _ _ Hd') as [Ho (e & He & Hr)]. split; [done|]. exists e. split; [|done].
    unfold fd_entry in *. simpl. rewrite Ht in He. simpl in He. by rewrite Hview.
Qed.

Lemma fs_ok_create now p mode k d :
  fs_ok k → filesystem (fss k) !! p = None → next_inode_ (fss k) < guest_inode_limit →
  filesystem (fss k) !! parent_text p = Some d →
  fs_ok (mkFsCtx (fdm k) (update_node (parent_text p) (set_mtim now)
    (set_next_inode (next_inode_ (fss k) + 1)
      (set_filesystem (<[p := new_file now (fss k) mode]> (filesystem (fss k))) (fss k))))).
Proof using xxhash64_range.
  intros Hk Hp Hlim Hd. pose proof (fo_counter k Hk) as Hc.
  apply (fs_ok_update (mkFsCtx (fdm k) (set_next_inode (next_inode_ (fss k) + 1)
      (set_filesystem (<[p := new_file now (fss k) mode]> (filesystem (fss k))) (fss k)))));
    [|apply keeps_mtim|intros ? _; apply node_ok_mtim].
  apply fs_ok_insert; [done|done|lia|split; simpl; try lia; done|].
  intros q m Hm. unfold node_inode at 2. simpl.
  destruct (Z.eqb_spec (next_inode_ (fss k)) 0); [lia|]. unfold node_inode.
  destruct (fo_node k Hk _ _ Hm) as [_ _ H3 H4]. pose proof (initial_inode_ge q).
  destruct (Z.eqb_spec (st_ino (metadata m)) 0); lia.
Qed.

Lemma fs_ok_openat now dirfd input flags mode k :
  fs_ok k → fs_ok (do_openat now dirfd input flags mode k).1.
Proof using xxhash64_range.
  intros Hk. destruct (do_openat _ _ _ _ _ _) as [k' o] eqn:E. simpl.
  destruct (do_openat_cases _ _ _ _ _ _ _ _ E) as
    [[-> _]|(t & t' & p & Ht & Hw & _ & Hfd & Hof & Hit & Hv & Hv' & Hview & ->)]; [done|].
  unfold opened. set (fd := get_next_fd t) in *.
  assert (∃ k1 n, k1 = mkFsCtx (fdm k) (if bool_decide (is_Some (filesystem (fss k) !! p)) then fss k else
      update_node (parent_text p) (set_mtim now) (set_next_inode (next_inode_ (fss k) + 1)
        (set_filesystem (<[p := new_file now (fss k) mode]> (filesystem (fss k))) (fss k)))) ∧
    fs_ok k1 ∧ filesystem (fss k1) !! p = Some n ∧ is_link n = false ∧
    (Z.land flags O_ACCMODE ≠ O_RDONLY → is_dir n = false)) as (k1 & n & Hk1 & Hok1 & Hn & Hl & Hd).
  { destruct (filesystem (fss k) !! p) as [n|] eqn:Hp.
    - exists k, n. destruct k. rewrite bool_decide_true by done. destruct Hit as (? & _ & _ & ?). done.
    - rewrite bool_decide_false by apply is_Some_None. destruct Hit as (_ & Hlim & d & Hpar & Hdir).
      eexists _, (new_file now (fss k) mode). split; [done|].
      destruct (new_file_kind now (fss k) mode) as [Hl Hd].
      split; [by eapply fs_ok_create|]. split; [|done]. simpl.
      rewrite lookup_alter_ne by congruence. apply lookup_insert_eq. }
  set (s1 := if bool_decide _ then _ else _) in *. assert (fss k1 = s1) as <- by by rewrite Hk1.
  assert (fdm k1 = Some t) as Ht1 by by rewrite Hk1.
  destruct (truncates flags); [|by eapply fs_ok_publish].
  eapply (fs_ok_publish (mkFsCtx (fdm k1) (update_node p (set_content [] 0 now) (fss k1))) t t' p fd flags
    (set_content [] 0 now n)); try done.
  - apply fs_ok_update; [done|apply keeps_content|]. intros m _. apply (node_ok_content _ []). done.
  - simpl. by rewrite lookup_alter_eq, Hn.
Qed.

(** ** Reachable states *)

Inductive vfs_step : FsCtx FD → FsCtx FD → Prop :=
  | step_open now dirfd input flags mode k :
      vfs_step k (do_openat now dirfd input flags mode k).1
  | step_read fd count k : 0 ≤ count → vfs_step k (do_read fd count k).1
  | step_write now fd buf k : vfs_step k (do_write now fd buf k).1
  | step_truncate now fd len k : len ≤ INT64_MAX → vfs_step k (do_ftruncate now fd len k).1
  | step_seek fd off whence k : vfs_step k (do_lseek fd off whence k).1
  | step_close fd k : vfs_step k (do_close fd k).1
  | step_unlink now dirfd input flags k : vfs_step k (do_unlinkat xxhash64 now dirfd input flags k).1
  | step_rename now odf oldname ndf newname flags k :
      vfs_step k (do_renameat2 xxhash64 now odf oldname ndf newname flags k).1.

Lemma fs_ok_step k k' : vfs_step k k' → fs_ok k → fs_ok k'.
Proof using xxhash64_range.
  destruct 1; intros Hk; [by apply fs_ok_openat|by apply fs_ok_read|by apply fs_ok_write|
    by apply fs_ok_ftruncate|by apply fs_ok_lseek|by apply fs_ok_close|by apply fs_ok_unlinkat|
    by apply fs_ok_renameat2].
Qed.

(** In a well-formed state the inode table can be built, and shows each
    file's inode. *)
Lemma inode_loop_ok l owners result :
  NoDup l.*1 → (∀ p q n m, (p, n) ∈ l → (q, m) ∈ l → node_inode xxhash64 p n = node_inode xxhash64 q m → p = q) →
  (∀ p n, (p, n) ∈ l → (node_inode xxhash64 p n ∉ owners)) →
  ∃ r, inode_loop xxhash64 l owners result = Ret r ∧
    ∀ p, r !! p = match (list_to_map l : gmap str VFSNode) !! p with
                  | Some n => Some (node_inode xxhash64 p n) | None => result !! p end.
Proof.
  revert owners result. induction l as [|[p n] l IH]; intros owners result Hnd Hu Ho.
  { exists result. split; [done|]. intros p. simpl. by rewrite lookup_empty. }
  rewrite fmap_cons, NoDup_cons in Hnd. destruct Hnd as [Hp Hnd]. cbn [inode_loop].
  rewrite bool_decide_false by (apply (Ho p n); left).
  destruct (IH ({[node_inode xxhash64 p n]} ∪ owners) (<[p := node_inode xxhash64 p n]> result)) as (r & -> & Hr).
  - done.
  - intros q1 q2 n1 n2 H1 H2. apply Hu; by right.
  - intros q m Hq. rewrite elem_of_union, elem_of_singleton. intros [Heq|Hin].
    + assert (q = p) as -> by (eapply (Hu q p m n); [by right|left|done]).
      apply Hp. by apply (list_elem_of_fmap_2 fst) in Hq.
    + eapply Ho; [by right|done].
  - exists r. split; [done|]. intros q. rewrite Hr. cbn [list_to_map foldr uncurry].
    assert ((list_to_map l : gmap str VFSNode) !! p = None) as Hnone by by apply not_elem_of_list_to_map_1.
    destruct (decide (q = p)) as [->|Hne].
    + simpl. by rewrite Hnone, !lookup_insert_eq.
    + simpl. by rewrite !lookup_insert_ne.
Qed.

Lemma vfs_inodes_ok fs :
  inodes_unique fs →
  ∃ r, vfs_inodes xxhash64 fs = Ret r ∧ ∀ p, r !! p = node_inode xxhash64 p <$> fs !! p.
Proof.
  intros Hu. unfold vfs_inodes. destruct (inode_loop_ok (entries fs) ∅ ∅) as (r & Hr & Hlook).
  - apply NoDup_fst_entries.
  - intros p q n m H1%elem_of_entries H2%elem_of_entries. by apply Hu.
  - intros p n _. apply not_elem_of_empty.
  - exists r. split; [done|]. intros p. rewrite Hlook, list_to_map_entries, (lookup_empty (M := gmap str)).
    by destruct (fs !! p).
Qed.

(** C15. The file system stays well formed along every sequence of opens,
    reads, writes, truncations, seeks, closes, unlinks and renames, whatever
    their arguments and outcomes: every open description has an allocated
    descriptor and an existing file that is not a link (and not a directory
    if it can write) and an offset in range; every recorded size is the size
    of the contents; and no two names ever show the same inode, so the inode
    table [stat] and [getdents64] build is always defined and gives each
    name its file's inode. *)
Theorem vfs_reachable_ok k k' :
  fs_ok k → rtc vfs_step k k' →
  fs_ok k' ∧
  ∃ r, vfs_inodes xxhash64 (filesystem (fss k')) = Ret r ∧
    ∀ p, r !! p = node_inode xxhash64 p <$> filesystem (fss k') !! p.
Proof using xxhash64_range.
  intros Hk Hr. assert (fs_ok k') as Hk'.
  { induction Hr as [|k1 k2 k3 H12 _ IH]; [done|]. apply IH. by eapply fs_ok_step. }
  split; [done|]. apply vfs_inodes_ok, Hk'.
Qed.
End invariant.

Section theorems.
Context {FD : Type} `{!DescriptorNamespace FD}.
Context (xxhash64 : str → Z).
Implicit Types k : FsCtx FD.

(** C16. [open] is atomic and exact.  If it throws or returns an error, for
    whatever reason, nothing has changed.  If it succeeds it returns the
    lowest free descriptor, enters it in the descriptor table with the
    requested mode, gives it a description of the resolved file at offset 0,
    and changes the file system only by emptying that file when asked to
    truncate it, or by adding it as an empty regular file with a fresh inode
    and the masked mode and stamping its parent directory. *)
Theorem open_exact now dirfd input flags mode k k' o :
  do_openat now dirfd input flags mode k = (k', o) →
  (k' = k ∧ ∀ n, o = Ret n → n < 0) ∨
  ∃ t t' p, fdm k = Some t ∧ fdm k' = Some t' ∧ let fd := get_next_fd t in
    o = Ret fd ∧ 0 ≤ fd ∧ fd_view t fd = None ∧ fd_view t' fd = Some (file_entry flags) ∧
    (∀ j, j ≠ fd → fd_view t' j = fd_view t j) ∧
    open_files (fss k) !! fd = None ∧
    open_files (fss k') = <[fd := mkOFD p 0]> (open_files (fss k)) ∧
    resolve_path_checked k dirfd input
      (negb (has flags O_CREAT && has flags O_EXCL) && negb (has flags O_NOFOLLOW)) false
      (has flags O_CREAT) = Ret (WalkOk p) ∧
    ∀ q, filesystem (fss k') !! q =
      match filesystem (fss k) !! p with
      | Some n => if decide (q = p) then Some (if truncates flags then set_content [] 0 now n else n)
                  else filesystem (fss k) !! q
      | None => if decide (q = p) then Some (new_file now (fss k) mode)
                else if decide (q = parent_text p) then set_mtim now <$> filesystem (fss k) !! q
                else filesystem (fss k) !! q
      end.
Proof.
  intros E. destruct (do_openat_cases _ _ _ _ _ _ _ _ E) as
    [H|(t & t' & p & Ht & Hw & -> & Hfd & Hof & Hit & Hv & Hv' & Hview & ->)]; [by left|].
  right. exists t, t', p. cbv zeta. split_and!; try done.
  { unfold opened. by destruct (bool_decide _), (truncates flags). }
  intros q. unfold opened. cbn [fss]. destruct (filesystem (fss k) !! p) as [n|] eqn:Hp.
  - rewrite bool_decide_true by done. destruct (truncates flags); simpl; destruct (decide (q = p)) as [->|].
    + by rewrite lookup_alter_eq, Hp.
    + by rewrite lookup_alter_ne.
    + done.
    + done.
  - rewrite bool_decide_false by apply is_Some_None. destruct Hit as (_ & _ & d & Hpar & _).
    assert (p ≠ parent_text p) as Hne by congruence.
    destruct (truncates flags); simpl; destruct (decide (q = p)) as [->|Hq].
    + by rewrite lookup_alter_eq, lookup_alter_ne, lookup_insert_eq.
    + rewrite lookup_alter_ne by done. destruct (decide (q = parent_text p)) as [->|].
      * by rewrite lookup_alter_eq, lookup_insert_ne.
      * by rewrite lookup_alter_ne, lookup_insert_ne.
    + by rewrite lookup_alter_ne, lookup_insert_eq.
    + destruct (decide (q = parent_text p)) as [->|].
      * by rewrite lookup_alter_eq, lookup_insert_ne.
      * by rewrite lookup_alter_ne, lookup_insert_ne.
Qed.

(** C17. [write] writes exactly: it fails and changes nothing, or it places all
    the bytes at the descriptor's position (at the end when appending), keeps
    every other byte, fills a gap past the old end with zeros, grows the file
    no further than needed with its recorded size, advances the position past
    the bytes, and touches no other file and no other descriptor. *)
Theorem write_exact now fd buf k k' o :
  fs_ok xxhash64 k → do_write now fd buf k = (k', o) →
  (k' = k ∧ ∀ n, o = Ret n → n ≤ 0) ∨
  ∃ d node c, let off := write_offset k fd d node in
    open_files (fss k) !! fd = Some d ∧ filesystem (fss k) !! path d = Some node ∧ 0 ≤ off ∧
    o = Ret (zlength buf) ∧ fdm k' = fdm k ∧
    open_files (fss k') = <[fd := mkOFD (path d) (off + zlength buf)]> (open_files (fss k)) ∧
    filesystem (fss k') = <[path d := set_content c (zlength c) now node]> (filesystem (fss k)) ∧
    zlength c = Z.max (zlength (content node)) (off + zlength buf) ∧
    ∀ i, 0 ≤ i < zlength c →
      c !! Z.to_nat i =
        if decide (off ≤ i < off + zlength buf) then buf !! Z.to_nat (i - off)
        else Some (default x00 (content node !! Z.to_nat i)).
Proof.
  intros Hk E. destruct (do_write_cases _ _ _ _ _ _ E) as
    [H|(d & node & c & Hd & _ & Hn & _ & _ & Hb & Hoff & Hc & -> & ->)]; [by left|].
  right. exists d, node, c. cbv zeta. set (off := write_offset k fd d node) in *.
  assert (0 ≤ off) as H0.
  { subst off. unfold write_offset. destruct (fo_open _ k Hk _ _ Hd) as [Ho _].
    pose proof (zlength_nonneg (content node)). destruct (_ || _); lia. }
  destruct (file_content_write_spec off buf (content node) c) as [Hlen Hbytes]; try done.
  split_and!; try done. simpl. by apply alter_insert_lookup.
Qed.

Lemma take_drop_overwritten off (src c : list byte) :
  0 ≤ off → off + zlength src ≤ zlength c →
  (∀ i, 0 ≤ i < zlength c → off ≤ i < off + zlength src → c !! Z.to_nat i = src !! Z.to_nat (i - off)) →
  take (Z.to_nat (zlength src)) (drop (Z.to_nat off) c) = src.
Proof.
  intros H0 Hle H. unfold zlength in *. rewrite Nat2Z.id. apply list_eq. intros i.
  destruct (decide (i < length src)%nat) as [Hi|Hi].
  - rewrite lookup_take_lt, lookup_drop by done. specialize (H (off + Z.of_nat i) ltac:(lia) ltac:(lia)).
    replace (Z.to_nat off + i)%nat with (Z.to_nat (off + Z.of_nat i)) by lia. rewrite H. f_equal. lia.
  - rewrite (lookup_ge_None_2 src) by lia. apply lookup_ge_None_2. rewrite length_take. lia.
Qed.

Lemma do_lseek_cur fd off k d node :
  open_files (fss k) !! fd = Some d → kernel_allocated k fd = true →
  filesystem (fss k) !! path d = Some node → fd_kind k fd ≠ STDIO → 0 ≤ offset d + off ≤ INT64_MAX →
  do_lseek fd off SEEK_CUR k =
    (mkFsCtx (fdm k) (set_open_files (<[fd := mkOFD (path d) (offset d + off)]> (open_files (fss k))) (fss k)),
     Ret (offset d + off)).
Proof.
  intros Hd Hal Hn Hkind Hr. unfold do_lseek, fs_at, mbind, M_bind, get, mret, M_ret, lift, with_fs, modify.
  rewrite Hd, Hal. cbn [negb]. rewrite Hn, bool_decide_false by done.
  change (SEEK_CUR =? SEEK_SET) with false. change (SEEK_CUR =? SEEK_CUR) with true. cbv beta iota zeta.
  unfold INT64_MIN, INT64_MAX in *. rewrite (proj2 (Z.ltb_ge (offset d + off) (- 2 ^ 63))) by lia.
  rewrite (proj2 (Z.ltb_ge (2 ^ 63 - 1) (offset d + off))) by lia. cbn [orb].
  by rewrite (proj2 (Z.ltb_ge (offset d + off) 0)) by lia.
Qed.

Lemma do_read_at fd count k d node :
  open_files (fss k) !! fd = Some d → kernel_allocated k fd = true →
  filesystem (fss k) !! path d = Some node → is_dir node = false →
  Z.land (fd_status k fd) O_ACCMODE ≠ O_WRONLY → 0 ≤ offset d ≤ INT64_MAX →
  0 < count ≤ zlength (content node) - offset d →
  do_read fd count k =
    (mkFsCtx (fdm k) (set_open_files (<[fd := mkOFD (path d) (offset d + count)]> (open_files (fss k))) (fss k)),
     Ret (count, take (Z.to_nat count) (drop (Z.to_nat (offset d)) (content node)))).
Proof.
  intros Hd Hal Hn Hdir Hacc Ho Hc. unfold do_read, fs_at, mbind, M_bind, get, mret, M_ret, lift, with_fs, modify.
  rewrite Hd, Hal. cbn [negb]. rewrite Hn, Hdir. rewrite (proj2 (Z.eqb_neq _ O_WRONLY)) by done.
  rewrite uint64_small by (unfold UINT64_MAX, INT64_MAX in *; lia).
  rewrite (proj2 (Z.leb_gt _ (offset d))) by lia.
  replace (Z.min count (zlength (content node) - offset d)) with count by lia.
  by rewrite (proj2 (Z.eqb_neq count 0)) by lia.
Qed.

(** C18. What was written is what is read back: after a successful write on a
    file opened for reading and writing, seeking back over the written bytes
    and reading that many returns exactly those bytes, and leaves the file
    and the position as the write left them. *)
Theorem write_seek_read now fd buf k k1 n :
  fs_ok xxhash64 k → do_write now fd buf k = (k1, Ret n) → 0 < n →
  Z.land (fd_status k fd) O_ACCMODE = O_RDWR → fd_kind k fd = FILE →
  ∃ k2 k3 off, do_lseek fd (- n) SEEK_CUR k1 = (k2, Ret off) ∧
    do_read fd n k2 = (k3, Ret (n, buf)) ∧
    filesystem (fss k3) = filesystem (fss k1) ∧ open_files (fss k3) = open_files (fss k1).
Proof.
  intros Hk E Hpos Hacc Hkind. destruct (do_write_cases _ _ _ _ _ _ E) as
    [[_ H]|(d & node & c & Hd & Hal & Hn & _ & _ & Hb & Hoff & Hc & [= ->] & ->)];
    [specialize (H _ eq_refl); lia|]. clear E.
  set (off := write_offset k fd d node) in *.
  assert (0 ≤ off) as H0.
  { subst off. unfold write_offset. destruct (fo_open _ k Hk _ _ Hd) as [Ho _].
    pose proof (zlength_nonneg (content node)). destruct (_ || _); lia. }
  destruct (file_content_write_spec off buf (content node) c) as [Hlen Hbytes]; try done.
  destruct (fo_open _ k Hk _ _ Hd) as [_ (e & He & _ & m & Hm & _ & Hdir)].
  rewrite Hn in Hm. injection Hm as <-.
  assert (is_dir node = false) as Hnd.
  { apply Hdir. rewrite <- (fd_entry_status _ _ _ He). by rewrite Hacc. }
  set (k1 := mkFsCtx (fdm k) (written now fd (path d) (off + zlength buf) c (fss k))).
  assert (open_files (fss k1) !! fd = Some (mkOFD (path d) (off + zlength buf))) as Hd1 by apply lookup_insert_eq.
  assert (filesystem (fss k1) !! path d = Some (set_content c (zlength c) now node)) as Hn1
    by (simpl; by rewrite lookup_alter_eq, Hn).
  eexists _, _, _. split; [|split].
  - eapply do_lseek_cur; [exact Hd1|done|exact Hn1|change (fd_kind k fd ≠ STDIO); by rewrite Hkind|simpl; lia].
  - erewrite do_read_at; [|apply lookup_insert_eq|done|exact Hn1|done| |simpl; lia|simpl; lia];
      [|change (Z.land (fd_status k fd) O_ACCMODE ≠ O_WRONLY); by rewrite Hacc].
    do 3 f_equal. simpl. replace (off + zlength buf + - zlength buf) with off by lia.
    apply take_drop_overwritten; [done|lia|]. intros i Hi Hr. rewrite Hbytes by done. by rewrite decide_True.
  - split; [done|]. simpl. rewrite !insert_insert_eq. do 2 f_equal. lia.
Qed.

Lemma reg_or_link_not_dir n : is_reg n || is_link n = true → is_dir n = false.
Proof.
  unfold is_reg, is_link, is_dir, S_ISREG, S_ISLNK, S_ISDIR. rewrite orb_true_iff, !Z.eqb_eq. intros [-> | ->]; done.
Qed.

(** C20. [unlink] removes exactly one name: it throws or fails and changes
    nothing, or the resolved name, a regular file or link that is neither open
    nor mapped nor the running executable, is gone, its directory is stamped,
    and every other name, every descriptor and every mapping is as before. *)
Theorem unlink_exact now dirfd input flags k k' o :
  do_unlinkat xxhash64 now dirfd input flags k = (k', o) →
  (k' = k ∧ ∀ n, o = Ret n → n < 0) ∨
  ∃ leaf node, resolve_namespace_leaf k dirfd input = Ret (inr leaf) ∧ o = Ret 0 ∧
    filesystem (fss k) !! leaf_path leaf = Some node ∧ is_reg node || is_link node = true ∧
    mutable (leaf_path leaf) (fss k) ∧ fdm k' = fdm k ∧
    fss k' = set_filesystem (filesystem (fss k')) (fss k) ∧
    ∀ q, filesystem (fss k') !! q =
      if decide (q = leaf_path leaf) then None
      else if decide (q = leaf_parent leaf) then set_mtim now <$> filesystem (fss k) !! q
      else filesystem (fss k) !! q.
Proof.
  intros E. destruct (do_unlinkat_cases _ _ _ _ _ _ _ _ E) as
    [H|(leaf & node & d & Hl & _ & Hn & Hty & Hd & Hdir & Hm & _ & -> & ->)]; [by left|].
  right. exists leaf, node. split_and!; try done. intros q. simpl.
  assert (leaf_path leaf ≠ leaf_parent leaf) as Hne.
  { intros Heq. rewrite Heq, Hd in Hn. injection Hn as ->. apply reg_or_link_not_dir in Hty. congruence. }
  destruct (decide (q = leaf_path leaf)) as [->|Hq].
  - rewrite lookup_alter_ne by done. apply lookup_delete_eq.
  - destruct (decide (q = leaf_parent leaf)) as [->|].
    + by rewrite lookup_alter_eq, lookup_delete_ne.
    + by rewrite lookup_alter_ne, lookup_delete_ne.
Qed.

(** C19. [rename] moves exactly one file: it throws or fails or finds both names
    to be the same file's and changes nothing, or the file is found under the
    new name only, with its contents, mode and times, replacing a file that
    was there (never when asked not to replace), both directories are stamped
    and everything else is as before; and the inode the file shows is the one
    it showed under its old name, although initial inodes are derived from
    the name. *)
Theorem rename_exact now odf oldname ndf newname flags k k' o :
  (∀ p, 0 ≤ xxhash64 p < 2 ^ 64) → fs_ok xxhash64 k →
  do_renameat2 xxhash64 now odf oldname ndf newname flags k = (k', o) →
  (k' = k ∧ ∀ n, o = Ret n → n ≤ 0) ∨
  ∃ old new source moved, rename_done xxhash64 k odf oldname ndf newname flags old new source ∧
    o = Ret 0 ∧ fdm k' = fdm k ∧ fss k' = set_filesystem (filesystem (fss k')) (fss k) ∧
    (∀ q, filesystem (fss k') !! q =
      if decide (q = leaf_path new) then Some moved
      else if decide (q = leaf_path old) then None
      else if decide (q = leaf_parent old ∨ q = leaf_parent new)
      then set_mtim now <$> filesystem (fss k) !! q
      else filesystem (fss k) !! q) ∧
    content moved = content source ∧ st_mode (metadata moved) = st_mode (metadata source) ∧
    st_size (metadata moved) = st_size (metadata source) ∧ st_mtim (metadata moved) = st_mtim (metadata source) ∧
    node_inode xxhash64 (leaf_path new) moved = node_inode xxhash64 (leaf_path old) source.
Proof.
  intros Hh Hk E. destruct (do_renameat2_cases _ _ _ _ _ _ _ _ _ _ E) as [H|(old & new & src & Hd & -> & ->)];
    [by left|]. right.
  exists old, new, src, (set_ino (carried_inode xxhash64 (leaf_path old) (leaf_path new) src) src).
  split; [done|]. destruct Hd as [_ _ _ Hs Hty Htg Hne (od & nd & Hod & Hodir & Hnd & Hndir) _ _].
  apply reg_or_link_not_dir in Hty.
  assert (leaf_path new ≠ leaf_parent old ∧ leaf_path new ≠ leaf_parent new) as [Hn1 Hn2].
  { split; intros Heq; rewrite Heq in Htg; [destruct (Htg od)|destruct (Htg nd)]; congruence. }
  assert (leaf_path old ≠ leaf_parent old ∧ leaf_path old ≠ leaf_parent new) as [Ho1 Ho2] by (split; congruence).
  split_and!; try done; cycle 1.
  { apply (carried_inode_visible xxhash64); [done|]. eapply node_ok_mono; [|by eapply (fo_node _ k Hk)].
    apply (fo_counter _ k Hk). }
  intros q. unfold renamed, update_node. simpl. destruct (decide (q = leaf_path new)) as [->|Hq1].
  { by rewrite !lookup_alter_ne, lookup_insert_eq. }
  destruct (decide (q = leaf_path old)) as [->|Hq2].
  { rewrite !lookup_alter_ne, lookup_insert_ne, lookup_delete_ne by done. apply lookup_delete_eq. }
  assert (∀ n, <[leaf_path new:=n]> (delete (leaf_path new) (delete (leaf_path old) (filesystem (fss k)))) !! q =
    filesystem (fss k) !! q) as Hrest.
  { intros n. by rewrite lookup_insert_ne, !lookup_delete_ne. }
  destruct (decide (q = leaf_parent new)) as [->|Hq3]; [rewrite lookup_alter_eq|rewrite lookup_alter_ne by done].
  - rewrite decide_True by by right.
    destruct (decide (leaf_parent new = leaf_parent old)) as [Heq|];
      [rewrite <- Heq, lookup_alter_eq|rewrite lookup_alter_ne by done]; rewrite Hrest; [|done].
    by destruct (filesystem (fss k) !! leaf_parent new).
  - destruct (decide (q = leaf_parent old)) as [->|Hq4].
    + rewrite decide_True by by left. by rewrite lookup_alter_eq, Hrest.
    + rewrite decide_False by tauto. by rewrite lookup_alter_ne, Hrest.
Qed.
End theorems.

(** ** Checking the invariant *)

Section checker.
Context {FD : Type} `{!DescriptorNamespace FD}.
Context (xxhash64 : str → Z).
Implicit Types k : FsCtx FD.

Definition description_check k (fd : Z) (d : OpenFileDescription) : bool :=
  (0 <=? offset d) && (offset d <=? INT64_MAX) &&
  match fd_entry k fd, filesystem (fss k) !! path d with
  | Some e, Some n =>
      (bool_decide (kind e = FILE) || bool_decide (kind e = STDIO)) && negb (is_link n) &&
      ((Z.land (status_flags e) O_ACCMODE =? O_RDONLY) || negb (is_dir n))
  | _, _ => false
  end.

Definition node_check (next : Z) (n : VFSNode) : bool :=
  (st_size (metadata n) =? zlength (content n)) && (zlength (content n) <=? INT64_MAX) &&
  (0 <=? st_ino (metadata n)) && ((guest_inode_limit <=? st_ino (metadata n)) || (st_ino (metadata n) <? next)).

Definition fs_check k : bool :=
  forallb (λ e, description_check k e.1 e.2) (entries (open_files (fss k))) &&
  forallb (λ e, node_check (next_inode_ (fss k)) e.2) (entries (filesystem (fss k))) &&
  (0 <? next_inode_ (fss k)) && (next_inode_ (fss k) <=? guest_inode_limit) &&
  match vfs_inodes xxhash64 (filesystem (fss k)) with Ret _ => true | Throw _ => false end.

Lemma inode_loop_unique l owners result r :
  inode_loop xxhash64 l owners result = Ret r →
  NoDup (map (λ e, node_inode xxhash64 e.1 e.2) l) ∧
  ∀ e, e ∈ l → (node_inode xxhash64 e.1 e.2 ∉ owners).
Proof.
  revert owners result. induction l as [|[p n] l IH]; intros owners result; cbn [inode_loop map].
  { intros _. split; [constructor|]. intros e He. by apply not_elem_of_nil in He. }
  destruct (bool_decide_reflect (node_inode xxhash64 p n ∈ owners)) as [|Hno]; [done|].
  intros [Hnd Hown]%IH. split.
  - constructor; [|done]. intros (e & Heq & He)%list_elem_of_fmap.
    apply (Hown e He). rewrite <- Heq. set_solver.
  - intros e [->|He]%elem_of_cons; [done|]. specialize (Hown e He). set_solver.
Qed.

Lemma NoDup_map_inj {A B} (f : A → B) (l : list A) x y :
  NoDup (map f l) → x ∈ l → y ∈ l → f x = f y → x = y.
Proof.
  induction l as [|z l IH]; simpl; [by intros _ ?%not_elem_of_nil|].
  rewrite NoDup_cons, !elem_of_cons. intros [Hz Hnd] [->|Hx] [->|Hy] Heq; auto.
  - destruct Hz. rewrite Heq. by apply list_elem_of_fmap_2.
  - destruct Hz. rewrite <- Heq. by apply list_elem_of_fmap_2.
Qed.

Lemma fs_check_ok k : fs_check k = true → fs_ok xxhash64 k.
Proof.
  unfold fs_check. rewrite !andb_true_iff, !forallb_forall. intros [[[[Ho Hn] Hc1%Z.ltb_lt] Hc2%Z.leb_le] Hu].
  split.
  - intros fd d Hd. specialize (Ho (fd, d) ltac:(by apply list_elem_of_In, elem_of_entries)).
    unfold description_check in Ho. simpl in Ho.
    destruct (fd_entry k fd) as [e|] eqn:He; [|by rewrite andb_false_r in Ho].
    destruct (filesystem (fss k) !! path d) as [n|] eqn:Hp; [|by rewrite andb_false_r in Ho].
    rewrite !andb_true_iff, !orb_true_iff, !bool_decide_eq_true, !Z.leb_le, !negb_true_iff, Z.eqb_eq in Ho.
    destruct Ho as [[? ?] [[? ?] Hr]]. split; [done|]. exists e. split_and!; try done.
    exists n. split_and!; try done. intros ?. by destruct Hr.
  - intros p n Hp. specialize (Hn (p, n) ltac:(by apply list_elem_of_In, elem_of_entries)).
    unfold node_check in Hn. simpl in Hn.
    rewrite !andb_true_iff, orb_true_iff, !Z.leb_le, Z.eqb_eq, Z.ltb_lt in Hn. split; [tauto..|lia].
  - lia.
  - unfold vfs_inodes in Hu. destruct (inode_loop _ _ _ _) as [r|] eqn:E; [|done].
    apply inode_loop_unique in E as [Hnd _]. intros p q n m H1 H2 Heq.
    assert ((p, n) = (q, m)) as [= -> ->]; [|done].
    apply (NoDup_map_inj _ _ _ _ Hnd); [by apply elem_of_entries|by apply elem_of_entries|done].
Qed.
End checker.

(** ** Witnesses *)

Definition sample_hash (p : str) : Z := le_Z p mod 2 ^ 64.

Lemma sample_hash_range p : 0 ≤ sample_hash p < 2 ^ 64.
Proof. apply Z.mod_pos_bound. lia. Qed.

Definition sample_now : timespec := mkTimespec 7 0.

Definition O_RDWR_CREAT : Z := Z.lor O_RDWR O_CREAT.

(** A file system with one open file. *)
Definition sample_open : FsCtx FdManager :=
  (do_openat sample_now AT_FDCWD (lit "ln/f") O_RDWR_CREAT 438 sample_ctx).1.

Lemma sample_ctx_ok : fs_ok sample_hash sample_ctx.
Proof. apply fs_check_ok. vm_compute. reflexivity. Qed.

Lemma sample_open_ok : fs_ok sample_hash sample_open.
Proof. apply fs_check_ok. vm_compute. reflexivity. Qed.

Lemma vfs_reachable_ok_witness : fs_ok sample_hash (do_close 3 sample_open).1.
Proof.
  apply (vfs_reachable_ok sample_hash sample_hash_range sample_ctx); [exact sample_ctx_ok|].
  eapply rtc_l; [apply (step_open sample_hash sample_now AT_FDCWD (lit "ln/f") O_RDWR_CREAT 438)|].
  eapply rtc_l; [apply (step_close sample_hash 3)|]. apply rtc_refl.
Defined.

Lemma open_exact_witness :
  (do_openat sample_now AT_FDCWD (lit "ln/f") O_RDWR_CREAT 438 sample_ctx).2 = Ret 3 ∧
  filesystem (fss sample_open) !! lit "/d/f" = Some (new_file sample_now sample_fs 438).
Proof.
  assert ((do_openat sample_now AT_FDCWD (lit "ln/f") O_RDWR_CREAT 438 sample_ctx).2 = Ret 3) as H
    by (vm_compute; reflexivity).
  split; [exact H|].
  destruct (open_exact sample_now AT_FDCWD (lit "ln/f") O_RDWR_CREAT 438 sample_ctx sample_open (Ret 3))
    as [[_ Hn]|(t & t' & p & _ & _ & _ & _ & _ & _ & _ & _ & _ & Hw & Hq)].
  - rewrite <- H. unfold sample_open. by destruct (do_openat _ _ _ _ _ sample_ctx).
  - specialize (Hn 3 eq_refl). lia.
  - vm_compute in Hw. injection Hw as <-. rewrite Hq. vm_compute. reflexivity.
Defined.

Definition hello : list byte := lit "hello".

Lemma write_exact_witness :
  option_map content (filesystem (fss (do_write sample_now 3 hello sample_open).1) !! lit "/d/f") = Some hello.
Proof.
  destruct (write_exact sample_hash sample_now 3 hello sample_open
    (do_write sample_now 3 hello sample_open).1 (do_write sample_now 3 hello sample_open).2) as
    [[_ H]|(d & node & c & Hd & _ & _ & _ & _ & _ & Hfs & _)].
  - exact sample_open_ok.
  - by destruct (do_write _ _ _ _).
  - specialize (H 5 ltac:(vm_compute; reflexivity)). lia.
  - vm_compute in Hd. injection Hd as <-. vm_compute. reflexivity.
Defined.

Lemma write_seek_read_witness :
  ∃ k2 k3 off, do_lseek 3 (- 5) SEEK_CUR (do_write sample_now 3 hello sample_open).1 = (k2, Ret off) ∧
    do_read 3 5 k2 = (k3, Ret (5, hello)).
Proof.
  destruct (write_seek_read sample_hash sample_now 3 hello sample_open
    (do_write sample_now 3 hello sample_open).1 5) as (k2 & k3 & off & H1 & H2 & _).
  - exact sample_open_ok.
  - vm_compute. reflexivity.
  - reflexivity.
  - vm_compute. reflexivity.
  - vm_compute. reflexivity.
  - exists k2, k3, off. split; [exact H1|exact H2].
Defined.

Definition sample_closed : FsCtx FdManager := (do_close 3 sample_open).1.

Lemma unlink_exact_witness :
  filesystem (fss (do_unlinkat sample_hash sample_now AT_FDCWD (lit "d/f") 0 sample_closed).1) !! lit "/d/f" = None.
Proof.
  destruct (unlink_exact sample_hash sample_now AT_FDCWD (lit "d/f") 0 sample_closed
    (do_unlinkat sample_hash sample_now AT_FDCWD (lit "d/f") 0 sample_closed).1
    (do_unlinkat sample_hash sample_now AT_FDCWD (lit "d/f") 0 sample_closed).2)
    as [[_ H]|(leaf & node & Hl & _ & _ & _ & _ & _ & _ & Hq)].
  - by destruct (do_unlinkat _ _ _ _ _ _).
  - specialize (H 0 ltac:(vm_compute; reflexivity)). lia.
  - vm_compute in Hl. injection Hl as <-. rewrite Hq. vm_compute. reflexivity.
Defined.

Definition sample_rename : FsCtx FdManager * outcome Z :=
  do_renameat2 sample_hash sample_now AT_FDCWD (lit "d/f") AT_FDCWD (lit "/g") 0 sample_closed.

Lemma rename_exact_witness :
  sample_rename.2 = Ret 0 ∧ filesystem (fss sample_rename.1) !! lit "/d/f" = None.
Proof.
  assert (sample_rename.2 = Ret 0) as Ho by (vm_compute; reflexivity). split; [exact Ho|].
  destruct (rename_exact sample_hash sample_now AT_FDCWD (lit "d/f") AT_FDCWD (lit "/g") 0 sample_closed
    sample_rename.1 sample_rename.2 sample_hash_range) as [[Hk _]|(old & new & src & moved & Hd & _ & _ & _ & Hq & _)].
  - apply fs_check_ok. vm_compute. reflexivity.
  - apply surjective_pairing.
  - apply (f_equal (λ k, bool_decide (is_Some (filesystem (fss k) !! lit "/g")))) in Hk.
    vm_compute in Hk. discriminate Hk.
  - destruct Hd as [Hold Hnew _ _ _ _ _ _ _ _]. vm_compute in Hold, Hnew.
    injection Hold as <-. injection Hnew as <-. rewrite Hq. vm_compute. reflexivity.
Defined.
