(* ===== verification/Net.v ===== *)
(** * The virtual network: state and socket operations

    [src/src/subsys/net/sockstate.h] and [sockstate.cpp]: TCP and UDP
    sockets over all simulated nodes.  An operation runs on the node the
    cursor selects and may read and change the sockets of every node.  The
    memory is the one of the process the cursor selects; [inet_pton], a C
    library function applied to configured addresses, is a parameter that
    gives the network-order address.  Addresses and ports are kept as they
    are stored, in network byte order. *)

From S2P Require Import Prelude Linux Bytes FdInterface FdManager Guest Vfs VfsOps Pipe.

(** ** Data *)

Record sockaddr_in := mkAddr { sin_family : Z; sin_port : Z; s_addr : Z }.

#[export] Instance sockaddr_in_eq_dec : EqDecision sockaddr_in.
Proof. solve_decision. Defined.

Definition addr_zero : sockaddr_in := mkAddr 0 0 0.

Record TcpConnection := mkConn {
  c_local_fd : Z;
  c_local_addr : sockaddr_in;
  c_peer_addr : sockaddr_in;
  recv_buffer : list str;
}.

#[export] Instance TcpConnection_eq_dec : EqDecision TcpConnection.
Proof. solve_decision. Defined.

Record UdpDatagram := mkDatagram { dg_content : str; dg_from : sockaddr_in }.

#[export] Instance UdpDatagram_eq_dec : EqDecision UdpDatagram.
Proof. solve_decision. Defined.

Record Socket := mkSocket {
  sk_fd : Z;
  sk_domain : Z;
  sk_type : Z;
  sk_protocol : Z;
  bound : bool;
  local_addr : sockaddr_in;
  connected : bool;
  listening : bool;
  peer_addr : sockaddr_in;
  backlog : Z;
  pending_connections : list Z;
  established_connections : gmap Z TcpConnection;
  reuse_address : bool;
  no_delay : bool;
  keep_alive : bool;
  keep_idle : Z;
  keep_interval : Z;
  keep_count : Z;
}.

#[export] Instance Socket_eq_dec : EqDecision Socket.
Proof. solve_decision. Defined.

Record EpollWatch := mkWatch { watch_events : Z; watch_data : Z }.

#[export] Instance EpollWatch_eq_dec : EqDecision EpollWatch.
Proof. solve_decision. Defined.

Record EpollInstance := mkEpoll { epoll_fd : Z; watched_fds : gmap Z EpollWatch }.

#[export] Instance EpollInstance_eq_dec : EqDecision EpollInstance.
Proof. solve_decision. Defined.

Record SockState := mkSock {
  sockets_ : gmap Z Socket;
  udp_recv_buffers_ : gmap Z (list UdpDatagram);
  tcp_connections_ : gmap Z TcpConnection;
  epoll_instances_ : gmap Z EpollInstance;
}.

#[export] Instance SockState_eq_dec : EqDecision SockState.
Proof. solve_decision. Defined.

Definition SockState_init : SockState := mkSock ∅ ∅ ∅ ∅.

(** *** Field updates *)

Definition set_sockets (m : gmap Z Socket) (s : SockState) : SockState :=
  mkSock m (udp_recv_buffers_ s) (tcp_connections_ s) (epoll_instances_ s).
Definition set_udp (m : gmap Z (list UdpDatagram)) (s : SockState) : SockState :=
  mkSock (sockets_ s) m (tcp_connections_ s) (epoll_instances_ s).
Definition set_tcp (m : gmap Z TcpConnection) (s : SockState) : SockState :=
  mkSock (sockets_ s) (udp_recv_buffers_ s) m (epoll_instances_ s).
Definition set_epoll (m : gmap Z EpollInstance) (s : SockState) : SockState :=
  mkSock (sockets_ s) (udp_recv_buffers_ s) (tcp_connections_ s) m.

Definition set_recv (b : list str) (c : TcpConnection) : TcpConnection :=
  mkConn (c_local_fd c) (c_local_addr c) (c_peer_addr c) b.

(** [recv_buffer.push_back(data)] *)
Definition push_recv (data : str) (c : TcpConnection) : TcpConnection :=
  set_recv (recv_buffer c ++ [data]) c.

Definition set_binding (b : bool) (a : sockaddr_in) (s : Socket) : Socket :=
  mkSocket (sk_fd s) (sk_domain s) (sk_type s) (sk_protocol s) b a (connected s) (listening s)
    (peer_addr s) (backlog s) (pending_connections s) (established_connections s)
    (reuse_address s) (no_delay s) (keep_alive s) (keep_idle s) (keep_interval s) (keep_count s).
Definition set_listen (n : Z) (s : Socket) : Socket :=
  mkSocket (sk_fd s) (sk_domain s) (sk_type s) (sk_protocol s) (bound s) (local_addr s) (connected s) true
    (peer_addr s) n (pending_connections s) (established_connections s)
    (reuse_address s) (no_delay s) (keep_alive s) (keep_idle s) (keep_interval s) (keep_count s).
Definition set_peer (a : sockaddr_in) (s : Socket) : Socket :=
  mkSocket (sk_fd s) (sk_domain s) (sk_type s) (sk_protocol s) (bound s) (local_addr s) true (listening s)
    a (backlog s) (pending_connections s) (established_connections s)
    (reuse_address s) (no_delay s) (keep_alive s) (keep_idle s) (keep_interval s) (keep_count s).
Definition set_queue (q : list Z) (e : gmap Z TcpConnection) (s : Socket) : Socket :=
  mkSocket (sk_fd s) (sk_domain s) (sk_type s) (sk_protocol s) (bound s) (local_addr s) (connected s)
    (listening s) (peer_addr s) (backlog s) q e
    (reuse_address s) (no_delay s) (keep_alive s) (keep_idle s) (keep_interval s) (keep_count s).
Definition set_flags (ra nd ka : bool) (s : Socket) : Socket :=
  mkSocket (sk_fd s) (sk_domain s) (sk_type s) (sk_protocol s) (bound s) (local_addr s) (connected s)
    (listening s) (peer_addr s) (backlog s) (pending_connections s) (established_connections s)
    ra nd ka (keep_idle s) (keep_interval s) (keep_count s).
Definition set_keep (i n c : Z) (s : Socket) : Socket :=
  mkSocket (sk_fd s) (sk_domain s) (sk_type s) (sk_protocol s) (bound s) (local_addr s) (connected s)
    (listening s) (peer_addr s) (backlog s) (pending_connections s) (established_connections s)
    (reuse_address s) (no_delay s) (keep_alive s) i n c.

(** The state of one simulated process, and of all of them. *)
Record Node (FD : Type) := mkNode { n_ctx : FsCtx FD; n_sock : SockState; n_addr : str }.
#[global] Arguments mkNode {FD}.
#[global] Arguments n_ctx {FD}.
#[global] Arguments n_sock {FD}.
#[global] Arguments n_addr {FD}.

Record World (FD Mem : Type) := mkWorld {
  w_nodes : list (Node FD); w_cursor : nat; w_mem : Mem; error_bound : Z }.
#[global] Arguments mkWorld {FD Mem}.
#[global] Arguments w_nodes {FD Mem}.
#[global] Arguments w_cursor {FD Mem}.
#[global] Arguments w_mem {FD Mem}.
#[global] Arguments error_bound {FD Mem}.

(** ** Representation in guest memory *)

Definition sizeof_sockaddr_in : Z := 16.

Definition encode_addr (a : sockaddr_in) : list byte :=
  le_bytes 2 (sin_family a) ++ le_bytes 2 (sin_port a) ++ le_bytes 4 (s_addr a) ++ zeros 8.

Definition decode_addr (bs : list byte) : sockaddr_in :=
  mkAddr (le_Z (take 2 bs)) (le_Z (take 2 (drop 2 bs))) (le_Z (take 4 (drop 4 bs))).

(** [ntohs], [htons] *)
Definition ntohs (z : Z) : Z := Z.lor (Z.shiftl (Z.land z 255) 8) (Z.land (Z.shiftr z 8) 255).
Definition htons (z : Z) : Z := ntohs z.

(** The key of an endpoint in [established_connections]. *)
Definition endpoint_key (address port : Z) : Z := Z.lor (Z.shiftl address 32) port.

Definition same_endpoint (a b : sockaddr_in) : bool :=
  (s_addr a =? s_addr b) && (sin_port a =? sin_port b).

Section net.
Context {FD : Type} `{!DescriptorNamespace FD} {Mem : Type} `{!ProcessVm Mem}.
Context (inet_pton : str → option Z).
Abbreviation W := (World FD Mem).
Abbreviation NM := (M (World FD Mem)).
Implicit Types w : W.

(** *** Access *)

Definition set_nodes (l : list (Node FD)) w : W := mkWorld l (w_cursor w) (w_mem w) (error_bound w).
Definition set_mem (m : Mem) w : W := mkWorld (w_nodes w) (w_cursor w) m (error_bound w).

Definition upd_sock (i : nat) (g : SockState → SockState) w : W :=
  set_nodes (alter (λ n, mkNode (n_ctx n) (g (n_sock n)) (n_addr n)) i (w_nodes w)) w.
Definition upd_ctx (i : nat) (g : FsCtx FD → FsCtx FD) w : W :=
  set_nodes (alter (λ n, mkNode (g (n_ctx n)) (n_sock n) (n_addr n)) i (w_nodes w)) w.
Definition upd_socket (i : nat) (fd : Z) (g : Socket → Socket) w : W :=
  upd_sock i (λ s, set_sockets (alter g fd (sockets_ s)) s) w.

(** The node at the cursor; an index outside the table is undefined. *)
Definition here : NM (Node FD) := λ w,
  match w_nodes w !! w_cursor w with
  | Some n => (w, Ret n)
  | None => (w, Throw (out_of_range "cursor"))
  end.

Definition on_here (g : SockState → SockState) : NM unit := modify (λ w, upd_sock (w_cursor w) g w).

(** Run a computation on the current node's file system and descriptors. *)
Definition on_ctx {A} (m : M (FsCtx FD) A) : NM A := λ w,
  match w_nodes w !! w_cursor w with
  | Some n => let '(k, o) := m (n_ctx n) in (upd_ctx (w_cursor w) (λ _, k) w, o)
  | None => (w, Throw (out_of_range "cursor"))
  end.

(** ... and on its memory too. *)
Definition on_ctx_mem {A} (m : M (FsCtx FD * Mem) A) : NM A := λ w,
  match w_nodes w !! w_cursor w with
  | Some n => let '(km, o) := m (n_ctx n, w_mem w) in
              (set_mem km.2 (upd_ctx (w_cursor w) (λ _, km.1) w), o)
  | None => (w, Throw (out_of_range "cursor"))
  end.

Definition guest_read (a n : Z) : NM (option (list byte)) := λ w,
  (w, Ret (guest_read_exact (w_mem w) a n)).
Definition guest_write (a : Z) (bs : list byte) : NM bool := λ w,
  let '(m, ok) := guest_write_exact (w_mem w) a bs in (set_mem m w, Ret ok).

(** Every socket of every node, in the order the loops visit them. *)
Definition all_sockets w : list (nat * Z * Socket) :=
  concat (imap (λ i n, (λ e, (i, e.1, e.2)) <$> entries (sockets_ (n_sock n))) (w_nodes w)).

(** [consume_model_budget(1)] *)
Definition consume_model_budget (cost : Z) : NM unit :=
  if cost <=? 0 then mret tt
  else modify (λ w, mkWorld (w_nodes w) (w_cursor w) (w_mem w)
                     (if cost <? error_bound w then error_bound w - cost else 0)).

Definition invalid_socket_error (n : Node FD) (fd : Z) : Z :=
  if kernel_allocated (n_ctx n) fd then - ENOTSOCK else - EBADF.

(** Look the socket up and continue, or return the error for a bad one. *)
Definition with_socket (fd : Z) (g : Node FD → Socket → NM Z) : NM Z :=
  n ← here;
  match sockets_ (n_sock n) !! fd with
  | None => mret (invalid_socket_error n fd)
  | Some s => g n s
  end.

(** The configured address for the wildcard. *)
Definition effective_addr (n : Node FD) (a : Z) : Z :=
  if a =? INADDR_ANY then default a (inet_pton (n_addr n)) else a.

(** ** socket, bind, names, listen *)

Definition new_socket (fd domain type protocol : Z) : Socket :=
  mkSocket fd domain type protocol false addr_zero false false addr_zero 0 [] ∅
    false false false 7200 75 9.

Definition do_socket (domain type protocol : Z) : NM Z :=
  if negb (domain =? AF_INET) then mret (- EAFNOSUPPORT)
  else
    let type_flags := Z.land type (Z.lor SOCK_NONBLOCK SOCK_CLOEXEC) in
    let base_type := Z.land type (Z.lnot (Z.lor SOCK_NONBLOCK SOCK_CLOEXEC)) in
    if negb (base_type =? SOCK_STREAM) && negb (base_type =? SOCK_DGRAM)
    then mret (- EPROTONOSUPPORT)
    else
      let effective := if base_type =? SOCK_STREAM then IPPROTO_TCP else IPPROTO_UDP in
      if negb (protocol =? 0) && negb (protocol =? effective) then mret (- EPROTONOSUPPORT)
      else
        fd ← on_ctx (fs_allocate_fd SOCKET
               (Z.lor O_RDWR (if has type_flags SOCK_NONBLOCK then O_NONBLOCK else 0))
               (if has type_flags SOCK_CLOEXEC then FD_CLOEXEC else 0));
        if fd <? 0 then mret (- EMFILE)
        else
          on_here (λ s, set_sockets (<[fd := new_socket fd domain base_type effective]> (sockets_ s)) s);;
          mret fd.

(** The addresses of two bindings of one port collide. *)
Definition address_conflict (a b : Z) : bool :=
  (a =? INADDR_ANY) || (b =? INADDR_ANY) || (a =? b).

Definition bind_conflict (fd type : Z) (sin : sockaddr_in) (e : Z * Socket) : bool :=
  negb (e.1 =? fd) && bound e.2 && (sk_type e.2 =? type) &&
  (sin_port (local_addr e.2) =? sin_port sin) && negb (sin_port sin =? 0) &&
  address_conflict (s_addr sin) (s_addr (local_addr e.2)).

Definition do_bind (fd addr addrlen : Z) : NM Z :=
  with_socket fd (λ n sock,
    if bound sock then mret (- EINVAL)
    else if addrlen <? sizeof_sockaddr_in then mret (- EINVAL)
    else
      bs ← guest_read addr sizeof_sockaddr_in;
      match bs with
      | None => mret (- EFAULT)
      | Some bs =>
          let sin := decode_addr bs in
          if negb (sin_family sin =? AF_INET) then mret (- EAFNOSUPPORT)
          else if existsb (bind_conflict fd (sk_type sock) sin) (entries (sockets_ (n_sock n)))
          then mret (- EADDRINUSE)
          else
            on_here (λ s, set_sockets (alter (set_binding true sin) fd (sockets_ s)) s);;
            mret 0
      end).

Definition copy_socket_address (address : sockaddr_in) (output length : Z) : NM Z :=
  bs ← guest_read length 4;
  match bs with
  | None => mret (- EFAULT)
  | Some bs =>
      let capacity := le_Z bs in
      if INT_MAX <? capacity then mret (- EINVAL)
      else
        ok ← guest_write output
               (take (Z.to_nat (Z.min capacity sizeof_sockaddr_in)) (encode_addr address));
        if negb ok then mret (- EFAULT)
        else
          ok ← guest_write length (le_bytes 4 sizeof_sockaddr_in);
          mret (if ok : bool then 0 else - EFAULT)
  end.

Definition do_getsockname (fd address length : Z) : NM Z :=
  with_socket fd (λ _ s,
    copy_socket_address (mkAddr AF_INET (sin_port (local_addr s)) (s_addr (local_addr s))) address length).

Definition do_getpeername (fd address length : Z) : NM Z :=
  with_socket fd (λ _ s,
    if negb (connected s) then mret (- ENOTCONN) else copy_socket_address (peer_addr s) address length).

Definition do_listen (fd n : Z) : NM Z :=
  with_socket fd (λ _ s,
    if negb (sk_type s =? SOCK_STREAM) then mret (- EOPNOTSUPP)
    else if negb (bound s) then mret (- EDESTADDRREQ)
    else on_here (λ st, set_sockets (alter (set_listen (Z.max 0 n)) fd (sockets_ st)) st);; mret 0).

(** ** connect *)

Definition first_port : Z := 10000.
Definition port_count : Z := 50000.

Definition reciprocal_tuple (local peer : sockaddr_in) (c : Socket) : bool :=
  (sk_type c =? SOCK_STREAM) && connected c && same_endpoint (local_addr c) peer &&
  (s_addr (peer_addr c) =? s_addr local).

Definition pending_tuple (local peer : sockaddr_in) (c : TcpConnection) : bool :=
  (s_addr (c_local_addr c) =? s_addr local) && same_endpoint (c_peer_addr c) peer.

(** The ports one remote socket reserves. *)
Definition reserved_ports (local peer : sockaddr_in) (s : Socket) : list Z :=
  (if reciprocal_tuple local peer s then [ntohs (sin_port (peer_addr s))] else []) ++
  (if listening s
   then (λ e, ntohs (sin_port (c_local_addr e.2))) <$>
          List.filter (λ e, pending_tuple local peer e.2) (entries (established_connections s))
   else []).

Definition used_ports (w : W) (n : Node FD) (local peer : sockaddr_in) : list Z :=
  ((λ e, ntohs (sin_port (local_addr e.2))) <$>
     List.filter (λ e, bound e.2) (entries (sockets_ (n_sock n)))) ++
  concat ((λ e, reserved_ports local peer e.2) <$> all_sockets w).

(** [while (index < port_count && used[index]) ++index;] *)
Fixpoint free_port (fuel : nat) (used : list Z) (port : Z) : option Z :=
  match fuel with
  | O => None
  | S fuel => if bool_decide (port ∈ used) then free_port fuel used (port + 1) else Some port
  end.

(** The exception for reusing a bound endpoint whose old peer survives. *)
Definition reuse_conflict (local peer : sockaddr_in) (s : Socket) : option exn :=
  if reciprocal_tuple local peer s && (sin_port (peer_addr s) =? sin_port local)
  then Some (runtime_error "TCP bound endpoint reuse with a surviving peer is unsupported")
  else if listening s &&
          existsb (λ e, pending_tuple local peer e.2 && (sin_port (c_local_addr e.2) =? sin_port local))
            (entries (established_connections s))
  then Some (runtime_error "TCP bound endpoint reuse with a pending peer is unsupported")
  else None.

Definition listens_at w (peer : sockaddr_in) (e : nat * Z * Socket) : bool :=
  let s := e.2 in
  listening s && (sk_type s =? SOCK_STREAM) && (sin_port (local_addr s) =? sin_port peer) &&
  match (if s_addr (local_addr s) =? INADDR_ANY
         then w_nodes w !! e.1.1 ≫= λ n, inet_pton (n_addr n)
         else Some (s_addr (local_addr s))) with
  | Some effective => effective =? s_addr peer
  | None => false
  end.

(** The source address and port, staged before anything changes. *)
Definition stage_local (w : W) (n : Node FD) (sock : Socket) (peer : sockaddr_in) : option sockaddr_in :=
  let base := if bound sock then local_addr sock else addr_zero in
  let address :=
    if s_addr base =? INADDR_ANY
    then inet_pton (n_addr n) ≫= λ a, if a =? INADDR_ANY then None else Some a
    else Some (s_addr base) in
  address ≫= λ a,
  let local := mkAddr AF_INET (sin_port base) a in
  if negb (bound sock) || (sin_port local =? 0)
  then (λ p, mkAddr AF_INET (htons p) a) <$>
         free_port (Z.to_nat port_count) (used_ports w n local peer) first_port
  else Some local.

Definition established (fd : Z) (local peer : sockaddr_in) : TcpConnection := mkConn fd local peer [].

(** All state changes of a successful connect. *)
Definition connect_commit (fd : Z) (local peer : sockaddr_in) (li : nat) (lfd : Z) : NM unit :=
  on_here (λ s, set_sockets (alter (λ k, set_peer peer (set_binding true local k)) fd (sockets_ s)) s);;
  modify (upd_socket li lfd (λ l,
    set_queue (pending_connections l ++ [endpoint_key (s_addr local) (sin_port local)])
      (emplace (endpoint_key (s_addr local) (sin_port local)) (established fd local peer)
         (established_connections l)) l));;
  on_here (λ s, set_tcp (<[fd := established fd local peer]> (tcp_connections_ s)) s).

(** [SockState::do_connect] *)
Definition do_connect (fd addr addrlen : Z) : NM Z :=
  with_socket fd (λ n sock,
    if negb (sk_type sock =? SOCK_STREAM) then mret (- EOPNOTSUPP)
    else if connected sock then mret (- EISCONN)
    else if listening sock then mret (- EINVAL)
    else if addrlen <? sizeof_sockaddr_in then mret (- EINVAL)
    else
      bs ← guest_read addr sizeof_sockaddr_in;
      match bs with
      | None => mret (- EFAULT)
      | Some bs =>
          let peer := decode_addr bs in
          if negb (sin_family peer =? AF_INET) then mret (- EAFNOSUPPORT)
          else
            w ← get;
            match stage_local w n sock peer with
            | None => mret (- EADDRNOTAVAIL)
            | Some local =>
                match (if bound sock && negb (sin_port (local_addr sock) =? 0)
                       then head (omap (λ e, reuse_conflict local peer e.2) (all_sockets w))
                       else None) with
                | Some e => throw e
                | None =>
                    match List.filter (listens_at w peer) (all_sockets w) with
                    | [] => mret (- ECONNREFUSED)
                    | _ :: _ :: _ => throw (runtime_error "Ambiguous TCP listener endpoint")
                    | [(li, lfd, listener)] =>
                        throw_if (backlog listener <=? Z.of_nat (size (established_connections listener)))
                          (runtime_error "TCP backlog overflow requires unsupported blocking/connect state");;
                        throw_if (bool_decide (is_Some (established_connections listener !!
                                    endpoint_key (s_addr local) (sin_port local))))
                          (runtime_error
                            "TCP endpoint reuse while an older connection is pending is unsupported");;
                        connect_commit fd local peer li lfd;;
                        mret 0
                    end
                end
            end
      end).

(** ** accept *)

Definition accepted_socket (fd : Z) (listener : Socket) (pending : TcpConnection) : Socket :=
  mkSocket fd (sk_domain listener) SOCK_STREAM (sk_protocol listener) true (c_peer_addr pending)
    true false (c_local_addr pending) 0 [] ∅ (reuse_address listener) (no_delay listener)
    (keep_alive listener) (keep_idle listener) (keep_interval listener) (keep_count listener).

(** Copying the peer's address out, before the state changes. *)
Definition accept_copyout (peer : sockaddr_in) (addr addrlen : Z) : NM Z :=
  if addr =? 0 then mret 0 else copy_socket_address peer addr addrlen.

Definition do_accept (fd addr addrlen : Z) : NM Z :=
  with_socket fd (λ n listener,
    if negb (sk_type listener =? SOCK_STREAM) then mret (- EOPNOTSUPP)
    else if negb (listening listener) then mret (- EINVAL)
    else
      match pending_connections listener with
      | [] => mret (- EAGAIN)
      | client_key :: rest =>
          match established_connections listener !! client_key with
          | None =>
              on_here (λ s, set_sockets (alter (λ l, set_queue rest (established_connections l) l) fd
                                           (sockets_ s)) s);;
              mret (- ECONNRESET)
          | Some pending =>
              r ← accept_copyout (c_local_addr pending) addr addrlen;
              if negb (r =? 0) then mret r
              else
                new_fd ← on_ctx (fs_allocate_fd SOCKET O_RDWR 0);
                if new_fd <? 0 then mret (- EMFILE)
                else
                  on_here (λ s,
                    let s := set_sockets (alter (λ l, set_queue rest
                               (delete client_key (established_connections l)) l) fd (sockets_ s)) s in
                    let s := set_sockets (<[new_fd := accepted_socket new_fd listener pending]> (sockets_ s)) s in
                    set_tcp (<[new_fd := mkConn new_fd (c_peer_addr pending) (c_local_addr pending)
                                           (recv_buffer pending)]> (tcp_connections_ s)) s);;
                  mret new_fd
          end
      end).

(** [emu_accept4] *)
Definition emu_accept4 (fd addr addrlen flags : Z) : NM Z :=
  if has flags (Z.lnot (Z.lor SOCK_NONBLOCK SOCK_CLOEXEC)) then mret (- EINVAL)
  else
    fd ← do_accept fd addr addrlen;
    if fd <? 0 then mret fd
    else
      let fcntl cmd arg := on_ctx (λ k,
        match fdm k with
        | Some t => let '(t', o) := do_fcntl fd cmd arg t in (mkFsCtx (Some t') (fss k), o)
        | None => (k, Throw (runtime_error "Virtual descriptor manager missing"))
        end) in
      (if has flags SOCK_NONBLOCK then fcntl F_SETFL O_NONBLOCK else mret 0);;
      (if has flags SOCK_CLOEXEC then fcntl F_SETFD FD_CLOEXEC else mret 0);;
      mret fd.
End net.
