(* ===== verification/Transfer.v ===== *)
(** * The virtual network: data transfer, closing, epoll, options

    The rest of [src/src/subsys/net/sockstate.cpp]: routing of TCP payloads,
    UDP datagrams with the modelled reordering choice, closing with its end
    of file markers, epoll readiness and socket options. *)

From S2P Require Import Prelude Linux Bytes FdInterface FdManager Guest Vfs VfsOps Pipe Net.

Definition MAX_UDP_BUFFER : Z := 3.
Definition sizeof_epoll_event : Z := 12.

(** The packed [struct epoll_event]. *)
Definition encode_event (events data : Z) : list byte := le_bytes 4 events ++ le_bytes 8 data.

Section transfer.
Context {FD : Type} `{!DescriptorNamespace FD} {Mem : Type} `{!ProcessVm Mem}.
Context (inet_pton : str → option Z).
Abbreviation W := (World FD Mem).
Abbreviation NM := (M (World FD Mem)).
Implicit Types w : W.

(** ** TCP *)

(** Is [r], at node [i], the accepted peer of [sock]? *)
Definition is_peer w (sock : Socket) (i : nat) (r : Socket) : bool :=
  connected r &&
  (match w_nodes w !! i with
   | Some n => effective_addr inet_pton n (s_addr (local_addr r))
   | None => s_addr (local_addr r)
   end =? s_addr (peer_addr sock)) &&
  (sin_port (local_addr r) =? sin_port (peer_addr sock)) &&
  same_endpoint (peer_addr r) (local_addr sock).

(** Where a payload goes: an accepted connection, or one still waiting at a
    listener under a key. *)
Inductive route :=
  | ToConnection (node : nat) (fd : Z)
  | ToPending (node : nat) (listener : Z) (key : Z).

#[global] Instance route_eq_dec : EqDecision route.
Proof. solve_decision. Defined.

Definition socket_key (s : Socket) : Z := endpoint_key (s_addr (local_addr s)) (sin_port (local_addr s)).

(** The two loops of one node. *)
Definition node_route w (sock : Socket) (i : nat) (n : Node FD) : option route :=
  match first_entry (λ fd r, is_peer w sock i r && bool_decide (is_Some (tcp_connections_ (n_sock n) !! fd)))
          (sockets_ (n_sock n)) with
  | Some (fd, _) => Some (ToConnection i fd)
  | None =>
      match first_entry (λ _ r, listening r &&
              match established_connections r !! socket_key sock with
              | Some c => same_endpoint (c_peer_addr c) (peer_addr sock)
              | None => false
              end) (sockets_ (n_sock n)) with
      | Some (fd, _) => Some (ToPending i fd (socket_key sock))
      | None => None
      end
  end.

(** The first node, in order, that has a destination. *)
Fixpoint route_from w (sock : Socket) (i : nat) (l : list (Node FD)) : option route :=
  match l with
  | [] => None
  | n :: l =>
      match node_route w sock i n with
      | Some r => Some r
      | None => route_from w sock (S i) l
      end
  end.

Definition find_route w (sock : Socket) : option route := route_from w sock 0 (w_nodes w).

Definition deliver (r : route) (data : str) w : W :=
  match r with
  | ToConnection i fd => upd_sock i (λ s, set_tcp (alter (push_recv data) fd (tcp_connections_ s)) s) w
  | ToPending i lfd key =>
      upd_socket i lfd (λ l, set_queue (pending_connections l)
                               (alter (push_recv data) key (established_connections l)) l) w
  end.

(** [SockState::do_send_buffer] *)
Definition do_send_buffer (fd : Z) (data : str) : NM Z :=
  n ← here;
  match sockets_ (n_sock n) !! fd with
  | None => throw (runtime_error "TCP payload route has no validated socket")
  | Some sock =>
      w ← get;
      match find_route w sock with
      | None => mret (- ECONNRESET)
      | Some r =>
          (if bool_decide (data = []) then mret tt else modify (deliver r data));;
          mret (zlength data)
      end
  end.

(** [SockState::do_send] *)
Definition do_send (fd buf len flags : Z) : NM Z :=
  throw_if (has flags (Z.lnot (Z.lor MSG_DONTWAIT MSG_NOSIGNAL))) (runtime_error "Unsupported TCP send flags");;
  with_socket fd (λ _ sock,
    if negb (connected sock) then mret (- ENOTCONN)
    else if len =? 0 then mret 0
    else
      data ← guest_read buf len;
      match data with
      | None => mret (- EFAULT)
      | Some data => do_send_buffer fd data
      end).

(** [SockState::do_recv] *)
Definition do_recv (fd buf len flags : Z) : NM Z :=
  throw_if (has flags (Z.lnot (Z.lor MSG_DONTWAIT MSG_PEEK))) (runtime_error "Unsupported TCP receive flags");;
  with_socket fd (λ n sock,
    if negb (connected sock) then mret (- ENOTCONN)
    else
      match tcp_connections_ (n_sock n) !! fd with
      | None => mret (- ECONNRESET)
      | Some conn =>
          if len =? 0 then mret 0
          else
            match recv_buffer conn with
            | [] => mret (- EAGAIN)
            | data :: rest =>
                if bool_decide (data = []) then mret 0
                else
                  let to_copy := Z.min len (zlength data) in
                  ok ← guest_write buf (take (Z.to_nat to_copy) data);
                  if negb ok then mret (- EFAULT)
                  else if has flags MSG_PEEK then mret to_copy
                  else
                    on_here (λ s, set_tcp (<[fd := set_recv
                      (if to_copy <? zlength data then drop (Z.to_nat to_copy) data :: rest else rest) conn]>
                        (tcp_connections_ s)) s);;
                    mret to_copy
            end
      end).

(** ** UDP *)

(** [addr_to_node] *)
Fixpoint node_of_addr (a : Z) (i : Z) (l : list (Node FD)) : Z :=
  match l with
  | [] => -1
  | n :: l =>
      match inet_pton (n_addr n) with
      | Some x => if a =? x then i else node_of_addr a (i + 1) l
      | None => node_of_addr a (i + 1) l
      end
  end.

Definition addr_to_node w (a : sockaddr_in) : Z :=
  if (s_addr a =? 4278190081) || (s_addr a =? 0) then Z.of_nat (w_cursor w)
  else node_of_addr (s_addr a) 0 (w_nodes w).

(** [SockState::deliver_udp_datagram], on the receiving node. *)
Definition deliver_udp_datagram (node : nat) (recv_fd : Z) (dg : UdpDatagram) : NM unit :=
  w ← get;
  match w_nodes w !! node with
  | None => throw (out_of_range "node")
  | Some n =>
      let queue := default [] (udp_recv_buffers_ (n_sock n) !! recv_fd) in
      if MAX_UDP_BUFFER <=? zlength queue
      then consume_model_budget 1
      else modify (upd_sock node (λ s, set_udp (<[recv_fd := queue ++ [dg]]> (udp_recv_buffers_ s)) s))
  end.

Definition receives_at (dest : sockaddr_in) (_ : Z) (rs : Socket) : bool :=
  (sk_type rs =? SOCK_DGRAM) && bound rs && (sin_port (local_addr rs) =? sin_port dest) &&
  ((s_addr (local_addr rs) =? INADDR_ANY) || (s_addr (local_addr rs) =? s_addr dest)).

(** The destination of a datagram, or the error. *)
Definition udp_destination (sock : Socket) (dest_addr addrlen : Z) : NM (Z + sockaddr_in) :=
  if negb (dest_addr =? 0) then
    if addrlen <? sizeof_sockaddr_in then mret (inl (- EINVAL))
    else
      bs ← guest_read dest_addr sizeof_sockaddr_in;
      mret (match bs with
            | None => inl (- EFAULT)
            | Some bs => let dest := decode_addr bs in
                if sin_family dest =? AF_INET then inr dest else inl (- EAFNOSUPPORT)
            end)
  else if connected sock then mret (inr (peer_addr sock))
  else mret (inl (- EDESTADDRREQ)).

(** Routing the payload to the receiver of a node. *)
Definition udp_route (n : Node FD) (sock : Socket) (node : nat) (dest : sockaddr_in) (data : str) : NM Z :=
  w ← get;
  match w_nodes w !! node with
  | None => throw (out_of_range "node")
  | Some receiver =>
      match first_entry (receives_at dest) (sockets_ (n_sock receiver)) with
      | None => mret (zlength data)
      | Some (recvfd, _) =>
          match (if s_addr (local_addr sock) =? INADDR_ANY then inet_pton (n_addr n)
                 else Some (s_addr (local_addr sock))) with
          | None => mret (- EADDRNOTAVAIL)
          | Some a =>
              deliver_udp_datagram node recvfd
                (mkDatagram data (mkAddr AF_INET (if bound sock then sin_port (local_addr sock) else 0) a));;
              mret (zlength data)
          end
      end
  end.

(** [SockState::do_sendto] *)
Definition do_sendto (fd buf len flags dest_addr addrlen : Z) : NM Z :=
  throw_if (has flags (Z.lnot (Z.lor MSG_DONTWAIT MSG_NOSIGNAL))) (runtime_error "Unsupported UDP send flags");;
  with_socket fd (λ n sock,
    if sk_type sock =? SOCK_STREAM then
      throw_if (negb (dest_addr =? 0))
        (runtime_error "TCP sendto with explicit destination is unsupported");;
      do_send fd buf len flags
    else if negb (sk_type sock =? SOCK_DGRAM) then mret (- EOPNOTSUPP)
    else
      d ← udp_destination sock dest_addr addrlen;
      match d with
      | inl e => mret e
      | inr dest =>
          w ← get;
          let node := addr_to_node w dest in
          if node <? 0 then mret (- ENETUNREACH)
          else if sin_port dest =? 0 then mret (- EINVAL)
          else
            data ← guest_read buf len;
            match data with
            | None => mret (- EFAULT)
            | Some data => udp_route n sock (Z.to_nat node) dest data
            end
      end).

(** Copying the source address out of [recvfrom]. *)
Definition recvfrom_copyout (from : sockaddr_in) (src_addr addrlen : Z) : NM Z :=
  if src_addr =? 0 then mret 0
  else
    bs ← guest_read addrlen 4;
    match bs with
    | None => mret (- EFAULT)
    | Some bs =>
        ok ← guest_write src_addr
               (take (Z.to_nat (Z.min (le_Z bs) sizeof_sockaddr_in)) (encode_addr from));
        if negb ok then mret (- EFAULT)
        else
          ok ← guest_write addrlen (le_bytes 4 sizeof_sockaddr_in);
          mret (if ok : bool then 0 else - EFAULT)
    end.

(** The position of the chosen datagram. *)
Definition chosen (choice : Z) (queue : list UdpDatagram) : nat :=
  if (choice =? 1) && (2 <=? zlength queue) then 1%nat else 0%nat.

(** [SockState::do_recvfrom_with_choice] *)
Definition do_recvfrom_with_choice (fd buf len flags src_addr addrlen choice : Z) : NM Z :=
  throw_if (has flags (Z.lnot (Z.lor MSG_DONTWAIT (Z.lor MSG_PEEK MSG_TRUNC))))
    (runtime_error "Unsupported UDP receive flags");;
  with_socket fd (λ n sock,
    if sk_type sock =? SOCK_STREAM then
      throw_if (negb (src_addr =? 0) || negb (addrlen =? 0))
        (runtime_error "TCP recvfrom source address is unsupported");;
      do_recv fd buf len flags
    else if negb (sk_type sock =? SOCK_DGRAM) then mret (- EOPNOTSUPP)
    else
      let queue := default [] (udp_recv_buffers_ (n_sock n) !! fd) in
      if bool_decide (queue = []) then mret (- EAGAIN)
      else if (choice <? 0) || (1 <? choice) then mret (- EAGAIN)
      else if (choice =? 1) && (zlength queue =? 1)
      then consume_model_budget 1;; mret (- EAGAIN)
      else
        match queue !! chosen choice queue with
        | None => throw (out_of_range "deque")
        | Some dg =>
            let copy_len := Z.min len (zlength (dg_content dg)) in
            ok ← guest_write buf (take (Z.to_nat copy_len) (dg_content dg));
            if negb ok then mret (- EFAULT)
            else
              r ← recvfrom_copyout (dg_from dg) src_addr addrlen;
              if negb (r =? 0) then mret r
              else
                (if choice =? 1 then consume_model_budget 1 else mret tt);;
                (if has flags MSG_PEEK then mret tt
                 else on_here (λ s, set_udp (<[fd := delete (chosen choice queue) queue]>
                                               (udp_recv_buffers_ s)) s));;
                mret (if has flags MSG_TRUNC then zlength (dg_content dg) else copy_len)
        end).

Definition do_recvfrom (fd buf len flags src_addr addrlen : Z) : NM Z :=
  do_recvfrom_with_choice fd buf len flags src_addr addrlen 0.

(** [get_recvfrom_choices] *)
Definition get_recvfrom_choices (s : SockState) (fd : Z) : Z :=
  if bool_decide (default [] (udp_recv_buffers_ s !! fd) = []) then 0 else 2.

Definition get_udp_buffer_size (s : SockState) (fd : Z) : Z :=
  match udp_recv_buffers_ s !! fd with Some q => zlength q | None => 0 end.

(** [emu_recvfrom]: the explored choice, if one is being enumerated. *)
Definition emu_recvfrom (n_choose choose fd buf len flags src_addr addrlen : Z) : NM Z :=
  do_recvfrom_with_choice fd buf len flags src_addr addrlen (if 0 <? n_choose then choose else 0).

(** [emu_send] *)
Definition emu_send (fd buf len flags : Z) : NM Z :=
  with_socket fd (λ _ s,
    if sk_type s =? SOCK_STREAM then do_send fd buf len flags else do_sendto fd buf len flags 0 0).

(** ** close *)

Definition forget_fd (fd : Z) (s : SockState) : SockState :=
  set_epoll ((λ e, mkEpoll (epoll_fd e) (delete fd (watched_fds e))) <$> epoll_instances_ s) s.

(** The end of file marker for a connection still waiting at a listener. *)
Definition notify_pending (endpoint : Z) (peer : sockaddr_in) (l : Socket) : Socket :=
  if listening l then
    set_queue (pending_connections l)
      (alter (λ c, if same_endpoint (c_peer_addr c) peer then push_recv [] c else c) endpoint
         (established_connections l)) l
  else l.

(** ... and for the first accepted peer of a node. *)
Definition closes_to (local_a : Z) (sock : Socket) (_ : Z) (r : Socket) : bool :=
  connected r && (s_addr (peer_addr r) =? local_a) &&
  (sin_port (peer_addr r) =? sin_port (local_addr sock)) &&
  same_endpoint (local_addr r) (peer_addr sock).

Definition notify_peer (local_a : Z) (sock : Socket) (s : SockState) : SockState :=
  match first_entry (closes_to local_a sock) (sockets_ s) with
  | Some (fd, _) => set_tcp (alter (push_recv []) fd (tcp_connections_ s)) s
  | None => s
  end.

(** What closing a connected stream socket tells the other nodes. *)
Definition notify_close (n : Node FD) (sock : Socket) w : W :=
  let local_a := effective_addr inet_pton n (s_addr (local_addr sock)) in
  let endpoint := endpoint_key local_a (sin_port (local_addr sock)) in
  set_nodes
    ((λ m, mkNode (n_ctx m)
       (notify_peer local_a sock
          (set_sockets (notify_pending endpoint (peer_addr sock) <$> sockets_ (n_sock m)) (n_sock m)))
       (n_addr m)) <$> w_nodes w) w.

(** [SockState::do_close] *)
Definition do_close_socket (fd : Z) : NM Z :=
  n ← here;
  match sockets_ (n_sock n) !! fd with
  | None => mret (- EBADF)
  | Some sock =>
      (if connected sock && (sk_type sock =? SOCK_STREAM) then modify (notify_close n sock) else mret tt);;
      on_here (λ s, forget_fd fd
        (mkSock (delete fd (sockets_ s)) (delete fd (udp_recv_buffers_ s))
           (delete fd (tcp_connections_ s)) (epoll_instances_ s)));;
      on_ctx (fs_release_fd fd);;
      mret 0
  end.

(** ** epoll *)

Definition do_epoll_close (fd : Z) : NM Z :=
  n ← here;
  match epoll_instances_ (n_sock n) !! fd with
  | None => mret (- EBADF)
  | Some _ =>
      on_here (λ s, forget_fd fd (set_epoll (delete fd (epoll_instances_ s)) s));;
      on_ctx (fs_release_fd fd);;
      mret 0
  end.

Definition do_epoll_create1 (flags : Z) : NM Z :=
  if has flags (Z.lnot EPOLL_CLOEXEC) then mret (- EINVAL)
  else
    epfd ← on_ctx (fs_allocate_fd EPOLL O_RDWR (if negb (flags =? 0) then FD_CLOEXEC else 0));
    if epfd <? 0 then mret (- EMFILE)
    else on_here (λ s, set_epoll (<[epfd := mkEpoll epfd ∅]> (epoll_instances_ s)) s);; mret epfd.

Definition do_epoll_create (n : Z) : NM Z :=
  if n <=? 0 then mret (- EINVAL) else do_epoll_create1 0.

Definition unsupported_watch : Z := Z.lor EPOLLET (Z.lor EPOLLONESHOT (Z.lor EPOLLEXCLUSIVE EPOLLWAKEUP)).
Definition supported_events : Z :=
  Z.lor EPOLLIN (Z.lor EPOLLOUT (Z.lor EPOLLERR (Z.lor EPOLLHUP EPOLLRDHUP))).

(** [SockState::do_epoll_ctl] *)
Definition do_epoll_ctl (epfd op fd event : Z) : NM Z :=
  n ← here;
  match epoll_instances_ (n_sock n) !! epfd with
  | None => mret (- EBADF)
  | Some instance =>
      if negb (kernel_allocated (n_ctx n) fd) then mret (- EBADF)
      else if fd =? epfd then mret (- EINVAL)
      else
        throw_if (bool_decide (fd_kind (n_ctx n) fd = EPOLL)) (runtime_error "Nested epoll is unsupported");;
        if negb (bool_decide (fd_kind (n_ctx n) fd = SOCKET)) && negb (bool_decide (fd_kind (n_ctx n) fd = PIPE))
        then mret (- EPERM)
        else if negb (op =? EPOLL_CTL_ADD) && negb (op =? EPOLL_CTL_MOD) && negb (op =? EPOLL_CTL_DEL)
        then mret (- EINVAL)
        else
          let watched := bool_decide (is_Some (watched_fds instance !! fd)) in
          let put_watches m := on_here (λ s, set_epoll (<[epfd := mkEpoll (epoll_fd instance) m]>
                                                          (epoll_instances_ s)) s) in
          if (op =? EPOLL_CTL_ADD) && watched then mret (- EEXIST)
          else if negb (op =? EPOLL_CTL_ADD) && negb watched then mret (- ENOENT)
          else if op =? EPOLL_CTL_DEL then put_watches (delete fd (watched_fds instance));; mret 0
          else
            bs ← guest_read event sizeof_epoll_event;
            match bs with
            | None => mret (- EFAULT)
            | Some bs =>
                let events := le_Z (take 4 bs) in
                throw_if (has events unsupported_watch) (runtime_error "Unsupported epoll watch mode");;
                throw_if (has events (Z.lnot supported_events))
                  (runtime_error "Unsupported epoll readiness mask");;
                put_watches (<[fd := mkWatch events (le_Z (take 8 (drop 4 bs)))]> (watched_fds instance));;
                mret 0
            end
  end.

(** [SockState::ready_events] *)
Definition socket_ready (s : SockState) (fd : Z) (socket : Socket) : Z :=
  if sk_type socket =? SOCK_DGRAM then
    Z.lor (if negb (get_udp_buffer_size s fd =? 0) then EPOLLIN else 0) EPOLLOUT
  else if listening socket then
    if bool_decide (pending_connections socket = []) then 0 else EPOLLIN
  else if connected socket then
    match tcp_connections_ s !! fd with
    | None => 0
    | Some c =>
        Z.lor (if bool_decide (recv_buffer c = []) then 0 else EPOLLIN)
          (Z.lor (if bool_decide (last (recv_buffer c) = Some []) then EPOLLRDHUP else 0) EPOLLOUT)
    end
  else 0.

Definition pipe_ready (fs : FileSystemState) (fd : Z) : Z :=
  match pipe_fds_ fs !! fd with
  | None => 0
  | Some id =>
      match pipes_ fs !! Z.abs id with
      | None => 0
      | Some p =>
          if 0 <? id then
            Z.lor (if negb (bool_decide (buffer p = [])) || write_closed p then EPOLLIN else 0)
              (if write_closed p then EPOLLHUP else 0)
          else if read_closed p then EPOLLERR
          else if zlength (buffer p) <? pipe_capacity then EPOLLOUT else 0
      end
  end.

Definition ready_events (s : SockState) (fs : FileSystemState) (fd : Z) : Z :=
  match sockets_ s !! fd with
  | Some socket => socket_ready s fd socket
  | None => pipe_ready fs fd
  end.

Definition reported (watch : EpollWatch) : Z := Z.lor (watch_events watch) (Z.lor EPOLLERR EPOLLHUP).

Definition epoll_ready (s : SockState) (fs : FileSystemState) (epfd : Z) : bool :=
  match epoll_instances_ s !! epfd with
  | None => true
  | Some instance =>
      existsb (λ e, has (ready_events s fs e.1) (reported e.2)) (entries (watched_fds instance))
  end.

(** The events of the wait loop, at most [maxevents] of them. *)
Fixpoint wait_loop (s : SockState) (fs : FileSystemState) (maxevents : Z)
    (l : list (Z * EpollWatch)) (output : list (Z * Z)) : list (Z * Z) :=
  match l with
  | [] => output
  | (fd, watch) :: l =>
      if maxevents <=? zlength output then output
      else
        let ready := Z.land (ready_events s fs fd) (reported watch) in
        wait_loop s fs maxevents l
          (if negb (ready =? 0) then output ++ [(ready, watch_data watch)] else output)
  end.

(** [SockState::do_epoll_wait] *)
Definition do_epoll_wait (epfd events maxevents timeout : Z) : NM Z :=
  n ← here;
  match epoll_instances_ (n_sock n) !! epfd with
  | None => mret (- EBADF)
  | Some instance =>
      if (maxevents <=? 0) || (INT_MAX / sizeof_epoll_event <? maxevents) then mret (- EINVAL)
      else
        let output := wait_loop (n_sock n) (fss (n_ctx n)) maxevents (entries (watched_fds instance)) [] in
        ok ← guest_write events (concat ((λ e, encode_event e.1 e.2) <$> output));
        mret (if ok : bool then zlength output else - EFAULT)
  end.

(** [emu_epoll_pwait], [emu_epoll_pwait2] *)
Definition emu_epoll_pwait (epfd events maxevents timeout sigmask : Z) : NM Z :=
  throw_if (negb (sigmask =? 0)) (runtime_error "epoll_pwait signal masks are unsupported");;
  do_epoll_wait epfd events maxevents timeout.

Definition pwait2_timeout (sec nsec : Z) : Z :=
  if INT_MAX / 1000 <? sec then INT_MAX else Z.min INT_MAX (sec * 1000 + (nsec + 999999) / 1000000).

Definition emu_epoll_pwait2 (epfd events maxevents timeout sigmask : Z) : NM Z :=
  throw_if (negb (sigmask =? 0)) (runtime_error "epoll_pwait2 signal masks are unsupported");;
  if timeout =? 0 then do_epoll_wait epfd events maxevents (-1)
  else
    bs ← guest_read timeout 16;
    match bs with
    | None => mret (- EFAULT)
    | Some bs =>
        let sec := int64 (le_Z (take 8 bs)) in
        let nsec := int64 (le_Z (drop 8 bs)) in
        if (sec <? 0) || (nsec <? 0) || (1000000000 <=? nsec) then mret (- EINVAL)
        else do_epoll_wait epfd events maxevents (pwait2_timeout sec nsec)
    end.

(** ** Socket options *)

(** What an option names: a flag, or a number with its maximum. *)
Inductive option_slot :=
  | ReuseAddress | KeepAlive | NoDelay | KeepIdle | KeepInterval | KeepCount.

Definition set_slot (level optname type : Z) : option option_slot :=
  if (level =? SOL_SOCKET) && (optname =? SO_REUSEADDR) then Some ReuseAddress
  else if (level =? SOL_SOCKET) && (optname =? SO_KEEPALIVE) then Some KeepAlive
  else if (level =? IPPROTO_TCP) && (optname =? TCP_NODELAY) && (type =? SOCK_STREAM) then Some NoDelay
  else if (level =? IPPROTO_TCP) && (type =? SOCK_STREAM) then
    if optname =? TCP_KEEPIDLE then Some KeepIdle
    else if optname =? TCP_KEEPINTVL then Some KeepInterval
    else if optname =? TCP_KEEPCNT then Some KeepCount
    else None
  else None.

Definition slot_maximum (o : option_slot) : option Z :=
  match o with
  | ReuseAddress | KeepAlive | NoDelay => None
  | KeepIdle | KeepInterval => Some 32767
  | KeepCount => Some 127
  end.

Definition store_slot (o : option_slot) (v : Z) (s : Socket) : Socket :=
  let flag := negb (v =? 0) in
  match o with
  | ReuseAddress => set_flags flag (no_delay s) (keep_alive s) s
  | KeepAlive => set_flags (reuse_address s) (no_delay s) flag s
  | NoDelay => set_flags (reuse_address s) flag (keep_alive s) s
  | KeepIdle => set_keep v (keep_interval s) (keep_count s) s
  | KeepInterval => set_keep (keep_idle s) v (keep_count s) s
  | KeepCount => set_keep (keep_idle s) (keep_interval s) v s
  end.

(** [emu_setsockopt] *)
Definition emu_setsockopt (fd level optname optval optlen : Z) : NM Z :=
  with_socket fd (λ _ s,
    match set_slot level optname (sk_type s) with
    | None => throw (runtime_error "Unsupported setsockopt option")
    | Some slot =>
        if optlen <? 4 then mret (- EINVAL)
        else
          bs ← guest_read optval 4;
          match bs with
          | None => mret (- EFAULT)
          | Some bs =>
              let value := int32 (le_Z bs) in
              if match slot_maximum slot with
                 | Some maximum => (value <? 1) || (maximum <? value)
                 | None => false
                 end
              then mret (- EINVAL)
              else on_here (λ st, set_sockets (alter (store_slot slot value) fd (sockets_ st)) st);; mret 0
          end
    end).

Definition b2z (b : bool) : Z := if b then 1 else 0.

Definition get_option (level optname : Z) (s : Socket) : outcome Z :=
  let unsupported := Throw (runtime_error "Unsupported getsockopt option") in
  if (level =? IPPROTO_TCP) && (sk_type s =? SOCK_STREAM) then
    if optname =? TCP_NODELAY then Ret (b2z (no_delay s))
    else if optname =? TCP_KEEPIDLE then Ret (keep_idle s)
    else if optname =? TCP_KEEPINTVL then Ret (keep_interval s)
    else if optname =? TCP_KEEPCNT then Ret (keep_count s)
    else unsupported
  else if level =? SOL_SOCKET then
    if optname =? SO_REUSEADDR then Ret (b2z (reuse_address s))
    else if optname =? SO_KEEPALIVE then Ret (b2z (keep_alive s))
    else if optname =? SO_ACCEPTCONN then Ret (b2z (listening s))
    else if optname =? SO_TYPE then Ret (sk_type s)
    else if optname =? SO_DOMAIN then Ret (sk_domain s)
    else if optname =? SO_PROTOCOL then Ret (sk_protocol s)
    else if optname =? SO_ERROR then Ret 0
    else unsupported
  else Throw (runtime_error "Unsupported getsockopt level/option").

(** [emu_getsockopt] *)
Definition emu_getsockopt (fd level optname optval optlen : Z) : NM Z :=
  with_socket fd (λ _ s,
    value ← lift (get_option level optname s);
    bs ← guest_read optlen 4;
    match bs with
    | None => mret (- EFAULT)
    | Some bs =>
        let capacity := le_Z bs in
        if INT_MAX <? capacity then mret (- EINVAL)
        else
          let actual := Z.min capacity 4 in
          ok ← guest_write optval (take (Z.to_nat actual) (le_bytes 4 value));
          if negb ok then mret (- EFAULT)
          else
            ok ← guest_write optlen (le_bytes 4 actual);
            mret (if ok : bool then 0 else - EFAULT)
    end).
End transfer.
