(* ===== verification/NetProps.v ===== *)
(** * The virtual network: properties

    Connecting, the order of TCP streams, UDP queues and epoll. *)

From S2P Require Import Prelude Linux Bytes FdInterface FdManager Guest Vfs VfsOps Pipe Net Transfer.

Section props.
Context {FD : Type} `{!DescriptorNamespace FD} {Mem : Type} `{!ProcessVm Mem}.
Context (inet_pton : str → option Z).
Implicit Types w : World FD Mem.

Ltac refused := intros [= <- <-]; left; split; [done|]; intros ? [= <-]; done.

(** ** Ports *)

Lemma free_port_spec fuel used p q :
  free_port fuel used p = Some q →
  p ≤ q < p + Z.of_nat fuel ∧ (q ∉ used) ∧ ∀ r, p ≤ r < q → r ∈ used.
Proof.
  revert p. induction fuel as [|fuel IH]; intros p; cbn [free_port]; [done|].
  destruct (bool_decide_reflect (p ∈ used)) as [Hp|Hp].
  - intros (H1 & H2 & H3)%IH. split; [lia|]. split; [done|].
    intros r Hr. destruct (decide (r = p)) as [->|]; [done|]. apply H3. lia.
  - intros [= <-]. split; [lia|]. split; [done|]. intros r Hr. lia.
Qed.

Lemma free_port_None fuel used p :
  free_port fuel used p = None → ∀ r, p ≤ r < p + Z.of_nat fuel → r ∈ used.
Proof.
  revert p. induction fuel as [|fuel IH]; intros p; cbn [free_port]; [intros _ r Hr; lia|].
  destruct (bool_decide_reflect (p ∈ used)) as [Hp|Hp]; [|done].
  intros H r Hr. destruct (decide (r = p)) as [->|]; [done|]. apply (IH _ H). lia.
Qed.

(** What the staged source endpoint of a connect is. *)
Record staged w (n : Node FD) (sock : Socket) (peer local : sockaddr_in) : Prop := {
  st_family : sin_family local = AF_INET;
  st_address : if bound sock && negb (s_addr (local_addr sock) =? INADDR_ANY)
               then s_addr local = s_addr (local_addr sock)
               else inet_pton (n_addr n) = Some (s_addr local) ∧ s_addr local ≠ INADDR_ANY;
  st_port : if bound sock && negb (sin_port (local_addr sock) =? 0)
            then sin_port local = sin_port (local_addr sock)
            else ∃ p, sin_port local = htons p ∧ first_port ≤ p < first_port + port_count ∧
                   ∃ used, used = used_ports w n (mkAddr AF_INET (sin_port (if bound sock then local_addr sock
                                    else addr_zero)) (s_addr local)) peer ∧
                   (p ∉ used) ∧ ∀ r, first_port ≤ r < p → r ∈ used;
}.

Lemma stage_local_spec w n sock peer local :
  stage_local inet_pton w n sock peer = Some local → staged w n sock peer local.
Proof.
  unfold stage_local. set (base := if bound sock then local_addr sock else addr_zero).
  destruct (if s_addr base =? INADDR_ANY then _ else _) as [a|] eqn:Ha; [|done]. cbn [mbind option_bind].
  assert (if bound sock && negb (s_addr (local_addr sock) =? INADDR_ANY)
          then a = s_addr (local_addr sock)
          else inet_pton (n_addr n) = Some a ∧ a ≠ INADDR_ANY) as Haddr.
  { subst base. destruct (bound sock); cbn [andb negb s_addr addr_zero] in *.
    - destruct (s_addr (local_addr sock) =? INADDR_ANY); cbn [negb]; [|congruence].
      destruct (inet_pton (n_addr n)) as [x|]; [|done]. cbn in Ha.
      destruct (Z.eqb_spec x INADDR_ANY); [done|]. injection Ha as ->. done.
    - rewrite Z.eqb_refl in Ha. destruct (inet_pton (n_addr n)) as [x|]; [|done]. cbn in Ha.
      destruct (Z.eqb_spec x INADDR_ANY); [done|]. injection Ha as ->. done. }
  cbn [sin_port]. destruct (negb (bound sock) || (sin_port base =? 0)) eqn:Hp.
  - destruct (free_port _ _ _) as [p|] eqn:Hf; [|done]. intros [= <-].
    apply free_port_spec in Hf as (H1 & H2 & H3). split; [done|done|].
    assert (bound sock && negb (sin_port (local_addr sock) =? 0) = false) as ->.
    { subst base. by destruct (bound sock), (sin_port (local_addr sock) =? 0). }
    exists p. split; [done|]. split; [unfold port_count in *; lia|]. by eexists.
  - intros [= <-]. split; [done|done|].
    assert (bound sock = true ∧ base = local_addr sock ∧ (sin_port (local_addr sock) =? 0) = false) as (-> & -> & ->).
    { subst base. destruct (bound sock); [|done]. by destruct (sin_port (local_addr sock) =? 0). }
    done.
Qed.

(** ** connect *)

Record connect_done w (fd : Z) (n : Node FD) (sock : Socket) (local peer : sockaddr_in)
    (li : nat) (lfd : Z) (listener : Socket) : Prop := {
  cd_node : w_nodes w !! w_cursor w = Some n;
  cd_sock : sockets_ (n_sock n) !! fd = Some sock;
  cd_client : sk_type sock = SOCK_STREAM ∧ connected sock = false ∧ listening sock = false;
  cd_local : staged w n sock peer local;
  cd_listener : ∀ e, e ∈ all_sockets w → listens_at inet_pton w peer e = true → e = (li, lfd, listener);
  cd_listens : (li, lfd, listener) ∈ all_sockets w ∧ listens_at inet_pton w peer (li, lfd, listener) = true;
  cd_backlog : Z.of_nat (size (established_connections listener)) < backlog listener;
  cd_fresh : established_connections listener !! endpoint_key (s_addr local) (sin_port local) = None;
  cd_unused : bound sock = true → sin_port (local_addr sock) ≠ 0 →
    ∀ e, e ∈ all_sockets w → reuse_conflict local peer e.2 = None;
}.


(** ** TCP streams *)

Lemma do_send_cases fd buf len flags w w' o :
  0 ≤ len → do_send inet_pton fd buf len flags w = (w', o) →
  (w' = w ∧ ∀ n, o = Ret n → n ≤ 0) ∨
  ∃ n sock data r, w_nodes w !! w_cursor w = Some n ∧ sockets_ (n_sock n) !! fd = Some sock ∧
    guest_read_exact (w_mem w) buf len = Some data ∧ 0 < zlength data ∧ zlength data = len ∧
    find_route inet_pton w sock = Some r ∧ o = Ret (zlength data) ∧ w' = deliver r data w.
Proof.
  intros Hlen. unfold do_send, do_send_buffer, with_socket, here. unmonad; unfold guest_read in *.
  destruct (has flags _); [refused|]. destruct (w_nodes w !! w_cursor w) as [n|] eqn:Hn; [|refused].
  destruct (sockets_ (n_sock n) !! fd) as [sock|] eqn:Hs;
    [|unfold invalid_socket_error; destruct (kernel_allocated _ _); refused].
  destruct (connected sock); cbn [negb]; [|refused].
  destruct (Z.eqb_spec len 0) as [|Hne]; [refused|].
  destruct (guest_read_exact (w_mem w) buf len) as [data|] eqn:Hd; [|refused].
  rewrite Hn, Hs. destruct (find_route inet_pton w sock) as [r|] eqn:Hr; [|refused].
  pose proof (guest_read_exact_length _ _ _ _ Hlen Hd) as Hz.
  destruct (bool_decide_reflect (data = [])) as [->|Hdn]; [unfold zlength in Hz; simpl in Hz; lia|].
  intros [= <- <-]. right. exists n, sock, data, r. split_and!; try done. lia.
Qed.

Lemma do_recv_cases fd buf len flags w w' o :
  0 ≤ len → do_recv fd buf len flags w = (w', o) →
  (w_nodes w' = w_nodes w ∧ (has flags MSG_PEEK = false → ∀ n, o = Ret n → n ≤ 0)) ∨
  ∃ n conn front back rest, w_nodes w !! w_cursor w = Some n ∧
    tcp_connections_ (n_sock n) !! fd = Some conn ∧ recv_buffer conn = (front ++ back) :: rest ∧
    0 < zlength front ∧ has flags MSG_PEEK = false ∧ o = Ret (zlength front) ∧
    guest_read_exact (w_mem w') buf (zlength front) = Some front ∧
    w_nodes w' = w_nodes (upd_sock (w_cursor w) (λ s, set_tcp (<[fd := set_recv
      (if decide (back = []) then rest else back :: rest) conn]> (tcp_connections_ s)) s) w).
Proof.
  intros Hlen. assert (∀ e : Z, e ≤ 0 → (w, Ret e) = (w', o) →
    w_nodes w' = w_nodes w ∧ (has flags MSG_PEEK = false → ∀ n, o = Ret n → n ≤ 0)) as Hret.
  { intros e He [= <- <-]. split; [done|]. by intros _ n [= <-]. }
  assert (∀ e, (w, Throw e) = (w', o) →
    w_nodes w' = w_nodes w ∧ (has flags MSG_PEEK = false → ∀ n : Z, o = Ret n → n ≤ 0)) as Hthr.
  { intros e [= <- <-]. split; [done|]. by intros _ n [=]. }
  unfold do_recv, with_socket, here. unmonad; unfold guest_read in *.
  destruct (has flags (Z.lnot _)); [intros H; left; eapply Hthr; exact H|].
  destruct (w_nodes w !! w_cursor w) as [n|] eqn:Hn; [|intros H; left; eapply Hthr; exact H].
  destruct (sockets_ (n_sock n) !! fd) as [sock|] eqn:Hs.
  2: { intros H; left; eapply Hret; [|exact H]. unfold invalid_socket_error. by destruct (kernel_allocated _ _). }
  destruct (connected sock); cbn [negb]; [|intros H; left; by eapply Hret; [|exact H]].
  destruct (tcp_connections_ (n_sock n) !! fd) as [conn|] eqn:Hc; [|intros H; left; by eapply Hret; [|exact H]].
  destruct (Z.eqb_spec len 0) as [|Hne]; [intros H; left; by eapply Hret; [|exact H]|].
  destruct (recv_buffer conn) as [|data rest] eqn:Hb; [intros H; left; by eapply Hret; [|exact H]|].
  destruct (bool_decide_reflect (data = [])) as [|Hdn]; [intros H; left; by eapply Hret; [|exact H]|].
  set (k := Z.min len (zlength data)). unfold guest_write.
  assert (0 < k ≤ zlength data) as Hk.
  { subst k. destruct data; [done|]. rewrite zlength_cons. pose proof (zlength_nonneg data). lia. }
  assert (zlength (take (Z.to_nat k) data) = k) as Htk by (unfold zlength in *; rewrite length_take; lia).
  destruct (guest_write_exact (w_mem w) buf _) as [m ok] eqn:Hw. destruct ok; cbn [negb].
  2: { intros [= <- <-]. left. split; [done|]. by intros _ ? [= <-]. }
  destruct (has flags MSG_PEEK) eqn:Hpk; [intros [= <- <-]; left; by split|].
  intros [= <- <-]. right.
  exists n, conn, (take (Z.to_nat k) data), (drop (Z.to_nat k) data), rest. rewrite Htk, take_drop.
  split_and!; try done; [lia| |].
  { apply guest_write_read in Hw. by rewrite Htk in Hw. }
  cbn. f_equal. do 3 f_equal.
  destruct (Z.ltb_spec k (zlength data)) as [Hlt|Hge]; unfold zlength in *.
  - rewrite decide_False; [done|]. intros Hnil. apply (f_equal length) in Hnil. rewrite length_drop in Hnil.
    simpl in Hnil. lia.
  - rewrite decide_True; [done|]. apply nil_length_inv. rewrite length_drop. lia.
Qed.

Definition conn_buffer w (j : nat) (fd : Z) : option (list str) :=
  n ← w_nodes w !! j; recv_buffer <$> tcp_connections_ (n_sock n) !! fd.

Lemma conn_buffer_upd i g w j fd :
  conn_buffer (upd_sock i g w) j fd =
    if decide (j = i) then n ← w_nodes w !! j; recv_buffer <$> tcp_connections_ (g (n_sock n)) !! fd
    else conn_buffer w j fd.
Proof.
  unfold conn_buffer, upd_sock, set_nodes. simpl. destruct (decide (j = i)) as [->|].
  - rewrite list_lookup_alter, decide_True by done. by destruct (w_nodes w !! i).
  - by rewrite list_lookup_alter_ne by done.
Qed.

Lemma conn_buffer_deliver r data w j fd :
  conn_buffer (deliver r data w) j fd =
    if decide (r = ToConnection j fd) then (λ b, b ++ [data]) <$> conn_buffer w j fd
    else conn_buffer w j fd.
Proof.
  destruct r as [i f|i lfd key]; cbn [deliver].
  - rewrite conn_buffer_upd. unfold conn_buffer. destruct (decide (j = i)) as [->|]; cycle 1.
    { rewrite decide_False by congruence. done. }
    destruct (w_nodes w !! i) as [n|]; simpl;
      [|by destruct (decide (ToConnection i f = ToConnection i fd))].
    destruct (decide (fd = f)) as [->|].
    + rewrite decide_True by done. rewrite lookup_alter_eq. by destruct (tcp_connections_ (n_sock n) !! f).
    + rewrite decide_False by congruence. by rewrite lookup_alter_ne.
  - unfold upd_socket. rewrite conn_buffer_upd. unfold conn_buffer.
    destruct (decide (ToPending i lfd key = ToConnection j fd)); [done|].
    destruct (decide (j = i)); [|done]. by destruct (w_nodes w !! j).
Qed.

(** A scheduled transfer: the cursor and the memory of the process it selects,
    and the call. *)
Inductive tcp_call :=
  | TcpSend (fd buf len flags : Z)
  | TcpRecv (fd buf len flags : Z).

Definition tcp_len (c : tcp_call) : Z := match c with TcpSend _ _ l _ | TcpRecv _ _ l _ => l end.

Definition scheduled (i : nat) (m : Mem) w : World FD Mem := mkWorld (w_nodes w) i m (error_bound w).

Definition tcp_exec (c : tcp_call) : M (World FD Mem) Z :=
  match c with
  | TcpSend fd buf len flags => do_send inet_pton fd buf len flags
  | TcpRecv fd buf len flags => do_recv fd buf len flags
  end.

(** The bytes a call puts on, or takes from, the stream into connection [fd]
    of node [j]. *)
Definition tcp_sent (j : nat) (fd : Z) (c : tcp_call) w : list byte :=
  match c, (tcp_exec c w).2 with
  | TcpSend f buf _ _, Ret k =>
      if (0 <? k) && bool_decide ((n ← w_nodes w !! w_cursor w; s ← sockets_ (n_sock n) !! f;
                                   find_route inet_pton w s) = Some (ToConnection j fd))
      then default [] (guest_read_exact (w_mem w) buf k) else []
  | _, _ => []
  end.

Definition tcp_received (j : nat) (fd : Z) (c : tcp_call) w : list byte :=
  match c, tcp_exec c w with
  | TcpRecv f buf _ flags, (w', Ret k) =>
      if (0 <? k) && negb (has flags MSG_PEEK) && bool_decide (w_cursor w = j) && bool_decide (f = fd)
      then default [] (guest_read_exact (w_mem w') buf k) else []
  | _, _ => []
  end.

Fixpoint tcp_run (l : list (nat * Mem * tcp_call)) w : World FD Mem :=
  match l with
  | [] => w
  | (i, m, c) :: l => tcp_run l (tcp_exec c (scheduled i m w)).1
  end.

Fixpoint run_tcp_sent (j : nat) (fd : Z) (l : list (nat * Mem * tcp_call)) w : list byte :=
  match l with
  | [] => []
  | (i, m, c) :: l => tcp_sent j fd c (scheduled i m w) ++ run_tcp_sent j fd l (tcp_exec c (scheduled i m w)).1
  end.

Fixpoint run_tcp_received (j : nat) (fd : Z) (l : list (nat * Mem * tcp_call)) w : list byte :=
  match l with
  | [] => []
  | (i, m, c) :: l =>
      tcp_received j fd c (scheduled i m w) ++ run_tcp_received j fd l (tcp_exec c (scheduled i m w)).1
  end.

Definition tcp_fifo_step (j : nat) (fd : Z) (c : tcp_call) w : Prop :=
  ∀ b', conn_buffer (tcp_exec c w).1 j fd = Some b' →
  ∃ b, conn_buffer w j fd = Some b ∧ concat b ++ tcp_sent j fd c w = tcp_received j fd c w ++ concat b'.

Lemma send_step j fd f buf len flags w : 0 ≤ len → tcp_fifo_step j fd (TcpSend f buf len flags) w.
Proof.
  intros Hlen b'. unfold tcp_sent, tcp_received. cbn [tcp_exec].
  destruct (do_send inet_pton f buf len flags w) as [w' o] eqn:E. cbn [fst snd].
  destruct (do_send_cases _ _ _ _ _ _ _ Hlen E) as
    [[-> Hn]|(n & sock & data & r & Hcur & Hs & Hd & Hpos & Hz & Hr & -> & ->)].
  - intros Hb. exists b'. split; [done|]. destruct o as [k|]; [|by rewrite app_nil_r].
    specialize (Hn k eq_refl). rewrite (proj2 (Z.ltb_ge 0 k)) by done. by rewrite app_nil_r.
  - rewrite conn_buffer_deliver, Hcur. cbn [mbind option_bind]. rewrite Hs. cbn [mbind option_bind]. rewrite Hr.
    rewrite (proj2 (Z.ltb_lt 0 (zlength data))), Hz, Hd by lia. cbn [andb].
    destruct (decide (r = ToConnection j fd)) as [->|Hne].
    + rewrite bool_decide_true by done. destruct (conn_buffer w j fd) as [b|]; [|done].
      intros [= <-]. exists b. split; [done|]. rewrite concat_app. simpl. by rewrite app_nil_r.
    + intros Hb. exists b'. split; [done|]. rewrite bool_decide_false by congruence. by rewrite app_nil_r.
Qed.

Lemma recv_step j fd f buf len flags w : 0 ≤ len → tcp_fifo_step j fd (TcpRecv f buf len flags) w.
Proof.
  intros Hlen b'. unfold tcp_sent, tcp_received. cbn [tcp_exec].
  destruct (do_recv f buf len flags w) as [w' o] eqn:E. cbn [fst snd].
  destruct (do_recv_cases _ _ _ _ _ _ _ Hlen E) as
    [[Hw Hn]|(n & conn & front & back & rest & Hcur & Hc & Hb & Hpos & Hpk & -> & Hg & Hw)].
  - unfold conn_buffer at 1. rewrite Hw. fold (conn_buffer w j fd). intros Hb. exists b'. split; [done|].
    rewrite app_nil_r. destruct o as [k|]; [|done].
    destruct (has flags MSG_PEEK); [by rewrite andb_false_r|].
    specialize (Hn eq_refl k eq_refl). by rewrite (proj2 (Z.ltb_ge 0 k)).
  - unfold conn_buffer at 1. rewrite Hw. fold (conn_buffer (upd_sock (w_cursor w) (λ s, set_tcp (<[f := set_recv
      (if decide (back = []) then rest else back :: rest) conn]> (tcp_connections_ s)) s) w) j fd).
    rewrite conn_buffer_upd, (proj2 (Z.ltb_lt 0 _) Hpos), Hpk, Hg. cbn [andb negb].
    destruct (decide (j = w_cursor w)) as [->|Hj]; cycle 1.
    { intros H. exists b'. split; [done|]. rewrite (bool_decide_false (w_cursor w = j)) by congruence.
      by rewrite app_nil_r. }
    rewrite bool_decide_true by done. unfold conn_buffer. rewrite Hcur. cbn [mbind option_bind set_tcp tcp_connections_].
    destruct (decide (fd = f)) as [->|Hf].
    + rewrite lookup_insert_eq, Hc. cbn. intros [= <-]. exists (recv_buffer conn). split; [done|].
      rewrite bool_decide_true by done. rewrite Hb, app_nil_r. cbn [default set_recv recv_buffer concat].
      rewrite <- (assoc_L (++)). f_equal. by destruct (decide (back = [])) as [->|].
    + rewrite lookup_insert_ne by done. intros H. exists b'. split; [done|].
      rewrite bool_decide_false by congruence. by rewrite app_nil_r.
Qed.


(** ** epoll *)

(** The event a watch reports, if any. *)
Definition watch_event (s : SockState) (fs : FileSystemState) (e : Z * EpollWatch) : option (Z * Z) :=
  let ready := Z.land (ready_events s fs e.1) (reported e.2) in
  if ready =? 0 then None else Some (ready, watch_data e.2).

Lemma wait_loop_spec s fs maxevents l out :
  zlength out ≤ maxevents →
  wait_loop s fs maxevents l out =
    out ++ take (Z.to_nat (maxevents - zlength out)) (omap (watch_event s fs) l).
Proof.
  revert out. induction l as [|[fd watch] l IH]; intros out Hout; cbn [wait_loop].
  { simpl. by rewrite take_nil, app_nil_r. }
  destruct (Z.leb_spec maxevents (zlength out)) as [Hfull|Hroom].
  { replace (Z.to_nat (maxevents - zlength out)) with O by lia. by rewrite app_nil_r. }
  cbn [omap list_omap]. unfold watch_event at 1. cbn [fst snd]. cbv zeta.
  destruct (Z.land (ready_events s fs fd) (reported watch) =? 0) eqn:Hr; cbn [negb].
  - by apply IH.
  - rewrite IH by (rewrite zlength_app; change (zlength [_]) with 1; lia).
    rewrite zlength_app. change (zlength [_]) with 1. rewrite <- (assoc_L (++)). f_equal.
    replace (Z.to_nat (maxevents - zlength out)) with (S (Z.to_nat (maxevents - (zlength out + 1)))) by lia.
    done.
Qed.

Lemma epoll_ready_events s fs epfd instance :
  epoll_instances_ s !! epfd = Some instance →
  epoll_ready s fs epfd = true ↔ omap (watch_event s fs) (entries (watched_fds instance)) ≠ [].
Proof.
  intros Hi. unfold epoll_ready. rewrite Hi. induction (entries (watched_fds instance)) as [|e l IH]; [done|].
  cbn [existsb omap list_omap]. rewrite orb_true_iff, IH. unfold watch_event at 2. cbv zeta.
  unfold has. destruct (Z.eqb_spec (Z.land (ready_events s fs e.1) (reported e.2)) 0); cbn [negb]; naive_solver.
Qed.

Lemma length_encode_events l : zlength (concat ((λ e, encode_event e.1 e.2) <$> l)) = sizeof_epoll_event * zlength l.
Proof.
  induction l as [|e l IH]; [done|]. cbn [fmap list_fmap concat]. rewrite zlength_app, zlength_cons, IH.
  unfold encode_event, sizeof_epoll_event. rewrite zlength_app, !zlength_le_bytes. lia.
Qed.

(** C24. [epoll_wait] reports exactly the watched descriptors that are ready, in
    descriptor order, at most as many as asked for, each with its ready events
    among those watched for (errors and hang-ups always) and its data, and
    changes nothing but the caller's buffer; and the test the scheduler uses
    to decide whether a blocked wait can be retried is true exactly when such
    a wait would report an event. *)
Theorem epoll_wait_exact epfd events maxevents timeout w n instance :
  w_nodes w !! w_cursor w = Some n → epoll_instances_ (n_sock n) !! epfd = Some instance →
  0 < maxevents ≤ INT_MAX / sizeof_epoll_event →
  let ready := omap (watch_event (n_sock n) (fss (n_ctx n))) (entries (watched_fds instance)) in
  let out := take (Z.to_nat maxevents) ready in
  let '(w', o) := do_epoll_wait epfd events maxevents timeout w in
  w_nodes w' = w_nodes w ∧
  (o = Ret (- EFAULT) ∨
   (o = Ret (zlength out) ∧
    guest_read_exact (w_mem w') events (sizeof_epoll_event * zlength out) =
      Some (concat ((λ e, encode_event e.1 e.2) <$> out)))) ∧
  (epoll_ready (n_sock n) (fss (n_ctx n)) epfd = true ↔ out ≠ []).
Proof.
  intros Hn Hi Hmax. cbv zeta. unfold do_epoll_wait, here, guest_write. unmonad; unfold guest_read in *. rewrite Hn, Hi.
  rewrite (proj2 (Z.leb_gt _ 0)), (proj2 (Z.ltb_ge _ _)) by lia. cbn [orb].
  rewrite wait_loop_spec by (change (zlength []) with 0; lia). change (zlength []) with 0.
  rewrite Z.sub_0_r, app_nil_l. set (ready := omap _ _). set (out := take (Z.to_nat maxevents) ready).
  destruct (guest_write_exact (w_mem w) events _) as [m ok] eqn:Hw. split; [done|]. split.
  - destruct ok; [right|by left]. split; [done|]. apply guest_write_read in Hw.
    by rewrite length_encode_events in Hw.
  - rewrite (epoll_ready_events _ _ _ _ Hi). fold ready. subst out.
    replace (Z.to_nat maxevents) with (S (Z.to_nat (maxevents - 1))) by lia. by destruct ready.
Qed.

(** ** UDP *)

Definition udp_queue w (j : nat) (fd : Z) : list UdpDatagram :=
  default [] (n ← w_nodes w !! j; udp_recv_buffers_ (n_sock n) !! fd).

Lemma udp_queue_upd i g w j fd :
  udp_queue (upd_sock i g w) j fd =
    if decide (j = i) then default [] (n ← w_nodes w !! j; udp_recv_buffers_ (g (n_sock n)) !! fd)
    else udp_queue w j fd.
Proof.
  unfold udp_queue, upd_sock, set_nodes. simpl. destruct (decide (j = i)) as [->|].
  - rewrite list_lookup_alter, decide_True by done. by destruct (w_nodes w !! i).
  - by rewrite list_lookup_alter_ne by done.
Qed.

End props.

(** ** Examples

    Node 0 listens on port 80, node 1 connects to it; node 0 also has a bound
    datagram socket with two datagrams waiting, and an epoll instance. *)

Definition sample_pton (s : str) : option Z :=
  if decide (s = lit "n0") then Some 16777226 else if decide (s = lit "n1") then Some 33554442 else None.

Definition fill (a : Z) (bs : list byte) (m : FlatMem) : FlatMem := (flat_write m a bs).1.

Definition sample_memory : FlatMem :=
  fill 4096 (encode_addr (mkAddr AF_INET (htons 80) 16777226))
    (fill 4128 (le_bytes 4 EPOLLIN ++ le_bytes 8 77) (fill 4160 (lit "hello") (zero_region 4096 128))).

Definition sample_nodes : World FdManager FlatMem :=
  mkWorld [mkNode sample_ctx SockState_init (lit "n0"); mkNode sample_ctx SockState_init (lit "n1")]
    0 sample_memory 5.

(** Run a call on a node, with the memory of that node's process. *)
Definition on_node {A} (i : nat) (c : M (World FdManager FlatMem) A) (w : World FdManager FlatMem) :=
  (c (scheduled i sample_memory w)).1.

Definition sample_server : World FdManager FlatMem :=
  on_node 0 (do_epoll_ctl 4 EPOLL_CTL_ADD 3 4128)
    (on_node 0 (do_epoll_create1 0) (on_node 0 (do_listen 3 4)
      (on_node 0 (do_bind 3 4096 16) (on_node 0 (do_socket AF_INET SOCK_STREAM 0) sample_nodes)))).

Definition sample_client : World FdManager FlatMem :=
  scheduled 1 sample_memory (on_node 1 (do_socket AF_INET SOCK_STREAM 0) sample_server).

Definition sample_connected : World FdManager FlatMem :=
  scheduled 0 sample_memory (do_connect sample_pton 3 4096 16 sample_client).1.

Definition sample_accepted : World FdManager FlatMem := on_node 0 (do_accept 3 0 0) sample_connected.

Definition sample_calls : list (nat * FlatMem * tcp_call) :=
  [(1%nat, sample_memory, TcpSend 3 4160 5 0); (0%nat, sample_memory, TcpRecv 5 4096 3 0)].

Definition sample_udp : World FdManager FlatMem :=
  on_node 0 (do_sendto sample_pton 3 4160 2 0 4096 16) (on_node 0 (do_sendto sample_pton 3 4160 5 0 4096 16)
    (on_node 0 (do_bind 3 4096 16) (on_node 0 (do_socket AF_INET SOCK_DGRAM 0) sample_nodes))).

Lemma sample_epoll :
  ∃ n, w_nodes sample_connected !! 0%nat = Some n ∧
    epoll_instances_ (n_sock n) !! 4 = Some (mkEpoll 4 {[3 := mkWatch EPOLLIN 77]}).
Proof.
  assert (match w_nodes sample_connected !! 0%nat with
    | Some n => bool_decide (epoll_instances_ (n_sock n) !! 4 = Some (mkEpoll 4 {[3 := mkWatch EPOLLIN 77]}))
    | None => false end = true) as H by (vm_compute; reflexivity).
  destruct (w_nodes sample_connected !! 0%nat) as [n|]; [|done]. exists n.
  by apply bool_decide_eq_true in H.
Qed.

Lemma sample_datagram :
  ∃ n sock, w_nodes sample_udp !! 0%nat = Some n ∧ sockets_ (n_sock n) !! 3 = Some sock ∧
    sk_type sock = SOCK_DGRAM.
Proof.
  assert (match w_nodes sample_udp !! 0%nat with
    | Some n => match sockets_ (n_sock n) !! 3 with Some s => sk_type s =? SOCK_DGRAM | None => false end
    | None => false end = true) as H by (vm_compute; reflexivity).
  destruct (w_nodes sample_udp !! 0%nat) as [n|]; [|done].
  destruct (sockets_ (n_sock n) !! 3) as [s|] eqn:Hs; [|done]. apply Z.eqb_eq in H. by exists n, s.
Qed.

Lemma sample_queue : ∃ d0 d1, udp_queue sample_udp 0 3 = [d0; d1].
Proof.
  assert (length (udp_queue sample_udp 0 3) = 2%nat) as H by (vm_compute; reflexivity).
  destruct (udp_queue sample_udp 0 3) as [|d0 [|d1 [|]]]; try done. by exists d0, d1.
Qed.



Lemma epoll_wait_exact_witness :
  (do_epoll_wait 4 4128 4 (-1) sample_connected).2 = Ret 1 ∧
  w_nodes (do_epoll_wait 4 4128 4 (-1) sample_connected).1 = w_nodes sample_connected.
Proof.
  split; [vm_compute; reflexivity|].
  destruct sample_epoll as (n & Hn & Hi).
  assert (0 < 4 ≤ INT_MAX / sizeof_epoll_event) as Hmax by (vm_compute; split; [done|discriminate]).
  pose proof (epoll_wait_exact 4 4128 4 (-1) sample_connected n _ Hn Hi Hmax) as H.
  cbv zeta in H. destruct (do_epoll_wait 4 4128 4 (-1) sample_connected) as [w' o].
  exact (proj1 H).
Defined.

