(* ===== verification/Pending.v ===== *)
(** * Unfinished system calls: data and deadlines

    [src/src/core/engine/pending_syscall.h] and the deadline arithmetic of
    [pending_syscall.cpp]: what a thread that is blocked in a system call
    remembers, when its deadline falls, and at which value of the model
    clock the call times out.  [int64_t] seconds and [__int128] products are
    [Z]; where the code saturates or narrows, the model does too. *)

From S2P Require Import Prelude Linux Futex.

(** ** Data *)

Inductive PendingPhase := Waiting | Retry | Ready.
Inductive PendingReason := PrFutex | PrIo | PrTimer.

#[export] Instance PendingPhase_eq_dec : EqDecision PendingPhase.
Proof. solve_decision. Defined.
#[export] Instance PendingReason_eq_dec : EqDecision PendingReason.
Proof. solve_decision. Defined.

Record PendingDeadline := mkDeadline {
  clock_id : Z;
  sec : Z;
  nsec : Z;
  timeout_result : Z;
}.

#[export] Instance PendingDeadline_eq_dec : EqDecision PendingDeadline.
Proof. solve_decision. Defined.

(** The six arguments of a call are 64-bit words. *)
Record PendingSyscall := mkPending {
  phase : PendingPhase;
  reason : PendingReason;
  nr : Z;
  args : list Z;
  result : Z;
  deadline : option PendingDeadline;
}.

#[export] Instance PendingSyscall_eq_dec : EqDecision PendingSyscall.
Proof. solve_decision. Defined.

Definition arg (l : list Z) (i : nat) : Z := default 0 (l !! i).

Definition set_phase (p : PendingPhase) (r : Z) (s : PendingSyscall) : PendingSyscall :=
  mkPending p (reason s) (nr s) (args s) r (deadline s).
Definition set_deadline (d : option PendingDeadline) (s : PendingSyscall) : PendingSyscall :=
  mkPending (phase s) (reason s) (nr s) (args s) (result s) d.

Record timeval := mkTimeval { tval_sec : Z; tval_usec : Z }.

#[export] Instance timeval_eq_dec : EqDecision timeval.
Proof. solve_decision. Defined.

(** The parts of [struct thread_state] and [struct syscall_info] the handling
    of unfinished calls reads. *)
Record thread_state := mkThread {
  t_tid : Z;
  physical_tid : Z;
  alive : bool;
  pending_syscall : option PendingSyscall;
}.

#[export] Instance thread_state_eq_dec : EqDecision thread_state.
Proof. solve_decision. Defined.

Definition set_pending (p : option PendingSyscall) (t : thread_state) : thread_state :=
  mkThread (t_tid t) (physical_tid t) (alive t) p.

Record syscall_info := mkInfo { i_nr : Z; i_args : list Z; i_rval : Z }.

#[export] Instance syscall_info_eq_dec : EqDecision syscall_info.
Proof. solve_decision. Defined.

(** ** Which calls may be retained *)

Definition epoll_call (nr : Z) : bool :=
  (nr =? SYS_epoll_wait) || (nr =? SYS_epoll_pwait) || (nr =? SYS_epoll_pwait2).

Definition data_call (nr : Z) : bool :=
  (nr =? SYS_read) || (nr =? SYS_write) || (nr =? SYS_recvfrom) ||
  (nr =? SYS_accept) || (nr =? SYS_accept4).

Definition supports_pending_io (nr : Z) : bool := epoll_call nr || data_call nr.

(** ** Validation *)

Definition billion : Z := 1000000000.

Definition deadline_ok (d : PendingDeadline) : bool :=
  negb ((negb (clock_id d =? CLOCK_REALTIME) && negb (clock_id d =? CLOCK_MONOTONIC)) ||
        (sec d <? 0) || (nsec d <? 0) || (billion <=? nsec d)).

Definition validate_deadline (d : PendingDeadline) : outcome unit :=
  if deadline_ok d then Ret tt else Throw (runtime_error "Invalid pending syscall deadline").

(** The deadline in nanoseconds, as the [__int128] product. *)
Definition ktime (d : PendingDeadline) : Z := sec d * billion + nsec d.

(** A futex wait: [FUTEX_WAIT] is relative to the monotonic clock, only a
    bitset wait may name the realtime clock. *)
Definition futex_deadline_allowed (p : PendingSyscall) (d : PendingDeadline) : bool :=
  let operation := int32 (arg (args p) 1) in
  let command := Z.land operation FUTEX_CMD_MASK in
  let realtime := has operation FUTEX_CLOCK_REALTIME in
  ((command =? FUTEX_WAIT) || (command =? FUTEX_WAIT_BITSET)) &&
  (negb realtime || (command =? FUTEX_WAIT_BITSET)) &&
  (negb (command =? FUTEX_WAIT_BITSET) || negb (uint32 (arg (args p) 5) =? 0)) &&
  negb (arg (args p) 3 =? 0) &&
  (timeout_result d =? - ETIMEDOUT) &&
  (clock_id d =? (if realtime then CLOCK_REALTIME else CLOCK_MONOTONIC)).

Definition timer_deadline_allowed (p : PendingSyscall) (d : PendingDeadline) : bool :=
  (timeout_result d =? 0) &&
  (if nr p =? SYS_nanosleep then
     negb (arg (args p) 0 =? 0) && (clock_id d =? CLOCK_MONOTONIC)
   else if nr p =? SYS_clock_nanosleep then
     negb (arg (args p) 2 =? 0) && negb (has (int32 (arg (args p) 1)) (Z.lnot TIMER_ABSTIME)) &&
     (clock_id d =? int32 (arg (args p) 0))
   else (nr p =? SYS_pselect6) && negb (arg (args p) 4 =? 0) && (clock_id d =? CLOCK_MONOTONIC)).

Definition io_deadline_allowed (p : PendingSyscall) (d : PendingDeadline) : bool :=
  (timeout_result d =? 0) && (clock_id d =? CLOCK_MONOTONIC) &&
  (((nr p =? SYS_epoll_pwait2) && negb (arg (args p) 3 =? 0)) ||
   (((nr p =? SYS_epoll_wait) || (nr p =? SYS_epoll_pwait)) && (0 <? int32 (arg (args p) 3))) ||
   ((nr p =? SYS_poll) && (0 <? int32 (arg (args p) 2))) ||
   data_call (nr p)).

Definition deadline_allowed (p : PendingSyscall) (d : PendingDeadline) : bool :=
  match reason p with
  | PrFutex => futex_deadline_allowed p d
  | PrTimer => timer_deadline_allowed p d
  | PrIo => io_deadline_allowed p d
  end.

(** [validate_timed_pending], for a call that has a deadline. *)
Definition validate_timed_pending (p : PendingSyscall) (d : PendingDeadline) : outcome unit :=
  if negb (deadline_allowed p d) then Throw (runtime_error "Unsupported pending deadline combination")
  else
    match validate_deadline d with
    | Throw e => Throw e
    | Ret _ =>
        if INT64_MAX <? ktime d
        then Throw (runtime_error "Pending deadline exceeds Linux ktime range")
        else Ret tt
    end.

(** [validate_model_time], of the clock of a node. *)
Definition clock_ok (now : timeval) : bool :=
  negb ((tval_sec now <? 0) || (tval_usec now <? 0) || (1000000 <=? tval_usec now)).

Definition validate_model_time (now : timeval) : outcome unit :=
  if clock_ok now then Ret tt
  else Throw (runtime_error "Invalid modeled clock for pending deadline").

(** ** Deadlines *)

(** [ktime_set]: seconds from [KTIME_SEC_MAX] on saturate. *)
Definition to_ktime (seconds nanos : Z) : Z :=
  if INT64_MAX / billion <=? seconds then INT64_MAX else seconds * billion + nanos.

Definition make_pending_deadline (now : timeval) (clock s ns : Z) (relative : bool) (timeout_result : Z)
    : outcome PendingDeadline :=
  match validate_deadline (mkDeadline clock s ns timeout_result) with
  | Throw e => Throw e
  | Ret _ =>
      match validate_model_time now with
      | Throw e => Throw e
      | Ret _ =>
          let absolute := to_ktime s ns +
            (if relative then to_ktime (tval_sec now) (tval_usec now * 1000) else 0) in
          let bounded := if INT64_MAX <? absolute then INT64_MAX else absolute in
          Ret (mkDeadline clock (bounded / billion) (bounded mod billion) timeout_result)
      end
  end.

Definition pending_timeout_clock (source : timeval) (d : PendingDeadline) : outcome timeval :=
  match validate_deadline d with
  | Throw e => Throw e
  | Ret _ =>
      if negb (clock_ok source) || (INT64_MAX <? ktime d)
      then Throw (runtime_error "Invalid pending timeout clock")
      else
        let usec := (nsec d + 999) / 1000 in
        let target := if usec =? 1000000 then mkTimeval (sec d + 1) 0 else mkTimeval (sec d) usec in
        Ret (if (tval_sec target <? tval_sec source) ||
                ((tval_sec source =? tval_sec target) && (tval_usec target <? tval_usec source))
             then source else target)
  end.

(** The comparison of [pending_timeout_due]. *)
Definition clock_reached (now : timeval) (d : PendingDeadline) : bool :=
  (sec d <? tval_sec now) || ((tval_sec now =? sec d) && (nsec d <=? tval_usec now * 1000)).

(** ** Properties *)

(** A clock value in nanoseconds. *)
Definition nanos (t : timeval) : Z := tval_sec t * billion + tval_usec t * 1000.

Lemma clock_ok_spec t : clock_ok t = true ↔ 0 ≤ tval_sec t ∧ 0 ≤ tval_usec t < 1000000.
Proof. unfold clock_ok. rewrite negb_true_iff, !orb_false_iff. lia. Qed.

Lemma deadline_ok_spec d :
  deadline_ok d = true ↔
    (clock_id d = CLOCK_REALTIME ∨ clock_id d = CLOCK_MONOTONIC) ∧ 0 ≤ sec d ∧ 0 ≤ nsec d < billion.
Proof.
  unfold deadline_ok. rewrite negb_true_iff, !orb_false_iff, andb_false_iff, !negb_false_iff, !Z.eqb_eq. lia.
Qed.

Lemma clock_reached_nanos now d :
  clock_ok now = true → deadline_ok d = true → clock_reached now d = true ↔ ktime d ≤ nanos now.
Proof.
  intros Hn%clock_ok_spec (_ & Hd)%deadline_ok_spec.
  unfold clock_reached, ktime, nanos, billion in *. rewrite orb_true_iff, andb_true_iff. lia.
Qed.

Lemma to_ktime_range s ns :
  0 ≤ s → 0 ≤ ns < billion → 0 ≤ to_ktime s ns ≤ INT64_MAX.
Proof.
  unfold to_ktime. intros Hs Hns. change (INT64_MAX / billion) with 9223372036.
  unfold INT64_MAX, billion in *. destruct (Z.leb_spec 9223372036 s); lia.
Qed.

(** C29. A timeout is frozen into a deadline without overflow: for every valid
    timespec and clock, [make_pending_deadline] returns a deadline whose
    seconds and nanoseconds are in range and whose value in nanoseconds fits
    a signed 64-bit integer; it is the sum of the timeout and, for a relative
    one, of the node's clock, as long as both are below the kernel's limit in
    seconds and their sum fits, and exactly the kernel's [KTIME_MAX]
    otherwise.  An invalid timespec, clock id or model clock is refused. *)
Theorem deadline_saturates now clock s ns (relative : bool) tr :
  let base := if relative then nanos now else 0 in
  if deadline_ok (mkDeadline clock s ns tr) && clock_ok now then
    ∃ d, make_pending_deadline now clock s ns relative tr = Ret d ∧
      clock_id d = clock ∧ timeout_result d = tr ∧ deadline_ok d = true ∧ 0 ≤ ktime d ≤ INT64_MAX ∧
      ktime d =
        if bool_decide (s < INT64_MAX / billion ∧ (relative = true → tval_sec now < INT64_MAX / billion) ∧
                        s * billion + ns + base ≤ INT64_MAX)
        then s * billion + ns + base else INT64_MAX
  else ∃ e, make_pending_deadline now clock s ns relative tr = Throw e.
Proof.
  cbv zeta. unfold make_pending_deadline, validate_deadline, validate_model_time.
  destruct (deadline_ok (mkDeadline clock s ns tr)) eqn:Hd; cbn [andb]; [|by eexists].
  destruct (clock_ok now) eqn:Hc; [|by eexists].
  apply deadline_ok_spec in Hd as (Hclk & Hs & Hns). cbn [clock_id sec nsec] in *.
  apply clock_ok_spec in Hc. eexists. split; [reflexivity|].
  pose proof (to_ktime_range s ns Hs Hns) as Hk.
  pose proof (to_ktime_range (tval_sec now) (tval_usec now * 1000) ltac:(lia)
    ltac:(unfold billion; lia)) as Hkn.
  set (abs := to_ktime s ns + (if relative then _ else 0)).
  set (b := if INT64_MAX <? abs then INT64_MAX else abs).
  assert (0 ≤ abs) by (subst abs; destruct relative; lia).
  assert (0 ≤ b ≤ INT64_MAX) as Hb.
  { subst b. destruct (Z.ltb_spec INT64_MAX abs); unfold INT64_MAX in *; lia. }
  assert (b / billion * billion + b mod billion = b) as Hdiv.
  { pose proof (Z.div_mod b billion ltac:(done)). lia. }
  pose proof (Z.mod_pos_bound b billion ltac:(done)). pose proof (Z.div_pos b billion ltac:(lia) ltac:(done)).
  unfold ktime. cbn [clock_id sec nsec timeout_result]. rewrite Hdiv. split_and!; try done; try lia.
  { apply deadline_ok_spec. cbn. split; [done|]. lia. }
  subst b abs. unfold to_ktime, nanos in *. change (INT64_MAX / billion) with 9223372036 in *.
  rewrite bool_decide_decide. unfold INT64_MAX, billion in *.
  destruct (decide _) as [(Hlt & Hrel & Hsum)|Hn], relative;
    repeat match goal with
    | H : true = true → _ |- _ => specialize (H eq_refl)
    | |- context [ ?a <=? ?b ] => destruct (Z.leb_spec a b)
    | |- context [ ?a <? ?b ] => destruct (Z.ltb_spec a b)
    end; try lia; exfalso; apply Hn; split_and!; lia || done.
Qed.

(** C30. The clock a timeout jumps to is the earliest one: for a valid source
    clock and a deadline in range, [pending_timeout_clock] returns a
    normalised clock that is not before the source, and the deadline test
    used to expire calls is true at a later clock exactly when that clock is
    not before the returned one; so it is due at the returned clock, was not
    due a microsecond before unless the source was already due, and virtual
    time never runs backwards. *)
Theorem timeout_clock_earliest source d :
  clock_ok source = true → deadline_ok d = true → ktime d ≤ INT64_MAX →
  ∃ t, pending_timeout_clock source d = Ret t ∧ clock_ok t = true ∧ nanos source ≤ nanos t ∧
    tval_sec t ≤ Z.max (tval_sec source) (INT64_MAX / billion + 1) ∧
    ∀ now, clock_ok now = true → nanos source ≤ nanos now →
      clock_reached now d = true ↔ nanos t ≤ nanos now.
Proof.
  intros Hs Hd Hk. unfold pending_timeout_clock, validate_deadline. rewrite Hd, Hs.
  rewrite (proj2 (Z.ltb_ge _ _) Hk). cbn [negb orb].
  set (target := if (nsec d + 999) / 1000 =? 1000000 then _ else _).
  pose proof Hd as (_ & H1 & H2)%deadline_ok_spec. pose proof Hs as Hs'%clock_ok_spec.
  assert (0 ≤ (nsec d + 999) / 1000 ≤ 1000000 ∧
          (nsec d + 999) / 1000 * 1000 - 999 ≤ nsec d ≤ (nsec d + 999) / 1000 * 1000) as Hu.
  { pose proof (Z.div_mod (nsec d + 999) 1000 ltac:(done)).
    pose proof (Z.mod_pos_bound (nsec d + 999) 1000 ltac:(done)). unfold billion in *. lia. }
  assert (clock_ok target = true ∧ nanos target = sec d * billion + (nsec d + 999) / 1000 * 1000 ∧
          tval_sec target ≤ sec d + 1) as (Ht & Hnt & Hts).
  { subst target. rewrite clock_ok_spec. unfold nanos, billion.
    destruct (Z.eqb_spec ((nsec d + 999) / 1000) 1000000); cbn [tval_sec tval_usec]; lia. }
  assert (sec d ≤ INT64_MAX / billion) as Hmax.
  { change (INT64_MAX / billion) with 9223372036. unfold ktime, INT64_MAX, billion in *. lia. }
  pose proof Ht as Ht'%clock_ok_spec. clearbody target.
  eexists. split; [reflexivity|].
  assert (((tval_sec target <? tval_sec source) ||
    ((tval_sec source =? tval_sec target) && (tval_usec target <? tval_usec source))) =
    (nanos target <? nanos source)) as ->.
  { unfold nanos, billion. apply eq_bool_prop_intro. rewrite !Is_true_true, orb_true_iff, andb_true_iff. lia. }
  destruct (Z.ltb_spec (nanos target) (nanos source)).
  - split_and!; [done|lia|lia|]. intros now Hn Hle. rewrite clock_reached_nanos by done.
    unfold ktime in *. lia.
  - split_and!; [done|lia|lia|]. intros now Hn Hle. rewrite clock_reached_nanos by done.
    rewrite Hnt in *. apply clock_ok_spec in Hn. unfold ktime, nanos, billion in *. lia.
Qed.

Lemma timeout_clock_earliest_witness :
  let d := mkDeadline CLOCK_MONOTONIC 1 999999001 0 in
  ∃ t, pending_timeout_clock (mkTimeval 1 5) d = Ret t ∧ clock_reached t d = true.
Proof.
  destruct (timeout_clock_earliest (mkTimeval 1 5) (mkDeadline CLOCK_MONOTONIC 1 999999001 0)
    eq_refl eq_refl ltac:(discriminate)) as (t & Ht & Hok & Hle & _ & Hr).
  exists t. split; [exact Ht|]. apply Hr; [exact Hok|exact Hle|lia].
Defined.
