(* ===== verification/Io.v ===== *)
(** * The descriptor boundary

    [src/src/subsys/io.cpp]: the calls that work on any kind of descriptor,
    dispatched on the kind the descriptor table records, and the readiness
    tests of [select] and [poll].  The state is the one of the network model:
    all nodes, with the memory of the process the cursor selects.  The
    threads of the node are read only, to refuse changes to descriptors an
    unfinished call depends on. *)

From S2P Require Import Prelude Linux Bytes FdInterface FdManager Guest Vfs VfsOps VfsMeta Pipe Net Transfer Futex Pending.

Definition low_user_limit : Z := 2 ^ 47 - 4096.
Definition max_rw_count : Z := 2147479552.
Definition FD_SETSIZE : Z := 1024.
Definition select_set_bytes : Z := 128.
Definition sizeof_pollfd : Z := 8.

(** [writev_range_ok] *)
Definition writev_range_ok (address length : Z) : outcome bool :=
  if (INT64_MAX <? address) || (INT64_MAX - address <? length) then Ret false
  else if (low_user_limit <=? address) || (low_user_limit - address <? length)
  then Throw (runtime_error "Unsupported writev high user address range")
  else Ret true.

(** [struct iovec] *)
Record iovec := mkIov { iov_base : Z; iov_len : Z }.

(** The ranges of all entries, in order. *)
Fixpoint ranges_ok (l : list iovec) : outcome bool :=
  match l with
  | [] => Ret true
  | e :: l =>
      match writev_range_ok (iov_base e) (iov_len e) with
      | Ret true => ranges_ok l
      | o => o
      end
  end.

(** [entry.iov_len = min(entry.iov_len, max_rw_count - total)] for each entry. *)
Fixpoint clip (total : Z) (l : list iovec) : list iovec * Z :=
  match l with
  | [] => ([], total)
  | e :: l =>
      let n := Z.min (iov_len e) (max_rw_count - total) in
      let '(l', total) := clip (total + n) l in
      (mkIov (iov_base e) n :: l', total)
  end.

(** ** fd_set *)

Definition set_bit (set : list byte) (fd : Z) : bool :=
  match set !! Z.to_nat (fd / 8) with
  | Some b => Z.testbit (Z_of_byte b) (fd mod 8)
  | None => false
  end.

Definition put_bit (set : list byte) (fd : Z) : list byte :=
  alter (λ b, byte_of_Z (Z.lor (Z_of_byte b) (Z.shiftl 1 (fd mod 8)))) (Z.to_nat (fd / 8)) set.

Definition clear_set : list byte := zeros select_set_bytes.

Section io.
Context {FD : Type} `{!DescriptorNamespace FD} {Mem : Type} `{!ProcessVm Mem}.
Context (inet_pton : str → option Z) (xxhash64 : str → Z) (now : timespec).
Abbreviation W := (World FD Mem).
Abbreviation NM := (M (World FD Mem)).

Definition descriptors : NM FD :=
  n ← here;
  match fdm (n_ctx n) with
  | Some t => mret t
  | None => throw (runtime_error "Virtual descriptor manager missing")
  end.

Definition files : NM FileSystemState := n ← here; mret (fss (n_ctx n)).
Definition network : NM SockState := n ← here; mret (n_sock n).

(** [files().open_files.at(fd)] once [require_file] has passed *)
Definition require_file (fd : Z) : NM OpenFileDescription :=
  fs ← files;
  match open_files fs !! fd with
  | Some d => mret d
  | None => throw (runtime_error "Descriptor registry has no corresponding file payload")
  end.

Definition unsupported_kind {A} : NM A := throw (runtime_error "Unsupported virtual descriptor kind").

(** [network().get_socket(fd)], which must be there *)
Definition payload (fd : Z) : NM Socket :=
  s ← network;
  match sockets_ s !! fd with
  | Some k => mret k
  | None => throw (runtime_error "Socket descriptor has no payload")
  end.

(** Continue with the descriptor's kind, or return [EBADF]. *)
Definition with_kind (fd : Z) (g : FD → FdType → NM Z) : NM Z :=
  t ← descriptors;
  if negb (is_allocated t fd) then mret (- EBADF) else g t (get_fd_type t fd).

(** ** read and write *)

Definition read_file (fd destination count : Z) : NM Z :=
  d ← require_file fd;
  fs ← files;
  node ← lift (fs_at (path d) fs);
  throw_if (offset d <? 0) (runtime_error "Negative virtual file offset");;
  let available := if zlength (content node) <=? offset d then 0 else zlength (content node) - offset d in
  r ← on_ctx (do_read fd (Z.min count available));
  if 0 <? r.1 then
    ok ← guest_write destination r.2;
    if ok : bool then mret r.1
    else
      on_ctx (with_fs (λ s, set_open_files (alter (λ e, mkOFD (path e) (offset d)) fd (open_files s)) s));;
      mret (- EFAULT)
  else mret r.1.

Definition emu_read (fd destination count : Z) : NM Z :=
  with_kind fd (λ _ k,
    match k with
    | SOCKET =>
        s ← payload fd;
        if sk_type s =? SOCK_DGRAM then do_recvfrom fd destination count 0 0 0
        else do_recv fd destination count 0
    | PIPE => on_ctx_mem (do_pipe_read fd destination count)
    | EPOLL => mret (- EINVAL)
    | FILE | STDIO => read_file fd destination count
    | UNKNOWN => unsupported_kind
    end).

Definition write_file (t : FD) (fd source count : Z) : NM Z :=
  d ← require_file fd;
  if Z.land (get_status_flags t fd) O_ACCMODE =? O_RDONLY then mret (- EBADF)
  else
    (if negb (count =? 0) then on_ctx (require_unmapped_file (path d)) else mret tt);;
    bs ← guest_read source count;
    match bs with
    | None => mret (- EFAULT)
    | Some bs => on_ctx (do_write now fd bs)
    end.

Definition emu_write (fd source count : Z) : NM Z :=
  with_kind fd (λ t k,
    match k with
    | SOCKET =>
        s ← payload fd;
        if sk_type s =? SOCK_DGRAM then do_sendto inet_pton fd source count 0 0 0
        else do_send inet_pton fd source count 0
    | PIPE => on_ctx_mem (do_pipe_write fd source count)
    | EPOLL => mret (- EINVAL)
    | FILE | STDIO => write_file t fd source count
    | UNKNOWN => unsupported_kind
    end).

(** ** writev *)

(** Importing the metadata: length, then base, of each item. *)
Fixpoint import_iovec (n : nat) (item : Z) (entries : list iovec) : NM (Z + list iovec) :=
  match n with
  | O => mret (inr entries)
  | S n =>
      len ← guest_read (item + 8) 8;
      match len with
      | None => mret (inl (- EFAULT))
      | Some len =>
          base ← guest_read item 8;
          match base with
          | None => mret (inl (- EFAULT))
          | Some base =>
              if SSIZE_MAX <? le_Z len then mret (inl (- EINVAL))
              else import_iovec n (item + 16) (entries ++ [mkIov (le_Z base) (le_Z len)])
          end
      end
  end.

(** Reading the payload, before anything changes. *)
Fixpoint gather (l : list iovec) (bytes : str) : NM str :=
  match l with
  | [] => mret bytes
  | e :: l =>
      bs ← guest_read (iov_base e) (iov_len e);
      match bs with
      | None => throw (runtime_error "Unsupported writev payload fault before resource commit")
      | Some bs => gather l (bytes ++ bs)
      end
  end.

Definition clip_single (l : list iovec) : list iovec :=
  match l with
  | [e] => [mkIov (iov_base e) (Z.min (iov_len e) max_rw_count)]
  | _ => l
  end.

(** What must hold of the descriptor before the payload is read. *)
Definition writev_admit (fd : Z) (k : FdType) (total : Z) : NM unit :=
  match k with
  | SOCKET =>
      s ← payload fd;
      throw_if (negb (sk_domain s =? AF_INET) || negb (sk_type s =? SOCK_STREAM) || negb (connected s))
        (runtime_error "Unsupported writev socket; requires connected modeled TCP")
  | FILE | STDIO =>
      if negb (total =? 0) then d ← require_file fd; on_ctx (require_unmapped_file (path d)) else mret tt
  | _ => throw (runtime_error "Unsupported writev descriptor kind")
  end.

Definition writev_commit (fd : Z) (k : FdType) (bytes : str) : NM Z :=
  match k with
  | SOCKET =>
      r ← do_send_buffer inet_pton fd bytes;
      throw_if (r <? 0) (runtime_error "Unsupported writev non-routable TCP endpoint");;
      mret r
  | _ => on_ctx (do_write now fd bytes)
  end.

Definition emu_writev (fd guest raw_count : Z) : NM Z :=
  with_kind fd (λ t k,
    let is_file := bool_decide (k = FILE) || bool_decide (k = STDIO) in
    if bool_decide (k = EPOLL) then mret (- EINVAL)
    else
      (if is_file then require_file fd;; mret tt else mret tt);;
      if (is_file || bool_decide (k = PIPE)) && (Z.land (get_status_flags t fd) O_ACCMODE =? O_RDONLY)
      then mret (- EBADF)
      else
        let count := uint32 raw_count in
        if 1024 <? count then mret (- EINVAL)
        else
          span ← (if negb (count =? 0) then lift (writev_range_ok guest (count * 16)) else mret true);
          if negb span then mret (- EFAULT)
          else
            items ← import_iovec (Z.to_nat count) guest [];
            match items with
            | inl e => mret e
            | inr items =>
                let items := clip_single items in
                ok ← lift (ranges_ok items);
                if negb ok then mret (- EFAULT)
                else
                  let '(items, total) := clip 0 items in
                  throw_if (64 * 1024 * 1024 <? total)
                    (runtime_error "writev staging exceeds 64MiB model limit");;
                  writev_admit fd k total;;
                  bytes ← gather items [];
                  writev_commit fd k bytes
            end).

(** ** close, stat, fcntl, truncate, sync *)

(** [require_no_pending_fd], on the threads of the node *)
Definition holds_fd (fd : Z) (t : thread_state) : bool :=
  alive t &&
  match pending_syscall t with
  | Some p => bool_decide (reason p = PrIo) && negb (bool_decide (phase p = Ready)) && (int32 (arg (args p) 0) =? fd)
  | None => false
  end.

Definition require_no_pending_fd (threads : list thread_state) (fd : Z) : NM unit :=
  throw_if (existsb (holds_fd fd) threads)
    (runtime_error "Mutating a descriptor retained by pending I/O is unsupported").

Definition emu_close (threads : list thread_state) (fd : Z) : NM Z :=
  require_no_pending_fd threads fd;;
  with_kind fd (λ _ k,
    r ← match k with
        | SOCKET => do_close_socket inet_pton fd
        | PIPE => on_ctx (do_pipe_close fd)
        | EPOLL => do_epoll_close fd
        | FILE | STDIO => require_file fd;; on_ctx (do_close fd)
        | UNKNOWN => unsupported_kind
        end;
    (if r =? 0 then on_here (forget_fd fd) else mret tt);;
    mret r).

Definition emu_fstat (fd destination : Z) : NM Z :=
  with_kind fd (λ _ k,
    let put v := ok ← guest_write destination (encode_stat v); mret (if ok : bool then 0 else - EFAULT) in
    let special mode := put (mkStat 0 mode 0 (mkTimespec 0 0)) in
    match k with
    | FILE | STDIO =>
        require_file fd;;
        n ← here;
        r ← lift (do_fstat xxhash64 (n_ctx n) fd);
        match r with
        | inl e => mret e
        | inr v => put (if bool_decide (k = STDIO) then mkStat (s_ino v) (s_mode v) 0 (s_mtim v) else v)
        end
    | SOCKET => special (Z.lor S_IFSOCK 384)
    | PIPE => special (Z.lor S_IFIFO 384)
    | EPOLL => special 384
    | UNKNOWN => unsupported_kind
    end).

(** [manager.do_fcntl] *)
Definition manager_fcntl (fd command argument : Z) : NM Z := on_ctx (λ k,
  match fdm k with
  | Some t => let '(t', o) := do_fcntl fd command argument t in (mkFsCtx (Some t') (fss k), o)
  | None => (k, Throw (runtime_error "Virtual descriptor manager missing"))
  end).

Definition emu_fcntl (threads : list thread_state) (fd command argument : Z) : NM Z :=
  (if command =? F_SETFL then require_no_pending_fd threads fd else mret tt);;
  manager_fcntl fd command (int32 argument).

Definition emu_ftruncate (fd length : Z) : NM Z :=
  if length <? 0 then mret (- EINVAL)
  else with_kind fd (λ _ k,
    if negb (bool_decide (k = FILE)) then mret (- EINVAL)
    else require_file fd;; on_ctx (do_ftruncate now fd length)).

Definition emu_fsync (fd : Z) : NM Z :=
  with_kind fd (λ _ k,
    if negb (bool_decide (k = FILE)) then mret (- EINVAL) else require_file fd;; mret 0).

Definition emu_fdatasync (fd : Z) : NM Z := emu_fsync fd.

(** ** ioctl *)

(** [fs.pipes_.at(|fs.pipe_fds_.at(fd)|)] *)
Definition pipe_at (fs : FileSystemState) (fd : Z) : outcome (Z * Pipe) :=
  match pipe_fds_ fs !! fd with
  | None => Throw (out_of_range "map::at")
  | Some id =>
      match pipes_ fs !! Z.abs id with
      | None => Throw (out_of_range "map::at")
      | Some p => Ret (id, p)
      end
  end.

(** The bytes [FIONREAD] reports, or an error. *)
Definition readable_bytes (fd : Z) (k : FdType) : NM (Z + Z) :=
  match k with
  | PIPE => fs ← files; p ← lift (pipe_at fs fd); mret (inr (zlength (buffer p.2)))
  | SOCKET =>
      s ← payload fd;
      st ← network;
      if listening s then mret (inl (- EINVAL))
      else if sk_type s =? SOCK_DGRAM then
        mret (inr (match udp_recv_buffers_ st !! fd with
                   | Some (d :: _) => zlength (dg_content d)
                   | _ => 0
                   end))
      else
        mret (inr (match tcp_connections_ st !! fd with
                   | Some c => zlength (concat (recv_buffer c))
                   | None => 0
                   end))
  | FILE =>
      d ← require_file fd;
      fs ← files;
      node ← lift (fs_at (path d) fs);
      let size := zlength (content node) in
      mret (inr (if size <=? uint64 (offset d) then 0 else size - uint64 (offset d)))
  | STDIO => mret (inl (- ENOTTY))
  | _ => throw (runtime_error "Unsupported virtual ioctl descriptor kind")
  end.

Definition emu_ioctl (threads : list thread_state) (fd request argument : Z) : NM Z :=
  let request := uint32 request in
  with_kind fd (λ t k,
    if (request =? FIOCLEX) || (request =? FIONCLEX)
    then manager_fcntl fd F_SETFD (if request =? FIOCLEX then FD_CLOEXEC else 0)
    else if (request =? TCGETS) || (request =? TIOCGWINSZ) then mret (- ENOTTY)
    else if request =? FIONBIO then
      require_no_pending_fd threads fd;;
      bs ← guest_read argument 4;
      match bs with
      | None => mret (- EFAULT)
      | Some bs =>
          let flags := get_status_flags t fd in
          manager_fcntl fd F_SETFL
            (if negb (le_Z bs =? 0) then Z.lor flags O_NONBLOCK else Z.land flags (Z.lnot O_NONBLOCK))
      end
    else if request =? FIONREAD then
      r ← readable_bytes fd k;
      match r with
      | inl e => mret e
      | inr bytes =>
          ok ← guest_write argument (le_bytes 4 (Z.min bytes INT_MAX));
          mret (if ok : bool then 0 else - EFAULT)
      end
    else throw (runtime_error "Unsupported virtual ioctl request")).

(** ** select *)

(** The corrections both [select] and [poll] make to the epoll events. *)
Definition adjusted_events (fd : Z) (k : FdType) : NM Z :=
  n ← here;
  let ready := ready_events (n_sock n) (fss (n_ctx n)) fd in
  match k with
  | SOCKET =>
      s ← payload fd;
      mret (if (sk_type s =? SOCK_STREAM) && negb (connected s) && negb (listening s)
            then Z.lor ready (Z.lor POLLOUT POLLHUP) else ready)
  | _ =>
      p ← lift (pipe_at (fss (n_ctx n)) fd);
      let ready := if (0 <? p.1) && bool_decide (buffer p.2 = []) then Z.land ready (Z.lnot POLLIN) else ready in
      mret (if (p.1 <? 0) && (zlength (buffer p.2) <? pipe_capacity) then Z.lor ready POLLOUT else ready)
  end.

Definition descriptor_readiness (fd : Z) : NM Z :=
  t ← descriptors;
  let k := get_fd_type t fd in
  match k with
  | FILE | STDIO => require_file fd;; mret (Z.lor POLLIN POLLOUT)
  | EPOLL =>
      n ← here;
      mret (if epoll_ready (n_sock n) (fss (n_ctx n)) fd then POLLIN else 0)
  | SOCKET | PIPE => adjusted_events fd k
  | UNKNOWN => throw (runtime_error "Unsupported select descriptor kind")
  end.

(** [stage_guest_set]: [None] for an absent set *)
Definition stage_guest_set (pointer : Z) : NM (Z + option (list byte)) :=
  if pointer =? 0 then mret (inr None)
  else
    bs ← guest_read pointer select_set_bytes;
    mret (match bs with Some bs => inr (Some bs) | None => inl (- EFAULT) end).

Definition wants (set : option (list byte)) (fd : Z) : bool :=
  match set with Some s => set_bit s fd | None => false end.

(** The result sets and the count of ready descriptors. *)
Record Scan := mkSelect { read_out : list byte; write_out : list byte; ready_count : Z }.

Definition select_step (fd : Z) (want_read want_write : bool) (ready : Z) (acc : Scan) : Scan :=
  let r := want_read && has ready (Z.lor POLLIN (Z.lor POLLHUP POLLERR)) in
  let w := want_write && has ready (Z.lor POLLOUT POLLERR) in
  mkSelect (if r then put_bit (read_out acc) fd else read_out acc)
           (if w then put_bit (write_out acc) fd else write_out acc)
           (if r || w then ready_count acc + 1 else ready_count acc).

Fixpoint select_loop (t : FD) (n : nat) (fd : Z) (r w e : option (list byte)) (acc : Scan) : NM (Z + Scan) :=
  match n with
  | O => mret (inr acc)
  | S n =>
      if negb (wants r fd) && negb (wants w fd) && negb (wants e fd)
      then select_loop t n (fd + 1) r w e acc
      else if negb (is_allocated t fd) then mret (inl (- EBADF))
      else
        ready ← descriptor_readiness fd;
        select_loop t n (fd + 1) r w e (select_step fd (wants r fd) (wants w fd) ready acc)
  end.

(** Writing one result set back, if the caller gave one. *)
Definition write_set (present : option (list byte)) (pointer : Z) (set : list byte) (next : NM Z) : NM Z :=
  match present with
  | None => next
  | Some _ => ok ← guest_write pointer set; if ok : bool then next else mret (- EFAULT)
  end.

Definition with_set (pointer : Z) (g : option (list byte) → NM Z) : NM Z :=
  s ← stage_guest_set pointer;
  match s with inl e => mret e | inr set => g set end.

Definition emu_select_scan (nfds readfds writefds exceptfds : Z) : NM Z :=
  if nfds <? 0 then mret (- EINVAL)
  else
    let limit := Z.min nfds FD_SETSIZE in
    with_set readfds (λ r,
    with_set writefds (λ w,
    with_set exceptfds (λ e,
      t ← descriptors;
      s ← select_loop t (Z.to_nat limit) 0 r w e (mkSelect clear_set clear_set 0);
      match s with
      | inl err => mret err
      | inr s =>
          write_set r readfds (read_out s)
            (write_set w writefds (write_out s)
              (write_set e exceptfds clear_set (mret (ready_count s))))
      end))).

Definition clear_at (pointer : Z) : NM unit :=
  if pointer =? 0 then mret tt else guest_write pointer clear_set;; mret tt.

Definition emu_select_clear (nfds readfds writefds exceptfds : Z) : NM unit :=
  clear_at readfds;; clear_at writefds;; clear_at exceptfds.

(** ** poll *)

Record pollfd := mkPollfd { p_fd : Z; p_events : Z }.

Fixpoint decode_pollfds (n : nat) (bs : list byte) : list pollfd :=
  match n with
  | O => []
  | S n => mkPollfd (int32 (le_Z (take 4 bs))) (le_Z (take 2 (drop 4 bs))) :: decode_pollfds n (drop 8 bs)
  end.

(** Readiness in [poll]'s terms. *)
Definition poll_readiness (fd : Z) (k : FdType) : NM Z :=
  match k with
  | FILE | STDIO =>
      require_file fd;; mret (Z.lor POLLIN (Z.lor POLLOUT (Z.lor POLLRDNORM POLLWRNORM)))
  | EPOLL =>
      n ← here;
      mret (if epoll_ready (n_sock n) (fss (n_ctx n)) fd then Z.lor POLLIN POLLRDNORM else 0)
  | SOCKET | PIPE =>
      ready ← adjusted_events fd k;
      let ready := if has ready POLLIN then Z.lor ready POLLRDNORM else ready in
      mret (if has ready POLLOUT then Z.lor ready POLLWRNORM else ready)
  | UNKNOWN => throw (runtime_error "Unsupported poll descriptor kind")
  end.

(** [entry.revents] of one entry, as an unsigned short *)
Definition revents (t : FD) (e : pollfd) : NM Z :=
  if p_fd e <? 0 then mret 0
  else if negb (is_allocated t (p_fd e)) then mret POLLNVAL
  else
    ready ← poll_readiness (p_fd e) (get_fd_type t (p_fd e));
    mret (uint16 (Z.land ready (Z.lor (p_events e) (Z.lor POLLERR POLLHUP)))).

Fixpoint poll_loop (t : FD) (l : list pollfd) : NM (list Z) :=
  match l with
  | [] => mret []
  | e :: l => r ← revents t e; rs ← poll_loop t l; mret (r :: rs)
  end.

(** What reading [/proc/<pid>/maps] gives. *)
Context (proc_maps : option (list maps_item)).

(** Storing the results; a result that crosses a page needs both pages. *)
Fixpoint poll_store (address result : Z) (l : list Z) : NM Z :=
  match l with
  | [] => mret result
  | r :: l =>
      covered ← (if address mod 4096 =? 4095 then
                   match proc_maps with
                   | None => throw (runtime_error "Cannot inspect poll scalar mappings")
                   | Some [] => throw (runtime_error "Cannot read poll scalar mappings")
                   | Some maps => mret (cover_loop maps (address + 2) address =? address + 2)
                   end
                 else mret true);
      if negb covered then mret (- EFAULT)
      else
        ok ← guest_write address (le_bytes 2 r);
        if ok : bool then poll_store (address + sizeof_pollfd) result l else mret (- EFAULT)
  end.

Definition emu_poll (fds count timeout : Z) : NM Z :=
  throw_if (negb (timeout =? 0)) (runtime_error "Blocking poll is not modeled");;
  throw_if (65536 <? count) (runtime_error "poll descriptor count exceeds model limit");;
  bs ← (if negb (count =? 0) then guest_read fds (count * sizeof_pollfd) else mret (Some []));
  match bs with
  | None => mret (- EFAULT)
  | Some bs =>
      t ← descriptors;
      rs ← poll_loop t (decode_pollfds (Z.to_nat count) bs);
      poll_store (fds + 6) (zlength (List.filter (λ r, negb (r =? 0)) rs)) rs
  end.
End io.
