(* ===== verification/Blocking.v ===== *)
(** * Blocked calls: suspending, granting, retrying, completing

    [src/src/subsys/pending_io.cpp] and the state-changing half of
    [src/src/core/engine/pending_syscall.cpp].  A system call that cannot
    finish is recorded in its thread ([suspend_syscall]); it leaves the
    [Waiting] phase when its futex queue entry is gone, its descriptor is
    ready or its deadline is reached; [complete_pending_syscall] then gives
    the guest its result.  The state is all nodes with, for each, its
    threads, futex table, clock, blocked flags and memory; register writes
    ([tracee_set_rax]) are recorded by thread. *)

From S2P Require Import Prelude Linux Bytes FdInterface FdManager Guest Vfs VfsOps VfsMeta Pipe Net Transfer Futex Pending Io.

Definition MAX_THREADS_PER_PROCESS : nat := 64.
Definition kDefaultIoTimeoutMs : Z := 1000.

(** The parts of [PTMC_STATE] kept per node beside its kernel objects. *)
Record Process (Mem : Type) := mkProcess {
  p_threads : list thread_state;
  p_futex : option FutexState;
  p_time : timeval;
  thread_blocked : list bool;
  p_pid : Z;
  current_thread_idx : Z;
  tracee_image_dirty : bool;
  p_mem : Mem;
}.
#[global] Arguments mkProcess {Mem}.
#[global] Arguments p_threads {Mem}.
#[global] Arguments p_futex {Mem}.
#[global] Arguments p_time {Mem}.
#[global] Arguments thread_blocked {Mem}.
#[global] Arguments p_pid {Mem}.
#[global] Arguments current_thread_idx {Mem}.
#[global] Arguments tracee_image_dirty {Mem}.
#[global] Arguments p_mem {Mem}.

Record Sim (FD Mem : Type) := mkSim {
  s_nodes : list (Node FD);
  s_procs : list (Process Mem);
  s_cursor : nat;
  s_error_bound : Z;
  n_choose : Z;
  choose : Z;
  s_rax : gmap Z Z;
}.
#[global] Arguments mkSim {FD Mem}.
#[global] Arguments s_nodes {FD Mem}.
#[global] Arguments s_procs {FD Mem}.
#[global] Arguments s_cursor {FD Mem}.
#[global] Arguments s_error_bound {FD Mem}.
#[global] Arguments n_choose {FD Mem}.
#[global] Arguments choose {FD Mem}.
#[global] Arguments s_rax {FD Mem}.

(** ** Threads *)

(** [find_thread]: the first live thread with a virtual id *)
Definition find_thread (t : Z) (l : list thread_state) : option (nat * thread_state) :=
  list_find (λ th, t_tid th = t ∧ alive th = true) l.

(** The first live thread bound to a physical id *)
Definition bound_thread (t : Z) (l : list thread_state) : option (nat * thread_state) :=
  list_find (λ th, alive th = true ∧ physical_tid th = t) l.

(** The flags [sync_pending_blocked] writes *)
Definition is_blocked (t : thread_state) : bool :=
  alive t && match pending_syscall t with Some p => bool_decide (phase p = Waiting) | None => false end.

Definition blocked_flags (l : list thread_state) : list bool :=
  (λ slot, match l !! slot with Some t => is_blocked t | None => false end) <$> seq 0 MAX_THREADS_PER_PROCESS.

(** One thread of [refresh_futex_pending] *)
Definition refresh_futex_thread (futex : option FutexState) (t : thread_state) : thread_state :=
  match pending_syscall t with
  | Some p =>
      if alive t && bool_decide (reason p = PrFutex) && bool_decide (phase p = Waiting) &&
         match futex with Some s => negb (is_thread_waiting (t_tid t) s) | None => true end
      then set_pending (Some (set_phase Ready 0 p)) t
      else t
  | None => t
  end.

(** ** The checks of [validate_pending_syscalls], one thread at a time *)

Definition pselect_ok (p : PendingSyscall) : bool :=
  bool_decide (reason p = PrTimer) && (0 <=? int32 (arg (args p) 0)) &&
  Bool.eqb (bool_decide (is_Some (deadline p))) (negb (arg (args p) 4 =? 0)) &&
  negb ((arg (args p) 4 <? scratch_page + 4096) && (scratch_page - 16 <? arg (args p) 4)) &&
  match deadline p with
  | Some d => (clock_id d =? CLOCK_MONOTONIC) && (timeout_result d =? 0)
  | None => true
  end.

Definition validate_pending (p : PendingSyscall) (queued : bool) : outcome unit :=
  if (nr p <? 0) || (negb (bool_decide (phase p = Ready)) && negb (result p =? 0))
  then Throw (runtime_error "Invalid unfinished syscall state")
  else if bool_decide (reason p = PrFutex) && (negb (nr p =? SYS_futex) || bool_decide (phase p = Retry))
  then Throw (runtime_error "Invalid unfinished futex syscall")
  else if bool_decide (reason p = PrTimer) &&
          ((negb (nr p =? SYS_nanosleep) && negb (nr p =? SYS_clock_nanosleep) && negb (nr p =? SYS_pselect6)) ||
           bool_decide (phase p = Retry) ||
           (negb (bool_decide (is_Some (deadline p))) && negb (nr p =? SYS_pselect6)))
  then Throw (runtime_error "Invalid pending timer syscall")
  else if (nr p =? SYS_pselect6) && negb (pselect_ok p)
  then Throw (runtime_error "Invalid pending pselect6 timer")
  else if bool_decide (reason p = PrIo) && negb (supports_pending_io (nr p))
  then Throw (runtime_error "Unsupported unfinished I/O syscall")
  else
    match match deadline p with Some d => validate_timed_pending p d | None => Ret tt end with
    | Throw e => Throw e
    | Ret _ =>
        if Bool.eqb queued (bool_decide (reason p = PrFutex) && bool_decide (phase p = Waiting)) then Ret tt
        else Throw (runtime_error "Futex queue disagrees with unfinished syscall phase")
    end.

Definition thread_queued (futex : option FutexState) (t : Z) : bool :=
  match futex with Some s => is_thread_waiting t s | None => false end.

Definition validate_thread (futex : option FutexState) (t : thread_state) : outcome unit :=
  let queued := thread_queued futex (t_tid t) in
  match pending_syscall t with
  | None => if queued then Throw (runtime_error "Futex waiter has no unfinished syscall") else Ret tt
  | Some p =>
      if negb (alive t) then Throw (runtime_error "Exited thread retains an unfinished syscall")
      else validate_pending p queued
  end.

Fixpoint validate_threads (futex : option FutexState) (l : list thread_state) : outcome unit :=
  match l with
  | [] => Ret tt
  | t :: l => match validate_thread futex t with Throw e => Throw e | Ret _ => validate_threads futex l end
  end.

(** [validate_pending_syscalls] *)
Definition validate_pending_syscalls (l : list thread_state) (futex : option FutexState) : outcome unit :=
  match validate_threads futex l with
  | Throw e => Throw e
  | Ret _ =>
      match futex with
      | None => Ret tt
      | Some s =>
          if forallb (λ w, bool_decide (is_Some (find_thread (tid w) l))) (concat (entries (waiters_ s)).*2)
          then Ret tt
          else Throw (runtime_error "Futex queue references a missing live thread")
      end
  end.

Section blocking.
Context {FD : Type} `{!DescriptorNamespace FD} {Mem : Type} `{!ProcessVm Mem}.
Context (inet_pton : str → option Z) (xxhash64 : str → Z) (now : timespec).
Abbreviation SM := (M (Sim FD Mem)).
Implicit Types s : Sim FD Mem.

(** ** Access *)

Definition set_procs (l : list (Process Mem)) s : Sim FD Mem :=
  mkSim (s_nodes s) l (s_cursor s) (s_error_bound s) (n_choose s) (choose s) (s_rax s).

Definition upd_proc (node : nat) (g : Process Mem → Process Mem) : SM unit :=
  modify (λ s, set_procs (alter g node (s_procs s)) s).

(** A node outside the table is refused. *)
Definition process (node : nat) : SM (Process Mem) := λ s,
  match s_procs s !! node with
  | Some p => (s, Ret p)
  | None => (s, Throw (runtime_error "Pending syscall node out of range"))
  end.

Definition set_threads (l : list thread_state) (p : Process Mem) : Process Mem :=
  mkProcess l (p_futex p) (p_time p) (thread_blocked p) (p_pid p) (current_thread_idx p)
    (tracee_image_dirty p) (p_mem p).
Definition set_futex (f : option FutexState) (p : Process Mem) : Process Mem :=
  mkProcess (p_threads p) f (p_time p) (thread_blocked p) (p_pid p) (current_thread_idx p)
    (tracee_image_dirty p) (p_mem p).
Definition set_blocked (p : Process Mem) : Process Mem :=
  mkProcess (p_threads p) (p_futex p) (p_time p) (blocked_flags (p_threads p)) (p_pid p)
    (current_thread_idx p) (tracee_image_dirty p) (p_mem p).
Definition set_dirty (p : Process Mem) : Process Mem :=
  mkProcess (p_threads p) (p_futex p) (p_time p) (thread_blocked p) (p_pid p) (current_thread_idx p) true (p_mem p).
Definition set_memory (m : Mem) (p : Process Mem) : Process Mem :=
  mkProcess (p_threads p) (p_futex p) (p_time p) (thread_blocked p) (p_pid p) (current_thread_idx p)
    (tracee_image_dirty p) m.

(** Run a call of the emulation on the node the cursor selects. *)
Definition world_of s (m : Mem) : World FD Mem := mkWorld (s_nodes s) (s_cursor s) m (s_error_bound s).

Definition on_world {A} (m : M (World FD Mem) A) : SM A := λ s,
  match s_procs s !! s_cursor s with
  | None => (s, Throw (out_of_range "cursor"))
  | Some p =>
      let '(w, o) := m (world_of s (p_mem p)) in
      (mkSim (w_nodes w) (alter (set_memory (w_mem w)) (s_cursor s) (s_procs s)) (s_cursor s) (error_bound w)
         (n_choose s) (choose s) (s_rax s), o)
  end.

Definition tracee_set_rax (t value : Z) : SM unit :=
  modify (λ s, mkSim (s_nodes s) (s_procs s) (s_cursor s) (s_error_bound s) (n_choose s) (choose s)
                 (<[t := uint64 value]> (s_rax s))).

(** [actor]: the slot of the live thread bound to a physical id *)
Definition actor (node : nat) (t : Z) : SM (nat * thread_state) :=
  p ← process node;
  match bound_thread t (p_threads p) with
  | Some r => mret r
  | None => throw (runtime_error "Pending syscall has no live bound actor")
  end.

Definition store_pending (node slot : nat) (v : option PendingSyscall) : SM unit :=
  upd_proc node (λ p, set_threads (alter (set_pending v) slot (p_threads p)) p).

Definition sync_pending_blocked (node : nat) : SM unit := process node;; upd_proc node set_blocked.

(** ** Deadlines and grants *)

Definition set_pending_deadline (node : nat) (t : Z) (d : PendingDeadline) : SM unit :=
  lift (validate_deadline d);;
  throw_if (INT64_MAX <? ktime d) (runtime_error "Pending deadline exceeds Linux ktime range");;
  p ← process node;
  match find_thread t (p_threads p) with
  | Some (slot, th) =>
      match pending_syscall th with
      | Some q =>
          throw_if (bool_decide (phase q = Ready)) (runtime_error "Deadline requires an unfinished waiting syscall");;
          lift (validate_timed_pending (set_deadline (Some d) q) d);;
          store_pending node slot (Some (set_deadline (Some d) q))
      | None => throw (runtime_error "Deadline requires an unfinished waiting syscall")
      end
  | None => throw (runtime_error "Deadline requires an unfinished waiting syscall")
  end.

Definition pending_timeout_due (node : nat) (t : Z) : SM bool :=
  p ← process node;
  match find_thread t (p_threads p) ≫= λ r, pending_syscall r.2 with
  | None => mret false
  | Some q =>
      match (if bool_decide (phase q = Ready) then None else deadline q) with
      | None => mret false
      | Some d =>
          lift (validate_deadline d);;
          lift (validate_model_time (p_time p));;
          mret (clock_reached (p_time p) d)
      end
  end.

Definition ready_syscall (node : nat) (t r : Z) : SM unit :=
  p ← process node;
  match find_thread t (p_threads p) with
  | Some (slot, th) =>
      match pending_syscall th with
      | Some q =>
          throw_if (bool_decide (phase q = Ready))
            (runtime_error "Only a waiting syscall can receive a completion");;
          (if bool_decide (reason q = PrFutex)
           then upd_proc node (λ p, set_futex ((λ f, (wake_thread t f).1) <$> p_futex p) p)
           else mret tt);;
          store_pending node slot (Some (set_phase Ready r q));;
          sync_pending_blocked node
      | None => throw (runtime_error "Only a waiting syscall can receive a completion")
      end
  | None => throw (runtime_error "Only a waiting syscall can receive a completion")
  end.

Definition expire_pending_syscall (node : nat) (t : Z) : SM bool :=
  due ← pending_timeout_due node t;
  if negb due then mret false
  else
    p ← process node;
    match find_thread t (p_threads p) ≫= λ r, pending_syscall r.2 ≫= deadline with
    | Some d => ready_syscall node t (timeout_result d);; mret true
    | None => throw (out_of_range "deadline")
    end.

(** Only a retry of the very same call may be suspended again. *)
Definition replaceable (info : syscall_info) (why : PendingReason) (p : option PendingSyscall) : bool :=
  match p with
  | Some q => bool_decide (phase q = Retry) && bool_decide (reason q = why) && (nr q =? i_nr info) &&
              bool_decide (args q = i_args info)
  | None => true
  end.

(** [suspend_syscall]; the call with its result register comes back *)
Definition suspend_syscall (node : nat) (t : Z) (info : syscall_info) (why : PendingReason) : SM syscall_info :=
  r ← actor node t;
  let '(slot, th) := r in
  throw_if (negb (replaceable info why (pending_syscall th)))
    (runtime_error "Cannot replace an unfinished syscall");;
  tracee_set_rax t (- ENOSYS);;
  store_pending node slot
    (Some (mkPending Waiting why (i_nr info) (i_args info) 0 (pending_syscall th ≫= deadline)));;
  sync_pending_blocked node;;
  mret (mkInfo (i_nr info) (i_args info) (uint64 (- ENOSYS))).

(** ** I/O *)

(** A read of a node's memory *)
Definition node_read (node : nat) (a n : Z) : SM (option (list byte)) :=
  p ← process node;
  mret (guest_read_exact (p_mem p) a n).

Definition decode_timespec (bs : list byte) : Z * Z := (int64 (le_Z (take 8 bs)), int64 (le_Z (drop 8 bs))).

Definition read_epoll_timeout (node : nat) (a : Z) : SM (Z * Z) :=
  bs ← node_read node a 16;
  match bs with
  | Some bs => mret (decode_timespec bs)
  | None => throw (runtime_error "Validated epoll timeout became unreadable")
  end.

Definition node_at (node : nat) : SM (Node FD) := λ s,
  match s_nodes s !! node with
  | Some n => (s, Ret n)
  | None => (s, Throw (out_of_range "node"))
  end.

Definition io_should_suspend (node : nat) (call : syscall_info) (r : Z) : SM bool :=
  let a := i_args call in
  if epoll_call (i_nr call) then
    if negb (r =? 0) then mret false
    else if negb (i_nr call =? SYS_epoll_pwait2) then mret (negb (int32 (arg a 3) =? 0))
    else if arg a 3 =? 0 then mret true
    else
      t ← read_epoll_timeout node (arg a 3);
      mret (negb (t.1 =? 0) || negb (t.2 =? 0))
  else if negb (data_call (i_nr call)) || negb (r =? - EAGAIN) then mret false
  else
    let fd := int32 (arg a 0) in
    n ← node_at node;
    match fdm (n_ctx n) with
    | None => mret false
    | Some t =>
        if negb (is_allocated t fd) then mret false
        else if has (get_status_flags t fd) O_NONBLOCK then mret false
        else mret (negb (i_nr call =? SYS_recvfrom) || negb (has (arg a 3) MSG_DONTWAIT))
    end.

(** The timeout a blocked call waits for, if it has one. *)
Definition io_timeout (node : nat) (call : syscall_info) : SM (option (Z * Z)) :=
  let a := i_args call in
  if negb (epoll_call (i_nr call)) then
    mret (Some (kDefaultIoTimeoutMs / 1000, (kDefaultIoTimeoutMs mod 1000) * 1000000))
  else if i_nr call =? SYS_epoll_pwait2 then
    if arg a 3 =? 0 then mret None
    else
      t ← read_epoll_timeout node (arg a 3);
      throw_if ((t.1 <? 0) || (t.2 <? 0) || (billion <=? t.2)) (runtime_error "Invalid captured epoll timeout");;
      mret (Some t)
  else
    let ms := int32 (arg a 3) in
    if ms <? 0 then mret None else mret (Some (ms / 1000, (ms mod 1000) * 1000000)).

(** Freeze a relative timeout and give it to the thread bound to [t]. *)
Definition arm_deadline (node : nat) (t s ns : Z) (missing : string) : SM unit :=
  p ← process node;
  d ← lift (make_pending_deadline (p_time p) CLOCK_MONOTONIC s ns true 0);
  match bound_thread t (p_threads p) with
  | Some (_, th) => set_pending_deadline node (t_tid th) d
  | None => throw (runtime_error missing)
  end.

Definition configure_pending_io (node : nat) (t : Z) (call : syscall_info) : SM unit :=
  w ← io_timeout node call;
  match w with
  | None => mret tt
  | Some (s, ns) => arm_deadline node t s ns "Pending I/O deadline has no live bound actor"
  end.

(** [io_retry_ready] on the kernel objects of a node *)
Definition pipe_retry_ready (fs : FileSystemState) (fd nr count : Z) : bool :=
  match pipe_fds_ fs !! fd with
  | None => true
  | Some id =>
      match pipes_ fs !! Z.abs id with
      | None => true
      | Some p =>
          if nr =? SYS_write then
            if (0 <? id) || read_closed p then true
            else
              let available := uint64 (pipe_capacity - zlength (buffer p)) in
              if count <=? pipe_atomic_limit then count <=? available else 0 <? available
          else (id <? 0) || negb (bool_decide (buffer p = [])) || write_closed p
      end
  end.

Definition read_ready_mask : Z := Z.lor EPOLLIN (Z.lor EPOLLERR (Z.lor EPOLLHUP EPOLLRDHUP)).

Definition kernel_retry_ready (t : FD) (fs : FileSystemState) (net : SockState) (call : syscall_info) : outcome bool :=
  let fd := int32 (arg (i_args call) 0) in
  if negb (is_allocated t fd) then Ret true
  else if epoll_call (i_nr call) then Ret (epoll_ready net fs fd)
  else if negb (data_call (i_nr call)) then Throw (runtime_error "Unknown pending I/O syscall")
  else if bool_decide (get_fd_type t fd = PIPE) then Ret (pipe_retry_ready fs fd (i_nr call) (arg (i_args call) 2))
  else if negb (bool_decide (get_fd_type t fd = SOCKET)) then Ret true
  else Ret (has (ready_events net fs fd) read_ready_mask).

Definition io_retry_ready (node : nat) (call : syscall_info) : SM bool :=
  n ← node_at node;
  match fdm (n_ctx n) with
  | None => mret true
  | Some t => lift (kernel_retry_ready t (fss (n_ctx n)) (n_sock n) call)
  end.

(** [get_current_tid] *)
Definition get_current_tid (p : Process Mem) : Z :=
  let fallback := if bool_decide (p_threads p = []) then p_pid p else -1 in
  if current_thread_idx p <? 0 then fallback
  else match p_threads p !! Z.to_nat (current_thread_idx p) with
       | Some t => if alive t && (0 <? physical_tid t) then physical_tid t else fallback
       | None => fallback
       end.

(** The emulated call behind a data call *)
Definition data_retry (call : syscall_info) : M (World FD Mem) Z :=
  let a := i_args call in
  let fd := int32 (arg a 0) in
  if i_nr call =? SYS_read then emu_read fd (arg a 1) (arg a 2)
  else if i_nr call =? SYS_write then emu_write inet_pton now fd (arg a 1) (arg a 2)
  else if i_nr call =? SYS_recvfrom then
    do_recvfrom fd (arg a 1) (arg a 2) (int32 (arg a 3)) (arg a 4) (arg a 5)
  else if i_nr call =? SYS_accept then do_accept fd (arg a 1) (arg a 2)
  else if i_nr call =? SYS_accept4 then emu_accept4 fd (arg a 1) (arg a 2) (int32 (arg a 3))
  else throw (runtime_error "Unsupported pending I/O retry").

(** [retry_pending_io]: the result, or [None] if the call still blocks *)
Definition retry_pending_io (node : nat) (t : Z) (call : syscall_info) : SM (option Z) :=
  s ← get;
  p ← process node;
  throw_if (negb (bool_decide (s_cursor s = node)) || negb (get_current_tid p =? t))
    (runtime_error "Pending I/O retry actor mismatch");;
  let a := i_args call in
  if epoll_call (i_nr call) then
    r ← on_world (do_epoll_wait (int32 (arg a 0)) (arg a 1) (int32 (arg a 2)) 0);
    mret (if r =? 0 then None else Some r)
  else
    r ← on_world (data_retry call);
    again ← io_should_suspend node call r;
    mret (if again : bool then None else Some r).

(** ** Completion *)

Definition start_completion (node : nat) : SM unit :=
  upd_proc node set_dirty;;
  modify (λ s, mkSim (s_nodes s) (s_procs s) (s_cursor s) (s_error_bound s) 0 (-1) (s_rax s)).

(** What a granted [pselect6] timeout writes to the guest *)
Definition pselect_copyout (node : nat) (q : PendingSyscall) : SM unit :=
  let a := args q in
  (if (nr q =? SYS_pselect6) && (result q =? 0) && negb (arg a 4 =? 0)
   then upd_proc node (λ p, set_memory (guest_write_exact (p_mem p) (arg a 4) (zeros 16)).1 p)
   else mret tt);;
  (if (nr q =? SYS_pselect6) && (result q =? 0)
   then on_world (emu_select_clear (int32 (arg a 0)) (arg a 1) (arg a 2) (arg a 3))
   else mret tt).

Definition finish (node slot : nat) (t : Z) (q : PendingSyscall) (r : Z) : SM (option syscall_info) :=
  tracee_set_rax t r;;
  store_pending node slot None;;
  sync_pending_blocked node;;
  mret (Some (mkInfo (nr q) (args q) (uint64 r))).

(** [complete_pending_syscall]: [None] if there was nothing to complete,
    otherwise the call with its result register *)
Definition complete_pending_syscall (node : nat) (t : Z) : SM (option syscall_info) :=
  p ← process node;
  if bool_decide (p_threads p = []) then mret None
  else
    r ← actor node t;
    let '(slot, th) := r in
    match pending_syscall th with
    | None => mret None
    | Some q =>
        match phase q with
        | Waiting => throw (runtime_error "Cannot execute a waiting syscall before completion is available")
        | Retry =>
            start_completion node;;
            throw_if (negb (bool_decide (reason q = PrIo))) (runtime_error "Only I/O pending calls may retry");;
            done ← retry_pending_io node t (mkInfo (nr q) (args q) 0);
            match done with
            | Some v => finish node slot t q v
            | None =>
                store_pending node slot (Some (set_phase Waiting 0 q));;
                tracee_set_rax t (- ENOSYS);;
                sync_pending_blocked node;;
                mret (Some (mkInfo (nr q) (args q) (uint64 (- ENOSYS))))
            end
        | Ready =>
            start_completion node;;
            pselect_copyout node q;;
            finish node slot t q (result q)
        end
    end.

(** ** Refreshing *)

Definition refresh_futex_pending (node : nat) : SM unit :=
  process node;;
  upd_proc node (λ p, set_threads (refresh_futex_thread (p_futex p) <$> p_threads p) p);;
  sync_pending_blocked node.

(** The phase of one thread's I/O call *)
Definition refresh_io_thread (node slot : nat) : SM unit :=
  p ← process node;
  match p_threads p !! slot with
  | Some th =>
      match pending_syscall th with
      | Some q =>
          if negb (alive th) || negb (bool_decide (reason q = PrIo)) || bool_decide (phase q = Ready) then mret tt
          else
            ready ← io_retry_ready node (mkInfo (nr q) (args q) 0);
            store_pending node slot
              (Some (mkPending (if ready : bool then Retry else Waiting) (reason q) (nr q) (args q) (result q) (deadline q)))
      | None => mret tt
      end
  | None => mret tt
  end.

Fixpoint refresh_io (node : nat) (slots : list nat) : SM unit :=
  match slots with
  | [] => mret tt
  | slot :: slots => refresh_io_thread node slot;; refresh_io node slots
  end.

Definition refresh_node (node : nat) : SM unit :=
  refresh_futex_pending node;;
  p ← process node;
  refresh_io node (seq 0 (length (p_threads p)));;
  sync_pending_blocked node.

Fixpoint refresh_nodes (nodes : list nat) : SM unit :=
  match nodes with
  | [] => mret tt
  | node :: nodes => refresh_node node;; refresh_nodes nodes
  end.

Definition refresh_pending_syscalls : SM unit :=
  s ← get;
  refresh_nodes (seq 0 (length (s_procs s))).

(** ** Process exit *)

Definition exit_blocked (net : SockState) (e : Z * Socket) : option string :=
  let '(fd, k) := e in
  if negb (sk_type k =? SOCK_STREAM) then None
  else if listening k && (negb (bool_decide (pending_connections k = [])) ||
                          negb (bool_decide (established_connections k = ∅)))
  then Some "Process exit with unaccepted TCP connections requires reset semantics"%string
  else if negb (connected k) then None
  else
    match tcp_connections_ net !! fd with
    | None => Some "Connected TCP socket has no connection payload at process exit"%string
    | Some c =>
        if existsb (λ m, negb (bool_decide (m = []))) (recv_buffer c)
        then Some "Process exit with unread TCP data requires reset semantics"%string
        else None
    end.

Definition preflight_process_io_exit (node : nat) : SM unit := λ s,
  match s_nodes s !! node with
  | None => (s, Throw (runtime_error "I/O exit node out of range"))
  | Some n =>
      let fs := fss (n_ctx n) in
      let net := n_sock n in
      match fdm (n_ctx n) with
      | None =>
          if negb (bool_decide (sockets_ net = ∅)) || negb (bool_decide (epoll_instances_ net = ∅)) ||
             negb (bool_decide (pipe_fds_ fs = ∅)) || negb (bool_decide (pipes_ fs = ∅)) ||
             existsb (λ e, (e.1 <? 0) || (2 <? e.1)) (entries (open_files fs))
          then (s, Throw (runtime_error "Process I/O exit has resources without a descriptor manager"))
          else (s, Ret tt)
      | Some _ =>
          match head (omap (exit_blocked net) (entries (sockets_ net))) with
          | Some what => (s, Throw (runtime_error what))
          | None => (s, Ret tt)
          end
      end
  end.

Fixpoint close_all (threads : list thread_state) (fds : list Z) : M (World FD Mem) unit :=
  match fds with
  | [] => mret tt
  | fd :: fds =>
      r ← emu_close inet_pton threads fd;
      throw_if (negb (r =? 0)) (runtime_error "Virtual descriptor close failed during process exit");;
      close_all threads fds
  end.

Definition set_cursor (i : nat) s : Sim FD Mem :=
  mkSim (s_nodes s) (s_procs s) i (s_error_bound s) (n_choose s) (choose s) (s_rax s).

(** The cursor is the node while its descriptors are closed, and is restored
    even when a close throws. *)
Definition with_cursor {A} (node : nat) (m : SM A) : SM A := λ s,
  let '(s', o) := m (set_cursor node s) in (set_cursor (s_cursor s) s', o).

Definition close_process_io (node : nat) : SM unit :=
  p ← process node;
  throw_if (existsb alive (p_threads p)) (runtime_error "Cannot close process I/O with live logical tasks");;
  preflight_process_io_exit node;;
  n ← node_at node;
  match fdm (n_ctx n) with
  | None => mret tt
  | Some t =>
      with_cursor node (on_world (close_all (p_threads p) (merge_sort Z.le (elements (allocated_fds t)))))
  end.

(** ** pselect6 *)

Definition overlaps_scratch_page (a : Z) : bool := (a <? scratch_page + 4096) && (scratch_page - 16 <? a).

Definition validate_pselect_mask_wrapper (node : nat) (wrapper : Z) : SM unit :=
  bs ← node_read node wrapper 16;
  match bs with
  | None => throw (runtime_error "Unreadable pselect6 signal mask wrapper")
  | Some bs => throw_if (negb (le_Z (take 8 bs) =? 0)) (runtime_error "Unsupported pselect6 signal mask")
  end.

(** The timeout the caller gave, or the error *)
Definition pselect_timeout (node : nat) (a : list Z) : SM (Z + Z * Z) :=
  bs ← (if negb (arg a 4 =? 0) then node_read node (arg a 4) 16 else mret (Some (zeros 16)));
  mret (match bs with
        | None => inl (- EFAULT)
        | Some bs =>
            let t := decode_timespec bs in
            if (t.1 <? 0) || (t.2 <? 0) || (billion <=? t.2) then inl (- EINVAL)
            else if int32 (arg a 0) <? 0 then inl (- EINVAL)
            else inr t
        end).

Definition pselect_result (t r : Z) (call : syscall_info) : SM syscall_info :=
  tracee_set_rax t r;; mret (mkInfo (i_nr call) (i_args call) (uint64 r)).

Definition pselect_wait (node : nat) (t : Z) (call : syscall_info) (s ns : Z) : SM syscall_info :=
  call ← suspend_syscall node t call PrTimer;
  arm_deadline node t s ns "Pending pselect6 has no live bound actor";;
  mret call.

Definition start_pselect_timer (node : nat) (t : Z) (call : syscall_info) : SM syscall_info :=
  let a := i_args call in
  let timed := negb (arg a 4 =? 0) in
  (if negb (arg a 5 =? 0) then validate_pselect_mask_wrapper node (arg a 5) else mret tt);;
  throw_if (overlaps_scratch_page (arg a 4)) (runtime_error "pselect6 timeout overlaps reserved control memory");;
  w ← pselect_timeout node a;
  match w with
  | inl e => pselect_result t e call
  | inr (s, ns) =>
      let zero := (s =? 0) && (ns =? 0) in
      let timer_only :=
        if timed && zero then pselect_result t 0 call
        else if timed then pselect_wait node t call s ns
        else suspend_syscall node t call PrTimer in
      if negb (int32 (arg a 0) =? 0) then
        ready ← on_world (emu_select_scan (int32 (arg a 0)) (arg a 1) (arg a 2) (arg a 3));
        if negb (ready =? 0) then pselect_result t ready call
        else if timed && negb zero then pselect_wait node t call s ns
        else timer_only
      else timer_only
  end.
End blocking.
