(* ===== verification/BlockingProps.v ===== *)
(** * Blocked calls: properties

    The life cycle of a blocked call, and that the retry test agrees with
    what a retry would do. *)

From S2P Require Import Prelude Linux Bytes FdInterface FdManager Guest Vfs VfsOps VfsMeta Pipe Net Transfer NetProps Futex Pending Io Blocking.

(** ** The life cycle

    The abstract state of a thread: running user code, blocked in a call,
    allowed to try it again, or granted a result it has not received. *)

Abbreviation call_id := (PendingReason * Z * list Z)%type.

Inductive call_state :=
  | Running
  | Blocked (c : call_id)
  | Retryable (c : call_id)
  | Granted (c : call_id) (r : Z).

Definition id_of (q : PendingSyscall) : call_id := (reason q, nr q, args q).

Definition life (p : option PendingSyscall) : call_state :=
  match p with
  | None => Running
  | Some q =>
      match phase q with
      | Waiting => Blocked (id_of q)
      | Retry => Retryable (id_of q)
      | Ready => Granted (id_of q) (result q)
      end
  end.

Definition unfinished (a : call_state) (c : call_id) : Prop := a = Blocked c ∨ a = Retryable c.

(** The operations on blocked calls. *)
Inductive block_op :=
  | OpSuspend (node : nat) (t : Z) (info : syscall_info) (why : PendingReason)
  | OpDeadline (node : nat) (t : Z) (d : PendingDeadline)
  | OpConfigure (node : nat) (t : Z) (info : syscall_info)
  | OpReady (node : nat) (t r : Z)
  | OpExpire (node : nat) (t : Z)
  | OpComplete (node : nat) (t : Z)
  | OpRefreshFutex (node : nat)
  | OpRefresh
  | OpPselect (node : nat) (t : Z) (info : syscall_info).

(** Which step of the life cycle an operation may make for a thread. *)
Definition may_step (op : block_op) (node : nat) (th : thread_state) (a b : call_state) : Prop :=
  alive th = true ∧
  match op with
  | OpSuspend i t info why =>
      node = i ∧ physical_tid th = t ∧ b = Blocked (why, i_nr info, i_args info) ∧
      (a = Running ∨ a = Retryable (why, i_nr info, i_args info))
  | OpPselect i t info =>
      node = i ∧ physical_tid th = t ∧ b = Blocked (PrTimer, i_nr info, i_args info) ∧
      (a = Running ∨ a = Retryable (PrTimer, i_nr info, i_args info))
  | OpReady i t r => node = i ∧ t_tid th = t ∧ ∃ c, unfinished a c ∧ b = Granted c r
  | OpExpire i t =>
      node = i ∧ t_tid th = t ∧ ∃ c d, unfinished a c ∧ b = Granted c (timeout_result d) ∧
        (pending_syscall th ≫= deadline) = Some d
  | OpComplete i t =>
      node = i ∧ physical_tid th = t ∧
      ((∃ c r, a = Granted c r ∧ b = Running) ∨
       (∃ c, a = Retryable c ∧ c.1.1 = PrIo ∧ (b = Running ∨ b = Blocked c)))
  | OpRefreshFutex i => node = i ∧ ∃ c, c.1.1 = PrFutex ∧ a = Blocked c ∧ b = Granted c 0
  | OpRefresh =>
      (∃ c, c.1.1 = PrFutex ∧ a = Blocked c ∧ b = Granted c 0) ∨
      (∃ c, c.1.1 = PrIo ∧ unfinished a c ∧ unfinished b c)
  | OpDeadline _ _ _ | OpConfigure _ _ _ => False
  end.

Create HintDb life.

Section life.
Context {FD : Type} `{!DescriptorNamespace FD} {Mem : Type} `{!ProcessVm Mem}.
Context (inet_pton : str → option Z) (now : timespec).
Implicit Types s : Sim FD Mem.

Definition discard {A} (m : M (Sim FD Mem) A) : M (Sim FD Mem) unit := m;; mret tt.

Definition block_exec (op : block_op) : M (Sim FD Mem) unit :=
  match op with
  | OpSuspend node t info why => discard (suspend_syscall node t info why)
  | OpDeadline node t d => set_pending_deadline node t d
  | OpConfigure node t info => configure_pending_io node t info
  | OpReady node t r => ready_syscall node t r
  | OpExpire node t => discard (expire_pending_syscall node t)
  | OpComplete node t => discard (complete_pending_syscall inet_pton now node t)
  | OpRefreshFutex node => refresh_futex_pending node
  | OpRefresh => refresh_pending_syscalls
  | OpPselect node t info => discard (start_pselect_timer node t info)
  end.

(** *** What is observed: the threads of every node, and their blocked flags *)

Definition threads_of s : list (list thread_state) := p_threads <$> s_procs s.
Definition thread_at s (node slot : nat) : option thread_state := threads_of s !! node ≫= (.!! slot).

Definition put_pending (node slot : nat) (v : option PendingSyscall) (l : list (list thread_state)) :=
  alter (alter (set_pending v) slot) node l.

Lemma threads_upd_same node g s :
  (∀ p, p_threads (g p) = p_threads p) →
  threads_of (set_procs (alter g node (s_procs s)) s) = threads_of s.
Proof.
  intros Hg. unfold threads_of, set_procs. cbn [s_procs]. apply list_eq. intros i.
  rewrite !list_lookup_fmap, list_lookup_alter.
  destruct (decide (node = i)) as [->|]; [|done]. destruct (s_procs s !! i); [|done]. cbn. by rewrite Hg.
Qed.

Lemma threads_store node slot v s :
  threads_of (set_procs (alter (λ p, set_threads (alter (set_pending v) slot (p_threads p)) p) node (s_procs s)) s) =
    put_pending node slot v (threads_of s).
Proof.
  unfold threads_of, set_procs, put_pending. cbn [s_procs]. apply list_eq. intros i.
  rewrite list_lookup_fmap, !list_lookup_alter.
  destruct (decide (node = i)) as [->|]; rewrite list_lookup_fmap; [|done]. by destruct (s_procs s !! i).
Qed.

(** *** Computations that leave threads and flags alone, or store one call *)

(** [quiet]: neither the threads nor the flags change; [keeps]: the threads
    do not. *)
Definition view_of s : list (list thread_state * list bool) := (λ p, (p_threads p, thread_blocked p)) <$> s_procs s.

Definition quiet {A} (m : M (Sim FD Mem) A) : Prop := ∀ s s' o, m s = (s', o) → view_of s' = view_of s.

Definition keeps {A} (m : M (Sim FD Mem) A) : Prop := ∀ s s' o, m s = (s', o) → threads_of s' = threads_of s.

Definition stores {A} (node slot : nat) (v : option PendingSyscall) (m : M (Sim FD Mem) A) : Prop :=
  ∀ s s' o, m s = (s', o) → threads_of s' = put_pending node slot v (threads_of s).

Lemma threads_view s : threads_of s = fst <$> view_of s.
Proof. unfold threads_of, view_of. by rewrite <- list_fmap_compose. Qed.

Lemma keeps_quiet {A} (m : M (Sim FD Mem) A) : quiet m → keeps m.
Proof. intros Hm s s' o H. rewrite !threads_view. f_equal. by eapply Hm. Qed.

Lemma keeps_bind {A B} (m : M (Sim FD Mem) A) (f : A → M (Sim FD Mem) B) :
  keeps m → (∀ a, keeps (f a)) → keeps (m ≫= f).
Proof.
  intros Hm Hf s s' o. rewrite bind_run. destruct (m s) as [s1 [a|e]] eqn:E.
  - intros H. by rewrite (Hf _ _ _ _ H), (Hm _ _ _ E).
  - intros [= <- <-]. by apply Hm in E.
Qed.

Lemma quiet_bind {A B} (m : M (Sim FD Mem) A) (f : A → M (Sim FD Mem) B) :
  quiet m → (∀ a, quiet (f a)) → quiet (m ≫= f).
Proof.
  intros Hm Hf s s' o. rewrite bind_run. destruct (m s) as [s1 [a|e]] eqn:E.
  - intros H. by rewrite (Hf _ _ _ _ H), (Hm _ _ _ E).
  - intros [= <- <-]. by apply Hm in E.
Qed.

Lemma quiet_same {A} (f : Sim FD Mem → outcome A) : quiet (λ s, (s, f s)).
Proof. intros s s' o. by intros [= <- <-]. Qed.

Lemma quiet_ret {A} (a : A) : quiet (mret a).
Proof. apply (quiet_same (λ _, Ret a)). Qed.
Lemma quiet_throw {A} e : quiet (throw (A:=A) e).
Proof. apply (quiet_same (λ _, Throw e)). Qed.
Lemma quiet_lift {A} (o : outcome A) : quiet (lift o).
Proof. apply (quiet_same (λ _, o)). Qed.
Lemma quiet_get : quiet get.
Proof. apply (quiet_same Ret). Qed.
Lemma quiet_throw_if c e : quiet (throw_if c e).
Proof. destruct c; [apply quiet_throw|apply quiet_ret]. Qed.

Lemma quiet_process node : quiet (process node).
Proof. intros s s' o. unfold process. destruct (s_procs s !! node); by intros [= <- <-]. Qed.
Lemma quiet_node_at node : quiet (node_at node).
Proof. intros s s' o. unfold node_at. destruct (s_nodes s !! node); by intros [= <- <-]. Qed.
Lemma quiet_rax t v : quiet (tracee_set_rax t v).
Proof. intros s s' o. by intros [= <- <-]. Qed.

Lemma view_upd_same node g s :
  (∀ p, p_threads (g p) = p_threads p ∧ thread_blocked (g p) = thread_blocked p) →
  view_of (set_procs (alter g node (s_procs s)) s) = view_of s.
Proof.
  intros Hg. unfold view_of, set_procs. cbn [s_procs]. apply list_eq. intros i.
  rewrite !list_lookup_fmap, list_lookup_alter.
  destruct (decide (node = i)) as [->|]; [|done]. destruct (s_procs s !! i) as [p|]; [|done]. cbn.
  by destruct (Hg p) as [-> ->].
Qed.

Lemma quiet_upd node g :
  (∀ p, p_threads (g p) = p_threads p ∧ thread_blocked (g p) = thread_blocked p) → quiet (upd_proc node g).
Proof. intros Hg s s' o. intros [= <- <-]. by apply view_upd_same. Qed.

Lemma quiet_on_world {A} (m : M (World FD Mem) A) : quiet (on_world m).
Proof.
  intros s s' o. unfold on_world. destruct (s_procs s !! s_cursor s) as [p|]; [|by intros [= <- <-]].
  destruct (m _) as [w o1]. intros [= <- <-].
  exact (view_upd_same (s_cursor s) (set_memory (w_mem w)) s ltac:(done)).
Qed.

Lemma stores_store node slot v : stores node slot v (store_pending node slot v).
Proof. intros s s' o. intros [= <- <-]. apply threads_store. Qed.

Lemma stores_then {A B} node slot v (m : M (Sim FD Mem) A) (f : A → M (Sim FD Mem) B) :
  stores node slot v m → (∀ a, keeps (f a)) → stores node slot v (m ≫= f).
Proof.
  intros Hm Hf s s' o. rewrite bind_run. destruct (m s) as [s1 [a|e]] eqn:E.
  - intros H. by rewrite (Hf _ _ _ _ H), (Hm _ _ _ E).
  - intros [= <- <-]. by apply Hm in E.
Qed.

(** Before the store, only steps that cannot fail. *)
Lemma stores_after {A} node slot v (g : Sim FD Mem → Sim FD Mem) (m : M (Sim FD Mem) A) :
  (∀ s, threads_of (g s) = threads_of s) → stores node slot v m → stores node slot v (modify g;; m).
Proof. intros Hg Hm s s' o H. by rewrite (Hm _ _ _ H), Hg. Qed.

#[local] Hint Resolve quiet_ret quiet_throw quiet_lift quiet_get quiet_throw_if quiet_process
  quiet_node_at quiet_rax quiet_on_world keeps_quiet stores_store stores_then : life.

Ltac hush := repeat first [progress eauto with life | progress intros | apply quiet_bind | by apply quiet_upd | case_match].
Ltac keep := repeat first [progress eauto with life | progress intros | apply keeps_bind | apply keeps_quiet; by apply quiet_upd | case_match].

Lemma keeps_sync node : keeps (sync_pending_blocked node).
Proof.
  unfold sync_pending_blocked. apply keeps_bind; [apply keeps_quiet, quiet_process|].
  intros _ s s' o [= <- <-]. by apply threads_upd_same.
Qed.
Lemma quiet_timeout node a : quiet (read_epoll_timeout node a).
Proof. unfold read_epoll_timeout, node_read. hush. Qed.
#[local] Hint Resolve keeps_sync quiet_timeout : life.

Lemma quiet_should_suspend node call r : quiet (io_should_suspend node call r).
Proof. unfold io_should_suspend. hush. Qed.
Lemma quiet_io_timeout node call : quiet (io_timeout node call).
Proof. unfold io_timeout. hush. Qed.
Lemma quiet_retry_ready node call : quiet (io_retry_ready node call).
Proof. unfold io_retry_ready. hush. Qed.
Lemma quiet_due node t : quiet (pending_timeout_due node t).
Proof. unfold pending_timeout_due. hush. Qed.
#[local] Hint Resolve quiet_should_suspend quiet_io_timeout quiet_retry_ready quiet_due : life.

Lemma quiet_retry node t call : quiet (retry_pending_io inet_pton now node t call).
Proof. unfold retry_pending_io. hush. Qed.
Lemma quiet_start node : quiet (start_completion node).
Proof.
  apply quiet_bind; [by apply quiet_upd|]. intros _ s s' o. by intros [= <- <-].
Qed.
Lemma quiet_copyout node q : quiet (pselect_copyout node q).
Proof. unfold pselect_copyout. hush. Qed.
#[local] Hint Resolve quiet_retry quiet_start quiet_copyout : life.

(** An operation changes the call of at most one thread. *)
Definition one_change (Q : nat → thread_state → option PendingSyscall → Prop) s s' : Prop :=
  threads_of s' = threads_of s ∨
  ∃ node slot th v, thread_at s node slot = Some th ∧ Q node th v ∧
    threads_of s' = put_pending node slot v (threads_of s).

Lemma find_thread_at t s node p slot th :
  s_procs s !! node = Some p → find_thread t (p_threads p) = Some (slot, th) →
  thread_at s node slot = Some th ∧ t_tid th = t ∧ alive th = true.
Proof.
  intros Hp (H1 & H2 & _)%list_find_Some. split; [|done].
  unfold thread_at, threads_of. by rewrite list_lookup_fmap, Hp.
Qed.

Lemma bound_thread_at t s node p slot th :
  s_procs s !! node = Some p → bound_thread t (p_threads p) = Some (slot, th) →
  thread_at s node slot = Some th ∧ alive th = true ∧ physical_tid th = t.
Proof.
  intros Hp (H1 & H2 & _)%list_find_Some. split; [|done].
  unfold thread_at, threads_of. by rewrite list_lookup_fmap, Hp.
Qed.

Lemma process_bind {B} node (f : Process Mem → M (Sim FD Mem) B) s :
  (process node ≫= f) s =
    match s_procs s !! node with
    | Some p => f p s
    | None => (s, Throw (runtime_error "Pending syscall node out of range"))
    end.
Proof. rewrite bind_run. unfold process. by destruct (s_procs s !! node). Qed.

Lemma actor_bind {B} node t (f : nat * thread_state → M (Sim FD Mem) B) s :
  (actor node t ≫= f) s =
    match s_procs s !! node with
    | None => (s, Throw (runtime_error "Pending syscall node out of range"))
    | Some p =>
        match bound_thread t (p_threads p) with
        | Some r => f r s
        | None => (s, Throw (runtime_error "Pending syscall has no live bound actor"))
        end
    end.
Proof.
  rewrite bind_run. unfold actor. rewrite process_bind. destruct (s_procs s !! node) as [p|]; [|done].
  by destruct (bound_thread t (p_threads p)).
Qed.

Ltac stay := intros [= <- <-]; by left.

Lemma suspend_change node t info why s s' o :
  suspend_syscall node t info why s = (s', o) →
  one_change (λ i th v, i = node ∧ alive th = true ∧ physical_tid th = t ∧
    life v = Blocked (why, i_nr info, i_args info) ∧
    (life (pending_syscall th) = Running ∨ life (pending_syscall th) = Retryable (why, i_nr info, i_args info))) s s'.
Proof.
  unfold suspend_syscall. rewrite actor_bind.
  destruct (s_procs s !! node) as [p|] eqn:Hp; [|stay].
  destruct (bound_thread t (p_threads p)) as [[slot th]|] eqn:Hb; [|stay].
  destruct (bound_thread_at _ _ _ _ _ _ Hp Hb) as (Hat & Hal & Hph).
  rewrite guard_run. destruct (replaceable info why (pending_syscall th)) eqn:Hr; cbn [negb]; [|stay].
  intros H. right. exists node, slot, th, (Some (mkPending Waiting why (i_nr info) (i_args info) 0
    (pending_syscall th ≫= deadline))). split; [done|]. split.
  - split_and!; try done. destruct (pending_syscall th) as [q|]; [|by left]. right. cbn in Hr.
    rewrite !andb_true_iff, !bool_decide_eq_true, Z.eqb_eq in Hr. destruct Hr as [[[H1 H2] H3] H4].
    unfold life, id_of. by rewrite H1, H2, H3, H4.
  - refine (stores_after node slot _ _ _ _ _ s s' o H); [done|]. apply stores_then; keep.
Qed.

(** A change of the deadline only is no step of the life cycle. *)
Lemma deadline_change node t d s s' o :
  set_pending_deadline node t d s = (s', o) → one_change (λ _ th v, life v = life (pending_syscall th)) s s'.
Proof.
  unfold set_pending_deadline. rewrite lift_bind_run.
  destruct (validate_deadline d); [|stay]. rewrite guard_run. destruct (INT64_MAX <? ktime d); [stay|].
  rewrite process_bind. destruct (s_procs s !! node) as [p|] eqn:Hp; [|stay].
  destruct (find_thread t (p_threads p)) as [[slot th]|] eqn:Hf; [|stay].
  destruct (find_thread_at _ _ _ _ _ _ Hp Hf) as (Hat & _).
  destruct (pending_syscall th) as [q|] eqn:Hq; [|stay].
  rewrite guard_run. destruct (bool_decide (phase q = Ready)); [stay|].
  rewrite lift_bind_run. destruct (validate_timed_pending _ d); [|stay].
  intros H. right. exists node, slot, th, (Some (set_deadline (Some d) q)). split; [done|]. split.
  - by rewrite Hq.
  - by apply stores_store in H.
Qed.

Lemma arm_change node t a b msg s s' o :
  arm_deadline node t a b msg s = (s', o) → one_change (λ _ th v, life v = life (pending_syscall th)) s s'.
Proof.
  unfold arm_deadline. rewrite process_bind. destruct (s_procs s !! node) as [p|]; [|stay].
  rewrite lift_bind_run. destruct (make_pending_deadline _ _ _ _ _ _); [|stay].
  destruct (bound_thread t (p_threads p)) as [[slot th]|]; [|stay]. apply deadline_change.
Qed.

Lemma one_change_after Q s s1 s' : threads_of s1 = threads_of s → one_change Q s1 s' → one_change Q s s'.
Proof. unfold one_change, thread_at. intros ->. done. Qed.

Lemma configure_change node t info s s' o :
  configure_pending_io node t info s = (s', o) → one_change (λ _ th v, life v = life (pending_syscall th)) s s'.
Proof.
  unfold configure_pending_io. rewrite bind_run. destruct (io_timeout node info s) as [s1 [w|e]] eqn:E;
    apply (keeps_quiet _ (quiet_io_timeout _ _)) in E; [|intros [= <- <-]; by left].
  destruct w as [[a b]|]; [|intros [= <- <-]; by left].
  intros H%arm_change. by eapply one_change_after.
Qed.

Definition grants (node : nat) (t r : Z) (i : nat) (th : thread_state) (v : option PendingSyscall) : Prop :=
  i = node ∧ t_tid th = t ∧ alive th = true ∧ ∃ c, unfinished (life (pending_syscall th)) c ∧ life v = Granted c r.

Lemma ready_change node t r s s' o :
  ready_syscall node t r s = (s', o) →
  one_change (λ i th v, grants node t r i th v ∧
    ∀ p, s_procs s !! node = Some p → snd <$> find_thread t (p_threads p) = Some th) s s'.
Proof.
  unfold ready_syscall. rewrite process_bind. destruct (s_procs s !! node) as [p|] eqn:Hp; [|stay].
  destruct (find_thread t (p_threads p)) as [[slot th]|] eqn:Hf; [|stay].
  destruct (find_thread_at _ _ _ _ _ _ Hp Hf) as (Hat & Ht & Hal).
  destruct (pending_syscall th) as [q|] eqn:Hq; [|stay].
  rewrite guard_run. destruct (bool_decide_reflect (phase q = Ready)) as [|Hph]; [stay|].
  intros H. right. exists node, slot, th, (Some (set_phase Ready r q)). split; [done|]. split.
  - split; [|intros p' Hp'; simplify_eq; by rewrite Hf]. split_and!; try done.
    exists (id_of q). rewrite Hq. split; [|done]. unfold unfinished, life.
    destruct (phase q); [by left|by right|done].
  - assert (stores node slot (Some (set_phase Ready r q))
      (store_pending node slot (Some (set_phase Ready r q));; sync_pending_blocked node)) as Hst by (apply stores_then; keep).
    destruct (bool_decide (reason q = PrFutex)).
    + refine (stores_after node slot _ _ _ _ Hst s s' o H). intros x. by apply threads_upd_same.
    + exact (Hst _ _ _ H).
Qed.

Lemma expire_change node t s s' o :
  expire_pending_syscall node t s = (s', o) →
  one_change (λ i th v, ∃ d, (pending_syscall th ≫= deadline) = Some d ∧ grants node t (timeout_result d) i th v) s s'.
Proof.
  unfold expire_pending_syscall. rewrite bind_run.
  destruct (pending_timeout_due node t s) as [s1 [due|e]] eqn:E; cycle 1.
  { apply (keeps_quiet _ (quiet_due _ _)) in E. intros [= <- <-]. by left. }
  assert (s1 = s) as ->.
  { unfold pending_timeout_due in E. rewrite process_bind in E. destruct (s_procs s !! node) as [p|]; [|done].
    destruct (_ ≫= _) as [q|]; [|by injection E]. destruct (if bool_decide _ then _ else _); [|by injection E].
    rewrite lift_bind_run in E. destruct (validate_deadline _); [|done].
    rewrite lift_bind_run in E. destruct (validate_model_time _); [|done]. by injection E. }
  destruct due; cbn [negb]; [|stay]. rewrite process_bind.
  destruct (s_procs s !! node) as [p|] eqn:Hp; [|stay].
  destruct (find_thread t (p_threads p)) as [[slot th]|] eqn:Hf; [|stay]. cbn [mbind option_bind snd].
  destruct (pending_syscall th ≫= deadline) as [d|] eqn:Hd; [|stay].
  rewrite bind_run. destruct (ready_syscall node t (timeout_result d) s) as [s1 o1] eqn:Hr.
  intros H. assert (s1 = s') as -> by (destruct o1; by injection H).
  apply ready_change in Hr as [Hr|(i & slot' & th' & v & Hat & [Hg Hth] & Hs)]; [by left|].
  right. exists i, slot', th', v. split; [done|]. split; [|done]. exists d. split; [|done].
  specialize (Hth p Hp). rewrite Hf in Hth. by injection Hth as <-.
Qed.

(** Completing: a granted call ends, a retry ends or blocks again. *)
Definition completes (node : nat) (t : Z) (i : nat) (th : thread_state) (v : option PendingSyscall) : Prop :=
  i = node ∧ alive th = true ∧ physical_tid th = t ∧
  ((∃ c r, life (pending_syscall th) = Granted c r ∧ life v = Running) ∨
   (∃ c, life (pending_syscall th) = Retryable c ∧ c.1.1 = PrIo ∧ (life v = Running ∨ life v = Blocked c))).

Lemma stores_finish node slot t q r : stores node slot None (finish node slot t q r).
Proof. unfold finish. apply (stores_after node slot None); [done|]. apply stores_then; keep. Qed.

Lemma stores_one_change {A} (Q : nat → thread_state → option PendingSyscall → Prop) node slot v th
    (m : M (Sim FD Mem) A) s s' o :
  m s = (s', o) → stores node slot v m → thread_at s node slot = Some th → Q node th v → one_change Q s s'.
Proof. intros H Hm Hat HQ. right. exists node, slot, th, v. split; [done|]. split; [done|]. by apply Hm in H. Qed.

Lemma complete_change node t s s' o :
  complete_pending_syscall inet_pton now node t s = (s', o) → one_change (completes node t) s s'.
Proof.
  unfold complete_pending_syscall. rewrite process_bind. destruct (s_procs s !! node) as [p|] eqn:Hp; [|stay].
  destruct (bool_decide (p_threads p = [])); [stay|]. rewrite actor_bind, Hp.
  destruct (bound_thread t (p_threads p)) as [[slot th]|] eqn:Hb; [|stay].
  destruct (bound_thread_at _ _ _ _ _ _ Hp Hb) as (Hat & Hal & Hph).
  destruct (pending_syscall th) as [q|] eqn:Hq; [|stay].
  destruct (phase q) eqn:Hphase; [stay| |].
  - rewrite bind_run. destruct (start_completion node s) as [s1 [[]|]] eqn:E1; apply (keeps_quiet _ (quiet_start _)) in E1;
      [|intros [= <- <-]; by left].
    rewrite guard_run. destruct (bool_decide_reflect (reason q = PrIo)) as [Hio|]; cbn [negb]; [|intros [= <- <-]; by left].
    rewrite bind_run. destruct (retry_pending_io _ _ _ _ _ s1) as [s2 [done|]] eqn:E2; apply (keeps_quiet _ (quiet_retry _ _ _)) in E2;
      [|intros [= <- <-]; left; congruence].
    assert (thread_at s2 node slot = Some th) as Hat2 by (unfold thread_at in *; congruence).
    intros H. apply (one_change_after _ s s2); [congruence|]. destruct done as [v|].
    + eapply stores_one_change; [exact H|apply stores_finish|done|]. split_and!; try done. right.
      exists (id_of q). unfold life at 1. rewrite Hq, Hphase. split_and!; try done. by left.
    + eapply stores_one_change; [exact H|apply stores_then; [apply stores_store|keep]|done|].
      split_and!; try done. right. exists (id_of q). unfold life at 1. rewrite Hq, Hphase. split_and!; try done. by right.
  - rewrite bind_run. destruct (start_completion node s) as [s1 [[]|]] eqn:E1; apply (keeps_quiet _ (quiet_start _)) in E1;
      [|intros [= <- <-]; by left].
    rewrite bind_run. destruct (pselect_copyout node q s1) as [s2 [[]|]] eqn:E2; apply (keeps_quiet _ (quiet_copyout _ _)) in E2;
      [|intros [= <- <-]; left; congruence].
    assert (thread_at s2 node slot = Some th) as Hat2 by (unfold thread_at in *; congruence).
    intros H. apply (one_change_after _ s s2); [congruence|].
    eapply stores_one_change; [exact H|apply stores_finish|done|]. split_and!; try done. left.
    exists (id_of q), (result q). unfold life at 1. by rewrite Hq, Hphase.
Qed.

(** *** The evolution of every thread *)

Definition same_thread (th th' : thread_state) : Prop :=
  t_tid th' = t_tid th ∧ physical_tid th' = physical_tid th ∧ alive th' = alive th.

Definition evolves (Q : nat → thread_state → call_state → call_state → Prop) s s' : Prop :=
  ∀ node slot,
    match thread_at s node slot, thread_at s' node slot with
    | Some th, Some th' =>
        same_thread th th' ∧
        (life (pending_syscall th') = life (pending_syscall th) ∨
         Q node th (life (pending_syscall th)) (life (pending_syscall th')))
    | None, None => True
    | _, _ => False
    end.

Lemma evolves_same Q s s' : threads_of s' = threads_of s → evolves Q s s'.
Proof.
  intros H node slot. unfold thread_at. rewrite H. destruct (_ ≫= _); [|done]. split; [done|by left].
Qed.

Lemma thread_at_put node slot v s s' i j :
  threads_of s' = put_pending node slot v (threads_of s) →
  thread_at s' i j = if decide (i = node ∧ j = slot) then set_pending v <$> thread_at s i j else thread_at s i j.
Proof.
  unfold thread_at, put_pending. intros ->. rewrite list_lookup_alter.
  destruct (decide (node = i)) as [->|]; [|by rewrite decide_False by naive_solver].
  destruct (threads_of s !! i) as [l|]; cbn; [|by destruct (decide _)]. rewrite list_lookup_alter.
  destruct (decide (slot = j)) as [->|]; [by rewrite decide_True|by rewrite decide_False by naive_solver].
Qed.

Lemma one_change_evolves Q Q' s s' :
  (∀ node th v, Q node th v → life v = life (pending_syscall th) ∨ Q' node th (life (pending_syscall th)) (life v)) →
  one_change Q s s' → evolves Q' s s'.
Proof.
  intros HQ [H|(node & slot & th & v & Hat & Hq & H)]; [by apply evolves_same|].
  intros i j. rewrite (thread_at_put node slot v s s' i j H).
  destruct (decide (i = node ∧ j = slot)) as [[-> ->]|].
  - rewrite Hat. cbn. split; [done|]. by apply HQ.
  - destruct (thread_at s i j); [|done]. split; [done|by left].
Qed.

Lemma evolution_trans Q s s1 s2 :
  (∀ node th th1 a b c, same_thread th th1 → Q node th a b → Q node th1 b c → Q node th a c) →
  (∀ node th th1 a b, same_thread th th1 → Q node th1 a b → Q node th a b) →
  evolves Q s s1 → evolves Q s1 s2 → evolves Q s s2.
Proof.
  intros Ht Hth H1 H2 node slot. specialize (H1 node slot). specialize (H2 node slot).
  destruct (thread_at s node slot) as [th|], (thread_at s1 node slot) as [th1|], (thread_at s2 node slot) as [th2|];
    try done. destruct H1 as [S1 L1], H2 as [S2 L2]. split; [unfold same_thread in *; naive_solver congruence|].
  destruct L1 as [E1|Q1], L2 as [E2|Q2].
  - left. congruence.
  - right. rewrite <- E1. by eapply Hth.
  - right. by rewrite E2.
  - right. eapply Ht; [exact S1|exact Q1|exact Q2].
Qed.

Lemma evolves_quiet Q s s1 s2 :
  evolves Q s s1 → evolves (λ _ _ _ _, False) s1 s2 → evolves Q s s2.
Proof.
  intros H1 H2 node slot. specialize (H1 node slot). specialize (H2 node slot).
  destruct (thread_at s node slot) as [th|], (thread_at s1 node slot) as [th1|], (thread_at s2 node slot) as [th2|];
    try done. destruct H1 as [S1 L1], H2 as [S2 [E|[]]]. split; [unfold same_thread in *; naive_solver congruence|].
  by rewrite E.
Qed.

(** The evolution a computation causes from any state. *)
Definition evolve {A} (Q : nat → thread_state → call_state → call_state → Prop) (m : M (Sim FD Mem) A) : Prop :=
  ∀ s s' o, m s = (s', o) → evolves Q s s'.

Lemma evolve_keeps {A} Q (m : M (Sim FD Mem) A) : keeps m → evolve Q m.
Proof. intros Hm s s' o H. apply evolves_same. by apply Hm in H. Qed.

Lemma evolve_bind {A B} Q (m : M (Sim FD Mem) A) (f : A → M (Sim FD Mem) B) :
  keeps m → (∀ a, evolve Q (f a)) → evolve Q (m ≫= f).
Proof.
  intros Hm Hf s s' o. rewrite bind_run. destruct (m s) as [s1 [a|e]] eqn:E; apply Hm in E.
  - intros H%Hf. intros node slot. specialize (H node slot). unfold thread_at in *. by rewrite E in H.
  - intros [= <- <-]. by apply evolves_same.
Qed.

Lemma evolve_then_quiet {A B} Q (m : M (Sim FD Mem) A) (f : A → M (Sim FD Mem) B) :
  evolve Q m → (∀ a, evolve (λ _ _ _ _, False) (f a)) → evolve Q (m ≫= f).
Proof.
  intros Hm Hf s s' o. rewrite bind_run. destruct (m s) as [s1 [a|e]] eqn:E; apply Hm in E.
  - intros H%Hf. by eapply evolves_quiet.
  - by intros [= <- <-].
Qed.

Lemma evolve_seq {A B} Q (m : M (Sim FD Mem) A) (f : A → M (Sim FD Mem) B) :
  (∀ node th th1 a b c, same_thread th th1 → Q node th a b → Q node th1 b c → Q node th a c) →
  (∀ node th th1 a b, same_thread th th1 → Q node th1 a b → Q node th a b) →
  evolve Q m → (∀ a, evolve Q (f a)) → evolve Q (m ≫= f).
Proof.
  intros Ht Hth Hm Hf s s' o. rewrite bind_run. destruct (m s) as [s1 [a|e]] eqn:E; apply Hm in E.
  - intros H%Hf. by eapply evolution_trans.
  - by intros [= <- <-].
Qed.

Lemma evolve_change {A} Q Q' (m : M (Sim FD Mem) A) :
  (∀ s s' o, m s = (s', o) → one_change Q s s') →
  (∀ node th v, Q node th v → life v = life (pending_syscall th) ∨ Q' node th (life (pending_syscall th)) (life v)) →
  evolve Q' m.
Proof. intros Hm HQ s s' o H%Hm. by eapply one_change_evolves. Qed.

(** *** pselect6 *)

Lemma evolve_suspend_timer node t info :
  evolve (may_step (OpPselect node t info)) (suspend_syscall node t info PrTimer).
Proof.
  eapply evolve_change; [apply suspend_change|]. intros i th v (-> & Ha & Hp & Hb & Hc). by right.
Qed.

Lemma evolve_wait_timer node t info a b :
  evolve (may_step (OpPselect node t info)) (pselect_wait node t info a b).
Proof.
  unfold pselect_wait. apply evolve_then_quiet; [apply evolve_suspend_timer|]. intros c.
  apply evolve_then_quiet; [|intros; apply evolve_keeps, keeps_quiet, quiet_ret].
  eapply evolve_change; [apply arm_change|]. intros ? ? ?. by left.
Qed.

Lemma evolve_pselect node t info :
  evolve (may_step (OpPselect node t info)) (start_pselect_timer node t info).
Proof.
  unfold start_pselect_timer. apply evolve_bind.
  { unfold validate_pselect_mask_wrapper, node_read. keep. }
  intros _. apply evolve_bind; [apply keeps_quiet, quiet_throw_if|]. intros _.
  apply evolve_bind; [unfold pselect_timeout, node_read; keep|].
  assert (∀ r, evolve (may_step (OpPselect node t info)) (pselect_result t r info)) as Hres.
  { intros r. apply evolve_keeps. unfold pselect_result. keep. }
  intros [e|[a b]]; [apply Hres|]. cbv zeta.
  destruct (negb (int32 _ =? 0)).
  - apply evolve_bind; [apply keeps_quiet, quiet_on_world|]. intros ready.
    destruct (negb (ready =? 0)); [apply Hres|].
    destruct (_ && negb _); [apply evolve_wait_timer|].
    repeat case_match; auto using evolve_wait_timer, evolve_suspend_timer.
  - repeat case_match; auto using evolve_wait_timer, evolve_suspend_timer.
Qed.

(** *** Refreshing *)

Definition futex_step (th : thread_state) (a b : call_state) : Prop :=
  alive th = true ∧ ∃ c, c.1.1 = PrFutex ∧ a = Blocked c ∧ b = Granted c 0.

Definition io_step (th : thread_state) (a b : call_state) : Prop :=
  alive th = true ∧ ∃ c, c.1.1 = PrIo ∧ unfinished a c ∧ unfinished b c.

Definition refresh_step (node : nat) (th : thread_state) (a b : call_state) : Prop :=
  futex_step th a b ∨ io_step th a b.

Lemma refresh_step_trans node th th1 a b c :
  same_thread th th1 → refresh_step node th a b → refresh_step node th1 b c → refresh_step node th a c.
Proof.
  intros (_ & _ & Hal) [(H1 & c1 & Hr1 & -> & ->)|(H1 & c1 & Hr1 & Ha & Hb)]
    [(H2 & c2 & Hr2 & Hx & ->)|(H2 & c2 & Hr2 & Hx & Hy)].
  - done.
  - destruct Hx; done.
  - destruct Hb as [Hb|Hb]; rewrite Hb in Hx; [|done]. injection Hx as <-. congruence.
  - right. split; [done|]. exists c1. split_and!; try done.
    destruct Hb as [Hb|Hb], Hx as [Hx|Hx]; rewrite Hb in Hx; try done; by injection Hx as <-.
Qed.

Lemma refresh_step_same node th th1 a b :
  same_thread th th1 → refresh_step node th1 a b → refresh_step node th a b.
Proof. intros (_ & _ & Hal). unfold refresh_step, futex_step, io_step. by rewrite Hal. Qed.

Lemma refresh_futex_thread_life futex th :
  let th' := refresh_futex_thread futex th in
  same_thread th th' ∧
  (life (pending_syscall th') = life (pending_syscall th) ∨
   futex_step th (life (pending_syscall th)) (life (pending_syscall th'))).
Proof.
  cbv zeta. unfold refresh_futex_thread. destruct (pending_syscall th) as [q|] eqn:Hq; [|split; [done|by left; rewrite Hq]].
  destruct (alive th) eqn:Ha; cbn [andb]; [|split; [done|by left; rewrite Hq]].
  destruct (bool_decide_reflect (reason q = PrFutex)) as [Hr|]; cbn [andb]; [|split; [done|by left; rewrite Hq]].
  destruct (bool_decide_reflect (phase q = Waiting)) as [Hp|]; cbn [andb]; [|split; [done|by left; rewrite Hq]].
  destruct (match futex with Some _ => _ | None => _ end); [|split; [done|by left; rewrite Hq]].
  split; [done|]. right. split; [done|]. exists (id_of q). unfold life. by rewrite Hp.
Qed.

Lemma evolve_refresh_futex node :
  evolve (λ i th a b, i = node ∧ futex_step th a b) (refresh_futex_pending node).
Proof.
  unfold refresh_futex_pending. apply evolve_bind; [apply keeps_quiet, quiet_process|]. intros _.
  apply evolve_then_quiet; [|intros; apply evolve_keeps, keeps_sync].
  intros s s' o [= <- <-] i j. unfold thread_at, threads_of, set_procs. cbn [s_procs].
  rewrite !list_lookup_fmap, list_lookup_alter. destruct (decide (node = i)) as [->|].
  - destruct (s_procs s !! i) as [p|]; [|done]. cbn. rewrite list_lookup_fmap.
    destruct (p_threads p !! j) as [th|]; [|done]. cbn.
    destruct (refresh_futex_thread_life (p_futex p) th) as [H1 [H2|H2]]; split; auto.
  - destruct (s_procs s !! i) as [p|]; [|done]. cbn. destruct (p_threads p !! j); [|done]. split; [done|by left].
Qed.

Lemma evolve_refresh_io_thread node slot : evolve refresh_step (refresh_io_thread node slot).
Proof.
  assert (∀ s s' o, refresh_io_thread node slot s = (s', o) →
    one_change (λ _ th v, io_step th (life (pending_syscall th)) (life v)) s s') as Hch.
  { intros s s' o. unfold refresh_io_thread. rewrite process_bind.
    destruct (s_procs s !! node) as [p|] eqn:Hp; [|stay]. destruct (p_threads p !! slot) as [th|] eqn:Hth; [|stay].
    destruct (pending_syscall th) as [q|] eqn:Hq; [|stay].
    destruct (alive th) eqn:Ha, (bool_decide_reflect (reason q = PrIo)) as [Hio|],
      (bool_decide_reflect (phase q = Ready)) as [|Hph]; cbn [negb orb]; try stay.
    rewrite bind_run. destruct (io_retry_ready node _ s) as [s1 [ready|]] eqn:E; apply (keeps_quiet _ (quiet_retry_ready _ _)) in E;
      [|intros [= <- <-]; by left].
    intros H. apply (one_change_after _ s s1 s' E). eapply stores_one_change; [exact H|apply stores_store| |].
    - unfold thread_at in *. rewrite E. unfold threads_of. rewrite list_lookup_fmap, Hp. exact Hth.
    - split; [done|]. exists (id_of q). rewrite Hq. unfold life, unfinished. cbn [phase].
      destruct (phase q), ready; naive_solver. }
  eapply evolve_change; [exact Hch|]. intros i th v H. by right; right.
Qed.

Lemma evolve_refresh_io node slots : evolve refresh_step (refresh_io node slots).
Proof.
  induction slots as [|slot slots IH]; cbn [refresh_io]; [apply evolve_keeps, keeps_quiet, quiet_ret|].
  apply evolve_seq; [apply refresh_step_trans|apply refresh_step_same|apply evolve_refresh_io_thread|done].
Qed.

Lemma evolve_refresh_node node : evolve refresh_step (refresh_node node).
Proof.
  unfold refresh_node. apply evolve_seq; [apply refresh_step_trans|apply refresh_step_same| |].
  - intros s s' o H%evolve_refresh_futex i j. specialize (H i j).
    destruct (thread_at s i j), (thread_at s' i j); try done.
    destruct H as [H1 [H2|[_ H2]]]; split; auto. by right; left.
  - intros _. apply evolve_bind; [apply keeps_quiet, quiet_process|]. intros p.
    apply evolve_then_quiet; [apply evolve_refresh_io|]. intros. apply evolve_keeps, keeps_sync.
Qed.

Lemma evolve_refresh_nodes nodes : evolve refresh_step (refresh_nodes nodes).
Proof.
  induction nodes as [|node nodes IH]; cbn [refresh_nodes]; [apply evolve_keeps, keeps_quiet, quiet_ret|].
  apply evolve_seq; [apply refresh_step_trans|apply refresh_step_same|apply evolve_refresh_node|done].
Qed.

(** *** The blocked flags *)

(** The flags of every node, or of every node but one, agree with its threads. *)
Definition synced (v : list thread_state * list bool) : Prop := v.2 = blocked_flags v.1.
Definition in_sync s : Prop := ∀ i v, view_of s !! i = Some v → synced v.
Definition unsynced (node : nat) s : Prop := ∀ i v, i ≠ node → view_of s !! i = Some v → synced v.

Definition triple {A} (P Q : Sim FD Mem → Prop) (m : M (Sim FD Mem) A) : Prop :=
  ∀ s s' a, P s → m s = (s', Ret a) → Q s'.

Lemma triple_bind {A B} P Q R (m : M (Sim FD Mem) A) (f : A → M (Sim FD Mem) B) :
  triple P Q m → (∀ a, triple Q R (f a)) → triple P R (m ≫= f).
Proof.
  intros Hm Hf s s' b HP (s1 & a & H1 & H2)%bind_Ret_inv. eapply Hf; [|exact H2]. by eapply Hm.
Qed.

Lemma triple_quiet {A} (m : M (Sim FD Mem) A) : quiet m → triple in_sync in_sync m.
Proof. intros Hm s s' a HP H i v. rewrite (Hm _ _ _ H). apply HP. Qed.
Lemma unsynced_quiet {A} node (m : M (Sim FD Mem) A) : quiet m → triple (unsynced node) (unsynced node) m.
Proof. intros Hm s s' a HP H i v. rewrite (Hm _ _ _ H). apply HP. Qed.

Lemma unsynced_weaken {A} node Q (m : M (Sim FD Mem) A) : triple (unsynced node) Q m → triple in_sync Q m.
Proof. intros Hm s s' a HP. apply Hm. intros i v _. apply HP. Qed.

Lemma view_upd node g s i :
  view_of (set_procs (alter g node (s_procs s)) s) !! i =
    if decide (i = node) then (λ p, (p_threads (g p), thread_blocked (g p))) <$> s_procs s !! node
    else view_of s !! i.
Proof.
  unfold view_of, set_procs. cbn [s_procs]. rewrite !list_lookup_fmap, list_lookup_alter.
  destruct (decide (node = i)) as [->|]; [|by rewrite decide_False].
  rewrite decide_True by done. by destruct (s_procs s !! i).
Qed.

Lemma unsynced_upd node g : triple (unsynced node) (unsynced node) (upd_proc node g).
Proof.
  intros s s' a HP [= <-] i v Hi. rewrite view_upd, decide_False by done. by apply HP.
Qed.

Lemma sync_in_sync node : triple (unsynced node) in_sync (sync_pending_blocked node).
Proof.
  unfold sync_pending_blocked. eapply triple_bind; [apply unsynced_quiet, quiet_process|].
  intros _ s s' a HP [= <-] i v. rewrite view_upd. destruct (decide (i = node)) as [->|]; [|by apply HP].
  destruct (s_procs s !! node); [|done]. by intros [= <-].
Qed.

Lemma store_sync {B} node slot v (k : M (Sim FD Mem) B) :
  triple (unsynced node) in_sync k → triple in_sync in_sync (store_pending node slot v;; k).
Proof.
  intros Hk. apply (unsynced_weaken node). eapply triple_bind; [apply unsynced_upd|]. by intros _.
Qed.

Lemma blocked_flags_alter slot g l :
  (∀ th, l !! slot = Some th → is_blocked (g th) = is_blocked th) → blocked_flags (alter g slot l) = blocked_flags l.
Proof.
  intros Hg. unfold blocked_flags. apply list_fmap_ext. intros _ i _. rewrite list_lookup_alter.
  destruct (decide (slot = i)) as [->|]; [|done]. destruct (l !! i) as [th|]; [|done]. cbn. by apply Hg.
Qed.

Lemma deadline_sync node t d : triple in_sync in_sync (set_pending_deadline node t d).
Proof.
  intros s s' a HP. unfold set_pending_deadline. rewrite lift_bind_run.
  destruct (validate_deadline d); [|done]. rewrite guard_run. destruct (INT64_MAX <? ktime d); [done|].
  rewrite process_bind. destruct (s_procs s !! node) as [p|] eqn:Hp; [|done].
  destruct (find_thread t (p_threads p)) as [[slot th]|] eqn:Hf; [|done].
  apply list_find_Some in Hf as (Hth & _).
  destruct (pending_syscall th) as [q|] eqn:Hq; [|done].
  rewrite guard_run. destruct (bool_decide (phase q = Ready)); [done|].
  rewrite lift_bind_run. destruct (validate_timed_pending _ d); [|done].
  intros [= <-] i v. rewrite view_upd. destruct (decide (i = node)) as [->|]; [|by apply HP].
  rewrite Hp. intros [= <-]. unfold synced. cbn [fst snd set_threads p_threads thread_blocked].
  rewrite blocked_flags_alter.
  - apply (HP node (p_threads p, thread_blocked p)). unfold view_of. by rewrite list_lookup_fmap, Hp.
  - intros th' Hth'. simplify_eq. unfold is_blocked. cbn. by rewrite Hq.
Qed.

Lemma arm_sync node t a b msg : triple in_sync in_sync (arm_deadline node t a b msg).
Proof.
  unfold arm_deadline. eapply triple_bind; [apply triple_quiet; hush|]. intros p.
  eapply triple_bind; [apply triple_quiet; hush|]. intros d.
  destruct (bound_thread t (p_threads p)) as [[? ?]|]; [apply deadline_sync|apply triple_quiet; hush].
Qed.

Lemma suspend_sync node t info why : triple in_sync in_sync (suspend_syscall node t info why).
Proof.
  unfold suspend_syscall, actor. eapply triple_bind; [apply triple_quiet; hush|]. intros [slot th].
  do 2 (eapply triple_bind; [apply triple_quiet; hush|]; intros _).
  apply store_sync. eapply triple_bind; [apply sync_in_sync|]. intros _. apply triple_quiet. hush.
Qed.

Lemma ready_sync node t r : triple in_sync in_sync (ready_syscall node t r).
Proof.
  unfold ready_syscall. eapply triple_bind; [apply triple_quiet; hush|]. intros p.
  destruct (find_thread t (p_threads p)) as [[slot th]|]; [|apply triple_quiet; hush].
  destruct (pending_syscall th) as [q|]; [|apply triple_quiet; hush].
  eapply triple_bind; [apply triple_quiet; hush|]. intros _.
  eapply triple_bind; [apply triple_quiet; hush|]. intros _.
  apply store_sync, sync_in_sync.
Qed.

Lemma expire_sync node t : triple in_sync in_sync (expire_pending_syscall node t).
Proof.
  unfold expire_pending_syscall. eapply triple_bind; [apply triple_quiet; hush|]. intros due.
  destruct (negb due); [apply triple_quiet; hush|].
  eapply triple_bind; [apply triple_quiet; hush|]. intros p.
  destruct (_ ≫= _) as [d|]; [|apply triple_quiet; hush].
  eapply triple_bind; [apply ready_sync|]. intros _. apply triple_quiet. hush.
Qed.

Lemma finish_sync node slot t q r : triple in_sync in_sync (finish node slot t q r).
Proof.
  unfold finish. eapply triple_bind; [apply triple_quiet; hush|]. intros _.
  apply store_sync. eapply triple_bind; [apply sync_in_sync|]. intros _. apply triple_quiet. hush.
Qed.

Lemma complete_sync node t : triple in_sync in_sync (complete_pending_syscall inet_pton now node t).
Proof.
  unfold complete_pending_syscall, actor. eapply triple_bind; [apply triple_quiet; hush|]. intros p.
  destruct (bool_decide _); [apply triple_quiet; hush|].
  eapply triple_bind; [apply triple_quiet; hush|]. intros [slot th].
  destruct (pending_syscall th) as [q|]; [|apply triple_quiet; hush].
  destruct (phase q); [apply triple_quiet; hush| |];
    (eapply triple_bind; [apply triple_quiet; hush|]; intros _;
     eapply triple_bind; [apply triple_quiet; hush|]; intros _).
  - eapply triple_bind; [apply triple_quiet; hush|]. intros [v|]; [apply finish_sync|].
    apply store_sync. eapply triple_bind; [apply unsynced_quiet; hush|]. intros _.
    eapply triple_bind; [apply sync_in_sync|]. intros _. apply triple_quiet. hush.
  - apply finish_sync.
Qed.

Lemma pselect_sync node t info : triple in_sync in_sync (start_pselect_timer node t info).
Proof.
  assert (∀ a b, triple in_sync in_sync (pselect_wait node t info a b)) as Hwait.
  { intros a b. unfold pselect_wait. eapply triple_bind; [apply suspend_sync|]. intros c.
    eapply triple_bind; [apply arm_sync|]. intros _. apply triple_quiet. hush. }
  assert (∀ r, triple in_sync in_sync (pselect_result t r info)) as Hres.
  { intros r. apply triple_quiet. unfold pselect_result. hush. }
  unfold start_pselect_timer. do 2 (eapply triple_bind;
    [apply triple_quiet; unfold validate_pselect_mask_wrapper, node_read; hush|]; intros _).
  eapply triple_bind; [apply triple_quiet; unfold pselect_timeout, node_read; hush|].
  intros [e|[a b]]; [apply Hres|]. cbv zeta. destruct (negb (int32 _ =? 0)).
  - eapply triple_bind; [apply triple_quiet; hush|]. intros ready.
    repeat case_match; auto using suspend_sync.
  - repeat case_match; auto using suspend_sync.
Qed.

Lemma refresh_futex_sync node : triple in_sync in_sync (refresh_futex_pending node).
Proof.
  unfold refresh_futex_pending. eapply triple_bind; [apply triple_quiet; hush|]. intros _.
  apply (unsynced_weaken node). eapply triple_bind; [apply unsynced_upd|]. intros _. apply sync_in_sync.
Qed.

Lemma refresh_io_sync node slots : triple (unsynced node) (unsynced node) (refresh_io node slots).
Proof.
  induction slots as [|slot slots IH]; cbn [refresh_io]; [apply unsynced_quiet; hush|].
  eapply triple_bind; [|intros _; exact IH]. unfold refresh_io_thread.
  eapply triple_bind; [apply unsynced_quiet; hush|]. intros p.
  destruct (p_threads p !! slot) as [th|]; [|apply unsynced_quiet; hush].
  destruct (pending_syscall th) as [q|]; [|apply unsynced_quiet; hush].
  destruct (_ || _); [apply unsynced_quiet; hush|].
  eapply triple_bind; [apply unsynced_quiet; hush|]. intros ready. apply unsynced_upd.
Qed.

Lemma refresh_nodes_sync nodes : triple in_sync in_sync (refresh_nodes nodes).
Proof.
  induction nodes as [|node nodes IH]; cbn [refresh_nodes]; [apply triple_quiet; hush|].
  eapply triple_bind; [|intros _; exact IH]. unfold refresh_node.
  eapply triple_bind; [apply refresh_futex_sync|]. intros _.
  eapply triple_bind; [apply triple_quiet; hush|]. intros p. apply (unsynced_weaken node).
  eapply triple_bind; [apply refresh_io_sync|]. intros _. apply sync_in_sync.
Qed.

Lemma evolve_op op : evolve (may_step op) (block_exec op).
Proof.
  assert (∀ A Q (m : M (Sim FD Mem) A), evolve Q m → evolve Q (discard m)) as Hdis.
  { intros A Q m Hm. unfold discard. apply evolve_then_quiet; [done|]. intros. apply evolve_keeps, keeps_quiet, quiet_ret. }
  destruct op as [node t info why|node t d|node t info|node t r|node t|node t|node| |node t info]; cbn [block_exec].
  - apply Hdis. eapply evolve_change; [apply suspend_change|]. intros i th v (-> & H1 & H2 & H3 & H4). by right.
  - eapply evolve_change; [apply deadline_change|]. intros i th v H. by left.
  - eapply evolve_change; [apply configure_change|]. intros i th v H. by left.
  - intros s s' o H%ready_change. eapply one_change_evolves; [|exact H].
    intros i th v [(-> & H1 & H2 & H3) _]. by right.
  - apply Hdis. eapply evolve_change; [apply expire_change|].
    intros i th v (d & Hd & -> & H1 & H2 & c & H3 & H4). right. split; [done|]. split_and!; try done. by exists c, d.
  - apply Hdis. eapply evolve_change; [apply complete_change|]. intros i th v (-> & H1 & H2 & H3). by right.
  - intros s s' o H%evolve_refresh_futex i j. specialize (H i j).
    destruct (thread_at s i j), (thread_at s' i j); try done. destruct H as [H1 [H2|(-> & H2 & H3)]]; split; auto.
    by right.
  - apply evolve_bind; [apply keeps_quiet, quiet_get|]. intros s0 s s' o H%evolve_refresh_nodes i j.
    specialize (H i j). destruct (thread_at s i j), (thread_at s' i j); try done.
    destruct H as [H1 [H2|[[H2 H3]|[H2 H3]]]]; split; auto; right; split; auto.
  - apply Hdis, evolve_pselect.
Qed.

Lemma op_sync op : triple in_sync in_sync (block_exec op).
Proof.
  assert (∀ A (m : M (Sim FD Mem) A), triple in_sync in_sync m → triple in_sync in_sync (discard m)) as Hdis.
  { intros A m Hm. eapply triple_bind; [done|]. intros. apply triple_quiet. hush. }
  destruct op; cbn [block_exec]; auto using suspend_sync, deadline_sync, ready_sync, expire_sync, complete_sync,
    refresh_futex_sync, pselect_sync.
  - unfold configure_pending_io. eapply triple_bind; [apply triple_quiet; hush|].
    intros [[a b]|]; [apply arm_sync|apply triple_quiet; hush].
  - unfold refresh_pending_syscalls. eapply triple_bind; [apply triple_quiet; hush|]. intros. apply refresh_nodes_sync.
Qed.

(** C26. Blocked calls follow their life cycle: whatever operation runs, on
    whatever state and with whatever outcome, every thread keeps its identity
    and its call either stays in its abstract state or takes the one step the
    operation is allowed to take for that thread: suspending starts a wait or
    repeats the very call that was being retried; only a wake-up, an expired
    deadline or an explicit grant gives a result, always to an unfinished
    call; readiness moves an I/O call between waiting and retryable; and only
    a granted call, or a retryable I/O call, can end.  No operation on one
    thread touches another's call, and setting deadlines changes no state.
    When the operation succeeds, the blocked flag the scheduler reads is set
    for exactly the live threads whose call is waiting. *)
Theorem blocked_call_refines op s s' o :
  block_exec op s = (s', o) →
  evolves (may_step op) s s' ∧ (o = Ret tt → in_sync s → in_sync s').
Proof.
  intros H. split; [by eapply evolve_op|]. intros -> Hs. by eapply op_sync.
Qed.
End life.

(** A node with one blocked reader of an empty pipe. *)
Definition sample_blocked : Sim FdManager FlatMem :=
  mkSim [mkNode sample_pipe.1 SockState_init []]
    [mkProcess [mkThread 1 100 true (Some (mkPending Waiting PrIo SYS_read [3; 4096; 8; 0; 0; 0] 0 None))]
       None (mkTimeval 0 0) (blocked_flags [mkThread 1 100 true
         (Some (mkPending Waiting PrIo SYS_read [3; 4096; 8; 0; 0; 0] 0 None))]) 100 0 false sample_memory]
    0 5 0 (-1) ∅.

Lemma blocked_call_refines_witness :
  evolves (may_step (OpReady 0 1 (-4))) sample_blocked
    (block_exec sample_pton (mkTimespec 0 0) (OpReady 0 1 (-4)) sample_blocked).1 ∧
  in_sync (block_exec sample_pton (mkTimespec 0 0) (OpReady 0 1 (-4)) sample_blocked).1.
Proof.
  assert ((block_exec sample_pton (mkTimespec 0 0) (OpReady 0 1 (-4)) sample_blocked).2 = Ret tt) as Ho
    by (vm_compute; reflexivity).
  destruct (blocked_call_refines sample_pton (mkTimespec 0 0) (OpReady 0 1 (-4)) sample_blocked _ _
    (surjective_pairing _)) as [H1 H2]. split; [exact H1|]. apply H2; [exact Ho|].
  intros [|i] v; [|done]. by intros [= <-].
Defined.
