(* ===== verification/RetryProps.v ===== *)
(** * Retrying blocked I/O

    The test that decides whether a blocked read, write or accept may be
    tried again agrees with what the retry would do. *)

From S2P Require Import Prelude Linux Bytes FdInterface FdManager Guest Vfs VfsOps VfsMeta Pipe Net Transfer NetProps Futex Pending Io Blocking BlockingProps.

Section retry.
Context {FD : Type} `{!DescriptorNamespace FD} {Mem : Type} `{!ProcessVm Mem}.
Context (inet_pton : str → option Z) (now : timespec).
Implicit Types w : World FD Mem.

Abbreviation again := (Ret (- EAGAIN)).

Ltac unmonad_mem := unmonad; unfold guest_read, guest_write in *.
Ltac result := repeat (case_match; simplify_eq/=); try done.

Lemma recv_again fd buf len flags w n sock conn :
  w_nodes w !! w_cursor w = Some n → sockets_ (n_sock n) !! fd = Some sock → connected sock = true →
  tcp_connections_ (n_sock n) !! fd = Some conn → 0 < len →
  has flags (Z.lnot (Z.lor MSG_DONTWAIT MSG_PEEK)) = false →
  (do_recv fd buf len flags w).2 = again ↔ recv_buffer conn = [].
Proof.
  intros Hn Hs Hc Ht Hlen Hf. unfold do_recv, with_socket, here, on_here. unmonad_mem.
  rewrite Hf, Hn, Hs, Hc, Ht. cbn [negb]. rewrite (proj2 (Z.eqb_neq len 0)) by lia.
  destruct (recv_buffer conn) as [|data rest]; [done|]. split; [|done].
  destruct (bool_decide (data = [])); [done|].
  destruct (guest_write_exact _ _ _) as [m ok]. destruct ok; cbn [negb]; [|done].
  pose proof (zlength_nonneg data). unfold EAGAIN. destruct (has flags MSG_PEEK); cbn; intros [=]; lia.
Qed.

Lemma copy_address_again a out len w : (copy_socket_address a out len w).2 ≠ again.
Proof. unfold copy_socket_address. unmonad_mem. result. Qed.

Lemma recvfrom_copyout_again a out len w : (recvfrom_copyout a out len w).2 ≠ again.
Proof. unfold recvfrom_copyout. unmonad_mem. result. Qed.

Lemma recvfrom_again fd buf len flags src alen w n sock :
  w_nodes w !! w_cursor w = Some n → sockets_ (n_sock n) !! fd = Some sock → sk_type sock = SOCK_DGRAM → 0 ≤ len →
  has flags (Z.lnot (Z.lor MSG_DONTWAIT (Z.lor MSG_PEEK MSG_TRUNC))) = false →
  (do_recvfrom fd buf len flags src alen w).2 = again ↔ default [] (udp_recv_buffers_ (n_sock n) !! fd) = [].
Proof.
  intros Hn Hs Ht Hlen Hf. unfold do_recvfrom, do_recvfrom_with_choice, with_socket, here, on_here. unmonad_mem.
  rewrite Hf, Hn, Hs, Ht. change (SOCK_DGRAM =? SOCK_STREAM) with false. change (SOCK_DGRAM =? SOCK_DGRAM) with true.
  cbn [negb]. set (queue := default [] _). destruct (bool_decide_reflect (queue = [])) as [->|Hq]; [done|].
  split; [|done]. change ((0 <? 0) || (1 <? 0)) with false. change (0 =? 1) with false. cbn [andb].
  destruct (queue !! chosen 0 queue) as [dg|]; [|done].
  destruct (guest_write_exact _ _ _) as [m ok]. destruct ok; cbn [negb]; [|done].
  pose proof (recvfrom_copyout_again (dg_from dg) src alen (set_mem m w)) as Hc.
  destruct (recvfrom_copyout _ _ _ _) as [w1 [r|e]]; [|done]. cbn in Hc.
  destruct (Z.eqb_spec r 0); cbn [negb]; [|by intros [= ->]].
  pose proof (zlength_nonneg (dg_content dg)). unfold EAGAIN.
  destruct (has flags MSG_PEEK), (has flags MSG_TRUNC); cbn; intros [=]; lia.
Qed.

Lemma accept_again fd addr alen w n sock :
  w_nodes w !! w_cursor w = Some n → sockets_ (n_sock n) !! fd = Some sock → sk_type sock = SOCK_STREAM →
  listening sock = true →
  (do_accept fd addr alen w).2 = again ↔ pending_connections sock = [].
Proof.
  intros Hn Hs Ht Hl. unfold do_accept, with_socket, here, on_here. unmonad_mem.
  rewrite Hn, Hs, Ht, Hl. change (SOCK_STREAM =? SOCK_STREAM) with true. cbn [negb].
  destruct (pending_connections sock) as [|key rest]; [done|]. split; [|done].
  destruct (established_connections sock !! key) as [c|]; [|done].
  assert ((accept_copyout (c_local_addr c) addr alen w).2 ≠ again) as Hc.
  { unfold accept_copyout. destruct (addr =? 0); [done|]. apply copy_address_again. }
  destruct (accept_copyout _ _ _ w) as [w1 [r|e]]; [|done]. cbn in Hc.
  destruct (Z.eqb_spec r 0) as [->|]; cbn [negb]; [|by intros [= ->]].
  destruct (on_ctx _ w1) as [w2 [fd'|e]]; [|done].
  destruct (Z.ltb_spec fd' 0); [done|]. unfold EAGAIN. cbn. intros [=]. lia.
Qed.

Lemma then_result {A B} (m : M (World FD Mem) A) (k : M (World FD Mem) B) (r : Z) w :
  ((m;; k;; mret r) w).2 = Ret r ∨ ∃ x, ((m;; k;; mret r) w).2 = Throw x.
Proof.
  rewrite bind_run. destruct (m w) as [w1 [a|e]]; [|right; by eexists].
  rewrite bind_run. destruct (k w1) as [w2 [b|e]]; [by left|right; by eexists].
Qed.

Lemma accept4_again fd addr alen flags w n sock :
  w_nodes w !! w_cursor w = Some n → sockets_ (n_sock n) !! fd = Some sock → sk_type sock = SOCK_STREAM →
  listening sock = true → has flags (Z.lnot (Z.lor SOCK_NONBLOCK SOCK_CLOEXEC)) = false →
  (emu_accept4 fd addr alen flags w).2 = again ↔ pending_connections sock = [].
Proof.
  intros Hn Hs Ht Hl Hf. rewrite <- (accept_again fd addr alen w n sock Hn Hs Ht Hl).
  unfold emu_accept4. rewrite Hf. rewrite bind_run. destruct (do_accept fd addr alen w) as [w1 [r|e]]; [|done].
  destruct (Z.ltb_spec r 0); [done|]. cbn [snd]. cbv zeta.
  match goal with |- (?m w1).2 = _ ↔ _ => destruct (then_result _ _ r w1 : (m w1).2 = _ ∨ _) as [->|[x ->]] end;
    unfold EAGAIN; split; intros [=]; lia.
Qed.

Lemma pipe_read_again fd buf count (km : FsCtx FD * Mem) id p :
  pipe_end km.1 fd = Some id → 0 < id → pipes_ (fss km.1) !! id = Some p → 0 < count →
  (do_pipe_read fd buf count km).2 = again ↔ buffer p = [] ∧ write_closed p = false.
Proof.
  intros He Hid Hp Hc. unfold do_pipe_read. unmonad_mem.
  rewrite He, (proj2 (Z.ltb_ge id 0)), Hp, (proj2 (Z.eqb_neq count 0)) by lia.
  destruct (bool_decide_reflect (buffer p = [])) as [->|Hb].
  { destruct (write_closed p); cbn; split; try done. by intros [_ [=]]. }
  pose proof (zlength_nonneg (buffer p)).
  destruct (guest_write_exact _ _ _) as [m ok]. destruct ok; cbn; unfold EAGAIN; split; try (intros [=]; lia); by intros [? _].
Qed.

Lemma pipe_write_again fd buf count (km : FsCtx FD * Mem) id p :
  pipe_end km.1 fd = Some id → id < 0 → pipes_ (fss km.1) !! (- id) = Some p → 0 < count ≤ pipe_atomic_limit →
  zlength (buffer p) ≤ pipe_capacity →
  (do_pipe_write fd buf count km).2 = again ↔
    read_closed p = false ∧ uint64 (pipe_capacity - zlength (buffer p)) < count.
Proof.
  intros He Hid Hp Hc Hcap. unfold do_pipe_write. unmonad_mem. unfold pipe_atomic_limit, pipe_capacity in *.
  rewrite He, (proj2 (Z.ltb_ge 0 id)), Hp, (proj2 (Z.eqb_neq count 0)) by lia.
  destruct (read_closed p); [split; [done|by intros [[=] _]]|].
  rewrite (proj2 (Z.ltb_ge SSIZE_MAX count)) by (unfold SSIZE_MAX, INT64_MAX; lia).
  rewrite (proj2 (Z.ltb_ge 4096 count)), (proj2 (Z.leb_le count 4096)) by lia. cbn [andb].
  pose proof (zlength_nonneg (buffer p)). rewrite uint64_small by (unfold UINT64_MAX; lia).
  destruct (Z.eqb_spec (65536 - zlength (buffer p)) 0) as [->|Hz]; cbn [orb].
  { split; [|done]. intros _. split; [done|lia]. }
  destruct (Z.ltb_spec (65536 - zlength (buffer p)) count) as [Hlt|Hge]; [done|].
  destruct (guest_read_exact _ _ _); cbn; unfold EAGAIN; split; try (intros [=]; lia); intros [_ ?]; lia.
Qed.

(** The calls that can block, and the state of their descriptor. *)
Definition can_block (t : FD) (n : Node FD) (call : syscall_info) : Prop :=
  let a := i_args call in
  let fd := int32 (arg a 0) in
  let fs := fss (n_ctx n) in
  match get_fd_type t fd with
  | PIPE => ∃ id p, pipe_fds_ fs !! fd = Some id ∧ pipes_ fs !! Z.abs id = Some p ∧ zlength (buffer p) ≤ pipe_capacity ∧
      ((i_nr call = SYS_read ∧ 0 < id ∧ 0 < arg a 2) ∨
       (i_nr call = SYS_write ∧ id < 0 ∧ 0 < arg a 2 ≤ pipe_atomic_limit))
  | SOCKET => ∃ sock, sockets_ (n_sock n) !! fd = Some sock ∧
      (((i_nr call = SYS_read ∨ i_nr call = SYS_recvfrom) ∧
        (i_nr call = SYS_recvfrom → has (int32 (arg a 3)) (Z.lnot (Z.lor MSG_DONTWAIT MSG_PEEK)) = false) ∧
        ((sk_type sock = SOCK_DGRAM ∧ 0 ≤ arg a 2) ∨
         (sk_type sock = SOCK_STREAM ∧ connected sock = true ∧ listening sock = false ∧
          is_Some (tcp_connections_ (n_sock n) !! fd) ∧ 0 < arg a 2 ∧
          (i_nr call = SYS_recvfrom → arg a 4 = 0 ∧ arg a 5 = 0)))) ∨
       ((i_nr call = SYS_accept ∨ i_nr call = SYS_accept4) ∧
        sk_type sock = SOCK_STREAM ∧ listening sock = true ∧
        (i_nr call = SYS_accept4 → has (int32 (arg a 3)) (Z.lnot (Z.lor SOCK_NONBLOCK SOCK_CLOEXEC)) = false)))
  | _ => False
  end.

Lemma descriptors_run {B} w n t (f : FD → M (World FD Mem) B) :
  w_nodes w !! w_cursor w = Some n → fdm (n_ctx n) = Some t → (descriptors ≫= f) w = f t w.
Proof. intros Hn Ht. unfold descriptors, here. unmonad_mem. by rewrite Hn, Ht. Qed.

Lemma with_kind_run w n t fd g :
  w_nodes w !! w_cursor w = Some n → fdm (n_ctx n) = Some t → is_allocated t fd = true →
  with_kind fd g w = g t (get_fd_type t fd) w.
Proof. intros Hn Ht Ha. unfold with_kind. rewrite (descriptors_run w n t _ Hn Ht), Ha. done. Qed.

Lemma payload_run {B} w n fd sock (f : Socket → M (World FD Mem) B) :
  w_nodes w !! w_cursor w = Some n → sockets_ (n_sock n) !! fd = Some sock → (payload fd ≫= f) w = f sock w.
Proof. intros Hn Hs. unfold payload, network, here. unmonad_mem. by rewrite Hn, Hs. Qed.

Lemma on_ctx_mem_result {A} (m : M (FsCtx FD * Mem) A) w n :
  w_nodes w !! w_cursor w = Some n → (on_ctx_mem m w).2 = (m (n_ctx n, w_mem w)).2.
Proof. intros Hn. unfold on_ctx_mem. rewrite Hn. by destruct (m _) as [km o]. Qed.

Lemma dgram_flags flags :
  has flags (Z.lnot (Z.lor MSG_DONTWAIT MSG_PEEK)) = false →
  has flags (Z.lnot (Z.lor MSG_DONTWAIT (Z.lor MSG_PEEK MSG_TRUNC))) = false.
Proof.
  rewrite !has_false. intros Hf. apply Z.bits_inj'. intros i Hi.
  pose proof (f_equal (λ z, Z.testbit z i) Hf) as Hb. cbn beta in Hb.
  rewrite Z.land_spec, Z.lnot_spec, Z.bits_0 in * by done. rewrite !Z.lor_spec in *.
  destruct (Z.testbit flags i), (Z.testbit MSG_DONTWAIT i), (Z.testbit MSG_PEEK i), (Z.testbit MSG_TRUNC i); done.
Qed.

Lemma recvfrom_stream fd buf len flags w n sock :
  w_nodes w !! w_cursor w = Some n → sockets_ (n_sock n) !! fd = Some sock → sk_type sock = SOCK_STREAM →
  has flags (Z.lnot (Z.lor MSG_DONTWAIT MSG_PEEK)) = false →
  do_recvfrom fd buf len flags 0 0 w = do_recv fd buf len flags w.
Proof.
  intros Hn Hs Ht Hf. unfold do_recvfrom, do_recvfrom_with_choice, with_socket, here. unmonad_mem.
  rewrite (dgram_flags _ Hf).
  rewrite Hn, Hs, Ht. change (SOCK_STREAM =? SOCK_STREAM) with true. done.
Qed.

(** What a blocked reader of a socket sees. *)
Lemma stream_ready fd n sock conn :
  sockets_ (n_sock n) !! fd = Some sock → sk_type sock = SOCK_STREAM → connected sock = true → listening sock = false →
  tcp_connections_ (n_sock n) !! fd = Some conn →
  has (ready_events (n_sock n) (fss (n_ctx (FD:=FD) n)) fd) read_ready_mask = negb (bool_decide (recv_buffer conn = [])).
Proof.
  intros Hs Ht Hc Hl Hco. unfold ready_events, socket_ready. rewrite Hs, Ht, Hl, Hc, Hco.
  change (SOCK_STREAM =? SOCK_DGRAM) with false. cbv iota.
  destruct (bool_decide_reflect (recv_buffer conn = [])) as [->|Hb]; [done|].
  by destruct (bool_decide (last (recv_buffer conn) = Some [])).
Qed.

Lemma datagram_ready fd n sock :
  sockets_ (n_sock n) !! fd = Some sock → sk_type sock = SOCK_DGRAM →
  has (ready_events (n_sock n) (fss (n_ctx (FD:=FD) n)) fd) read_ready_mask =
    negb (bool_decide (default [] (udp_recv_buffers_ (n_sock n) !! fd) = [])).
Proof.
  intros Hs Ht. unfold ready_events, socket_ready, get_udp_buffer_size. rewrite Hs, Ht.
  change (SOCK_DGRAM =? SOCK_DGRAM) with true. cbv iota.
  destruct (udp_recv_buffers_ (n_sock n) !! fd) as [[|d q]|]; done.
Qed.

Lemma listener_ready fd n sock :
  sockets_ (n_sock n) !! fd = Some sock → sk_type sock = SOCK_STREAM → listening sock = true →
  has (ready_events (n_sock n) (fss (n_ctx (FD:=FD) n)) fd) read_ready_mask =
    negb (bool_decide (pending_connections sock = [])).
Proof.
  intros Hs Ht Hl. unfold ready_events, socket_ready. rewrite Hs, Ht, Hl.
  change (SOCK_STREAM =? SOCK_DGRAM) with false. cbv iota. by destruct (bool_decide _).
Qed.

Lemma ready_negb (P : outcome Z) (Q : Prop) `{!Decision Q} :
  (P = again ↔ Q) → Ret (negb (bool_decide Q)) = Ret (negb (bool_decide (P = again))).
Proof. intros H. by rewrite (bool_decide_ext _ _ H). Qed.

Lemma pipe_retry_exact t n call w fd :
  w_nodes w !! w_cursor w = Some n → fdm (n_ctx n) = Some t → fd = int32 (arg (i_args call) 0) →
  is_allocated t fd = true → get_fd_type t fd = PIPE → can_block t n call →
  Ret (pipe_retry_ready (fss (n_ctx n)) fd (i_nr call) (arg (i_args call) 2)) =
    Ret (negb (bool_decide ((data_retry inet_pton now call w).2 = again))).
Proof.
  intros Hn Ht -> Ha Hk. unfold can_block. rewrite Hk. set (fd := int32 (arg (i_args call) 0)) in *.
  intros (id & p & Hid & Hp & Hcap & Hcase).
  unfold pipe_retry_ready, data_retry. rewrite Hid, Hp. fold fd.
  assert (pipe_end (n_ctx n) fd = Some id) as He.
  { unfold pipe_end, fd_kind. rewrite Ht, Hk. by rewrite bool_decide_true. }
  destruct Hcase as [(-> & Hpos & Hlen)|(-> & Hneg & Hlen)].
  - change (SYS_read =? SYS_write) with false. change (SYS_read =? SYS_read) with true. cbv iota.
    rewrite Z.abs_eq in Hp by lia. unfold emu_read. rewrite (with_kind_run w n t _ _ Hn Ht Ha), Hk.
    rewrite (on_ctx_mem_result _ _ n Hn).
    rewrite (bool_decide_ext _ _ (pipe_read_again _ _ _ (n_ctx n, w_mem w) id p He Hpos Hp Hlen)).
    rewrite (proj2 (Z.ltb_ge id 0)) by lia. f_equal.
    destruct (bool_decide_reflect (buffer p = [])) as [Hb|Hb], (write_closed p); cbn [negb orb];
      [rewrite bool_decide_false|rewrite bool_decide_true|rewrite bool_decide_false|rewrite bool_decide_false];
      try done; by intros [? ?].
  - change (SYS_write =? SYS_write) with true. change (SYS_write =? SYS_read) with false. cbv iota.
    rewrite Z.abs_neq in Hp by lia. unfold emu_write. rewrite (with_kind_run w n t _ _ Hn Ht Ha), Hk.
    rewrite (on_ctx_mem_result _ _ n Hn).
    rewrite (bool_decide_ext _ _ (pipe_write_again _ _ _ (n_ctx n, w_mem w) id p He Hneg Hp Hlen Hcap)).
    rewrite (proj2 (Z.ltb_ge 0 id)), (proj2 (Z.leb_le _ pipe_atomic_limit)) by lia. cbn [orb]. f_equal.
    destruct (read_closed p); [by rewrite bool_decide_false by naive_solver|].
    destruct (Z.leb_spec (arg (i_args call) 2) (uint64 (pipe_capacity - zlength (buffer p)))).
    + rewrite bool_decide_false; [done|]. intros [_ ?]. lia.
    + by rewrite bool_decide_true.
Qed.

Lemma socket_retry_exact t n call w fd :
  w_nodes w !! w_cursor w = Some n → fdm (n_ctx n) = Some t → fd = int32 (arg (i_args call) 0) →
  is_allocated t fd = true → get_fd_type t fd = SOCKET → can_block t n call →
  Ret (has (ready_events (n_sock n) (fss (n_ctx n)) fd) read_ready_mask) =
    Ret (negb (bool_decide ((data_retry inet_pton now call w).2 = again))).
Proof.
  intros Hn Ht -> Ha Hk. unfold can_block. rewrite Hk. set (fd := int32 (arg (i_args call) 0)) in *.
  intros (sock & Hs & [(Hnr & Hfl & Hcase)|(Hnr & Hst & Hl & Hfl)]); unfold data_retry; fold fd.
  - destruct Hcase as [(Hty & Hlen)|(Hty & Hc & Hl & [conn Hco] & Hlen & Hsrc)].
    + rewrite (datagram_ready fd n sock Hs Hty). apply ready_negb. destruct Hnr as [Hnr|Hnr]; rewrite Hnr.
      * change (SYS_read =? SYS_read) with true. cbv iota. unfold emu_read. rewrite (with_kind_run w n t _ _ Hn Ht Ha), Hk.
        rewrite (payload_run w n fd sock _ Hn Hs). rewrite Hty. change (SOCK_DGRAM =? SOCK_DGRAM) with true.
        by apply (recvfrom_again fd _ _ 0 0 0 w n sock).
      * specialize (Hfl Hnr). cbv beta iota. change (SYS_recvfrom =? SYS_read) with false.
        change (SYS_recvfrom =? SYS_write) with false. change (SYS_recvfrom =? SYS_recvfrom) with true. cbv iota.
        apply (recvfrom_again fd _ _ _ _ _ w n sock); try done. by apply dgram_flags.
    + rewrite (stream_ready fd n sock conn) by done. apply ready_negb. destruct Hnr as [Hnr|Hnr]; rewrite Hnr.
      * change (SYS_read =? SYS_read) with true. cbv iota. unfold emu_read. rewrite (with_kind_run w n t _ _ Hn Ht Ha), Hk.
        rewrite (payload_run w n fd sock _ Hn Hs). rewrite Hty. change (SOCK_STREAM =? SOCK_DGRAM) with false.
        by apply (recv_again fd _ _ 0 w n sock conn).
      * specialize (Hfl Hnr). destruct (Hsrc Hnr) as [-> ->]. change (SYS_recvfrom =? SYS_read) with false.
        change (SYS_recvfrom =? SYS_write) with false. change (SYS_recvfrom =? SYS_recvfrom) with true. cbv iota.
        rewrite (recvfrom_stream fd _ _ _ w n sock) by done. by apply (recv_again fd _ _ _ w n sock conn).
  - rewrite (listener_ready fd n sock) by done. apply ready_negb. destruct Hnr as [Hnr|Hnr]; rewrite Hnr.
    + by apply (accept_again fd _ _ w n sock).
    + by apply (accept4_again fd _ _ _ w n sock); auto.
Qed.

End retry.

(** ** Examples *)

Definition sample_piped : World FdManager FlatMem :=
  mkWorld [mkNode sample_pipe.1 SockState_init []] 0 sample_memory 5.

Definition sample_read : syscall_info := mkInfo SYS_read [3; 4096; 8; 0; 0; 0] 0.

Lemma sample_can_block t : fdm sample_pipe.1 = Some t → can_block t (mkNode sample_pipe.1 SockState_init []) sample_read.
Proof.
  intros Ht. unfold can_block. assert (get_fd_type t (int32 (arg (i_args sample_read) 0)) = PIPE) as ->.
  { vm_compute in Ht. injection Ht as <-. vm_compute. reflexivity. }
  exists 1, Pipe_init. split; [vm_compute; reflexivity|]. split; [vm_compute; reflexivity|]. split; [done|]. by left.
Qed.


(** A connected socket that is made to listen, with five bytes waiting: the
    bytes can be read, but a reader blocked on them is not retried, because
    readiness then looks at the queue of new connections only. *)
Definition sample_stranded : World FdManager FlatMem :=
  scheduled 0 sample_memory (on_node 0 (do_listen 5 4)
    (on_node 1 (do_send sample_pton 3 4160 5 0) sample_accepted)).

Lemma listen_strands_reader :
  (do_recv 5 4096 5 0 sample_stranded).2 = Ret 5 ∧
  match w_nodes sample_stranded !! 0%nat with
  | Some n =>
      match fdm (n_ctx n) with
      | Some t => kernel_retry_ready t (fss (n_ctx n)) (n_sock n) (mkInfo SYS_read [5; 4096; 5; 0; 0; 0] 0)
      | None => Ret true
      end
  | None => Ret true
  end = Ret false.
Proof. split; vm_compute; reflexivity. Qed.
