(* ===== verification/Registry.v ===== *)
(** * The descriptor registry and its payloads

    The descriptor table, the open files, the pipes, the sockets and the
    epoll instances are kept by different components.  The calls of
    [io.cpp] dispatch on the table and then expect the payload of that kind
    to be there; this file shows that it always is. *)

From S2P Require Import Prelude Linux Bytes FdInterface FdManager Guest Vfs VfsOps VfsMeta Pipe VfsProps VfsInv Net Transfer NetProps Futex Pending Io.

Section registry.
Context {FD : Type} `{!DescriptorNamespace FD} {Mem : Type} `{!ProcessVm Mem}.
Context (inet_pton : str → option Z) (xxhash64 : str → Z) (now : timespec).
Implicit Types w : World FD Mem.
Implicit Types n : Node FD.
Implicit Types k : FsCtx FD.

Abbreviation kindof n fd := (fd_kind (n_ctx n) fd).
Abbreviation keys m := (dom (D:=gset Z) m).

(** Every descriptor has exactly the payload of its kind, and receive buffers
    belong to sockets. *)
Record node_ok n : Prop := {
  ok_socket fd : fd ∈ keys (sockets_ (n_sock n)) ↔ kindof n fd = SOCKET;
  ok_epoll fd : fd ∈ keys (epoll_instances_ (n_sock n)) ↔ kindof n fd = EPOLL;
  ok_pipe fd : fd ∈ keys (pipe_fds_ (fss (n_ctx n))) ↔ kindof n fd = PIPE;
  ok_file fd : fd ∈ keys (open_files (fss (n_ctx n))) ↔ kindof n fd = FILE ∨ kindof n fd = STDIO;
  ok_buffers : keys (tcp_connections_ (n_sock n)) ∪ keys (udp_recv_buffers_ (n_sock n)) ⊆ keys (sockets_ (n_sock n));
}.

Definition world_ok w : Prop := ∀ i n, w_nodes w !! i = Some n → node_ok n.

(** ** Steps that create and destroy no descriptor *)

Record ctx_step k k' : Prop := {
  cs_kind fd : fd_kind k' fd = fd_kind k fd;
  cs_pipe : keys (pipe_fds_ (fss k')) = keys (pipe_fds_ (fss k));
  cs_file : keys (open_files (fss k')) = keys (open_files (fss k));
}.

Record sock_step (s s' : SockState) : Prop := {
  ss_socket : keys (sockets_ s') = keys (sockets_ s);
  ss_epoll : keys (epoll_instances_ s') = keys (epoll_instances_ s);
  ss_tcp : keys (tcp_connections_ s') ⊆ keys (tcp_connections_ s) ∪ keys (sockets_ s);
  ss_udp : keys (udp_recv_buffers_ s') ⊆ keys (udp_recv_buffers_ s) ∪ keys (sockets_ s);
}.

Definition node_step n n' : Prop := ctx_step (n_ctx n) (n_ctx n') ∧ sock_step (n_sock n) (n_sock n').

#[local] Instance ctx_step_refl : Reflexive ctx_step.
Proof. intros k. by split. Qed.
#[local] Instance ctx_step_trans : Transitive ctx_step.
Proof. intros k1 k2 k3 [] []. split; congruence. Qed.
#[local] Instance sock_step_refl : Reflexive sock_step.
Proof. intros s. split; set_solver. Qed.
#[local] Instance sock_step_trans : Transitive sock_step.
Proof. intros s1 s2 s3 [A1 A2 A3 A4] [B1 B2 B3 B4]. split; [congruence..| |]; rewrite A1 in *; set_solver. Qed.
#[local] Instance node_step_refl : Reflexive node_step.
Proof. by intros n. Qed.
#[local] Instance node_step_trans : Transitive node_step.
Proof. intros n1 n2 n3 [] []. by split; etrans. Qed.

Lemma node_step_ok n n' : node_step n n' → node_ok n → node_ok n'.
Proof.
  intros [[K P F] [S E T U]] [O1 O2 O3 O4 O5].
  split; try (intros fd; rewrite ?S, ?E, ?P, ?F, K; auto). set_solver.
Qed.

Definition world_step w w' : Prop := w_cursor w' = w_cursor w ∧ Forall2 node_step (w_nodes w) (w_nodes w').

#[local] Instance world_step_refl : Reflexive world_step.
Proof. intros w. by split. Qed.
#[local] Instance world_step_trans : Transitive world_step.
Proof. intros w1 w2 w3 [C1 F1] [C2 F2]. split; [congruence|by etrans]. Qed.

Lemma world_step_ok w w' : world_step w w' → world_ok w → world_ok w'.
Proof.
  intros [_ HF] Hok i n' Hn'. destruct (Forall2_lookup_r _ _ _ _ _ HF Hn') as (n & Hn & Hs).
  by eapply node_step_ok, Hok.
Qed.

(** Computations all of whose runs are such steps. *)
Definition stable {A} (m : M (World FD Mem) A) : Prop := ∀ w w' o, m w = (w', o) → world_step w w'.
Definition ctx_stable {A} (m : M (FsCtx FD) A) : Prop := ∀ k k' o, m k = (k', o) → ctx_step k k'.

Lemma stable_bind {A B} (m : M (World FD Mem) A) (f : A → M (World FD Mem) B) :
  stable m → (∀ a, stable (f a)) → stable (m ≫= f).
Proof.
  intros Hm Hf w w' o. rewrite bind_run. destruct (m w) as [w1 [a|e]] eqn:E; apply Hm in E.
  - intros H%Hf. by etrans.
  - by intros [= <- <-].
Qed.

Lemma stable_same {A} (f : World FD Mem → outcome A) : stable (λ w, (w, f w)).
Proof. intros w w' o. by intros [= <- <-]. Qed.
Lemma stable_ret {A} (a : A) : stable (mret a).
Proof. apply (stable_same (λ _, Ret a)). Qed.
Lemma stable_throw {A} e : stable (throw (A:=A) e).
Proof. apply (stable_same (λ _, Throw e)). Qed.
Lemma stable_lift {A} (o : outcome A) : stable (lift o).
Proof. apply (stable_same (λ _, o)). Qed.
Lemma stable_get : stable get.
Proof. apply (stable_same Ret). Qed.
Lemma stable_throw_if c e : stable (throw_if c e).
Proof. destruct c; [apply stable_throw|apply stable_ret]. Qed.
Lemma stable_here : stable here.
Proof. intros w w' o. unfold here. destruct (w_nodes w !! w_cursor w); by intros [= <- <-]. Qed.
Lemma stable_read a l : stable (guest_read a l).
Proof. intros w w' o. by intros [= <- <-]. Qed.
Lemma stable_write a bs : stable (guest_write a bs).
Proof.
  intros w w' o. unfold guest_write. destruct (guest_write_exact _ _ _). intros [= <- <-]. by split.
Qed.
Lemma stable_budget c : stable (consume_model_budget c).
Proof. unfold consume_model_budget. destruct (c <=? 0); [apply stable_ret|]. intros w w' o [= <- <-]. by split. Qed.

Lemma alter_step i g w : (∀ n, w_nodes w !! i = Some n → node_step n (g n)) →
  Forall2 node_step (w_nodes w) (alter g i (w_nodes w)).
Proof.
  intros Hg. apply Forall2_same_length_lookup. split; [by rewrite length_alter|].
  intros j x y Hx. rewrite list_lookup_alter. destruct (decide (i = j)) as [->|].
  - rewrite Hx. intros [= <-]. by apply Hg.
  - rewrite Hx. by intros [= <-].
Qed.

Lemma upd_sock_step i g w :
  (∀ n, w_nodes w !! i = Some n → sock_step (n_sock n) (g (n_sock n))) → world_step w (upd_sock i g w).
Proof. intros Hg. split; [done|]. apply alter_step. intros n Hn. split; [done|]. by apply Hg. Qed.

Lemma stable_on_here g : (∀ s, sock_step s (g s)) → stable (on_here g).
Proof. intros Hg w w' o [= <- <-]. by apply upd_sock_step. Qed.

Lemma stable_on_ctx {A} (m : M (FsCtx FD) A) : ctx_stable m → stable (on_ctx m).
Proof.
  intros Hm w w' o. unfold on_ctx. destruct (w_nodes w !! w_cursor w) as [n|] eqn:Hn; [|by intros [= <- <-]].
  destruct (m (n_ctx n)) as [k o1] eqn:E. intros [= <- <-]. split; [done|]. apply alter_step.
  intros n' Hn'. simplify_eq. split; [|done]. by apply Hm in E.
Qed.

Lemma stable_on_ctx_mem {A} (m : M (FsCtx FD * Mem) A) :
  (∀ km km' o, m km = (km', o) → ctx_step km.1 km'.1) → stable (on_ctx_mem m).
Proof.
  intros Hm w w' o. unfold on_ctx_mem. destruct (w_nodes w !! w_cursor w) as [n|] eqn:Hn; [|by intros [= <- <-]].
  destruct (m (n_ctx n, w_mem w)) as [km o1] eqn:E. intros [= <- <-]. split; [done|]. apply alter_step.
  intros n' Hn'. simplify_eq. split; [|done]. by apply Hm in E.
Qed.

Create HintDb registry.
#[local] Hint Resolve stable_ret stable_throw stable_lift stable_get stable_throw_if stable_here stable_read
  stable_write stable_budget : registry.

Ltac steady := repeat first [progress eauto with registry | progress intros | apply stable_bind | case_match].

(** *** Sockets *)

Lemma sock_step_sockets g s : (∀ m, keys (g m) = keys m) → sock_step s (set_sockets (g (sockets_ s)) s).
Proof. intros Hg. split; cbn; rewrite ?Hg; set_solver. Qed.
Lemma sock_step_alter h fd s : sock_step s (set_sockets (alter h fd (sockets_ s)) s).
Proof. apply (sock_step_sockets (alter h fd)). intros m. apply dom_alter_L. Qed.
Lemma sock_step_tcp m s : keys m ⊆ keys (tcp_connections_ s) ∪ keys (sockets_ s) → sock_step s (set_tcp m s).
Proof. intros Hm. split; cbn; set_solver. Qed.
Lemma sock_step_udp m s : keys m ⊆ keys (udp_recv_buffers_ s) ∪ keys (sockets_ s) → sock_step s (set_udp m s).
Proof. intros Hm. split; cbn; set_solver. Qed.
Lemma sock_step_epoll m s : keys m = keys (epoll_instances_ s) → sock_step s (set_epoll m s).
Proof. intros Hm. split; cbn; set_solver. Qed.
#[local] Hint Resolve stable_on_here sock_step_alter : registry.

Lemma stable_with_socket fd g : (∀ n s, stable (g n s)) → stable (with_socket fd g).
Proof. intros Hg. unfold with_socket. steady. Qed.
#[local] Hint Resolve stable_with_socket : registry.

Lemma stable_bind_call fd a l : stable (do_bind fd a l).
Proof. unfold do_bind. apply stable_with_socket. steady. Qed.
Lemma stable_copy_address a x l : stable (copy_socket_address a x l).
Proof. unfold copy_socket_address. steady. Qed.
#[local] Hint Resolve stable_copy_address : registry.
Lemma stable_listen fd l : stable (do_listen fd l).
Proof. unfold do_listen. apply stable_with_socket. steady. Qed.

Lemma stable_modify_socket i fd g : stable (modify (upd_socket i fd g)).
Proof. intros w w' o [= <- <-]. apply upd_sock_step. intros. apply sock_step_alter. Qed.


(** *** Calls on an existing socket *)

Definition has_socket (fd : Z) w : Prop :=
  ∃ n, w_nodes w !! w_cursor w = Some n ∧ fd ∈ keys (sockets_ (n_sock n)).

Definition stable_when {A} (fd : Z) (m : M (World FD Mem) A) : Prop :=
  ∀ w w' o, has_socket fd w → m w = (w', o) → world_step w w'.

Lemma has_socket_step fd w w' : world_step w w' → has_socket fd w → has_socket fd w'.
Proof.
  intros [Hc HF] (n & Hn & Hfd). destruct (Forall2_lookup_l _ _ _ _ _ HF Hn) as (n' & Hn' & _ & [S _ _ _]).
  exists n'. rewrite Hc. split; [done|]. by rewrite S.
Qed.

Lemma when_stable {A} fd (m : M (World FD Mem) A) : stable m → stable_when fd m.
Proof. intros Hm w w' o _. apply Hm. Qed.

Lemma when_bind {A B} fd (m : M (World FD Mem) A) (f : A → M (World FD Mem) B) :
  stable_when fd m → (∀ a, stable_when fd (f a)) → stable_when fd (m ≫= f).
Proof.
  intros Hm Hf w w' o Hs. rewrite bind_run. destruct (m w) as [w1 [a|e]] eqn:E; apply Hm in E; try done.
  - intros H%Hf; [by etrans|]. by eapply has_socket_step.
  - by intros [= <- <-].
Qed.

Lemma when_on_here fd g : (∀ s, fd ∈ keys (sockets_ s) → sock_step s (g s)) → stable_when fd (on_here g).
Proof.
  intros Hg w w' o (n & Hn & Hfd) [= <- <-]. apply upd_sock_step. intros n' Hn'. simplify_eq. by apply Hg.
Qed.

Lemma when_socket fd g : (∀ n s, stable_when fd (g n s)) → stable (with_socket fd g).
Proof.
  intros Hg w w' o. unfold with_socket, here. rewrite bind_run.
  destruct (w_nodes w !! w_cursor w) as [n|] eqn:Hn; [|by intros [= <- <-]].
  destruct (sockets_ (n_sock n) !! fd) as [s|] eqn:Hs; [|by intros [= <- <-]].
  apply Hg. exists n. split; [done|]. by eapply elem_of_dom_2.
Qed.

#[local] Hint Resolve when_stable : registry.
Ltac steady_when := repeat first [progress eauto with registry | progress intros | apply when_bind
  | apply when_on_here | case_match].

Lemma tcp_insert_step fd c s : fd ∈ keys (sockets_ s) → sock_step s (set_tcp (<[fd := c]> (tcp_connections_ s)) s).
Proof. intros H. apply sock_step_tcp. rewrite dom_insert_L. set_solver. Qed.
Lemma udp_insert_step fd q s : fd ∈ keys (sockets_ s) → sock_step s (set_udp (<[fd := q]> (udp_recv_buffers_ s)) s).
Proof. intros H. apply sock_step_udp. rewrite dom_insert_L. set_solver. Qed.
#[local] Hint Resolve tcp_insert_step udp_insert_step stable_modify_socket : registry.

Lemma stable_connect fd a l : stable (do_connect inet_pton fd a l).
Proof. unfold do_connect, connect_commit. apply when_socket. steady_when. Qed.

Lemma stable_recv fd b l f : stable (do_recv fd b l f).
Proof.
  unfold do_recv. apply stable_bind; [auto with registry|]. intros _. apply when_socket. steady_when.
Qed.

Lemma stable_deliver r data : stable (modify (deliver r data)).
Proof.
  intros w w' o [= <- <-]. destruct r as [i fd|i lfd key]; cbn.
  - apply upd_sock_step. intros n _. apply sock_step_tcp. rewrite dom_alter_L. apply union_subseteq_l.
  - apply upd_sock_step. intros n _. apply sock_step_alter.
Qed.
#[local] Hint Resolve stable_recv stable_deliver : registry.

Lemma stable_send_buffer fd data : stable (do_send_buffer inet_pton fd data).
Proof. unfold do_send_buffer. steady. Qed.
#[local] Hint Resolve stable_send_buffer : registry.
Lemma stable_send fd b l f : stable (do_send inet_pton fd b l f).
Proof. unfold do_send. apply stable_bind; [auto with registry|]. intros _. apply stable_with_socket. steady. Qed.
#[local] Hint Resolve stable_send : registry.

Lemma stable_udp_route n sock node dest data : stable (udp_route inet_pton n sock node dest data).
Proof.
  intros w w' o. unfold udp_route, deliver_udp_datagram. unmonad.
  destruct (w_nodes w !! node) as [receiver|] eqn:Hr; [|by intros [= <- <-]].
  destruct (first_entry _ _) as [[recvfd rs]|] eqn:Hf; [|by intros [= <- <-]].
  destruct (if s_addr _ =? _ then _ else _) as [a|]; [|by intros [= <- <-]]. rewrite Hr.
  destruct (MAX_UDP_BUFFER <=? _).
  - intros H. destruct (consume_model_budget 1 w) as [w1 o1] eqn:E.
    apply stable_budget in E. destruct o1; by injection H as <- <-.
  - intros [= <- <-]. apply upd_sock_step. intros n' Hn'. simplify_eq.
    apply udp_insert_step. apply first_entry_Some in Hf as [Hs _]. by eapply elem_of_dom_2.
Qed.

Lemma stable_sendto fd b l f d dl : stable (do_sendto inet_pton fd b l f d dl).
Proof.
  unfold do_sendto, udp_destination. apply stable_bind; [auto with registry|]. intros _. apply stable_with_socket.
  pose proof stable_udp_route. steady.
Qed.

Lemma stable_copyout a x l : stable (recvfrom_copyout a x l).
Proof. unfold recvfrom_copyout. steady. Qed.
#[local] Hint Resolve stable_sendto stable_copyout : registry.

Lemma stable_recvfrom fd b l f a al c : stable (do_recvfrom_with_choice fd b l f a al c).
Proof.
  unfold do_recvfrom_with_choice. apply stable_bind; [auto with registry|]. intros _. apply when_socket. steady_when.
Qed.
#[local] Hint Resolve stable_recvfrom : registry.

Lemma stable_setsockopt fd l o v len : stable (emu_setsockopt fd l o v len).
Proof. unfold emu_setsockopt. apply stable_with_socket. steady. Qed.

Lemma sock_step_watches epfd i m s :
  epoll_instances_ s !! epfd = Some i → sock_step s (set_epoll (<[epfd := m]> (epoll_instances_ s)) s).
Proof. intros H. apply sock_step_epoll. apply dom_insert_lookup_L. by eexists. Qed.

Lemma stable_epoll_ctl epfd op fd e : stable (do_epoll_ctl epfd op fd e).
Proof.
  intros w w' o. unfold do_epoll_ctl, here. rewrite bind_run.
  destruct (w_nodes w !! w_cursor w) as [n|] eqn:Hn; [|by intros [= <- <-]].
  destruct (epoll_instances_ (n_sock n) !! epfd) as [i|] eqn:Hi; [|by intros [= <- <-]].
  assert (∀ m, world_step w (upd_sock (w_cursor w)
    (λ s, set_epoll (<[epfd := mkEpoll (epoll_fd i) m]> (epoll_instances_ s)) s) w)) as Hput.
  { intros m. apply upd_sock_step. intros n' Hn'. simplify_eq. by eapply sock_step_watches. }
  destruct (negb (kernel_allocated (n_ctx n) fd)); [by intros [= <- <-]|].
  destruct (fd =? epfd); [by intros [= <- <-]|]. rewrite guard_run. destruct (bool_decide (_ = EPOLL)); [by intros [= <- <-]|].
  destruct (negb _ && negb _); [by intros [= <- <-]|]. destruct (negb (op =? EPOLL_CTL_ADD) && _ && _); [by intros [= <- <-]|].
  cbv zeta. destruct ((op =? EPOLL_CTL_ADD) && _); [by intros [= <- <-]|]. destruct (negb _ && negb _); [by intros [= <- <-]|].
  destruct (op =? EPOLL_CTL_DEL); [intros [= <- <-]; apply Hput|].
  rewrite bind_run. unfold guest_read at 1. destruct (guest_read_exact _ _ _) as [bs|]; [|by intros [= <- <-]]. cbv zeta.
  rewrite guard_run. destruct (has _ unsupported_watch); [by intros [= <- <-]|].
  rewrite guard_run. destruct (has _ _); [by intros [= <- <-]|]. intros [= <- <-]. apply Hput.
Qed.

Lemma stable_epoll_wait e ev mx t : stable (do_epoll_wait e ev mx t).
Proof. unfold do_epoll_wait. steady. Qed.

(** *** File system calls *)

Lemma ctx_step_fs t s s' :
  pipe_fds_ s' = pipe_fds_ s → keys (open_files s') = keys (open_files s) → ctx_step (mkFsCtx t s) (mkFsCtx t s').
Proof. intros Hp Hf. split; cbn; [done| |done]. by rewrite Hp. Qed.

Lemma ctx_step_offset k fd d d' :
  open_files (fss k) !! fd = Some d →
  ctx_step k (mkFsCtx (fdm k) (set_open_files (<[fd := d']> (open_files (fss k))) (fss k))).
Proof. intros Hd. destruct k as [t s]. apply ctx_step_fs; [done|]. cbn. apply dom_insert_lookup_L. by eexists. Qed.

Lemma update_node_same p g s : pipe_fds_ (update_node p g s) = pipe_fds_ s ∧ open_files (update_node p g s) = open_files s.
Proof. done. Qed.

Lemma ctx_stable_read fd c : ctx_stable (do_read fd c).
Proof.
  intros k k' o. unfold do_read, with_fs, fs_at. unmonad.
  destruct (open_files (fss k) !! fd) as [d|] eqn:Hd; [|by intros [= <- <-]].
  destruct (negb _); [by intros [= <- <-]|]. destruct (filesystem (fss k) !! path d); [|by intros [= <- <-]].
  destruct (is_dir v); [by intros [= <- <-]|]. destruct (_ =? O_WRONLY); [by intros [= <- <-]|].
  destruct (_ <=? _); [by intros [= <- <-]|]. destruct (_ =? 0); intros [= <- <-]; [done|].
  by eapply ctx_step_offset.
Qed.

Lemma ctx_stable_write fd bs : ctx_stable (do_write now fd bs).
Proof.
  intros k k' o H. destruct (do_write_cases _ _ _ _ _ _ H) as [[-> _]|(d & node & c & Hd & _ & _ & _ & _ & _ & _ & _ & _ & ->)];
    [done|]. destruct k as [t s]. apply ctx_step_fs; [done|]. cbn in *. apply dom_insert_lookup_L. by eexists.
Qed.

Lemma ctx_stable_lseek fd off wh : ctx_stable (do_lseek fd off wh).
Proof.
  intros k k' o H. destruct (do_lseek_cases _ _ _ _ _ _ H) as [[-> _]|(d & node & m & Hd & _ & _ & _ & _ & _ & ->)];
    [done|]. by eapply ctx_step_offset.
Qed.

Lemma ctx_stable_ftruncate fd l : ctx_stable (do_ftruncate now fd l).
Proof.
  intros k k' o H. destruct (do_ftruncate_cases _ _ _ _ _ _ H) as [[-> _]|(d & node & Hd & _ & _ & _ & _ & _ & _ & _ & ->)];
    [done|]. destruct k as [t s]. by apply ctx_step_fs.
Qed.

Lemma ctx_stable_unlink d i f : ctx_stable (do_unlinkat xxhash64 now d i f).
Proof.
  intros k k' o H. destruct (do_unlinkat_cases _ _ _ _ _ _ _ _ H) as [[-> _]|(leaf & node & dd & _ & _ & _ & _ & _ & _ & _ & _ & _ & ->)];
    [done|]. destruct k as [t s]. by apply ctx_step_fs.
Qed.

Lemma ctx_stable_rename d i d' i' f : ctx_stable (do_renameat2 xxhash64 now d i d' i' f).
Proof.
  intros k k' o H. destruct (do_renameat2_cases _ _ _ _ _ _ _ _ _ _ H) as [[-> _]|(old & new & src & _ & _ & ->)]; [done|].
  destruct k as [t s]. by apply ctx_step_fs.
Qed.

Lemma ctx_stable_unmapped p : ctx_stable (require_unmapped_file p).
Proof. intros k k' o. unfold require_unmapped_file. unmonad. destruct (is_mapped _ _); by intros [= <- <-]. Qed.

Lemma pipe_step_put i b p k : ctx_step k (put_pipe i (set_buffer b p) k).
Proof. by split. Qed.

Lemma stable_pipe_read fd b c : stable (on_ctx_mem (do_pipe_read fd b c)).
Proof.
  apply stable_on_ctx_mem. intros km km' o. unfold do_pipe_read, with_pipes. unmonad.
  destruct (pipe_end km.1 fd); [|by intros [= <- <-]]. destruct (_ <? 0); [by intros [= <- <-]|].
  destruct (pipes_ (fss km.1) !! _); [|by intros [= <- <-]]. destruct (c =? 0); [by intros [= <- <-]|].
  destruct (bool_decide _); [destruct (write_closed _); by intros [= <- <-]|].
  destruct (guest_write_exact _ _ _) as [m ok]. destruct ok; intros [= <- <-]; [|done]. by split.
Qed.

Lemma stable_pipe_write fd b c : stable (on_ctx_mem (do_pipe_write fd b c)).
Proof.
  apply stable_on_ctx_mem. intros km km' o. unfold do_pipe_write, with_pipes. unmonad.
  destruct (pipe_end km.1 fd); [|by intros [= <- <-]]. destruct (0 <? _); [by intros [= <- <-]|].
  destruct (pipes_ (fss km.1) !! _); [|by intros [= <- <-]]. destruct (c =? 0); [by intros [= <- <-]|].
  destruct (read_closed _); [by intros [= <- <-]|]. destruct (SSIZE_MAX <? c); [by intros [= <- <-]|].
  destruct (_ && _ && _); [by intros [= <- <-]|]. destruct (_ || _); [by intros [= <- <-]|].
  destruct (guest_read_exact _ _ _); intros [= <- <-]; [|done]. by split.
Qed.

Lemma fcntl_kind fd c a t t' o j : do_fcntl fd c a t = (t', o) → get_fd_type t' j = get_fd_type t j.
Proof.
  intros H. unfold get_fd_type. destruct (decide (j = fd)) as [->|Hj].
  - apply do_fcntl_same in H. destruct (fd_view t fd) as [e|] eqn:E.
    + destruct H as (e' & -> & ->). done.
    + destruct H as [-> _]. by rewrite E.
  - by rewrite (do_fcntl_other _ _ _ _ _ _ _ H Hj).
Qed.

Lemma stable_fcntl fd c a : stable (manager_fcntl fd c a).
Proof.
  apply stable_on_ctx. intros k k' o. destruct (fdm k) as [t|] eqn:Ht; [|by intros [= <- <-]].
  destruct (do_fcntl fd c a t) as [t' r] eqn:E. intros [= <- <-]. split; [|done..].
  intros j. unfold fd_kind. cbn. rewrite Ht. by eapply fcntl_kind.
Qed.
#[local] Hint Resolve stable_on_ctx ctx_stable_read ctx_stable_write ctx_stable_lseek ctx_stable_ftruncate
  ctx_stable_unlink ctx_stable_rename ctx_stable_unmapped stable_pipe_read stable_pipe_write stable_fcntl : registry.

(** *** The descriptor boundary *)

Lemma stable_descriptors : stable descriptors.
Proof. unfold descriptors. steady. Qed.
Lemma stable_files : stable files.
Proof. unfold files. steady. Qed.
Lemma stable_network : stable network.
Proof. unfold network. steady. Qed.
#[local] Hint Resolve stable_descriptors stable_files stable_network : registry.
Lemma stable_require_file fd : stable (require_file fd).
Proof. unfold require_file. steady. Qed.
Lemma stable_payload fd : stable (payload fd).
Proof. unfold payload. steady. Qed.
#[local] Hint Resolve stable_require_file stable_payload : registry.

Lemma stable_with_kind fd g : (∀ (t : FD) (ty : FdType), stable (g t ty)) → stable (with_kind fd g).
Proof. intros Hg. unfold with_kind. steady. Qed.

Lemma stable_restore fd off : stable (on_ctx (with_fs (λ s, set_open_files (alter (λ e, mkOFD (path e) off) fd (open_files s)) s))).
Proof.
  apply stable_on_ctx. intros k k' o [= <- <-]. destruct k as [t s]. apply ctx_step_fs; [done|]. cbn. apply dom_alter_L.
Qed.
#[local] Hint Resolve stable_restore : registry.

Lemma stable_emu_read fd d c : stable (emu_read fd d c).
Proof. unfold emu_read. apply stable_with_kind. unfold read_file, unsupported_kind, do_recvfrom. steady. Qed.

Lemma stable_emu_write fd d c : stable (emu_write inet_pton now fd d c).
Proof. unfold emu_write. apply stable_with_kind. unfold write_file, unsupported_kind. steady. Qed.

Lemma stable_import (count : nat) item l : stable (import_iovec count item l).
Proof. revert item l. induction count as [|count IH]; intros item l; cbn [import_iovec]; steady. Qed.
Lemma stable_gather l bs : stable (gather l bs).
Proof. revert bs. induction l as [|e l IH]; intros bs; cbn [gather]; steady. Qed.
#[local] Hint Resolve stable_import stable_gather : registry.

Lemma stable_emu_writev fd g c : stable (emu_writev inet_pton now fd g c).
Proof. unfold emu_writev. apply stable_with_kind. unfold writev_admit, writev_commit. steady. Qed.

Lemma stable_emu_fcntl th fd c a : stable (emu_fcntl th fd c a).
Proof. unfold emu_fcntl, require_no_pending_fd. steady. Qed.
Lemma stable_emu_ftruncate fd l : stable (emu_ftruncate now fd l).
Proof. unfold emu_ftruncate. destruct (l <? 0); [steady|]. apply stable_with_kind. steady. Qed.
Lemma stable_emu_ioctl th fd r a : stable (emu_ioctl th fd r a).
Proof. unfold emu_ioctl. apply stable_with_kind. unfold require_no_pending_fd, readable_bytes. steady. Qed.

(** ** Creating a descriptor *)

(** The node at the cursor is replaced. *)
Definition replaced w w' n' : Prop :=
  ∀ i n, w_nodes w' !! i = Some n → (i = w_cursor w ∧ n = n') ∨ (i ≠ w_cursor w ∧ w_nodes w !! i = Some n).

Lemma replaced_ok w w' n' : replaced w w' n' → node_ok n' → world_ok w → world_ok w'.
Proof. intros Hr Hn Hw i n [[-> ->]|[_ H]]%Hr; [done|]. by eapply Hw. Qed.

Lemma upd_both_replaced w n k' g :
  w_nodes w !! w_cursor w = Some n →
  replaced w (upd_sock (w_cursor w) g (upd_ctx (w_cursor w) (λ _, k') w)) (mkNode k' (g (n_sock n)) (n_addr n)).
Proof.
  intros Hn i x. unfold upd_sock, upd_ctx, set_nodes. cbn [w_nodes]. rewrite !list_lookup_alter.
  destruct (decide (w_cursor w = i)) as [<-|Hi]; [rewrite decide_True by done; rewrite Hn; cbn; intros [= <-]; by left|].
  intros Hx. right. split; [congruence|]. done.
Qed.

Definition grown (K K' : FdType) (fd : Z) : gset Z := if decide (K = K') then {[fd]} else ∅.

(** A fresh descriptor of kind [K] with its payload. *)
Record node_grow n n' (K : FdType) (fd : Z) : Prop := {
  ng_fresh : kindof n fd = UNKNOWN;
  ng_kind j : kindof n' j = if decide (j = fd) then K else kindof n j;
  ng_socket : keys (sockets_ (n_sock n')) = keys (sockets_ (n_sock n)) ∪ grown K SOCKET fd;
  ng_epoll : keys (epoll_instances_ (n_sock n')) = keys (epoll_instances_ (n_sock n)) ∪ grown K EPOLL fd;
  ng_pipe : keys (pipe_fds_ (fss (n_ctx n'))) = keys (pipe_fds_ (fss (n_ctx n))) ∪ grown K PIPE fd;
  ng_file : keys (open_files (fss (n_ctx n'))) = keys (open_files (fss (n_ctx n))) ∪ grown K FILE fd;
  ng_buffers : keys (tcp_connections_ (n_sock n')) ∪ keys (udp_recv_buffers_ (n_sock n')) ⊆
    keys (tcp_connections_ (n_sock n)) ∪ keys (udp_recv_buffers_ (n_sock n)) ∪ grown K SOCKET fd;
}.

Lemma elem_of_grown K K' fd j : j ∈ grown K K' fd ↔ K = K' ∧ j = fd.
Proof. unfold grown. destruct (decide (K = K')); set_solver. Qed.

Lemma node_grow_ok n n' K fd : K ≠ UNKNOWN → K ≠ STDIO → node_grow n n' K fd → node_ok n → node_ok n'.
Proof.
  intros HK HK' [G1 G2 G3 G4 G5 G6 G7] [O1 O2 O3 O4 O5].
  assert (∀ (T : gset Z) (T' : FdType) j, T' ≠ UNKNOWN → (∀ x, x ∈ T ↔ kindof n x = T') →
    j ∈ T ∪ grown K T' fd ↔ kindof n' j = T') as Htab.
  { intros T T' j HT' HT. rewrite G2, elem_of_union, elem_of_grown, HT.
    destruct (decide (j = fd)) as [->|]; [rewrite G1|]; naive_solver. }
  split; try (intros j; rewrite ?G3, ?G4, ?G5; by apply Htab).
  - intros j. rewrite G6, G2, elem_of_union, elem_of_grown, O4.
    destruct (decide (j = fd)) as [->|]; [rewrite G1|]; naive_solver.
  - rewrite G3. etrans; [exact G7|]. by apply union_mono_r.
Qed.

Lemma allocate_kind K st de k k' o :
  fs_allocate_fd K st de k = (k', o) →
  (k' = k ∧ ∀ fd, o = Ret fd → fd < 0) ∨
  ∃ fd, o = Ret fd ∧ 0 ≤ fd ∧ fss k' = fss k ∧ fd_kind k fd = UNKNOWN ∧
    ∀ j, fd_kind k' j = if decide (j = fd) then K else fd_kind k j.
Proof.
  unfold fs_allocate_fd, fd_kind, get_fd_type. destruct (fdm k) as [t|] eqn:Ht; [|intros [= <- <-]; left; split; [done|]; by intros ? [= <-]].
  destruct (allocate_fd K st de t) as [t' r] eqn:E. intros [= <- <-].
  destruct (allocate_fd_inv _ _ _ _ _ _ E) as [[-> [e ->]]|[[-> (fd & -> & Hfd)]|(fd & -> & Hfd & Hv & Hview)]].
  - left. split; [by destruct k; cbn in *; subst|done].
  - left. split; [by destruct k; cbn in *; subst|]. by intros ? [= <-].
  - right. exists fd. cbn. rewrite Hv. split_and!; try done. intros j. rewrite Hview. by destruct (decide (j = fd)).
Qed.

Definition preserves {A} (m : M (World FD Mem) A) : Prop := ∀ w w' o, m w = (w', o) → world_ok w → world_ok w'.

Lemma preserves_stable {A} (m : M (World FD Mem) A) : stable m → preserves m.
Proof. intros Hm w w' o H%Hm. by apply world_step_ok. Qed.

Lemma preserves_bind {A B} (m : M (World FD Mem) A) (f : A → M (World FD Mem) B) :
  preserves m → (∀ a, preserves (f a)) → preserves (m ≫= f).
Proof.
  intros Hm Hf w w' o. rewrite bind_run. destruct (m w) as [w1 [a|e]] eqn:E.
  - intros H Hw. eapply Hf; [exact H|]. by eapply Hm.
  - intros [= <- <-] Hw. by eapply Hm.
Qed.

(** Allocate, then enter the payload in the tables of the node. *)
Lemma preserves_create K st de (bad : Z) (g : Z → SockState → SockState) (r : Z → Z) :
  K = SOCKET ∨ K = EPOLL →
  (∀ fd s, keys (sockets_ (g fd s)) = keys (sockets_ s) ∪ grown K SOCKET fd) →
  (∀ fd s, keys (epoll_instances_ (g fd s)) = keys (epoll_instances_ s) ∪ grown K EPOLL fd) →
  (∀ fd s, keys (tcp_connections_ (g fd s)) ∪ keys (udp_recv_buffers_ (g fd s)) ⊆
     keys (tcp_connections_ s) ∪ keys (udp_recv_buffers_ s) ∪ grown K SOCKET fd) →
  preserves (fd ← on_ctx (fs_allocate_fd K st de);
             if fd <? 0 then mret bad else on_here (g fd);; mret (r fd)).
Proof.
  intros HK G1 G2 G3 w w' o. rewrite bind_run. unfold on_ctx.
  destruct (w_nodes w !! w_cursor w) as [n|] eqn:Hn; [|by intros [= <- <-]].
  destruct (fs_allocate_fd K st de (n_ctx n)) as [k' r0] eqn:E.
  destruct (allocate_kind _ _ _ _ _ _ E) as [[-> Hneg]|(fd & -> & Hfd & Hfs & Hfresh & Hkind)].
  - assert (world_step w (upd_ctx (w_cursor w) (λ _, n_ctx n) w)) as Hst.
    { split; [done|]. apply alter_step. intros n' Hn'. simplify_eq. done. }
    intros H Hw. eapply world_step_ok; [|exact Hw]. destruct r0 as [fd|e]; [|by injection H as <- <-].
    rewrite (proj2 (Z.ltb_lt fd 0)) in H by auto. by injection H as <- <-.
  - rewrite (proj2 (Z.ltb_ge fd 0)) by done. intros [= <- <-] Hw.
    eapply replaced_ok; [by apply upd_both_replaced| |done].
    eapply (node_grow_ok n _ K fd); [by destruct HK; subst|by destruct HK; subst| |by eapply Hw].
    split; cbn [n_ctx n_sock]; try done; rewrite ?Hfs, ?G1, ?G2; auto;
      unfold grown; rewrite decide_False by (destruct HK; congruence); set_solver.
Qed.

Lemma preserves_socket d t p : preserves (do_socket d t p).
Proof.
  unfold do_socket. destruct (negb (d =? AF_INET)); [apply preserves_stable; steady|]. cbv zeta.
  destruct (_ && _); [apply preserves_stable; steady|]. destruct (_ && _); [apply preserves_stable; steady|].
  apply (preserves_create SOCKET _ _ _ _ (λ fd, fd)); [by left|..]; intros fd s; cbn; unfold grown; simpl.
  - rewrite dom_insert_L. set_solver. - set_solver. - set_solver.
Qed.

Lemma preserves_epoll_create flags : preserves (do_epoll_create1 flags).
Proof.
  unfold do_epoll_create1. destruct (has _ _); [apply preserves_stable; steady|].
  apply (preserves_create EPOLL _ _ _ _ (λ fd, fd)); [by right|..]; intros fd s; cbn; unfold grown; simpl.
  - set_solver. - rewrite dom_insert_L. set_solver. - set_solver.
Qed.

Lemma preserves_with_socket fd g : (∀ n s, preserves (g n s)) → preserves (with_socket fd g).
Proof.
  intros Hg. unfold with_socket. apply preserves_bind; [apply preserves_stable, stable_here|]. intros n.
  destruct (sockets_ (n_sock n) !! fd); [done|apply preserves_stable; steady].
Qed.

Lemma preserves_accept fd a l : preserves (do_accept fd a l).
Proof.
  unfold do_accept. apply preserves_with_socket. intros n listener.
  destruct (negb _); [apply preserves_stable; steady|]. destruct (negb _); [apply preserves_stable; steady|].
  destruct (pending_connections listener) as [|key rest]; [apply preserves_stable; steady|].
  destruct (established_connections listener !! key) as [c|]; [|apply preserves_stable; steady].
  apply preserves_bind; [apply preserves_stable; unfold accept_copyout; steady|]. intros r.
  destruct (negb (r =? 0)); [apply preserves_stable; steady|].
  apply (preserves_create SOCKET _ _ _ _ (λ fd, fd)); [by left|..]; intros fd' s; cbn; unfold grown; simpl.
  - rewrite dom_insert_L, dom_alter_L. set_solver. - set_solver. - rewrite dom_insert_L. set_solver.
Qed.

Lemma preserves_accept4 fd a l f : preserves (emu_accept4 fd a l f).
Proof.
  unfold emu_accept4. destruct (has _ _); [apply preserves_stable; steady|].
  apply preserves_bind; [apply preserves_accept|]. intros r. apply preserves_stable.
  destruct (r <? 0); [steady|]. cbv zeta. fold (manager_fcntl (FD:=FD) (Mem:=Mem) r F_SETFL O_NONBLOCK).
  fold (manager_fcntl (FD:=FD) (Mem:=Mem) r F_SETFD FD_CLOEXEC). steady.
Qed.

Lemma on_ctx_replaced {A} (m : M (FsCtx FD) A) w w' o n :
  w_nodes w !! w_cursor w = Some n → on_ctx m w = (w', o) →
  ∃ k', m (n_ctx n) = (k', o) ∧ replaced w w' (mkNode k' (n_sock n) (n_addr n)).
Proof.
  intros Hn. unfold on_ctx. rewrite Hn. destruct (m (n_ctx n)) as [k' o1] eqn:E. intros [= <- <-].
  exists k'. split; [done|]. intros i x. unfold upd_ctx, set_nodes. cbn [w_nodes]. rewrite list_lookup_alter.
  destruct (decide (w_cursor w = i)) as [<-|Hi]; [rewrite Hn; cbn; intros [= <-]; by left|].
  intros Hx. right. split; [congruence|done].
Qed.

(** A computation on the file system that keeps the node well formed *)
Lemma preserves_on_ctx {A} (m : M (FsCtx FD) A) :
  (∀ n k' o, m (n_ctx n) = (k', o) → node_ok n → node_ok (mkNode k' (n_sock n) (n_addr n))) → preserves (on_ctx m).
Proof.
  intros Hm w w' o H Hw. destruct (w_nodes w !! w_cursor w) as [n|] eqn:Hn.
  - destruct (on_ctx_replaced _ _ _ _ _ Hn H) as (k' & E & Hr). eapply replaced_ok; [exact Hr| |done].
    eapply Hm; [exact E|]. by eapply Hw.
  - unfold on_ctx in H. rewrite Hn in H. by injection H as <- <-.
Qed.

Lemma preserves_openat d i f mo : preserves (on_ctx (do_openat now d i f mo)).
Proof.
  clear inet_pton xxhash64.
  apply preserves_on_ctx. intros n k' o H Hok.
  destruct (do_openat_cases _ _ _ _ _ _ _ _ H) as
    [[-> _]|(t & t' & p & Ht & _ & _ & Hfd & _ & _ & Hv & Hv' & Hother & ->)]; [by destruct n|].
  eapply (node_grow_ok n _ FILE (get_next_fd t)); [done..| |done].
  split; cbn [n_ctx n_sock]; unfold fd_kind, get_fd_type, opened; cbn [fdm fss]; rewrite ?Ht, ?Hv; try done;
    try (unfold grown; simpl; destruct (bool_decide _), (truncates f); set_solver).
  intros j. destruct (decide (j = get_next_fd t)) as [->|Hj]; [by rewrite Hv'|by rewrite Hother].
Qed.

Lemma do_pipe_files flags k k' o : do_pipe flags k = (k', o) → open_files (fss k') = open_files (fss k).
Proof.
  unfold do_pipe, with_fs, fs_allocate_fd, fs_release_fd. unmonad. destruct (has _ _); [by intros [= <- <-]|].
  destruct k as [[t|] s]; cbn; [|by intros [= <- <-]].
  destruct (allocate_fd PIPE _ _ t) as [t1 [rfd|]]; cbn; [|by intros [= <- <-]].
  destruct (allocate_fd PIPE _ _ t1) as [t2 [wfd|]]; cbn; [|by intros [= <- <-]].
  destruct (_ || _), (0 <=? rfd), (0 <=? wfd); by intros [= <- <-].
Qed.

Lemma preserves_pipe flags : preserves (on_ctx (do_pipe flags)).
Proof.
  apply preserves_on_ctx. intros n k' o H Hok. pose proof (do_pipe_files _ _ _ _ H) as Hfiles.
  destruct (do_pipe_cases _ _ _ _ H) as
    [(e & _ & _ & _ & Hf & Hkind)|(i & rfd & wfd & _ & _ & _ & _ & _ & Hne & U1 & U2 & P1 & P2 & Hkind & _ & Hf)].
  { eapply node_step_ok; [|exact Hok]. split; [|done]. split; cbn [n_ctx]; [done| |]; by rewrite ?Hf, ?Hfiles. }
  destruct Hok as [O1 O2 O3 O4 O5].
  assert (∀ (T : FdType) j, T ≠ PIPE → T ≠ UNKNOWN → fd_kind k' j = T ↔ kindof n j = T) as Hsame.
  { intros T j H1 H2. destruct (decide (j = rfd)) as [->|H3]; [rewrite P1, U1; split; congruence|].
    destruct (decide (j = wfd)) as [->|H4]; [rewrite P2, U2; split; congruence|by rewrite Hkind]. }
  split; cbn [n_ctx n_sock].
  - intros j. rewrite O1. by rewrite Hsame.
  - intros j. rewrite O2. by rewrite Hsame.
  - intros j. rewrite Hf, !dom_insert_L, !elem_of_union, !elem_of_singleton, O3.
    destruct (decide (j = rfd)) as [->|H3]; [rewrite P1; tauto|].
    destruct (decide (j = wfd)) as [->|H4]; [rewrite P2; tauto|]. rewrite Hkind by done. tauto.
  - intros j. rewrite Hfiles, O4. by rewrite !Hsame.
  - done.
Qed.

(** ** Closing a descriptor *)

Record node_shrink n n' (fd : Z) : Prop := {
  nk_kind j : kindof n' j = if decide (j = fd) then UNKNOWN else kindof n j;
  nk_socket : keys (sockets_ (n_sock n')) = keys (sockets_ (n_sock n)) ∖ {[fd]};
  nk_epoll : keys (epoll_instances_ (n_sock n')) = keys (epoll_instances_ (n_sock n)) ∖ {[fd]};
  nk_pipe : keys (pipe_fds_ (fss (n_ctx n'))) = keys (pipe_fds_ (fss (n_ctx n))) ∖ {[fd]};
  nk_file : keys (open_files (fss (n_ctx n'))) = keys (open_files (fss (n_ctx n))) ∖ {[fd]};
  nk_buffers : keys (tcp_connections_ (n_sock n')) ∪ keys (udp_recv_buffers_ (n_sock n')) ⊆
    (keys (tcp_connections_ (n_sock n)) ∪ keys (udp_recv_buffers_ (n_sock n))) ∖ {[fd]};
}.

Lemma node_shrink_ok n n' fd : node_shrink n n' fd → node_ok n → node_ok n'.
Proof.
  intros [K1 K2 K3 K4 K5 K6] [O1 O2 O3 O4 O5].
  assert (∀ (T : gset Z) (P : FdType → Prop) j, ¬ P UNKNOWN → (∀ x, x ∈ T ↔ P (kindof n x)) →
    j ∈ T ∖ {[fd]} ↔ P (kindof n' j)) as Htab.
  { intros T P j HP HT. rewrite K1, elem_of_difference, elem_of_singleton, HT.
    destruct (decide (j = fd)) as [->|]; naive_solver. }
  split; try (intros j; rewrite ?K2, ?K3, ?K4; by apply (Htab _ (λ x, x = _))).
  - intros j. rewrite K5. by apply (Htab _ (λ x, x = FILE ∨ x = STDIO)); [intros [|]|].
  - rewrite K2. set_solver.
Qed.

Lemma absent (m : gset Z) fd : (fd ∉ m) → m = m ∖ {[fd]}.
Proof. set_solver. Qed.

(** Exactly one table holds the descriptor. *)
Lemma node_ok_absent n fd K :
  node_ok n → kindof n fd = K →
  (K ≠ SOCKET → (fd ∉ keys (sockets_ (n_sock n))) ∧
     (fd ∉ keys (tcp_connections_ (n_sock n)) ∪ keys (udp_recv_buffers_ (n_sock n)))) ∧
  (K ≠ EPOLL → (fd ∉ keys (epoll_instances_ (n_sock n)))) ∧
  (K ≠ PIPE → (fd ∉ keys (pipe_fds_ (fss (n_ctx n))))) ∧
  (K ≠ FILE → K ≠ STDIO → (fd ∉ keys (open_files (fss (n_ctx n))))).
Proof.
  intros [O1 O2 O3 O4 O5] <-. split_and!.
  - intros H. assert (fd ∉ keys (sockets_ (n_sock n))) as Hs by (by rewrite O1). split; [done|]. intros Hin. by apply Hs, O5.
  - intros H. by rewrite O2.
  - intros H. by rewrite O3.
  - intros H H'. rewrite O4. tauto.
Qed.

Lemma released_kind k fd j s :
  fd_kind (mkFsCtx (release_fd fd <$> fdm k) s) j = if decide (j = fd) then UNKNOWN else fd_kind k j.
Proof. apply fd_kind_release. Qed.

Lemma preserves_close_file fd : preserves (on_ctx (do_close fd)).
Proof.
  apply preserves_on_ctx. intros n k' o H Hok.
  destruct (do_close_cases _ _ _ _ H) as [[-> _]|(_ & Ho & _ & ->)]; [by destruct n|].
  assert (kindof n fd = FILE ∨ kindof n fd = STDIO) as Hk by (apply (ok_file n Hok), elem_of_dom, Ho).
  destruct (node_ok_absent n fd _ Hok eq_refl) as (A1 & A2 & A3 & _).
  eapply node_shrink_ok; [|exact Hok].
  split; cbn [n_ctx n_sock fss set_open_files pipe_fds_ open_files].
  - intros j. apply released_kind.
  - apply absent, A1. by destruct Hk as [-> | ->].
  - apply absent, A2. by destruct Hk as [-> | ->].
  - apply absent, A3. by destruct Hk as [-> | ->].
  - apply dom_delete_L.
  - assert (kindof n fd ≠ SOCKET) as H1 by (by destruct Hk as [-> | ->]). destruct (A1 H1) as [_ H2]. set_solver.
Qed.

Lemma do_pipe_close_files fd k k' o : do_pipe_close fd k = (k', o) → open_files (fss k') = open_files (fss k).
Proof.
  unfold do_pipe_close, with_fs, fs_release_fd. unmonad. destruct (pipe_end k fd); [|by intros [= <- <-]].
  cbv zeta. destruct (pipes_ (fss k) !! _); by intros [= <- <-].
Qed.

Lemma preserves_close_pipe fd : preserves (on_ctx (do_pipe_close fd)).
Proof.
  apply preserves_on_ctx. intros n k' o H Hok. pose proof (do_pipe_close_files _ _ _ _ H) as Hfiles.
  destruct (do_pipe_close_cases _ _ _ _ H) as [(_ & -> & _)|(id & He & _ & Hfdm & Hf & _)]; [by destruct n|].
  apply pipe_end_fds in He. assert (kindof n fd = PIPE) as Hk by (apply (ok_pipe n Hok); by eapply elem_of_dom_2).
  destruct (node_ok_absent n fd _ Hok Hk) as (A1 & A2 & _ & A4).
  eapply node_shrink_ok; [|exact Hok].
  split; cbn [n_ctx n_sock].
  - intros j. destruct k' as [t' s']. cbn in Hfdm. subst t'. apply released_kind.
  - by apply absent, A1.
  - by apply absent, A2.
  - rewrite Hf. apply dom_delete_L.
  - rewrite Hfiles. by apply absent, A4.
  - destruct (A1 ltac:(done)) as [_ H2]. set_solver.
Qed.

Lemma forget_step fd s : sock_step s (forget_fd fd s).
Proof. apply sock_step_epoll. apply dom_fmap_L. Qed.

(** Drop a socket or epoll payload, then release the descriptor. *)
Lemma preserves_drop fd (K : FdType) (g : SockState → SockState) (r : Z) w w' o n :
  world_ok w → w_nodes w !! w_cursor w = Some n → kindof n fd = K → K = SOCKET ∨ K = EPOLL →
  keys (sockets_ (g (n_sock n))) = keys (sockets_ (n_sock n)) ∖ grown K SOCKET fd →
  keys (epoll_instances_ (g (n_sock n))) = keys (epoll_instances_ (n_sock n)) ∖ grown K EPOLL fd →
  keys (tcp_connections_ (g (n_sock n))) = keys (tcp_connections_ (n_sock n)) ∖ grown K SOCKET fd →
  keys (udp_recv_buffers_ (g (n_sock n))) = keys (udp_recv_buffers_ (n_sock n)) ∖ grown K SOCKET fd →
  (on_here g;; on_ctx (fs_release_fd fd);; mret r) w = (w', o) → world_ok w'.
Proof.
  intros Hw Hn Hk HK G1 G2 G3 G4. rewrite bind_run. cbn [on_here modify]. rewrite bind_run.
  assert (w_nodes (upd_sock (w_cursor w) g w) !! w_cursor w = Some (mkNode (n_ctx n) (g (n_sock n)) (n_addr n))) as Hn1.
  { unfold upd_sock, set_nodes. cbn [w_nodes]. by rewrite list_lookup_alter, decide_True, Hn. }
  set (w1 := upd_sock (w_cursor w) g w) in *. change (w_cursor w) with (w_cursor w1) in Hn1.
  destruct (on_ctx (fs_release_fd fd) w1) as [w2 o2] eqn:E.
  destruct (on_ctx_replaced _ _ _ _ _ Hn1 E) as (k' & Hk' & Hr). injection Hk' as <- <-.
  intros [= <- <-] i x Hx.
  destruct (Hr i x Hx) as [[-> ->]|[Hi Hx']].
  2: { unfold w1, upd_sock, set_nodes in Hx'. cbn [w_nodes] in Hx'.
       rewrite list_lookup_alter, decide_False in Hx' by (intros <-; by apply Hi). by eapply Hw. }
  destruct (node_ok_absent n fd K (Hw _ _ Hn) Hk) as (A1 & A2 & A3 & A4).
  eapply (node_shrink_ok n); [|by eapply Hw]. cbn [n_ctx n_sock n_addr].
  split; cbn [n_ctx n_sock fss pipe_fds_ open_files].
  - intros j. apply released_kind.
  - rewrite G1. destruct HK as [-> | ->]; unfold grown; simpl; [done|]. destruct (A1 ltac:(done)). set_solver.
  - rewrite G2. destruct HK as [-> | ->]; unfold grown; simpl; [|done]. specialize (A2 ltac:(done)). set_solver.
  - apply absent, A3. by destruct HK as [-> | ->].
  - apply absent, A4; by destruct HK as [-> | ->].
  - rewrite G3, G4. destruct HK as [-> | ->]; unfold grown; simpl; [set_solver|]. destruct (A1 ltac:(done)). set_solver.
Qed.

Lemma preserves_close_epoll fd : preserves (do_epoll_close fd).
Proof.
  intros w w' o. unfold do_epoll_close, here. rewrite bind_run.
  destruct (w_nodes w !! w_cursor w) as [n|] eqn:Hn; [|by intros [= <- <-]].
  destruct (epoll_instances_ (n_sock n) !! fd) as [e|] eqn:He; [|by intros [= <- <-]].
  intros H Hw. assert (kindof n fd = EPOLL) as Hk.
  { apply (ok_epoll n (Hw _ _ Hn)). by eapply elem_of_dom_2. }
  eapply (preserves_drop fd EPOLL); [done|done|done|by right|..|exact H]; unfold grown; simpl.
  - set_solver. - rewrite dom_fmap_L, dom_delete_L. done. - set_solver. - set_solver.
Qed.

Lemma notify_step n sock w : world_step w (notify_close inet_pton n sock w).
Proof.
  split; [done|]. unfold notify_close, set_nodes. cbn [w_nodes]. apply Forall2_fmap_r.
  apply Forall_Forall2_diag, Forall_forall. intros m _. split; [done|]. cbn [n_sock].
  set (s1 := set_sockets _ (n_sock m)).
  assert (sock_step (n_sock m) s1) as H1.
  { subst s1. apply (sock_step_sockets (fmap _)). intros x. apply dom_fmap_L. }
  etrans; [exact H1|]. unfold notify_peer. destruct (first_entry _ _) as [[fd r]|]; [|done].
  apply sock_step_tcp. rewrite dom_alter_L. apply union_subseteq_l.
Qed.

Lemma preserves_close_socket fd : preserves (do_close_socket inet_pton fd).
Proof.
  intros w w' o. unfold do_close_socket, here. rewrite bind_run.
  destruct (w_nodes w !! w_cursor w) as [n|] eqn:Hn; [|by intros [= <- <-]].
  destruct (sockets_ (n_sock n) !! fd) as [sock|] eqn:Hs; [|by intros [= <- <-]].
  rewrite bind_run. intros H Hw.
  assert (∃ w1, (if connected sock && (sk_type sock =? SOCK_STREAM) then modify (notify_close inet_pton n sock)
    else mret tt) w = (w1, Ret tt) ∧ world_step w w1) as (w1 & E & Hst).
  { destruct (_ && _); eexists; (split; [reflexivity|]); [apply notify_step|done]. }
  rewrite E in H. assert (has_socket fd w1) as (n1 & Hn1 & Hfd).
  { eapply has_socket_step; [exact Hst|]. exists n. split; [done|]. by eapply elem_of_dom_2. }
  pose proof (world_step_ok _ _ Hst Hw) as Hw1.
  assert (kindof n1 fd = SOCKET) as Hk by (by apply (ok_socket n1 (Hw1 _ _ Hn1))).
  eapply (preserves_drop fd SOCKET); [exact Hw1|exact Hn1|done|by left|..|exact H]; unfold grown; simpl.
  - by rewrite dom_delete_L. - rewrite dom_fmap_L. set_solver. - by rewrite dom_delete_L. - by rewrite dom_delete_L.
Qed.

Lemma preserves_emu_close th fd : preserves (emu_close inet_pton th fd).
Proof.
  unfold emu_close, require_no_pending_fd. apply preserves_bind; [apply preserves_stable; steady|]. intros _.
  unfold with_kind. apply preserves_bind; [apply preserves_stable; steady|]. intros t.
  destruct (negb _); [apply preserves_stable; steady|].
  apply preserves_bind.
  - destruct (get_fd_type t fd); auto using preserves_close_socket, preserves_close_pipe, preserves_close_epoll.
    + apply preserves_bind; [apply preserves_stable; steady|]. intros _. apply preserves_close_file.
    + apply preserves_bind; [apply preserves_stable; steady|]. intros _. apply preserves_close_file.
    + apply preserves_stable. unfold unsupported_kind. steady.
  - intros r. apply preserves_stable. pose proof (λ s, forget_step fd s). steady.
Qed.

(** ** Every call *)

Inductive io_call :=
  | CSocket (domain type protocol : Z) | CBind (fd addr len : Z) | CListen (fd backlog : Z)
  | CConnect (fd addr len : Z) | CAccept4 (fd addr len flags : Z) | CSendto (fd buf len flags dest dlen : Z)
  | CRecvfrom (fd buf len flags src slen choice : Z) | CSetsockopt (fd level name val len : Z)
  | CEpollCreate (flags : Z) | CEpollCtl (epfd op fd event : Z) | CEpollWait (epfd events max timeout : Z)
  | COpenat (dirfd : Z) (path : str) (flags mode : Z) | CPipe (flags : Z) | CLseek (fd off whence : Z)
  | CUnlink (dirfd : Z) (path : str) (flags : Z)
  | CRename (olddir : Z) (old : str) (newdir : Z) (new : str) (flags : Z)
  | CRead (fd buf count : Z) | CWrite (fd buf count : Z) | CWritev (fd iov count : Z)
  | CClose (fd : Z) | CFcntl (fd command argument : Z) | CFtruncate (fd length : Z) | CIoctl (fd request argument : Z).

Definition io_exec (threads : list thread_state) (c : io_call) : M (World FD Mem) unit :=
  let run {A} (m : M (World FD Mem) A) := m;; mret tt in
  match c with
  | CSocket d t p => run (do_socket d t p)
  | CBind fd a l => run (do_bind fd a l)
  | CListen fd b => run (do_listen fd b)
  | CConnect fd a l => run (do_connect inet_pton fd a l)
  | CAccept4 fd a l f => run (emu_accept4 fd a l f)
  | CSendto fd b l f d dl => run (do_sendto inet_pton fd b l f d dl)
  | CRecvfrom fd b l f s sl c => run (do_recvfrom_with_choice fd b l f s sl c)
  | CSetsockopt fd l n v len => run (emu_setsockopt fd l n v len)
  | CEpollCreate f => run (do_epoll_create1 f)
  | CEpollCtl e op fd ev => run (do_epoll_ctl e op fd ev)
  | CEpollWait e ev m t => run (do_epoll_wait e ev m t)
  | COpenat d p f mo => run (on_ctx (do_openat now d p f mo))
  | CPipe f => run (on_ctx (do_pipe f))
  | CLseek fd off wh => run (on_ctx (do_lseek fd off wh))
  | CUnlink d p f => run (on_ctx (do_unlinkat xxhash64 now d p f))
  | CRename d p d' p' f => run (on_ctx (do_renameat2 xxhash64 now d p d' p' f))
  | CRead fd b c => run (emu_read fd b c)
  | CWrite fd b c => run (emu_write inet_pton now fd b c)
  | CWritev fd g c => run (emu_writev inet_pton now fd g c)
  | CClose fd => run (emu_close inet_pton threads fd)
  | CFcntl fd c a => run (emu_fcntl threads fd c a)
  | CFtruncate fd l => run (emu_ftruncate now fd l)
  | CIoctl fd r a => run (emu_ioctl threads fd r a)
  end.

Lemma io_exec_preserves th c : preserves (io_exec th c).
Proof.
  assert (∀ A (m : M (World FD Mem) A), preserves m → preserves (m;; mret tt)) as Hrun.
  { intros A m Hm. apply preserves_bind; [done|]. intros. apply preserves_stable; steady. }
  destruct c; cbn [io_exec]; apply Hrun;
    auto using preserves_socket, preserves_accept4, preserves_epoll_create, preserves_openat, preserves_pipe,
      preserves_emu_close;
    apply preserves_stable;
    auto using stable_bind_call, stable_listen, stable_connect, stable_sendto, stable_recvfrom, stable_setsockopt,
      stable_epoll_ctl, stable_epoll_wait, stable_emu_read, stable_emu_write, stable_emu_writev, stable_emu_fcntl,
      stable_emu_ftruncate, stable_emu_ioctl with registry.
Qed.

(** A run: each call names the node it runs on, the memory of its process and
    the threads of the node. *)
Fixpoint io_run (l : list (nat * Mem * list thread_state * io_call)) w : World FD Mem :=
  match l with
  | [] => w
  | (i, m, th, c) :: l => io_run l (io_exec th c (scheduled i m w)).1
  end.

(** C28. The descriptor table and the payload tables always agree: from a world
    where they do, after any sequence of system calls by any nodes, with any
    outcomes and whatever their memory holds, a descriptor is registered as a
    socket, an epoll instance, a pipe end or a file exactly when the socket
    layer, the epoll table, the pipe table or the open-file table has its
    payload, no descriptor has two payloads, and no receive buffer outlives
    its socket; so the dispatch of the descriptor calls always finds the
    payload it expects, and a reused number never sees old data. *)
Theorem registry_agrees l w : world_ok w → world_ok (io_run l w).
Proof.
  revert w. induction l as [|[[[i m] th] c] l IH]; intros w Hw; cbn [io_run]; [done|].
  apply IH. destruct (io_exec th c (scheduled i m w)) as [w' o] eqn:E. exact (io_exec_preserves th c _ _ _ E Hw).
Qed.
End registry.

Lemma sample_kinds fd : fd_kind sample_ctx fd = if bool_decide (fd = 0 ∨ fd = 1 ∨ fd = 2) then STDIO else UNKNOWN.
Proof.
  unfold fd_kind, sample_ctx, FdManager_init, get_fd_type; cbn.
  destruct (bool_decide_reflect (fd = 0 ∨ fd = 1 ∨ fd = 2)) as [[-> |[-> | ->]]|H]; [done..|].
  rewrite !lookup_insert_ne by (clear -H; intuition). done.
Qed.

(** A freshly started node. *)
Lemma sample_node_ok host : node_ok (mkNode sample_ctx SockState_init host).
Proof.
  split; try (intros fd; cbn [n_ctx n_sock]; rewrite sample_kinds).
  1-3: destruct (bool_decide _); (split; [intros H; by apply elem_of_empty in H|done]).
  - replace (dom (open_files (fss sample_ctx))) with ({[0; 1; 2]} : gset Z) by (vm_compute; reflexivity).
    destruct (bool_decide_reflect (fd = 0 ∨ fd = 1 ∨ fd = 2)) as [H|H]; set_solver.
  - done.
Qed.

(** Two nodes that open descriptors of several kinds and close one. *)
Definition sample_run : list (nat * FlatMem * list thread_state * io_call) :=
  [(0%nat, sample_memory, [], CSocket AF_INET SOCK_STREAM 0); (1%nat, sample_memory, [], CPipe 0);
   (0%nat, sample_memory, [], COpenat AT_FDCWD (lit "ln/f") O_RDWR_CREAT 438); (0%nat, sample_memory, [], CClose 3)].

Lemma registry_agrees_witness :
  world_ok (io_run sample_pton sample_hash sample_now sample_run sample_nodes).
Proof.
  apply (registry_agrees sample_pton sample_hash sample_now sample_run sample_nodes).
  intros [|[|i]] n [= <-]; apply sample_node_ok.
Defined.
