(* ===== verification/Wire.v ===== *)
(** * The worker protocol

    [src/src/core/search/protocol.cpp]: framed messages between the search
    coordinator and its workers over a Unix stream socket.  The host is a
    script: what each [send], [recv] and [poll] answers, and whether the
    frame's deadline had passed at each reading of the clock ([late]).  A
    script that has run out stands for a peer that stays silent until the
    deadline.  The channel is one without the shared-object side channel
    ([blob_fd < 0]); the codec covers both frame versions. *)

From S2P Require Import Prelude Linux Bytes Guest Frontier.

(** ** Data *)

Record Limits := mkLimits {
  max_frame_bytes : Z;
  max_blob_bytes : Z;
  max_metadata_bytes : Z;
  max_blobs : Z;
  max_text_bytes : Z;
  io_timeout_ms : Z;
}.

(** [struct Limits]'s initializers *)
Definition default_limits : Limits :=
  mkLimits (8 * 2 ^ 30) (2 * 2 ^ 30) (64 * 2 ^ 20) 1000000 (2 ^ 20) 30000.

Record WireCounters := mkWireCounters {
  send_calls : Z;
  recv_calls : Z;
  poll_calls : Z;
  bytes_sent : Z;
  bytes_received : Z;
}.

Record Blob := mkBlob { blob_key : Z; blob_bytes : list byte }.
Record Bundle := mkBundle { b_version : Z; system_key : Z; metadata : list byte; blobs : list Blob }.
Record BlobSpec := mkSpec { spec_key : Z; spec_size : Z; reference : bool }.

Inductive TransitionAction := ActNormal | ActTimeout.
Inductive TransitionResultCode := CKPT_NO | CKPT_YES | CKPT_EXIT | CKPT_STOP | CKPT_DISCARD.
Inductive DoneKind := DExpanded | DTerminal | DDepthCut | DModelBudget | DViolation.

Record ActorAction := mkActor { a_process : Z; a_thread : Z; a_action : TransitionAction }.

Record Edge := mkEdge {
  e_lease_id : Z;
  e_source : Z;
  e_target : Z;
  e_actor : ActorAction;
  e_choice : Z;
  e_choice_count : Z;
  property_violation : bool;
  result_code : TransitionResultCode;
  e_bundle : Bundle;
}.

(** [using Message = std::variant<Hello, Task, Edge, Done, Error, Shutdown>] *)
Inductive Message :=
  | MHello (model_identity compatibility : str)
  | MTask (ticket : Ticket) (bundle : Bundle)
  | MEdge (edge : Edge)
  | MDone (lease_id source : Z) (kind : DoneKind) (emitted : Z)
  | MError (lease_id source : Z) (why : str)
  | MShutdown.

(** [message.index() + 1], the [Type] in the header *)
Definition message_type (m : Message) : Z :=
  match m with
  | MHello _ _ => 1
  | MTask _ _ => 2
  | MEdge _ => 3
  | MDone _ _ _ _ => 4
  | MError _ _ _ => 5
  | MShutdown => 6
  end.

Definition action_code (a : TransitionAction) : Z := match a with ActNormal => 0 | ActTimeout => 1 end.
Definition action_of (z : Z) : TransitionAction := if z =? 0 then ActNormal else ActTimeout.

Definition result_code_of (z : Z) : TransitionResultCode :=
  match z with 0 => CKPT_NO | 1 => CKPT_YES | 2 => CKPT_EXIT | 3 => CKPT_STOP | _ => CKPT_DISCARD end.
Definition result_code_Z (c : TransitionResultCode) : Z :=
  match c with CKPT_NO => 0 | CKPT_YES => 1 | CKPT_EXIT => 2 | CKPT_STOP => 3 | CKPT_DISCARD => 4 end.

Definition done_kind_of (z : Z) : DoneKind :=
  match z with 0 => DExpanded | 1 => DTerminal | 2 => DDepthCut | 3 => DModelBudget | _ => DViolation end.
Definition done_kind_Z (k : DoneKind) : Z :=
  match k with DExpanded => 0 | DTerminal => 1 | DDepthCut => 2 | DModelBudget => 3 | DViolation => 4 end.

Definition magic : Z := 1347900228.
Definition wire_version : Z := 1.
Definition buffer_size : Z := 65536.
Definition sizeof_Blob : Z := 32.

(** ** The host *)

(** What the calls answer.  [Accept n] and [Deliver n] move [n + 1] bytes, or
    as many as there are or fit; [Deliver] at the end of the stream is the
    end of file. *)
Inductive send_event := Accept (n : Z) | Refuse | SendIntr | SendAgain | SendFail.
Inductive recv_event := Deliver (n : Z) | RecvIntr | RecvAgain | RecvFail.
Inductive poll_event := PollReady | PollNone | PollIntr | PollFail | PollInvalid.

Record Host := mkHost {
  h_ticks : nat;
  h_sends : list send_event;
  h_recvs : list recv_event;
  h_polls : list poll_event;
  h_sent : list byte;
  h_incoming : list byte;
  h_counters : WireCounters;
}.

Definition deadline_exceeded : exn := runtime_error "Worker protocol frame deadline exceeded".

Definition tick (h : Host) : Host :=
  mkHost (S (h_ticks h)) (h_sends h) (h_recvs h) (h_polls h) (h_sent h) (h_incoming h) (h_counters h).
Definition set_sends (l : list send_event) (h : Host) : Host :=
  mkHost (h_ticks h) l (h_recvs h) (h_polls h) (h_sent h) (h_incoming h) (h_counters h).
Definition set_recvs (l : list recv_event) (h : Host) : Host :=
  mkHost (h_ticks h) (h_sends h) l (h_polls h) (h_sent h) (h_incoming h) (h_counters h).
Definition set_polls (l : list poll_event) (h : Host) : Host :=
  mkHost (h_ticks h) (h_sends h) (h_recvs h) l (h_sent h) (h_incoming h) (h_counters h).
Definition count (g : WireCounters → WireCounters) (h : Host) : Host :=
  mkHost (h_ticks h) (h_sends h) (h_recvs h) (h_polls h) (h_sent h) (h_incoming h) (g (h_counters h)).
Definition put_wire (bs : list byte) (h : Host) : Host :=
  mkHost (h_ticks h) (h_sends h) (h_recvs h) (h_polls h) (h_sent h ++ bs) (h_incoming h) (h_counters h).
Definition set_incoming (bs : list byte) (h : Host) : Host :=
  mkHost (h_ticks h) (h_sends h) (h_recvs h) (h_polls h) (h_sent h) bs (h_counters h).

Definition count_send (c : WireCounters) : WireCounters :=
  mkWireCounters (send_calls c + 1) (recv_calls c) (poll_calls c) (bytes_sent c) (bytes_received c).
Definition count_recv (c : WireCounters) : WireCounters :=
  mkWireCounters (send_calls c) (recv_calls c + 1) (poll_calls c) (bytes_sent c) (bytes_received c).
Definition count_poll (c : WireCounters) : WireCounters :=
  mkWireCounters (send_calls c) (recv_calls c) (poll_calls c + 1) (bytes_sent c) (bytes_received c).
Definition count_sent (n : Z) (c : WireCounters) : WireCounters :=
  mkWireCounters (send_calls c) (recv_calls c) (poll_calls c) (bytes_sent c + n) (bytes_received c).
Definition count_received (n : Z) (c : WireCounters) : WireCounters :=
  mkWireCounters (send_calls c) (recv_calls c) (poll_calls c) (bytes_sent c) (bytes_received c + n).

Section wire.
Context (late : nat → bool).

Definition require_time : M Host unit := λ h,
  (tick h, if late (h_ticks h) then Throw deadline_exceeded else Ret tt).

(** [await_ready]: one turn of the loop per [poll] *)
Fixpoint await_loop (ps : list poll_event) : M Host unit := λ h,
  match require_time h with
  | (h, Throw e) => (set_polls ps h, Throw e)
  | (h, Ret _) =>
      match ps with
      | [] => (set_polls [] h, Throw deadline_exceeded)
      | p :: ps =>
          let h := count count_poll h in
          match p with
          | PollIntr | PollNone => await_loop ps h
          | PollFail => (set_polls ps h, Throw (runtime_error "Worker protocol poll"))
          | PollInvalid => (set_polls ps h, Throw (runtime_error "Worker protocol descriptor is invalid"))
          | PollReady => (set_polls ps h, Ret tt)
          end
      end
  end.

Definition await_ready : M Host unit := λ h, await_loop (h_polls h) h.

(** ** Output *)

Fixpoint write_loop (evs : list send_event) (bs : list byte) : M Host unit := λ h,
  match bs with
  | [] => (set_sends evs h, Ret tt)
  | _ =>
      match require_time h with
      | (h, Throw e) => (set_sends evs h, Throw e)
      | (h, Ret _) =>
          match evs with
          | [] => (set_sends [] h, Throw deadline_exceeded)
          | ev :: evs =>
              let h := count count_send h in
              match ev with
              | SendIntr => write_loop evs bs h
              | SendAgain =>
                  match await_ready h with
                  | (h, Ret _) => write_loop evs bs h
                  | (h, Throw e) => (set_sends evs h, Throw e)
                  end
              | SendFail => (set_sends evs h, Throw (runtime_error "Worker protocol send"))
              | Refuse => (set_sends evs h, Throw (runtime_error "Worker protocol write made no progress"))
              | Accept n =>
                  let k := S (Z.to_nat n) in
                  let written := take k bs in
                  write_loop evs (drop k bs) (count (count_sent (zlength written)) (put_wire written h))
              end
          end
      end
  end.

Definition write_exact (bs : list byte) : M Host unit := λ h, write_loop (h_sends h) bs h.

(** [struct Output]: the bytes in its buffer, and the host *)
Record Output := mkOutput { o_buffer : list byte; o_host : Host }.

Definition on_output_host {A} (m : M Host A) : M Output A :=
  zoom o_host (λ h o, mkOutput (o_buffer o) h) m.

Definition flush : M Output unit :=
  o ← get;
  on_output_host (write_exact (o_buffer o));;
  modify (λ o, mkOutput [] (o_host o)).

(** The copying loop of [append]; the first argument bounds its turns. *)
Fixpoint append_loop (fuel : nat) (bs : list byte) : M Output unit :=
  match fuel with
  | O => throw (runtime_error "append: out of fuel")
  | S fuel =>
      match bs with
      | [] => mret tt
      | _ =>
          o ← get;
          let count := Z.min (zlength bs) (buffer_size - zlength (o_buffer o)) in
          let used := o_buffer o ++ take (Z.to_nat count) bs in
          put (mkOutput used (o_host o));;
          (if zlength used =? buffer_size then flush else mret tt);;
          append_loop fuel (drop (Z.to_nat count) bs)
      end
  end.

Definition append (bs : list byte) : M Output unit :=
  if buffer_size <=? zlength bs then flush;; on_output_host (write_exact bs)
  else append_loop (S (length bs)) bs.

(** ** Writer *)

(** [struct Writer]: [None] measures only *)
Record Writer := mkWriter { w_size : Z; w_output : option Output }.
Abbreviation WM := (M Writer).

Definition on_output (m : M Output unit) : WM unit := λ w,
  match w_output w with
  | None => (w, Ret tt)
  | Some o => let '(o, r) := m o in (mkWriter (w_size w) (Some o), r)
  end.

Section writer.
Context (limits : Limits) (specs : option (list BlobSpec)).

Definition w_bytes (bs : list byte) : WM unit :=
  w ← get;
  throw_if ((max_frame_bytes limits - w_size w <? zlength bs) || (SIZE_MAX <? zlength bs))
    (runtime_error "Worker protocol frame exceeds transfer limit");;
  put (mkWriter (w_size w + zlength bs) (w_output w));;
  (if negb (zlength bs =? 0) then on_output (append bs) else mret tt).

(** [scalar<T>], with the size of [T] *)
Definition w_scalar (n : nat) (z : Z) : WM unit := w_bytes (le_bytes n z).

Definition w_text (s : str) : WM unit :=
  throw_if (max_text_bytes limits <? zlength s) (runtime_error "Worker protocol text exceeds transfer limit");;
  w_scalar 8 (zlength s);;
  w_bytes s.

Fixpoint w_blobs (index : nat) (raw_total : Z) (l : list Blob) : WM unit :=
  match l with
  | [] => mret tt
  | b :: l =>
      let size := zlength (blob_bytes b) in
      throw_if ((max_blob_bytes limits <? size) || (max_frame_bytes limits - raw_total <? size))
        (runtime_error "Worker bundle blob exceeds transfer limit");;
      w_scalar 8 (blob_key b);;
      w_scalar 8 size;;
      match specs with
      | Some specs =>
          match specs !! index with
          | Some s => w_scalar 1 (Z.b2z (reference s))
          | None => throw (out_of_range "vector::at")
          end
      | None => w_bytes (blob_bytes b)
      end;;
      w_blobs (S index) (raw_total + size) l
  end.

Definition w_bundle (b : Bundle) : WM unit :=
  throw_if ((max_metadata_bytes limits <? zlength (metadata b)) || (max_blobs limits <? zlength (blobs b)))
    (runtime_error "Worker bundle metadata/object count exceeds transfer limit");;
  w_scalar 4 (b_version b);;
  w_scalar 8 (system_key b);;
  w_scalar 8 (zlength (metadata b));;
  w_bytes (metadata b);;
  w_scalar 8 (zlength (blobs b));;
  w ← get;
  w_blobs 0 (w_size w) (blobs b).

Definition encode (m : Message) : WM unit :=
  match m with
  | MHello model compat => w_text model;; w_text compat
  | MTask t b =>
      w_scalar 8 (t_state t);; w_scalar 8 (t_worker t);; w_scalar 8 (t_lease_id t);; w_scalar 8 (t_depth t);;
      w_scalar 1 (Z.b2z (t_may_expand t));; w_bundle b
  | MEdge e =>
      w_scalar 8 (e_lease_id e);; w_scalar 8 (e_source e);; w_scalar 8 (e_target e);;
      w_scalar 4 (uint32 (a_process (e_actor e)));; w_scalar 4 (uint32 (a_thread (e_actor e)));;
      w_scalar 1 (action_code (a_action (e_actor e)));; w_scalar 4 (uint32 (e_choice e));;
      w_scalar 4 (e_choice_count e);; w_scalar 1 (Z.b2z (property_violation e));;
      w_scalar 1 (result_code_Z (result_code e));; w_bundle (e_bundle e)
  | MDone lease source kind emitted =>
      w_scalar 8 lease;; w_scalar 8 source;; w_scalar 1 (done_kind_Z kind);; w_scalar 8 emitted
  | MError lease source why => w_scalar 8 lease;; w_scalar 8 source;; w_text why
  | MShutdown => mret tt
  end.
End writer.

(** ** Input *)

(** [struct Input]: the bytes between [begin] and [end], and the host *)
Record Input := mkInput { i_buffer : list byte; i_host : Host }.

(** A read returns the bytes, or [None] for an end of file the caller allows. *)
Abbreviation read_result := (Input * outcome (option (list byte)))%type.

(** One [recv] of [Input::read], when [need] bytes are missing and the buffer
    is empty; [next] goes on with the loop. *)
Definition recv_turn (allow_eof : bool) (r : recv_event) (rs : list recv_event)
    (next : Z → list byte → Input → read_result) (need : Z) (acc : list byte) (h : Host) : read_result :=
  let stop (h : Host) o := (mkInput [] (set_recvs rs h), o) in
  let h := count count_recv h in
  match r with
  | RecvIntr => next need acc (mkInput [] h)
  | RecvAgain =>
      match await_ready h with
      | (h, Ret _) => next need acc (mkInput [] h)
      | (h, Throw e) => stop h (Throw e)
      end
  | RecvFail => stop h (Throw (runtime_error "Worker protocol receive"))
  | Deliver n =>
      let direct := buffer_size <=? need in
      let capacity := if direct then need else buffer_size in
      let k := Nat.min (S (Z.to_nat n)) (Z.to_nat capacity) in
      let received := take k (h_incoming h) in
      let h := set_incoming (drop k (h_incoming h)) h in
      match received with
      | [] =>
          stop h (if bool_decide (acc = []) && allow_eof then Ret None
                  else Throw (runtime_error "Truncated worker protocol frame"))
      | _ =>
          let h := count (count_received (zlength received)) h in
          if direct then next (need - zlength received) (acc ++ received) (mkInput [] h)
          else next need acc (mkInput received h)
      end
  end.

(** The start of a turn: what the buffer holds is copied first, which takes a
    turn of its own; [receive] goes on when bytes are still missing. *)
Definition read_turn (rs : list recv_event) (receive : Z → list byte → Host → read_result)
    (need : Z) (acc : list byte) (i : Input) : read_result :=
  let stop (b : list byte) (h : Host) o := (mkInput b (set_recvs rs h), o) in
  if need <=? 0 then stop (i_buffer i) (i_host i) (Ret (Some acc))
  else
    match require_time (i_host i) with
    | (h, Throw e) => stop (i_buffer i) h (Throw e)
    | (h, Ret _) =>
        match i_buffer i with
        | [] => receive need acc h
        | b =>
            let count := Z.min need (zlength b) in
            let rest := drop (Z.to_nat count) b in
            let acc := acc ++ take (Z.to_nat count) b in
            if need - count <=? 0 then stop rest h (Ret (Some acc))
            else
              match require_time h with
              | (h, Throw e) => stop rest h (Throw e)
              | (h, Ret _) => receive (need - count) acc h
              end
        end
    end.

(** The loop of [Input::read], with [need] bytes missing and [acc] read. *)
Fixpoint read_loop (allow_eof : bool) (rs : list recv_event) (need : Z) (acc : list byte) (i : Input) : read_result :=
  read_turn rs
    (match rs with
     | [] => λ _ _ h, (mkInput [] (set_recvs [] h), Throw deadline_exceeded)
     | r :: rs => recv_turn allow_eof r rs (read_loop allow_eof rs)
     end) need acc i.

Definition input_read (length : Z) (allow_eof : bool) : M Input (option (list byte)) := λ i,
  read_loop allow_eof (h_recvs (i_host i)) length [] i.

(** ** Reader *)

Record Reader := mkReader { r_remaining : Z; r_specs : option (list BlobSpec); r_input : Input }.
Abbreviation RM := (M Reader).

Section reader.
Context (limits : Limits).

Definition r_bytes (length : Z) : RM (list byte) :=
  r ← get;
  throw_if ((r_remaining r <? length) || (SIZE_MAX <? length))
    (runtime_error "Worker protocol payload length mismatch");;
  put (mkReader (r_remaining r - length) (r_specs r) (r_input r));;
  if length =? 0 then mret []
  else
    bs ← zoom r_input (λ i r, mkReader (r_remaining r) (r_specs r) i) (input_read length false);
    mret (default [] bs).

Definition r_scalar (n : Z) : RM Z := bs ← r_bytes n; mret (le_Z bs).

Definition r_boolean : RM bool :=
  v ← r_scalar 1;
  throw_if (1 <? v) (runtime_error "Invalid worker protocol boolean");;
  mret (negb (v =? 0)).

Definition r_length (limit : Z) : RM Z :=
  n ← r_scalar 8;
  r ← get;
  throw_if ((limit <? n) || (r_remaining r <? n) || (SIZE_MAX <? n))
    (runtime_error "Worker protocol length exceeds transfer limit or payload");;
  mret n.

Definition r_text : RM str := n ← r_length (max_text_bytes limits); r_bytes n.

Fixpoint r_blobs (n : nat) (total : Z) (acc : list Blob) : RM (list Blob) :=
  match n with
  | O => mret acc
  | S n =>
      key ← r_scalar 8;
      r ← get;
      match r_specs r with
      | Some _ =>
          size ← r_scalar 8;
          throw_if ((max_blob_bytes limits <? size) || (SIZE_MAX <? size) || (max_frame_bytes limits - total <? size))
            (runtime_error "Shared worker bundle exceeds transfer limit");;
          b ← r_boolean;
          modify (λ r, mkReader (r_remaining r) (option_map (λ l, l ++ [mkSpec key size b]) (r_specs r)) (r_input r));;
          r_blobs n (total + size) acc
      | None =>
          size ← r_length (max_blob_bytes limits);
          bs ← r_bytes size;
          r_blobs n total (acc ++ [mkBlob key bs])
      end
  end.

Definition r_bundle : RM Bundle :=
  version ← r_scalar 4;
  key ← r_scalar 8;
  n ← r_length (max_metadata_bytes limits);
  meta ← r_bytes n;
  count ← r_scalar 8;
  r ← get;
  throw_if ((max_blobs limits <? count) ||
            (r_remaining r / (match r_specs r with Some _ => 17 | None => 16 end) <? count) ||
            (SIZE_MAX / sizeof_Blob <? count))
    (runtime_error "Worker bundle object count exceeds transfer limit or payload");;
  l ← r_blobs (Z.to_nat count) (zlength meta) [];
  mret (mkBundle version key meta l).

Definition decode_edge : RM Edge :=
  lease ← r_scalar 8; source ← r_scalar 8; target ← r_scalar 8;
  process ← r_scalar 4; thread ← r_scalar 4;
  throw_if ((INT_MAX <? process) || (INT_MAX <? thread)) (runtime_error "Invalid worker protocol actor");;
  action ← r_scalar 1;
  throw_if (1 <? action) (runtime_error "Invalid worker protocol action");;
  choice ← r_scalar 4;
  throw_if ((INT_MAX <? choice) && negb (choice =? uint32 (-1)) && negb (choice =? uint32 (-2)))
    (runtime_error "Invalid worker protocol choice");;
  count ← r_scalar 4;
  throw_if (INT_MAX <? count) (runtime_error "Invalid worker protocol choice count");;
  violation ← r_boolean;
  code ← r_scalar 1;
  throw_if (4 <? code) (runtime_error "Invalid worker protocol transition result code");;
  b ← r_bundle;
  mret (mkEdge lease source target (mkActor process thread (action_of action))
          (if choice =? uint32 (-1) then -1 else if choice =? uint32 (-2) then -2 else choice)
          count violation (result_code_of code) b).

Definition decode (type : Z) : RM Message :=
  if type =? 1 then model ← r_text; compat ← r_text; mret (MHello model compat)
  else if type =? 2 then
    state ← r_scalar 8; worker ← r_scalar 8; lease ← r_scalar 8; depth ← r_scalar 8;
    may_expand ← r_boolean;
    b ← r_bundle;
    mret (MTask (mkTicket state worker lease depth may_expand) b)
  else if type =? 3 then e ← decode_edge; mret (MEdge e)
  else if type =? 4 then
    lease ← r_scalar 8; source ← r_scalar 8;
    kind ← r_scalar 1;
    throw_if (4 <? kind) (runtime_error "Invalid worker protocol completion kind");;
    emitted ← r_scalar 8;
    mret (MDone lease source (done_kind_of kind) emitted)
  else if type =? 5 then lease ← r_scalar 8; source ← r_scalar 8; why ← r_text; mret (MError lease source why)
  else if type =? 6 then mret MShutdown
  else throw (runtime_error "Unknown worker protocol message type").
End reader.

(** ** Channel *)

Record Channel := mkChannel {
  c_fd : Z;
  c_limits : Limits;
  c_failed : bool;
  c_input : list byte;
  c_host : Host;
}.

(** [Channel::Channel], without a side channel: what the host says of the
    descriptor's type and family, and whether setting the timeouts worked *)
Definition channel_open (fd : Z) (limits : Limits) (host : Host) (type family : option Z) (timeouts : bool)
    : outcome Channel :=
  if (fd <? 0) || (max_frame_bytes limits =? 0) || (max_blob_bytes limits =? 0) || (max_metadata_bytes limits =? 0) ||
     (max_blobs limits =? 0) || (max_text_bytes limits =? 0) || (io_timeout_ms limits <=? 0)
  then Throw (runtime_error "Invalid worker protocol descriptor or limits")
  else if negb (bool_decide (type = Some SOCK_STREAM))
  then Throw (runtime_error "Worker protocol requires a stream socket")
  else if negb (bool_decide (family = Some 1))
  then Throw (runtime_error "Worker protocol requires a Unix socket")
  else if negb timeouts then Throw (runtime_error "Worker protocol timeout setup")
  else Ret (mkChannel fd limits false [] host).

Definition has_buffered_input (c : Channel) : bool := negb (bool_decide (c_input c = [])).

Definition frame_header (type size : Z) : list byte :=
  le_bytes 4 magic ++ le_bytes 2 wire_version ++ le_bytes 2 type ++ le_bytes 8 size.

Definition set_host (h : Host) (c : Channel) : Channel :=
  mkChannel (c_fd c) (c_limits c) (c_failed c) (c_input c) h.
Definition set_failed (c : Channel) : Channel :=
  mkChannel (c_fd c) (c_limits c) true (c_input c) (c_host c).

Definition unusable : exn := runtime_error "Worker protocol stream is unusable".

(** [catch (...) { failed_ = true; throw; }] *)
Definition marking {A} (m : M Channel A) : M Channel A := λ c,
  match m c with
  | (c, Ret a) => (c, Ret a)
  | (c, Throw e) => (set_failed c, Throw e)
  end.

(** The second pass of [encode], into the output. *)
Definition encode_into (limits : Limits) (m : Message) : M Output unit := λ o,
  let '(w, r) := encode limits None m (mkWriter 0 (Some o)) in
  (default o (w_output w), r).

Definition send_frame (limits : Limits) (m : Message) (size : Z) : M Output unit :=
  append (frame_header (message_type m) size);;
  encode_into limits m;;
  flush;;
  on_output_host require_time.

Definition on_output_of {A} (m : M Output A) : M Channel A := λ c,
  let '(o, r) := m (mkOutput [] (c_host c)) in (set_host (o_host o) c, r).

(** [Channel::send]; [mode] is the environment variable. *)
Definition channel_send (mode : option str) (m : Message) : M Channel unit :=
  c ← get;
  throw_if (c_failed c || (c_fd c <? 0)) unusable;;
  marking (
    throw_if (match mode with
              | Some v => negb (bool_decide (v = lit "on")) && negb (bool_decide (v = lit "off"))
              | None => false
              end) (runtime_error "Invalid DETSIM_SHARED_OBJECTS: expected on or off");;
    size ← lift (let '(measure, r) := encode (c_limits c) None m (mkWriter 0 None) in _ ← r; Ret (w_size measure));
    on_output_of (send_frame (c_limits c) m size)).

Definition on_input {A} (m : M Input A) : M Channel A := λ c,
  let '(i, r) := m (mkInput (c_input c) (c_host c)) in
  (mkChannel (c_fd c) (c_limits c) (c_failed c) (i_buffer i) (i_host i), r).

(** The payload of a frame. *)
Definition receive_body (limits : Limits) (type size : Z) : M Input Message := λ i,
  match decode limits type (mkReader size None i) with
  | (r, Throw e) => (r_input r, Throw e)
  | (r, Ret m) =>
      if negb (r_remaining r =? 0)
      then (r_input r, Throw (runtime_error "Trailing worker protocol payload bytes"))
      else
        let '(h, o) := require_time (i_host (r_input r)) in
        (mkInput (i_buffer (r_input r)) h, match o with Ret _ => Ret m | Throw e => Throw e end)
  end.

(** [Channel::receive] *)
Definition channel_receive : M Channel (option Message) :=
  c ← get;
  throw_if (c_failed c || (c_fd c <? 0)) unusable;;
  marking (
    header ← on_input (input_read 16 true);
    match header with
    | None => modify set_failed;; mret None
    | Some header =>
        let version := le_Z (take 2 (drop 4 header)) in
        throw_if (negb (le_Z (take 4 header) =? magic) || (negb (version =? wire_version) && negb (version =? 2)))
          (runtime_error "Worker protocol magic/version mismatch");;
        let type := le_Z (take 2 (drop 6 header)) in
        let size := le_Z (drop 8 header) in
        throw_if ((type <? 1) || (6 <? type)) (runtime_error "Unknown worker protocol message type");;
        throw_if (max_frame_bytes (c_limits c) <? size)
          (runtime_error "Worker protocol frame exceeds transfer limit");;
        throw_if (version =? 2) (runtime_error "Shared worker frame requires object channel and bundle message");;
        m ← on_input (receive_body (c_limits c) type size);
        mret (Some m)
    end).
End wire.
