(* ===== verification/WireProps.v ===== *)
(** * The worker protocol, proved

    Messages survive the wire: the codec, the output buffer with its partial
    writes, and the input buffer that reads ahead across frames. *)

From S2P Require Import Prelude Linux Bytes Guest Frontier Wire.

(** ** Little-endian numbers *)

Lemma byte_of_Z_cong z z' : uint8 z = uint8 z' → byte_of_Z z = byte_of_Z z'.
Proof. unfold byte_of_Z. by intros ->. Qed.

Lemma le_bytes_Z bs : le_bytes (length bs) (le_Z bs) = bs.
Proof.
  induction bs as [|b bs IH]; cbn [length le_bytes le_Z]; [done|].
  pose proof (Z_of_byte_range b).
  replace ((Z_of_byte b + 256 * le_Z bs) / 256) with (le_Z bs).
  2:{ rewrite Z.mul_comm, Z.div_add, Z.div_small by lia. lia. }
  rewrite IH. f_equal. rewrite <- (byte_of_Z_of_byte b) at 2. apply byte_of_Z_cong. unfold uint8.
  rewrite Z.mul_comm. change 256 with (2 ^ 8). by rewrite Z.mod_add.
Qed.

Lemma le_Z_range bs : 0 ≤ le_Z bs < 256 ^ zlength bs.
Proof.
  induction bs as [|b bs IH]; [unfold zlength; simpl; lia|]. rewrite zlength_cons, Z.pow_add_r by (pose proof (zlength_nonneg bs); lia).
  cbn [le_Z]. pose proof (Z_of_byte_range b). nia.
Qed.

Lemma le_Z_small n z : 0 ≤ z < 256 ^ Z.of_nat n → le_Z (le_bytes n z) = z.
Proof. intros. rewrite le_Z_bytes. by apply Z.mod_small. Qed.

Lemma zlength_take {A} n (l : list A) : 0 ≤ n ≤ zlength l → zlength (take (Z.to_nat n) l) = n.
Proof. unfold zlength. intros. rewrite length_take. lia. Qed.
Lemma zlength_drop {A} n (l : list A) : 0 ≤ n ≤ zlength l → zlength (drop (Z.to_nat n) l) = zlength l - n.
Proof. unfold zlength. intros. rewrite length_drop. lia. Qed.
Lemma zlength_0 {A} (l : list A) : zlength l = 0 → l = [].
Proof. unfold zlength. destruct l; [done|]. simpl. lia. Qed.

(** ** The reference encoding *)

Definition text_payload (s : str) : list byte := le_bytes 8 (zlength s) ++ s.

Definition blob_payload (b : Blob) : list byte :=
  le_bytes 8 (blob_key b) ++ le_bytes 8 (zlength (blob_bytes b)) ++ blob_bytes b.

Definition bundle_payload (b : Bundle) : list byte :=
  le_bytes 4 (b_version b) ++ le_bytes 8 (system_key b) ++ le_bytes 8 (zlength (metadata b)) ++ metadata b ++
  le_bytes 8 (zlength (blobs b)) ++ concat (blob_payload <$> blobs b).

Definition payload (m : Message) : list byte :=
  match m with
  | MHello model compat => text_payload model ++ text_payload compat
  | MTask t b =>
      le_bytes 8 (t_state t) ++ le_bytes 8 (t_worker t) ++ le_bytes 8 (t_lease_id t) ++ le_bytes 8 (t_depth t) ++
      le_bytes 1 (Z.b2z (t_may_expand t)) ++ bundle_payload b
  | MEdge e =>
      le_bytes 8 (e_lease_id e) ++ le_bytes 8 (e_source e) ++ le_bytes 8 (e_target e) ++
      le_bytes 4 (uint32 (a_process (e_actor e))) ++ le_bytes 4 (uint32 (a_thread (e_actor e))) ++
      le_bytes 1 (action_code (a_action (e_actor e))) ++ le_bytes 4 (uint32 (e_choice e)) ++
      le_bytes 4 (e_choice_count e) ++ le_bytes 1 (Z.b2z (property_violation e)) ++
      le_bytes 1 (result_code_Z (result_code e)) ++ bundle_payload (e_bundle e)
  | MDone lease source kind emitted =>
      le_bytes 8 lease ++ le_bytes 8 source ++ le_bytes 1 (done_kind_Z kind) ++ le_bytes 8 emitted
  | MError lease source why => le_bytes 8 lease ++ le_bytes 8 source ++ text_payload why
  | MShutdown => []
  end.

Definition frame (m : Message) : list byte := frame_header (message_type m) (zlength (payload m)) ++ payload m.

(** Field ranges: those of the C++ types, and those the receiver insists on. *)
Definition u64 (z : Z) : Prop := 0 ≤ z < 256 ^ 8.
Definition blob_ok (b : Blob) : Prop := u64 (blob_key b).
Definition bundle_ok (b : Bundle) : Prop :=
  0 ≤ b_version b < 256 ^ 4 ∧ u64 (system_key b) ∧ Forall blob_ok (blobs b) ∧
  zlength (blobs b) ≤ SIZE_MAX / sizeof_Blob.
Definition message_ok (m : Message) : Prop :=
  match m with
  | MHello _ _ | MShutdown => True
  | MTask t b => u64 (t_state t) ∧ u64 (t_worker t) ∧ u64 (t_lease_id t) ∧ u64 (t_depth t) ∧ bundle_ok b
  | MEdge e =>
      u64 (e_lease_id e) ∧ u64 (e_source e) ∧ u64 (e_target e) ∧
      0 ≤ a_process (e_actor e) ≤ INT_MAX ∧ 0 ≤ a_thread (e_actor e) ≤ INT_MAX ∧
      -2 ≤ e_choice e ≤ INT_MAX ∧ 0 ≤ e_choice_count e ≤ INT_MAX ∧ bundle_ok (e_bundle e)
  | MDone lease source _ emitted => u64 lease ∧ u64 source ∧ u64 emitted
  | MError lease source _ => u64 lease ∧ u64 source
  end.

(** What the limits allow. *)
Section fits.
Context (L : Limits).

Definition text_fits (s : str) : Prop := zlength s ≤ max_text_bytes L.
Definition blob_fits (b : Blob) : Prop := zlength (blob_bytes b) ≤ max_blob_bytes L.
Definition bundle_fits (b : Bundle) : Prop :=
  zlength (metadata b) ≤ max_metadata_bytes L ∧ zlength (blobs b) ≤ max_blobs L ∧ Forall blob_fits (blobs b).
Definition parts_fit (m : Message) : Prop :=
  match m with
  | MHello model compat => text_fits model ∧ text_fits compat
  | MTask _ b => bundle_fits b
  | MEdge e => bundle_fits (e_bundle e)
  | MError _ _ why => text_fits why
  | _ => True
  end.
Definition fits (m : Message) : Prop := parts_fit m ∧ zlength (payload m) ≤ max_frame_bytes L.

Definition limits_ok : Prop := max_frame_bytes L ≤ UINT64_MAX.
End fits.

(** ** Cooperative hosts

    No call fails, every wait for readiness is answered, and the peer takes
    or gives at least one byte for every byte still to move. *)

Definition polls_good (ps : list poll_event) : Prop := Forall (λ p, p ≠ PollFail ∧ p ≠ PollInvalid) ps.
Definition is_ready (p : poll_event) : bool := match p with PollReady => true | _ => false end.
Definition is_accept (e : send_event) : bool := match e with Accept _ => true | _ => false end.
Definition is_send_again (e : send_event) : bool := match e with SendAgain => true | _ => false end.
Definition is_deliver (e : recv_event) : bool := match e with Deliver _ => true | _ => false end.
Definition is_recv_again (e : recv_event) : bool := match e with RecvAgain => true | _ => false end.
Definition tally {A} (f : A → bool) (l : list A) : Z := zlength (List.filter f l).

Lemma tally_cons {A} (f : A → bool) x l : tally f (x :: l) = (if f x then 1 else 0) + tally f l.
Proof. unfold tally. cbn [List.filter]. destruct (f x); [apply zlength_cons|done]. Qed.
Lemma tally_nil {A} (f : A → bool) : tally f [] = 0.
Proof. done. Qed.
Lemma tally_nonneg {A} (f : A → bool) l : 0 ≤ tally f l.
Proof. apply zlength_nonneg. Qed.

Record sender_ready (n : Z) (evs : list send_event) (ps : list poll_event) : Prop := {
  sr_events : Forall (λ e, e ≠ SendFail ∧ e ≠ Refuse) evs;
  sr_polls : polls_good ps;
  sr_again : tally is_send_again evs ≤ tally is_ready ps;
  sr_accept : n ≤ tally is_accept evs;
}.

Record receiver_ready (n : Z) (evs : list recv_event) (ps : list poll_event) : Prop := {
  rr_events : Forall (λ e, e ≠ RecvFail) evs;
  rr_polls : polls_good ps;
  rr_again : tally is_recv_again evs ≤ tally is_ready ps;
  rr_deliver : n ≤ tally is_deliver evs;
}.

Lemma sender_ready_eq n n' evs ps : n = n' → sender_ready n evs ps → sender_ready n' evs ps.
Proof. by intros ->. Qed.

Section host.
Context (late : nat → bool).

Lemma require_time_ok h : (∀ i, late i = false) → require_time late h = (tick h, Ret tt).
Proof. intros H. unfold require_time. by rewrite H. Qed.

Lemma await_loop_ok ps h : (∀ i, late i = false) → polls_good ps → 1 ≤ tally is_ready ps →
  ∃ h', await_loop late ps h = (h', Ret tt) ∧ polls_good (h_polls h') ∧
    tally is_ready (h_polls h') = tally is_ready ps - 1 ∧
    h_sent h' = h_sent h ∧ h_incoming h' = h_incoming h ∧ h_sends h' = h_sends h ∧ h_recvs h' = h_recvs h.
Proof.
  intros Hl. revert h. induction ps as [|p ps IH]; intros h Hg Ht; [rewrite tally_nil in Ht; lia|].
  apply Forall_cons in Hg as [[Hp1 Hp2] Hg]. rewrite tally_cons in Ht |- *. cbn [await_loop].
  rewrite require_time_ok by done.
  destruct p; cbn [is_ready] in Ht |- *; try done.
  - eexists. split; [done|]. split; [done|]. split; [cbn [h_polls set_polls]; lia|done].
  - destruct (IH (count count_poll (tick h))) as (h' & -> & H); [done|lia|]. exists h'. split; [done|].
    destruct H as (? & -> & H). split; [done|]. split; [lia|exact H].
  - destruct (IH (count count_poll (tick h))) as (h' & -> & H); [done|lia|]. exists h'. split; [done|].
    destruct H as (? & -> & H). split; [done|]. split; [lia|exact H].
Qed.

(** *** Writing *)

Lemma write_loop_ok evs bs n h : (∀ i, late i = false) → 0 ≤ n → sender_ready (zlength bs + n) evs (h_polls h) →
  ∃ h', write_loop late evs bs h = (h', Ret tt) ∧ h_sent h' = h_sent h ++ bs ∧
    sender_ready n (h_sends h') (h_polls h').
Proof.
  intros Hl Hn. revert bs h. induction evs as [|ev evs IH]; intros bs h Hr.
  all: destruct bs as [|b bs];
    [eexists; split; [cbn [write_loop]; reflexivity|]; rewrite app_nil_r; split; [done|exact Hr]|].
  { destruct Hr as [_ _ _ Hc]. rewrite tally_nil, zlength_cons in Hc. pose proof (zlength_nonneg bs). lia. }
  destruct Hr as [He Hp Ha Hc]. apply Forall_cons in He as [[He1 He2] He]. rewrite tally_cons in Ha, Hc.
  cbn [write_loop]. rewrite require_time_ok by done. destruct ev as [k| | | |]; cbn [is_send_again is_accept] in *; try done.
  - set (w := take (S (Z.to_nat k)) (b :: bs)).
    destruct (IH (drop (S (Z.to_nat k)) (b :: bs)) (count (count_sent (zlength w)) (put_wire w (count count_send (tick h)))))
      as (h' & -> & Hs & Hr).
    + split; [done..|simpl; lia|]. unfold zlength in *. rewrite length_drop. cbn [length] in *. lia.
    + exists h'. split_and!; [done| |done]. rewrite Hs. subst w. cbn [h_sent count put_wire tick].
      by rewrite <- app_assoc, take_drop.
  - destruct (IH (b :: bs) (count count_send (tick h))) as (h' & -> & Hs & Hr); [split; [done..|simpl; lia|lia]|].
    by exists h'.
  - unfold await_ready.
    destruct (await_loop_ok (h_polls h) (count count_send (tick h)) Hl Hp) as (h1 & E & Hg & Ht & Hs1 & _).
    { pose proof (tally_nonneg is_send_again evs). lia. }
    change (h_polls (count count_send (tick h))) with (h_polls h). rewrite E.
    destruct (IH (b :: bs) h1) as (h' & -> & Hs & Hr); [split; [done..|lia|lia]|].
    exists h'. split_and!; [done| |done]. by rewrite Hs, Hs1.
Qed.

Definition content (o : Output) : list byte := h_sent (o_host o) ++ o_buffer o.
Record able (n : Z) (o : Output) : Prop := {
  ab_left : 0 ≤ n;
  ab_ready : sender_ready (zlength (o_buffer o) + n) (h_sends (o_host o)) (h_polls (o_host o));
  ab_room : zlength (o_buffer o) < buffer_size;
}.

Lemma flush_ok n o : (∀ i, late i = false) → 0 ≤ n →
  sender_ready (zlength (o_buffer o) + n) (h_sends (o_host o)) (h_polls (o_host o)) →
  ∃ h', flush late o = (mkOutput [] h', Ret tt) ∧ h_sent h' = content o ∧ able n (mkOutput [] h').
Proof.
  intros Hl Hn Hr. destruct (write_loop_ok _ _ n (o_host o) Hl Hn Hr) as (h' & E & Hs & Hr').
  exists h'. split_and!; [|exact Hs|by split].
  unfold flush, get, on_output_host, zoom, write_exact, modify. rewrite !bind_run. by rewrite E.
Qed.

Lemma append_loop_ok fuel bs n o : (∀ i, late i = false) → (length bs < fuel)%nat → able (zlength bs + n) o → 0 ≤ n →
  ∃ o', append_loop late fuel bs o = (o', Ret tt) ∧ content o' = content o ++ bs ∧ able n o'.
Proof.
  intros Hl. revert bs o. induction fuel as [|fuel IH]; intros bs o Hf [Ha Hr Hb] Hn; [lia|].
  destruct bs as [|b bs]; [exists o; rewrite app_nil_r; by split_and!|].
  cbn [append_loop]. rewrite bind_run. cbn [get]. cbv zeta. set (bs' := b :: bs) in *.
  set (k := Z.min (zlength bs') (buffer_size - zlength (o_buffer o))).
  assert (1 ≤ k ≤ zlength bs') as Hk.
  { subst k bs'. rewrite zlength_cons. pose proof (zlength_nonneg bs). lia. }
  set (o1 := mkOutput (o_buffer o ++ take (Z.to_nat k) bs') (o_host o)).
  assert (zlength (o_buffer o1) = zlength (o_buffer o) + k) as Hk1.
  { cbn [o1 o_buffer]. rewrite zlength_app, zlength_take by lia. done. }
  assert (∃ o2, (if zlength (o_buffer o1) =? buffer_size then flush late else mret tt) o1 = (o2, Ret tt) ∧
    content o2 = content o1 ∧ able (zlength (drop (Z.to_nat k) bs') + n) o2) as (o2 & E2 & Hc2 & Ha2).
  { rewrite zlength_drop by lia. destruct (Z.eqb_spec (zlength (o_buffer o1)) buffer_size).
    - destruct (flush_ok (zlength bs' - k + n) o1) as (h' & E & Hs & Hab); [done|lia| |].
      { eapply sender_ready_eq; [|exact Hr]. lia. }
      exists (mkOutput [] h'). split_and!; [done| |done]. unfold content at 1. cbn. by rewrite app_nil_r.
    - exists o1. split_and!; [done..|]. split; [lia| |lia]. eapply sender_ready_eq; [|exact Hr]. lia. }
  destruct (IH (drop (Z.to_nat k) bs') o2) as (o3 & E3 & Hc3 & Ha3); [rewrite length_drop; subst bs'; cbn [length] in *; lia|done..|].
  exists o3. split_and!; [|rewrite Hc3, Hc2|done].
  - rewrite bind_run. cbn [put]. fold o1. rewrite bind_run.
    change (o_buffer o ++ take (Z.to_nat k) bs') with (o_buffer o1). by rewrite E2.
  - unfold content. cbn [o1 o_buffer o_host]. by rewrite <- !app_assoc, take_drop.
Qed.

Lemma append_ok bs n o : (∀ i, late i = false) → 0 ≤ n → able (zlength bs + n) o →
  ∃ o', append late bs o = (o', Ret tt) ∧ content o' = content o ++ bs ∧ able n o'.
Proof.
  intros Hl Hn Ha. unfold append. destruct (Z.leb_spec buffer_size (zlength bs)).
  - destruct (flush_ok (zlength bs + n) o) as (h & E & Hs & [_ Hr _]); [done|apply Ha..|].
    cbn [o_host] in Hr. destruct (write_loop_ok _ bs n h Hl Hn Hr) as (h' & E' & Hs' & Hr').
    exists (mkOutput [] h'). split_and!; [| |by split].
    + rewrite bind_run, E. unfold on_output_host, zoom, write_exact. cbn [o_host]. by rewrite E'.
    + unfold content at 1. cbn [o_host o_buffer]. by rewrite app_nil_r, Hs', Hs.
  - apply append_loop_ok; [done|lia|done..].
Qed.
End host.

(** ** The writer *)

Definition able_opt (n : Z) (ow : option Output) : Prop := match ow with Some o => able n o | None => True end.
Definition grows (ow ow' : option Output) (bs : list byte) : Prop :=
  match ow, ow' with
  | None, None => True
  | Some o, Some o' => content o' = content o ++ bs
  | _, _ => False
  end.

Section writer.
Context (late : nat → bool) (Hlate : ∀ i, late i = false) (L : Limits) (HL : limits_ok L).
Abbreviation frame_max := (max_frame_bytes L).
#[local] Set Default Proof Using "Type*".

(** [p] writes [bs] when [P] holds and the frame has room; measuring succeeds
    only then. *)
Record writes (p : M Writer unit) (bs : list byte) (P : Prop) : Prop := {
  wr_run s ow n : 0 ≤ s → P → s + zlength bs ≤ frame_max → 0 ≤ n → able_opt (zlength bs + n) ow →
    ∃ ow', p (mkWriter s ow) = (mkWriter (s + zlength bs) ow', Ret tt) ∧ grows ow ow' bs ∧ able_opt n ow';
  wr_only s w' : 0 ≤ s ≤ frame_max → p (mkWriter s None) = (w', Ret tt) →
    P ∧ s + zlength bs ≤ frame_max ∧ w' = mkWriter (s + zlength bs) None;
}.

Lemma grows_trans a b c xs ys : grows a b xs → grows b c ys → grows a c (xs ++ ys).
Proof. destruct a, b, c; simpl; try done. intros E ->. by rewrite E, app_assoc. Qed.

Lemma writes_conv p bs cs (P Q : Prop) : writes p bs P → bs = cs → P ↔ Q → writes p cs Q.
Proof.
  intros [H1 H2] <- HPQ. split; [intros s ow n H0 HQ Hs Hn Ha; apply H1; try done; by apply HPQ|].
  intros s w' Hs E. destruct (H2 s w' Hs E) as (? & ? & ?). tauto.
Qed.

Lemma writes_ret : writes (mret tt) [] True.
Proof.
  split; [|intros s w' ? [= <-]; rewrite Z.add_0_r; split_and!; [done|lia|done]]. intros s ow n _ _ _ _ Ha. exists ow. rewrite Z.add_0_r.
  split_and!; [done| |done]. destruct ow; simpl; [by rewrite app_nil_r|done].
Qed.

Lemma writes_bind p q bs cs (P Q : Prop) : writes p bs P → writes q cs Q → writes (p;; q) (bs ++ cs) (P ∧ Q).
Proof.
  intros [P1 P2] [Q1 Q2]. pose proof (zlength_nonneg bs). pose proof (zlength_nonneg cs). split.
  - intros s ow n Hs0 [HP HQ] Hs Hn Ha. rewrite zlength_app in Hs, Ha |- *.
    destruct (P1 s ow (zlength cs + n)) as (ow1 & E1 & G1 & A1); [done..|lia|lia|by rewrite Z.add_assoc|].
    destruct (Q1 (s + zlength bs) ow1 n) as (ow2 & E2 & G2 & A2); [lia|done|lia|done..|].
    exists ow2. rewrite bind_run, E1, E2, Z.add_assoc. split_and!; [done|by eapply grows_trans|done].
  - intros s w' Hs E. apply bind_Ret_inv in E as (w1 & [] & E1 & E2).
    apply P2 in E1 as (HP & Hb & ->); [|done]. apply Q2 in E2 as (HQ & Hc & ->); [|lia].
    rewrite zlength_app. split_and!; [done..|lia|]. f_equal. lia.
Qed.

Lemma writes_guard (c : bool) e q bs (P : Prop) : writes q bs P → writes (throw_if c e;; q) bs (c = false ∧ P).
Proof.
  intros [H1 H2]. split.
  - intros s ow n H0 [-> HP]. by apply H1.
  - intros s w' Hs. rewrite guard_run. destruct c; [done|]. intros E. apply H2 in E as (? & ? & ->); [|done]. done.
Qed.

Lemma writes_bytes bs : writes (w_bytes late L bs) bs True.
Proof.
  pose proof (zlength_nonneg bs) as H0. unfold limits_ok in HL.
  assert (∀ s ow, w_bytes late L bs (mkWriter s ow) =
    if (frame_max - s <? zlength bs) || (SIZE_MAX <? zlength bs)
    then (mkWriter s ow, Throw (runtime_error "Worker protocol frame exceeds transfer limit"))
    else (if negb (zlength bs =? 0) then on_output (append late bs) else mret tt) (mkWriter (s + zlength bs) ow)) as Hrun.
  { intros s ow. unfold w_bytes. rewrite bind_run. cbn [get]. rewrite guard_run. cbn [w_size w_output].
    destruct (_ || _); [done|]. by rewrite bind_run. }
  split.
  - intros s ow n Hs0 _ Hs Hn Ha. rewrite Hrun. destruct (Z.ltb_spec (frame_max - s) (zlength bs)); [lia|].
    destruct (Z.ltb_spec SIZE_MAX (zlength bs)); [unfold SIZE_MAX in *; lia|]. cbn [orb].
    destruct (Z.eqb_spec (zlength bs) 0) as [Hz|Hz]; cbn [negb].
    + exists ow. rewrite Hz in *. apply zlength_0 in Hz as ->. split_and!; [done| |done].
      destruct ow; simpl; [by rewrite app_nil_r|done].
    + destruct ow as [o|]; [|by exists None].
      destruct (append_ok late bs n o Hlate Hn Ha) as (o' & E & Hc & Ha'). exists (Some o').
      unfold on_output. cbn [w_output]. by rewrite E.
  - intros s w' Hs. rewrite Hrun. destruct (Z.ltb_spec (frame_max - s) (zlength bs)); [done|].
    destruct (SIZE_MAX <? zlength bs); [done|]. cbn [orb].
    intros E. assert (w' = mkWriter (s + zlength bs) None) as ->; [|split_and!; [done|lia|done]].
    destruct (negb _); by injection E as <-.
Qed.

Lemma writes_scalar n z : writes (w_scalar late L n z) (le_bytes n z) True.
Proof. apply writes_bytes. Qed.

Lemma writes_text t : writes (w_text late L t) (text_payload t) (text_fits L t).
Proof.
  eapply writes_conv; [apply writes_guard, writes_bind; [apply writes_scalar|apply writes_bytes]|done|].
  unfold text_fits. rewrite Z.ltb_ge. tauto.
Qed.

Definition sizes (l : list Blob) : Z := foldr (λ b n, zlength (blob_bytes b) + n) 0 l.

Lemma sizes_nonneg l : 0 ≤ sizes l.
Proof. induction l as [|b l IH]; cbn [sizes foldr]; [done|]. pose proof (zlength_nonneg (blob_bytes b)). unfold sizes in IH. lia. Qed.

Lemma sizes_le l : sizes l ≤ zlength (concat (blob_payload <$> l)).
Proof.
  induction l as [|b l IH]; cbn [sizes foldr fmap list_fmap concat]; [done|]. fold (sizes l).
  unfold blob_payload at 1. rewrite !zlength_app, !zlength_le_bytes. lia.
Qed.

Lemma w_blobs_unfold index raw b l :
  w_blobs late L None index raw (b :: l) =
    (throw_if ((max_blob_bytes L <? zlength (blob_bytes b)) || (frame_max - raw <? zlength (blob_bytes b)))
      (runtime_error "Worker bundle blob exceeds transfer limit");;
     (w_scalar late L 8 (blob_key b);; w_scalar late L 8 (zlength (blob_bytes b));; w_bytes late L (blob_bytes b);;
      w_blobs late L None (S index) (raw + zlength (blob_bytes b)) l)).
Proof. done. Qed.

Lemma writes_blobs l index raw :
  writes (w_blobs late L None index raw l) (concat (blob_payload <$> l))
    (Forall (blob_fits L) l ∧ (l ≠ [] → raw + sizes l ≤ frame_max)).
Proof.
  revert index raw. induction l as [|b l IH]; intros index raw.
  { eapply writes_conv; [apply writes_ret|done|]. split; [by intros _|done]. }
  rewrite w_blobs_unfold. eapply writes_conv.
  - apply writes_guard, writes_bind; [apply writes_scalar|].
    apply writes_bind; [apply writes_scalar|]. apply writes_bind; [apply writes_bytes|apply IH].
  - cbn [fmap list_fmap concat]. unfold blob_payload at 2. by rewrite <- !app_assoc.
  - cbn [sizes foldr]. fold (sizes l). rewrite Forall_cons, orb_false_iff, !Z.ltb_ge.
    pose proof (sizes_nonneg l). split.
    + intros ([H1 H2] & _ & _ & _ & H3 & Hl). split; [done|]. intros _.
      destruct l as [|b' l]; [cbn [sizes foldr]; lia|]. specialize (Hl ltac:(done)). lia.
    + intros [[H1 H2] Hl]. specialize (Hl ltac:(done)). split_and!; try done; [lia|]. intros _. lia.
Qed.

Lemma writes_blobs_here l :
  writes (w ← get; w_blobs late L None 0 (w_size w) l) (concat (blob_payload <$> l)) (Forall (blob_fits L) l).
Proof.
  assert (∀ s ow, (w ← get; w_blobs late L None 0 (w_size w) l) (mkWriter s ow) =
    w_blobs late L None 0 s l (mkWriter s ow)) as Hrun by done.
  pose proof (sizes_le l). split.
  - intros s ow n H0 HP Hs Hn Ha. rewrite Hrun. apply writes_blobs; try done. split; [done|lia].
  - intros s w' Hs. rewrite Hrun. intros E. by apply (wr_only _ _ _ (writes_blobs l 0 s)) in E as [[? _] ?].
Qed.

Lemma writes_bundle b : writes (w_bundle late L None b) (bundle_payload b) (bundle_fits L b).
Proof.
  unfold w_bundle. eapply writes_conv.
  - apply writes_guard. do 5 (apply writes_bind; [apply writes_bytes|]). apply writes_blobs_here.
  - done.
  - unfold bundle_fits. rewrite orb_false_iff, !Z.ltb_ge. tauto.
Qed.

#[local] Hint Resolve writes_scalar writes_text writes_bundle writes_ret : core.

Lemma writes_encode m : writes (encode late L None m) (payload m) (parts_fit L m).
Proof.
  destruct m; cbn [encode payload parts_fit]; eauto.
  all: eapply writes_conv; [repeat (apply writes_bind; [eauto; fail|]); eauto|done|tauto].
Qed.
End writer.

(** ** The reader *)

(** The bytes a reader has not consumed yet, wherever they are. *)
Definition pending (i : Input) : list byte := i_buffer i ++ h_incoming (i_host i).

Section input.
Context (late : nat → bool).

(** A read that returns took the next [need] bytes; the end of file it may
    report is the end of the stream. *)
Definition read_post (eof : bool) (all acc : list byte) (need : Z) (r : Input * outcome (option (list byte))) : Prop :=
  match r.2 with
  | Ret (Some bs) =>
      need ≤ zlength all ∧ bs = acc ++ take (Z.to_nat need) all ∧ pending r.1 = drop (Z.to_nat need) all
  | Ret None => eof = true ∧ acc = [] ∧ all = []
  | Throw _ => True
  end.

Lemma read_post_shift eof got rest acc need r : got ≠ [] → zlength got ≤ need →
  read_post eof rest (acc ++ got) (need - zlength got) r → read_post eof (got ++ rest) acc need r.
Proof.
  intros Hg Hn. unfold read_post. destruct (r.2) as [[bs|]|e]; [|intros (_ & H & _); by apply app_nil in H as [_ ?]|done].
  assert (Z.to_nat need = length got + Z.to_nat (need - zlength got))%nat as -> by (unfold zlength in *; lia).
  rewrite zlength_app. intros (H & -> & ->). rewrite take_app_add, drop_app_add, <- app_assoc. split_and!; [lia|done..].
Qed.

Lemma await_incoming ps h : h_incoming (await_loop late ps h).1 = h_incoming h.
Proof.
  revert h. induction ps as [|p ps IH]; intros h; cbn [await_loop]; unfold require_time;
    destruct (late (h_ticks h)); try done. destruct p; try done; by rewrite IH.
Qed.

Lemma read_turn_sound eof rs receive need acc i : 0 ≤ need →
  (∀ need' acc' h, 0 < need' → h_incoming h = h_incoming (i_host i) →
    read_post eof (h_incoming h) acc' need' (receive need' acc' h)) →
  read_post eof (pending i) acc need (read_turn late rs receive need acc i).
Proof.
  intros Hn Hrec. unfold read_turn, require_time, pending. destruct (Z.leb_spec need 0) as [|Hpos].
  { assert (need = 0) as -> by lia. unfold read_post. simpl. rewrite app_nil_r. split_and!; [apply zlength_nonneg|done..]. }
  destruct (late _); [done|]. destruct (i_buffer i) as [|x b'] eqn:Hb.
  { simpl. by apply (Hrec need acc (tick (i_host i))). }
  set (b := x :: b') in *. set (k := Z.min need (zlength b)).
  assert (1 ≤ k ≤ zlength b) as Hk by (subst k b; rewrite zlength_cons; pose proof (zlength_nonneg b'); lia).
  destruct (Z.leb_spec (need - k) 0).
  - assert (k = need) as -> by lia. unfold read_post. cbn [fst snd].
    rewrite take_app_le, drop_app_le, zlength_app by (unfold zlength in *; lia).
    pose proof (zlength_nonneg (h_incoming (i_host i))). split_and!; [lia|done..].
  - destruct (late _); [done|]. assert (k = zlength b) as Hkb by lia.
    replace (take (Z.to_nat k) b) with b by (rewrite take_ge; [done|unfold zlength in *; lia]).
    rewrite Hkb. apply read_post_shift; [done|lia|].
    apply (Hrec _ _ (tick (tick (i_host i)))); [lia|done].
Qed.

(** Continue with the state a loop goes on with. *)
Ltac go := match goal with |- read_post _ ?all _ _ (?f _ _ ?i) => change all with (pending i) end;
  match goal with H : ∀ need' acc' i, _ |- _ => apply H end.

Lemma recv_turn_sound eof r rs next need acc h : 0 < need →
  (∀ need' acc' i, 0 ≤ need' → read_post eof (pending i) acc' need' (next need' acc' i)) →
  read_post eof (h_incoming h) acc need (recv_turn late eof r rs next need acc h).
Proof.
  intros Hn Hnext. unfold recv_turn. cbv zeta. destruct r as [k| | |]; [| | |done].
  - set (cap := if buffer_size <=? need then need else buffer_size).
    assert (0 < cap) by (subst cap; destruct (buffer_size <=? need); [lia|done]).
    set (j := Nat.min _ _). cbn [h_incoming count].
    rewrite <- (take_drop j (h_incoming h)) at 1.
    destruct (take j (h_incoming h)) as [|x got'] eqn:Hg.
    + assert (h_incoming h = []) as ->.
      { apply (f_equal length) in Hg. rewrite length_take in Hg. destruct (h_incoming h); [done|]. simpl in Hg. lia. }
      destruct (bool_decide_reflect (acc = [])); [|done]. destruct eof; [|done]. unfold read_post. simpl. by rewrite drop_nil.
    + rewrite <- Hg. set (got := take j (h_incoming h)). unfold buffer_size at 1.
      destruct (Z.leb_spec 65536 need).
      * apply read_post_shift; [subst got; by rewrite Hg| |].
        { subst got cap j. unfold zlength. rewrite length_take. unfold buffer_size. rewrite (proj2 (Z.leb_le _ _)) by lia. lia. }
        go. subst got cap j. unfold zlength. rewrite length_take. unfold buffer_size.
        rewrite (proj2 (Z.leb_le _ _)) by lia. lia.
      * go. lia.
  - go. lia.
  - unfold await_ready. destruct (await_loop late _ _) as [h' [[]|e]] eqn:E; [|done].
    pose proof (await_incoming (h_polls (count count_recv h)) (count count_recv h)) as Hi. rewrite E in Hi.
    cbn [fst] in Hi. change (h_incoming h) with (h_incoming (count count_recv h)). rewrite <- Hi.
    go. lia.
Qed.

Lemma read_loop_sound eof rs need acc i : 0 ≤ need → read_post eof (pending i) acc need (read_loop late eof rs need acc i).
Proof.
  revert need acc i. induction rs as [|r rs IH]; intros need acc i Hn; cbn [read_loop]; apply read_turn_sound; try done.
  intros need' acc' h Hn' _. by apply recv_turn_sound.
Qed.

(** Under a cooperative host a read of bytes that are there returns. *)
Definition fed_with (rs : list recv_event) (h : Host) : Prop :=
  receiver_ready (zlength (h_incoming h)) rs (h_polls h).
Definition fed (i : Input) : Prop := fed_with (h_recvs (i_host i)) (i_host i).
Definition returns_some (r : Input * outcome (option (list byte))) : Prop :=
  ∃ i bs, r = (i, Ret (Some bs)) ∧ fed i.

Lemma read_turn_live rs receive need acc i : (∀ n, late n = false) →
  fed_with rs (i_host i) → 0 ≤ need ≤ zlength (pending i) →
  (∀ need' acc' h, fed_with rs h → 0 < need' ≤ zlength (h_incoming h) → returns_some (receive need' acc' h)) →
  returns_some (read_turn late rs receive need acc i).
Proof.
  intros Hl Hf [Hn Hle] Hrec. unfold read_turn. rewrite require_time_ok by done. unfold pending in Hle.
  destruct (Z.leb_spec need 0); [by eexists _, _|].
  destruct (i_buffer i) as [|x b'] eqn:Hb; [by apply Hrec|]. set (b := x :: b') in *. cbv zeta.
  destruct (Z.leb_spec (need - Z.min need (zlength b)) 0); [by eexists _, _|].
  rewrite require_time_ok by done. rewrite zlength_app in Hle. apply Hrec; [done|].
  cbn [h_incoming tick]. lia.
Qed.

Lemma recv_turn_live eof r rs next need acc h : (∀ n, late n = false) →
  fed_with (r :: rs) h → 0 < need ≤ zlength (h_incoming h) →
  (∀ need' acc' i, fed_with rs (i_host i) → 0 ≤ need' ≤ zlength (pending i) → returns_some (next need' acc' i)) →
  returns_some (recv_turn late eof r rs next need acc h).
Proof.
  intros Hl [He Hp Ha Hd] [Hn Hle] Hnext. apply Forall_cons in He as [Hr He]. rewrite tally_cons in Ha, Hd.
  unfold recv_turn. cbv zeta. destruct r as [k| | |]; cbn [is_recv_again is_deliver] in *; [| | |done].
  - set (cap := if buffer_size <=? need then need else buffer_size).
    assert (0 < cap ∧ ((buffer_size <=? need) = true → cap = need)) as [Hc Hc'] by (subst cap; destruct (_ <=? _); [lia|done]).
    set (j := Nat.min _ _). cbn [h_incoming count].
    destruct (take j (h_incoming h)) as [|x got'] eqn:Hg.
    { apply (f_equal length) in Hg. rewrite length_take in Hg. unfold zlength in *. simpl in Hg. lia. }
    rewrite <- Hg. set (got := take j (h_incoming h)).
    assert (zlength got + zlength (drop j (h_incoming h)) = zlength (h_incoming h) ∧ 1 ≤ zlength got ≤ cap) as [Hs Hj].
    { split; [by rewrite <- zlength_app; subst got; rewrite take_drop|]. subst got. rewrite Hg at 1. rewrite zlength_cons.
      pose proof (zlength_nonneg got'). unfold zlength. rewrite length_take. lia. }
    assert (∀ c, fed_with rs (mkHost (h_ticks h) (h_sends h) (h_recvs h) (h_polls h) (h_sent h) (drop j (h_incoming h)) c)) as Hfed
      by (intros c; split; cbn [h_incoming h_polls]; [done..|lia|lia]).
    destruct (buffer_size <=? need).
    + apply Hnext; [exact (Hfed _)|]. pose proof (Hc' eq_refl). unfold pending. cbn [i_buffer i_host h_incoming count set_incoming app]. lia.
    + apply Hnext; [exact (Hfed _)|]. unfold pending. cbn [i_buffer i_host h_incoming count set_incoming].
      rewrite zlength_app. lia.
  - apply Hnext; [|cbn; lia]. split; cbn [i_host h_incoming h_polls count]; [done..|lia|lia].
  - unfold await_ready.
    destruct (await_loop_ok late (h_polls h) (count count_recv h) Hl Hp) as (h1 & E & Hg & Ht & _ & Hi & _).
    { pose proof (tally_nonneg is_recv_again rs). lia. }
    change (h_polls (count count_recv h)) with (h_polls h). rewrite E. cbn [count h_incoming] in Hi.
    apply Hnext; [|unfold pending; cbn; rewrite Hi; lia].
    split; cbn [i_host]; [done..|lia|rewrite Hi; lia].
Qed.

Lemma read_loop_live eof rs need acc i : (∀ n, late n = false) →
  fed_with rs (i_host i) → 0 ≤ need ≤ zlength (pending i) → returns_some (read_loop late eof rs need acc i).
Proof.
  intros Hl. revert need acc i. induction rs as [|r rs IH]; intros need acc i Hf Hn; cbn [read_loop];
    apply read_turn_live; try done.
  - intros need' acc' h [_ _ _ Hd] Hn'. rewrite tally_nil in Hd. lia.
  - intros need' acc' h Hf' Hn'. by apply recv_turn_live.
Qed.

Lemma input_read_ok n eof i bs rest : (∀ n, late n = false) → fed i → zlength bs = n → pending i = bs ++ rest →
  ∃ i', input_read late n eof i = (i', Ret (Some bs)) ∧ pending i' = rest ∧ fed i'.
Proof.
  intros Hl Hf Hn Hp. pose proof (zlength_nonneg bs). pose proof (zlength_nonneg rest).
  destruct (read_loop_live eof _ n [] i Hl Hf) as (i' & bs' & E & Hf'); [rewrite Hp, zlength_app; lia|].
  pose proof (read_loop_sound eof (h_recvs (i_host i)) n [] i ltac:(lia)) as Hs.
  unfold input_read. rewrite E in Hs |- *. unfold read_post in Hs. cbn [fst snd] in Hs. destruct Hs as (_ & -> & Hs).
  rewrite Hp in Hs |- *. exists i'. subst n. unfold zlength in *. rewrite Nat2Z.id in *.
  rewrite drop_app_length in Hs. rewrite take_app_length. done.
Qed.
End input.
