(* ===== verification/WireDecode.v ===== *)
(** * Decoding

    The reader accepts exactly the reference encodings, and the channel built
    on it delivers exactly the messages sent. *)

From S2P Require Import Prelude Linux Bytes Guest Frontier Wire WireProps.

Section decode.
Context (late : nat → bool) (L : Limits).
Abbreviation RM := (M Reader).

(** ** Reading back what was written *)

(** With [bs] next in the stream and within the frame, [p] returns [a]. *)
Definition parses {A} (p : RM A) (bs : list byte) (a : A) : Prop := ∀ rem i rest,
  (∀ n, late n = false) → zlength bs ≤ rem ≤ SIZE_MAX → fed i → pending i = bs ++ rest →
  ∃ i', p (mkReader rem None i) = (mkReader (rem - zlength bs) None i', Ret a) ∧ pending i' = rest ∧ fed i'.

Lemma parses_ret {A} (a : A) : parses (mret a) [] a.
Proof. intros rem i rest _ _ Hf Hp. exists i. by rewrite Z.sub_0_r. Qed.

Lemma parses_bind {A B} (p : RM A) (f : A → RM B) bs cs a b :
  parses p bs a → parses (f a) cs b → parses (p ≫= f) (bs ++ cs) b.
Proof.
  intros Hp Hf rem i rest Hl Hr Hi Hpend. rewrite zlength_app in Hr |- *. rewrite <- app_assoc in Hpend.
  pose proof (zlength_nonneg bs). pose proof (zlength_nonneg cs).
  destruct (Hp rem i (cs ++ rest)) as (i1 & E1 & P1 & F1); [done|lia|done..|].
  destruct (Hf (rem - zlength bs) i1 rest) as (i2 & E2 & P2 & F2); [done|lia|done..|].
  exists i2. rewrite bind_run, E1, E2. split_and!; [|done..]. do 2 f_equal. lia.
Qed.

Lemma parses_last {A B} (p : RM A) (g : A → B) bs a : parses p bs a → parses (x ← p; mret (g x)) bs (g a).
Proof. intros H. rewrite <- (app_nil_r bs). eapply parses_bind; [exact H|]. apply parses_ret. Qed.

Lemma parses_eq {A} (p : RM A) bs a a' : parses p bs a → a = a' → parses p bs a'.
Proof. by intros H <-. Qed.

Lemma parses_guard {A} (c : bool) e (k : RM A) bs a : c = false → parses k bs a → parses (throw_if c e;; k) bs a.
Proof. by intros ->. Qed.

Lemma parses_get {A} (f : Reader → RM A) bs a :
  (∀ rem i, zlength bs ≤ rem → parses (f (mkReader rem None i)) bs a) → parses (get ≫= f) bs a.
Proof. intros H rem i rest Hl Hr. by apply (H rem i); [lia|..]. Qed.

Lemma parses_bytes bs n : zlength bs = n → parses (r_bytes late n) bs bs.
Proof.
  intros Hn rem i rest Hl Hr Hf Hp. unfold r_bytes. rewrite bind_run. cbn [get]. rewrite guard_run. cbn [r_remaining].
  rewrite (proj2 (Z.ltb_ge rem n)), (proj2 (Z.ltb_ge SIZE_MAX n)) by lia. cbn [orb]. rewrite bind_run. cbn [put r_specs r_input].
  destruct (Z.eqb_spec n 0) as [->|Hz].
  - apply zlength_0 in Hn as ->. exists i. done.
  - destruct (input_read_ok late n false i bs rest Hl Hf Hn Hp) as (i' & E & P & F).
    exists i'. split_and!; [|done..]. rewrite bind_run. unfold zoom. cbn [r_input]. rewrite E. by subst n.
Qed.

Lemma parses_scalar n k z : k = Z.of_nat n → 0 ≤ z < 256 ^ k → parses (r_scalar late k) (le_bytes n z) z.
Proof.
  intros -> Hz. unfold r_scalar. rewrite <- (le_Z_small n z Hz) at 2. apply (parses_last _ le_Z), parses_bytes.
  apply zlength_le_bytes.
Qed.

Lemma parses_boolean b : parses (r_boolean late) (le_bytes 1 (Z.b2z b)) b.
Proof.
  unfold r_boolean. rewrite <- (app_nil_r (le_bytes 1 _)). eapply parses_bind; [by apply (parses_scalar 1); [|destruct b]|].
  apply parses_guard; [by destruct b|]. destruct b; apply parses_ret.
Qed.

(** A length that is followed by at least as many bytes. *)
Lemma parses_length {A} limit n (f : Z → RM A) cs a :
  u64 n → n ≤ limit → n ≤ zlength cs → parses (f n) cs a → parses (r_length late limit ≫= f) (le_bytes 8 n ++ cs) a.
Proof.
  intros Hn Hlim Hcs Hf rem i rest Hl Hr Hfed Hp.
  destruct (parses_scalar 8 8 n eq_refl Hn rem i (cs ++ rest)) as (i1 & E1 & P1 & F1);
    [done|rewrite zlength_app in Hr; pose proof (zlength_nonneg cs); lia|done|by rewrite Hp, <- app_assoc|].
  rewrite zlength_app in Hr |- *. rewrite zlength_le_bytes in *.
  destruct (Hf (rem - Z.of_nat 8) i1 rest) as (i2 & E2 & P2 & F2); [done|lia|done..|].
  exists i2. split_and!; [|done..]. unfold r_length. rewrite !bind_run, E1. rewrite bind_run. cbn [get].
  rewrite guard_run. cbn [r_remaining].
  rewrite (proj2 (Z.ltb_ge limit n)), (proj2 (Z.ltb_ge (rem - Z.of_nat 8) n)), (proj2 (Z.ltb_ge SIZE_MAX n)) by lia.
  cbn [orb]. rewrite ret_run, E2. do 2 f_equal. lia.
Qed.

Lemma parses_text s : text_fits L s → u64 (zlength s) → parses (r_text late L) (text_payload s) s.
Proof. intros Hf Hu. apply parses_length; [done..|]. by apply parses_bytes. Qed.

Lemma blobs_length l : 16 * zlength l ≤ zlength (concat (blob_payload <$> l)).
Proof.
  induction l as [|b l IH]; [done|]. cbn [fmap list_fmap concat]. unfold blob_payload at 1.
  rewrite zlength_cons, !zlength_app, !zlength_le_bytes. pose proof (zlength_nonneg (blob_bytes b)). lia.
Qed.

Lemma blob_in_range l : zlength (concat (blob_payload <$> l)) ≤ UINT64_MAX →
  Forall (λ b, u64 (zlength (blob_bytes b))) l.
Proof.
  induction l as [|b l IH]; [done|]. cbn [fmap list_fmap concat]. unfold blob_payload at 1.
  rewrite !zlength_app, !zlength_le_bytes. pose proof (zlength_nonneg (blob_bytes b)).
  pose proof (zlength_nonneg (concat (blob_payload <$> l))). unfold UINT64_MAX in *.
  intros. constructor; [unfold u64; lia|]. apply IH. lia.
Qed.

Lemma parses_blobs l total acc :
  Forall blob_ok l → Forall (blob_fits L) l → Forall (λ b, u64 (zlength (blob_bytes b))) l →
  parses (r_blobs late L (length l) total acc) (concat (blob_payload <$> l)) (acc ++ l).
Proof.
  revert acc. induction l as [|b l IH]; intros acc Hok Hfit Hu.
  { rewrite app_nil_r. apply parses_ret. }
  apply Forall_cons in Hok as [Hok1 Hok], Hfit as [Hfit1 Hfit], Hu as [Hu1 Hu].
  cbn [length r_blobs fmap list_fmap concat]. unfold blob_payload at 1. rewrite <- !app_assoc.
  eapply parses_bind; [by apply (parses_scalar 8)|]. apply parses_get. intros rem i _. cbn [r_specs].
  apply parses_length; [done..| |].
  { rewrite zlength_app. pose proof (zlength_nonneg (concat (blob_payload <$> l))). lia. }
  eapply parses_bind; [by apply parses_bytes|].
  replace (acc ++ b :: l) with ((acc ++ [mkBlob (blob_key b) (blob_bytes b)]) ++ l)
    by (rewrite <- app_assoc; by destruct b). by apply IH.
Qed.

Lemma parses_bundle b : bundle_ok b → bundle_fits L b → zlength (bundle_payload b) ≤ UINT64_MAX →
  parses (r_bundle late L) (bundle_payload b) b.
Proof.
  intros (Hv & Hk & Hb & Hn) (Hm & Hc & Hs) Hu. unfold r_bundle, bundle_payload in *.
  set (tail := concat (blob_payload <$> blobs b)) in *.
  rewrite !zlength_app, !zlength_le_bytes in Hu.
  pose proof (zlength_nonneg (metadata b)). pose proof (zlength_nonneg (blobs b)).
  pose proof (blobs_length (blobs b)) as Hlen. fold tail in Hlen. unfold UINT64_MAX in Hu.
  eapply parses_bind; [by apply (parses_scalar 4)|]. eapply parses_bind; [by apply (parses_scalar 8)|].
  apply parses_length; [unfold u64; lia|done|rewrite !zlength_app, zlength_le_bytes; lia|].
  eapply parses_bind; [by apply parses_bytes|].
  eapply parses_bind; [apply (parses_scalar 8); [done|unfold UINT64_MAX in *; lia]|].
  apply parses_get. intros rem i Hrem. cbn [r_specs r_remaining]. apply parses_guard.
  - rewrite !orb_false_iff, !Z.ltb_ge. split_and!; [done| |done]. apply Z.div_le_lower_bound; lia.
  - apply (parses_eq _ _ (mkBundle (b_version b) (system_key b) (metadata b) ([] ++ blobs b))); [|by destruct b].
    apply (parses_last _ (λ l, mkBundle (b_version b) (system_key b) (metadata b) l) tail ([] ++ blobs b)).
    replace (Z.to_nat (zlength (blobs b))) with (length (blobs b)) by (unfold zlength; lia).
    apply (parses_blobs _ _ []); [done..|]. apply blob_in_range. fold tail. unfold UINT64_MAX. lia.
Qed.

Lemma choice_code c : -2 ≤ c ≤ INT_MAX →
  (if uint32 c =? uint32 (-1) then -1 else if uint32 c =? uint32 (-2) then -2 else uint32 c) = c ∧
  (INT_MAX <? uint32 c) && negb (uint32 c =? uint32 (-1)) && negb (uint32 c =? uint32 (-2)) = false.
Proof.
  intros Hc. assert (c = -2 ∨ c = -1 ∨ 0 ≤ c) as [-> |[-> |H]] by lia; [done..|].
  unfold INT_MAX in *. rewrite uint32_small by (unfold UINT32_MAX; lia).
  change (uint32 (-1)) with 4294967295. change (uint32 (-2)) with 4294967294.
  rewrite (proj2 (Z.eqb_neq c 4294967295)), (proj2 (Z.eqb_neq c 4294967294)) by lia.
  by rewrite (proj2 (Z.ltb_ge _ _)) by lia.
Qed.

Lemma choice_decode z : 0 ≤ z < 256 ^ 4 →
  (INT_MAX <? z) && negb (z =? uint32 (-1)) && negb (z =? uint32 (-2)) = false →
  let c := if z =? uint32 (-1) then -1 else if z =? uint32 (-2) then -2 else z in
  uint32 c = z ∧ -2 ≤ c ≤ INT_MAX.
Proof.
  intros Hz Hc. cbv zeta. destruct (Z.eqb_spec z (uint32 (-1))) as [->|]; [done|].
  destruct (Z.eqb_spec z (uint32 (-2))) as [->|]; [done|]. cbn [negb] in Hc. rewrite !andb_true_r, Z.ltb_ge in Hc.
  unfold INT_MAX in *. split; [apply uint32_small; unfold UINT32_MAX|]; lia.
Qed.

Lemma text_in_range s n : zlength (text_payload s) + n ≤ UINT64_MAX → 0 ≤ n → u64 (zlength s).
Proof.
  unfold text_payload. rewrite zlength_app, zlength_le_bytes. pose proof (zlength_nonneg s).
  unfold UINT64_MAX, u64. lia.
Qed.

(** Fields are read one after the other. *)
Ltac field n := eapply parses_bind; [apply (parses_scalar n); [reflexivity|first [done|unfold INT_MAX in *; lia]]|].

Lemma parses_edge e : message_ok (MEdge e) → bundle_fits L (e_bundle e) → zlength (payload (MEdge e)) ≤ UINT64_MAX →
  parses (decode_edge late L) (payload (MEdge e)) e.
Proof.
  intros (H1 & H2 & H3 & H4 & H5 & H6 & H7 & Hb) Hf Hu. cbn [payload] in *. unfold decode_edge.
  destruct (choice_code _ H6) as [Hch1 Hch2]. rewrite !zlength_app, !zlength_le_bytes in Hu.
  rewrite (uint32_small (a_process _)), (uint32_small (a_thread _)) by (unfold UINT32_MAX, INT_MAX in *; lia).
  field 8%nat. field 8%nat. field 8%nat. field 4%nat. field 4%nat.
  apply parses_guard; [by rewrite !(proj2 (Z.ltb_ge _ _)) by lia|].
  eapply parses_bind; [by apply (parses_scalar 1); [|destruct (a_action (e_actor e))]|].
  apply parses_guard; [by destruct (a_action (e_actor e))|].
  eapply parses_bind; [apply (parses_scalar 4); [done|apply Z.mod_pos_bound; lia]|].
  apply parses_guard; [exact Hch2|]. field 4%nat. apply parses_guard; [apply Z.ltb_ge; lia|].
  eapply parses_bind; [apply parses_boolean|].
  eapply parses_bind; [by apply (parses_scalar 1); [|destruct (result_code e)]|].
  apply parses_guard; [by destruct (result_code e)|]. rewrite Hch1.
  eapply parses_eq; [eapply parses_last, parses_bundle; [done..|lia]|].
  destruct e as [? ? ? [? ? []] ? ? ? []]; done.
Qed.

Lemma parses_decode m : message_ok m → parts_fit L m → zlength (payload m) ≤ UINT64_MAX →
  parses (decode late L (message_type m)) (payload m) m.
Proof.
  destruct m as [model compat|t b|e|lease source kind emitted|lease source why|]; intros Hok Hfit Hu;
    unfold decode; cbn [message_type Z.eqb Pos.eqb].
  - cbn [payload] in *. rewrite zlength_app in Hu. destruct Hfit.
    eapply parses_bind; [apply parses_text; [done|eapply text_in_range; [exact Hu|apply zlength_nonneg]]|].
    apply parses_last, parses_text; [done|eapply text_in_range; [rewrite Z.add_comm; exact Hu|apply zlength_nonneg]].
  - destruct Hok as (H1 & H2 & H3 & H4 & Hb). cbn [payload] in *. rewrite !zlength_app, !zlength_le_bytes in Hu.
    field 8%nat. field 8%nat. field 8%nat. field 8%nat. eapply parses_bind; [apply parses_boolean|].
    eapply parses_eq; [eapply parses_last, parses_bundle; [done..|lia]|]. by destruct t.
  - apply parses_last, parses_edge; done.
  - destruct Hok as (H1 & H2 & H3). cbn [payload].
    field 8%nat. field 8%nat. eapply parses_bind; [by apply (parses_scalar 1); [|destruct kind]|].
    apply parses_guard; [by destruct kind|].
    eapply parses_eq; [by eapply parses_last, (parses_scalar 8)|]. by destruct kind.
  - destruct Hok as (H1 & H2). cbn [payload] in *. rewrite !zlength_app, !zlength_le_bytes in Hu.
    field 8%nat. field 8%nat. apply parses_last, parses_text; [done|].
    apply (text_in_range _ 0); [lia|done].
  - apply parses_ret.
Qed.

(** ** Accepting only what could have been written *)

(** Whatever the host does, a result comes from bytes related to it by [S]. *)
Definition accepts {A} (p : RM A) (S : A → list byte → Prop) : Prop := ∀ rem i r' a,
  0 ≤ rem → p (mkReader rem None i) = (r', Ret a) →
  ∃ bs i', S a bs ∧ pending i = bs ++ pending i' ∧ zlength bs ≤ rem ∧ r' = mkReader (rem - zlength bs) None i'.

Lemma accepts_ret {A} (a : A) (S : A → list byte → Prop) : S a [] → accepts (mret a) S.
Proof. intros HS rem i r' a' Hr [= <- <-]. exists [], i. by rewrite Z.sub_0_r. Qed.

Lemma accepts_bind {A B} (p : RM A) (f : A → RM B) (S : A → list byte → Prop) (T : B → list byte → Prop) :
  accepts p S → (∀ a bs, S a bs → accepts (f a) (λ b cs, T b (bs ++ cs))) → accepts (p ≫= f) T.
Proof.
  intros Hp Hf rem i r' b Hr E. apply bind_Ret_inv in E as (r1 & a & E1 & E2).
  destruct (Hp _ _ _ _ Hr E1) as (bs & i1 & HS & P1 & L1 & ->).
  destruct (Hf a bs HS (rem - zlength bs) i1 r' b) as (cs & i2 & HT & P2 & L2 & ->); [lia|done|].
  exists (bs ++ cs), i2. rewrite zlength_app, P1, P2, app_assoc. split_and!; [done..|lia|]. f_equal. lia.
Qed.

Lemma accepts_guard {A} (c : bool) e (k : RM A) T : (c = false → accepts k T) → accepts (throw_if c e;; k) T.
Proof. intros H rem i r' a Hr. rewrite guard_run. destruct c; [done|]. by apply H. Qed.

Lemma accepts_get {A} (f : Reader → RM A) T :
  (∀ rem i, accepts (f (mkReader rem None i)) T) → accepts (get ≫= f) T.
Proof. intros H rem i r' a Hr. by apply (H rem i rem i). Qed.

Lemma accepts_conv {A} (p : RM A) (S T : A → list byte → Prop) :
  accepts p S → (∀ a bs, S a bs → T a bs) → accepts p T.
Proof. intros H HST rem i r' a Hr E. destruct (H _ _ _ _ Hr E) as (bs & i' & HS & H'). exists bs, i'. auto. Qed.

Lemma accepts_bytes n : 0 ≤ n → accepts (r_bytes late n) (λ a bs, a = bs ∧ zlength bs = n).
Proof.
  intros Hn rem i r' a Hr. unfold r_bytes. rewrite bind_run. cbn [get]. rewrite guard_run. cbn [r_remaining].
  destruct (Z.ltb_spec rem n); [done|]. destruct (SIZE_MAX <? n); [done|]. cbn [orb]. rewrite bind_run. cbn [put r_specs r_input].
  destruct (Z.eqb_spec n 0) as [->|Hz].
  { intros [= <- <-]. exists [], i. done. }
  intros E. apply bind_Ret_inv in E as (r1 & o & E1 & E2). unfold zoom in E1. cbn [r_input] in E1.
  pose proof (read_loop_sound late false (h_recvs (i_host i)) n [] i Hn) as Hs.
  unfold input_read in E1. destruct (read_loop _ _ _ _ _ _) as [i' o']. injection E1 as <- ->.
  destruct o as [bs|]; cbn [default] in E2; injection E2 as <- <-; unfold read_post in Hs; cbn [fst snd] in Hs.
  - destruct Hs as (Hle & -> & Hp). exists (take (Z.to_nat n) (pending i)), i'.
    rewrite zlength_take, Hp, take_drop by lia. done.
  - by destruct Hs.
Qed.

Lemma accepts_scalar n k : k = Z.of_nat n → accepts (r_scalar late k) (λ z bs, bs = le_bytes n z ∧ 0 ≤ z < 256 ^ k).
Proof.
  intros ->. eapply accepts_bind; [apply accepts_bytes; lia|]. intros a bs [-> Hn]. apply accepts_ret.
  rewrite app_nil_r. unfold zlength in Hn. apply Nat2Z.inj in Hn. subst n. rewrite le_bytes_Z. split; [done|].
  apply le_Z_range.
Qed.

Lemma accepts_boolean : accepts (r_boolean late) (λ b bs, bs = le_bytes 1 (Z.b2z b)).
Proof.
  eapply accepts_bind; [by apply (accepts_scalar 1)|]. intros z bs [-> Hz]. apply accepts_guard. intros Hle%Z.ltb_ge.
  apply accepts_ret. rewrite app_nil_r. assert (z = 0 ∨ z = 1) as [-> | ->] by lia; done.
Qed.

Lemma accepts_length limit : accepts (r_length late limit) (λ n bs, bs = le_bytes 8 n ∧ u64 n ∧ n ≤ limit).
Proof.
  eapply accepts_bind; [by apply (accepts_scalar 8)|]. intros z bs [-> Hz]. apply accepts_get. intros rem i.
  apply accepts_guard. rewrite !orb_false_iff. intros [[Hl%Z.ltb_ge _] _]. apply accepts_ret. by rewrite app_nil_r.
Qed.

Lemma accepts_text : accepts (r_text late L) (λ s bs, bs = text_payload s ∧ text_fits L s).
Proof.
  eapply accepts_bind; [apply accepts_length|]. intros n bs (-> & Hu & Hl). eapply accepts_conv; [apply accepts_bytes, Hu|].
  by intros a cs [-> <-].
Qed.

Lemma accepts_blobs n total acc : accepts (r_blobs late L n total acc) (λ l bs, ∃ l', l = acc ++ l' ∧ length l' = n ∧
  bs = concat (blob_payload <$> l') ∧ Forall blob_ok l' ∧ Forall (blob_fits L) l').
Proof.
  revert acc. induction n as [|n IH]; intros acc; cbn [r_blobs].
  { apply accepts_ret. exists []. rewrite app_nil_r. split_and!; (done || constructor). }
  eapply accepts_bind; [by apply (accepts_scalar 8)|]. intros key bs [-> Hk]. apply accepts_get. intros rem i. cbn [r_specs].
  eapply accepts_bind; [apply accepts_length|]. intros size bs (-> & Hu & Hl).
  eapply accepts_bind; [apply accepts_bytes, Hu|]. intros a bs [-> <-].
  eapply accepts_conv; [apply IH|]. intros l cs (l' & -> & <- & -> & Hok & Hfit).
  exists (mkBlob key bs :: l'). rewrite <- app_assoc. split_and!; [done|done| |by constructor..].
  cbn [fmap list_fmap concat]. unfold blob_payload at 2. by rewrite <- !app_assoc.
Qed.

Lemma accepts_bundle : accepts (r_bundle late L) (λ b bs, bs = bundle_payload b ∧ bundle_ok b ∧ bundle_fits L b).
Proof.
  eapply accepts_bind; [by apply (accepts_scalar 4)|]. intros version bs [-> Hv].
  eapply accepts_bind; [by apply (accepts_scalar 8)|]. intros key bs [-> Hk].
  eapply accepts_bind; [apply accepts_length|]. intros n bs (-> & Hu & Hl).
  eapply accepts_bind; [apply accepts_bytes, Hu|]. intros meta bs [-> <-].
  eapply accepts_bind; [by apply (accepts_scalar 8)|]. intros c cs [-> Hc].
  apply accepts_get. intros rem i. apply accepts_guard. cbn [r_specs]. rewrite !orb_false_iff, !Z.ltb_ge. intros [[H1 _] H2].
  eapply accepts_bind; [apply accepts_blobs|]. intros l cs (l' & -> & Hn & -> & Hok & Hfit). apply accepts_ret.
  assert (zlength l' = c) as <- by (unfold zlength; lia). rewrite app_nil_r.
  split; [done|]. split; [exact (conj Hv (conj Hk (conj Hok H2)))|exact (conj Hl (conj H1 Hfit))].
Qed.

Tactic Notation "next" constr(n) ident(z) :=
  eapply accepts_bind; [by apply (accepts_scalar n)|]; intros z ? [-> ?].

Lemma accepts_edge : accepts (decode_edge late L)
  (λ e bs, bs = payload (MEdge e) ∧ message_ok (MEdge e) ∧ bundle_fits L (e_bundle e)).
Proof.
  unfold decode_edge. next 8%nat lease. next 8%nat source. next 8%nat target. next 4%nat process. next 4%nat thread.
  apply accepts_guard. rewrite orb_false_iff, !Z.ltb_ge. intros [Hp Ht].
  next 1%nat action. apply accepts_guard. rewrite Z.ltb_ge. intros Ha.
  next 4%nat choice. apply accepts_guard. intros Hch.
  next 4%nat count. apply accepts_guard. rewrite Z.ltb_ge. intros Hc.
  eapply accepts_bind; [apply accepts_boolean|]. intros violation bs ->.
  next 1%nat code. apply accepts_guard. rewrite Z.ltb_ge. intros Hcode.
  eapply accepts_bind; [apply accepts_bundle|]. intros b bs (-> & Hok & Hfit). apply accepts_ret. rewrite app_nil_r.
  destruct (choice_decode choice) as [Hcode' Hrange]; [done..|].
  cbn [payload message_ok e_bundle e_actor a_process a_thread a_action e_choice e_choice_count property_violation result_code
    e_lease_id e_source e_target].
  rewrite Hcode', !uint32_small by (unfold UINT32_MAX, INT_MAX in *; lia).
  assert (action_code (action_of action) = action) as -> by (assert (action = 0 ∨ action = 1) as [-> | ->] by lia; done).
  assert (result_code_Z (result_code_of code) = code) as ->.
  { assert (code = 0 ∨ code = 1 ∨ code = 2 ∨ code = 3 ∨ code = 4) as [-> |[-> |[-> |[-> | ->]]]] by lia; done. }
  split; [done|]. split_and!; try done; lia.
Qed.

Lemma accepts_decode type : accepts (decode late L type)
  (λ m bs, bs = payload m ∧ message_type m = type ∧ message_ok m ∧ parts_fit L m).
Proof.
  unfold decode.
  destruct (Z.eqb_spec type 1) as [->|]; [|destruct (Z.eqb_spec type 2) as [->|]; [|destruct (Z.eqb_spec type 3) as [->|];
    [|destruct (Z.eqb_spec type 4) as [->|]; [|destruct (Z.eqb_spec type 5) as [->|]; [|destruct (Z.eqb_spec type 6) as [->|]; [|done]]]]]].
  - eapply accepts_bind; [apply accepts_text|]. intros model bs (-> & H1).
    eapply accepts_bind; [apply accepts_text|]. intros compat bs (-> & H2). apply accepts_ret. by rewrite app_nil_r.
  - next 8%nat state. next 8%nat worker. next 8%nat lease. next 8%nat depth.
    eapply accepts_bind; [apply accepts_boolean|]. intros may bs ->.
    eapply accepts_bind; [apply accepts_bundle|]. intros b bs (-> & Hok & Hfit). apply accepts_ret. by rewrite app_nil_r.
  - eapply accepts_bind; [apply accepts_edge|]. intros e bs (-> & Hok & Hfit). apply accepts_ret. by rewrite app_nil_r.
  - next 8%nat lease. next 8%nat source. next 1%nat kind. apply accepts_guard. rewrite Z.ltb_ge. intros Hk.
    next 8%nat emitted. apply accepts_ret. rewrite app_nil_r.
    assert (done_kind_Z (done_kind_of kind) = kind) as Hkind.
    { assert (kind = 0 ∨ kind = 1 ∨ kind = 2 ∨ kind = 3 ∨ kind = 4) as [-> |[-> |[-> |[-> | ->]]]] by lia; done. }
    cbn [payload]. by rewrite Hkind.
  - next 8%nat lease. next 8%nat source. eapply accepts_bind; [apply accepts_text|]. intros why bs (-> & H1).
    apply accepts_ret. by rewrite app_nil_r.
  - by apply accepts_ret.
Qed.
End decode.
