(* ===== verification/WireChannel.v ===== *)
(** * The channel

    Sending and receiving whole messages, and sequences of them. *)

From S2P Require Import Prelude Linux Bytes Guest Frontier Wire WireProps WireDecode.

Definition usable (c : Channel) : Prop := c_failed c = false ∧ 0 ≤ c_fd c.

(** Received bytes that no message has been made of yet. *)
Definition unread (c : Channel) : list byte := c_input c ++ h_incoming (c_host c).

Definition mode_ok (mode : option str) : Prop :=
  match mode with Some v => v = lit "on" ∨ v = lit "off" | None => True end.

(** ** Headers *)

Lemma zlength_header type size : zlength (frame_header type size) = 16.
Proof. unfold frame_header. by rewrite !zlength_app, !zlength_le_bytes. Qed.

Lemma header_fields type size : 0 ≤ type < 256 ^ 2 → u64 size →
  let h := frame_header type size in
  le_Z (take 4 h) = magic ∧ le_Z (take 2 (drop 4 h)) = wire_version ∧
  le_Z (take 2 (drop 6 h)) = type ∧ le_Z (drop 8 h) = size.
Proof.
  intros Ht Hs. cbv zeta.
  change (take 4 (frame_header type size)) with (le_bytes 4 magic).
  change (take 2 (drop 4 (frame_header type size))) with (le_bytes 2 wire_version).
  change (take 2 (drop 6 (frame_header type size))) with (le_bytes 2 type).
  change (drop 8 (frame_header type size)) with (le_bytes 8 size).
  by rewrite !le_Z_small.
Qed.

Lemma header_of h : zlength h = 16 → le_Z (take 4 h) = magic → le_Z (take 2 (drop 4 h)) = wire_version →
  h = frame_header (le_Z (take 2 (drop 6 h))) (le_Z (drop 8 h)).
Proof.
  intros Hl Hm Hv. unfold frame_header. rewrite <- Hm, <- Hv.
  assert (∀ n bs, length bs = n → le_bytes n (le_Z bs) = bs) as Hb by (intros n bs <-; apply le_bytes_Z).
  unfold zlength in Hl. rewrite !Hb by (rewrite ?length_take, ?length_drop; lia).
  rewrite <- (take_drop 4 h) at 1. f_equal. rewrite <- (take_drop 2 (drop 4 h)) at 1. rewrite drop_drop. f_equal.
  change (4 + 2)%nat with 6%nat. rewrite <- (take_drop 2 (drop 6 h)) at 1. by rewrite drop_drop.
Qed.

Section channel.
Context (late : nat → bool).

(** ** Receiving *)

Lemma receive_body_sound L type size i i' m : 0 ≤ size →
  receive_body late L type size i = (i', Ret m) →
  message_type m = type ∧ message_ok m ∧ parts_fit L m ∧ zlength (payload m) = size ∧
  pending i = payload m ++ pending i'.
Proof.
  intros Hs. unfold receive_body. destruct (decode late L type _) as [r [m'|e]] eqn:E; [|done].
  apply accepts_decode in E as (bs & i1 & (-> & Ht & Hok & Hf) & Hp & Hl & ->); [|done]. cbn [r_remaining r_input].
  destruct (Z.eqb_spec (size - zlength (payload m')) 0); cbn [negb]; [|done].
  unfold require_time. destruct (late _); [done|]. intros [= <- <-]. unfold pending in Hp |- *. cbn.
  split_and!; [done..|lia|done].
Qed.

Lemma receive_frame c c' m : usable c → channel_receive late c = (c', Ret (Some m)) →
  message_ok m ∧ fits (c_limits c) m ∧ unread c = frame m ++ unread c' ∧ c_failed c' = false.
Proof.
  intros [Hf Hfd]. unfold channel_receive. rewrite bind_run. cbn [get]. rewrite guard_run, Hf, (proj2 (Z.ltb_ge _ _)) by done.
  cbn [orb]. unfold marking. rewrite bind_run. unfold on_input at 1, input_read.
  pose proof (read_loop_sound late true (h_recvs (c_host c)) 16 [] (mkInput (c_input c) (c_host c)) ltac:(lia)) as Hs.
  cbn [i_host]. destruct (read_loop _ _ _ _ _ _) as [i [[h|]|e]]; [| |done].
  2:{ rewrite bind_run. done. }
  destruct Hs as (Hle & -> & Hp). cbn [fst] in Hp. cbn [app] in *. change (pending (mkInput (c_input c) (c_host c))) with (unread c) in *.
  set (h := take (Z.to_nat 16) (unread c)) in *. assert (zlength h = 16) as Hlen by (by apply zlength_take).
  cbv zeta. rewrite guard_run. destruct (Z.eqb_spec (le_Z (take 4 h)) magic) as [Hm|]; [|done]. cbn [negb orb].
  destruct (negb _ && negb _) eqn:Hv; [done|]. rewrite guard_run. destruct (_ || _); [done|]. rewrite guard_run.
  destruct (Z.ltb_spec (max_frame_bytes (c_limits c)) (le_Z (drop 8 h))) as [|Hmax]; [done|]. rewrite guard_run.
  destruct (Z.eqb_spec (le_Z (take 2 (drop 4 h))) 2); [done|].
  destruct (Z.eqb_spec (le_Z (take 2 (drop 4 h))) wire_version) as [Hw|]; [clear Hv|done].
  rewrite bind_run. unfold on_input. cbn [c_input c_host c_limits].
  destruct (receive_body late _ _ _ _) as [i' [m'|e]] eqn:E; [|done]. rewrite ret_run. intros [= <- <-].
  apply receive_body_sound in E as (Ht & Hok & Hfit & Hsz & Hp'); [|apply le_Z_range].
  split; [done|]. split; [split; [done|lia]|]. split; [|done]. unfold frame. rewrite Ht, Hsz, <- header_of by done.
  change (unread (mkChannel _ _ _ _ _)) with (pending i').
  rewrite <- app_assoc. change (pending (mkInput (i_buffer i) (i_host i))) with (pending i) in Hp'.
  rewrite <- Hp', Hp. subst h. by rewrite take_drop.
Qed.

Lemma marking_throw {A} (m : M Channel A) c c' e : marking m c = (c', Throw e) → c_failed c' = true.
Proof. unfold marking. destruct (m c) as [c1 [a|e1]]; [done|]. by intros [= <- _]. Qed.

Lemma receive_end c c' : usable c → channel_receive late c = (c', Ret None) → unread c = [] ∧ c_failed c' = true.
Proof.
  intros [Hf Hfd]. unfold channel_receive. rewrite bind_run. cbn [get]. rewrite guard_run, Hf, (proj2 (Z.ltb_ge _ _)) by done.
  cbn [orb]. unfold marking. rewrite bind_run. unfold on_input at 1, input_read.
  pose proof (read_loop_sound late true (h_recvs (c_host c)) 16 [] (mkInput (c_input c) (c_host c)) ltac:(lia)) as Hs.
  cbn [i_host]. destruct (read_loop _ _ _ _ _ _) as [i [[h|]|e]]; [| |done].
  - cbv zeta. rewrite !guard_run. repeat (destruct (_ || _); [done|rewrite ?guard_run]).
    destruct (_ <? _); [done|]. destruct (_ =? 2); [done|]. rewrite bind_run.
    destruct (on_input _ _) as [c1 [m|e]]; done.
  - rewrite bind_run. cbn [modify]. intros [= <-]. destruct Hs as (_ & _ & Hs). done.
Qed.

Definition fed_channel (c : Channel) : Prop := fed (mkInput (c_input c) (c_host c)).

Lemma receive_ok c m rest : (∀ n, late n = false) → limits_ok (c_limits c) → usable c → fed_channel c →
  message_ok m → fits (c_limits c) m → unread c = frame m ++ rest →
  ∃ c', channel_receive late c = (c', Ret (Some m)) ∧ unread c' = rest ∧
    usable c' ∧ fed_channel c' ∧ c_limits c' = c_limits c.
Proof.
  intros Hl HL [Hf Hfd] Hfed Hok [Hparts Hsize] Hu. unfold limits_ok in HL. unfold frame in Hu. rewrite <- app_assoc in Hu.
  set (size := zlength (payload m)) in *. pose proof (zlength_nonneg (payload m)) as H0.
  assert (u64 size) as Hu64 by (unfold u64, UINT64_MAX in *; lia).
  destruct (header_fields (message_type m) size) as (F1 & F2 & F3 & F4); [by destruct m|done|].
  destruct (input_read_ok late 16 true (mkInput (c_input c) (c_host c)) _ _ Hl Hfed
    (zlength_header (message_type m) size) Hu) as (i1 & E1 & P1 & Fed1).
  destruct (parses_decode late (c_limits c) m Hok Hparts ltac:(lia) size i1 rest) as (i2 & E2 & P2 & Fed2);
    [done|unfold SIZE_MAX; lia|done..|].
  exists (mkChannel (c_fd c) (c_limits c) false (i_buffer i2) (tick (i_host i2))).
  split_and!; [|exact P2|done|exact Fed2|done].
  unfold channel_receive. rewrite bind_run. cbn [get]. rewrite guard_run, Hf, (proj2 (Z.ltb_ge _ _)) by done.
  cbn [orb]. unfold marking. rewrite bind_run. unfold on_input at 1. rewrite E1. cbv zeta.
  rewrite F1, F2, F3, F4, !guard_run. rewrite (proj2 (Z.ltb_ge (max_frame_bytes _) size)) by lia.
  replace ((message_type m <? 1) || (6 <? message_type m)) with false by (by destruct m).
  cbn [negb andb orb Z.eqb magic wire_version Pos.eqb]. rewrite bind_run. unfold on_input, receive_body. cbn [c_input c_host].
  replace (mkInput (i_buffer i1) (i_host i1)) with i1 by (by destruct i1). rewrite E2. cbn [r_remaining r_input].
  rewrite Z.sub_diag. cbn [Z.eqb negb]. rewrite require_time_ok, ret_run by done. cbn. by rewrite Hf.
Qed.

(** ** Sending *)

Lemma send_ok mode m n c : (∀ k, late k = false) → limits_ok (c_limits c) → usable c → mode_ok mode →
  fits (c_limits c) m → 0 ≤ n → sender_ready (zlength (frame m) + n) (h_sends (c_host c)) (h_polls (c_host c)) →
  ∃ c', channel_send late mode m c = (c', Ret tt) ∧ h_sent (c_host c') = h_sent (c_host c) ++ frame m ∧
    usable c' ∧ c_limits c' = c_limits c ∧ sender_ready n (h_sends (c_host c')) (h_polls (c_host c')).
Proof.
  intros Hl HL [Hf Hfd] Hmode [Hparts Hsize] Hn Hr. pose proof (zlength_nonneg (payload m)).
  pose proof (writes_encode late Hl (c_limits c) HL m) as [Hw _].
  destruct (Hw 0 None 0) as (ow & E1 & G1 & _); [done..|]. destruct ow; [done|]. clear G1. rewrite Z.add_0_l in E1.
  unfold frame in Hr. rewrite zlength_app, <- Z.add_assoc in Hr.
  destruct (append_ok late (frame_header (message_type m) (zlength (payload m))) (zlength (payload m) + n)
    (mkOutput [] (c_host c)) Hl ltac:(lia)) as (o1 & E2 & C2 & A2).
  { split; [rewrite zlength_header; lia|exact Hr|done]. }
  destruct (Hw 0 (Some o1) n) as (ow & E3 & G3 & A3); [done..|]. destruct ow as [o2|]; [|done].
  cbn [grows able_opt] in G3, A3.
  destruct (flush_ok late n o2 Hl Hn (ab_ready _ _ A3)) as (h & E4 & S4 & A4).
  exists (set_host (tick h) c). split_and!; [|cbn; rewrite S4, G3, C2; unfold content; cbn|done|done|exact (ab_ready _ _ A4)].
  - unfold channel_send. rewrite bind_run. cbn [get]. rewrite guard_run, Hf, (proj2 (Z.ltb_ge _ _)) by done. cbn [orb].
    unfold marking. rewrite guard_run, E1.
    replace (match mode with Some _ => _ | None => _ end) with false by (by destruct mode as [v|]; [destruct Hmode as [-> | ->]|]).
    cbn [mbind outcome_bind w_size]. rewrite lift_bind_run. unfold on_output_of, send_frame.
    rewrite bind_run, E2, bind_run. unfold encode_into. rewrite E3. cbn [w_output from_option]. unfold id. rewrite bind_run, E4.
    unfold on_output_host, zoom. cbn [o_host o_buffer]. rewrite require_time_ok by done. done.
  - by rewrite app_nil_r, <- app_assoc.
Qed.

Lemma send_oversized mode m c : (∀ k, late k = false) → limits_ok (c_limits c) → usable c → 0 ≤ max_frame_bytes (c_limits c) →
  ¬ fits (c_limits c) m → ∃ e, channel_send late mode m c = (set_failed c, Throw e).
Proof.
  intros Hl HL [Hf Hfd] Hmax Hfit. pose proof (writes_encode late Hl (c_limits c) HL m) as [_ Hw].
  destruct (encode late (c_limits c) None m (mkWriter 0 None)) as [w [[]|e]] eqn:E.
  { apply Hw in E as (Hp & Hs & _); [|done]. by destruct Hfit. }
  unfold channel_send. rewrite bind_run. cbn [get]. rewrite guard_run, Hf, (proj2 (Z.ltb_ge _ _)) by done. cbn [orb].
  unfold marking. rewrite guard_run, E. destruct (match mode with Some _ => _ | None => _ end); by eexists.
Qed.
End channel.

(** ** Sequences of messages *)

Fixpoint send_all (late : nat → bool) (mode : option str) (ms : list Message) : M Channel unit :=
  match ms with
  | [] => mret tt
  | m :: ms => channel_send late mode m;; send_all late mode ms
  end.

Fixpoint receive_all (late : nat → bool) (n : nat) : M Channel (list (option Message)) :=
  match n with
  | O => mret []
  | S n => m ← channel_receive late; ms ← receive_all late n; mret (m :: ms)
  end.

Lemma send_all_ok late mode ms c : (∀ n, late n = false) → limits_ok (c_limits c) → usable c → mode_ok mode →
  Forall (fits (c_limits c)) ms →
  sender_ready (zlength (concat (frame <$> ms))) (h_sends (c_host c)) (h_polls (c_host c)) →
  ∃ c', send_all late mode ms c = (c', Ret tt) ∧ h_sent (c_host c') = h_sent (c_host c) ++ concat (frame <$> ms).
Proof.
  intros Hl. revert c. induction ms as [|m ms IH]; intros c HL Hu Hm Hf Hr.
  { exists c. by rewrite app_nil_r. }
  apply Forall_cons in Hf as [Hf1 Hf]. cbn [fmap list_fmap concat] in Hr |- *. rewrite zlength_app in Hr.
  destruct (send_ok late mode m (zlength (concat (frame <$> ms))) c) as (c1 & E1 & S1 & U1 & L1 & R1);
    [done..|apply zlength_nonneg|done|].
  rewrite <- L1 in HL, Hf. destruct (IH c1) as (c2 & E2 & S2); [done..|].
  exists c2. cbn [send_all]. rewrite bind_run, E1, E2, S2, S1. by rewrite <- app_assoc.
Qed.

Lemma receive_all_ok late ms d rest : (∀ n, late n = false) → limits_ok (c_limits d) → usable d → fed_channel d →
  Forall message_ok ms → Forall (fits (c_limits d)) ms → unread d = concat (frame <$> ms) ++ rest →
  ∃ d', receive_all late (length ms) d = (d', Ret (Some <$> ms)) ∧ unread d' = rest.
Proof.
  intros Hl. revert d. induction ms as [|m ms IH]; intros d HL Hu Hfed Hok Hfit Hp.
  { by exists d. }
  apply Forall_cons in Hok as [Hok1 Hok], Hfit as [Hf1 Hf]. cbn [fmap list_fmap concat] in Hp. rewrite <- app_assoc in Hp.
  destruct (receive_ok late d m _ Hl HL Hu Hfed Hok1 Hf1 Hp) as (d1 & E1 & P1 & U1 & F1 & L1).
  rewrite <- L1 in HL, Hf. destruct (IH d1) as (d2 & E2 & P2); [done..|].
  exists d2. split; [|done]. cbn [length receive_all]. rewrite bind_run, E1, bind_run, E2. done.
Qed.

(** C37. Messages survive the wire: when the deadline does not pass and no call
    fails, any sequence of well-formed messages within the limits is sent
    completely, however the kernel splits, delays or interrupts the writes;
    and an endpoint with the same limits that has these bytes in front of it,
    however they are split between its read-ahead buffer and the socket and
    however the reads are cut, receives exactly those messages in that order
    and leaves whatever follows them unread. *)
Theorem wire_roundtrip late mode ms c :
  (∀ n, late n = false) → limits_ok (c_limits c) → usable c → mode_ok mode →
  Forall message_ok ms → Forall (fits (c_limits c)) ms →
  sender_ready (zlength (concat (frame <$> ms))) (h_sends (c_host c)) (h_polls (c_host c)) →
  ∃ c' sent, send_all late mode ms c = (c', Ret tt) ∧ h_sent (c_host c') = h_sent (c_host c) ++ sent ∧
    ∀ d rest, usable d → c_limits d = c_limits c → fed_channel d → unread d = sent ++ rest →
      ∃ d', receive_all late (length ms) d = (d', Ret (Some <$> ms)) ∧ unread d' = rest.
Proof.
  intros Hl HL Hu Hmode Hok Hfit Hr. destruct (send_all_ok late mode ms c Hl HL Hu Hmode Hfit Hr) as (c' & E & Hs).
  exists c', (concat (frame <$> ms)). split_and!; [done..|]. intros d rest Hud Hld Hfd Hp.
  rewrite <- Hld in HL, Hfit. by apply receive_all_ok.
Qed.

(** C38. The receiver accepts nothing else: whatever the peer sent, however the
    host behaves and whether or not the deadline passes, a call that returns
    a message consumed exactly the one encoding of that message, which is
    well formed and within the limits, and nothing beyond it; the end of the
    stream is reported only when no byte is left between frames; every
    exception and the end of the stream leave the channel unusable, and an
    unusable channel reads nothing. *)
Theorem receive_exact late c c' o : channel_receive late c = (c', o) →
  (usable c →
    match o with
    | Ret (Some m) =>
        message_ok m ∧ fits (c_limits c) m ∧ unread c = frame m ++ unread c' ∧ c_failed c' = false
    | Ret None => unread c = [] ∧ c_failed c' = true
    | Throw _ => c_failed c' = true
    end) ∧
  (c_failed c = true → c' = c ∧ o = Throw unusable).
Proof.
  intros E. split.
  - intros Hu. destruct o as [[m|]|e]; [by eapply receive_frame|by eapply receive_end|].
    destruct Hu as [Hf Hfd]. unfold channel_receive in E. rewrite bind_run in E. cbn [get] in E.
    rewrite guard_run, Hf, (proj2 (Z.ltb_ge _ _)) in E by done. cbn [orb] in E.
    exact (marking_throw _ _ _ _ E).
  - intros Hf. unfold channel_receive in E. rewrite bind_run in E. cbn [get] in E. rewrite guard_run, Hf in E.
    cbn [orb] in E. by injection E as <- <-.
Qed.

(** ** A small exchange *)

Definition sample_messages : list Message :=
  [MHello (lit "m") []; MDone 1 2 DTerminal 3; MTask (mkTicket 7 1 1 0 true) (mkBundle 1 7 [x01] [mkBlob 9 [x02; x03]]); MShutdown].

Definition no_counters : WireCounters := mkWireCounters 0 0 0 0 0.

Definition sample_sender : Channel :=
  mkChannel 3 default_limits false [] (mkHost 0 (SendIntr :: SendAgain :: replicate 250 (Accept 2)) [] [PollNone; PollReady] [] [] no_counters).

Lemma sample_fits : Forall message_ok sample_messages ∧ Forall (fits default_limits) sample_messages.
Proof.
  split; repeat (apply Forall_cons; split); try apply Forall_nil;
    unfold message_ok, bundle_ok, blob_ok, u64, fits, parts_fit, bundle_fits, text_fits; split_and?; try exact I;
    repeat (apply Forall_cons; split); try apply Forall_nil; first [exact I|vm_compute; split_and?; congruence].
Qed.

Lemma wire_roundtrip_witness :
  ∃ c' sent, send_all (λ _, false) None sample_messages sample_sender = (c', Ret tt) ∧
    h_sent (c_host c') = sent ∧
    ∀ d rest, usable d → c_limits d = default_limits → fed_channel d → unread d = sent ++ rest →
      ∃ d', receive_all (λ _, false) 4 d = (d', Ret (Some <$> sample_messages)) ∧ unread d' = rest.
Proof.
  apply (wire_roundtrip (λ _, false) None sample_messages sample_sender); try done; try apply sample_fits.
  split; [|by repeat constructor|vm_compute; congruence..].
  do 2 (apply Forall_cons; split; [done|]). by apply Forall_replicate.
Defined.

Definition sample_receiver : Channel :=
  mkChannel 3 default_limits false (take 5 (frame MShutdown))
    (mkHost 0 [] (RecvIntr :: replicate 20 (Deliver 3)) [] [] (drop 5 (frame MShutdown) ++ [x07]) no_counters).

Lemma receive_exact_witness :
  (channel_receive (λ _, false) sample_receiver).2 = Ret (Some MShutdown) ∧
  unread sample_receiver = frame MShutdown ++ unread (channel_receive (λ _, false) sample_receiver).1.
Proof.
  assert ((channel_receive (λ _, false) sample_receiver).2 = Ret (Some MShutdown)) as Ho by (vm_compute; reflexivity).
  split; [exact Ho|].
  destruct (receive_exact (λ _, false) sample_receiver _ _ (surjective_pairing _)) as [H _].
  rewrite Ho in H. assert (usable sample_receiver) as Hu by (split; [reflexivity|by apply Z.leb_le]).
  destruct (H Hu) as (_ & _ & Hp & _). exact Hp.
Defined.
