(* ===== verification/ProcState.v ===== *)
(** * Process kernel state

    [src/src/subsys/process/process_state.cpp]: signal dispositions, resource
    limits, the modelled random stream, names, clocks and their system calls,
    with the archive of the state; and the explored clock of
    [src/src/subsys/net/emu.cpp].  Capturing the initial state from a live
    process is host work and is not modelled. *)

From S2P Require Import Prelude Linux Bytes FdInterface FdManager Guest Vfs VfsMeta Futex Pending Blocking.

(** ** Constants *)

Definition SYS_rt_sigaction : Z := 13.
Definition SYS_getitimer : Z := 36.
Definition SYS_setitimer : Z := 38.
Definition SYS_umask : Z := 95.
Definition SYS_getrlimit : Z := 97.
Definition SYS_sysinfo : Z := 99.
Definition SYS_prctl : Z := 157.
Definition SYS_time : Z := 201.
Definition SYS_sched_getaffinity : Z := 204.
Definition SYS_clock_gettime : Z := 228.
Definition SYS_clock_getres : Z := 229.
Definition SYS_prlimit64 : Z := 302.
Definition SYS_getrandom : Z := 318.
Definition PR_SET_NAME : Z := 15.
Definition PR_GET_NAME : Z := 16.
Definition PR_CAPBSET_READ : Z := 23.
Definition CLOCK_REALTIME_COARSE : Z := 5.
Definition CLOCK_MONOTONIC_COARSE : Z := 6.
Definition GRND_NONBLOCK : Z := 1.
Definition GRND_RANDOM : Z := 2.
Definition GRND_INSECURE : Z := 4.
Definition SIGKILL : Z := 9.
Definition SIGSTOP : Z := 19.
Definition ITIMER_PROF : Z := 2.
Definition ESRCH : Z := 3.

(** ** Data *)

Record KernelSigaction := mkSigaction { handler : Z; sa_flags : Z; restorer : Z; sa_mask : Z }.
#[export] Instance KernelSigaction_eq_dec : EqDecision KernelSigaction.
Proof. solve_decision. Defined.
Definition no_action : KernelSigaction := mkSigaction 0 0 0 0.

Record KernelResourceLimit := mkRlimit { current : Z; maximum : Z }.

Record ProcessKernelState := mkKernelState {
  random_state : Z;
  signal_actions : gmap Z KernelSigaction;
  resource_limits : list KernelResourceLimit;
  capability_count : Z;
  capability_mask : Z;
}.

(** The member initializers *)
Definition ProcessKernelState_init : ProcessKernelState :=
  mkKernelState 5573589319906701683 ∅ (replicate 16 (mkRlimit 0 0)) 0 0.

Definition action_flags : Z := 3690987527.
Definition unmaskable : Z := Z.lor (Z.shiftl 1 (SIGKILL - 1)) (Z.shiftl 1 (SIGSTOP - 1)).

Definition valid_action (signal : Z) (a : KernelSigaction) : bool :=
  (1 <=? signal) && (signal <=? 64) && negb (signal =? SIGKILL) && negb (signal =? SIGSTOP) &&
  negb (has (sa_flags a) (Z.lnot action_flags)) && negb (has (sa_mask a) unmaskable) &&
  negb (bool_decide (a = no_action)).

Definition modeled_clock (clock : Z) : bool :=
  (clock =? CLOCK_REALTIME) || (clock =? CLOCK_MONOTONIC) ||
  (clock =? CLOCK_REALTIME_COARSE) || (clock =? CLOCK_MONOTONIC_COARSE).

Definition validate_clock (clock : Z) : outcome unit :=
  if modeled_clock clock then Ret tt else Throw (runtime_error "Unsupported modeled clock ID").

Definition valid_timer (value : Z * Z) : bool :=
  (0 <=? value.1) && (0 <=? value.2) && (value.2 <? 1000000).

(** [random_word]: the word, and the state after it *)
Definition random_step (state : Z) : Z :=
  let state := Z.lxor state (Z.shiftr state 12) in
  let state := Z.lxor state (uint64 (Z.shiftl state 25)) in
  Z.lxor state (Z.shiftr state 27).

Definition random_word (state : Z) : Z * Z :=
  let state := random_step state in
  (uint64 (state * 2685821657736338717), state).

Fixpoint random_words (n : nat) (seed : Z) : list byte * Z :=
  match n with
  | O => ([], seed)
  | S n =>
      let '(word, seed) := random_word seed in
      let '(bs, seed) := random_words n seed in
      (le_bytes 8 word ++ bs, seed)
  end.

(** ** The archive *)

Definition limit_scalars (l : KernelResourceLimit) : list Z := [current l; maximum l].
Definition action_scalars (e : Z * KernelSigaction) : list Z :=
  [e.1; handler e.2; sa_flags e.2; restorer e.2; sa_mask e.2].

Definition capabilities_bad (count mask : Z) : bool :=
  (64 <? count) || ((count <? 64) && negb (Z.shiftr mask count =? 0)).

(** [serialize] on an output archive: the scalars it writes *)
Definition kernel_save (k : ProcessKernelState) : outcome (list Z) :=
  let actions := entries (signal_actions k) in
  if (random_state k =? 0) || (62 <? zlength actions)
  then Throw (runtime_error "Invalid process kernel state archive")
  else if negb (forallb (λ e, valid_action e.1 e.2) actions)
  then Throw (runtime_error "Invalid signal action state")
  else if existsb (λ l, maximum l <? current l) (resource_limits k)
  then Throw (runtime_error "Invalid captured resource limit")
  else if capabilities_bad (capability_count k) (capability_mask k)
  then Throw (runtime_error "Invalid captured capability boundary")
  else Ret ([random_state k; zlength actions] ++ concat (action_scalars <$> actions) ++
            concat (limit_scalars <$> resource_limits k) ++ [capability_count k; capability_mask k]).

Section load.
Context {In : Type} `{!ScalarArchive In}.

Fixpoint load_actions (n : nat) (a : In) (actions : gmap Z KernelSigaction)
    : outcome (gmap Z KernelSigaction * In) :=
  match n with
  | O => Ret (actions, a)
  | S n =>
      '(signal, a) ← ar_take a;
      '(h, a) ← ar_take a;
      '(f, a) ← ar_take a;
      '(r, a) ← ar_take a;
      '(m, a) ← ar_take a;
      let signal := int32 signal in
      let action := mkSigaction (uint64 h) (uint64 f) (uint64 r) (uint64 m) in
      if negb (valid_action signal action) || bool_decide (is_Some (actions !! signal))
      then Throw (runtime_error "Invalid signal action archive")
      else load_actions n a (<[signal := action]> actions)
  end.

Fixpoint load_limits (n : nat) (a : In) (limits : list KernelResourceLimit)
    : outcome (list KernelResourceLimit * In) :=
  match n with
  | O => Ret (limits, a)
  | S n =>
      '(c, a) ← ar_take a;
      '(m, a) ← ar_take a;
      let l := mkRlimit (uint64 c) (uint64 m) in
      if maximum l <? current l then Throw (runtime_error "Invalid captured resource limit")
      else load_limits n a (limits ++ [l])
  end.

(** What [serialize] reads from an input archive before it stores anything *)
Definition load_state (limits : nat) (a : In) : outcome (ProcessKernelState * In) :=
  '(seed, a) ← ar_take a;
  '(count, a) ← ar_take a;
  let seed := uint64 seed in
  let count := uint32 count in
  if (seed =? 0) || (62 <? count) then Throw (runtime_error "Invalid process kernel state archive")
  else
    '(actions, a) ← load_actions (Z.to_nat count) a ∅;
    '(limits, a) ← load_limits limits a [];
    '(caps, a) ← ar_take a;
    '(mask, a) ← ar_take a;
    let caps := uint32 caps in
    let mask := uint64 mask in
    if capabilities_bad caps mask then Throw (runtime_error "Invalid captured capability boundary")
    else Ret (mkKernelState seed actions limits caps mask, a).

(** [serialize] on an input archive *)
Definition kernel_load (a : In) : M ProcessKernelState In := λ k,
  match load_state (length (resource_limits k)) a with
  | Ret (k', a) => (k', Ret a)
  | Throw e => (k, Throw e)
  end.
End load.

(** ** The calls *)

(** What the calls of one process use: its kernel state, clock, creation mask
    (kept by the file system) and thread names by slot, the threads of all
    nodes, the node and the current thread, and the process memory. *)
Record Kernel (Mem : Type) := mkKernel {
  k_state : ProcessKernelState;
  k_time : timeval;
  k_fs : FileSystemState;
  k_comm : list (list byte);
  k_threads : list (list thread_state);
  k_node : nat;
  k_tid : Z;
  k_mem : Mem;
}.
#[global] Arguments mkKernel {Mem}.
#[global] Arguments k_state {Mem}.
#[global] Arguments k_time {Mem}.
#[global] Arguments k_fs {Mem}.
#[global] Arguments k_comm {Mem}.
#[global] Arguments k_threads {Mem}.
#[global] Arguments k_node {Mem}.
#[global] Arguments k_tid {Mem}.
#[global] Arguments k_mem {Mem}.

(** [np] is the number of nodes, [NP]. *)
Definition logical_process_id (np node : Z) : outcome Z :=
  if (node <? 0) || (np <=? node) then Throw (runtime_error "Logical process index out of range")
  else Ret (node * Z.of_nat MAX_THREADS_PER_PROCESS + 1).

Definition logical_thread_id (np node slot : Z) : outcome Z :=
  if (slot <? 1) || (Z.of_nat MAX_THREADS_PER_PROCESS <? slot)
  then Throw (runtime_error "Logical thread slot out of range")
  else p ← logical_process_id np node; Ret (p + slot - 1).

(** The search of [sched_getaffinity], one thread after the other. *)
Fixpoint find_target (np node target pid : Z) (l : list (Z * thread_state)) : outcome bool :=
  match l with
  | [] => Ret false
  | (index, t) :: l =>
      if negb (alive t) then find_target np node target pid l
      else if (target =? 0) && (index =? node) && (physical_tid t =? pid) then Ret true
      else if 0 <? target then
        match logical_thread_id np index (t_tid t) with
        | Throw e => Throw e
        | Ret id => if id =? target then Ret true else find_target np node target pid l
        end
      else find_target np node target pid l
  end.

Definition all_threads (l : list (list thread_state)) : list (Z * thread_state) :=
  concat (imap (λ i ts, pair (Z.of_nat i) <$> ts) l).

Section calls.
Context {Mem : Type} `{!ProcessVm Mem}.
Abbreviation PM := (M (Kernel Mem)).

Definition upd_state (g : ProcessKernelState → ProcessKernelState) : PM unit :=
  modify (λ k, mkKernel (g (k_state k)) (k_time k) (k_fs k) (k_comm k) (k_threads k) (k_node k) (k_tid k) (k_mem k)).

Definition k_read (a n : Z) : PM (option (list byte)) := λ k, (k, Ret (guest_read_exact (k_mem k) a n)).

Definition k_write (a : Z) (bs : list byte) : PM bool := λ k,
  let '(m, ok) := guest_write_exact (k_mem k) a bs in
  (mkKernel (k_state k) (k_time k) (k_fs k) (k_comm k) (k_threads k) (k_node k) (k_tid k) m, Ret ok).

(** [write(address, value) ? result : -EFAULT] *)
Definition k_put (a : Z) (bs : list byte) (result : Z) : PM Z :=
  ok ← k_write a bs; mret (if ok : bool then result else - EFAULT).

Definition reserved (a size : Z) : bool := (a <? scratch_page + 4096) && (scratch_page - size <? a).

(** The loop that reads a name byte by byte, up to 15 of them *)
Fixpoint read_name (n : nat) (a : Z) (name : list byte) : PM (option (list byte)) :=
  match n with
  | O => mret (Some name)
  | S n =>
      if UINT64_MAX - zlength name <? a then mret None
      else
        b ← k_read (a + zlength name) 1;
        match b with
        | Some [c] => if bool_decide (c = NUL) then mret (Some name) else read_name n a (name ++ [c])
        | _ => mret None
        end
  end.

Definition pad_name (name : list byte) : list byte := name ++ zeros (16 - zlength name).

Definition prctl_call (option address : Z) : PM Z :=
  throw_if (negb (option =? PR_CAPBSET_READ) && negb (option =? PR_SET_NAME) && negb (option =? PR_GET_NAME))
    (runtime_error "Unsupported modeled prctl option");;
  k ← get;
  if option =? PR_CAPBSET_READ then
    throw_if (capability_count (k_state k) =? 0) (runtime_error "Capability boundary has not been captured");;
    mret (if capability_count (k_state k) <=? address then - EINVAL
          else Z.land (Z.shiftr (capability_mask (k_state k)) address) 1)
  else
    match bound_thread (k_tid k) (default [] (k_threads k !! k_node k)) with
    | None => throw (runtime_error "Thread name has no live logical owner")
    | Some (slot, _) =>
        throw_if (reserved address (if option =? PR_GET_NAME then 16 else 15))
          (runtime_error "Thread name buffer overlaps reserved syscall scratch page");;
        if option =? PR_GET_NAME then k_put address (default (zeros 16) (k_comm k !! slot)) 0
        else
          name ← read_name 15 address [];
          match name with
          | None => mret (- EFAULT)
          | Some name =>
              modify (λ k, mkKernel (k_state k) (k_time k) (k_fs k) (<[slot := pad_name name]> (k_comm k)) (k_threads k)
                             (k_node k) (k_tid k) (k_mem k));;
              mret 0
          end
    end.

Definition rlimit_call (extended : bool) (a : list Z) : PM Z :=
  k ← get;
  foreign ← (if negb extended then mret false
             else if negb (arg a 2 =? 0) then mret true
             else if int32 (arg a 0) =? 0 then mret false
             else p ← lift (logical_process_id (zlength (k_threads k)) (Z.of_nat (k_node k)));
                  mret (negb (int32 (arg a 0) =? p)));
  throw_if foreign
    (runtime_error "Only owned-process resource limit queries are supported");;
  let resource := uint32 (arg a (if extended then 1 else 0)%nat) in
  let destination := arg a (if extended then 3 else 1)%nat in
  match resource_limits (k_state k) !! Z.to_nat resource with
  | None => mret (- EINVAL)
  | Some l =>
      if extended && (destination =? 0) then mret 0
      else
        throw_if (reserved destination 16)
          (runtime_error "Resource limit output overlaps reserved syscall scratch page");;
        k_put destination (le_bytes 8 (current l) ++ le_bytes 8 (maximum l)) 0
  end.

Definition encode_timespec (sec nsec : Z) : list byte := le_bytes 8 sec ++ le_bytes 8 nsec.

Definition clock_call (resolution : bool) (clock destination : Z) : PM Z :=
  lift (validate_clock (int32 clock));;
  k ← get;
  if resolution && (destination =? 0) then mret 0
  else k_put destination
         (if resolution then encode_timespec 0 1000
          else encode_timespec (tval_sec (k_time k)) (tval_usec (k_time k) * 1000)) 0.

Definition time_call (destination : Z) : PM Z :=
  k ← get;
  let value := tval_sec (k_time k) in
  if destination =? 0 then mret value else k_put destination (le_bytes 8 value) value.

Definition getrandom_call (destination length flags : Z) : PM Z :=
  let flags := uint32 flags in
  if has flags (Z.lnot (Z.lor GRND_NONBLOCK (Z.lor GRND_RANDOM GRND_INSECURE))) ||
     (has flags GRND_RANDOM && has flags GRND_INSECURE)
  then mret (- EINVAL)
  else
    let count := Z.min length (256 * 1024) in
    if count =? 0 then mret 0
    else
      k ← get;
      let '(bs, seed) := random_words (Z.to_nat ((count + 7) / 8)) (random_state (k_state k)) in
      ok ← k_write destination (take (Z.to_nat count) bs);
      if ok : bool then
        upd_state (λ s, mkKernelState seed (signal_actions s) (resource_limits s) (capability_count s) (capability_mask s));;
        mret count
      else mret (- EFAULT).

Definition affinity_call (pid length destination : Z) : PM Z :=
  let length := uint32 length in
  if (uint32 (length * 8) <? 1) || negb (length mod 8 =? 0) then mret (- EINVAL)
  else
    k ← get;
    live ← lift (find_target (zlength (k_threads k)) (Z.of_nat (k_node k)) (int32 pid) (k_tid k) (all_threads (k_threads k)));
    if negb live then mret (- ESRCH) else k_put destination (le_bytes 8 1) 8.

(** [struct sysinfo], 112 bytes *)
Definition encode_sysinfo (uptime totalram freeram procs mem_unit : Z) : list byte :=
  le_bytes 8 uptime ++ zeros 24 ++ le_bytes 8 totalram ++ le_bytes 8 freeram ++ zeros 32 ++
  le_bytes 2 procs ++ zeros 22 ++ le_bytes 4 mem_unit ++ zeros 4.

Definition sysinfo_call (destination : Z) : PM Z :=
  k ← get;
  k_put destination (encode_sysinfo (tval_sec (k_time k)) (2 ^ 30) (2 ^ 29) (zlength (k_threads k)) 1) 0.

Definition encode_action (a : KernelSigaction) : list byte :=
  le_bytes 8 (handler a) ++ le_bytes 8 (sa_flags a) ++ le_bytes 8 (restorer a) ++ le_bytes 8 (sa_mask a).
Definition decode_action (bs : list byte) : KernelSigaction :=
  mkSigaction (le_Z (take 8 bs)) (le_Z (take 8 (drop 8 bs))) (le_Z (take 8 (drop 16 bs))) (le_Z (take 8 (drop 24 bs))).

(** The new action, if the caller gives one: [inl] is an error result. *)
Definition read_action (signal address : Z) : PM (Z + option KernelSigaction) :=
  if address =? 0 then mret (inr None)
  else if (signal =? SIGKILL) || (signal =? SIGSTOP) then mret (inl (- EINVAL))
  else
    bs ← k_read address 32;
    match bs with
    | None => mret (inl (- EFAULT))
    | Some bs =>
        let a := decode_action bs in
        throw_if (has (sa_flags a) (Z.lnot action_flags)) (runtime_error "Unsupported signal action flags");;
        mret (inr (Some (mkSigaction (handler a) (sa_flags a) (restorer a) (Z.land (sa_mask a) (Z.lnot unmaskable)))))
    end.

Definition set_action (signal : Z) (a : KernelSigaction) (s : ProcessKernelState) : ProcessKernelState :=
  mkKernelState (random_state s)
    (if bool_decide (a = no_action) then delete signal (signal_actions s) else <[signal := a]> (signal_actions s))
    (resource_limits s) (capability_count s) (capability_mask s).

Definition sigaction_call (sig act oact size : Z) : PM Z :=
  let signal := int32 sig in
  if (signal <? 1) || (64 <? signal) || negb (size =? 8) then mret (- EINVAL)
  else
    r ← read_action signal act;
    match r with
    | inl e => mret e
    | inr action =>
        k ← get;
        let old := default no_action (signal_actions (k_state k) !! signal) in
        ok ← (if negb (oact =? 0) then k_write oact (encode_action old) else mret true);
        if negb ok then mret (- EFAULT)
        else
          match action with
          | Some a => upd_state (set_action signal a);; mret 0
          | None => mret 0
          end
    end.

Definition decode_itimer (bs : list byte) : (Z * Z) * (Z * Z) :=
  (decode_timespec (take 16 bs), decode_timespec (drop 16 bs)).

Definition itimer_call (set : bool) (which a b : Z) : PM Z :=
  if ITIMER_PROF <? which then mret (- EINVAL)
  else if negb set then k_put a (zeros 32) 0
  else
    bs ← (if negb (a =? 0) then k_read a 32 else mret (Some (zeros 32)));
    match bs with
    | None => mret (- EFAULT)
    | Some bs =>
        let '(interval, value) := decode_itimer bs in
        if negb (valid_timer interval) || negb (valid_timer value) then mret (- EINVAL)
        else
          throw_if (negb (interval.1 =? 0) || negb (interval.2 =? 0) || negb (value.1 =? 0) || negb (value.2 =? 0))
            (runtime_error "Armed interval timers are unsupported");;
          if b =? 0 then mret 0 else k_put b bs 0
    end.

Definition umask_call (mask : Z) : PM Z :=
  k ← get;
  modify (λ k, mkKernel (k_state k) (k_time k) (set_creation_mask mask (k_fs k)) (k_comm k) (k_threads k) (k_node k)
                 (k_tid k) (k_mem k));;
  mret (creation_mask_ (k_fs k)).

(** [emu_process_syscall] *)
Definition emu_process_syscall (info : syscall_info) : PM Z :=
  let a := i_args info in
  let nr := i_nr info in
  if nr =? SYS_prctl then prctl_call (uint32 (arg a 0)) (arg a 1)
  else if nr =? SYS_getrlimit then rlimit_call false a
  else if nr =? SYS_prlimit64 then rlimit_call true a
  else if nr =? SYS_clock_gettime then clock_call false (arg a 0) (arg a 1)
  else if nr =? SYS_clock_getres then clock_call true (arg a 0) (arg a 1)
  else if nr =? SYS_time then time_call (arg a 0)
  else if nr =? SYS_getrandom then getrandom_call (arg a 0) (arg a 1) (arg a 2)
  else if nr =? SYS_sched_getaffinity then affinity_call (arg a 0) (arg a 1) (arg a 2)
  else if nr =? SYS_sysinfo then sysinfo_call (arg a 0)
  else if nr =? SYS_rt_sigaction then sigaction_call (arg a 0) (arg a 1) (arg a 2) (arg a 3)
  else if nr =? SYS_setitimer then itimer_call true (arg a 0) (arg a 1) (arg a 2)
  else if nr =? SYS_getitimer then itimer_call false (arg a 0) (arg a 1) (arg a 2)
  else if nr =? SYS_umask then umask_call (arg a 0)
  else throw (runtime_error "Unknown process kernel model syscall").
End calls.

(** ** The explored clock *)

Definition kDefaultTimeStepUs : Z := 100.

(** [advance_clock]; C++ division truncates *)
Definition advance_clock (now : timeval) (microseconds : Z) : timeval :=
  let sec := tval_sec now + Z.quot microseconds 1000000 in
  let usec := tval_usec now + Z.rem microseconds 1000000 in
  if 1000000 <=? usec then mkTimeval (sec + 1) (usec - 1000000) else mkTimeval sec usec.

Section clock.
Context {Mem : Type} `{!ProcessVm Mem}.

Definition encode_timeval (t : timeval) : list byte := le_bytes 8 (tval_sec t) ++ le_bytes 8 (tval_usec t).

(** [emu_gettimeofday_write]: the clock moves only when both copies succeed *)
Definition emu_gettimeofday_write (result : timeval) (tv tz : Z) : M (Kernel Mem) Z :=
  ok ← (if negb (tv =? 0) then k_write tv (encode_timeval result) else mret true);
  if negb ok then mret (- EFAULT)
  else
    ok ← (if negb (tz =? 0) then k_write tz (zeros 8) else mret true);
    if negb ok then mret (- EFAULT)
    else
      modify (λ k, mkKernel (k_state k) result (k_fs k) (k_comm k) (k_threads k) (k_node k) (k_tid k) (k_mem k));;
      mret 0.

(** [emu_gettimeofday]; the plugin gets the choice and the clock, and may give
    a value and the result of the call. *)
Definition emu_gettimeofday (n_choose choose : Z) (plugin : option (Z → timeval → option (option timeval * Z)))
    (tv tz : Z) : M (Kernel Mem) Z :=
  k ← get;
  let now := k_time k in
  if negb (n_choose =? 0) then
    match plugin with
    | Some f =>
        match f choose now with
        | None => throw (runtime_error "choose_gettimeofday returned no outcome")
        | Some (value, rval) =>
            let result := match value with
                          | Some t => t
                          | None => if 0 <? choose then advance_clock now (kDefaultTimeStepUs * choose) else now
                          end in
            r ← emu_gettimeofday_write result tv tz;
            mret (if negb (r =? 0) then r else rval)
        end
    | None =>
        let choice := if choose <? 0 then 0 else choose in
        emu_gettimeofday_write (advance_clock now (kDefaultTimeStepUs * (choice + 1))) tv tz
    end
  else emu_gettimeofday_write now tv tz.
End clock.
