(* ===== verification/ProcProps.v ===== *)
(** * Process kernel state, proved

    Every state the calls can reach can be archived and is restored exactly;
    the explored clock only moves forward. *)

From S2P Require Import Prelude Linux Bytes FdInterface FdManager Guest Vfs VfsMeta Futex Pending Blocking WireProps ProcState.

(** ** The random stream never dies

    A xorshift state of zero would stay zero; each of the three steps is
    invertible, so it is never reached. *)

Lemma lxor_range n a b : 0 ≤ n → 0 ≤ a < 2 ^ n → 0 ≤ b < 2 ^ n → 0 ≤ Z.lxor a b < 2 ^ n.
Proof.
  intros Hn Ha Hb. rewrite <- (Z.mod_small a (2 ^ n)), <- (Z.mod_small b (2 ^ n)) by done.
  replace (Z.lxor (a mod 2 ^ n) (b mod 2 ^ n)) with (Z.lxor a b mod 2 ^ n); [apply Z.mod_pos_bound; lia|].
  apply Z.bits_inj'. intros i Hi. rewrite Z.lxor_spec, !Z.testbit_mod_pow2, Z.lxor_spec by lia.
  by destruct (i <? n).
Qed.

Lemma lxor_shiftr_nonzero x k : 0 < x → 0 < k → Z.lxor x (Z.shiftr x k) ≠ 0.
Proof.
  intros Hx Hk H%Z.lxor_eq. rewrite Z.shiftr_div_pow2 in H by lia.
  pose proof (Z.div_lt x (2 ^ k) Hx). pose proof (Z.pow_gt_1 2 k). lia.
Qed.

Lemma lxor_shiftl_nonzero x k : 0 < x < 2 ^ 64 → 0 < k → Z.lxor x (uint64 (Z.shiftl x k)) ≠ 0.
Proof.
  intros Hx Hk H%Z.lxor_eq. unfold uint64 in H.
  assert (∀ i : nat, Z.testbit x (Z.of_nat i) = false) as Hbits.
  { intros i. induction i as [i IH] using lt_wf_ind. rewrite H.
    destruct (decide (Z.of_nat i < 64)); [|by rewrite Z.mod_pow2_bits_high by lia].
    rewrite Z.mod_pow2_bits_low, Z.shiftl_spec by lia.
    destruct (decide (k ≤ Z.of_nat i)); [|apply Z.testbit_neg_r; lia].
    replace (Z.of_nat i - k) with (Z.of_nat (i - Z.to_nat k)) by lia. apply IH. lia. }
  assert (x = 0); [|lia]. apply Z.bits_inj'. intros i Hi. rewrite Z.testbit_0_l, <- (Z2Nat.id i) by done. apply Hbits.
Qed.

Definition live_seed (s : Z) : Prop := 0 < s < 2 ^ 64.

Lemma random_step_live s : live_seed s → live_seed (random_step s).
Proof.
  unfold live_seed, random_step. intros Hs. cbv zeta.
  assert (∀ x k, 0 < k → live_seed x → live_seed (Z.lxor x (Z.shiftr x k))) as Hr.
  { intros x k Hk Hx. unfold live_seed in *. pose proof (lxor_shiftr_nonzero x k).
    assert (0 ≤ Z.shiftr x k < 2 ^ 64); [|pose proof (lxor_range 64 x (Z.shiftr x k)); lia].
    rewrite Z.shiftr_div_pow2 by lia. pose proof (Z.pow_pos_nonneg 2 k).
    split; [apply Z.div_pos; lia|]. apply Z.div_lt_upper_bound; nia. }
  apply Hr; [lia|]. specialize (Hr s 12 ltac:(lia) Hs). set (x := Z.lxor s (Z.shiftr s 12)) in *. unfold live_seed in *.
  pose proof (lxor_shiftl_nonzero x 25 Hr ltac:(lia)).
  pose proof (lxor_range 64 x (uint64 (Z.shiftl x 25)) ltac:(lia) ltac:(lia)).
  pose proof (uint64_range (Z.shiftl x 25)). unfold UINT64_MAX in *. lia.
Qed.

Lemma random_words_live n s : live_seed s → live_seed (random_words n s).2.
Proof.
  revert s. induction n as [|n IH]; intros s Hs; cbn [random_words random_word]; [done|].
  specialize (IH _ (random_step_live _ Hs)). by destruct (random_words n (random_step s)).
Qed.

(** ** Well-formed states *)

Definition action_range (a : KernelSigaction) : Prop :=
  u64 (handler a) ∧ u64 (sa_flags a) ∧ u64 (restorer a) ∧ u64 (sa_mask a).
Definition limit_ok (l : KernelResourceLimit) : Prop := 0 ≤ current l ≤ maximum l ∧ u64 (maximum l).

Record kernel_ok (s : ProcessKernelState) : Prop := {
  ko_random : live_seed (random_state s);
  ko_actions : map_Forall (λ n a, valid_action n a = true ∧ action_range a) (signal_actions s);
  ko_limits : length (resource_limits s) = 16%nat ∧ Forall limit_ok (resource_limits s);
  ko_caps : 0 ≤ capability_count s ∧ u64 (capability_mask s) ∧
    capabilities_bad (capability_count s) (capability_mask s) = false;
}.

Lemma kernel_ok_init : kernel_ok ProcessKernelState_init.
Proof.
  split; [by split|apply map_Forall_empty|split; [done|by apply Forall_replicate]|by split_and!].
Qed.

Lemma kernel_ok_seed s seed : kernel_ok s → live_seed seed →
  kernel_ok (mkKernelState seed (signal_actions s) (resource_limits s) (capability_count s) (capability_mask s)).
Proof. intros [] Hs. by split. Qed.

Lemma kernel_ok_action s n a : kernel_ok s → a = no_action ∨ (valid_action n a = true ∧ action_range a) →
  kernel_ok (set_action n a s).
Proof.
  intros [H1 H2 H3 H4] Ha. split; try done. cbn [set_action signal_actions].
  destruct (bool_decide_reflect (a = no_action)); [by apply map_Forall_delete|].
  apply map_Forall_insert_2; [|done]. by destruct Ha.
Qed.

(** ** The calls keep them well formed *)

Lemma le_Z_8 bs : (length bs ≤ 8)%nat → u64 (le_Z bs).
Proof.
  intros H. pose proof (le_Z_range bs). unfold u64.
  assert (256 ^ zlength bs ≤ 256 ^ 8) by (apply Z.pow_le_mono_r; unfold zlength; lia). lia.
Qed.

Lemma land_mask_range m : u64 m → u64 (Z.land m (Z.lnot unmaskable)).
Proof.
  unfold u64. intros Hm. split; [apply Z.land_nonneg; lia|].
  assert (Z.land m (Z.lnot unmaskable) ≤ m); [|lia]. apply Z.ldiff_le; [lia|].
  rewrite Z.ldiff_land, (Z.land_comm m), <- Z.land_assoc, Z.land_lnot_diag. apply Z.land_0_r.
Qed.

Lemma mask_cleared m : has (Z.land m (Z.lnot unmaskable)) unmaskable = false.
Proof. apply has_false. by rewrite <- Z.land_assoc, (Z.land_comm (Z.lnot _)), Z.land_lnot_diag, Z.land_0_r. Qed.

Section preserve.
Context {Mem : Type} `{!ProcessVm Mem}.
Abbreviation PM := (M (Kernel Mem)).

Definition keeps_ok {A} (m : PM A) : Prop := ∀ k k' o,
  m k = (k', o) → kernel_ok (k_state k) → kernel_ok (k_state k').
(** Computations that do not touch the state at all *)
Definition untouched {A} (m : PM A) : Prop := ∀ k k' o, m k = (k', o) → k_state k' = k_state k.

Lemma untouched_ok {A} (m : PM A) : untouched m → keeps_ok m.
Proof. intros H k k' o E. by rewrite (H _ _ _ E). Qed.
Lemma untouched_bind {A B} (m : PM A) (f : A → PM B) : untouched m → (∀ a, untouched (f a)) → untouched (m ≫= f).
Proof.
  intros Hm Hf k k' o. rewrite bind_run. destruct (m k) as [k1 [a|e]] eqn:E; apply Hm in E.
  - intros H%Hf. congruence.
  - by intros [= <- <-].
Qed.
Lemma untouched_same {A} (f : Kernel Mem → Kernel Mem * outcome A) : (∀ k, k_state (f k).1 = k_state k) → untouched f.
Proof. intros H k k' o E. specialize (H k). by rewrite E in H. Qed.
Lemma untouched_throw_if c e : untouched (throw_if c e).
Proof. by apply untouched_same; destruct c. Qed.
Lemma untouched_write a bs : untouched (k_write a bs).
Proof. apply untouched_same. intros k. unfold k_write. by destruct (guest_write_exact _ _ _). Qed.
Lemma untouched_put a bs r : untouched (k_put a bs r).
Proof. apply untouched_bind; [apply untouched_write|]. intros ok. by apply untouched_same. Qed.

(** Lay a computation open until only primitive steps are left. *)
Ltac still := repeat first
  [ apply untouched_put | apply untouched_write | apply untouched_throw_if
  | apply untouched_bind; [|intros ?]
  | case_match | by apply untouched_same ].

Lemma untouched_name n a name : untouched (read_name n a name).
Proof. revert name. induction n as [|n IH]; intros name; cbn [read_name]; still; apply IH. Qed.

Lemma untouched_action n a : untouched (read_action n a).
Proof. unfold read_action. still. Qed.

Lemma read_action_valid n a k k' act : 1 ≤ n ≤ 64 → read_action n a k = (k', Ret (inr (Some act))) →
  act = no_action ∨ (valid_action n act = true ∧ action_range act).
Proof.
  intros Hn. unfold read_action. destruct (a =? 0); [done|].
  destruct (Z.eqb_spec n SIGKILL); [done|]. destruct (Z.eqb_spec n SIGSTOP); [done|]. cbn [orb].
  rewrite bind_run. unfold k_read. destruct (guest_read_exact _ _ _) as [bs|]; [|done]. cbv zeta. rewrite guard_run.
  destruct (has _ _) eqn:Hf; [done|]. intros [= _ <-].
  set (act := mkSigaction _ _ _ _). destruct (decide (act = no_action)); [by left|]. right.
  assert (∀ j, u64 (le_Z (take 8 (drop j bs)))) as Hr by (intros j; apply le_Z_8; rewrite length_take; lia). split.
  - unfold valid_action. rewrite (proj2 (Z.leb_le 1 n)), (proj2 (Z.leb_le n 64)) by lia.
    rewrite (proj2 (Z.eqb_neq n SIGKILL)), (proj2 (Z.eqb_neq n SIGSTOP)) by done.
    rewrite bool_decide_false by done. subst act. cbn [sa_flags sa_mask decode_action] in Hf |- *. by rewrite Hf, mask_cleared.
  - subst act. unfold action_range. cbn [handler sa_flags restorer sa_mask decode_action].
    split; [apply (Hr 0%nat)|]. split; [apply Hr|]. split; [apply Hr|]. apply land_mask_range, Hr.
Qed.

Lemma sigaction_ok sig act oact size : keeps_ok (sigaction_call sig act oact size).
Proof.
  intros k k' o. unfold sigaction_call. cbv zeta. set (n := int32 sig).
  destruct (Z.ltb_spec n 1); [by intros [= <- <-]|]. destruct (Z.ltb_spec 64 n); [by intros [= <- <-]|].
  destruct (negb (size =? 8)); [by intros [= <- <-]|]. cbn [orb]. rewrite bind_run.
  destruct (read_action n act k) as [k1 [[e|a]|e]] eqn:E1; pose proof (untouched_action _ _ _ _ _ E1) as S1;
    [by intros [= <- <-]; rewrite S1| |by intros [= <- <-]; rewrite S1].
  rewrite bind_run. cbn [get]. rewrite bind_run.
  assert (untouched (if negb (oact =? 0) then k_write oact (encode_action (default no_action (signal_actions (k_state k1) !! n)))
    else mret true)) as Hw by still.
  match type of Hw with untouched ?w => destruct (w k1) as [k2 [ok|e]] eqn:E2 end; apply Hw in E2; [|by intros [= <- <-]; rewrite E2, S1].
  destruct ok; cbn [negb]; [|by intros [= <- <-]; rewrite E2, S1]. destruct a as [a|]; [|by intros [= <- <-]; rewrite E2, S1].
  rewrite bind_run. intros [= <- <-] Hok. cbn [k_state]. rewrite E2, S1. apply kernel_ok_action; [done|].
  eapply read_action_valid; [|exact E1]. lia.
Qed.

Lemma getrandom_ok d l f : keeps_ok (getrandom_call d l f).
Proof.
  intros k k' o. unfold getrandom_call. cbv zeta. destruct (_ || _); [by intros [= <- <-]|].
  destruct (_ =? 0); [by intros [= <- <-]|]. rewrite bind_run. cbn [get].
  set (n := Z.to_nat ((Z.min l (256 * 1024) + 7) / 8)).
  destruct (random_words n (random_state (k_state k))) as [bs seed] eqn:E. rewrite bind_run.
  destruct (k_write d _ k) as [k1 [ok|e]] eqn:E1; apply untouched_write in E1; [|by intros [= <- <-]; rewrite E1].
  destruct ok; [|by intros [= <- <-]; rewrite E1]. rewrite bind_run. intros [= <- <-] Hok. cbn [k_state]. rewrite E1.
  apply kernel_ok_seed; [done|]. pose proof (random_words_live n _ (ko_random _ Hok)) as H. by rewrite E in H.
Qed.

Lemma emu_process_ok info : keeps_ok (emu_process_syscall info).
Proof.
  unfold emu_process_syscall. cbv zeta.
  repeat match goal with |- keeps_ok (if _ then _ else _) => case_match end;
    try apply getrandom_ok; try apply sigaction_ok; apply untouched_ok.
  - unfold prctl_call. still. apply untouched_name.
  - unfold rlimit_call. still.
  - unfold rlimit_call. still.
  - unfold clock_call. still.
  - unfold clock_call. still.
  - unfold time_call. still.
  - unfold affinity_call. still.
  - unfold sysinfo_call. still.
  - unfold itimer_call. still.
  - unfold itimer_call. still.
  - unfold umask_call. still.
  - still.
Qed.
End preserve.

(** ** The archive *)

Definition signals : gset Z := list_to_set (seqZ 1 64) ∖ {[SIGKILL; SIGSTOP]}.

Lemma valid_signal n a : valid_action n a = true → n ∈ signals ∧ 1 ≤ n ≤ 64.
Proof.
  unfold valid_action. rewrite !andb_true_iff, !Z.leb_le, !negb_true_iff, !Z.eqb_neq. intros H.
  split; [|lia]. unfold signals. rewrite elem_of_difference, elem_of_list_to_set, elem_of_seqZ, elem_of_union, !elem_of_singleton. lia.
Qed.

Lemma few_actions s : kernel_ok s → zlength (entries (signal_actions s)) ≤ 62.
Proof.
  intros [_ Ha _ _]. unfold zlength. rewrite length_entries, <- size_dom.
  assert (dom (signal_actions s) ⊆ signals) as Hs%subseteq_size.
  { intros n [a Hn]%elem_of_dom. by apply (valid_signal n a), (Ha n a). }
  assert (size signals = 62%nat) as Hc by (vm_compute; reflexivity). lia.
Qed.

Section archive.
Context {In : Type} `{!ScalarArchive In}.

Lemma load_actions_save l m rest :
  StronglySorted entry_lt l → Forall (λ e, valid_action e.1 e.2 = true ∧ action_range e.2) l →
  Forall (λ e, m !! e.1 = None) l →
  load_actions (length l) (ar_of (In:=In) (concat (action_scalars <$> l) ++ rest)) m =
    Ret (foldl (λ m e, <[e.1 := e.2]> m) m l, ar_of rest).
Proof.
  intros Hl. revert m. induction Hl as [|[n [h f r k]] l Hl IH Hall]; intros m Hv Hn; [done|].
  apply Forall_cons in Hv as [[Hv1 (R1 & R2 & R3 & R4)] Hv], Hn as [Hn1 Hn]. cbn [fst snd handler sa_flags restorer sa_mask] in *.
  cbn [length load_actions fmap list_fmap concat action_scalars fst snd handler sa_flags restorer sa_mask app].
  repeat (rewrite ar_take_of; cbn [mbind outcome_bind]).
  destruct (valid_signal _ _ Hv1) as [_ Hr]. unfold u64 in *.
  rewrite int32_small, !uint64_small by (unfold INT_MIN, INT_MAX, UINT64_MAX; lia).
  rewrite Hv1, bool_decide_false by (rewrite Hn1; by intros []). cbn [negb orb]. apply IH; [done|].
  apply Forall_forall. intros e He. rewrite Forall_forall in Hn, Hall. destruct (Hall e He) as [_ Hne].
  rewrite lookup_insert_ne by done. by apply Hn.
Qed.

Lemma load_limits_save l acc rest : Forall limit_ok l →
  load_limits (length l) (ar_of (In:=In) (concat (limit_scalars <$> l) ++ rest)) acc = Ret (acc ++ l, ar_of rest).
Proof.
  revert acc. induction l as [|[c m] l IH]; intros acc Hl; [by rewrite app_nil_r|].
  apply Forall_cons in Hl as [[H1 H2] Hl]. unfold u64 in H2. cbn [current maximum] in *.
  cbn [length load_limits fmap list_fmap concat limit_scalars current maximum app].
  repeat (rewrite ar_take_of; cbn [mbind outcome_bind]).
  rewrite !uint64_small by (unfold UINT64_MAX; lia). rewrite (proj2 (Z.ltb_ge m c)) by lia. rewrite IH by done.
  by rewrite <- app_assoc.
Qed.

Lemma kernel_archive s : kernel_ok s →
  ∃ scalars, kernel_save s = Ret scalars ∧
    ∀ s0 rest, length (resource_limits s0) = 16%nat →
      kernel_load (ar_of (In:=In) (scalars ++ rest)) s0 = (s, Ret (ar_of rest)).
Proof.
  intros Hok. pose proof (few_actions s Hok) as Hfew. pose proof (zlength_nonneg (entries (signal_actions s))) as Hnn.
  destruct Hok as [H1 H2 [H3 H3'] (H4 & H5 & H6)]. unfold live_seed in H1. unfold u64 in H5.
  assert (Forall (λ e, valid_action e.1 e.2 = true ∧ action_range e.2) (entries (signal_actions s))) as Hv.
  { apply Forall_forall. intros [n a] Hin%elem_of_entries. by apply H2. }
  unfold kernel_save. cbv zeta. rewrite (proj2 (Z.eqb_neq _ _)), (proj2 (Z.ltb_ge 62 _)) by lia. cbn [orb].
  assert (forallb (λ e, valid_action e.1 e.2) (entries (signal_actions s)) = true) as ->.
  { apply forallb_forall. intros e He%list_elem_of_In. rewrite Forall_forall in Hv. by apply Hv. }
  assert (existsb (λ l, maximum l <? current l) (resource_limits s) = false) as ->.
  { apply not_true_iff_false. intros (l & Hin%list_elem_of_In & Hl%Z.ltb_lt)%existsb_exists.
    rewrite Forall_forall in H3'. destruct (H3' l Hin). lia. }
  cbn [negb]. rewrite H6. eexists. split; [done|]. intros s0 rest Hlen.
  assert (capability_count s ≤ 64) as Hcaps.
  { unfold capabilities_bad in H6. apply orb_false_iff in H6 as [H6%Z.ltb_ge _]. exact H6. }
  unfold kernel_load, load_state. rewrite <- !app_assoc. cbn [app].
  repeat (rewrite ar_take_of; cbn [mbind outcome_bind]).
  rewrite uint64_small, uint32_small by (unfold UINT64_MAX, UINT32_MAX; lia).
  rewrite (proj2 (Z.eqb_neq _ _)), (proj2 (Z.ltb_ge 62 _)) by lia. cbn [orb].
  replace (Z.to_nat (zlength (entries (signal_actions s)))) with (length (entries (signal_actions s))) by (unfold zlength; lia).
  rewrite load_actions_save; [|apply StronglySorted_entries|done|by apply Forall_true]. cbn [mbind outcome_bind].
  rewrite Hlen, <- H3, load_limits_save by done. cbn [mbind outcome_bind app].
  repeat (rewrite ar_take_of; cbn [mbind outcome_bind]).
  rewrite uint64_small, uint32_small, H6 by (unfold UINT64_MAX, UINT32_MAX; lia).
  rewrite foldl_insert_list_to_map by apply NoDup_fst_entries.
  rewrite (right_id_L ∅ (∪)), list_to_map_entries. by destruct s.
Qed.

Lemma u64_uint64 z : u64 (uint64 z).
Proof. pose proof (uint64_range z). unfold u64, UINT64_MAX in *. lia. Qed.

Lemma load_actions_ok n (a a' : In) m m' :
  map_Forall (λ n a, valid_action n a = true ∧ action_range a) m → load_actions n a m = Ret (m', a') →
  map_Forall (λ n a, valid_action n a = true ∧ action_range a) m'.
Proof.
  revert a m. induction n as [|n IH]; intros a m Hm; cbn [load_actions]; [by intros [= <- <-]|].
  do 5 (destruct (ar_take _) as [[? ?]|?]; [cbn [mbind outcome_bind]|done]).
  destruct (valid_action _ _) eqn:Hv; [|done]. cbn [negb orb]. destruct (bool_decide _); [done|].
  apply IH, map_Forall_insert_2; [|done]. split; [done|]. split_and!; apply u64_uint64.
Qed.

Lemma load_limits_ok n (a a' : In) l l' :
  Forall limit_ok l → load_limits n a l = Ret (l', a') → Forall limit_ok l' ∧ length l' = (length l + n)%nat.
Proof.
  revert a l. induction n as [|n IH]; intros a l Hl; cbn [load_limits]; [intros [= <- <-]; split; [done|lia]|].
  do 2 (destruct (ar_take _) as [[? ?]|?]; [cbn [mbind outcome_bind]|done]).
  cbn [current maximum]. destruct (Z.ltb_spec (uint64 z0) (uint64 z)) as [|Hle]; [done|]. intros [H1 H2]%IH.
  - split; [done|]. rewrite length_app in H2. cbn [length] in H2. lia.
  - apply Forall_app_2; [done|]. constructor; [|done]. split; cbn [current maximum]; [|apply u64_uint64].
    pose proof (uint64_range z). lia.
Qed.

Lemma kernel_load_ok (a a' : In) s0 s : length (resource_limits s0) = 16%nat → kernel_load a s0 = (s, Ret a') → kernel_ok s.
Proof.
  intros Hlen. unfold kernel_load, load_state. rewrite Hlen.
  do 2 (destruct (ar_take _) as [[? ?]|?]; [cbn [mbind outcome_bind]|done]).
  destruct (Z.eqb_spec (uint64 z) 0); [done|]. destruct (62 <? uint32 z0); [done|]. cbn [orb].
  destruct (load_actions _ _ ∅) as [[m b]|?] eqn:E1; [cbn [mbind outcome_bind]|done].
  destruct (load_limits _ _ []) as [[l c]|?] eqn:E2; [cbn [mbind outcome_bind]|done].
  do 2 (destruct (ar_take _) as [[? ?]|?]; [cbn [mbind outcome_bind]|done]).
  destruct (capabilities_bad _ _) eqn:Hc; [done|]. intros [= <- _].
  apply load_actions_ok in E1; [|apply map_Forall_empty]. apply load_limits_ok in E2 as [E2 E2']; [|done].
  pose proof (uint64_range z). pose proof (u64_uint64 z2) as Hu.
  split; [unfold live_seed; cbn [random_state]; unfold UINT64_MAX in *; lia|done|done|].
  cbn [capability_count capability_mask]. split; [apply Z.mod_pos_bound; lia|]. by split.
Qed.
End archive.

(** ** Runs *)

Section runs.
Context {Mem : Type} `{!ProcessVm Mem} {In : Type} `{!ScalarArchive In}.

(** A call finds the kernel state left by the last one, and anything else. *)
Definition with_state (s : ProcessKernelState) (e : Kernel Mem) : Kernel Mem :=
  mkKernel s (k_time e) (k_fs e) (k_comm e) (k_threads e) (k_node e) (k_tid e) (k_mem e).

Fixpoint kernel_run (l : list (Kernel Mem * syscall_info)) (s : ProcessKernelState) : ProcessKernelState :=
  match l with
  | [] => s
  | (e, info) :: l => kernel_run l (k_state (emu_process_syscall info (with_state s e)).1)
  end.

Lemma kernel_run_ok l s : kernel_ok s → kernel_ok (kernel_run l s).
Proof.
  revert s. induction l as [|[e info] l IH]; intros s Hs; cbn [kernel_run]; [done|]. apply IH.
  destruct (emu_process_syscall info (with_state s e)) as [k o] eqn:E.
  exact (emu_process_ok info _ _ _ E Hs).
Qed.

(** C36. Every kernel state a process can get into can be archived and comes
    back unchanged: after any sequence of process calls, whatever the clocks,
    threads and memory they find and however they end, saving succeeds and
    loading the scalars, with anything behind them, restores exactly that
    state and stops behind it.  In particular the random state never becomes
    zero, no forbidden signal disposition is ever stored, and there is never
    a disposition too many.  What loading accepts is always such a state, and
    a rejected archive leaves the old state. *)
Theorem kernel_state_archive l s : kernel_ok s →
  (∃ scalars, kernel_save (kernel_run l s) = Ret scalars ∧
    ∀ s0 rest, length (resource_limits s0) = 16%nat →
      kernel_load (ar_of (In:=In) (scalars ++ rest)) s0 = (kernel_run l s, Ret (ar_of rest))) ∧
  (∀ (a : In) s0 s1 o, length (resource_limits s0) = 16%nat → kernel_load a s0 = (s1, o) →
    match o with Ret _ => kernel_ok s1 | Throw _ => s1 = s0 end).
Proof.
  intros Hs. split; [by apply kernel_archive, kernel_run_ok|].
  intros a s0 s1 [a'|e] Hlen E; [by eapply kernel_load_ok|].
  unfold kernel_load in E. destruct (load_state _ a) as [[k b]|?]; [done|]. by injection E as <-.
Qed.
End runs.

(** A process that draws three random bytes, installs a handler for SIGINT,
    blocking everything, and forgets it for SIGTERM. *)
Definition sample_kernel : Kernel FlatMem :=
  mkKernel ProcessKernelState_init (mkTimeval 0 0) FileSystemState_init [] [] 0 0
    (flat_write (zero_region 4096 128) 4160 (encode_action (mkSigaction 8192 0 0 (2 ^ 64 - 1)))).1.
Definition sample_calls : list (Kernel FlatMem * syscall_info) :=
  [(sample_kernel, mkInfo SYS_getrandom [4096; 3; 0] 0);
   (sample_kernel, mkInfo SYS_rt_sigaction [2; 4160; 0; 8] 0);
   (sample_kernel, mkInfo SYS_rt_sigaction [15; 4112; 4128; 8] 0)].

(** The stored mask lacks SIGKILL and SIGSTOP, and the archive comes back. *)
Lemma kernel_state_archive_witness :
  signal_actions (kernel_run sample_calls ProcessKernelState_init) =
    {[2 := mkSigaction 8192 0 0 (2 ^ 64 - 1 - 2 ^ 8 - 2 ^ 18)]} ∧
  ∃ scalars, kernel_save (kernel_run sample_calls ProcessKernelState_init) = Ret scalars ∧
    kernel_load (In:=list Z) (scalars ++ [7]) ProcessKernelState_init =
      (kernel_run sample_calls ProcessKernelState_init, Ret [7]).
Proof.
  split; [by vm_compute|].
  destruct (kernel_state_archive (In:=list Z) sample_calls ProcessKernelState_init kernel_ok_init) as [(w & Hw & Hl) _].
  exists w. split; [exact Hw|]. exact (Hl ProcessKernelState_init [7] eq_refl).
Defined.

(** ** The clock *)

(** A normalised clock stays normalised and moves by exactly the step. *)
Lemma advance_clock_exact t us : clock_ok t = true → 0 ≤ us →
  clock_ok (advance_clock t us) = true ∧ nanos (advance_clock t us) = nanos t + us * 1000.
Proof.
  rewrite clock_ok_spec. intros Ht Hus. unfold advance_clock, nanos, billion.
  rewrite Z.quot_div_nonneg, Z.rem_mod_nonneg by lia.
  pose proof (Z.div_mod us 1000000 ltac:(lia)). pose proof (Z.mod_pos_bound us 1000000 ltac:(lia)).
  pose proof (Z.div_pos us 1000000). destruct (Z.leb_spec 1000000 (tval_usec t + us mod 1000000));
    (split; [apply clock_ok_spec|]; cbn [tval_sec tval_usec]; lia).
Qed.
